(* ===== verification/_CoqProject ===== *)
-Q . S2P
Prelude.v
Energy.v
DecayCurves.v
EnergyKernel.v
Types.v
Trie.v
StateDB.v
Transactions.v
Mempool.v
Mmr.v
Lifecycle.v
ScriptValue.v
ScriptVM.v
ScriptCompiler.v
ScriptTokens.v
ScriptGrammar.v
ScriptParses.v
ScriptPrinter.v
ScriptRoundTrip.v
ScriptText.v
ScriptEngine.v
ScriptSource.v
ScriptDepth.v
Validators.v
Anchor.v
LightClient.v
Finality.v
Sanov.v
Tendermint.v
TendermintSafety.v
TendermintVotes.v
TendermintRuns.v
Fees.v
Fractions.v
Temporal.v
Executor.v
Governance.v
BlockExecutor.v
Ledger.v
Nonces.v
Authorisation.v
ExecutorRuns.v
Rewards.v
Upkeep.v
Lyapunov.v
EvapProof.v
Block.v
BlockMoney.v
BlockRuns.v
