(* ===== verification/Prelude.v ===== *)
(** * EvaporChain verification library

    EvaporChain is a proof-of-stake chain, written in Rust, whose state decays:
    every stored object carries energy with a half-life, and an object whose
    energy is gone is evaporated into a nullifier that can be resurrected.
    This library models the chain's core crates as executable definitions and
    proves the properties they are relied on for.

    ** The program and the files

    - [Prelude] (this file): fixed-width integers, results, hash-map
      iteration order as an interface ([HashOrder]), ordered maps, bounded
      loops, and the tactics and hints the other files share.
    - [Energy]: crates/evaporchain-types/src/lib.rs ([energy_at_epoch] and the
      two vesting schedules) and [epochs_until_zero] of
      crates/evaporchain-state/src/evaporation.rs.  Every other component
      decays through [energy_at_epoch].
    - [DecayCurves]: crates/evaporchain-state/src/decay_curves.rs, the
      programmable curves with the stack machine for custom ones
      ([CustomVM]).
    - [EnergyKernel]: crates/evaporchain-energy-kernel: the three-compartment
      accumulator, redirects and audits ([Kernel]), and the refresh pool with
      its credit ledger ([Pool]).
    - [Types]: the records of crates/evaporchain-types the state needs.
    - [Trie]: crates/evaporchain-crypto/src/energy_verkle.rs, the state
      commitment: insertion, deletion, energy queries, compression of cold
      subtrees, proofs and their verifier.
    - [StateDB]: the in-memory database of crates/evaporchain-state/src/db.rs:
      objects, accounts, ghosts, the trie kept in step with them, batches with
      rollback, snapshots, nullifiers and the restore wipe.
    - [Mmr]: crates/evaporchain-crypto/src/accumulator.rs, the Merkle Mountain
      Range of nullifiers with its proofs.
    - [Lifecycle]: evaporation.rs and refresh.rs of evaporchain-state and the
      refresh transaction of crates/evaporchain-execution/src/lib.rs.  They
      work against the class [Lifecycle.StateDB], the part of the Rust trait
      they use; the database of [StateDB] is its instance.
    - [ScriptValue], [ScriptVM], [ScriptCompiler], [ScriptEngine]:
      crates/evaporchain-script.  Values, opcodes and the deploy-time
      validator; the gas-metered stack machine (a state and error monad over
      the machine and the external caller, one definition per opcode and
      built-in); the compiler from syntax trees to code with both optimiser
      passes, the ABI and the totality gate; the contract engine with the
      cross-contract router.  [ScriptVM] states what it asks of whoever
      serves a nested call as the class [ExternalCallerLaws]; [ScriptEngine]
      proves that the router is an instance.  [ScriptValue.Allen] is
      crates/evaporchain-allen-decay, which the machine calls.
    - [ScriptTokens], [ScriptGrammar]: parser.rs of evaporchain-script: the
      lexer on UTF-8 text and the recursive-descent parser, a state and error
      monad over the tokens left and the two depth counters.  [ScriptParses]
      has its totality and its promise to the compiler; [ScriptPrinter],
      [ScriptRoundTrip] and [ScriptText] a printer, from expressions to bytes,
      that it inverts; [ScriptSource] deployments and upgrades from source
      text; [ScriptDepth] the sources its guards miss.
    - [Transactions]: the transaction kinds of crates/evaporchain-types and
      the bytes that are signed and hashed for each.
    - [Mempool]: crates/evaporchain-consensus/src/mempool.rs: admission, the
      indexes, expiry, and the draws by nonce, by priority and by gas.
    - [Validators]: validator_set.rs and the epoch transitions of
      crates/evaporchain-consensus-types: stake, jailing, slashing, leader
      selection, delegation, the join and leave queues; an [f64] is IEEE
      binary64 as in the Standard Library's [SpecFloat] ([F64]).
    - [Anchor]: anchor.rs and the anchors of the node's frontier.rs: the
      anchor chain, lazy evaluation of decayed state, the snapshot cache.
    - [LightClient]: the light client of evaporchain-consensus-types and
      light_client.rs: headers, certificates, skipping verification, state
      proofs at an epoch.
    - [Finality]: finality.rs: irreversible records, pruning, proofs.
    - [Sanov]: crates/evaporchain-sanov-slashing: divergences in fixed point
      and the slash they cost.
    - [Tendermint]: tendermint.rs: the round state machine of one validator,
      the whole of [tick] and [on_message].  The fields of the engine are
      grouped by what changes them ([Config], [RoundState], [Lock],
      [Evidence], [DaState], [Books], [Timeouts]).  [TendermintSafety] counts
      quorums and commits, [TendermintVotes] the votes and locks of one
      validator over any inputs, [TendermintRuns] puts several validators on
      a network.
    - [Fees], [Temporal], [Executor], [Governance], [BlockExecutor]:
      fees.rs, temporal.rs and lib.rs of crates/evaporchain-execution: the fee
      controller, deferred transactions and watchers, one definition per
      transaction kind, proposals and votes, and the loop over the
      transactions of a block up to the deferred ones.  [Ledger] counts the
      money of transactions, [Nonces] their nonces, [Authorisation] who pays,
      [ExecutorRuns] runs concrete blocks.
    - [Fractions], [Rewards]: the economics of genesis.rs and emission.rs in
      crates/evaporchain-types and rewards.rs of evaporchain-execution.
    - [Upkeep]: crates/evaporchain-tombstone, -demurrage and -decay-lamport,
      and the sweeps of rent, demurrage and vesting releases.
    - [Lyapunov]: crates/evaporchain-fee-controller, the fee state that the
      executor advances beside the controller of [Fees].
    - [EvapProof]: evaporation_proof.rs of crates/evaporchain-proving.
    - [Block]: the whole of [execute_block] with its audit (energy_audit.rs).
      A [Node] is the [Machine] that transactions work on and the [Keeper]
      with the executor's other fields.  [BlockMoney] composes the ledgers of
      all the parts; [BlockRuns] runs whole blocks.

    A [u64] is a [Z] in its range with the source's wrapping, saturating or
    checked operation written out; a [HashMap] is a [gmap], and where the code
    iterates over one the order is the parameter [HashOrder], about which
    only "a permutation of the keys" is known; a [BTreeMap] iterates in key
    order; a [Result] is [result]; a panic or a missing value is [None].
    blake3, hexadecimal and the [Debug] escaping of strings are parameters with
    their documented behaviour as hypotheses (lengths, byte range and, where a
    proof needs it, injectivity or collision freedom on the values involved).
    So are the blst library, the hybrid and ML-DSA signature verifiers, the JSON
    of transactions and curves, the contract and application templates, the
    Unicode tables beyond ASCII and, for the executor, the script parser as a
    whole (its model is in [ScriptGrammar]).  What other subsystems tell the voting core about
    a proposed block, and the block they would propose, is the environment
    [Tendermint.Env] of a step, over which the theorems quantify.

    ** What is proved

    - Energy: decay is a monotone contraction, its horizon is predicted
      exactly, vesting releases what it should when it should, built-in curves
      decay, validated custom curves fail only for stack reasons; redirects
      and the refresh ledger conserve energy.
    - State: the trie refines a finite map under any history; its proofs are
      complete (and its verifier is shown to accept a false exclusion);
      compression never touches a subtree with energy; threshold queries are
      exact; a rollback restores the database; the incrementally maintained
      root is the root of a trie rebuilt from the tables; the wipe clears the
      ledger; every nullifier appended to the range can be proved.
    - Lifecycle: one epoch of evaporation, object by object and independent of
      iteration order; grace periods are honoured; evaporation and
      resurrection round-trip; refresh on every branch; only owners refresh.
    - Scripts: every call terminates within the step limit and stays within
      gas, stack and memory; hooks reach no other contract; random ranges are
      unbiased; folding agrees with the machine, dead-code elimination is
      invisible, generated code passes validation, the ABI's read-only flag is
      sound, contracts that pass the totality gate run in linear time; the
      engine keeps its invariant through any sequence of operations, calls are
      atomic and isolated, upgrades keep live data, ticks evaporate exactly
      what is due.  The parser answers on every source, reads back every
      printed contract from its text, and builds only trees whose literals are
      well formed, so the engine's invariant holds from any source.
    - Transactions and mempool: what a signature binds, kind by kind; the
      mempool's indexes always describe its queue and its limits hold; draws
      lose nothing, keep to their limits and respect nonces; admitted
      signatures are authentic.
    - Validators, anchors, light clients: transitions keep the set orderly and
      quorums of neighbouring epochs intersect; leaders are elected in
      proportion to stake; lazy evaluation agrees with the epoch sweep; the
      anchor chain commits to its history; a light client only holds
      certified states; state proofs round-trip.
    - Consensus: a quorum is exactly more than two thirds of the active stake
      in any iteration order; quorums of one round agree; blocks are committed
      only on a quorum and available data; a validator votes once per round
      and respects its lock; finality records are irreversible and their
      proofs binding; a block hash binds the fields it covers; slashes
      conserve energy.
    - Execution: over any transactions the tokens in the books change exactly
      by the fees, deposits, sponsored gas and slashes taken out; a nonce is
      used once; an account loses money only through a transaction it signed
      or that names it as paymaster; a failure costs the fee; deferred
      transactions are each refunded, run or kept; parameters change only by a
      vote and cannot crash the fee controller.
    - The rest of the block: rewards, fee shares and payouts to stakers lose
      and invent no token and respect the cap; rent and demurrage are, in any
      order of the accounts, pointwise charges that reach the refresh pool;
      vesting releases are exact; evaporation proofs are complete and their
      transcript binds the batch; and, composed, a whole block moves the money
      of the chain by exactly the terms [block_money_exact] lists.
    - Defects that the model exhibits on concrete inputs: two honest
      validators commit different blocks with one faulty validator of four; an
      honest proposer is slashed after the rounds start over; round skips need
      no signature; a draining validator votes; blocks with different
      submission epochs share a hash; constant folding misplaces the method
      table; nested calls to one contract lose updates; map writes bypass the
      state-key limit; forged next headers and state proofs are accepted; the
      priority draw breaks nonce order; a token staked on another validator's
      identifier takes over its stake; deferred transactions spend for anybody
      and refund deposits nobody paid; forged paymasters pay fees; hints that
      no hash covers mint tokens past the cap; an object under a validator's
      address takes its rewards away; the audit can never be enforced, and
      would refuse blocks after applying them; the yield cap is bypassed and
      the remainder of a payout depends on hash order; the fee state never
      moves; evaporated objects are missing from the proof of their block;
      types, [else if] and operator chains pass the parser's depth guards at
      any depth a source has room for, and a condition of [while] that begins
      with a parenthesis is refused.

    ** Bounds and fuel

    The interpreter loop runs [STEP_FUEL] = [MAX_STEPS] + 1 iterations, in
    binary so that it costs nothing to state; [execute_terminates] shows that
    the loop always ends within it.  The router's recursion is on the call
    depth that is left: [CALL_FUEL] is [MAX_CALL_DEPTH], and
    [router_call_fuel] shows that more levels change nothing.  The worklist of
    the dead-code pass, the folding loop and the loops of the accumulator and
    of the custom-curve machine have fuel that lemmas beside them show to be
    enough.  In the parser, expressions and blocks have two levels of fuel more
    than their depth guards allow and every loop one step per token;
    [parse_total] shows that it never runs out.  The root of the nullifiers in
    [EvapProof] recurses once per leaf, more often than the number of levels
    ([compute_mmr_root_unfold]).

    ** Not modelled

    Of consensus: building a block from the mempool, applying a committed one,
    fork choice on the light-cone DAG, synchronisation and checkpoints.  Of
    execution: the privacy executor behind shielded transactions, the parallel
    executors (which mirror the sequential one), the phase rotation and the
    monitors of a block that only observe, and genesis loading.  The encrypted
    mempool, data availability coding, bridges, networking, the persistent
    (RocksDB) database, cryptographic primitives and zero-knowledge circuits,
    node, wallet and command-line programs, and the many experimental crates
    that only call into the ones above. *)

From stdpp Require Import base gmap list sorting strings.
From Stdlib Require Import ZArith Lia.

Open Scope Z_scope.

(** ** Fixed-width unsigned integers

    A Rust [u64] (and a [usize] of the 64-bit targets) is a [Z] in
    [0, 2^64).  The operations below are the ones the sources use:
    [saturating_*], [checked_*], [wrapping_mul], the truncating cast
    [as u64], and the release-mode [+], which wraps. *)

Definition U64_MAX : Z := 2 ^ 64 - 1.

(** The values a [u64] can hold. *)
Definition is_u64 (z : Z) : Prop := 0 <= z <= U64_MAX.

#[global] Instance is_u64_dec z : Decision (is_u64 z).
Proof. unfold is_u64. apply _. Defined.

Definition as_u64 (z : Z) : Z := z mod 2 ^ 64.
Definition wrapping_add (a b : Z) : Z := as_u64 (a + b).
Definition wrapping_mul (a b : Z) : Z := as_u64 (a * b).
Definition saturating_add (a b : Z) : Z := Z.min (a + b) U64_MAX.
Definition saturating_sub (a b : Z) : Z := Z.max (a - b) 0.
Definition saturating_mul (a b : Z) : Z := Z.min (a * b) U64_MAX.
Definition checked_add (a b : Z) : option Z :=
  if a + b <=? U64_MAX then Some (a + b) else None.
Definition checked_sub (a b : Z) : option Z :=
  if b <=? a then Some (a - b) else None.
Definition checked_mul (a b : Z) : option Z :=
  if a * b <=? U64_MAX then Some (a * b) else None.
Definition div_ceil (a b : Z) : Z := (a + b - 1) / b.

(** Byte strings and 32-byte arrays: lists of [u8] values. *)
Abbreviation bytes := (list Z).

(** [u64::from_le_bytes] of a byte slice. *)
Fixpoint from_le_bytes (bs : bytes) : Z :=
  match bs with
  | [] => 0
  | b :: bs' => b + 256 * from_le_bytes bs'
  end.

(** [n.to_le_bytes()] of a [u64] on [k] bytes. *)
Fixpoint to_le_bytes (k : nat) (n : Z) : bytes :=
  match k with
  | O => []
  | S k' => n mod 256 :: to_le_bytes k' (n / 256)
  end.

(** ** Results

    Rust's [Result<A, E>], with the [?] operator as a bind. *)

Inductive result (A E : Type) : Type :=
| Ok (a : A)
| Err (e : E).
Arguments Ok {A E} a.
Arguments Err {A E} e.

#[global] Instance result_eq_dec {A E} `{EqDecision A, EqDecision E} :
  EqDecision (result A E).
Proof. solve_decision. Defined.

Definition rbind {A B E} (m : result A E) (f : A -> result B E) : result B E :=
  match m with
  | Ok a => f a
  | Err e => Err e
  end.

(** [o.ok_or(e)?] *)
Definition ok_or {A E} (o : option A) (e : E) : result A E :=
  match o with
  | Some a => Ok a
  | None => Err e
  end.

Declare Scope rust_scope.
Delimit Scope rust_scope with rust.
Notation "'let?' x ':=' c 'in' k" := (rbind c (fun x => k))
  (at level 10, x name, c at level 100, k at level 200) : rust_scope.
Notation "'let?' ''' p ':=' c 'in' k" := (rbind c (fun 'p => k))
  (at level 10, p pattern, c at level 100, k at level 200) : rust_scope.
Open Scope rust_scope.

Section result_lemmas.
Context {A B E : Type}.

Lemma rbind_Ok (m : result A E) (f : A -> result B E) b :
  rbind m f = Ok b <-> exists a, m = Ok a /\ f a = Ok b.
Proof. destruct m; naive_solver. Qed.

Lemma rbind_Err (m : result A E) (f : A -> result B E) e :
  rbind m f = Err e <-> m = Err e \/ exists a, m = Ok a /\ f a = Err e.
Proof. destruct m; naive_solver. Qed.

Lemma rbind_assoc {C} (m : result A E) (f : A -> result B E) (g : B -> result C E) :
  rbind (rbind m f) g = rbind m (fun a => rbind (f a) g).
Proof. by destruct m. Qed.

Lemma ok_or_Ok (o : option A) (e : E) a : ok_or o e = Ok a <-> o = Some a.
Proof. destruct o; naive_solver. Qed.
End result_lemmas.

(** ** Tactics *)

(** Unfold the integer operations and let [lia] see the bounds. *)
Ltac u64_unfold :=
  unfold is_u64, saturating_add, saturating_sub, saturating_mul,
    checked_add, checked_sub, checked_mul, U64_MAX in *.

Ltac u64_lia := u64_unfold; lia.

(** Invert a successful chain of [let?]s. *)
Ltac rinv H :=
  repeat match type of H with
  | rbind _ _ = Ok _ =>
      let a := fresh "a" in let E := fresh "E" in
      apply rbind_Ok in H as (a & E & H); cbv beta in H
  | ok_or _ _ = Ok _ => apply ok_or_Ok in H
  | (let '_ := ?p in _) = Ok _ => destruct p
  end.

(** Turn boolean comparisons of the code into propositions. *)
Ltac zbool :=
  repeat match goal with
  | H : (_ =? _) = true |- _ => apply Z.eqb_eq in H
  | H : (_ =? _) = false |- _ => apply Z.eqb_neq in H
  | H : (_ <=? _) = true |- _ => apply Z.leb_le in H
  | H : (_ <=? _) = false |- _ => apply Z.leb_gt in H
  | H : (_ <? _) = true |- _ => apply Z.ltb_lt in H
  | H : (_ <? _) = false |- _ => apply Z.ltb_ge in H
  end.

(** Case on every [if] over an integer comparison in the goal. *)
Ltac zcase :=
  repeat match goal with
  | |- context [if (?a =? ?b) then _ else _] => destruct (Z.eqb_spec a b)
  | |- context [if (?a <=? ?b) then _ else _] => destruct (Z.leb_spec a b)
  | |- context [if (?a <? ?b) then _ else _] => destruct (Z.ltb_spec a b)
  end.

(** ** Integer lemmas *)

Create HintDb u64.

Lemma as_u64_range z : is_u64 (as_u64 z).
Proof. unfold as_u64, is_u64, U64_MAX. pose proof (Z.mod_pos_bound z (2 ^ 64)). lia. Qed.

Lemma as_u64_small z : is_u64 z -> as_u64 z = z.
Proof. unfold as_u64, is_u64, U64_MAX. intros. apply Z.mod_small. lia. Qed.

Lemma saturating_add_range a b : 0 <= a -> 0 <= b -> is_u64 (saturating_add a b).
Proof. u64_lia. Qed.

Lemma saturating_sub_range a b : is_u64 a -> 0 <= b -> is_u64 (saturating_sub a b).
Proof. u64_lia. Qed.

Lemma saturating_sub_0_r a : 0 <= a -> saturating_sub a 0 = a.
Proof. u64_lia. Qed.

Lemma saturating_sub_exact a b : b <= a -> saturating_sub a b = a - b.
Proof. u64_lia. Qed.

Lemma saturating_sub_twice a b c : 0 <= b -> 0 <= c ->
  saturating_sub (saturating_sub a b) c = saturating_sub a (b + c).
Proof. u64_lia. Qed.

Lemma saturating_add_exact a b : a + b <= U64_MAX -> saturating_add a b = a + b.
Proof. u64_lia. Qed.

Lemma checked_add_Some a b c :
  checked_add a b = Some c <-> c = a + b /\ a + b <= U64_MAX.
Proof. unfold checked_add. zcase; naive_solver lia. Qed.

Lemma checked_sub_Some a b c : checked_sub a b = Some c <-> c = a - b /\ b <= a.
Proof. unfold checked_sub. zcase; naive_solver lia. Qed.

Lemma checked_mul_Some a b c :
  checked_mul a b = Some c <-> c = a * b /\ a * b <= U64_MAX.
Proof. unfold checked_mul. zcase; naive_solver lia. Qed.

#[export] Hint Resolve as_u64_range saturating_add_range saturating_sub_range : u64.

Lemma from_le_bytes_range bs :
  Forall (fun b => 0 <= b < 256) bs ->
  0 <= from_le_bytes bs < 256 ^ Z.of_nat (length bs).
Proof.
  induction 1 as [|b bs Hb Hbs IH]; [simpl; lia|].
  cbn [from_le_bytes length]. rewrite Nat2Z.inj_succ, Z.pow_succ_r by lia. lia.
Qed.

Lemma length_to_le_bytes k n : length (to_le_bytes k n) = k.
Proof. revert n. induction k; intros n; simpl; [done|]. by rewrite IHk. Qed.

Lemma from_to_le_bytes k n :
  0 <= n < 256 ^ Z.of_nat k -> from_le_bytes (to_le_bytes k n) = n.
Proof.
  revert n. induction k as [|k IH]; intros n Hn; [simpl in *; lia|].
  rewrite Nat2Z.inj_succ, Z.pow_succ_r in Hn by lia.
  cbn [to_le_bytes from_le_bytes]. rewrite IH.
  - pose proof (Z.div_mod n 256). lia.
  - split; [apply Z.div_pos; lia|apply Z.div_lt_upper_bound; lia].
Qed.

Lemma to_le_bytes_inj a b : is_u64 a -> is_u64 b -> to_le_bytes 8 a = to_le_bytes 8 b -> a = b.
Proof.
  intros Ha Hb E%(f_equal from_le_bytes). unfold is_u64, U64_MAX in *.
  by rewrite !from_to_le_bytes in E by (simpl; lia).
Qed.

(** The sum of two floors is at most the floor of the sum. *)
Lemma div_add_le a b d : 0 < d -> a / d + b / d <= (a + b) / d.
Proof.
  intros. apply Z.div_le_lower_bound; [done|].
  pose proof (Z.mul_div_le a d). pose proof (Z.mul_div_le b d). lia.
Qed.

(** Quotient and remainder of the successor. *)
Lemma div_mod_succ_small t h :
  0 < h -> t mod h + 1 < h -> (t + 1) / h = t / h /\ (t + 1) mod h = t mod h + 1.
Proof.
  intros. pose proof (Z.div_mod t h). pose proof (Z.mod_pos_bound t h). split; symmetry.
  - apply (Z.div_unique_pos _ _ _ (t mod h + 1)); lia.
  - apply (Z.mod_unique_pos _ _ (t / h)); lia.
Qed.

Lemma div_mod_succ_carry t h :
  0 < h -> h <= t mod h + 1 -> (t + 1) / h = t / h + 1 /\ (t + 1) mod h = 0.
Proof.
  intros. pose proof (Z.div_mod t h). pose proof (Z.mod_pos_bound t h). split; symmetry.
  - apply (Z.div_unique_pos _ _ _ 0); lia.
  - apply (Z.mod_unique_pos _ _ (t / h + 1)); lia.
Qed.

(** ** Strings as bytes *)

(** A Rust byte-string literal [b"..."]. *)
Definition bytes_of_string (s : string) : bytes :=
  (fun c => Z.of_nat (Ascii.nat_of_ascii c)) <$> String.list_ascii_of_string s.

Lemma length_bytes_of_string s : length (bytes_of_string s) = String.length s.
Proof. unfold bytes_of_string. rewrite length_fmap. induction s; simpl; [done|by f_equal]. Qed.

Lemma bytes_of_string_inj s t : bytes_of_string s = bytes_of_string t -> s = t.
Proof.
  unfold bytes_of_string. intros E. apply list_fmap_eq_inj in E.
  - rewrite <- (String.string_of_list_ascii_of_string s), E. apply String.string_of_list_ascii_of_string.
  - intros a b Hab. apply Nat2Z.inj in Hab. rewrite <- (Ascii.ascii_nat_embedding a), Hab.
    apply Ascii.ascii_nat_embedding.
Qed.

Lemma bytes_of_string_app s t : bytes_of_string (String.append s t) = bytes_of_string s ++ bytes_of_string t.
Proof. unfold bytes_of_string. induction s as [|c s IH]; simpl; [done|by f_equal]. Qed.

(** [(b.len() as u32).to_le_bytes()] followed by the bytes. *)
Definition u32_prefixed (b : bytes) : bytes := to_le_bytes 4 (Z.of_nat (length b)) ++ b.

Lemma u32_le_inj a b : 0 <= a < 2 ^ 32 -> 0 <= b < 2 ^ 32 -> to_le_bytes 4 a = to_le_bytes 4 b -> a = b.
Proof. intros Ha Hb E%(f_equal from_le_bytes). by rewrite !from_to_le_bytes in E by (simpl; lia). Qed.

(** A length prefix separates what follows. *)
Lemma u32_prefixed_inj a b r s :
  Z.of_nat (length a) < 2 ^ 32 -> Z.of_nat (length b) < 2 ^ 32 ->
  u32_prefixed a ++ r = u32_prefixed b ++ s -> a = b /\ r = s.
Proof.
  intros Ha Hb. unfold u32_prefixed. rewrite <- !app_assoc. intros E.
  apply app_inj_1 in E as [E1 E]; [|by rewrite !length_to_le_bytes].
  apply u32_le_inj in E1; [|lia..]. apply app_inj_1 in E; [done|lia].
Qed.

(** ** Ordered maps

    A [BTreeMap] with integer keys is a [gmap]; its iteration is by
    ascending key. *)

Definition key_le {A} (p q : Z * A) : Prop := p.1 <= q.1.

#[global] Instance key_le_dec {A} : RelDecision (@key_le A).
Proof. intros p q. unfold key_le. apply _. Defined.

Definition btree_iter {A} (m : gmap Z A) : list (Z * A) :=
  merge_sort key_le (map_to_list m).

Lemma btree_iter_perm {A} (m : gmap Z A) : btree_iter m ≡ₚ map_to_list m.
Proof. apply merge_sort_Permutation. Qed.

Lemma elem_of_btree_iter {A} (m : gmap Z A) k v : (k, v) ∈ btree_iter m <-> m !! k = Some v.
Proof. rewrite btree_iter_perm. apply elem_of_map_to_list. Qed.

(** A fold over the iteration that does not depend on the order. *)
Lemma foldr_perm {A B} (f : A -> B -> B) (b : B) (l l' : list A) :
  (forall x y c, f x (f y c) = f y (f x c)) -> l ≡ₚ l' -> foldr f b l = foldr f b l'.
Proof.
  intros Hf. induction 1 as [|x l l' _ IH|x y l|l l' l'' _ IH _ IH']; simpl; congruence.
Qed.

(** Any value of a finite map is bounded by the maximum over the map: the
    measure behind recursion through maps nested in a tree. *)
Lemma map_fold_max_le {A} `{Countable K} (f : A -> nat) (m : gmap K A) k x :
  m !! k = Some x -> (f x <= map_fold (fun _ c a => Nat.max (f c) a) 0%nat m)%nat.
Proof.
  intros Hk. rewrite (map_fold_delete_L _ _ k x) by (done || intros; lia). lia.
Qed.

(** A filter that keeps everything. *)
Lemma filter_all {A} (P : A -> Prop) `{forall x, Decision (P x)} (l : list A) :
  (forall x, x ∈ l -> P x) -> filter P l = l.
Proof.
  induction l as [|x l IH]; intros Hl; [done|].
  rewrite filter_cons_True by set_solver. f_equal. apply IH. set_solver.
Qed.

(** ** Sums *)

Definition sumZ (l : list Z) : Z := foldr Z.add 0 l.

Lemma sumZ_app l k : sumZ (l ++ k) = sumZ l + sumZ k.
Proof. induction l as [|x l IH]; simpl; [done|]. lia. Qed.

Lemma sumZ_nonneg l : Forall (fun x => 0 <= x) l -> 0 <= sumZ l.
Proof. induction 1; simpl; lia. Qed.

(** Sums are compared term by term. *)
Lemma sumZ_fmap_le {A} (f g : A -> Z) l :
  (forall x, x ∈ l -> f x <= g x) -> sumZ (f <$> l) <= sumZ (g <$> l).
Proof.
  induction l as [|x l IH]; intros Hl; csimpl; [done|].
  pose proof (Hl x ltac:(left)). specialize (IH (fun y Hy => Hl y ltac:(by right))). unfold sumZ in *. simpl. lia.
Qed.

Lemma sumZ_fmap_add {A} (f g : A -> Z) l : sumZ ((fun x => f x + g x) <$> l) = sumZ (f <$> l) + sumZ (g <$> l).
Proof. unfold sumZ in *. induction l as [|x l IH]; csimpl; [done|]. rewrite IH. lia. Qed.

Lemma sumZ_fmap_scale {A} (c : Z) (f : A -> Z) l : sumZ ((fun x => c * f x) <$> l) = c * sumZ (f <$> l).
Proof. unfold sumZ in *. induction l as [|x l IH]; csimpl; [lia|]. rewrite IH. lia. Qed.

Lemma sumZ_fmap_ext {A} (f g : A -> Z) l :
  (forall x, x ∈ l -> f x = g x) -> sumZ (f <$> l) = sumZ (g <$> l).
Proof. intros Hl. apply Z.le_antisymm; apply sumZ_fmap_le; intros x Hx; rewrite (Hl x Hx); lia. Qed.

(** [saturating_sum] is the sum while it fits. *)
Lemma saturating_foldl_exact l a :
  Forall (fun x => 0 <= x) l -> a + sumZ l <= U64_MAX -> foldl saturating_add a l = a + sumZ l.
Proof.
  intros Hl. revert a. induction Hl as [|x l Hx Hl IH]; intros a Ha; simpl in *; [lia|].
  pose proof (sumZ_nonneg l Hl). rewrite saturating_add_exact by lia. rewrite IH by lia. lia.
Qed.

#[global] Instance sumZ_perm : Proper (Permutation ==> eq) sumZ.
Proof. intros l k. unfold sumZ. induction 1; simpl; lia. Qed.

Lemma sumZ_filter {A} (P : A -> Prop) `{forall x, Decision (P x)} (f : A -> Z) (l : list A) :
  sumZ (f <$> filter P l) = sumZ ((fun x => if decide (P x) then f x else 0) <$> l).
Proof.
  unfold sumZ. induction l as [|x l IH]; [done|]. rewrite filter_cons. case_decide; csimpl; rewrite IH.
  - by rewrite decide_True.
  - by rewrite decide_False.
Qed.

(** ** Byte arrays in lexicographic order *)

Fixpoint bytes_leb (a b : bytes) : bool :=
  match a, b with
  | [], _ => true
  | _, [] => false
  | x :: a', y :: b' => (x <? y) || ((x =? y) && bytes_leb a' b')
  end.

Lemma bytes_leb_total a b : bytes_leb a b || bytes_leb b a = true.
Proof.
  revert b. induction a as [|x a IH]; intros [|y b]; simpl; try done.
  destruct (Z.ltb_spec x y), (Z.ltb_spec y x), (Z.eqb_spec x y), (Z.eqb_spec y x); simpl; try done; try lia; apply IH.
Qed.

Lemma bytes_leb_trans a b c : bytes_leb a b = true -> bytes_leb b c = true -> bytes_leb a c = true.
Proof.
  revert b c. induction a as [|x a IH]; intros [|y b] [|z c]; simpl; try done.
  rewrite !orb_true_iff, !andb_true_iff, !Z.ltb_lt, !Z.eqb_eq.
  intros [Hxy|[-> Hab]] [Hyz|[-> Hbc]]; [left; lia|by left|by left|]. right. split; [done|]. by eapply IH.
Qed.

Lemma bytes_leb_antisym a b : bytes_leb a b = true -> bytes_leb b a = true -> a = b.
Proof.
  revert b. induction a as [|x a IH]; intros [|y b]; simpl; try done.
  intros [Hlt|[He Ha]%andb_true_iff]%orb_true_iff [Hlt'|[He' Hb]%andb_true_iff]%orb_true_iff; zbool; try lia.
  f_equal; [lia|]. by apply IH.
Qed.

(** [v.sort()] on a vector of byte arrays. *)
Definition sort_bytes (l : list bytes) : list bytes :=
  merge_sort (fun a b => Is_true (bytes_leb a b)) l.

Lemma sort_bytes_perm l : sort_bytes l ≡ₚ l.
Proof. apply merge_sort_Permutation. Qed.

Lemma elem_of_sort_bytes l x : x ∈ sort_bytes l <-> x ∈ l.
Proof. by rewrite sort_bytes_perm. Qed.

(** ** Hash maps

    The iteration order of a [HashMap] is unspecified: an enumeration of the
    keys that code iterating over one can rely on. *)
Class HashOrder := {
  hash_keys {K A} `{Countable K} : gmap K A -> list K;
  hash_keys_perm {K A} `{Countable K} (m : gmap K A) : hash_keys m ≡ₚ (map_to_list m).*1;
}.

Lemma elem_of_hash_keys `{HashOrder} {A} `{Countable K} (m : gmap K A) k :
  k ∈ hash_keys m <-> is_Some (m !! k).
Proof.
  rewrite hash_keys_perm, list_elem_of_fmap. split.
  - intros ([k' x] & -> & Hk%elem_of_map_to_list). by eexists.
  - intros [x Hx]. exists (k, x). by rewrite elem_of_map_to_list.
Qed.

Lemma hash_keys_NoDup `{HashOrder} {A} `{Countable K} (m : gmap K A) : NoDup (hash_keys m).
Proof. rewrite hash_keys_perm. apply NoDup_fst_map_to_list. Qed.

(** A property that each step of a left fold keeps. *)
Lemma foldl_inv {A B} (P : A -> Prop) (f : A -> B -> A) l a :
  P a -> (forall a b, b ∈ l -> P a -> P (f a b)) -> P (foldl f a l).
Proof.
  revert a. induction l as [|b l IH]; intros a Ha Hf; simpl; [done|].
  apply IH; [apply Hf; [left|done]|]. intros c d Hd. apply Hf. by right.
Qed.

#[global] Instance key_le_total {A} : Total (@key_le A).
Proof. intros p q. unfold key_le. lia. Qed.

#[global] Instance key_le_trans {A} : Transitive (@key_le A).
Proof. intros p q r. unfold key_le. lia. Qed.

(** The first entry of an iteration has the least key. *)
Lemma btree_iter_head {A} (m : gmap Z A) k v :
  head (btree_iter m) = Some (k, v) ->
  m !! k = Some v /\ forall k', is_Some (m !! k') -> k <= k'.
Proof.
  pose proof (StronglySorted_merge_sort key_le (map_to_list m)) as Hs. fold (btree_iter m) in Hs.
  pose proof (fun k v => elem_of_btree_iter m k v) as Hm.
  destruct (btree_iter m) as [|[k0 v0] l]; [done|]. simpl. intros [= -> ->]. split.
  - apply Hm. left.
  - intros k' [v' Hk']. apply Hm in Hk'. apply elem_of_cons in Hk' as [[= -> ->]|Hk']; [lia|].
    apply StronglySorted_inv in Hs as [_ Hf]. rewrite Forall_forall in Hf. by specialize (Hf _ Hk').
Qed.

Lemma btree_iter_nil {A} (m : gmap Z A) : head (btree_iter m) = None -> m = ∅.
Proof.
  intros Hh. apply map_empty. intros k. destruct (m !! k) as [v|] eqn:E; [|done].
  apply elem_of_btree_iter in E. destruct (btree_iter m); [by apply elem_of_nil in E|done].
Qed.

(** The last entry has the greatest key. *)
Lemma btree_iter_last {A} (m : gmap Z A) k v :
  last (btree_iter m) = Some (k, v) ->
  m !! k = Some v /\ forall k', is_Some (m !! k') -> k' <= k.
Proof.
  intros Hl. pose proof (StronglySorted_merge_sort key_le (map_to_list m)) as Hs. fold (btree_iter m) in Hs.
  pose proof (fun k v => elem_of_btree_iter m k v) as Hm.
  apply last_Some in Hl as [l E]. rewrite E in Hs, Hm. split; [apply Hm; set_solver|].
  intros k' [v' Hk']. apply Hm, elem_of_app in Hk' as [Hk'|[= -> ->]%list_elem_of_singleton]; [|done].
  apply StronglySorted_app in Hs as (Hall & _). by apply (Hall (k', v') (k, v) Hk'); left.
Qed.

Lemma btree_iter_last_None {A} (m : gmap Z A) : last (btree_iter m) = None -> m = ∅.
Proof. intros Hl%last_None. apply btree_iter_nil. by rewrite Hl. Qed.

(** [keys().next()] *)
Definition oldest {A} (m : gmap Z A) : option Z := fst <$> head (btree_iter m).

(** [while m.len() > cap]: remove the entry with the least key. *)
Fixpoint trim_oldest {A} (cap fuel : nat) (m : gmap Z A) : gmap Z A :=
  match fuel with
  | O => m
  | S fuel' =>
      if decide (cap < size m)%nat then
        trim_oldest cap fuel' (match oldest m with Some h => base.delete h m | None => m end)
      else m
  end.

Lemma oldest_spec {A} (m : gmap Z A) h :
  oldest m = Some h -> is_Some (m !! h) /\ forall h', is_Some (m !! h') -> h <= h'.
Proof.
  unfold oldest. destruct (head (btree_iter m)) as [[k v]|] eqn:E; [|done]. intros [= ->].
  destruct (btree_iter_head m h v E) as [Hh Hmin]. split; [by eexists|done].
Qed.

Lemma oldest_None {A} (m : gmap Z A) : oldest m = None -> m = ∅.
Proof. unfold oldest. destruct (head _) eqn:E; [done|]. intros _. by apply btree_iter_nil. Qed.

(** Trimming keeps the newest entries, at most [cap] of them. *)
Lemma trim_oldest_spec {A} cap fuel (m : gmap Z A) :
  (size m <= fuel + cap)%nat ->
  let m' := trim_oldest cap fuel m in
  (size m' = Nat.min (size m) cap)%nat
  /\ m' ⊆ m
  /\ forall h h', is_Some (m' !! h) -> is_Some (m !! h') -> m' !! h' = None -> h' < h.
Proof.
  revert m. induction fuel as [|fuel IH]; intros m Hsz; cbn [trim_oldest].
  { split_and!; [lia|done|]. intros h h' _ [x Hx] Hn. congruence. }
  destruct (decide (cap < size m)%nat) as [Hlt|Hge].
  2:{ split_and!; [lia|done|]. intros h h' _ [x Hx] Hn. congruence. }
  destruct (oldest m) as [o|] eqn:Ho.
  2:{ apply oldest_None in Ho as ->. rewrite map_size_empty in Hlt. lia. }
  destruct (oldest_spec m o Ho) as [[x Hx] Hmin].
  assert (Hdel : size (base.delete o m) = pred (size m)) by (rewrite map_size_delete_Some; done || lia).
  destruct (IH (base.delete o m)) as (Hs & Hsub & Hkeep); [lia|].
  split_and!; [lia| |].
  - etrans; [exact Hsub|apply delete_subseteq].
  - intros h h' [y Hy] Hh' Hn. destruct (decide (h' = o)) as [->|Hne].
    + assert (Hh : base.delete o m !! h = Some y) by (by eapply lookup_weaken).
      apply lookup_delete_Some in Hh as [Hoh Hmh]. specialize (Hmin h (ex_intro _ y Hmh)). lia.
    + eapply Hkeep; [by eexists| |done]. by rewrite lookup_delete_ne.
Qed.

(** An iteration is determined by its entries. *)
Lemma btree_iter_eq {A} (m : gmap Z A) (l : list (Z * A)) :
  StronglySorted (fun p q => p.1 < q.1) l -> (forall k v, (k, v) ∈ l <-> m !! k = Some v) ->
  btree_iter m = l.
Proof.
  intros Hs Hl. unfold btree_iter.
  assert (HP : map_to_list m ≡ₚ l).
  { apply NoDup_Permutation; [apply NoDup_map_to_list| |].
    - clear Hl. induction Hs as [|p l Hs IH Hp]; constructor; [|done].
      intros Hin. rewrite Forall_forall in Hp. specialize (Hp p Hin). lia.
    - intros [k v]. rewrite elem_of_map_to_list. by rewrite Hl. }
  pose proof (StronglySorted_merge_sort key_le (map_to_list m)) as Hm.
  assert (HP' : merge_sort key_le (map_to_list m) ≡ₚ l) by (by rewrite merge_sort_Permutation).
  revert Hm HP'. generalize (merge_sort key_le (map_to_list m)). clear HP Hl m.
  induction Hs as [|p l Hs IH Hp]; intros k Hk HP; [by apply Permutation_nil_r in HP|].
  destruct k as [|q k]; [by apply Permutation_nil_cons in HP|].
  apply StronglySorted_inv in Hk as [Hk Hq]. rewrite Forall_forall in Hp, Hq.
  assert (p = q) as ->.
  { assert (Hin : q ∈ p :: l) by (rewrite <- HP; left). apply elem_of_cons in Hin as [->|Hin]; [done|].
    specialize (Hp q Hin). assert (Hin' : p ∈ q :: k) by (rewrite HP; left).
    apply elem_of_cons in Hin' as [->|Hin']; [done|]. specialize (Hq p Hin'). unfold key_le in Hq. lia. }
  f_equal. apply IH; [done|]. by apply Permutation_cons_inv in HP.
Qed.

Lemma btree_iter_sorted {A} (m : gmap Z A) : StronglySorted (fun p q => p.1 < q.1) (btree_iter m).
Proof.
  pose proof (StronglySorted_merge_sort key_le (map_to_list m)) as Hs. fold (btree_iter m) in Hs.
  assert (Hn : NoDup (btree_iter m).*1).
  { rewrite (fmap_Permutation fst _ _ (btree_iter_perm m)). apply NoDup_fst_map_to_list. }
  induction Hs as [|p l Hs IH Hp]; [constructor|]. csimpl in Hn. apply NoDup_cons in Hn as [Hin Hn].
  constructor; [by apply IH|]. rewrite Forall_forall in *. intros q Hq. specialize (Hp q Hq). unfold key_le in Hp.
  assert (p.1 <> q.1) by (intros E; apply Hin; rewrite E; by apply list_elem_of_fmap_2). lia.
Qed.

(** A new greatest key goes to the end. *)
Lemma btree_iter_snoc {A} (m : gmap Z A) k v :
  (forall k', is_Some (m !! k') -> k' < k) -> btree_iter (<[ k := v ]> m) = btree_iter m ++ [(k, v)].
Proof.
  intros Hk. apply btree_iter_eq.
  - pose proof (btree_iter_sorted m) as Hs.
    assert (Hlt : Forall (fun p => p.1 < k) (btree_iter m)).
    { apply Forall_forall. intros [k' v'] Hin%elem_of_btree_iter. apply Hk. by eexists. }
    induction Hs as [|p l Hs IH Hp]; simpl; [by repeat constructor|].
    apply Forall_cons in Hlt as [Hlt Hlts]. constructor; [by apply IH|].
    apply Forall_app. split; [done|]. by constructor.
  - intros k' v'. rewrite elem_of_app, elem_of_btree_iter, list_elem_of_singleton, lookup_insert_Some.
    destruct (decide (k = k')) as [<-|Hne]; [|naive_solver].
    split; [intros [Hs|[= ->]]; [|by left]|intros [[_ ->]|[? _]]; [by right|done]].
    specialize (Hk k (ex_intro _ v' Hs)). lia.
Qed.

(** Removing the least key removes the head. *)
Lemma btree_iter_delete_head {A} (m : gmap Z A) k v l :
  btree_iter m = (k, v) :: l -> btree_iter (base.delete k m) = l.
Proof.
  intros E. pose proof (btree_iter_sorted m) as Hs. rewrite E in Hs.
  apply StronglySorted_inv in Hs as [Hs Hk]. apply btree_iter_eq; [done|]. rewrite Forall_forall in Hk.
  intros k' v'. rewrite lookup_delete_Some, <- elem_of_btree_iter, E, elem_of_cons. split.
  - intros Hin. specialize (Hk _ Hin). simpl in Hk. split; [lia|by right].
  - intros [Hne [[= -> ->]|Hin]]; done.
Qed.

Lemma length_btree_iter {A} (m : gmap Z A) : length (btree_iter m) = size m.
Proof. by rewrite btree_iter_perm, length_map_to_list. Qed.

(** Trimming drops a prefix of the iteration. *)
Lemma btree_iter_trim {A} cap fuel (m : gmap Z A) :
  (size m <= fuel + cap)%nat -> btree_iter (trim_oldest cap fuel m) = drop (size m - cap) (btree_iter m).
Proof.
  revert m. induction fuel as [|fuel IH]; intros m Hsz; cbn [trim_oldest].
  { by replace (size m - cap)%nat with 0%nat by lia. }
  destruct (decide (cap < size m)%nat) as [Hlt|Hge]; [|by replace (size m - cap)%nat with 0%nat by lia].
  unfold oldest. pose proof (length_btree_iter m) as Hlen.
  destruct (btree_iter m) as [|[k v] l] eqn:E; simpl in Hlen; [lia|]. simpl.
  pose proof (btree_iter_delete_head m k v l E) as Hd.
  assert (Hsd : size (base.delete k m) = length l) by (by rewrite <- length_btree_iter, Hd).
  rewrite IH by lia. rewrite Hd, Hsd. replace (size m - cap)%nat with (S (length l - cap)) by lia. done.
Qed.

(** Predicates that agree on a list filter it alike. *)
Lemma filter_ext_in {A} (P Q : A -> Prop) `{forall x, Decision (P x)} `{forall x, Decision (Q x)}
    (l : list A) :
  (forall x, x ∈ l -> P x <-> Q x) -> filter P l = filter Q l.
Proof.
  induction l as [|x l IH]; intros Hl; [done|]. rewrite !filter_cons.
  rewrite IH by (intros y Hy; apply Hl; by right).
  specialize (Hl x ltac:(left)). repeat case_decide; tauto.
Qed.

(** ** Bounded loops

    [loop_pos f p s] runs the loop body [f] at most [p] times, and stops
    early when it returns on the right.  The bound is binary, so that a large
    one costs nothing to write down. *)
Section loops.
Context {S R : Type} (f : S -> S + R).

Fixpoint loop_nat (n : nat) (s : S) : S + R :=
  match n with
  | O => inl s
  | Datatypes.S n' => match f s with inl s' => loop_nat n' s' | inr r => inr r end
  end.

Fixpoint loop_pos (p : positive) (s : S) : S + R :=
  match p with
  | xH => f s
  | xO p' => match loop_pos p' s with inl s' => loop_pos p' s' | inr r => inr r end
  | xI p' =>
      match f s with
      | inl s' => match loop_pos p' s' with inl s'' => loop_pos p' s'' | inr r => inr r end
      | inr r => inr r
      end
  end.

Lemma loop_nat_add n m s :
  loop_nat (n + m) s = match loop_nat n s with inl s' => loop_nat m s' | inr r => inr r end.
Proof. revert s. induction n as [|n IH]; intros s; simpl; [done|]. by destruct (f s). Qed.

Lemma loop_pos_nat p s : loop_pos p s = loop_nat (Pos.to_nat p) s.
Proof.
  revert s. induction p as [p IH|p IH|]; intros s; cbn [loop_pos].
  - rewrite Pos2Nat.inj_xI. cbn [loop_nat]. destruct (f s) as [s'|]; [|done].
    replace (2 * Pos.to_nat p)%nat with (Pos.to_nat p + Pos.to_nat p)%nat by lia.
    rewrite loop_nat_add, IH. by destruct (loop_nat _ s').
  - rewrite Pos2Nat.inj_xO.
    replace (2 * Pos.to_nat p)%nat with (Pos.to_nat p + Pos.to_nat p)%nat by lia.
    rewrite loop_nat_add, IH. by destruct (loop_nat _ s).
  - change (Pos.to_nat 1) with 1%nat. simpl. by destruct (f s).
Qed.

(** A measure that every iteration lowers bounds the number of iterations. *)
Lemma loop_nat_ends (P : S -> Prop) (mu : S -> nat) n s :
  (forall s s', P s -> f s = inl s' -> P s' /\ (mu s' < mu s)%nat) ->
  P s -> (mu s < n)%nat -> exists r, loop_nat n s = inr r.
Proof.
  intros Hf. revert s. induction n as [|n IH]; intros s Hs Hn; [lia|]. simpl.
  destruct (f s) as [s'|r] eqn:E; [|by exists r].
  destruct (Hf s s' Hs E). apply IH; [done|lia].
Qed.

(** An invariant of the loop holds of the state it returns from. *)
Lemma loop_nat_inv (P : S -> Prop) (Q : R -> Prop) n s r :
  (forall s s', P s -> f s = inl s' -> P s') ->
  (forall s r, P s -> f s = inr r -> Q r) ->
  P s -> loop_nat n s = inr r -> Q r.
Proof.
  intros HP HQ. revert s. induction n as [|n IH]; intros s Hs E; [done|]. simpl in E.
  destruct (f s) as [s'|r'] eqn:Ef; [by eapply IH; [eapply HP|]|].
  injection E as ->. by eapply HQ.
Qed.
End loops.

(** Two loop bodies that agree on an invariant set of states run alike. *)
Lemma loop_nat_ext {S R} (f g : S -> S + R) (P : S -> Prop) n s :
  (forall s, P s -> f s = g s) -> (forall s s', P s -> f s = inl s' -> P s') ->
  P s -> loop_nat f n s = loop_nat g n s.
Proof.
  intros Hfg HP. revert s. induction n as [|n IH]; intros s Hs; simpl; [done|].
  rewrite <- (Hfg s Hs). destruct (f s) as [s'|] eqn:E; [|done]. apply IH. by eapply HP.
Qed.
