(* ===== verification/Energy.v ===== *)
(** * Energy decay and vesting

    The core arithmetic of the chain: [energy_at_epoch] of
    crates/evaporchain-types/src/lib.rs, the vesting schedules of the same
    file, and the horizon function [epochs_until_zero] of
    crates/evaporchain-state/src/evaporation.rs.  Every other component
    decays through [energy_at_epoch]. *)

From stdpp Require Import base list.
From Stdlib Require Import ZArith Lia.
From S2P Require Import Prelude.

Open Scope Z_scope.

(** ** Exponential decay by shifting and linear interpolation *)

Definition energy_at_epoch (initial half_life epochs_elapsed : Z) : Z :=
  if half_life =? 0 then 0
  else
    let full_halvings := epochs_elapsed / half_life in
    let remainder := epochs_elapsed mod half_life in
    if 64 <=? full_halvings then 0
    else
      let after_halvings := Z.shiftr initial full_halvings in
      let fractional_decay :=
        as_u64 (after_halvings * remainder / (2 * half_life)) in
      saturating_sub after_halvings fractional_decay.

(** [u64::leading_zeros]. *)
Definition leading_zeros (z : Z) : Z := if z =? 0 then 64 else 63 - Z.log2 z.

(** The final product is the plain [*] of the source: it wraps in a release
    build. *)
Definition epochs_until_zero (energy half_life : Z) : Z :=
  if (energy =? 0) || (half_life =? 0) then 0
  else
    let log2_energy := 63 - leading_zeros energy in
    wrapping_mul (log2_energy + 1) half_life.

(** ** Account vesting lock *)

Record VestingLock := {
  cliff_epoch : Z;
  linear_release_epochs : Z;
  total_locked : Z;
}.

Definition locked_at (v : VestingLock) (current_epoch : Z) : Z :=
  if current_epoch <=? cliff_epoch v then total_locked v
  else
    let elapsed := saturating_sub current_epoch (cliff_epoch v) in
    if linear_release_epochs v =? 0 then 0
    else if linear_release_epochs v <=? elapsed then 0
    else
      let released :=
        as_u64 (total_locked v * elapsed / linear_release_epochs v) in
      saturating_sub (total_locked v) released.

(** ** Standalone vesting schedule *)

Record VestingSchedule := {
  vs_id : Z;
  beneficiary : bytes;
  total_amount : Z;
  start_epoch : Z;
  cliff_epochs : Z;
  vesting_epochs : Z;
  released_amount : Z;
}.

(** [u128::saturating_mul] never saturates on two [u64] operands, but it is
    kept as written. *)
Definition saturating_mul_u128 (a b : Z) : Z := Z.min (a * b) (2 ^ 128 - 1).

Definition vested_at (s : VestingSchedule) (current_epoch : Z) : Z :=
  let cliff_end := saturating_add (start_epoch s) (cliff_epochs s) in
  if current_epoch <? cliff_end then 0
  else
    let vesting_end := saturating_add (start_epoch s) (vesting_epochs s) in
    if vesting_end <=? current_epoch then total_amount s
    else
      let elapsed := saturating_sub current_epoch cliff_end in
      let linear_window := saturating_sub vesting_end cliff_end in
      if linear_window =? 0 then total_amount s
      else
        let released := saturating_mul_u128 (total_amount s) elapsed / linear_window in
        as_u64 (Z.min released (total_amount s)).

Definition pending_release_at (s : VestingSchedule) (current_epoch : Z) : Z :=
  saturating_sub (vested_at s current_epoch) (released_amount s).

Definition is_fully_vested (s : VestingSchedule) : bool :=
  total_amount s <=? released_amount s.

(** ** Arithmetic of one decay step

    [decay_frac B h r] is the value after [r < h] epochs of the linear part:
    [B] minus the floor of [B * r / 2h]. *)

Section decay_frac.
Context (h : Z) (Hh : 0 < h).

Definition decay_frac (B r : Z) : Z := B - B * r / (2 * h).

Lemma decay_term_bounds B r :
  0 <= B -> 0 <= r <= h -> 0 <= B * r / (2 * h) <= B / 2.
Proof.
  intros HB Hr. split; [apply Z.div_pos; nia|].
  etransitivity; [apply (Z.div_le_mono _ (B * h)); nia|].
  rewrite (Z.mul_comm 2 h), Z.mul_comm, Z.div_mul_cancel_l by lia. done.
Qed.

Lemma decay_frac_bounds B r :
  0 <= B -> 0 <= r <= h -> B / 2 <= decay_frac B r <= B.
Proof.
  intros HB Hr. pose proof (decay_term_bounds B r HB Hr). unfold decay_frac.
  pose proof (Z.div_mod B 2). pose proof (Z.mod_pos_bound B 2). lia.
Qed.

Lemma decay_frac_pos B r : 0 < B -> 0 <= r <= h -> 0 < decay_frac B r.
Proof.
  intros HB Hr. pose proof (decay_term_bounds B r).  unfold decay_frac.
  pose proof (Z.div_lt B 2). lia.
Qed.

Lemma decay_frac_antitone B r r' :
  0 <= B -> r <= r' -> decay_frac B r' <= decay_frac B r.
Proof.
  intros. unfold decay_frac.
  assert (B * r / (2 * h) <= B * r' / (2 * h)) by (apply Z.div_le_mono; nia). lia.
Qed.

Lemma decay_frac_mono B B' r :
  B <= B' -> 0 <= r <= h -> decay_frac B r <= decay_frac B' r.
Proof.
  intros. unfold decay_frac.
  assert (B' * r / (2 * h) <= (B * r + (B' - B) * (2 * h)) / (2 * h))
    by (apply Z.div_le_mono; nia).
  rewrite Z.div_add in * by lia. lia.
Qed.

(** Two successive floors lose no more than one combined floor. *)
Lemma decay_frac_compose B r r' :
  0 <= B -> 0 <= r <= h -> 0 <= r' ->
  decay_frac B (r + r') <= decay_frac (decay_frac B r) r'.
Proof.
  intros HB Hr Hr'. pose proof (decay_frac_bounds B r HB Hr) as [_ Hle].
  unfold decay_frac in *. remember (B - B * r / (2 * h)) as x eqn:Hx.
  assert (B * r / (2 * h) + x * r' / (2 * h) <= B * (r + r') / (2 * h)).
  { etransitivity; [apply div_add_le; lia|]. apply Z.div_le_mono; nia. }
  lia.
Qed.
End decay_frac.

(** ** Decay at a [u64] half-life *)

Section energy.
Context (h : Z).

(** The number of full halvings at [t], and what is left of [i] then. *)
Definition halved (i t : Z) : Z := Z.shiftr i (t / h).

Lemma halved_nonneg i t : 0 <= i -> 0 <= halved i t.
Proof. unfold halved. by rewrite Z.shiftr_nonneg. Qed.

Lemma halved_le i t : 0 < h -> 0 <= i -> 0 <= t -> halved i t <= i.
Proof.
  intros. unfold halved. rewrite Z.shiftr_div_pow2 by (apply Z.div_pos; lia).
  apply Z.div_le_upper_bound; [apply Z.pow_pos_nonneg; [lia|apply Z.div_pos; lia]|].
  assert (0 < 2 ^ (t / h)) by (apply Z.pow_pos_nonneg; [lia|apply Z.div_pos; lia]).
  nia.
Qed.

Lemma halved_mono i i' t : 0 < h -> 0 <= t -> i <= i' -> halved i t <= halved i' t.
Proof.
  intros. unfold halved.
  rewrite !Z.shiftr_div_pow2 by (apply Z.div_pos; lia).
  apply Z.div_le_mono; [apply Z.pow_pos_nonneg; [lia|apply Z.div_pos; lia]|done].
Qed.

Lemma halved_next i t t' :
  0 < h -> 0 <= i -> 0 <= t -> t / h < t' / h -> halved i t' <= halved i t / 2.
Proof.
  intros Hh Hi Ht Hlt. unfold halved.
  assert (0 <= t / h) by (apply Z.div_pos; lia).
  rewrite <- Z.shiftr_div_pow2 with (n := 1) by lia.
  rewrite Z.shiftr_shiftr by lia. rewrite !Z.shiftr_div_pow2 by lia.
  apply Z.div_le_compat_l; [done|].
  split; [apply Z.pow_pos_nonneg; lia|apply Z.pow_le_mono_r; lia].
Qed.

(** [energy_at_epoch] without the machine-width casts. *)
Lemma energy_at_epoch_unfold i t :
  is_u64 i -> 0 < h -> 0 <= t ->
  energy_at_epoch i h t =
    if 64 <=? t / h then 0 else decay_frac h (halved i t) (t mod h).
Proof.
  intros Hi Hh Ht. unfold energy_at_epoch.
  destruct (Z.eqb_spec h 0); [lia|]. destruct (64 <=? t / h); [done|].
  fold (halved i t). pose proof (Z.mod_pos_bound t h Hh) as Hm.
  pose proof (halved_nonneg i t) as H0. pose proof (halved_le i t Hh) as H1.
  pose proof (decay_term_bounds h Hh (halved i t) (t mod h)) as H2.
  pose proof (Z.div_le_upper_bound (halved i t) 2 (halved i t)) as H3.
  rewrite as_u64_small by u64_lia.
  rewrite saturating_sub_exact by u64_lia. done.
Qed.

Lemma energy_at_epoch_range i t :
  is_u64 i -> 0 <= h -> 0 <= t -> 0 <= energy_at_epoch i h t <= i.
Proof.
  intros Hi Hh Ht. destruct (decide (h = 0)) as [->|].
  { unfold energy_at_epoch. simpl. u64_lia. }
  rewrite energy_at_epoch_unfold by u64_lia. case_match; [u64_lia|].
  assert (0 < h) as Hh' by lia. pose proof (Z.mod_pos_bound t h Hh').
  pose proof (halved_nonneg i t). pose proof (halved_le i t Hh').
  pose proof (decay_frac_bounds h Hh' (halved i t) (t mod h)) as Hb.
  assert (0 <= halved i t / 2) by (apply Z.div_pos; u64_lia). u64_lia.
Qed.

(** Within the first half-life there is no shift. *)
Lemma energy_at_epoch_small i t :
  is_u64 i -> 0 <= t < h -> energy_at_epoch i h t = decay_frac h i t.
Proof.
  intros. rewrite energy_at_epoch_unfold by u64_lia. unfold halved.
  rewrite Z.div_small, Z.mod_small, Z.shiftr_0_r by lia. done.
Qed.

Lemma energy_at_epoch_0 i : is_u64 i -> 0 < h -> energy_at_epoch i h 0 = i.
Proof.
  intros. rewrite energy_at_epoch_small by u64_lia. unfold decay_frac.
  rewrite Z.mul_0_r, Z.div_0_l by lia. lia.
Qed.
End energy.

Section energy_order.
Context (h : Z) (Hh : 0 <= h).

Lemma energy_antitone i t t' :
  is_u64 i -> 0 <= t <= t' -> energy_at_epoch i h t' <= energy_at_epoch i h t.
Proof.
  intros Hi Ht. destruct (decide (h = 0)) as [->|]; [done|].
  assert (0 < h) as Hp by lia.
  rewrite !energy_at_epoch_unfold by u64_lia.
  pose proof (Z.div_le_mono t t' h Hp) as Hk.
  pose proof (Z.mod_pos_bound t h Hp) as Hm. pose proof (Z.mod_pos_bound t' h Hp) as Hm'.
  pose proof (halved_nonneg h i t) as H0. pose proof (halved_nonneg h i t') as H0'.
  pose proof (decay_frac_bounds h Hp (halved h i t) (t mod h)) as Hb.
  pose proof (decay_frac_bounds h Hp (halved h i t') (t' mod h)) as Hb'.
  assert (0 <= halved h i t / 2) by (apply Z.div_pos; u64_lia).
  zcase; try u64_lia.
  destruct (decide (t / h = t' / h)) as [Heq|Hne].
  - unfold halved. rewrite Heq. apply decay_frac_antitone; [lia| |].
    + unfold halved in H0'. u64_lia.
    + pose proof (Z.div_mod t h). pose proof (Z.div_mod t' h). nia.
  - pose proof (halved_next h i t t' Hp). u64_lia.
Qed.

Lemma energy_mono i i' t :
  is_u64 i -> is_u64 i' -> i <= i' -> 0 <= t ->
  energy_at_epoch i h t <= energy_at_epoch i' h t.
Proof.
  intros Hi Hi' Hle Ht. destruct (decide (h = 0)) as [->|]; [done|].
  assert (0 < h) as Hp by lia.
  rewrite !energy_at_epoch_unfold by u64_lia. zcase; [done|].
  pose proof (Z.mod_pos_bound t h Hp).
  apply decay_frac_mono; [done|by apply halved_mono|lia].
Qed.

(** Decaying to [t] and then one more epoch keeps at least what decaying to
    [t + 1] at once keeps. *)
Lemma energy_unit_step i t :
  is_u64 i -> 0 <= t ->
  energy_at_epoch i h (t + 1) <= energy_at_epoch (energy_at_epoch i h t) h 1.
Proof.
  intros Hi Ht. destruct (decide (h = 0)) as [->|]; [done|].
  assert (0 < h) as Hp by lia.
  pose proof (energy_at_epoch_range h i t Hi Hh Ht) as Hr.
  destruct (decide (h = 1)) as [->|].
  { rewrite !(energy_at_epoch_unfold 1) by u64_lia. rewrite !Z.div_1_r, !Z.mod_1_r.
    unfold halved, decay_frac. rewrite !Z.div_1_r, !Z.mul_0_r, !Z.div_0_l, !Z.sub_0_r by lia.
    zcase; rewrite ?Z.shiftr_shiftr by lia; try lia; rewrite ?Z.shiftr_nonneg; u64_lia. }
  rewrite (energy_at_epoch_small h (energy_at_epoch i h t)) by u64_lia.
  rewrite !energy_at_epoch_unfold by u64_lia.
  pose proof (Z.mod_pos_bound t h Hp) as Hm.
  pose proof (halved_nonneg h i t) as H0.
  pose proof (decay_frac_bounds h Hp (halved h i t) (t mod h)) as Hb.
  assert (0 <= halved h i t / 2) by (apply Z.div_pos; u64_lia).
  destruct (decide (t mod h + 1 < h)) as [Hlt|Hge].
  - destruct (div_mod_succ_small t h) as [Hd Hmo]; [done..|].
    unfold halved in *. rewrite Hd, Hmo. zcase.
    + unfold decay_frac. rewrite Z.mul_0_l, Z.div_0_l by lia. lia.
    + apply decay_frac_compose; u64_lia.
  - destruct (div_mod_succ_carry t h) as [Hd Hmo]; [lia..|].
    pose proof (halved_next h i t (t + 1) Hp) as Hn.
    pose proof (halved_nonneg h i (t + 1)) as Hn0.
    pose proof (decay_frac_compose h Hp (halved h i t) (t mod h) 1) as Hc.
    replace (t mod h + 1) with h in Hc by lia.
    pose proof (decay_frac_bounds h Hp (halved h i t) h) as Hfull.
    rewrite Hd, Hmo in *. unfold decay_frac at 1. rewrite Z.mul_0_r, Z.div_0_l by lia.
    zcase; try u64_lia. unfold decay_frac. rewrite Z.mul_0_l, Z.div_0_l by lia. lia.
Qed.
End energy_order.

#[export] Hint Resolve energy_at_epoch_range energy_antitone energy_mono : u64.

(** ** Properties *)

(** Energy decay is a monotone contraction: the energy of an object never
    exceeds what it was charged with, never increases as epochs pass, and
    keeps the order of the initial charges. *)
Theorem energy_at_epoch_monotone h i i' t t' :
  0 <= h -> is_u64 i -> is_u64 i' -> i <= i' -> 0 <= t <= t' ->
  0 <= energy_at_epoch i h t' <= energy_at_epoch i h t
  /\ energy_at_epoch i h t <= i
  /\ energy_at_epoch i h t <= energy_at_epoch i' h t.
Proof.
  intros Hh Hi Hi' Hle Ht.
  pose proof (energy_at_epoch_range h i t' Hi Hh). pose proof (energy_at_epoch_range h i t Hi Hh).
  pose proof (energy_antitone h Hh i t t' Hi Ht). pose proof (energy_mono h Hh i i' t).
  u64_lia.
Qed.

Lemma energy_at_epoch_monotone_witness :
  0 <= energy_at_epoch 1000 10 25 <= energy_at_epoch 1000 10 15
  /\ energy_at_epoch 1000 10 15 <= 1000
  /\ energy_at_epoch 1000 10 15 <= energy_at_epoch 2000 10 15.
Proof. apply (energy_at_epoch_monotone 10 1000 2000 15 25); u64_lia. Defined.

(** The horizon of a live object in closed form. *)
Lemma energy_zero_iff_halved h i t :
  0 < h -> 0 < i -> is_u64 i -> 0 <= t ->
  energy_at_epoch i h t = 0 <-> (Z.log2 i + 1) * h <= t.
Proof.
  intros Hh Hi Hu Ht. rewrite energy_at_epoch_unfold by u64_lia.
  assert (Z.log2 i < 64) as Hlog by (apply Z.log2_lt_pow2; u64_lia).
  assert (64 <= t / h <-> 64 * h <= t) as Hk.
  { split; intros; [|apply Z.div_le_lower_bound; lia].
    pose proof (Z.mul_div_le t h Hh). nia. }
  pose proof (Z.log2_nonneg i). pose proof (Z.mod_pos_bound t h Hh) as Hm.
  zcase; [split; [nia|done]|].
  assert (halved h i t = 0 <-> Z.log2 i < t / h) as Hz.
  { unfold halved. rewrite Z.shiftr_div_pow2 by (apply Z.div_pos; lia).
    rewrite Z.div_small_iff by (apply Z.pow_nonzero; [lia|apply Z.div_pos; lia]).
    rewrite Z.log2_lt_pow2 by lia.
    pose proof (Z.pow_pos_nonneg 2 (t / h)). pose proof (Z.div_pos t h). lia. }
  assert (Z.log2 i < t / h <-> (Z.log2 i + 1) * h <= t) as Hd.
  { split; intros; [pose proof (Z.mul_div_le t h Hh); nia|].
    enough (Z.log2 i + 1 <= t / h) by lia. apply Z.div_le_lower_bound; lia. }
  rewrite <- Hd, <- Hz. pose proof (halved_nonneg h i t).
  split; [|intros ->; unfold decay_frac; by rewrite Z.mul_0_l, Z.div_0_l by lia].
  intros Hzero. destruct (decide (halved h i t = 0)); [done|].
  pose proof (decay_frac_pos h Hh (halved h i t) (t mod h)). lia.
Qed.

Lemma epochs_until_zero_eq h i :
  0 < h -> 0 < i -> is_u64 i -> (Z.log2 i + 1) * h <= U64_MAX ->
  epochs_until_zero i h = (Z.log2 i + 1) * h.
Proof.
  intros Hh Hi Hu Hno. unfold epochs_until_zero, leading_zeros.
  destruct (Z.eqb_spec i 0); [lia|]. destruct (Z.eqb_spec h 0); [lia|]. simpl.
  replace (63 - (63 - Z.log2 i) + 1) with (Z.log2 i + 1) by lia.
  unfold wrapping_mul. apply as_u64_small. pose proof (Z.log2_nonneg i). unfold is_u64. nia.
Qed.

(** [epochs_until_zero] is exact: an object has no energy left at an epoch
    distance [t] if and only if [t] is at least the predicted horizon (unless
    the horizon itself does not fit a [u64]). *)
Theorem epochs_until_zero_exact h i t :
  0 < h -> 0 < i -> is_u64 i -> 0 <= t -> (Z.log2 i + 1) * h <= U64_MAX ->
  energy_at_epoch i h t = 0 <-> epochs_until_zero i h <= t.
Proof. intros. rewrite epochs_until_zero_eq by done. by apply energy_zero_iff_halved. Qed.

Lemma epochs_until_zero_exact_witness :
  energy_at_epoch 1000 10 99 <> 0 /\ energy_at_epoch 1000 10 100 = 0
  /\ (energy_at_epoch 1000 10 100 = 0 <-> epochs_until_zero 1000 10 <= 100).
Proof.
  split; [done|split; [done|]]. apply (epochs_until_zero_exact 10 1000 100);
    vm_compute; intuition discriminate.
Defined.

(** ** Vesting *)

Definition lock_wf (v : VestingLock) : Prop :=
  is_u64 (cliff_epoch v) /\ is_u64 (linear_release_epochs v) /\ is_u64 (total_locked v).

(** A share [x] of [n] elapsed out of [w]: the floor of [x * n / w] grows with
    [n] and stays below [x] up to [w]. *)
Lemma share_mono x n n' w :
  0 <= x -> 0 < w -> 0 <= n <= n' -> n' <= w -> 0 <= x * n / w <= x * n' / w /\ x * n' / w <= x.
Proof.
  intros. split; [split; [apply Z.div_pos; nia|apply Z.div_le_mono; nia]|].
  apply Z.div_le_upper_bound; nia.
Qed.

(** A vesting lock holds everything up to and including the cliff, only
    ever shrinks, never exceeds the locked amount, and is gone once the linear
    release window has elapsed. *)
Theorem locked_at_schedule v e e' :
  lock_wf v -> 0 <= e <= e' ->
  0 <= locked_at v e' <= locked_at v e
  /\ locked_at v e <= total_locked v
  /\ (e <= cliff_epoch v -> locked_at v e = total_locked v)
  /\ (cliff_epoch v + linear_release_epochs v <= e -> cliff_epoch v < e -> locked_at v e = 0).
Proof.
  intros (Hc & Hl & Ht) He. unfold locked_at.
  set (c := cliff_epoch v) in *. set (l := linear_release_epochs v) in *.
  set (x := total_locked v) in *.
  assert (forall n, 0 <= n <= l -> 0 < l -> as_u64 (x * n / l) = x * n / l) as Hcast.
  { intros n Hn Hp. apply as_u64_small. pose proof (share_mono x n n l). u64_lia. }
  unfold saturating_sub. zcase; repeat split; intros; try u64_lia;
    rewrite ?Hcast by u64_lia;
    pose proof (share_mono x (Z.max (e - c) 0) (Z.max (e' - c) 0) l);
    pose proof (share_mono x (Z.max (e - c) 0) (Z.max (e - c) 0) l); 
    pose proof (share_mono x (Z.max (e' - c) 0) (Z.max (e' - c) 0) l); u64_lia.
Qed.

Lemma locked_at_schedule_witness :
  let v := {| cliff_epoch := 100; linear_release_epochs := 50; total_locked := 350 |} in
  locked_at v 100 = 350 /\ locked_at v 125 = 175 /\ locked_at v 150 = 0
  /\ 0 <= locked_at v 125 <= locked_at v 100.
Proof.
  split; [done|split; [done|split; [done|]]].
  apply (locked_at_schedule
    {| cliff_epoch := 100; linear_release_epochs := 50; total_locked := 350 |} 100 125);
    [repeat split; done|lia].
Defined.

Definition schedule_wf (s : VestingSchedule) : Prop :=
  is_u64 (total_amount s) /\ is_u64 (start_epoch s)
  /\ is_u64 (cliff_epochs s) /\ is_u64 (vesting_epochs s).

Definition cliff_end (s : VestingSchedule) : Z :=
  saturating_add (start_epoch s) (cliff_epochs s).
Definition vesting_end (s : VestingSchedule) : Z :=
  saturating_add (start_epoch s) (vesting_epochs s).

(** [vested_at] without the machine-width casts. *)
Lemma vested_at_unfold s n :
  schedule_wf s -> 0 <= n ->
  vested_at s n =
    if n <? cliff_end s then 0
    else if vesting_end s <=? n then total_amount s
    else total_amount s * (n - cliff_end s) / (vesting_end s - cliff_end s).
Proof.
  intros (Ha & Hs & Hc & Hv) Hn. unfold vested_at. fold (cliff_end s) (vesting_end s).
  assert (is_u64 (cliff_end s) /\ is_u64 (vesting_end s)) as [Hce Hve]
    by (unfold cliff_end, vesting_end; u64_lia).
  destruct (Z.ltb_spec n (cliff_end s)); [done|].
  destruct (Z.leb_spec (vesting_end s) n); [done|].
  rewrite !saturating_sub_exact by lia. destruct (Z.eqb_spec (vesting_end s - cliff_end s) 0); [lia|].
  pose proof (share_mono (total_amount s) (n - cliff_end s) (n - cliff_end s)
    (vesting_end s - cliff_end s)) as Hsh.
  unfold saturating_mul_u128. rewrite (Z.min_l (_ * _))
    by (transitivity (U64_MAX * U64_MAX); [apply Z.mul_le_mono_nonneg; u64_lia|done]).
  rewrite Z.min_l by u64_lia. apply as_u64_small. u64_lia.
Qed.

(** A vesting schedule releases nothing before the cliff, everything at
    the end, and in between the released amount only grows and never exceeds
    the total; crediting [pending_release_at] brings the released amount
    exactly to what is vested, so repeated credits never overpay. *)
Theorem vested_at_schedule s e e' :
  schedule_wf s -> 0 <= e <= e' ->
  0 <= vested_at s e <= vested_at s e'
  /\ vested_at s e' <= total_amount s
  /\ (e < cliff_end s -> vested_at s e = 0)
  /\ (cliff_end s <= e -> vesting_end s <= e -> vested_at s e = total_amount s)
  /\ (released_amount s <= vested_at s e ->
      released_amount s + pending_release_at s e = vested_at s e).
Proof.
  intros Hwf He. unfold pending_release_at.
  rewrite !vested_at_unfold by (done || lia). destruct Hwf as (Ha & Hs & Hc & Hv).
  pose proof (share_mono (total_amount s) (e - cliff_end s) (e' - cliff_end s)
    (vesting_end s - cliff_end s)) as Hsh.
  pose proof (share_mono (total_amount s) (e - cliff_end s) (e - cliff_end s)
    (vesting_end s - cliff_end s)) as Hsh'.
  pose proof (share_mono (total_amount s) (e' - cliff_end s) (e' - cliff_end s)
    (vesting_end s - cliff_end s)) as Hsh''.
  zcase; repeat split; intros; u64_lia.
Qed.

Lemma vested_at_schedule_witness :
  let s := {| vs_id := 1; beneficiary := []; total_amount := 1000; start_epoch := 10;
              cliff_epochs := 20; vesting_epochs := 120; released_amount := 100 |} in
  vested_at s 29 = 0 /\ vested_at s 80 = 500 /\ vested_at s 130 = 1000
  /\ (released_amount s <= vested_at s 80 ->
      released_amount s + pending_release_at s 80 = vested_at s 80).
Proof.
  split; [done|split; [done|split; [done|]]].
  apply (vested_at_schedule
    {| vs_id := 1; beneficiary := []; total_amount := 1000; start_epoch := 10;
       cliff_epochs := 20; vesting_epochs := 120; released_amount := 100 |} 80 80);
    [repeat split; done|lia].
Defined.
