(* ===== verification/DecayCurves.v ===== *)
(** * Programmable decay curves

    crates/evaporchain-state/src/decay_curves.rs with the [DecayCurve] type of
    crates/evaporchain-types/src/lib.rs: the curve evaluator
    [compute_energy], the stack machine [evaluate_custom] for custom
    bytecode, and its deploy-time validator [validate_custom_bytecode]. *)

From stdpp Require Import base list strings.
From Stdlib Require Import ZArith Lia.
From S2P Require Import Prelude Energy.

Open Scope Z_scope.

Inductive DecayCurve : Type :=
| Exponential (half_life : Z)
| Linear (rate_per_epoch : Z)
| Stepped (thresholds : list (Z * Z))
| Conditional (base : DecayCurve) (grace_epochs : Z)
| Asymptotic (floor half_life : Z)
| Custom (bytecode : bytes).

#[global] Instance DecayCurve_eq_dec : EqDecision DecayCurve.
Proof. solve_decision. Defined.

(** ** The custom bytecode machine *)

Module CustomVM.

Definition OP_PUSH : Z := 0x01.
Definition OP_ADD : Z := 0x02.
Definition OP_SUB : Z := 0x03.
Definition OP_MUL : Z := 0x04.
Definition OP_DIV : Z := 0x05.
Definition OP_SHR : Z := 0x06.
Definition OP_DUP : Z := 0x07.
Definition OP_SWAP : Z := 0x08.
Definition OP_MIN : Z := 0x09.
Definition OP_MAX : Z := 0x0A.

Definition MAX_STEPS : nat := 256.
Definition MAX_STACK : nat := 32.

(** The stack is a list with its top first; [binop] pops [b], then [a]. *)
Definition binop (f : Z -> Z -> Z) (pc : nat) (stack : list Z) : option (nat * list Z) :=
  match stack with
  | b :: a :: rest => Some (S pc, f a b :: rest)
  | _ => None
  end.

(** One iteration of the loop body: the opcode at [pc], [None] on failure. *)
Definition step (bytecode : bytes) (op : Z) (pc : nat) (stack : list Z)
  : option (nat * list Z) :=
  if op =? OP_PUSH then
    if decide (length bytecode <= pc + 8)%nat then None
    else Some ((pc + 9)%nat, from_le_bytes (take 8 (drop (S pc) bytecode)) :: stack)
  else if op =? OP_ADD then binop saturating_add pc stack
  else if op =? OP_SUB then binop saturating_sub pc stack
  else if op =? OP_MUL then binop saturating_mul pc stack
  else if op =? OP_DIV then binop (fun a b => if b =? 0 then 0 else a / b) pc stack
  else if op =? OP_SHR then binop (fun a b => if 64 <=? b then 0 else Z.shiftr a b) pc stack
  else if op =? OP_DUP then
    match stack with
    | a :: rest => Some (S pc, a :: a :: rest)
    | [] => None
    end
  else if op =? OP_SWAP then
    match stack with
    | b :: a :: rest => Some (S pc, a :: b :: rest)
    | _ => None
    end
  else if op =? OP_MIN then binop Z.min pc stack
  else if op =? OP_MAX then binop Z.max pc stack
  else None.

(** The loop: [fuel] counts the steps still allowed, so the branch that finds
    it empty is the source's [steps > MAX_STEPS]. *)
Fixpoint run (fuel : nat) (bytecode : bytes) (pc : nat) (stack : list Z) : option Z :=
  match bytecode !! pc with
  | None =>
      match stack with
      | [v] => Some v
      | _ => None
      end
  | Some op =>
      match fuel with
      | O => None
      | S fuel' =>
          if decide (MAX_STACK < length stack)%nat then None
          else
            match step bytecode op pc stack with
            | None => None
            | Some (pc', stack') => run fuel' bytecode pc' stack'
            end
      end
  end.

Definition evaluate_custom (bytecode : bytes) (initial_energy elapsed_epochs : Z) : option Z :=
  run MAX_STEPS bytecode 0 [elapsed_epochs; initial_energy].

(** The scan of the validator; [op_count > MAX_STEPS] is the empty fuel. *)
Fixpoint validate_loop (fuel : nat) (bytecode : bytes) (pc : nat) : result unit string :=
  match bytecode !! pc with
  | None => Ok tt
  | Some op =>
      match fuel with
      | O => Err "too many operations"%string
      | S fuel' =>
          if op =? OP_PUSH then
            if decide (length bytecode <= pc + 8)%nat then Err "PUSH truncated"%string
            else validate_loop fuel' bytecode (pc + 9)
          else if (0x02 <=? op) && (op <=? 0x0A) then validate_loop fuel' bytecode (S pc)
          else Err "unknown opcode"%string
      end
  end.

Definition validate_custom_bytecode (bytecode : bytes) : result unit string :=
  if decide (bytecode = []) then Err "empty bytecode"%string
  else if decide (1024 < length bytecode)%nat then Err "bytecode exceeds 1024 bytes"%string
  else validate_loop MAX_STEPS bytecode 0.

End CustomVM.

(** ** The curve evaluator *)

(** The [for] over the thresholds, which stops at the first one not reached. *)
Fixpoint stepped_energy (energy elapsed_epochs : Z) (thresholds : list (Z * Z)) : Z :=
  match thresholds with
  | [] => energy
  | (threshold, level) :: rest =>
      if threshold <=? elapsed_epochs then stepped_energy level elapsed_epochs rest
      else energy
  end.

(** The elapsed epochs a [Conditional] curve hands to its base. *)
Definition effective_elapsed (elapsed_epochs grace_epochs : Z) (last_access_epoch : option Z) : Z :=
  match last_access_epoch with
  | Some last_access =>
      let idle := saturating_sub elapsed_epochs last_access in
      if idle <=? grace_epochs then saturating_sub elapsed_epochs (grace_epochs - idle)
      else elapsed_epochs
  | None => elapsed_epochs
  end.

Fixpoint compute_energy (curve : DecayCurve) (initial_energy elapsed_epochs : Z)
    (last_access_epoch : option Z) : Z :=
  if (initial_energy =? 0) || (elapsed_epochs =? 0) then initial_energy
  else
    match curve with
    | Exponential half_life => energy_at_epoch initial_energy half_life elapsed_epochs
    | Linear rate_per_epoch =>
        let decay := rate_per_epoch * elapsed_epochs in
        if initial_energy <=? decay then 0 else initial_energy - as_u64 decay
    | Stepped thresholds => stepped_energy initial_energy elapsed_epochs thresholds
    | Conditional base grace_epochs =>
        compute_energy base initial_energy
          (effective_elapsed elapsed_epochs grace_epochs last_access_epoch) None
    | Asymptotic floor half_life =>
        if initial_energy <=? floor then initial_energy
        else
          let above_floor := initial_energy - floor in
          let decayed_above := energy_at_epoch above_floor half_life elapsed_epochs in
          saturating_add floor decayed_above
    | Custom bytecode =>
        default 0 (CustomVM.evaluate_custom bytecode initial_energy elapsed_epochs)
    end.

(** ** Well-formed decreasing curves *)

(** The levels of a [Stepped] curve do not increase, starting from [bound]. *)
Fixpoint levels_descend (bound : Z) (thresholds : list (Z * Z)) : Prop :=
  match thresholds with
  | [] => True
  | (_, level) :: rest => 0 <= level <= bound /\ levels_descend level rest
  end.

Fixpoint curve_wf (initial : Z) (c : DecayCurve) : Prop :=
  match c with
  | Exponential half_life => is_u64 half_life
  | Linear rate => is_u64 rate
  | Stepped thresholds => levels_descend initial thresholds
  | Conditional base grace => is_u64 grace /\ curve_wf initial base
  | Asymptotic floor half_life => is_u64 floor /\ is_u64 half_life
  | Custom _ => False
  end.

Lemma stepped_energy_range e t ths :
  0 <= e -> levels_descend e ths -> 0 <= stepped_energy e t ths <= e.
Proof.
  revert e. induction ths as [|[th lv] ths IH]; intros e He Hd; simpl in *; [lia|].
  destruct Hd as [Hl Hd]. zcase; [|lia]. pose proof (IH lv ltac:(lia) Hd). lia.
Qed.

Lemma stepped_energy_antitone e t t' ths :
  0 <= e -> levels_descend e ths -> t <= t' ->
  stepped_energy e t' ths <= stepped_energy e t ths.
Proof.
  revert e. induction ths as [|[th lv] ths IH]; intros e He Hd Ht; simpl in *; [lia|].
  destruct Hd as [Hl Hd]. pose proof (stepped_energy_range lv t' ths ltac:(lia) Hd). zcase; [|lia..].
  apply IH; lia || done.
Qed.

Lemma effective_elapsed_mono t t' g o :
  0 <= t <= t' -> 0 <= g -> match o with Some l => 0 <= l | None => True end ->
  0 <= effective_elapsed t g o <= effective_elapsed t' g o
  /\ effective_elapsed t' g o <= t'.
Proof. intros. unfold effective_elapsed. destruct o; [|lia]. u64_unfold. zcase; lia. Qed.

Lemma compute_energy_0 c i o : compute_energy c i 0 o = i.
Proof. destruct c; simpl; by rewrite orb_true_r. Qed.

Lemma linear_energy_bounds i r t :
  is_u64 i -> 0 <= r * t ->
  (if i <=? r * t then 0 else i - as_u64 (r * t)) = Z.max 0 (i - r * t).
Proof. intros. zcase; [lia|]. rewrite as_u64_small by u64_lia. lia. Qed.

Lemma compute_energy_range c i t o :
  is_u64 i -> 0 <= t -> curve_wf i c ->
  match o with Some l => 0 <= l | None => True end ->
  0 <= compute_energy c i t o <= i.
Proof.
  intros Hi. revert t o. induction c as [hl|r|ths|base IH g|fl hl|bc];
    intros t o Ht Hwf Ho; simpl in Hwf; cbn [compute_energy].
  all: destruct ((i =? 0) || (t =? 0)); [u64_lia|].
  - apply energy_at_epoch_range; u64_lia.
  - rewrite linear_energy_bounds; u64_unfold; nia.
  - apply stepped_energy_range; u64_lia || done.
  - destruct Hwf as [Hg Hwf].
    destruct (effective_elapsed_mono t t g o) as [? ?]; [u64_lia..|done|]. by apply IH; [u64_lia| |].
  - zcase; [u64_lia|]. pose proof (energy_at_epoch_range hl (i - fl) t). u64_lia.
  - done.
Qed.

Lemma compute_energy_antitone c i t t' o :
  is_u64 i -> 0 <= t <= t' -> curve_wf i c ->
  match o with Some l => 0 <= l | None => True end ->
  compute_energy c i t' o <= compute_energy c i t o.
Proof.
  intros Hi. revert t t' o. induction c as [hl|r|ths|base IH g|fl hl|bc];
    intros t t' o Ht Hwf Ho.
  all: destruct (decide (t = 0)) as [->|Ht0];
    [rewrite compute_energy_0; apply compute_energy_range; done || lia|].
  all: simpl in Hwf; cbn [compute_energy].
  all: destruct (Z.eqb_spec i 0); [done|]; destruct (Z.eqb_spec t 0); [lia|];
    destruct (Z.eqb_spec t' 0); [lia|]; cbn [orb].
  - apply energy_antitone; u64_lia.
  - rewrite !linear_energy_bounds; u64_unfold; nia.
  - apply stepped_energy_antitone; u64_lia || done.
  - destruct Hwf as [Hg Hwf].
    destruct (effective_elapsed_mono t t' g o) as [? ?]; [u64_lia..|done|]. by apply IH; [u64_lia| |].
  - zcase; [u64_lia|]. pose proof (energy_antitone hl ltac:(u64_lia) (i - fl) t t').
    pose proof (energy_at_epoch_range hl (i - fl) t). u64_lia.
  - done.
Qed.

(** Every built-in decay curve with sane parameters starts at the initial
    energy, never exceeds it, and never gives energy back as epochs pass,
    whatever access epoch a conditional curve is given. *)
Theorem curve_decays c i t t' o :
  is_u64 i -> 0 <= t <= t' -> curve_wf i c ->
  match o with Some l => 0 <= l | None => True end ->
  compute_energy c i 0 o = i
  /\ 0 <= compute_energy c i t' o <= compute_energy c i t o
  /\ compute_energy c i t o <= i.
Proof.
  intros Hi Ht Hwf Ho. pose proof (compute_energy_antitone c i t t' o Hi Ht Hwf Ho).
  pose proof (compute_energy_range c i t o Hi ltac:(lia) Hwf Ho).
  pose proof (compute_energy_range c i t' o Hi ltac:(lia) Hwf Ho).
  split; [apply compute_energy_0|lia].
Qed.

Lemma curve_decays_witness :
  let c := Conditional (Stepped [(10, 800); (50, 400); (100, 0)]) 20 in
  compute_energy c 1000 0 (Some 90) = 1000
  /\ 0 <= compute_energy c 1000 200 (Some 90) <= compute_energy c 1000 75 (Some 90)
  /\ compute_energy c 1000 75 (Some 90) <= 1000.
Proof.
  apply (curve_decays (Conditional (Stepped [(10, 800); (50, 400); (100, 0)]) 20)
           1000 75 200 (Some 90)); simpl; u64_lia.
Defined.

(** ** Custom bytecode *)

Module CustomVMProps.
Import CustomVM.

(** What the machine reaches from a configuration. *)
Inductive reach (bytecode : bytes) : nat * list Z -> nat * list Z -> Prop :=
| reach_refl c : reach bytecode c c
| reach_step pc stack op c c' :
    bytecode !! pc = Some op ->
    (length stack <= MAX_STACK)%nat ->
    step bytecode op pc stack = Some c ->
    reach bytecode c c' ->
    reach bytecode (pc, stack) c'.

(** Operands an opcode needs. *)
Definition arity (op : Z) : nat :=
  if op =? OP_PUSH then 0 else if op =? OP_DUP then 1 else 2.

(** The configuration is one where the stack is the reason to fail. *)
Definition stack_fault (bytecode : bytes) (c : nat * list Z) : Prop :=
  match bytecode !! c.1 with
  | None => length c.2 <> 1%nat
  | Some op => (MAX_STACK < length c.2)%nat \/ (length c.2 < arity op)%nat
  end.

Lemma step_fails_short bytecode op pc stack :
  0x02 <= op <= 0x0A -> step bytecode op pc stack = None -> (length stack < arity op)%nat.
Proof.
  intros Hop. unfold step, binop, arity, OP_PUSH, OP_ADD, OP_SUB, OP_MUL, OP_DIV, OP_SHR,
    OP_DUP, OP_SWAP, OP_MIN, OP_MAX.
  zcase; try lia; destruct stack as [|? [|? ?]]; simpl; (discriminate || lia).
Qed.

Lemma step_next_pc bytecode op pc stack pc' stack' :
  step bytecode op pc stack = Some (pc', stack') ->
  pc' = if op =? OP_PUSH then (pc + 9)%nat else S pc.
Proof.
  unfold step, binop. destruct (op =? OP_PUSH); [case_decide; naive_solver|].
  intros H. repeat case_match; simplify_eq; done.
Qed.

Lemma validated_run_none fuel bytecode pc stack :
  validate_loop fuel bytecode pc = Ok tt -> run fuel bytecode pc stack = None ->
  exists c, reach bytecode (pc, stack) c /\ stack_fault bytecode c.
Proof.
  revert pc stack. induction fuel as [|fuel IH]; intros pc stack; simpl;
    destruct (bytecode !! pc) as [op|] eqn:Hop; try discriminate.
  1, 3: intros _ Hr; exists (pc, stack); split; [constructor|];
    unfold stack_fault; simpl; rewrite Hop; destruct stack as [|? [|? ?]]; simpl; done || lia.
  intros Hv. destruct (decide (MAX_STACK < length stack)%nat) as [Hlen|Hlen].
  { intros _. exists (pc, stack). split; [constructor|].
    unfold stack_fault; simpl; rewrite Hop. by left. }
  destruct (step bytecode op pc stack) as [[pc' stack']|] eqn:Hs.
  - intros Hr. destruct (IH pc' stack') as (c & Hc & Hf); [|done|].
    { rewrite (step_next_pc _ _ _ _ _ _ Hs). revert Hv. destruct (op =? OP_PUSH).
      - case_decide; done.
      - destruct ((0x02 <=? op) && (op <=? 0x0A)); done. }
    exists c. split; [|done]. eapply reach_step; eauto with lia.
  - intros _. exists (pc, stack). split; [constructor|].
    unfold stack_fault; simpl; rewrite Hop. right.
    destruct (op =? OP_PUSH) eqn:Hp.
    + unfold step in Hs. rewrite Hp in Hs. case_decide; done.
    + destruct ((0x02 <=? op) && (op <=? 0x0A)) eqn:Hr; [|by rewrite ?Hr in Hv].
      apply andb_true_iff in Hr as [? ?]. zbool. eapply step_fails_short; [lia|done].
Qed.

(** Bytecode accepted by the validator can only fail at run time because
    of the stack: a missing operand, more than [MAX_STACK] entries, or a final
    stack that does not hold exactly one value.  It never meets an unknown
    opcode, a truncated push or the step limit. *)
Theorem validated_failure_is_stack bytecode initial elapsed :
  validate_custom_bytecode bytecode = Ok tt ->
  evaluate_custom bytecode initial elapsed = None ->
  exists c, reach bytecode (0%nat, [elapsed; initial]) c /\ stack_fault bytecode c.
Proof.
  unfold validate_custom_bytecode, evaluate_custom.
  do 2 (case_decide; [discriminate|]). apply validated_run_none.
Qed.

Lemma validated_failure_is_stack_witness :
  exists c, reach [OP_ADD; OP_ADD] (0%nat, [5; 7]) c /\ stack_fault [OP_ADD; OP_ADD] c.
Proof. apply (validated_failure_is_stack [OP_ADD; OP_ADD] 7 5); vm_compute; reflexivity. Defined.

End CustomVMProps.
