(* ===== verification/EnergyKernel.v ===== *)
(** * The energy kernel: compartments, redirects and the conservation audit

    crates/evaporchain-energy-kernel: the four-compartment accumulator
    ([compartment.rs]), the total-preserving redirects ([redirect.rs]), the
    conservation audit ([conservation.rs]), the chain constant ([lambda.rs])
    and the refresh-pool credit ledger ([refresh_pool.rs]).

    A method on [&mut self] that can fail returns the state next to its
    [result], so that "unchanged on failure" is a statement about the code. *)

From stdpp Require Import base gmap list.
From Stdlib Require Import ZArith Lia.
From S2P Require Import Prelude Energy.

Open Scope Z_scope.

Module Kernel.

Inductive Compartment : Type := Accounts | Stake | RefreshPool | SlashedPool.

#[global] Instance Compartment_eq_dec : EqDecision Compartment.
Proof. solve_decision. Defined.

Record EnergyAccumulator := {
  accounts : Z;
  stake : Z;
  refresh_pool : Z;
  slashed_pool : Z;
}.

Definition total (a : EnergyAccumulator) : Z :=
  saturating_add
    (saturating_add (saturating_add (accounts a) (stake a)) (refresh_pool a))
    (slashed_pool a).

(** [Index] and [IndexMut]. *)
Definition index (a : EnergyAccumulator) (c : Compartment) : Z :=
  match c with
  | Accounts => accounts a
  | Stake => stake a
  | RefreshPool => refresh_pool a
  | SlashedPool => slashed_pool a
  end.

Definition index_set (a : EnergyAccumulator) (c : Compartment) (v : Z) : EnergyAccumulator :=
  match c with
  | Accounts => {| accounts := v; stake := stake a;
                   refresh_pool := refresh_pool a; slashed_pool := slashed_pool a |}
  | Stake => {| accounts := accounts a; stake := v;
                refresh_pool := refresh_pool a; slashed_pool := slashed_pool a |}
  | RefreshPool => {| accounts := accounts a; stake := stake a;
                      refresh_pool := v; slashed_pool := slashed_pool a |}
  | SlashedPool => {| accounts := accounts a; stake := stake a;
                      refresh_pool := refresh_pool a; slashed_pool := v |}
  end.

(** The debug assertion of the source is the boolean of the result: it is
    what a debug build checks. *)
Definition credit_debug_assert (a : EnergyAccumulator) (c : Compartment) (amount : Z) : bool :=
  amount <=? index a c.

Definition credit (a : EnergyAccumulator) (c : Compartment) (amount : Z)
  : EnergyAccumulator * Z :=
  let a' := index_set a c (saturating_add (index a c) amount) in
  (a', index a' c).

Definition debit (a : EnergyAccumulator) (c : Compartment) (amount : Z)
  : EnergyAccumulator * result Z unit :=
  if index a c <? amount then (a, Err tt)
  else
    let a' := index_set a c (index a c - amount) in
    (a', Ok (index a' c)).

(** ** Redirects *)

Inductive RedirectKind : Type := Slash | SlashSettle | MevBurn | Demurrage | RefreshPayout.

Definition flow (k : RedirectKind) : Compartment * Compartment :=
  match k with
  | Slash => (Stake, SlashedPool)
  | SlashSettle => (SlashedPool, RefreshPool)
  | MevBurn => (Accounts, RefreshPool)
  | Demurrage => (Accounts, RefreshPool)
  | RefreshPayout => (RefreshPool, Accounts)
  end.

Record EnergyRedirect := { kind : RedirectKind; amount : Z }.

Inductive RedirectError : Type := InsufficientSource (c : Compartment) (avail wanted : Z).

Definition apply (r : EnergyRedirect) (acc : EnergyAccumulator)
  : EnergyAccumulator * result (Compartment * Compartment) RedirectError :=
  let '(from, to) := flow (kind r) in
  let avail := index acc from in
  if avail <? amount r then (acc, Err (InsufficientSource from avail (amount r)))
  else
    match debit acc from (amount r) with
    | (acc', Err _) => (acc', Err (InsufficientSource from avail (amount r)))
    | (acc', Ok _) => ((credit acc' to (amount r)).1, Ok (from, to))
    end.

(** ** The chain constant *)

Definition DEFAULT_LAMBDA : Z := 4096.

Record ChainLambda := { lambda : Z }.

Definition half_life (l : ChainLambda) : Z := lambda l.

(** ** The conservation audit *)

Inductive ConservationViolation : Type :=
| RedirectChangedTotal (before after : Z)
| DecayIncreasedTotal (before after : Z)
| DecayExceededLambda (before after max_decay epochs half_life : Z).

Definition check_redirect (before after : EnergyAccumulator) : result unit ConservationViolation :=
  let b := total before in
  let a := total after in
  if negb (a =? b) then Err (RedirectChangedTotal b a) else Ok tt.

Definition decay_step (before after : EnergyAccumulator) (epochs_elapsed : Z) (l : ChainLambda)
  : result unit ConservationViolation :=
  let b := total before in
  let a := total after in
  if b <? a then Err (DecayIncreasedTotal b a)
  else
    let retained_min := energy_at_epoch b (half_life l) epochs_elapsed in
    if a <? retained_min then
      Err (DecayExceededLambda b a (saturating_sub b retained_min) epochs_elapsed (half_life l))
    else Ok tt.

Definition block_step (before after : EnergyAccumulator) (epochs_elapsed : Z) (l : ChainLambda)
  : result unit ConservationViolation :=
  decay_step before after epochs_elapsed l.

(** ** The accumulator's invariant *)

(** Every bucket is a [u64]. *)
Definition acc_u64 (a : EnergyAccumulator) : Prop := forall c, is_u64 (index a c).

(** The exact (unsaturated) budget. *)
Definition budget (a : EnergyAccumulator) : Z :=
  accounts a + stake a + refresh_pool a + slashed_pool a.

(** The budget fits a [u64]: what the comment in [total] calls "bounded at
    genesis". *)
Definition acc_wf (a : EnergyAccumulator) : Prop := acc_u64 a /\ budget a <= U64_MAX.

Lemma acc_u64_fields a :
  acc_u64 a <->
  is_u64 (accounts a) /\ is_u64 (stake a) /\ is_u64 (refresh_pool a) /\ is_u64 (slashed_pool a).
Proof.
  split.
  - intros H. pose proof (H Accounts). pose proof (H Stake). pose proof (H RefreshPool).
    pose proof (H SlashedPool). done.
  - intros (? & ? & ? & ?) []; done.
Qed.

Lemma total_range a : acc_u64 a -> is_u64 (total a).
Proof. rewrite acc_u64_fields. unfold total. u64_lia. Qed.

Lemma total_budget a : acc_wf a -> total a = budget a.
Proof. intros [Hu Hb]. apply acc_u64_fields in Hu. unfold total, budget in *. u64_lia. Qed.

Lemma index_set_same a c v : index (index_set a c v) c = v.
Proof. by destruct c. Qed.

Lemma index_set_other a c c' v : c <> c' -> index (index_set a c v) c' = index a c'.
Proof. by destruct c, c'. Qed.

Lemma budget_index_set a c v : budget (index_set a c v) = budget a + (v - index a c).
Proof. destruct c; unfold budget; simpl; lia. Qed.

Lemma index_le_budget a c : acc_u64 a -> index a c <= budget a.
Proof. rewrite acc_u64_fields. unfold budget. destruct c; simpl; u64_lia. Qed.

(** The state after moving [x] from one compartment to another. *)
Definition moved (a : EnergyAccumulator) (from to : Compartment) (x : Z) : EnergyAccumulator :=
  index_set (index_set a from (index a from - x)) to (saturating_add (index a to) x).

Section moved.
Context (a : EnergyAccumulator) (from to : Compartment) (x : Z).
Context (Hwf : acc_wf a) (Hne : from <> to) (Hx : 0 <= x <= index a from).

Lemma moved_fits : index a to + x <= U64_MAX.
Proof using Hne Hwf Hx.
  destruct Hwf as [Hu Hb]. apply acc_u64_fields in Hu. unfold budget in Hb.
  destruct from, to; simpl in *; try done; u64_lia.
Qed.

Lemma moved_index c :
  index (moved a from to x) c =
    if decide (c = to) then index a to + x
    else if decide (c = from) then index a from - x else index a c.
Proof using Hne Hwf Hx.
  pose proof moved_fits. unfold moved. repeat case_decide; subst.
  - rewrite index_set_same. u64_lia.
  - by rewrite index_set_other, index_set_same.
  - by rewrite !index_set_other.
Qed.

Lemma moved_budget : budget (moved a from to x) = budget a.
Proof using Hne Hwf Hx.
  pose proof moved_fits. unfold moved.
  rewrite !budget_index_set, index_set_other by done. u64_lia.
Qed.

Lemma moved_wf : acc_wf (moved a from to x).
Proof using Hne Hwf Hx.
  pose proof moved_fits. destruct Hwf as [Hu Hb]. split; [|by rewrite moved_budget].
  intros c. rewrite moved_index. pose proof (Hu c). pose proof (Hu from). pose proof (Hu to).
  repeat case_decide; u64_lia.
Qed.
End moved.

(** What a redirect does when the source can pay, and when it cannot. *)
Lemma apply_success r a from to :
  flow (kind r) = (from, to) -> amount r <= index a from ->
  apply r a = (moved a from to (amount r), Ok (from, to)).
Proof.
  intros Hf Hle. unfold apply, debit, credit. rewrite Hf.
  destruct (Z.ltb_spec (index a from) (amount r)); [lia|]. simpl.
  unfold moved. rewrite index_set_other; [done|]. destruct (kind r); simpl in Hf; naive_solver.
Qed.

Lemma apply_failure r a from to :
  flow (kind r) = (from, to) -> index a from < amount r ->
  apply r a = (a, Err (InsufficientSource from (index a from) (amount r))).
Proof.
  intros Hf Hlt. unfold apply. rewrite Hf.
  destruct (Z.ltb_spec (index a from) (amount r)); [done|lia].
Qed.

(** A redirect either moves exactly its amount from its source to its
    destination and leaves every other compartment and the audited total
    alone, or, when the source cannot pay, fails and changes nothing. *)
Theorem redirect_conserves r a from to :
  acc_wf a -> is_u64 (amount r) -> flow (kind r) = (from, to) ->
  let '(a', res) := apply r a in
  acc_wf a' /\ check_redirect a a' = Ok tt
  /\ (amount r <= index a from ->
      res = Ok (from, to) /\ index a' from = index a from - amount r
      /\ index a' to = index a to + amount r
      /\ forall c, c <> from -> c <> to -> index a' c = index a c)
  /\ (index a from < amount r ->
      a' = a /\ res = Err (InsufficientSource from (index a from) (amount r))).
Proof.
  intros Hwf Hr Hf. unfold check_redirect.
  assert (from <> to) as Hne by (destruct (kind r); naive_solver).
  destruct (Z.ltb_spec (index a from) (amount r)) as [Hlt|Hge].
  - rewrite (apply_failure r a from to) by done. rewrite Z.eqb_refl.
    split_and!; intros; done || lia.
  - rewrite (apply_success r a from to) by done.
    assert (0 <= amount r <= index a from) as Hx by u64_lia.
    pose proof (moved_wf a from to _ Hwf Hne Hx) as Hwf'.
    rewrite !total_budget, moved_budget, Z.eqb_refl by done.
    split; [done|]. split; [done|]. split; [|lia]. intros _. split; [done|].
    rewrite !moved_index by done. repeat case_decide; try done.
    split_and!; try done. intros c ? ?. rewrite moved_index by done. by repeat case_decide.
Qed.

Lemma redirect_conserves_witness :
  let a := {| accounts := 1000; stake := 500; refresh_pool := 0; slashed_pool := 0 |} in
  let '(a', res) := apply {| kind := Slash; amount := 75 |} a in
  acc_wf a' /\ check_redirect a a' = Ok tt
  /\ (75 <= index a Stake ->
      res = Ok (Stake, SlashedPool) /\ index a' Stake = 425
      /\ index a' SlashedPool = 75
      /\ forall c, c <> Stake -> c <> SlashedPool -> index a' c = index a c)
  /\ (index a Stake < 75 -> a' = a /\ res = Err (InsufficientSource Stake 500 75)).
Proof.
  apply (redirect_conserves {| kind := Slash; amount := 75 |}
    {| accounts := 1000; stake := 500; refresh_pool := 0; slashed_pool := 0 |}
    Stake SlashedPool); [|done|done].
  split; [intros []; done|done].
Defined.

(** ** Composition of audits *)

(** A window of blocks, each step of which was audited on its own: redirect
    steps within an epoch and decay steps of one epoch. *)
Inductive audited (l : ChainLambda) (a : EnergyAccumulator) : Z -> EnergyAccumulator -> Prop :=
| audited_start : audited l a 0 a
| audited_redirect n b c :
    audited l a n b -> acc_u64 c -> check_redirect b c = Ok tt -> audited l a n c
| audited_decay n b c :
    audited l a n b -> acc_u64 c -> decay_step b c 1 l = Ok tt -> audited l a (n + 1) c.

Lemma check_redirect_Ok b c : check_redirect b c = Ok tt <-> total c = total b.
Proof. unfold check_redirect. destruct (Z.eqb_spec (total c) (total b)); naive_solver. Qed.

Lemma decay_step_Ok b c n l :
  decay_step b c n l = Ok tt <->
  energy_at_epoch (total b) (half_life l) n <= total c <= total b.
Proof. unfold decay_step. zcase; naive_solver lia. Qed.

Lemma audited_sound l a n b :
  acc_u64 a -> is_u64 (half_life l) -> 0 < half_life l -> audited l a n b ->
  acc_u64 b /\ 0 <= n
  /\ energy_at_epoch (total a) (half_life l) n <= total b <= total a.
Proof.
  intros Ha Hl Hp. pose proof (total_range a Ha) as Hta. induction 1 as
    [|n b c _ (Hb & Hn & IH) Hc Hr|n b c _ (Hb & Hn & IH) Hc Hd].
  - rewrite energy_at_epoch_0 by done. lia || done.
  - apply check_redirect_Ok in Hr. rewrite Hr. done.
  - apply decay_step_Ok in Hd. split; [done|]. split; [lia|]. split; [|lia].
    pose proof (energy_at_epoch_range (half_life l) (total a) n) as Hrg.
    etransitivity; [apply energy_unit_step; u64_lia|].
    etransitivity; [|apply Hd]. pose proof (total_range b Hb).
    apply energy_mono; u64_lia.
Qed.

(** Auditing block by block is sound for the whole window: if every
    redirect preserved the total and every one-epoch step stayed within the
    chain constant, the coarse [block_step] audit over the whole window
    accepts too. *)
Theorem audits_compose l a n b :
  acc_u64 a -> is_u64 (half_life l) -> 0 < half_life l ->
  audited l a n b -> block_step a b n l = Ok tt.
Proof. intros. apply decay_step_Ok. by eapply audited_sound. Qed.

Lemma audits_compose_witness :
  let l := {| lambda := 100 |} in
  let a := {| accounts := 1000; stake := 0; refresh_pool := 0; slashed_pool := 0 |} in
  let b := {| accounts := 995; stake := 0; refresh_pool := 0; slashed_pool := 0 |} in
  let c := {| accounts := 895; stake := 0; refresh_pool := 100; slashed_pool := 0 |} in
  block_step a c 1 l = Ok tt.
Proof.
  apply (audits_compose {| lambda := 100 |}); [intros []; done|done|done|].
  apply (audited_redirect _ _ _
    {| accounts := 995; stake := 0; refresh_pool := 0; slashed_pool := 0 |});
    [|intros []; done|done].
  apply (audited_decay _ _ 0 _ _ (audited_start _ _)); [intros []; done|done].
Defined.

(** The debug assertion in [credit] holds even when the addition saturates:
    it does not detect an overflow. *)
Theorem credit_assert_never_fires a c x :
  acc_u64 a -> is_u64 x -> credit_debug_assert (credit a c x).1 c x = true.
Proof.
  intros Ha Hx. unfold credit_debug_assert, credit. simpl. rewrite index_set_same.
  pose proof (Ha c). apply Z.leb_le. u64_lia.
Qed.

End Kernel.

(** ** The refresh-pool credit ledger *)

Module Pool.

Record RefreshCredit := {
  namespace : bytes;
  accrued : Z;
  last_touched_epoch : Z;
}.

Record RefreshPool := { credits : gmap bytes RefreshCredit }.

Inductive RefreshPoolError : Type :=
| UnknownNamespace (ns : bytes)
| InsufficientCredit (ns : bytes) (requested available : Z).

Definition new : RefreshPool := {| credits := ∅ |}.

Definition accrue (p : RefreshPool) (ns : bytes) (amount epoch : Z) : RefreshPool :=
  if amount =? 0 then p
  else
    let entry := default {| namespace := ns; accrued := 0; last_touched_epoch := epoch |}
                   (credits p !! ns) in
    {| credits := <[ns := {| namespace := namespace entry;
                             accrued := saturating_add (accrued entry) amount;
                             last_touched_epoch := epoch |}]> (credits p) |}.

Definition payout (p : RefreshPool) (ns : bytes) (amount epoch : Z)
  : RefreshPool * result Z RefreshPoolError :=
  match credits p !! ns with
  | None => (p, Err (UnknownNamespace ns))
  | Some entry =>
      if accrued entry <? amount then (p, Err (InsufficientCredit ns amount (accrued entry)))
      else
        let entry' := {| namespace := namespace entry;
                         accrued := accrued entry - amount;
                         last_touched_epoch := epoch |} in
        let p' := {| credits := <[ns := entry']> (credits p) |} in
        if accrued entry' =? 0 then ({| credits := delete ns (credits p') |}, Ok amount)
        else (p', Ok amount)
  end.

Definition total_accrued (p : RefreshPool) : Z :=
  map_fold (fun _ c a => saturating_add a (accrued c)) 0 (credits p).

Definition accrued_for (p : RefreshPool) (ns : bytes) : Z :=
  default 0 (accrued <$> credits p !! ns).

Definition is_empty (p : RefreshPool) : bool := bool_decide (credits p = ∅).

(** *** Invariant: the ledger holds no empty claim *)

Definition pool_wf (p : RefreshPool) : Prop :=
  map_Forall (fun ns c => namespace c = ns /\ 0 < accrued c <= U64_MAX) (credits p).

(** The exact sum of all claims. *)
Definition claims (m : gmap bytes RefreshCredit) : Z :=
  map_fold (fun _ c a => a + accrued c) 0 m.

Lemma claims_insert m ns c :
  m !! ns = None -> claims (<[ns := c]> m) = claims m + accrued c.
Proof. intros. unfold claims. rewrite map_fold_insert_L; [done| |done]. intros. lia. Qed.

Lemma claims_delete m ns c :
  m !! ns = Some c -> claims m = claims (delete ns m) + accrued c.
Proof.
  intros Hm. rewrite <- (insert_delete_id m ns c) at 1 by done.
  apply claims_insert, lookup_delete_eq.
Qed.

Lemma claims_overwrite m ns c c' :
  m !! ns = Some c -> claims (<[ns := c']> m) = claims m - accrued c + accrued c'.
Proof.
  intros Hm. rewrite (claims_delete m ns c Hm), <- insert_delete_eq.
  rewrite claims_insert by apply lookup_delete_eq. lia.
Qed.

Lemma claims_nonneg m : map_Forall (fun _ c => 0 <= accrued c) m -> 0 <= claims m.
Proof.
  induction m as [|ns c m Hns IH] using map_ind; [done|].
  rewrite map_Forall_insert by done. intros [Hc Hm]. rewrite claims_insert by done.
  specialize (IH Hm). lia.
Qed.

(** The saturating fold of the source is the exact sum, cut at [u64::MAX],
    whatever the order of the map. *)
Lemma total_accrued_claims p :
  map_Forall (fun _ c => 0 <= accrued c) (credits p) ->
  total_accrued p = Z.min (claims (credits p)) U64_MAX.
Proof.
  destruct p as [m]. unfold total_accrued. simpl.
  induction m as [|ns c m Hns IH] using map_ind; [done|].
  intros Hall. pose proof Hall as Hall'. rewrite map_Forall_insert in Hall' by done.
  destruct Hall' as [Hc Hm]. rewrite map_fold_insert_L; [|clear IH|done].
  - rewrite IH, claims_insert by done. pose proof (claims_nonneg m Hm). u64_lia.
  - intros j1 j2 z1 z2 y _ H1 H2. apply Hall in H1, H2. simpl in *. u64_lia.
Qed.

Lemma pool_wf_nonneg p : pool_wf p -> map_Forall (fun _ c => 0 <= accrued c) (credits p).
Proof. intros Hwf ns c Hc. apply Hwf in Hc. lia. Qed.

Lemma payout_cases p ns x ep :
  pool_wf p -> 0 <= x ->
  let '(p', res) := payout p ns x ep in
  match res with
  | Ok paid => paid = x /\ x <= accrued_for p ns
      /\ (forall ns', accrued_for p' ns' =
            if decide (ns' = ns) then accrued_for p ns - x else accrued_for p ns')
      /\ claims (credits p') = claims (credits p) - x
      /\ (accrued_for p ns = x <-> credits p' !! ns = None)
      /\ pool_wf p'
  | Err (UnknownNamespace _) => p' = p /\ credits p !! ns = None
  | Err (InsufficientCredit _ want have) =>
      p' = p /\ want = x /\ have = accrued_for p ns /\ accrued_for p ns < x
  end.
Proof.
  intros Hwf Hx. unfold payout, accrued_for. destruct (credits p !! ns) as [c|] eqn:Hc; [|done].
  simpl. pose proof (Hwf ns c Hc) as [Hns Hacc].
  destruct (Z.ltb_spec (accrued c) x); [done|].
  destruct (Z.eqb_spec (accrued c - x) 0) as [He|He]; simpl; (split; [done|]); (split; [lia|]).
  - rewrite !delete_insert_eq. split_and!.
    + intros ns'. case_decide; subst; [rewrite lookup_delete_eq; simpl; lia|].
      by rewrite lookup_delete_ne by done.
    + rewrite (claims_delete _ ns c Hc). lia.
    + rewrite lookup_delete_eq. split; [done|lia].
    + intros ns' c' H'; simpl in H'. apply lookup_delete_Some in H' as [_ H']. by apply Hwf.
  - split_and!.
    + intros ns'. case_decide; subst; [by rewrite lookup_insert_eq|].
      by rewrite lookup_insert_ne by done.
    + rewrite (claims_overwrite _ ns c) by done. simpl. lia.
    + rewrite lookup_insert_eq. split; [lia|done].
    + apply map_Forall_insert_2; [simpl; split; [done|lia]|done].
Qed.

Lemma accrue_cases p ns x ep :
  pool_wf p -> is_u64 x -> accrued_for p ns + x <= U64_MAX ->
  pool_wf (accrue p ns x ep)
  /\ claims (credits (accrue p ns x ep)) = claims (credits p) + x
  /\ forall ns', accrued_for (accrue p ns x ep) ns' =
       if decide (ns' = ns) then accrued_for p ns + x else accrued_for p ns'.
Proof.
  intros Hwf Hx Hfit. unfold accrue. destruct (Z.eqb_spec x 0) as [->|Hx0].
  { split; [done|]. split; [lia|]. intros. case_decide; subst; lia. }
  unfold accrued_for in *. destruct (credits p !! ns) as [c|] eqn:Hc; simpl in *.
  - pose proof (Hwf ns c Hc) as [Hns Hacc]. rewrite saturating_add_exact by lia. split_and!.
    + apply map_Forall_insert_2; [simpl; split; [done|u64_lia]|done].
    + rewrite (claims_overwrite _ ns c) by done. simpl. lia.
    + intros ns'. case_decide; subst; [by rewrite lookup_insert_eq|].
      by rewrite lookup_insert_ne by done.
  - rewrite saturating_add_exact by u64_lia. split_and!.
    + apply map_Forall_insert_2; [simpl; split; [done|u64_lia]|done].
    + rewrite claims_insert by done. simpl. lia.
    + intros ns'. case_decide; subst; [by rewrite lookup_insert_eq|].
      by rewrite lookup_insert_ne by done.
Qed.

(** The credit ledger conserves claims: accruing [x] and paying [x] out
    again leaves every namespace's claim and the exact sum of claims as they
    were, a payout moves exactly its amount and drops an emptied entry, and a
    payout that asks for more than is accrued fails and changes nothing. *)
Theorem ledger_conserves p ns x y ep ep' :
  pool_wf p -> is_u64 x -> accrued_for p ns + x <= U64_MAX -> 0 <= y ->
  let q := accrue p ns x ep in
  let '(q', res) := payout q ns y ep' in
  total_accrued q = Z.min (claims (credits p) + x) U64_MAX
  /\ pool_wf q'
  /\ (y <= accrued_for p ns + x -> 0 < accrued_for p ns + x ->
      res = Ok y /\ claims (credits q') = claims (credits p) + x - y
      /\ forall ns', accrued_for q' ns' =
           if decide (ns' = ns) then accrued_for p ns + x - y else accrued_for p ns')
  /\ (accrued_for p ns + x < y -> q' = q /\ exists e, res = Err e).
Proof.
  intros Hwf Hx Hfit Hy. simpl.
  destruct (accrue_cases p ns x ep Hwf Hx Hfit) as (Hwfq & Hsum & Hfor).
  rewrite total_accrued_claims, Hsum by by apply pool_wf_nonneg.
  pose proof (payout_cases (accrue p ns x ep) ns y ep' Hwfq Hy) as Hp.
  pose proof (Hfor ns) as Hns. case_decide as Hd; [clear Hd|done].
  destruct (payout _ ns y ep') as [q' [paid|[?|? want have]]].
  - destruct Hp as (-> & Hle & Hall & Hc & _ & Hwf'). split_and!; try done; [|lia].
    intros _ _. split; [done|]. split; [lia|]. intros ns'. rewrite Hall, Hns, !Hfor.
    by case_decide.
  - destruct Hp as [-> Hnone]. split_and!; try done; [|by eauto].
    intros _ Hpos. unfold accrued_for at 1 in Hns. rewrite Hnone in Hns. simpl in Hns. lia.
  - destruct Hp as (-> & -> & -> & Hlt). split_and!; try done; [lia|by eauto].
Qed.

Lemma ledger_conserves_witness :
  let p := accrue new [7] 5 1 in
  let q := accrue p [9] 40 2 in
  let '(q', res) := payout q [9] 40 3 in
  total_accrued q = Z.min (claims (credits p) + 40) U64_MAX
  /\ pool_wf q'
  /\ (40 <= accrued_for p [9] + 40 -> 0 < accrued_for p [9] + 40 ->
      res = Ok 40 /\ claims (credits q') = claims (credits p) + 40 - 40
      /\ forall ns', accrued_for q' ns' =
           if decide (ns' = [9]) then accrued_for p [9] + 40 - 40 else accrued_for p ns')
  /\ (accrued_for p [9] + 40 < 40 -> q' = q /\ exists e, res = Err e).
Proof.
  apply (ledger_conserves (accrue new [7] 5 1) [9] 40 40 2 3); [|done|done|done].
  apply accrue_cases; [apply map_Forall_empty|done|done].
Defined.

End Pool.
