(* ===== verification/Types.v ===== *)
(** * Chain data types

    crates/evaporchain-types/src/lib.rs (objects, ghosts, accounts, stakes,
    delegations, governance) and the sentinel's parameter and vote records
    (crates/evaporchain-sentinel).  Identifiers and addresses are 32-byte
    arrays; a field [f] of a struct carries a prefix for its struct where two
    structs share the name. *)

From stdpp Require Import base gmap list strings.
From Stdlib Require Import ZArith Lia.
From S2P Require Import Prelude Energy DecayCurves.

Open Scope Z_scope.

Inductive LadMode := LadLinear | LadAffine | LadDecaying.

Inductive ObjectState := Active | Grace | Ghost | Resurrected.

#[global] Instance ObjectState_eq_dec : EqDecision ObjectState.
Proof. solve_decision. Defined.

Record StateObject := {
  o_id : bytes;
  o_owner : bytes;
  o_energy : Z;
  o_half_life : Z;
  o_created_at : Z;
  o_last_refreshed : Z;
  o_state : ObjectState;
  o_grace_epoch : option Z;
  o_data : bytes;
  o_decay_curve : option DecayCurve;
  o_lad_mode : option LadMode;
}.

(** [StateObject::energy_at]. *)
Definition energy_at (o : StateObject) (current_epoch : Z) : Z :=
  let epochs_since_refresh := saturating_sub current_epoch (o_last_refreshed o) in
  energy_at_epoch (o_energy o) (o_half_life o) epochs_since_refresh.

Record GhostRecord := {
  g_object_id : bytes;
  g_owner : bytes;
  g_evaporated_at : Z;
  g_data_hash : bytes;
  g_original_data : option bytes;
  g_mmr_position : option Z;
  g_original_half_life : option Z;
}.

Record Account := {
  a_address : bytes;
  a_balance : Z;
  a_nonce : Z;
  a_storage_deposit : Z;
  a_storage_bytes : Z;
  a_last_touched_epoch : Z;
  a_vesting : option VestingLock;
}.

(** [Account::transferable_balance]. *)
Definition transferable_balance (a : Account) (current_epoch : Z) : Z :=
  match a_vesting a with
  | None => a_balance a
  | Some v => saturating_sub (a_balance a) (locked_at v current_epoch)
  end.

Record StakeRecord := {
  s_validator_id : Z;
  s_validator_address : bytes;
  s_staked_amount : Z;
  s_staked_at_epoch : Z;
  s_unbonding_epoch : option Z;
  s_slashed_amount : Z;
}.

Record DelegationRecord := {
  d_delegator : bytes;
  d_validator_id : Z;
  d_amount : Z;
  d_delegated_at_epoch : Z;
  d_unbonding_amount : Z;
  d_unbonding_epoch : option Z;
}.

Inductive ProposalStatus := Pending | ActiveProposal | Passed | Rejected | Executed.

Record GovernanceProposal := {
  p_proposal_id : Z;
  p_proposer : bytes;
  p_title : string;
  p_param_key : string;
  p_param_value : string;
  p_start_epoch : Z;
  p_end_epoch : Z;
  p_votes_for : Z;
  p_votes_against : Z;
  p_status : ProposalStatus;
  p_created_at : Z;
  p_voters : gset bytes;
}.

(** Sentinel governance. *)
Record BoundedParameter := {
  bp_id : Z;
  bp_current : Z;
  bp_min : Z;
  bp_max : Z;
}.

Record SentinelVote := {
  v_validator_id : Z;
  v_target : Z;
  v_observed_epoch : Z;
}.

(** ** Struct updates the code performs through [&mut] references *)

Definition set_lifecycle (state : ObjectState) (grace : option Z) (energy last_refreshed : Z)
    (o : StateObject) : StateObject :=
  {| o_id := o_id o; o_owner := o_owner o; o_energy := energy; o_half_life := o_half_life o;
     o_created_at := o_created_at o; o_last_refreshed := last_refreshed; o_state := state;
     o_grace_epoch := grace; o_data := o_data o; o_decay_curve := o_decay_curve o;
     o_lad_mode := o_lad_mode o |}.

Definition set_storage_bytes (n : Z) (a : Account) : Account :=
  {| a_address := a_address a; a_balance := a_balance a; a_nonce := a_nonce a;
     a_storage_deposit := a_storage_deposit a; a_storage_bytes := n;
     a_last_touched_epoch := a_last_touched_epoch a; a_vesting := a_vesting a |}.

(** The spendable part of a balance is never more than the balance, and
    together with the lock it covers it. *)
Lemma transferable_le_balance a e :
  0 <= a_balance a -> (forall v, a_vesting a = Some v -> 0 <= locked_at v e) ->
  0 <= transferable_balance a e <= a_balance a.
Proof.
  intros Hb Hv. unfold transferable_balance. destruct (a_vesting a) as [v|] eqn:E; [|lia].
  specialize (Hv v eq_refl). u64_lia.
Qed.
