(* ===== verification/Trie.v ===== *)
(** * The energy-annotated Verkle trie

    crates/evaporchain-crypto/src/energy_verkle.rs: the authenticated map
    that commits to the chain state.  Nodes, metadata, insertion, lookup,
    deletion, compression of cold subtrees, root commitment, proofs and their
    verification are modelled on the tree itself.

    BLAKE3 and the Pallas curve ([blake3], [pasta_curves]) are parameters,
    with the group laws the commitments rely on as the class
    [PallasLaws]. *)

From stdpp Require Import base gmap list sorting strings.
From Stdlib Require Import ZArith Lia.
From S2P Require Import Prelude.

Open Scope Z_scope.

(** ** External cryptography *)

Class Blake3 := blake3 : bytes -> bytes.

(** [Ep] and [Fq] of pasta_curves: the point group, its scalars, the fixed
    generators [gens[i] * s], and the point encoding. *)
Class Pallas := {
  Ep : Type;
  Fq : Type;
  identity : Ep;
  ep_add : Ep -> Ep -> Ep;
  gen_mul : Z -> Fq -> Ep;
  from_repr : bytes -> Fq;
  ep_to_bytes : Ep -> bytes;
}.

(** What the code relies on: points form a commutative group, the all-zero
    encoding is the scalar zero, and zero times a generator is the identity. *)
Class PallasLaws `{Pallas} := {
  ep_add_comm p q : ep_add p q = ep_add q p;
  ep_add_assoc p q r : ep_add p (ep_add q r) = ep_add (ep_add p q) r;
  ep_add_id p : ep_add identity p = p;
  gen_mul_zero i : gen_mul i (from_repr (replicate 32 0)) = identity;
}.

(** ** Energy metadata *)

Definition MAX_DEPTH : nat := 32.
Definition U32_MAX : Z := 2 ^ 32 - 1.

Record EnergyMeta := {
  max_energy : Z;
  min_half_life : Z;
  leaf_count : Z;
  last_activity_epoch : Z;
}.

#[global] Instance EnergyMeta_eq_dec : EqDecision EnergyMeta.
Proof. solve_decision. Defined.

Definition meta_empty : EnergyMeta :=
  {| max_energy := 0; min_half_life := U64_MAX; leaf_count := 0; last_activity_epoch := 0 |}.

Definition merge (a b : EnergyMeta) : EnergyMeta :=
  {| max_energy := Z.max (max_energy a) (max_energy b);
     min_half_life := Z.min (min_half_life a) (min_half_life b);
     leaf_count := Z.min (leaf_count a + leaf_count b) U32_MAX;
     last_activity_epoch := Z.max (last_activity_epoch a) (last_activity_epoch b) |}.

Definition meta_leaf (energy half_life epoch : Z) : EnergyMeta :=
  {| max_energy := energy; min_half_life := half_life; leaf_count := 1;
     last_activity_epoch := epoch |}.

Definition is_cold (m : EnergyMeta) : bool := (max_energy m =? 0) && (0 <? leaf_count m).

(** ** Nodes *)

Record EnergyLeaf := {
  lkey : bytes;
  lvalue : bytes;
  lenergy : Z;
  lhalf_life : Z;
  lepoch : Z;
}.

#[global] Instance EnergyLeaf_eq_dec : EqDecision EnergyLeaf.
Proof. solve_decision. Defined.

Record CompressedNode := {
  commitment : bytes;
  cleaf_count : Z;
  clast_activity_epoch : Z;
}.

Inductive EnergyNode : Type :=
| Internal (children : gmap Z EnergyNode) (meta : EnergyMeta)
| Leaf (l : EnergyLeaf)
| Compressed (c : CompressedNode)
| Empty.

Definition node_meta (n : EnergyNode) : EnergyMeta :=
  match n with
  | Empty => meta_empty
  | Leaf l => meta_leaf (lenergy l) (lhalf_life l) (lepoch l)
  | Internal _ m => m
  | Compressed c =>
      {| max_energy := 0; min_half_life := U64_MAX; leaf_count := cleaf_count c;
         last_activity_epoch := clast_activity_epoch c |}
  end.

(** [recompute_meta]: the children's metadata merged in key order. *)
Definition children_meta (children : gmap Z EnergyNode) : EnergyMeta :=
  foldl (fun m c => merge m (node_meta c.2)) meta_empty (btree_iter children).

(** An [EnergyInternal] whose metadata has just been recomputed. *)
Definition mk_internal (children : gmap Z EnergyNode) : EnergyNode :=
  Internal children (children_meta children).

(** [key[depth]] of a 32-byte key. *)
Definition byte_at (key : bytes) (depth : nat) : Z := default 0 (key !! depth).

(** ** Insertion

    The recursion is on the key bytes that are left, [path], the suffix of
    the key from [depth] on; it is empty exactly when [depth >= MAX_DEPTH]. *)

Fixpoint insert_recursive (path : bytes) (depth : nat) (l : EnergyLeaf) (node : EnergyNode)
  : EnergyNode :=
  match path with
  | [] => Leaf l
  | idx :: path' =>
      match node with
      | Empty => Leaf l
      | Leaf existing =>
          if decide (lkey existing = lkey l) then Leaf l
          else
            let existing_idx := byte_at (lkey existing) depth in
            if decide (existing_idx = idx) then
              mk_internal {[ idx := insert_recursive path' (S depth) l (Leaf existing) ]}
            else mk_internal (<[ idx := Leaf l ]> {[ existing_idx := Leaf existing ]})
      | Compressed _ =>
          mk_internal (<[ idx := Leaf l ]> (if decide (idx = 0) then ∅ else {[ 0 := node ]}))
      | Internal children _ =>
          let child := default Empty (children !! idx) in
          mk_internal (<[ idx := insert_recursive path' (S depth) l child ]> (delete idx children))
      end
  end.

Definition insert (root : EnergyNode) (key value : bytes) (energy half_life epoch : Z)
  : EnergyNode :=
  insert_recursive key 0
    {| lkey := key; lvalue := value; lenergy := energy; lhalf_life := half_life;
       lepoch := epoch |} root.

(** ** Lookup *)

(** [get_recursive] returns the value; the leaf is kept so that the theorems
    can speak about the annotations too. *)
Fixpoint get_leaf (path key : bytes) (node : EnergyNode) : option EnergyLeaf :=
  match node with
  | Empty | Compressed _ => None
  | Leaf l => if decide (lkey l = key) then Some l else None
  | Internal children _ =>
      match path with
      | [] => None
      | idx :: path' =>
          match children !! idx with
          | Some child => get_leaf path' key child
          | None => None
          end
      end
  end.

Definition get (root : EnergyNode) (key : bytes) : option bytes :=
  lvalue <$> get_leaf key key root.

(** ** Deletion *)

(** What [delete_recursive] does with an internal node whose child was
    deleted: collapse a single leaf, drop an empty node. *)
Definition collapse (children : gmap Z EnergyNode) : EnergyNode :=
  match map_to_list children with
  | [] => Empty
  | [(_, Leaf l)] => Leaf l
  | _ => mk_internal children
  end.

Fixpoint delete_recursive (path key : bytes) (node : EnergyNode) : EnergyNode * bool :=
  match node with
  | Empty | Compressed _ => (node, false)
  | Leaf l => if decide (lkey l = key) then (Empty, true) else (Leaf l, false)
  | Internal children m =>
      match path with
      | [] => (Internal children m, false)
      | idx :: path' =>
          match children !! idx with
          | None => (Internal children m, false)
          | Some child =>
              let '(new_child, deleted) := delete_recursive path' key child in
              let children' :=
                match new_child with
                | Empty => base.delete idx children
                | _ => <[ idx := new_child ]> (base.delete idx children)
                end in
              if deleted then (collapse children', true) else (Internal children' m, false)
          end
      end
  end.

Definition delete (root : EnergyNode) (key : bytes) : EnergyNode * bool :=
  delete_recursive key key root.

(** ** Energy update of a leaf *)

Fixpoint update_energy_recursive (path key : bytes) (new_energy epoch : Z) (node : EnergyNode)
  : EnergyNode * bool :=
  match node with
  | Empty | Compressed _ => (node, false)
  | Leaf l =>
      if decide (lkey l = key) then
        (Leaf {| lkey := lkey l; lvalue := lvalue l; lenergy := new_energy;
                 lhalf_life := lhalf_life l; lepoch := epoch |}, true)
      else (Leaf l, false)
  | Internal children m =>
      match path with
      | [] => (Internal children m, false)
      | idx :: path' =>
          match children !! idx with
          | None => (Internal children m, false)
          | Some child =>
              let '(child', found) := update_energy_recursive path' key new_energy epoch child in
              let children' := <[ idx := child' ]> children in
              (Internal children' (if found then children_meta children' else m), found)
          end
      end
  end.

(** ** Queries *)

Fixpoint count_leaves (n : EnergyNode) : Z :=
  match n with
  | Empty | Compressed _ => 0
  | Leaf _ => 1
  | Internal children _ => map_fold (fun _ c a => count_leaves c + a) 0 children
  end.

Fixpoint count_compressed (n : EnergyNode) : Z :=
  match n with
  | Empty | Leaf _ => 0
  | Compressed c => cleaf_count c
  | Internal children _ => map_fold (fun _ c a => (count_compressed c + a) mod 2 ^ 32) 0 children
  end.

Fixpoint count_nodes (n : EnergyNode) : Z :=
  match n with
  | Empty => 0
  | Leaf _ | Compressed _ => 1
  | Internal children _ => 1 + map_fold (fun _ c a => count_nodes c + a) 0 children
  end.

(** Keys whose energy exceeds [threshold], skipping the subtrees whose cached
    maximum does not. *)
Fixpoint collect_above (threshold : Z) (n : EnergyNode) : list (bytes * Z) :=
  match n with
  | Empty | Compressed _ => []
  | Leaf l => if threshold <? lenergy l then [(lkey l, lenergy l)] else []
  | Internal children m =>
      if max_energy m <=? threshold then []
      else concat (snd <$> btree_iter (collect_above threshold <$> children))
  end.

Definition keys_above_energy (r : EnergyNode) (threshold : Z) : list (bytes * Z) :=
  collect_above threshold r.

(** ** Commitments *)

Section commitments.
Context `{Blake3, Pallas}.

Definition VERKLE_LEAF_DST : bytes := bytes_of_string "EvaporChain_Verkle_Leaf_v1" ++ [0].
Definition VERKLE_INTERNAL_DST : bytes :=
  bytes_of_string "EvaporChain_Verkle_Internal_v1" ++ [0].

(** The top byte is masked so that the encoding is below the field modulus. *)
Definition bytes_to_scalar (b : bytes) : Fq :=
  from_repr (<[ 31%nat := Z.land (byte_at b 31) 0x3F ]> b).

Definition leaf_hash (key value : bytes) : bytes := blake3 (VERKLE_LEAF_DST ++ key ++ value).

Definition internal_hash (p : Ep) : bytes := blake3 (VERKLE_INTERNAL_DST ++ ep_to_bytes p).

(** [commitment += gens[idx] * bytes_to_scalar(hash)] over a list. *)
Definition commit_from (acc : Ep) (hs : list (Z * bytes)) : Ep :=
  foldl (fun c ih => ep_add c (gen_mul ih.1 (bytes_to_scalar ih.2))) acc hs.

Definition zero_hash : bytes := replicate 32 0.

Fixpoint hash (n : EnergyNode) : bytes :=
  match n with
  | Empty => zero_hash
  | Leaf l => leaf_hash (lkey l) (lvalue l)
  | Internal children _ => internal_hash (commit_from identity (btree_iter (hash <$> children)))
  | Compressed c => commitment c
  end.

(** ** Compression of cold subtrees *)

(** A child that is cold and internal is replaced by its commitment. *)
Definition compress_child (child : EnergyNode) : EnergyNode :=
  match child with
  | Internal _ m =>
      if is_cold m then
        Compressed {| commitment := hash child; cleaf_count := leaf_count m;
                      clast_activity_epoch := last_activity_epoch m |}
      else child
  | _ => child
  end.

(** The number of subtrees compressed is the second component. *)
Fixpoint compress_recursive (n : EnergyNode) : EnergyNode * Z :=
  match n with
  | Internal children _ =>
      let rec := compress_recursive <$> children in
      let children1 := fst <$> rec in
      let count1 := map_fold (fun _ r c => c + snd r) 0 rec in
      let children2 := compress_child <$> children1 in
      let count2 := map_fold (fun _ c k =>
          match c with
          | Internal _ m => if is_cold m then k + 1 else k
          | _ => k
          end) 0 children1 in
      (mk_internal children2, (count1 + count2) mod 2 ^ 32)
  | _ => (n, 0)
  end.

(** ** The trie object *)

Record EnergyVerkleTrie := {
  root : EnergyNode;
  compressions : Z;
  decompressions : Z;
}.

Definition trie_new : EnergyVerkleTrie :=
  {| root := Empty; compressions := 0; decompressions := 0 |}.

Definition trie_insert (t : EnergyVerkleTrie) (key value : bytes) (energy half_life epoch : Z)
  : EnergyVerkleTrie :=
  {| root := insert (root t) key value energy half_life epoch;
     compressions := compressions t; decompressions := decompressions t |}.

Definition trie_delete (t : EnergyVerkleTrie) (key : bytes) : EnergyVerkleTrie * bool :=
  let '(r, deleted) := delete (root t) key in
  ({| root := r; compressions := compressions t; decompressions := decompressions t |}, deleted).

Definition compress_cold (t : EnergyVerkleTrie) : EnergyVerkleTrie * Z :=
  let '(r, count) := compress_recursive (root t) in
  ({| root := r; compressions := wrapping_add (compressions t) count;
      decompressions := decompressions t |}, count).

Definition trie_root (t : EnergyVerkleTrie) : bytes := hash (root t).

Record TrieHealth := {
  h_active_leaves : Z;
  h_compressed_leaves : Z;
  h_total_nodes : Z;
  h_max_energy : Z;
  h_min_half_life : Z;
  h_last_activity_epoch : Z;
  h_compressions : Z;
  h_decompressions : Z;
}.

Definition health (t : EnergyVerkleTrie) : TrieHealth :=
  let m := node_meta (root t) in
  {| h_active_leaves := count_leaves (root t) mod 2 ^ 32;
     h_compressed_leaves := count_compressed (root t);
     h_total_nodes := count_nodes (root t) mod 2 ^ 32;
     h_max_energy := max_energy m;
     h_min_half_life := if min_half_life m =? U64_MAX then 0 else min_half_life m;
     h_last_activity_epoch := last_activity_epoch m;
     h_compressions := compressions t;
     h_decompressions := decompressions t |}.

(** ** Proofs *)

Record EnergyVerkleProof := {
  pkey : bytes;
  pvalue : option bytes;
  pdepth : nat;
  commitments : list bytes;
  path_indices : list Z;
  siblings : list (list (Z * bytes));
  energy_path : list EnergyMeta;
  hit_compressed : bool;
}.

(** The walk of [prove]: one record per internal node met, and whether it
    ended on a compressed node. *)
Fixpoint prove_walk (path : bytes) (node : EnergyNode)
  : list (Z * EnergyMeta * bytes * list (Z * bytes)) * bool :=
  match node with
  | Empty | Leaf _ => ([], false)
  | Compressed _ => ([], true)
  | Internal children m =>
      match path with
      | [] => ([], false)
      | idx :: path' =>
          let hs := btree_iter (hash <$> children) in
          let level :=
            (idx, m, ep_to_bytes (commit_from identity hs),
             filter (fun ih => ih.1 <> idx) hs) in
          match children !! idx with
          | None => ([level], false)
          | Some child =>
              let '(levels, hit) := prove_walk path' child in (level :: levels, hit)
          end
      end
  end.

Definition prove (r : EnergyNode) (key : bytes) : EnergyVerkleProof :=
  let '(levels, hit) := prove_walk key r in
  {| pkey := key; pvalue := get r key; pdepth := length levels;
     commitments := (fun l => l.1.2) <$> levels;
     path_indices := (fun l => l.1.1.1) <$> levels;
     siblings := (fun l => l.2) <$> levels;
     energy_path := (fun l => l.1.1.2) <$> levels;
     hit_compressed := hit |}.

(** One level of the bottom-up reconstruction. *)
Definition verify_level (idx : Z) (sibs : list (Z * bytes)) (current_hash : bytes) : bytes :=
  internal_hash
    (commit_from (ep_add identity (gen_mul idx (bytes_to_scalar current_hash))) sibs).

Definition verify (proof : EnergyVerkleProof) (expected_root : bytes) : bool :=
  if decide (MAX_DEPTH < pdepth proof)%nat then false
  else if decide (pdepth proof = 0%nat) then
    if hit_compressed proof then false
    else
      match pvalue proof with
      | None => bool_decide (expected_root = zero_hash)
      | Some value => bool_decide (leaf_hash (pkey proof) value = expected_root)
      end
  else if negb (bool_decide (length (commitments proof) = pdepth proof)
             && bool_decide (length (path_indices proof) = pdepth proof)
             && bool_decide (length (siblings proof) = pdepth proof)) then false
  else if negb (bool_decide (path_indices proof = take (pdepth proof) (pkey proof))) then false
  else
    let start :=
      match pvalue proof with
      | Some value => leaf_hash (pkey proof) value
      | None => zero_hash
      end in
    bool_decide
      (foldr (fun l h => verify_level l.1 l.2 h) start
         (zip (path_indices proof) (siblings proof)) = expected_root).

End commitments.

(** ** Induction on nodes *)

Fixpoint height (n : EnergyNode) : nat :=
  match n with
  | Internal children _ => S (map_fold (fun _ c a => Nat.max (height c) a) 0%nat children)
  | _ => 0%nat
  end.

Lemma height_child children m i c :
  children !! i = Some c -> (height c < height (Internal children m))%nat.
Proof. intros Hi. simpl. pose proof (map_fold_max_le height children i c Hi). lia. Qed.

Lemma node_induction (P : EnergyNode -> Prop) :
  P Empty -> (forall l, P (Leaf l)) -> (forall c, P (Compressed c)) ->
  (forall children m, (forall i c, children !! i = Some c -> P c) -> P (Internal children m)) ->
  forall n, P n.
Proof.
  intros HE HL HC HI n. remember (height n) as h eqn:Hh. revert n Hh.
  induction (lt_wf h) as [h _ IH]. intros [children m|l|c|] ->; [|done..].
  apply HI. intros i c Hc. eapply IH; [|done]. by eapply height_child.
Qed.

(** ** Canonical tries *)

(** [canon p n]: [n] is what a sequence of insertions and deletions leaves
    at the position whose key prefix is [p]: leaves sit at the shallowest
    depth that separates them, and metadata is up to date. *)
Inductive canon : bytes -> EnergyNode -> Prop :=
| canon_leaf p l :
    p `prefix_of` lkey l -> length (lkey l) = MAX_DEPTH -> canon p (Leaf l)
| canon_internal p children :
    (forall i c, children !! i = Some c -> canon (p ++ [i]) c) ->
    children <> ∅ -> (forall i l, children <> {[ i := Leaf l ]}) ->
    canon p (mk_internal children).

Definition canon_root (n : EnergyNode) : Prop := n = Empty \/ canon [] n.

(** The content of a trie: the leaf stored under a key. *)
Definition lookup_leaf (n : EnergyNode) (k : bytes) : option EnergyLeaf := get_leaf k k n.

Lemma get_leaf_cons i path k children m :
  get_leaf (i :: path) k (Internal children m) = children !! i ≫= get_leaf path k.
Proof. simpl. by destruct (children !! i). Qed.

Lemma get_leaf_leaf path k l :
  get_leaf path k (Leaf l) = if decide (lkey l = k) then Some l else None.
Proof. by destruct path. Qed.

Lemma get_leaf_empty path k : get_leaf path k Empty = None.
Proof. by destruct path. Qed.

Lemma get_leaf_compressed path k c : get_leaf path k (Compressed c) = None.
Proof. by destruct path. Qed.

Lemma get_leaf_nil k children m : get_leaf [] k (Internal children m) = None.
Proof. done. Qed.

Create Rewrite HintDb trie.
#[export] Hint Rewrite get_leaf_cons get_leaf_leaf get_leaf_empty get_leaf_compressed
  get_leaf_nil : trie.

Lemma get_leaf_key path k n l : get_leaf path k n = Some l -> lkey l = k.
Proof.
  revert n. induction path as [|i path IH]; intros [children m|l'|c|] Hg;
    autorewrite with trie in Hg; try done; repeat case_decide; simplify_eq; try done.
  apply bind_Some in Hg as (c & _ & Hg). by eapply IH.
Qed.

Lemma canon_get_prefix p n path k l :
  canon p n -> get_leaf path k n = Some l -> p `prefix_of` k.
Proof.
  intros Hc. revert path. induction Hc as [p l' Hp Hl|p children _ IH _ _];
    intros path Hg.
  - destruct path; simpl in Hg; case_decide; simplify_eq; done.
  - destruct path as [|i path]; [done|]. unfold mk_internal in Hg. rewrite get_leaf_cons in Hg.
    apply bind_Some in Hg as (c & Hi & Hg). eapply prefix_app_l, (IH i c Hi path Hg).
Qed.

(** The suffix of a key after a prefix. *)
Lemma drop_prefix (p k : bytes) i :
  p ++ [i] `prefix_of` k -> drop (length p) k = i :: drop (length (p ++ [i])) k.
Proof. intros [s ->]. rewrite drop_app_length, <- app_assoc, drop_app_length. done. Qed.

(** A canonical node holds a key, and an internal one holds two. *)
Lemma canon_inhabited p n :
  canon p n -> exists k l, get_leaf (drop (length p) k) k n = Some l.
Proof.
  induction 1 as [p l Hp Hl|p children Hc IH Hne _].
  - exists (lkey l), l. destruct (drop (length p) (lkey l)); simpl; by rewrite decide_True.
  - apply map_choose in Hne as (i & c & Hi). destruct (IH i c Hi) as (k & l & Hg).
    exists k, l. rewrite (drop_prefix p k i); [|by eapply canon_get_prefix; eauto].
    unfold mk_internal. by rewrite get_leaf_cons, Hi.
Qed.

Lemma canon_two_keys p children :
  canon p (mk_internal children) ->
  exists k1 k2 l1 l2, k1 <> k2
    /\ get_leaf (drop (length p) k1) k1 (mk_internal children) = Some l1
    /\ get_leaf (drop (length p) k2) k2 (mk_internal children) = Some l2.
Proof.
  intros Hc. remember (mk_internal children) as n eqn:Hn. revert children Hn.
  induction Hc as [|p ch Hch IH Hne Hsingle]; intros children Hn; [done|]. clear Hn.
  apply map_choose in Hne as (i & c & Hi).
  assert (Hkey : forall j d k l, ch !! j = Some d ->
    get_leaf (drop (length (p ++ [j])) k) k d = Some l ->
    get_leaf (drop (length p) k) k (mk_internal ch) = Some l /\ p ++ [j] `prefix_of` k).
  { intros j d k l Hj Hg. assert (p ++ [j] `prefix_of` k) by (eapply canon_get_prefix; eauto).
    split; [|done]. rewrite (drop_prefix p k j) by done.
    unfold mk_internal. by rewrite get_leaf_cons, Hj. }
  destruct (decide (base.delete i ch = ∅)) as [He|Hd].
  - assert (ch = {[ i := c ]}) as Hch1.
    { rewrite <- (insert_delete_id ch i c Hi), He. done. }
    pose proof (Hch i c Hi) as Hcc. inversion Hcc as [p' l Hp Hl|p' ch' Hch' Hne' Hs']; subst.
    + by exfalso; eapply Hsingle.
    + destruct (IH i _ Hi ch' eq_refl) as (k1 & k2 & l1 & l2 & Hk & H1 & H2).
      exists k1, k2, l1, l2. split; [done|]. split; eapply Hkey; eauto.
  - apply map_choose in Hd as (j & d & Hj). apply lookup_delete_Some in Hj as [Hij Hj].
    destruct (canon_inhabited _ _ (Hch i c Hi)) as (k1 & l1 & H1).
    destruct (canon_inhabited _ _ (Hch j d Hj)) as (k2 & l2 & H2).
    destruct (Hkey i c k1 l1 Hi H1) as [G1 P1]. destruct (Hkey j d k2 l2 Hj H2) as [G2 P2].
    exists k1, k2, l1, l2. split; [|done]. intros <-. destruct P1 as [s1 E1], P2 as [s2 E2].
    rewrite E1, <- !app_assoc in E2. apply app_inv_head in E2. simpl in E2. congruence.
Qed.

(** ** Canonicity: a canonical node is determined by its content *)

Lemma canon_full p n :
  canon p n -> length p = MAX_DEPTH -> exists l, n = Leaf l /\ lkey l = p.
Proof.
  intros Hc Hp. destruct Hc as [p l [s Hs] Hl|p children Hc Hne _].
  - exists l. split; [done|]. rewrite Hs, length_app in Hl.
    assert (s = []) as -> by (apply nil_length_inv; lia). by rewrite Hs, app_nil_r.
  - exfalso. apply map_choose in Hne as (i & c & Hi).
    assert (forall q m, canon q m -> (length q <= MAX_DEPTH)%nat) as Hlen.
    { induction 1 as [q l [s Hs] Hl|q ch _ IH Hne _].
      - rewrite Hs, length_app in Hl. lia.
      - apply map_choose in Hne as (j & d & Hj). specialize (IH j d Hj).
        rewrite length_app in IH. simpl in IH. lia. }
    apply Hc, Hlen in Hi. rewrite length_app in Hi. simpl in Hi. lia.
Qed.

(** Content of a child, seen from its parent. *)
Lemma get_leaf_child p k i children m :
  p ++ [i] `prefix_of` k ->
  get_leaf (drop (length p) k) k (Internal children m)
  = children !! i ≫= get_leaf (drop (length (p ++ [i])) k) k.
Proof. intros. by rewrite (drop_prefix p k i), get_leaf_cons. Qed.

Lemma canon_get_child_None p n k :
  canon p n -> ~ p `prefix_of` k -> get_leaf (drop (length p) k) k n = None.
Proof.
  intros Hc Hp. destruct (get_leaf _ k n) eqn:Hg; [|done].
  exfalso. eapply Hp, canon_get_prefix; eauto.
Qed.

Lemma canon_unique p a b :
  canon p a -> canon p b ->
  (forall k, get_leaf (drop (length p) k) k a = get_leaf (drop (length p) k) k b) ->
  a = b.
Proof.
  intros Ha. revert b. induction Ha as [p l Hp Hl|p ch Hch IH Hne Hs]; intros b Hb Heq.
  - inversion Hb as [p' l' Hp' Hl'|p' ch' Hch' Hne' Hs']; subst.
    + specialize (Heq (lkey l)). rewrite !get_leaf_leaf, decide_True in Heq by done.
      case_decide; congruence.
    + destruct (canon_two_keys _ _ Hb) as (k1 & k2 & l1 & l2 & Hk & H1 & H2).
      rewrite <- Heq, get_leaf_leaf in H1, H2. repeat case_decide; congruence.
  - inversion Hb as [p' l' Hp' Hl'|p' ch' Hch' Hne' Hs']; subst.
    + destruct (canon_two_keys p ch) as (k1 & k2 & l1 & l2 & Hk & H1 & H2);
        [by constructor|]. rewrite Heq, get_leaf_leaf in H1, H2. repeat case_decide; congruence.
    + f_equal. apply map_eq. intros i.
      assert (Hkid : forall k, p ++ [i] `prefix_of` k ->
        ch !! i ≫= get_leaf (drop (length (p ++ [i])) k) k
        = ch' !! i ≫= get_leaf (drop (length (p ++ [i])) k) k).
      { intros k Hk. specialize (Heq k). unfold mk_internal in Heq.
        by rewrite !(get_leaf_child p k i) in Heq. }
      destruct (ch !! i) as [c|] eqn:Hi, (ch' !! i) as [c'|] eqn:Hi'; [| | |done].
      * f_equal. apply (IH i c Hi); [by apply Hch'|]. intros k.
        destruct (decide (p ++ [i] `prefix_of` k)) as [Hk|Hk]; [exact (Hkid k Hk)|].
        by rewrite !canon_get_child_None by eauto.
      * exfalso. destruct (canon_inhabited _ _ (Hch i c Hi)) as (k & l & Hg).
        assert (p ++ [i] `prefix_of` k) as Hk by (eapply canon_get_prefix; eauto).
        specialize (Hkid k Hk). simpl in Hkid. congruence.
      * exfalso. destruct (canon_inhabited _ _ (Hch' i c' Hi')) as (k & l & Hg).
        assert (p ++ [i] `prefix_of` k) as Hk by (eapply canon_get_prefix; eauto).
        specialize (Hkid k Hk). simpl in Hkid. congruence.
Qed.

(** ** Insertion *)

Definition canon_at (p : bytes) (n : EnergyNode) : Prop := n = Empty \/ canon p n.

Lemma canon_at_default p children m i :
  canon p (Internal children m) -> canon_at (p ++ [i]) (default Empty (children !! i)).
Proof.
  intros Hc. inversion Hc as [|p' ch Hch]; subst.
  destruct (children !! i) as [c|] eqn:Hi; simpl; [right; by apply Hch|by left].
Qed.

Lemma get_leaf_default path k (children : gmap Z EnergyNode) i :
  children !! i ≫= get_leaf path k = get_leaf path k (default Empty (children !! i)).
Proof. destruct (children !! i); simpl; autorewrite with trie; done. Qed.

(** A key below [p] continues with one byte, or is [p]. *)
Lemma key_step (p k : bytes) :
  p `prefix_of` k -> length k = MAX_DEPTH ->
  (drop (length p) k = [] /\ p = k /\ length p = MAX_DEPTH)
  \/ exists i, drop (length p) k = i :: drop (length (p ++ [i])) k
               /\ p ++ [i] `prefix_of` k /\ byte_at k (length p) = i.
Proof.
  intros [s ->] Hl. destruct s as [|i s].
  - left. rewrite app_nil_r in *. by rewrite drop_all.
  - right. exists i. split_and!.
    + apply drop_prefix. exists s. by rewrite <- app_assoc.
    + exists s. by rewrite <- app_assoc.
    + unfold byte_at. by rewrite list_lookup_middle.
Qed.

(** An insertion at [p] leaves a canonical node with exactly the new leaf
    added to the content. *)
Definition inserted (p : bytes) (l : EnergyLeaf) (n n' : EnergyNode) : Prop :=
  canon p n' /\
  forall k, p `prefix_of` k -> length k = MAX_DEPTH ->
    get_leaf (drop (length p) k) k n'
    = if decide (k = lkey l) then Some l else get_leaf (drop (length p) k) k n.

(** A node holding two keys is no leaf. *)
Lemma two_keys_not_leaf path1 path2 k1 k2 l1 l2 n l :
  k1 <> k2 -> get_leaf path1 k1 n = Some l1 -> get_leaf path2 k2 n = Some l2 -> n <> Leaf l.
Proof.
  intros Hk H1 H2 ->. rewrite get_leaf_leaf in H1, H2. repeat case_decide; congruence.
Qed.

Lemma prefix_snoc_inj (p k : bytes) i j :
  p ++ [i] `prefix_of` k -> p ++ [j] `prefix_of` k -> i = j.
Proof.
  intros [s1 E1] [s2 E2]. rewrite E1, <- !app_assoc in E2. apply app_inv_head in E2.
  simpl in E2. congruence.
Qed.

(** Inserting below one child. *)
Lemma inserted_child p l i children m c :
  length (lkey l) = MAX_DEPTH -> p ++ [i] `prefix_of` lkey l ->
  (forall j d, children !! j = Some d -> j <> i -> canon (p ++ [j]) d) ->
  inserted (p ++ [i]) l (default Empty (children !! i)) c ->
  (base.delete i children = ∅ -> forall x, c <> Leaf x) ->
  inserted p l (Internal children m) (mk_internal (<[ i := c ]> (base.delete i children))).
Proof.
  intros Hl Hp Hch [Hc Hget] Hnl. split.
  - constructor.
    + intros j d. rewrite lookup_insert_Some, lookup_delete_Some. naive_solver.
    + apply insert_non_empty.
    + intros j x Heq. assert (j = i /\ base.delete i children = ∅ /\ c = Leaf x) as (-> & He & ->).
      { assert (({[ j := Leaf x ]} : gmap Z EnergyNode) !! i = Some c) as Hs
          by (rewrite <- Heq; apply lookup_insert_eq).
        apply lookup_singleton_Some in Hs as [-> <-]. split; [done|]. split; [|done].
        rewrite <- (delete_insert_id (base.delete i children) i (Leaf x))
          by apply lookup_delete_eq.
        rewrite Heq. apply delete_singleton_eq. }
      by eapply Hnl.
  - intros k Hk Hlk. unfold mk_internal.
    destruct (key_step p k Hk Hlk) as [(_ & -> & Hlp)|(j & Hd & Hj & _)].
    { exfalso. apply prefix_length in Hp. rewrite length_app in Hp. simpl in Hp. lia. }
    rewrite !(get_leaf_child p k j) by done.
    destruct (decide (j = i)) as [->|Hji].
    + rewrite lookup_insert_eq. simpl. rewrite Hget by done.
      case_decide; [done|]. symmetry. apply get_leaf_default.
    + rewrite lookup_insert_ne, lookup_delete_ne by done.
      rewrite decide_False; [done|]. intros ->. by eapply Hji, prefix_snoc_inj.
Qed.

Lemma inserted_leaf p l n :
  p `prefix_of` lkey l -> length (lkey l) = MAX_DEPTH ->
  (forall k, k <> lkey l -> get_leaf (drop (length p) k) k n = None) ->
  inserted p l n (Leaf l).
Proof.
  intros Hp Hl Hn. split; [by constructor|]. intros k _ _. rewrite get_leaf_leaf.
  repeat case_decide; try done; by rewrite Hn.
Qed.

(** A leaf under one more internal node has the same content. *)
Lemma singleton_leaf_content p e j m k :
  p ++ [j] `prefix_of` lkey e -> length (lkey e) = MAX_DEPTH ->
  p `prefix_of` k -> length k = MAX_DEPTH ->
  get_leaf (drop (length p) k) k (Internal {[ j := Leaf e ]} m)
  = get_leaf (drop (length p) k) k (Leaf e).
Proof.
  intros Hj Hl Hk Hlk. rewrite get_leaf_leaf.
  destruct (key_step p k Hk Hlk) as [(_ & -> & Hlp)|(j' & _ & Hj' & _)].
  { apply prefix_length in Hj. rewrite length_app in Hj. simpl in Hj. lia. }
  rewrite (get_leaf_child p k j') by done. destruct (decide (j' = j)) as [->|Hne].
  - rewrite lookup_singleton_eq. simpl. by rewrite get_leaf_leaf.
  - rewrite lookup_singleton_ne by done. rewrite decide_False; [done|].
    intros <-. by eapply Hne, prefix_snoc_inj.
Qed.

(** Inserting next to a leaf is inserting into the node that holds just it. *)
Lemma inserted_beside p l e j m n' :
  p ++ [j] `prefix_of` lkey e -> length (lkey e) = MAX_DEPTH ->
  inserted p l (Internal {[ j := Leaf e ]} m) n' -> inserted p l (Leaf e) n'.
Proof.
  intros Hj He [Hc Hg]. split; [done|]. intros k Hk Hlk. rewrite Hg by done.
  case_decide; [done|]. by apply singleton_leaf_content.
Qed.

(** Splitting a leaf whose key takes another branch. *)
Lemma inserted_split p l e i j :
  p ++ [j] `prefix_of` lkey e -> length (lkey e) = MAX_DEPTH ->
  p ++ [i] `prefix_of` lkey l -> length (lkey l) = MAX_DEPTH -> j <> i ->
  inserted p l (Leaf e) (mk_internal (<[ i := Leaf l ]> {[ j := Leaf e ]})).
Proof.
  intros Hj Hle Hi Hl Hne. apply (inserted_beside _ _ _ j meta_empty); [done..|].
  replace (<[ i := Leaf l ]> {[ j := Leaf e ]} : gmap Z EnergyNode)
    with (<[ i := Leaf l ]> (base.delete i {[ j := Leaf e ]}) : gmap Z EnergyNode)
    by (by rewrite delete_singleton_ne).
  apply inserted_child; try done.
  - intros j' d. rewrite lookup_singleton_Some. intros [<- <-] _. by constructor.
  - rewrite lookup_singleton_ne by done. simpl. apply inserted_leaf; [done..|].
    intros; apply get_leaf_empty.
  - intros Hd. rewrite delete_singleton_ne in Hd by done. by apply map_non_empty_singleton in Hd.
Qed.

Lemma canon_get_length p n path k l :
  canon p n -> get_leaf path k n = Some l -> length k = MAX_DEPTH.
Proof.
  intros Hc. revert path. induction Hc as [p l' Hp Hl|p children _ IH _ _]; intros path Hg.
  - rewrite get_leaf_leaf in Hg. case_decide; by simplify_eq.
  - unfold mk_internal in Hg. destruct path as [|i path]; autorewrite with trie in Hg; [done|].
    apply bind_Some in Hg as (c & Hi & Hg). eauto.
Qed.

(** Inserting next to another key leaves no single leaf. *)
Lemma inserted_not_leaf p l n n' k l' x :
  inserted p l n n' -> canon p n -> p `prefix_of` lkey l -> length (lkey l) = MAX_DEPTH ->
  get_leaf (drop (length p) k) k n = Some l' -> k <> lkey l -> n' <> Leaf x.
Proof.
  intros [_ Hget] Hc Hp Hl Hg Hk. eapply two_keys_not_leaf; [exact Hk| |].
  - rewrite Hget, decide_False by eauto using canon_get_prefix, canon_get_length. exact Hg.
  - rewrite Hget, decide_True by done. done.
Qed.

(** Splitting a leaf whose key takes the same branch. *)
Lemma inserted_same_branch p l e i c :
  p ++ [i] `prefix_of` lkey e -> length (lkey e) = MAX_DEPTH ->
  p ++ [i] `prefix_of` lkey l -> length (lkey l) = MAX_DEPTH -> lkey e <> lkey l ->
  inserted (p ++ [i]) l (Leaf e) c -> inserted p l (Leaf e) (mk_internal {[ i := c ]}).
Proof.
  intros He Hle Hi Hl Hne Hc. apply (inserted_beside _ _ _ i meta_empty); [done..|].
  replace ({[ i := c ]} : gmap Z EnergyNode)
    with (<[ i := c ]> (base.delete i {[ i := Leaf e ]}) : gmap Z EnergyNode)
    by (by rewrite delete_singleton_eq).
  apply inserted_child; [done..| | |].
  - intros j d. rewrite lookup_singleton_Some. naive_solver.
  - by rewrite lookup_singleton_eq.
  - intros _ x. eapply (inserted_not_leaf _ _ _ _ (lkey e) e); [done|by constructor|done..| |done].
    rewrite get_leaf_leaf. by rewrite decide_True.
Qed.

(** An internal node updated below the branch of the key stays branching. *)
Lemma inserted_branch p l i children m c :
  canon p (Internal children m) -> p ++ [i] `prefix_of` lkey l -> length (lkey l) = MAX_DEPTH ->
  inserted (p ++ [i]) l (default Empty (children !! i)) c ->
  inserted p l (Internal children m) (mk_internal (<[ i := c ]> (base.delete i children))).
Proof.
  intros Hc Hi Hl Hins. inversion Hc as [|p' ch Hch Hne Hs]; subst.
  apply inserted_child; [done..|by eauto|done|]. intros He x.
  destruct (children !! i) as [d|] eqn:Hd; [|by rewrite (delete_id _ _ Hd) in He].
  assert (children = {[ i := d ]}) as ->.
  { rewrite <- (insert_delete_id children i d Hd), He. done. }
  pose proof (Hch i d Hd) as Hcd. inversion Hcd as [|p' ch' Hch' Hne' Hs']; subst.
  { by exfalso; eapply Hs. }
  destruct (canon_two_keys _ _ Hcd) as (k1 & k2 & l1 & l2 & Hk & H1 & H2).
  simpl in Hins. destruct (decide (k1 = lkey l)) as [->|Hk1].
  - by apply (inserted_not_leaf _ _ _ _ k2 l2 x Hins).
  - by apply (inserted_not_leaf _ _ _ _ k1 l1 x Hins).
Qed.

Lemma insert_recursive_spec path p l n :
  path = drop (length p) (lkey l) -> p `prefix_of` lkey l -> length (lkey l) = MAX_DEPTH ->
  canon_at p n -> inserted p l n (insert_recursive path (length p) l n).
Proof.
  revert p n. induction path as [|i path IH]; intros p n Hpath Hp Hl Hn;
    destruct (key_step p (lkey l) Hp Hl) as [(Hd & Hpk & Hlp)|(i' & Hd & Hi & Hb)];
    rewrite Hd in Hpath; simplify_eq.
  { simpl. apply inserted_leaf; [done..|]. intros k Hk. destruct Hn as [->|Hn].
    - apply get_leaf_empty.
    - destruct (canon_full _ _ Hn Hlp) as (l' & -> & Hl'). rewrite get_leaf_leaf.
      rewrite decide_False; [done|congruence]. }
  set (i := byte_at (lkey l) (length p)) in *.
  assert (Hrec : forall n, canon_at (p ++ [i]) n -> inserted (p ++ [i]) l n
    (insert_recursive (drop (length (p ++ [i])) (lkey l)) (S (length p)) l n)).
  { intros n' Hn'. replace (S (length p)) with (length (p ++ [i])); [by apply IH|].
    rewrite length_app. simpl. lia. }
  destruct Hn as [->|Hc]; [|destruct Hc as [p e Hpe Hle|p children Hch Hne Hs]]; simpl.
  - apply inserted_leaf; [done..|]. intros; apply get_leaf_empty.
  - case_decide as Hk.
    { apply inserted_leaf; [done..|]. intros k Hne. rewrite get_leaf_leaf, decide_False; congruence. }
    destruct (key_step p (lkey e) Hpe Hle) as [(_ & -> & Hlp)|(j & _ & Hj & Hbj)].
    { apply prefix_length in Hi. rewrite length_app in Hi. simpl in Hi. lia. }
    rewrite Hbj. case_decide as Hij; [|by apply inserted_split].
    rewrite Hij in Hj. apply inserted_same_branch; try done. apply Hrec. right. by constructor.
  - assert (Hc : canon p (mk_internal children)) by (by constructor).
    apply inserted_branch; [done..|]. apply Hrec. by apply (canon_at_default _ _ _ _ Hc).
Qed.

(** ** Deletion *)

Lemma map_to_list_singleton_inv (children : gmap Z EnergyNode) i c :
  map_to_list children = [(i, c)] -> children = {[ i := c ]}.
Proof.
  intros Hl. rewrite <- (list_to_map_to_list children), Hl. done.
Qed.

Lemma collapse_cases (children : gmap Z EnergyNode) :
  (children = ∅ /\ collapse children = Empty)
  \/ (exists i l, children = {[ i := Leaf l ]} /\ collapse children = Leaf l)
  \/ (children <> ∅ /\ (forall i l, children <> {[ i := Leaf l ]})
      /\ collapse children = mk_internal children).
Proof.
  destruct (decide (children = ∅)) as [->|Hne].
  { left. unfold collapse. by rewrite map_to_list_empty. }
  right. unfold collapse. destruct (map_to_list children) as [|[i c] rest] eqn:Hl.
  { by apply map_to_list_empty_iff in Hl. }
  destruct rest as [|q rest].
  - apply map_to_list_singleton_inv in Hl as ->.
    destruct c as [ch m|l|c|]; [right|left; by exists i, l|right|right].
    all: split_and!; [done| |done]; intros j l Heq.
    all: assert (({[ j := Leaf l ]} : gmap Z EnergyNode) !! i <> Some (Leaf l)) as Hn
           by (rewrite <- Heq, lookup_singleton_eq; congruence).
    all: assert (j = i) as -> by (apply (f_equal (lookup i)) in Heq;
           rewrite lookup_singleton_eq in Heq; symmetry in Heq;
           by apply lookup_singleton_Some in Heq as [-> _]).
    all: by rewrite lookup_singleton_eq in Hn.
  - right. split; [done|].
    assert (Hsingle : forall i l, children <> {[ i := Leaf l ]}).
    { intros j l Heq. apply (f_equal length) in Hl. rewrite Heq, map_to_list_singleton in Hl. done. }
    split; [done|]. destruct c; try done; by destruct rest.
Qed.

Definition deleted_at (p key : bytes) (n n' : EnergyNode) : Prop :=
  canon_at p n' /\
  forall k, p `prefix_of` k -> length k = MAX_DEPTH ->
    get_leaf (drop (length p) k) k n'
    = if decide (k = key) then None else get_leaf (drop (length p) k) k n.

(** Collapsing keeps the content and restores canonicity. *)
Lemma collapse_spec p children m :
  (forall i c, children !! i = Some c -> canon (p ++ [i]) c) ->
  canon_at p (collapse children)
  /\ forall k, p `prefix_of` k -> length k = MAX_DEPTH ->
       get_leaf (drop (length p) k) k (collapse children)
       = get_leaf (drop (length p) k) k (Internal children m).
Proof.
  intros Hch. destruct (collapse_cases children)
    as [[-> ->]|[(i & l & -> & ->)|(Hne & Hs & ->)]].
  - split; [by left|]. intros k _ _. rewrite get_leaf_empty.
    by destruct (drop (length p) k).
  - assert (Hc : canon (p ++ [i]) (Leaf l)) by (apply Hch, lookup_singleton_eq).
    inversion Hc as [p' l' Hp Hl|]; subst. split.
    + right. constructor; [by eapply prefix_app_l|done].
    + intros k Hk Hlk. symmetry. by apply singleton_leaf_content.
  - split; [right; by constructor|]. intros k Hk Hlk. unfold mk_internal.
    destruct (drop (length p) k); by autorewrite with trie.
Qed.

(** Replacing child [i] of a canonical node by the result of a deletion. *)
Definition set_child (i : Z) (c : EnergyNode) (children : gmap Z EnergyNode) : gmap Z EnergyNode :=
  match c with
  | Empty => base.delete i children
  | _ => <[ i := c ]> (base.delete i children)
  end.

Lemma lookup_set_child i c children j :
  set_child i c children !! j
  = if decide (j = i) then (match c with Empty => None | _ => Some c end) else children !! j.
Proof.
  unfold set_child. case_decide; subst; destruct c;
    rewrite ?lookup_insert_eq, ?lookup_delete_eq, ?lookup_insert_ne, ?lookup_delete_ne by done;
    done.
Qed.

Lemma set_child_id i c children :
  children !! i = Some c -> c <> Empty -> set_child i c children = children.
Proof.
  intros Hi Hc. apply map_eq. intros j. rewrite lookup_set_child.
  case_decide; subst; [rewrite Hi; by destruct c|done].
Qed.

Lemma delete_recursive_internal i path key children m child :
  children !! i = Some child ->
  delete_recursive (i :: path) key (Internal children m)
  = (let '(c, deleted) := delete_recursive path key child in
     if deleted then (collapse (set_child i c children), true)
     else (Internal (set_child i c children) m, false)).
Proof. intros Hi. simpl. by rewrite Hi. Qed.

(** Deleting an absent key changes nothing. *)
Lemma delete_recursive_absent p path key n :
  canon_at p n -> get_leaf path key n = None -> delete_recursive path key n = (n, false).
Proof.
  intros [->|Hc]; [by destruct path|]. revert path.
  induction Hc as [p l Hp Hl|p children Hch IH _ _]; intros path Hg.
  - rewrite get_leaf_leaf in Hg. destruct path; simpl; by case_decide.
  - unfold mk_internal in *. destruct path as [|i path]; [done|].
    rewrite get_leaf_cons in Hg. destruct (children !! i) as [c|] eqn:Hi.
    + rewrite (delete_recursive_internal _ _ _ _ _ c Hi), (IH i c Hi) by done.
      rewrite set_child_id; [done..|]. specialize (Hch i c Hi). by destruct Hch.
    + simpl. by rewrite Hi.
Qed.

Lemma delete_recursive_present p path key n l :
  canon p n -> p `prefix_of` key -> path = drop (length p) key ->
  get_leaf path key n = Some l ->
  exists n', delete_recursive path key n = (n', true) /\ deleted_at p key n n'.
Proof.
  intros Hc. revert path. induction Hc as [p l' Hp Hl|p children Hch IH Hne Hs];
    intros path Hk Hpath Hg.
  - rewrite get_leaf_leaf in Hg. case_decide as Hlk; [|done]. exists Empty. split.
    { destruct path; simpl; by rewrite decide_True. }
    split; [by left|]. intros k _ _. rewrite get_leaf_empty, get_leaf_leaf.
    repeat case_decide; congruence.
  - assert (Hlen : length key = MAX_DEPTH).
    { eapply (canon_get_length p); [by constructor|done]. }
    destruct (key_step p key Hk Hlen) as [(Hd & _)|(i & Hd & Hi & _)];
      rewrite Hd in Hpath; subst path; [done|].
    unfold mk_internal in *. rewrite get_leaf_cons in Hg.
    apply bind_Some in Hg as (c & Hci & Hg).
    destruct (IH i c Hci _ Hi eq_refl Hg) as (c' & Hdel & Hc' & Hget).
    rewrite (delete_recursive_internal _ _ _ _ _ c Hci), Hdel.
    eexists. split; [done|].
    destruct (collapse_spec p (set_child i c' children) (children_meta children)) as [Hcan Hcol].
    { intros j d. rewrite lookup_set_child. case_decide; subst; [|by eauto].
      destruct Hc' as [->|Hc']; [done|]. destruct Hc'; intros [= <-]; by constructor. }
    split; [done|]. intros k Hpk Hlk. rewrite Hcol by done.
    destruct (key_step p k Hpk Hlk) as [(Hdk & -> & Hlp)|(j & Hdk & Hj & _)].
    { exfalso. apply prefix_length in Hi. rewrite length_app in Hi. simpl in Hi. lia. }
    rewrite !(get_leaf_child p k j), lookup_set_child by done.
    destruct (decide (j = i)) as [->|Hji].
    + rewrite Hci. simpl. rewrite <- Hget by done.
      destruct c'; simpl; by rewrite ?get_leaf_empty.
    + rewrite (decide_False (P := k = key)); [done|]. intros ->.
      by eapply Hji, prefix_snoc_inj.
Qed.

(** ** Energy update *)

Definition set_energy (e ep : Z) (l : EnergyLeaf) : EnergyLeaf :=
  {| lkey := lkey l; lvalue := lvalue l; lenergy := e; lhalf_life := lhalf_life l; lepoch := ep |}.

Lemma update_energy_absent path key e ep n :
  get_leaf path key n = None -> update_energy_recursive path key e ep n = (n, false).
Proof.
  revert n. induction path as [|i path IH]; intros [children m|l|c|] Hg;
    autorewrite with trie in Hg; simpl; try done; try by case_decide.
  destruct (children !! i) as [c|] eqn:Hi; [|done]. rewrite IH by done.
  by rewrite insert_id.
Qed.

Definition updated_at (p key : bytes) (e ep : Z) (n n' : EnergyNode) : Prop :=
  canon p n' /\ (forall x, n' = Leaf x -> exists y, n = Leaf y) /\
  forall k, p `prefix_of` k -> length k = MAX_DEPTH ->
    get_leaf (drop (length p) k) k n'
    = (if decide (k = key) then set_energy e ep else id) <$> get_leaf (drop (length p) k) k n.

Lemma update_energy_present p path key e ep n l :
  canon p n -> p `prefix_of` key -> path = drop (length p) key ->
  get_leaf path key n = Some l ->
  exists n', update_energy_recursive path key e ep n = (n', true) /\ updated_at p key e ep n n'.
Proof.
  intros Hc. revert path. induction Hc as [p l' Hp Hl|p children Hch IH Hne Hs];
    intros path Hk Hpath Hg.
  - rewrite get_leaf_leaf in Hg. case_decide as Hlk; [|done].
    exists (Leaf (set_energy e ep l')). split.
    { destruct path; simpl; by rewrite decide_True. }
    split_and!; [by constructor|by eauto|]. intros k _ _. rewrite !get_leaf_leaf. simpl.
    repeat case_decide; simplify_eq; done.
  - assert (Hlen : length key = MAX_DEPTH).
    { eapply (canon_get_length p); [by constructor|done]. }
    destruct (key_step p key Hk Hlen) as [(Hd & _)|(i & Hd & Hi & _)];
      rewrite Hd in Hpath; subst path; [done|].
    unfold mk_internal in *. rewrite get_leaf_cons in Hg.
    apply bind_Some in Hg as (c & Hci & Hg).
    destruct (IH i c Hci _ Hi eq_refl Hg) as (c' & Hupd & Hc' & Hleaf & Hget).
    simpl. rewrite Hci, Hupd. eexists. split; [done|]. split_and!.
    + apply canon_internal.
      * intros j d. rewrite lookup_insert_Some. intros [[<- <-]|[_ Hj]]; eauto.
      * apply insert_non_empty.
      * intros j x Heq. assert (j = i /\ c' = Leaf x) as [-> ->].
        { apply (f_equal (lookup i)) in Heq. rewrite lookup_insert_eq in Heq. symmetry in Heq.
          by apply lookup_singleton_Some in Heq as [-> ->]. }
        destruct (Hleaf x eq_refl) as [y ->]. apply (Hs i y). apply map_eq. intros j.
        destruct (decide (i = j)) as [<-|Hij]; [by rewrite lookup_singleton_eq|].
        apply (f_equal (lookup j)) in Heq. by rewrite lookup_insert_ne, lookup_singleton_ne in * by done.
    + done.
    + intros k Hpk Hlk. destruct (key_step p k Hpk Hlk) as [(Hdk & -> & Hlp)|(j & Hdk & Hj & _)].
      { exfalso. apply prefix_length in Hi. rewrite length_app in Hi. simpl in Hi. lia. }
      rewrite !(get_leaf_child p k j) by done. destruct (decide (j = i)) as [->|Hji].
      * rewrite lookup_insert_eq, Hci. simpl. by apply Hget.
      * rewrite lookup_insert_ne by done. rewrite (decide_False (P := k = key)).
        { by rewrite option_fmap_id. }
        intros ->. by eapply Hji, prefix_snoc_inj.
Qed.

(** ** The trie as a finite map *)

(** Content lookups of the three mutators, for a canonical root. *)
Lemma lookup_leaf_length n k :
  canon_root n -> length k <> MAX_DEPTH -> lookup_leaf n k = None.
Proof.
  intros [->|Hc] Hk; [apply get_leaf_empty|]. unfold lookup_leaf.
  destruct (get_leaf k k n) eqn:Hg; [|done]. exfalso. by eapply Hk, canon_get_length.
Qed.

Lemma lookup_leaf_empty k : lookup_leaf Empty k = None.
Proof. apply get_leaf_empty. Qed.

Lemma canon_root_present n k l :
  canon_root n -> lookup_leaf n k = Some l -> canon [] n.
Proof. intros [->|Hc] Hg; [by rewrite lookup_leaf_empty in Hg|done]. Qed.

Lemma insert_refines n l :
  canon_root n -> length (lkey l) = MAX_DEPTH ->
  canon_root (insert_recursive (lkey l) 0 l n)
  /\ forall k, lookup_leaf (insert_recursive (lkey l) 0 l n) k
               = if decide (k = lkey l) then Some l else lookup_leaf n k.
Proof.
  intros Hn Hl.
  destruct (insert_recursive_spec (lkey l) [] l n) as [Hc Hg]; [done|apply prefix_nil|done|done|].
  split; [by right|]. intros k. destruct (decide (length k = MAX_DEPTH)) as [Hk|Hk].
  - apply Hg; [apply prefix_nil|done].
  - rewrite !lookup_leaf_length by (done || by right). case_decide; congruence.
Qed.

Lemma delete_refines n key :
  canon_root n ->
  canon_root (delete n key).1
  /\ (delete n key).2 = bool_decide (is_Some (lookup_leaf n key))
  /\ forall k, lookup_leaf (delete n key).1 k = if decide (k = key) then None else lookup_leaf n k.
Proof.
  intros Hn. unfold delete. destruct (lookup_leaf n key) as [l|] eqn:Hg.
  - assert (Hc : canon [] n) by (by eapply canon_root_present).
    destruct (delete_recursive_present [] key key n l Hc) as (n' & -> & Hn' & Hget);
      [apply prefix_nil|done|done|]. split_and!; [done|done|]. intros k. simpl.
    destruct (decide (length k = MAX_DEPTH)) as [Hk|Hk].
    + apply Hget; [apply prefix_nil|done].
    + rewrite !lookup_leaf_length by done. by case_decide.
  - rewrite (delete_recursive_absent []) by done. split_and!; [done|done|].
    intros k. simpl. case_decide; congruence.
Qed.

Lemma update_energy_refines n key e ep :
  canon_root n ->
  let r := update_energy_recursive key key e ep n in
  canon_root r.1
  /\ r.2 = bool_decide (is_Some (lookup_leaf n key))
  /\ forall k, lookup_leaf r.1 k
               = (if decide (k = key) then set_energy e ep else id) <$> lookup_leaf n k.
Proof.
  intros Hn r. unfold r. destruct (lookup_leaf n key) as [l|] eqn:Hg.
  - assert (Hc : canon [] n) by (by eapply canon_root_present).
    destruct (update_energy_present [] key key e ep n l Hc) as (n' & -> & Hn' & _ & Hget);
      [apply prefix_nil|done|done|]. split_and!; [by right|done|]. intros k. simpl.
    destruct (decide (length k = MAX_DEPTH)) as [Hk|Hk].
    + apply Hget; [apply prefix_nil|done].
    + rewrite !lookup_leaf_length by (done || by right). by case_decide.
  - rewrite update_energy_absent by done. split_and!; [done|done|].
    intros k. simpl. case_decide; subst; [by rewrite Hg|by rewrite option_fmap_id].
Qed.

Lemma canon_root_unique a b :
  canon_root a -> canon_root b -> (forall k, lookup_leaf a k = lookup_leaf b k) -> a = b.
Proof.
  intros [->|Ha] [->|Hb] Heq; [done| | |by apply (canon_unique [] a b)].
  - destruct (canon_inhabited _ _ Hb) as (k & l & Hg). specialize (Heq k).
    change (lookup_leaf b k = Some l) in Hg. by rewrite lookup_leaf_empty, Hg in Heq.
  - destruct (canon_inhabited _ _ Ha) as (k & l & Hg). specialize (Heq k).
    change (lookup_leaf a k = Some l) in Hg. by rewrite lookup_leaf_empty, Hg in Heq.
Qed.

(** ** Histories

    The mutators the state database calls, and their abstract counterparts on
    a finite map from keys to annotated values. *)

Inductive trie_op :=
| OpInsert (l : EnergyLeaf)
| OpDelete (key : bytes)
| OpUpdateEnergy (key : bytes) (energy epoch : Z).

Definition op_ok (o : trie_op) : Prop :=
  match o with
  | OpInsert l => length (lkey l) = MAX_DEPTH
  | _ => True
  end.

Definition apply_op (n : EnergyNode) (o : trie_op) : EnergyNode :=
  match o with
  | OpInsert l => insert n (lkey l) (lvalue l) (lenergy l) (lhalf_life l) (lepoch l)
  | OpDelete key => (delete n key).1
  | OpUpdateEnergy key e ep => (update_energy_recursive key key e ep n).1
  end.

Definition abstract_op (m : gmap bytes EnergyLeaf) (o : trie_op) : gmap bytes EnergyLeaf :=
  match o with
  | OpInsert l => <[ lkey l := l ]> m
  | OpDelete key => base.delete key m
  | OpUpdateEnergy key e ep => alter (set_energy e ep) key m
  end.

Definition run_trie (ops : list trie_op) : EnergyNode := foldl apply_op Empty ops.
Definition run_abstract (ops : list trie_op) : gmap bytes EnergyLeaf := foldl abstract_op ∅ ops.

(** The refinement relation. *)
Definition represents (n : EnergyNode) (m : gmap bytes EnergyLeaf) : Prop :=
  canon_root n /\ forall k, lookup_leaf n k = m !! k.

Lemma represents_step n m o :
  represents n m -> op_ok o -> represents (apply_op n o) (abstract_op m o).
Proof.
  intros [Hn Hm] Ho. destruct o as [l|key|key e ep]; simpl.
  - unfold insert.
    replace {| lkey := lkey l; lvalue := lvalue l; lenergy := lenergy l;
               lhalf_life := lhalf_life l; lepoch := lepoch l |} with l by (by destruct l).
    destruct (insert_refines n l Hn Ho) as [Hc Hg]. split; [done|]. intros k. rewrite Hg, Hm.
    case_decide; subst; [by rewrite lookup_insert_eq|by rewrite lookup_insert_ne].
  - destruct (delete_refines n key Hn) as (Hc & _ & Hg). split; [done|]. intros k. rewrite Hg, Hm.
    case_decide; subst; [by rewrite lookup_delete_eq|by rewrite lookup_delete_ne].
  - destruct (update_energy_refines n key e ep Hn) as (Hc & _ & Hg). split; [done|].
    intros k. rewrite Hg, Hm. case_decide; subst.
    + by rewrite lookup_alter_eq.
    + by rewrite lookup_alter_ne, option_fmap_id.
Qed.

Lemma represents_run ops : Forall op_ok ops -> represents (run_trie ops) (run_abstract ops).
Proof.
  intros Hok. unfold run_trie, run_abstract.
  assert (H0 : represents Empty ∅) by (split; [by left|intros; apply lookup_leaf_empty]).
  revert H0. generalize Empty, (∅ : gmap bytes EnergyLeaf).
  induction Hok as [|o ops Ho _ IH]; intros n m Hn; simpl; [done|].
  by apply IH, represents_step.
Qed.

(** C1: the trie refines a finite map, whatever the history: after any
    sequence of insertions, deletions and energy updates a lookup returns
    exactly what the finite map holds, and two histories that leave the same
    contents leave the same tree, so the state root does not depend on the
    order in which the state was built. *)
Theorem trie_refines_map `{Blake3, Pallas} (ops : list trie_op) :
  Forall op_ok ops ->
  (forall k, get (run_trie ops) k = lvalue <$> run_abstract ops !! k)
  /\ (forall ops', Forall op_ok ops' -> run_abstract ops' = run_abstract ops ->
        run_trie ops' = run_trie ops /\ hash (run_trie ops') = hash (run_trie ops)).
Proof.
  intros Hok. destruct (represents_run ops Hok) as [Hc Hm]. split.
  - intros k. unfold get. fold (lookup_leaf (run_trie ops) k). by rewrite Hm.
  - intros ops' Hok' Heq. destruct (represents_run ops' Hok') as [Hc' Hm'].
    assert (run_trie ops' = run_trie ops) as ->; [|done].
    apply canon_root_unique; [done..|]. intros k. by rewrite Hm, Hm', Heq.
Qed.

(** ** Metadata *)

(** Every cached annotation is the aggregate of the children's, and no child
    is [Empty]. *)
Inductive meta_ok : EnergyNode -> Prop :=
| meta_ok_leaf l : meta_ok (Leaf l)
| meta_ok_compressed c : meta_ok (Compressed c)
| meta_ok_internal children :
    (forall i c, children !! i = Some c -> meta_ok c) -> meta_ok (mk_internal children).

Definition meta_root (n : EnergyNode) : Prop := n = Empty \/ meta_ok n.

#[export] Hint Constructors meta_ok : core.

Lemma max_energy_foldl l m0 :
  max_energy (foldl (fun m c => merge m (node_meta c.2)) m0 l)
  = foldl (fun a (c : Z * EnergyNode) => Z.max a (max_energy (node_meta c.2))) (max_energy m0) l.
Proof. revert m0. induction l as [|c l IH]; intros m0; simpl; [done|]. by rewrite IH. Qed.

Lemma foldl_max_ge {A} (f : A -> Z) l a : a <= foldl (fun b x => Z.max b (f x)) a l.
Proof. revert a. induction l as [|x l IH]; intros a; simpl; [lia|]. specialize (IH (Z.max a (f x))). lia. Qed.

Lemma foldl_max_elem {A} (f : A -> Z) l a x : x ∈ l -> f x <= foldl (fun b x => Z.max b (f x)) a l.
Proof.
  intros Hx. revert a. induction Hx as [x l|x y l _ IH]; intros a; simpl; [|by apply IH].
  pose proof (foldl_max_ge f l (Z.max a (f x))). lia.
Qed.

Lemma children_meta_max (children : gmap Z EnergyNode) i c :
  children !! i = Some c -> max_energy (node_meta c) <= max_energy (children_meta children).
Proof.
  intros Hi. unfold children_meta. rewrite max_energy_foldl.
  apply (foldl_max_elem (fun x : Z * EnergyNode => max_energy (node_meta x.2)) _ _ (i, c)).
  by apply elem_of_btree_iter.
Qed.

(** A leaf's energy is covered by the metadata above it. *)
Lemma meta_covers n path k l :
  meta_ok n -> get_leaf path k n = Some l -> lenergy l <= max_energy (node_meta n).
Proof.
  intros Hok. revert path. induction Hok as [l'| |children _ IH]; intros path Hg;
    unfold mk_internal in *.
  - rewrite get_leaf_leaf in Hg. case_decide; simplify_eq; done.
  - by rewrite get_leaf_compressed in Hg.
  - destruct path as [|i path]; [done|]. rewrite get_leaf_cons in Hg.
    apply bind_Some in Hg as (c & Hi & Hg). specialize (IH i c Hi path Hg).
    pose proof (children_meta_max children i c Hi). simpl. lia.
Qed.

Lemma canon_meta_ok p n : canon p n -> meta_ok n.
Proof. induction 1; auto. Qed.

Lemma meta_ok_child children m i c :
  meta_ok (Internal children m) -> children !! i = Some c -> meta_ok c.
Proof. intros Hok. inversion Hok; subst; eauto. Qed.

Lemma insert_meta_ok path depth l n : meta_root n -> meta_ok (insert_recursive path depth l n).
Proof.
  revert depth n. induction path as [|i path IH]; intros depth n Hn; simpl; [auto|].
  destruct Hn as [->|Hn]; [auto|]. destruct n as [children m|e|c|]; [| | |auto].
  - constructor. intros j d. rewrite lookup_insert_Some, lookup_delete_Some.
    intros [[<- <-]|(_ & _ & Hj)]; [|by eapply meta_ok_child].
    apply IH. destruct (children !! i) eqn:Hi; [right; by eapply meta_ok_child|by left].
  - repeat case_decide; [auto| |]; constructor; intros j d;
      rewrite ?lookup_insert_Some, lookup_singleton_Some; [|naive_solver].
    intros [<- <-]. apply IH. by right.
  - constructor. intros j d. case_decide; rewrite lookup_insert_Some.
    + rewrite lookup_empty. naive_solver.
    + rewrite lookup_singleton_Some. naive_solver.
Qed.

Lemma collapse_meta_ok children :
  (forall i c, children !! i = Some c -> meta_ok c) -> meta_root (collapse children).
Proof.
  intros Hch. unfold meta_root.
  destruct (collapse_cases children) as [[_ ->]|[(i & l & _ & ->)|(_ & _ & ->)]]; auto.
Qed.

Lemma delete_meta_ok path key n :
  meta_ok n ->
  if (delete_recursive path key n).2 then meta_root (delete_recursive path key n).1
  else (delete_recursive path key n).1 = n.
Proof.
  intros Hok. revert path. induction Hok as [l| |children Hch IH]; intros path.
  - destruct path; simpl; case_decide; simpl; unfold meta_root; auto.
  - by destruct path.
  - unfold mk_internal. destruct path as [|i path]; [done|].
    destruct (children !! i) as [c|] eqn:Hi; [|by simpl; rewrite Hi].
    rewrite (delete_recursive_internal _ _ _ _ _ c Hi). specialize (IH i c Hi path).
    destruct (delete_recursive path key c) as [c' []]; simpl in *.
    + apply collapse_meta_ok. intros j d. rewrite lookup_set_child.
      case_decide; [|by eauto]. destruct IH as [->|Hc']; [done|].
      destruct Hc'; intros [= <-]; auto.
    + subst c'. rewrite set_child_id; [done..|]. specialize (Hch i c Hi). by destruct Hch.
Qed.

Lemma update_meta_ok path key e ep n :
  meta_ok n ->
  if (update_energy_recursive path key e ep n).2
  then meta_ok (update_energy_recursive path key e ep n).1
  else (update_energy_recursive path key e ep n).1 = n.
Proof.
  intros Hok. revert path. induction Hok as [l| |children Hch IH]; intros path.
  - destruct path; simpl; case_decide; simpl; auto.
  - by destruct path.
  - unfold mk_internal. destruct path as [|i path]; [done|]. simpl.
    destruct (children !! i) as [c|] eqn:Hi; [|done]. specialize (IH i c Hi path).
    destruct (update_energy_recursive path key e ep c) as [c' []]; simpl in *.
    + constructor. intros j d. rewrite lookup_insert_Some. intros [[<- <-]|[_ Hj]]; eauto.
    + subst c'. by rewrite insert_id.
Qed.

(** ** Compression *)

Section compression.
Context `{Blake3, Pallas}.

Lemma hash_compress_child c : hash (compress_child c) = hash c.
Proof. destruct c as [ch m| | |]; [|done..]. simpl. by destruct (is_cold m). Qed.

Lemma compress_internal children m :
  (compress_recursive (Internal children m)).1
  = mk_internal ((fun c => compress_child (compress_recursive c).1) <$> children).
Proof. simpl. f_equal. by rewrite <- !map_fmap_compose. Qed.

Lemma hash_compress n : hash (compress_recursive n).1 = hash n.
Proof.
  induction n as [| | |children m IH] using node_induction; [done..|].
  rewrite compress_internal. simpl. do 2 f_equal. f_equal.
  apply map_eq. intros i. rewrite !lookup_fmap.
  destruct (children !! i) as [c|] eqn:Hi; simpl; [|done].
  by rewrite hash_compress_child, (IH i c Hi).
Qed.

Lemma compress_meta_ok n : meta_ok n -> meta_ok (compress_recursive n).1.
Proof.
  induction 1 as [| |children Hch IH]; [simpl; auto..|]. unfold mk_internal.
  rewrite compress_internal. constructor. intros i c. rewrite lookup_fmap.
  intros (c' & Hi & ->)%fmap_Some. specialize (IH i c' Hi).
  destruct IH as [| |ch]; simpl; auto. destruct (is_cold _); auto.
Qed.

(** Compression never invents a leaf... *)
Lemma compress_no_invention n path k l :
  get_leaf path k (compress_recursive n).1 = Some l -> get_leaf path k n = Some l.
Proof.
  revert path. induction n as [| | |children m IH] using node_induction; [done..|].
  intros path. rewrite compress_internal. unfold mk_internal.
  destruct path as [|i path]; [done|]. rewrite !get_leaf_cons, lookup_fmap.
  destruct (children !! i) as [c|] eqn:Hi; simpl; [|done]. intros Hg.
  apply (IH i c Hi). destruct (compress_recursive c).1 as [ch m'| | |]; try done.
  simpl in Hg. destruct (is_cold m'); [by rewrite get_leaf_compressed in Hg|done].
Qed.

(** ... and keeps every leaf that still has energy. *)
Lemma compress_keeps_live n path k l :
  meta_ok n -> get_leaf path k n = Some l -> 0 < lenergy l ->
  get_leaf path k (compress_recursive n).1 = Some l.
Proof.
  intros Hok Hg Hl. revert path Hg. induction Hok as [| |children Hch IH]; [done..|].
  intros path. unfold mk_internal. rewrite compress_internal.
  destruct path as [|i path]; [done|]. unfold mk_internal. rewrite !get_leaf_cons, lookup_fmap.
  destruct (children !! i) as [c|] eqn:Hi; simpl; [|done]. intros Hg.
  specialize (IH i c Hi path Hg). specialize (compress_meta_ok c (Hch i c Hi)) as Hmc.
  destruct (compress_recursive c).1 as [ch m'| | |]; simpl; try done.
  destruct (is_cold m') eqn:Hcold; [|done]. exfalso.
  pose proof (meta_covers _ _ _ _ Hmc IH) as Hcov. simpl in Hcov.
  unfold is_cold in Hcold. apply andb_prop in Hcold as [He _]. zbool. lia.
Qed.

End compression.

(** ** What the root commits to

    The commitment reads keys and values only: annotations can be erased. *)

Definition erase_leaf (l : EnergyLeaf) : EnergyLeaf :=
  {| lkey := lkey l; lvalue := lvalue l; lenergy := 0; lhalf_life := 0; lepoch := 0 |}.

Fixpoint erase (n : EnergyNode) : EnergyNode :=
  match n with
  | Leaf l => Leaf (erase_leaf l)
  | Internal children _ => mk_internal (erase <$> children)
  | _ => n
  end.

Lemma erase_leaf_inv n l : erase n = Leaf l -> exists l', n = Leaf l'.
Proof. destruct n; try done; eauto. Qed.

Lemma erase_canon p n : canon p n -> canon p (erase n).
Proof.
  induction 1 as [p l Hp Hl|p children Hch IH Hne Hs]; simpl; [by constructor|]. constructor.
  - intros i c. rewrite lookup_fmap. intros (c' & Hi & ->)%fmap_Some. eauto.
  - by rewrite fmap_empty_iff.
  - intros i l Heq. apply map_choose in Hne as (j & c & Hj).
    assert (Hall : forall j c, children !! j = Some c -> j = i /\ erase c = Leaf l).
    { intros j' c' Hj'. apply (f_equal (lookup j')) in Heq. rewrite lookup_fmap, Hj' in Heq.
      symmetry in Heq. by apply lookup_singleton_Some in Heq as [-> ->]. }
    destruct (Hall j c Hj) as [-> Hc]. destruct (erase_leaf_inv c l Hc) as [l' ->].
    apply (Hs i l'). apply map_eq. intros j. destruct (decide (i = j)) as [<-|Hij].
    + by rewrite lookup_singleton_eq.
    + rewrite lookup_singleton_ne by done. destruct (children !! j) eqn:E; [|done].
      by destruct (Hall j _ E) as [-> _].
Qed.

Lemma get_leaf_erase n path k : get_leaf path k (erase n) = erase_leaf <$> get_leaf path k n.
Proof.
  revert path. induction n as [|l|c|children m IH] using node_induction; intros path; simpl.
  - by rewrite !get_leaf_empty.
  - rewrite !get_leaf_leaf. simpl. by case_decide.
  - by rewrite !get_leaf_compressed.
  - destruct path as [|i path]; [done|]. unfold mk_internal. rewrite !get_leaf_cons, lookup_fmap.
    destruct (children !! i) as [c|] eqn:Hi; simpl; [|done]. apply (IH i c Hi).
Qed.

Section erasure.
Context `{Blake3, Pallas}.

Lemma hash_erase n : hash (erase n) = hash n.
Proof.
  induction n as [| | |children m IH] using node_induction; [done..|].
  simpl. do 2 f_equal. f_equal. apply map_eq. intros i. rewrite !lookup_fmap.
  destruct (children !! i) as [c|] eqn:Hi; simpl; [|done]. by rewrite (IH i c Hi).
Qed.

(** Canonical tries that hold the same values under the same keys have the
    same commitment. *)
Lemma hash_values a b :
  canon_root a -> canon_root b ->
  (forall k, lvalue <$> lookup_leaf a k = lvalue <$> lookup_leaf b k) -> hash a = hash b.
Proof.
  intros Ha Hb Heq. rewrite <- (hash_erase a), <- (hash_erase b). f_equal.
  assert (Her : forall n, canon_root n -> canon_root (erase n)).
  { intros n [->|Hn]; [by left|right; by apply erase_canon]. }
  apply canon_root_unique; [by apply Her..|]. intros k. unfold lookup_leaf.
  rewrite !get_leaf_erase. specialize (Heq k). unfold lookup_leaf in Heq.
  destruct (get_leaf k k a) as [la|] eqn:Ea, (get_leaf k k b) as [lb|] eqn:Eb; simplify_eq/=; [|done].
  apply get_leaf_key in Ea, Eb. unfold erase_leaf. congruence.
Qed.

End erasure.

(** ** A small instance of the external cryptography

    The integers as point group: enough to evaluate the definitions. *)

Module Toy.

#[global] Instance toy_blake3 : Blake3 :=
  fun b => to_le_bytes 32 (foldl (fun a x => (a * 257 + x) mod (2 ^ 61 - 1)) 7 b).

#[global] Instance toy_pallas : Pallas :=
  {| Ep := Z; Fq := Z; identity := 0; ep_add := Z.add;
     gen_mul i s := (i + 1) * s; from_repr := from_le_bytes;
     ep_to_bytes p := to_le_bytes 32 p |}.

#[global] Instance toy_laws : PallasLaws.
Proof.
  split; intros; [apply Z.add_comm|apply Z.add_assoc|apply Z.add_0_l|apply Z.mul_0_r].
Qed.

(** Keys that share their first byte, and one that does not. *)
Definition key (a b : Z) : bytes := a :: b :: replicate 30 0.
Definition leaf (a b v e : Z) : EnergyLeaf :=
  {| lkey := key a b; lvalue := replicate 32 v; lenergy := e; lhalf_life := 10; lepoch := 1 |}.

Definition history : list trie_op :=
  [OpInsert (leaf 1 1 7 50); OpInsert (leaf 1 2 8 0); OpInsert (leaf 2 1 9 5)].
Definition history' : list trie_op :=
  [OpInsert (leaf 2 1 9 5); OpInsert (leaf 4 4 1 1); OpInsert (leaf 1 2 8 3);
   OpDelete (key 4 4); OpInsert (leaf 1 1 7 50); OpUpdateEnergy (key 1 2) 0 1].

Lemma history_ok : Forall op_ok history.
Proof. repeat constructor. Qed.

Lemma history_ok' : Forall op_ok history'.
Proof. repeat constructor. Qed.

End Toy.

Lemma trie_refines_map_witness :
  get (run_trie Toy.history) (Toy.key 1 2) = Some (replicate 32 8)
  /\ hash (run_trie Toy.history') = hash (run_trie Toy.history).
Proof.
  destruct (trie_refines_map Toy.history Toy.history_ok) as [Hget Hroot]. split.
  - rewrite Hget. vm_compute. reflexivity.
  - apply (Hroot Toy.history' Toy.history_ok'). vm_compute. reflexivity.
Defined.

(** ** Histories with compression *)

Inductive trie_event :=
| Mutate (o : trie_op)
| Compress.

Section events.
Context `{Blake3, Pallas}.

Definition apply_event (t : EnergyVerkleTrie) (e : trie_event) : EnergyVerkleTrie :=
  match e with
  | Mutate (OpInsert l) => trie_insert t (lkey l) (lvalue l) (lenergy l) (lhalf_life l) (lepoch l)
  | Mutate (OpDelete key) => (trie_delete t key).1
  | Mutate (OpUpdateEnergy key e ep) =>
      {| root := (update_energy_recursive key key e ep (root t)).1;
         compressions := compressions t; decompressions := decompressions t |}
  | Compress => (compress_cold t).1
  end.

Definition run_events (evs : list trie_event) : EnergyVerkleTrie :=
  foldl apply_event trie_new evs.

Lemma root_compress_cold t : root (compress_cold t).1 = (compress_recursive (root t)).1.
Proof. unfold compress_cold. by destruct (compress_recursive (root t)). Qed.

Lemma root_trie_delete t key : root (trie_delete t key).1 = (delete (root t) key).1.
Proof. unfold trie_delete. by destruct (delete (root t) key). Qed.

Lemma event_meta_ok t e : meta_root (root t) -> meta_root (root (apply_event t e)).
Proof.
  intros Hn. destruct e as [[l|key|key e ep]|]; simpl.
  - right. by apply insert_meta_ok.
  - rewrite root_trie_delete. destruct Hn as [->|Hn]; [by left; destruct key|].
    unfold delete. pose proof (delete_meta_ok key key _ Hn) as Hd.
    destruct (delete_recursive key key (root t)) as [n' []]; simpl in *; [done|by subst; right].
  - destruct Hn as [->|Hn]; [by left; destruct key|]. right.
    pose proof (update_meta_ok key key e ep _ Hn) as Hd.
    destruct (update_energy_recursive key key e ep (root t)) as [n' []]; simpl in *; by subst.
  - rewrite root_compress_cold. destruct Hn as [->|Hn]; [by left|].
    right. by apply compress_meta_ok.
Qed.

Lemma run_events_meta_ok evs : meta_root (root (run_events evs)).
Proof.
  unfold run_events. assert (Hnew : meta_root (root trie_new)) by by left.
  revert Hnew. generalize trie_new. induction evs as [|e evs IH]; intros t Ht; simpl; [done|].
  by apply IH, event_meta_ok.
Qed.

(** Compressing cold subtrees is invisible to the state commitment and
    to live objects.  After any history of insertions, deletions, energy
    updates and earlier compressions, [compress_cold] leaves the root
    commitment unchanged, keeps every leaf whose energy is positive, and
    makes no key readable that was not readable before. *)
Theorem compress_cold_safe (evs : list trie_event) :
  let t := run_events evs in
  let t' := (compress_cold t).1 in
  trie_root t' = trie_root t
  /\ (forall k l, lookup_leaf (root t) k = Some l -> 0 < lenergy l ->
        lookup_leaf (root t') k = Some l)
  /\ (forall k l, lookup_leaf (root t') k = Some l -> lookup_leaf (root t) k = Some l).
Proof.
  intros t t'. unfold t', trie_root. rewrite root_compress_cold.
  assert (meta_root (root t)) as [He|Hok] by apply run_events_meta_ok; [by rewrite He|].
  split_and!.
  - apply hash_compress.
  - intros k l Hg Hl. by apply compress_keeps_live.
  - intros k l. apply compress_no_invention.
Qed.

End events.

(** A subtree of dead leaves is compressed, the live leaf stays. *)
Lemma compress_cold_safe_witness :
  let t := run_events [Mutate (OpInsert (Toy.leaf 1 1 7 0)); Mutate (OpInsert (Toy.leaf 1 2 8 0));
                       Mutate (OpInsert (Toy.leaf 2 1 9 5))] in
  let t' := (compress_cold t).1 in
  compressions t' = 1 /\ trie_root t' = trie_root t
  /\ lookup_leaf (root t') (Toy.key 2 1) = Some (Toy.leaf 2 1 9 5)
  /\ lookup_leaf (root t') (Toy.key 1 1) = None.
Proof.
  intros t t'. destruct (compress_cold_safe
    [Mutate (OpInsert (Toy.leaf 1 1 7 0)); Mutate (OpInsert (Toy.leaf 1 2 8 0));
     Mutate (OpInsert (Toy.leaf 2 1 9 5))]) as (Hroot & Hlive & _).
  split_and!; [vm_compute; reflexivity|exact Hroot| |vm_compute; reflexivity].
  apply Hlive; [vm_compute; reflexivity|vm_compute; reflexivity].
Defined.

(** ** Threshold queries *)

Lemma elem_of_concat_snd {A} (l : list (Z * list A)) x :
  x ∈ concat (snd <$> l) <-> exists i xs, (i, xs) ∈ l /\ x ∈ xs.
Proof.
  induction l as [|[i xs] l IH]; simpl.
  - rewrite elem_of_nil. set_solver.
  - rewrite elem_of_app, IH. set_solver.
Qed.

Lemma collect_above_spec p n t k e :
  canon p n ->
  (k, e) ∈ collect_above t n
  <-> exists l, get_leaf (drop (length p) k) k n = Some l /\ lenergy l = e /\ t < e.
Proof.
  intros Hc. induction Hc as [p l Hp Hl|p children Hch IH Hne Hs].
  - simpl. rewrite get_leaf_leaf. destruct (Z.ltb_spec t (lenergy l)) as [Ht|Ht].
    + rewrite list_elem_of_singleton. case_decide; naive_solver.
    + rewrite elem_of_nil. case_decide; naive_solver lia.
  - assert (Hok : meta_ok (mk_internal children)) by (eapply (canon_meta_ok p); by constructor).
    unfold mk_internal in *. simpl. destruct (Z.leb_spec (max_energy (children_meta children)) t) as [Hm|Hm].
    + split; [by rewrite elem_of_nil|]. intros (l & Hg & <- & Ht).
      pose proof (meta_covers _ _ _ _ Hok Hg). simpl in *. lia.
    + rewrite elem_of_concat_snd. split.
      * intros (i & xs & Hi & Hx). apply elem_of_btree_iter in Hi. rewrite lookup_fmap in Hi.
        apply fmap_Some in Hi as (c & Hi & ->). apply (IH i c Hi) in Hx as (l & Hg & ?).
        exists l. split; [|done]. rewrite (get_leaf_child p k i), Hi; [done|].
        by eapply canon_get_prefix; eauto.
      * intros (l & Hg & ?). destruct (drop (length p) k) as [|i path] eqn:Hd; [done|].
        rewrite get_leaf_cons in Hg. apply bind_Some in Hg as (c & Hi & Hg).
        assert (Hpk : p ++ [i] `prefix_of` k) by (eapply canon_get_prefix; eauto).
        rewrite (drop_prefix p k i Hpk) in Hd. simplify_eq.
        exists i, (collect_above t c). split; [|by apply (IH i c Hi); eauto].
        apply elem_of_btree_iter. by rewrite lookup_fmap, Hi.
Qed.

(** The pruned threshold query is exact.  On the trie of any history,
    [keys_above_energy], which skips every subtree whose cached maximum is at
    most the threshold, returns exactly the keys whose stored energy exceeds
    it, with that energy. *)
Theorem keys_above_energy_exact (ops : list trie_op) (t : Z) (k : bytes) (e : Z) :
  Forall op_ok ops ->
  (k, e) ∈ keys_above_energy (run_trie ops) t
  <-> exists l, run_abstract ops !! k = Some l /\ lenergy l = e /\ t < e.
Proof.
  intros Hok. destruct (represents_run ops Hok) as [Hc Hm]. rewrite <- (Hm k).
  unfold keys_above_energy. destruct Hc as [->|Hc]; [|by apply (collect_above_spec [])].
  rewrite lookup_leaf_empty. simpl. rewrite elem_of_nil. naive_solver.
Qed.

Lemma keys_above_energy_exact_witness :
  (Toy.key 1 1, 50) ∈ keys_above_energy (run_trie Toy.history) 4
  /\ (Toy.key 1 2, 0) ∉ keys_above_energy (run_trie Toy.history) 4.
Proof.
  split.
  - apply (keys_above_energy_exact Toy.history 4 _ _ Toy.history_ok).
    exists (Toy.leaf 1 1 7 50). split_and!; vm_compute; reflexivity.
  - rewrite (keys_above_energy_exact Toy.history 4 _ _ Toy.history_ok).
    intros (l & _ & _ & Ht). vm_compute in Ht. discriminate Ht.
Defined.

(** ** Proofs *)

Section proofs.
Context `{Blake3, Pallas, !PallasLaws}.

Lemma commit_from_add p q hs : commit_from (ep_add p q) hs = ep_add (commit_from p hs) q.
Proof.
  revert p. induction hs as [|h hs IH]; intros p; simpl; [done|].
  rewrite <- (ep_add_assoc p), (ep_add_comm q), ep_add_assoc. apply IH.
Qed.

Lemma commit_from_perm p hs hs' : hs ≡ₚ hs' -> commit_from p hs = commit_from p hs'.
Proof.
  intros Hp. revert p. induction Hp as [|h hs hs' _ IH|h h' hs|? ? ? _ IH1 _ IH2]; intros p;
    simpl; [done|apply IH| |by rewrite IH1].
  unfold commit_from. f_equal. rewrite <- !ep_add_assoc. f_equal. apply ep_add_comm.
Qed.

(** The siblings of a slot, with the slot's own child put back first. *)
Lemma siblings_perm (m : gmap Z bytes) i h :
  m !! i = Some h -> btree_iter m ≡ₚ (i, h) :: filter (fun ih => ih.1 <> i) (btree_iter m).
Proof.
  intros Hi. rewrite btree_iter_perm. rewrite <- (insert_delete_id m i h Hi) at 1 2.
  rewrite map_to_list_insert by apply lookup_delete_eq. rewrite filter_cons_False by naive_solver.
  constructor. rewrite filter_all; [done|]. intros [j b] Hj.
  apply elem_of_map_to_list, lookup_delete_Some in Hj as [Hj _]. simpl. congruence.
Qed.

Lemma siblings_absent (m : gmap Z bytes) i :
  m !! i = None -> filter (fun ih => ih.1 <> i) (btree_iter m) = btree_iter m.
Proof.
  intros Hi. apply filter_all. intros [j b] Hj.
  apply elem_of_btree_iter in Hj. simpl. congruence.
Qed.

Lemma zero_scalar i : gen_mul i (bytes_to_scalar zero_hash) = identity.
Proof. apply gen_mul_zero. Qed.

(** The verifier recomputes the node commitment from a child and its
    siblings... *)
Lemma verify_level_child children m i c :
  children !! i = Some c ->
  verify_level i (filter (fun ih => ih.1 <> i) (btree_iter (hash <$> children))) (hash c)
  = hash (Internal children m).
Proof.
  intros Hi. unfold verify_level. simpl. f_equal.
  assert (Hh : (hash <$> children) !! i = Some (hash c)) by (by rewrite lookup_fmap, Hi).
  rewrite (commit_from_perm identity (btree_iter (hash <$> children)) _ (siblings_perm _ i _ Hh)).
  done.
Qed.

(** ... and an empty slot contributes nothing. *)
Lemma verify_level_empty children m i :
  children !! i = None ->
  verify_level i (filter (fun ih => ih.1 <> i) (btree_iter (hash <$> children))) zero_hash
  = hash (Internal children m).
Proof.
  intros Hi. unfold verify_level. simpl. rewrite siblings_absent by (by rewrite lookup_fmap, Hi).
  by rewrite zero_scalar, ep_add_id.
Qed.

(** The bottom-up reconstruction over the levels of a walk. *)
Definition rebuild (levels : list (Z * EnergyMeta * bytes * list (Z * bytes))) (start : bytes) : bytes :=
  foldr (fun l h => verify_level l.1.1.1 l.2 h) start levels.

Lemma rebuild_cons l levels start :
  rebuild (l :: levels) start = verify_level l.1.1.1 l.2 (rebuild levels start).
Proof. done. Qed.

(** The walk for [path] ends at a slot that holds nothing. *)
Fixpoint reaches_empty (path : bytes) (n : EnergyNode) : bool :=
  match n with
  | Empty => true
  | Leaf _ | Compressed _ => false
  | Internal children _ =>
      match path with
      | [] => false
      | i :: path' =>
          match children !! i with
          | Some c => reaches_empty path' c
          | None => true
          end
      end
  end.

Lemma prove_walk_cons i path children m :
  prove_walk (i :: path) (Internal children m)
  = (let hs := btree_iter (hash <$> children) in
     let level := (i, m, ep_to_bytes (commit_from identity hs),
                   filter (fun ih => ih.1 <> i) hs) in
     match children !! i with
     | None => ([level], false)
     | Some child => (level :: (prove_walk path child).1, (prove_walk path child).2)
     end).
Proof. simpl. destruct (children !! i) as [c|]; [|done]. by destruct (prove_walk path c). Qed.

(** The indices of a walk are the leading bytes of the path. *)
Lemma prove_walk_indices path n :
  (fun l => l.1.1.1) <$> (prove_walk path n).1 = take (length (prove_walk path n).1) path
  /\ (length (prove_walk path n).1 <= length path)%nat.
Proof.
  revert n. induction path as [|i path IH]; intros [children m|l|c|];
    try (split; [done|simpl; lia]).
  rewrite prove_walk_cons. destruct (children !! i) as [c|]; simpl.
  - destruct (IH c) as [He Hl]. split; [f_equal; exact He|lia].
  - split; [by rewrite take_0|lia].
Qed.

Lemma rebuild_member path k n l :
  get_leaf path k n = Some l ->
  rebuild (prove_walk path n).1 (leaf_hash k (lvalue l)) = hash n
  /\ (prove_walk path n).2 = false.
Proof.
  revert n. induction path as [|i path IH]; intros [children m|l'|c|] Hg;
    autorewrite with trie in Hg; try done.
  - case_decide; by simplify_eq.
  - apply bind_Some in Hg as (c & Hi & Hg). rewrite prove_walk_cons. cbv zeta. rewrite Hi.
    destruct (IH c Hg) as [Hr Hh]. split; [|done]. cbn [fst snd]. rewrite rebuild_cons, Hr.
    by apply (verify_level_child children m).
  - case_decide; by simplify_eq.
Qed.

Lemma rebuild_empty path n :
  reaches_empty path n = true ->
  rebuild (prove_walk path n).1 zero_hash = hash n /\ (prove_walk path n).2 = false
  /\ forall k, get_leaf path k n = None.
Proof.
  revert n. induction path as [|i path IH]; intros [children m|l'|c|] Hr; try done.
  rewrite prove_walk_cons. simpl in Hr. cbv zeta. destruct (children !! i) as [c|] eqn:Hi; cbn [fst snd].
  - destruct (IH c Hr) as (Hb & Hh & Hn). split_and!; [|done|].
    + rewrite rebuild_cons, Hb. by apply (verify_level_child children m).
    + intros k. rewrite get_leaf_cons, Hi. apply Hn.
  - split_and!; [|done|].
    + rewrite rebuild_cons. by apply (verify_level_empty children m).
    + intros k. by rewrite get_leaf_cons, Hi.
Qed.

Lemma rebuild_zip levels start :
  foldr (fun l h => verify_level l.1 l.2 h) start
    (zip ((fun l : Z * EnergyMeta * bytes * list (Z * bytes) => l.1.1.1) <$> levels)
         ((fun l => l.2) <$> levels))
  = rebuild levels start.
Proof. induction levels as [|l levels IH]; [done|]. rewrite rebuild_cons, <- IH. done. Qed.

(** Verification of a proof assembled from a non-empty walk. *)
Lemma verify_levels key value levels meta hit start r :
  start = match value with Some v => leaf_hash key v | None => zero_hash end ->
  levels <> [] -> (length levels <= MAX_DEPTH)%nat ->
  (fun l => l.1.1.1) <$> levels = take (length levels) key ->
  verify {| pkey := key; pvalue := value; pdepth := length levels;
            commitments := (fun l => l.1.2) <$> levels;
            path_indices := (fun l => l.1.1.1) <$> levels;
            siblings := (fun l => l.2) <$> levels;
            energy_path := meta; hit_compressed := hit |} r
  = bool_decide (rebuild levels start = r).
Proof.
  intros -> Hne Hlen Hidx. unfold verify. simpl.
  rewrite decide_False by lia. rewrite decide_False by (by destruct levels).
  rewrite !length_fmap, !bool_decide_eq_true_2 by done. simpl. by rewrite rebuild_zip.
Qed.

(** Completeness of proofs: a proof generated for a key that the trie
    holds verifies against the trie's root with the stored value, and a proof
    generated for a key whose path ends at an empty slot verifies as an
    exclusion proof. *)
Theorem prove_verify_complete (r : EnergyNode) (k : bytes) :
  length k = MAX_DEPTH -> is_Some (get r k) \/ reaches_empty k r = true ->
  pvalue (prove r k) = get r k /\ verify (prove r k) (hash r) = true.
Proof.
  intros Hk Hcase. unfold prove. destruct (prove_walk_indices k r) as [Hidx Hlen].
  assert (Hreb : rebuild (prove_walk k r).1
    (match get r k with Some v => leaf_hash k v | None => zero_hash end) = hash r
    /\ (prove_walk k r).2 = false).
  { destruct Hcase as [[v Hv]|He].
    - unfold get in *. apply fmap_Some in Hv as (l & Hg & ->). rewrite Hg. by apply rebuild_member.
    - destruct (rebuild_empty k r He) as (Hr & Hh & Hn). unfold get. by rewrite Hn. }
  destruct (prove_walk k r) as [levels hit] eqn:Hw. simpl in *. destruct Hreb as [Hreb ->].
  split; [done|]. destruct (decide (levels = [])) as [->|Hne].
  - unfold verify. simpl in *. rewrite <- Hreb.
    destruct (get r k); by apply bool_decide_eq_true_2.
  - erewrite verify_levels by (done || lia). by apply bool_decide_eq_true_2.
Qed.

(** ** A gap in the verifier

    [verify] does not check that a sibling's index differs from the path
    index, so the hash of the proved child can be moved into the sibling
    list: the slot then counts as empty. *)

Definition hide_last (levels : list (Z * EnergyMeta * bytes * list (Z * bytes))) (h : bytes)
  : list (Z * EnergyMeta * bytes * list (Z * bytes)) :=
  match last levels with
  | Some (i, m, c, sibs) => removelast levels ++ [(i, m, c, (i, h) :: sibs)]
  | None => []
  end.

Definition forge_exclusion (r : EnergyNode) (k v : bytes) : EnergyVerkleProof :=
  let levels := hide_last (prove_walk k r).1 (leaf_hash k v) in
  {| pkey := k; pvalue := None; pdepth := length levels;
     commitments := (fun l => l.1.2) <$> levels;
     path_indices := (fun l => l.1.1.1) <$> levels;
     siblings := (fun l => l.2) <$> levels;
     energy_path := []; hit_compressed := false |}.

Lemma verify_level_hidden i sibs h :
  verify_level i ((i, h) :: sibs) zero_hash = verify_level i sibs h.
Proof. unfold verify_level. simpl. by rewrite zero_scalar, ep_add_id. Qed.

Lemma hide_last_spec levels h :
  levels <> [] ->
  rebuild (hide_last levels h) zero_hash = rebuild levels h
  /\ length (hide_last levels h) = length levels
  /\ (fun l => l.1.1.1) <$> hide_last levels h = (fun l => l.1.1.1) <$> levels.
Proof.
  intros Hne. destruct levels as [|x levels'] using rev_ind; [done|]. clear Hne IHlevels'.
  destruct x as [[[i m] c] sibs].
  unfold hide_last. rewrite last_snoc, removelast_last, !length_app, !fmap_app. split_and!; [|done|done].
  unfold rebuild. rewrite !foldr_app. f_equal. apply verify_level_hidden.
Qed.

(** The verifier accepts a false exclusion proof: whenever an internal
    root holds a value under a key, the proof that says the key is absent,
    built from public proof data alone, verifies against the true root. *)
Theorem verify_accepts_false_exclusion (children : gmap Z EnergyNode) (m : EnergyMeta) (k v : bytes) :
  length k = MAX_DEPTH -> get (Internal children m) k = Some v ->
  let p := forge_exclusion (Internal children m) k v in
  pkey p = k /\ pvalue p = None /\ verify p (hash (Internal children m)) = true.
Proof.
  intros Hk Hv p. split_and!; [done..|]. unfold p, forge_exclusion.
  destruct (prove_walk_indices k (Internal children m)) as [Hidx Hlen].
  unfold get in Hv. apply fmap_Some in Hv as (l & Hg & ->).
  destruct (rebuild_member k k _ l Hg) as [Hreb _].
  assert (Hne : (prove_walk k (Internal children m)).1 <> []).
  { destruct k as [|i k]; [done|]. rewrite prove_walk_cons. by destruct (children !! i). }
  destruct (hide_last_spec _ (leaf_hash k (lvalue l)) Hne) as (Hr & Hl & Hi).
  erewrite verify_levels; [|done|..].
  - apply bool_decide_eq_true_2. by rewrite Hr.
  - intros He. apply Hne. rewrite He in Hl. simpl in Hl. by apply nil_length_inv.
  - lia.
  - by rewrite Hi, Hl.
Qed.

End proofs.

Lemma prove_verify_complete_witness :
  let r := run_trie Toy.history in
  pvalue (prove r (Toy.key 1 2)) = Some (replicate 32 8)
  /\ verify (prove r (Toy.key 1 2)) (hash r) = true
  /\ verify (prove r (Toy.key 1 3)) (hash r) = true.
Proof.
  intros r.
  destruct (prove_verify_complete r (Toy.key 1 2)) as [Hv Hok];
    [reflexivity|left; vm_compute; by eexists|].
  destruct (prove_verify_complete r (Toy.key 1 3)) as [_ Hok'];
    [reflexivity|right; vm_compute; reflexivity|].
  split_and!; [|exact Hok|exact Hok']. rewrite Hv. vm_compute. reflexivity.
Defined.

Lemma verify_accepts_false_exclusion_witness :
  match run_trie Toy.history with
  | Internal children m =>
      get (Internal children m) (Toy.key 1 2) = Some (replicate 32 8)
      /\ verify (forge_exclusion (Internal children m) (Toy.key 1 2) (replicate 32 8))
           (hash (Internal children m)) = true
  | _ => False
  end.
Proof.
  destruct (run_trie Toy.history) as [children m| | |] eqn:Hr; [|discriminate Hr..].
  assert (Hg : get (Internal children m) (Toy.key 1 2) = Some (replicate 32 8)).
  { rewrite <- Hr. vm_compute. reflexivity. }
  split; [exact Hg|].
  exact (proj2 (proj2 (verify_accepts_false_exclusion children m (Toy.key 1 2) _ eq_refl Hg))).
Defined.
