(* ===== verification/StateDB.v ===== *)
(** * The in-memory state database

    crates/evaporchain-state/src/db.rs: derivation of trie keys and values,
    [InMemoryStateDB] with every field and every mutator of its [StateDB]
    implementation, the incremental trie with its dirty sets, batches,
    historical snapshots and the wipe that precedes a snapshot restore.

    A [&mut self] method is a function returning the new database; where the
    method returns a value the result is a pair.  A caller that holds the
    [&mut] reference returned by [get_object_mut] or [get_account_mut] is
    modelled by the function it applies to the referent. *)

From stdpp Require Import base gmap list sorting strings.
From Stdlib Require Import ZArith Lia.
From S2P Require Import Prelude Energy DecayCurves Types Trie.

Open Scope Z_scope.

Definition object_state_to_u8 (s : ObjectState) : Z :=
  match s with
  | Active => 0
  | Grace => 1
  | Ghost => 2
  | Resurrected => 3
  end.

(** ** Trie keys and values *)

Section derivation.
Context `{Blake3}.

Definition trie_key_for_account (addr : bytes) : bytes := blake3 (bytes_of_string "acct" ++ addr).

Definition trie_value_for_account (acc : Account) : bytes :=
  blake3 (to_le_bytes 8 (a_balance acc) ++ to_le_bytes 8 (a_nonce acc)).

Definition trie_key_for_object (id : bytes) : bytes := blake3 (bytes_of_string "obj" ++ id).

Definition trie_value_for_object (obj : StateObject) : bytes :=
  blake3 (to_le_bytes 8 (o_energy obj) ++ [object_state_to_u8 (o_state obj)]).

(** The insertion every mutator performs for an account or an object. *)
Definition trie_put_account (t : EnergyVerkleTrie) (addr : bytes) (acc : Account)
  : EnergyVerkleTrie :=
  trie_insert t (trie_key_for_account addr) (trie_value_for_account acc) U64_MAX U64_MAX 0.

Definition trie_put_object (t : EnergyVerkleTrie) (id : bytes) (obj : StateObject)
  : EnergyVerkleTrie :=
  trie_insert t (trie_key_for_object id) (trie_value_for_object obj)
    (o_energy obj) (o_half_life obj) (o_last_refreshed obj).

(** The map iterations are the lists; callers pass them in any order. *)
Definition build_energy_trie (objects : list StateObject) (accounts : list (bytes * Account))
  : EnergyVerkleTrie :=
  let t := foldl (fun t a => trie_put_account t a.1 a.2) trie_new accounts in
  foldl (fun t o => trie_put_object t (o_id o) o) t objects.

End derivation.

(** ** The database *)

Record HistoricalSnapshot := {
  h_accounts : gmap bytes Account;
  h_objects : gmap bytes StateObject;
}.

Definition MAX_SNAPSHOTS : nat := 256.

(** Copy of every mutable field, taken by [begin_batch]. *)
Record InMemoryBatchSnapshot := {
  snap_objects : gmap bytes StateObject;
  snap_ghosts : gmap bytes GhostRecord;
  snap_accounts : gmap bytes Account;
  snap_trie : EnergyVerkleTrie;
  snap_dirty_objects : gset bytes;
  snap_dirty_accounts : gset bytes;
  snap_note_tree_root : bytes;
  snap_spent_nullifiers : gset bytes;
  snap_shielded_pool_balance : Z;
  snap_note_count : Z;
  snap_note_commitments : gmap Z bytes;
  snap_last_rent_epoch : Z;
  snap_stakes : gmap Z StakeRecord;
  snap_delegations : gmap (bytes * Z) DelegationRecord;
  snap_proposals : gmap Z GovernanceProposal;
  snap_governance_params : gmap string string;
  snap_vesting_schedules : gmap Z VestingSchedule;
  snap_sentinel_params : gmap Z BoundedParameter;
  snap_sentinel_votes : gmap Z (list SentinelVote);
  snap_snapshots : gmap Z HistoricalSnapshot;
}.

Record InMemoryStateDB := mkDB {
  objects : gmap bytes StateObject;
  ghosts : gmap bytes GhostRecord;
  accounts : gmap bytes Account;
  trie : EnergyVerkleTrie;
  dirty_objects : gset bytes;
  dirty_accounts : gset bytes;
  note_tree_root : bytes;
  spent_nullifiers : gset bytes;
  shielded_pool_balance : Z;
  note_count : Z;
  note_commitments : gmap Z bytes;
  last_rent_epoch : Z;
  stakes : gmap Z StakeRecord;
  delegations : gmap (bytes * Z) DelegationRecord;
  proposals : gmap Z GovernanceProposal;
  governance_params : gmap string string;
  vesting_schedules : gmap Z VestingSchedule;
  sentinel_params : gmap Z BoundedParameter;
  sentinel_votes : gmap Z (list SentinelVote);
  snapshots : gmap Z HistoricalSnapshot;
  batch_snapshot : option InMemoryBatchSnapshot;
}.

Definition db_new : InMemoryStateDB :=
  {|
     objects := ∅; ghosts := ∅; accounts := ∅; trie := trie_new; dirty_objects := ∅;
     dirty_accounts := ∅; note_tree_root := replicate 32 0; spent_nullifiers := ∅;
     shielded_pool_balance := 0; note_count := 0; note_commitments := ∅; last_rent_epoch := 0;
     stakes := ∅; delegations := ∅; proposals := ∅; governance_params := ∅;
     vesting_schedules := ∅; sentinel_params := ∅; sentinel_votes := ∅; snapshots := ∅;
     batch_snapshot := None |}.

(** Assignments [self.field = v]. *)

Definition set_objects (v : gmap bytes StateObject) (db : InMemoryStateDB) : InMemoryStateDB :=
  mkDB v (ghosts db) (accounts db) (trie db) (dirty_objects db) (dirty_accounts db)
  (note_tree_root db) (spent_nullifiers db) (shielded_pool_balance db) (note_count db)
  (note_commitments db) (last_rent_epoch db) (stakes db) (delegations db) (proposals db)
  (governance_params db) (vesting_schedules db) (sentinel_params db) (sentinel_votes db)
  (snapshots db) (batch_snapshot db).

Definition set_ghosts (v : gmap bytes GhostRecord) (db : InMemoryStateDB) : InMemoryStateDB :=
  mkDB (objects db) v (accounts db) (trie db) (dirty_objects db) (dirty_accounts db)
  (note_tree_root db) (spent_nullifiers db) (shielded_pool_balance db) (note_count db)
  (note_commitments db) (last_rent_epoch db) (stakes db) (delegations db) (proposals db)
  (governance_params db) (vesting_schedules db) (sentinel_params db) (sentinel_votes db)
  (snapshots db) (batch_snapshot db).

Definition set_accounts (v : gmap bytes Account) (db : InMemoryStateDB) : InMemoryStateDB :=
  mkDB (objects db) (ghosts db) v (trie db) (dirty_objects db) (dirty_accounts db)
  (note_tree_root db) (spent_nullifiers db) (shielded_pool_balance db) (note_count db)
  (note_commitments db) (last_rent_epoch db) (stakes db) (delegations db) (proposals db)
  (governance_params db) (vesting_schedules db) (sentinel_params db) (sentinel_votes db)
  (snapshots db) (batch_snapshot db).

Definition set_trie (v : EnergyVerkleTrie) (db : InMemoryStateDB) : InMemoryStateDB :=
  mkDB (objects db) (ghosts db) (accounts db) v (dirty_objects db) (dirty_accounts db)
  (note_tree_root db) (spent_nullifiers db) (shielded_pool_balance db) (note_count db)
  (note_commitments db) (last_rent_epoch db) (stakes db) (delegations db) (proposals db)
  (governance_params db) (vesting_schedules db) (sentinel_params db) (sentinel_votes db)
  (snapshots db) (batch_snapshot db).

Definition set_dirty_objects (v : gset bytes) (db : InMemoryStateDB) : InMemoryStateDB :=
  mkDB (objects db) (ghosts db) (accounts db) (trie db) v (dirty_accounts db)
  (note_tree_root db) (spent_nullifiers db) (shielded_pool_balance db) (note_count db)
  (note_commitments db) (last_rent_epoch db) (stakes db) (delegations db) (proposals db)
  (governance_params db) (vesting_schedules db) (sentinel_params db) (sentinel_votes db)
  (snapshots db) (batch_snapshot db).

Definition set_dirty_accounts (v : gset bytes) (db : InMemoryStateDB) : InMemoryStateDB :=
  mkDB (objects db) (ghosts db) (accounts db) (trie db) (dirty_objects db) v
  (note_tree_root db) (spent_nullifiers db) (shielded_pool_balance db) (note_count db)
  (note_commitments db) (last_rent_epoch db) (stakes db) (delegations db) (proposals db)
  (governance_params db) (vesting_schedules db) (sentinel_params db) (sentinel_votes db)
  (snapshots db) (batch_snapshot db).

Definition set_note_tree_root (v : bytes) (db : InMemoryStateDB) : InMemoryStateDB :=
  mkDB (objects db) (ghosts db) (accounts db) (trie db) (dirty_objects db) (dirty_accounts db)
  v (spent_nullifiers db) (shielded_pool_balance db) (note_count db) (note_commitments db)
  (last_rent_epoch db) (stakes db) (delegations db) (proposals db) (governance_params db)
  (vesting_schedules db) (sentinel_params db) (sentinel_votes db) (snapshots db)
  (batch_snapshot db).

Definition set_spent_nullifiers (v : gset bytes) (db : InMemoryStateDB) : InMemoryStateDB :=
  mkDB (objects db) (ghosts db) (accounts db) (trie db) (dirty_objects db) (dirty_accounts db)
  (note_tree_root db) v (shielded_pool_balance db) (note_count db) (note_commitments db)
  (last_rent_epoch db) (stakes db) (delegations db) (proposals db) (governance_params db)
  (vesting_schedules db) (sentinel_params db) (sentinel_votes db) (snapshots db)
  (batch_snapshot db).

Definition set_shielded_pool_balance (v : Z) (db : InMemoryStateDB) : InMemoryStateDB :=
  mkDB (objects db) (ghosts db) (accounts db) (trie db) (dirty_objects db) (dirty_accounts db)
  (note_tree_root db) (spent_nullifiers db) v (note_count db) (note_commitments db)
  (last_rent_epoch db) (stakes db) (delegations db) (proposals db) (governance_params db)
  (vesting_schedules db) (sentinel_params db) (sentinel_votes db) (snapshots db)
  (batch_snapshot db).

Definition set_note_count (v : Z) (db : InMemoryStateDB) : InMemoryStateDB :=
  mkDB (objects db) (ghosts db) (accounts db) (trie db) (dirty_objects db) (dirty_accounts db)
  (note_tree_root db) (spent_nullifiers db) (shielded_pool_balance db) v (note_commitments db)
  (last_rent_epoch db) (stakes db) (delegations db) (proposals db) (governance_params db)
  (vesting_schedules db) (sentinel_params db) (sentinel_votes db) (snapshots db)
  (batch_snapshot db).

Definition set_note_commitments (v : gmap Z bytes) (db : InMemoryStateDB) : InMemoryStateDB :=
  mkDB (objects db) (ghosts db) (accounts db) (trie db) (dirty_objects db) (dirty_accounts db)
  (note_tree_root db) (spent_nullifiers db) (shielded_pool_balance db) (note_count db) v
  (last_rent_epoch db) (stakes db) (delegations db) (proposals db) (governance_params db)
  (vesting_schedules db) (sentinel_params db) (sentinel_votes db) (snapshots db)
  (batch_snapshot db).

Definition set_last_rent_epoch (v : Z) (db : InMemoryStateDB) : InMemoryStateDB :=
  mkDB (objects db) (ghosts db) (accounts db) (trie db) (dirty_objects db) (dirty_accounts db)
  (note_tree_root db) (spent_nullifiers db) (shielded_pool_balance db) (note_count db)
  (note_commitments db) v (stakes db) (delegations db) (proposals db) (governance_params db)
  (vesting_schedules db) (sentinel_params db) (sentinel_votes db) (snapshots db)
  (batch_snapshot db).

Definition set_stakes (v : gmap Z StakeRecord) (db : InMemoryStateDB) : InMemoryStateDB :=
  mkDB (objects db) (ghosts db) (accounts db) (trie db) (dirty_objects db) (dirty_accounts db)
  (note_tree_root db) (spent_nullifiers db) (shielded_pool_balance db) (note_count db)
  (note_commitments db) (last_rent_epoch db) v (delegations db) (proposals db)
  (governance_params db) (vesting_schedules db) (sentinel_params db) (sentinel_votes db)
  (snapshots db) (batch_snapshot db).

Definition set_delegations (v : gmap (bytes * Z) DelegationRecord) (db : InMemoryStateDB) : InMemoryStateDB :=
  mkDB (objects db) (ghosts db) (accounts db) (trie db) (dirty_objects db) (dirty_accounts db)
  (note_tree_root db) (spent_nullifiers db) (shielded_pool_balance db) (note_count db)
  (note_commitments db) (last_rent_epoch db) (stakes db) v (proposals db)
  (governance_params db) (vesting_schedules db) (sentinel_params db) (sentinel_votes db)
  (snapshots db) (batch_snapshot db).

Definition set_proposals (v : gmap Z GovernanceProposal) (db : InMemoryStateDB) : InMemoryStateDB :=
  mkDB (objects db) (ghosts db) (accounts db) (trie db) (dirty_objects db) (dirty_accounts db)
  (note_tree_root db) (spent_nullifiers db) (shielded_pool_balance db) (note_count db)
  (note_commitments db) (last_rent_epoch db) (stakes db) (delegations db) v
  (governance_params db) (vesting_schedules db) (sentinel_params db) (sentinel_votes db)
  (snapshots db) (batch_snapshot db).

Definition set_governance_params (v : gmap string string) (db : InMemoryStateDB) : InMemoryStateDB :=
  mkDB (objects db) (ghosts db) (accounts db) (trie db) (dirty_objects db) (dirty_accounts db)
  (note_tree_root db) (spent_nullifiers db) (shielded_pool_balance db) (note_count db)
  (note_commitments db) (last_rent_epoch db) (stakes db) (delegations db) (proposals db) v
  (vesting_schedules db) (sentinel_params db) (sentinel_votes db) (snapshots db)
  (batch_snapshot db).

Definition set_vesting_schedules (v : gmap Z VestingSchedule) (db : InMemoryStateDB) : InMemoryStateDB :=
  mkDB (objects db) (ghosts db) (accounts db) (trie db) (dirty_objects db) (dirty_accounts db)
  (note_tree_root db) (spent_nullifiers db) (shielded_pool_balance db) (note_count db)
  (note_commitments db) (last_rent_epoch db) (stakes db) (delegations db) (proposals db)
  (governance_params db) v (sentinel_params db) (sentinel_votes db) (snapshots db)
  (batch_snapshot db).

Definition set_sentinel_params (v : gmap Z BoundedParameter) (db : InMemoryStateDB) : InMemoryStateDB :=
  mkDB (objects db) (ghosts db) (accounts db) (trie db) (dirty_objects db) (dirty_accounts db)
  (note_tree_root db) (spent_nullifiers db) (shielded_pool_balance db) (note_count db)
  (note_commitments db) (last_rent_epoch db) (stakes db) (delegations db) (proposals db)
  (governance_params db) (vesting_schedules db) v (sentinel_votes db) (snapshots db)
  (batch_snapshot db).

Definition set_sentinel_votes (v : gmap Z (list SentinelVote)) (db : InMemoryStateDB) : InMemoryStateDB :=
  mkDB (objects db) (ghosts db) (accounts db) (trie db) (dirty_objects db) (dirty_accounts db)
  (note_tree_root db) (spent_nullifiers db) (shielded_pool_balance db) (note_count db)
  (note_commitments db) (last_rent_epoch db) (stakes db) (delegations db) (proposals db)
  (governance_params db) (vesting_schedules db) (sentinel_params db) v (snapshots db)
  (batch_snapshot db).

Definition set_snapshots (v : gmap Z HistoricalSnapshot) (db : InMemoryStateDB) : InMemoryStateDB :=
  mkDB (objects db) (ghosts db) (accounts db) (trie db) (dirty_objects db) (dirty_accounts db)
  (note_tree_root db) (spent_nullifiers db) (shielded_pool_balance db) (note_count db)
  (note_commitments db) (last_rent_epoch db) (stakes db) (delegations db) (proposals db)
  (governance_params db) (vesting_schedules db) (sentinel_params db) (sentinel_votes db) v
  (batch_snapshot db).

Definition set_batch_snapshot (v : option InMemoryBatchSnapshot) (db : InMemoryStateDB) : InMemoryStateDB :=
  mkDB (objects db) (ghosts db) (accounts db) (trie db) (dirty_objects db) (dirty_accounts db)
  (note_tree_root db) (spent_nullifiers db) (shielded_pool_balance db) (note_count db)
  (note_commitments db) (last_rent_epoch db) (stakes db) (delegations db) (proposals db)
  (governance_params db) (vesting_schedules db) (sentinel_params db) (sentinel_votes db)
  (snapshots db) v.
Section operations.
Context `{Blake3, Pallas, HashOrder}.

(** Bincode's encoding of the trie. *)
Variable to_bytes : EnergyVerkleTrie -> bytes.
Variable from_bytes : bytes -> result EnergyVerkleTrie string.

(** ** Synchronising the trie *)

Definition sync_object (os : gmap bytes StateObject) (t : EnergyVerkleTrie) (id : bytes)
  : EnergyVerkleTrie :=
  match os !! id with
  | Some obj => trie_put_object t id obj
  | None => (trie_delete t (trie_key_for_object id)).1
  end.

Definition sync_account (accs : gmap bytes Account) (t : EnergyVerkleTrie) (addr : bytes)
  : EnergyVerkleTrie :=
  match accs !! addr with
  | Some acc => trie_put_account t addr acc
  | None => t
  end.

Definition sync_dirty_to_trie (db : InMemoryStateDB) : InMemoryStateDB :=
  let t := foldl (sync_object (objects db)) (trie db)
             (sort_bytes (elements (dirty_objects db))) in
  let t := foldl (sync_account (accounts db)) t
             (sort_bytes (elements (dirty_accounts db))) in
  set_dirty_accounts ∅ (set_dirty_objects ∅ (set_trie t db)).

(** ** Objects *)

Definition get_object (db : InMemoryStateDB) (id : bytes) : option StateObject := objects db !! id.

Definition get_object_mut (db : InMemoryStateDB) (id : bytes)
  : InMemoryStateDB * option StateObject :=
  (if decide (is_Some (objects db !! id))
   then set_dirty_objects ({[ id ]} ∪ dirty_objects db) db else db,
   objects db !! id).

(** [if let Some(o) = db.get_object_mut(id) { *o = f(o) }]. *)
Definition modify_object (f : StateObject -> StateObject) (id : bytes) (db : InMemoryStateDB)
  : InMemoryStateDB :=
  match get_object_mut db id with
  | (db', Some o) => set_objects (<[ id := f o ]> (objects db')) db'
  | (db', None) => db'
  end.

Definition put_object (obj : StateObject) (db : InMemoryStateDB) : InMemoryStateDB :=
  let db := set_trie (trie_put_object (trie db) (o_id obj) obj) db in
  set_objects (<[ o_id obj := obj ]> (objects db)) db.

Definition delete_object (id : bytes) (db : InMemoryStateDB)
  : InMemoryStateDB * option StateObject :=
  let db := set_trie (trie_delete (trie db) (trie_key_for_object id)).1 db in
  (set_objects (base.delete id (objects db)) db, objects db !! id).

Definition all_object_ids (db : InMemoryStateDB) : list bytes := hash_keys (objects db).

(** ** Ghosts *)

Definition put_ghost (g : GhostRecord) (db : InMemoryStateDB) : InMemoryStateDB :=
  set_ghosts (<[ g_object_id g := g ]> (ghosts db)) db.

Definition get_ghost (db : InMemoryStateDB) (id : bytes) : option GhostRecord := ghosts db !! id.

Definition remove_ghost (id : bytes) (db : InMemoryStateDB)
  : InMemoryStateDB * option GhostRecord :=
  (set_ghosts (base.delete id (ghosts db)) db, ghosts db !! id).

Definition all_ghost_ids (db : InMemoryStateDB) : list bytes := hash_keys (ghosts db).

Definition prune_before_height (height : Z) (db : InMemoryStateDB) : InMemoryStateDB * Z :=
  let ids_to_prune :=
    filter (fun id => Is_true
        (match ghosts db !! id with Some g => g_evaporated_at g <? height | None => false end))
      (hash_keys (ghosts db)) in
  (set_ghosts (foldl (fun m id => base.delete id m) (ghosts db) ids_to_prune) db,
   Z.of_nat (length ids_to_prune)).

(** ** Accounts *)

Definition get_account (db : InMemoryStateDB) (addr : bytes) : option Account := accounts db !! addr.

Definition get_account_mut (db : InMemoryStateDB) (addr : bytes)
  : InMemoryStateDB * option Account :=
  (if decide (is_Some (accounts db !! addr))
   then set_dirty_accounts ({[ addr ]} ∪ dirty_accounts db) db else db,
   accounts db !! addr).

Definition modify_account (f : Account -> Account) (addr : bytes) (db : InMemoryStateDB)
  : InMemoryStateDB :=
  match get_account_mut db addr with
  | (db', Some a) => set_accounts (<[ addr := f a ]> (accounts db')) db'
  | (db', None) => db'
  end.

Definition put_account (account : Account) (db : InMemoryStateDB) : InMemoryStateDB :=
  let db := set_trie (trie_put_account (trie db) (a_address account) account) db in
  set_accounts (<[ a_address account := account ]> (accounts db)) db.

Definition delete_account (addr : bytes) (db : InMemoryStateDB)
  : InMemoryStateDB * option Account :=
  let db := set_trie (trie_delete (trie db) (trie_key_for_account addr)).1 db in
  let db := set_dirty_accounts (dirty_accounts db ∖ {[ addr ]}) db in
  (set_accounts (base.delete addr (accounts db)) db, accounts db !! addr).

Definition new_account (addr : bytes) : Account :=
  {| a_address := addr; a_balance := 0; a_nonce := 0; a_storage_deposit := 0;
     a_storage_bytes := 0; a_last_touched_epoch := 0; a_vesting := None |}.

(** The reference returned is to the account of [addr], which exists now. *)
Definition get_or_create_account (db : InMemoryStateDB) (addr : bytes) : InMemoryStateDB :=
  let db :=
    match accounts db !! addr with
    | Some _ => db
    | None =>
        let account := new_account addr in
        let db := set_trie (trie_put_account (trie db) (a_address account) account) db in
        set_accounts (<[ addr := account ]> (accounts db)) db
    end in
  set_dirty_accounts ({[ addr ]} ∪ dirty_accounts db) db.

(** [let a = db.get_or_create_account(addr); *a = f(a)]. *)
Definition upsert_account (f : Account -> Account) (addr : bytes) (db : InMemoryStateDB)
  : InMemoryStateDB :=
  let db := get_or_create_account db addr in
  set_accounts (alter f addr (accounts db)) db.

Definition all_account_addresses (db : InMemoryStateDB) : list bytes := hash_keys (accounts db).

(** ** Privacy layer *)

Definition put_note_tree_root (r : bytes) (db : InMemoryStateDB) : InMemoryStateDB :=
  set_note_tree_root r db.

Definition spend_nullifier (n : bytes) (db : InMemoryStateDB) : InMemoryStateDB * bool :=
  (set_spent_nullifiers ({[ n ]} ∪ spent_nullifiers db) db,
   bool_decide (n ∉ spent_nullifiers db)).

Definition is_nullifier_spent (db : InMemoryStateDB) (n : bytes) : bool :=
  bool_decide (n ∈ spent_nullifiers db).

Definition append_note_commitment (index : Z) (c : bytes) (db : InMemoryStateDB)
  : InMemoryStateDB :=
  set_note_commitments (<[ index := c ]> (note_commitments db)) db.

(** Values in leaf order. *)
Definition get_all_note_commitments (db : InMemoryStateDB) : list bytes :=
  (btree_iter (note_commitments db)).*2.

(** ** Stakes and delegations *)

Definition put_stake (r : StakeRecord) (db : InMemoryStateDB) : InMemoryStateDB :=
  set_stakes (<[ s_validator_id r := r ]> (stakes db)) db.

Definition remove_stake (vid : Z) (db : InMemoryStateDB) : InMemoryStateDB * option StakeRecord :=
  (set_stakes (base.delete vid (stakes db)) db, stakes db !! vid).

Definition get_delegation (db : InMemoryStateDB) (delegator : bytes) (vid : Z)
  : option DelegationRecord := delegations db !! (delegator, vid).

Definition put_delegation (r : DelegationRecord) (db : InMemoryStateDB) : InMemoryStateDB :=
  set_delegations (<[ (d_delegator r, d_validator_id r) := r ]> (delegations db)) db.

Definition remove_delegation (delegator : bytes) (vid : Z) (db : InMemoryStateDB)
  : InMemoryStateDB * option DelegationRecord :=
  (set_delegations (base.delete (delegator, vid) (delegations db)) db,
   delegations db !! (delegator, vid)).

Definition delegation_values (db : InMemoryStateDB) : list DelegationRecord :=
  omap (fun k => delegations db !! k) (hash_keys (delegations db)).

Definition delegations_for_validator (db : InMemoryStateDB) (vid : Z) : list DelegationRecord :=
  filter (fun d => d_validator_id d = vid) (delegation_values db).

Definition delegations_for_delegator (db : InMemoryStateDB) (delegator : bytes)
  : list DelegationRecord :=
  filter (fun d => d_delegator d = delegator) (delegation_values db).

(** ** Root, compression, proofs *)

Definition compute_state_root (db : InMemoryStateDB) : InMemoryStateDB * bytes :=
  let db := sync_dirty_to_trie db in (db, trie_root (trie db)).

Definition compress_cold_subtrees (db : InMemoryStateDB) : InMemoryStateDB * Z :=
  let db := sync_dirty_to_trie db in
  let '(t, n) := compress_cold (trie db) in (set_trie t db, n).

Definition trie_health (db : InMemoryStateDB) : InMemoryStateDB * TrieHealth :=
  let db := sync_dirty_to_trie db in (db, health (trie db)).

Definition prove_at_key (key : bytes) (db : InMemoryStateDB) : InMemoryStateDB * EnergyVerkleProof :=
  let db := sync_dirty_to_trie db in (db, prove (root (trie db)) key).

Definition prove_account (addr : bytes) (db : InMemoryStateDB)
  : InMemoryStateDB * EnergyVerkleProof :=
  let db := sync_dirty_to_trie db in (db, prove (root (trie db)) (trie_key_for_account addr)).

Definition prove_object (id : bytes) (db : InMemoryStateDB)
  : InMemoryStateDB * EnergyVerkleProof :=
  let db := sync_dirty_to_trie db in (db, prove (root (trie db)) (trie_key_for_object id)).

Definition trie_snapshot (db : InMemoryStateDB) : InMemoryStateDB * bytes :=
  let db := sync_dirty_to_trie db in (db, to_bytes (trie db)).

Definition load_trie_snapshot (b : bytes) (db : InMemoryStateDB)
  : InMemoryStateDB * result unit string :=
  match from_bytes b with
  | Ok t => (set_dirty_accounts ∅ (set_dirty_objects ∅ (set_trie t db)), Ok tt)
  | Err e => (db, Err e)
  end.

(** ** Governance, vesting, sentinel *)

Definition put_proposal (p : GovernanceProposal) (db : InMemoryStateDB) : InMemoryStateDB :=
  set_proposals (<[ p_proposal_id p := p ]> (proposals db)) db.

Definition put_governance_param (k v : string) (db : InMemoryStateDB) : InMemoryStateDB :=
  set_governance_params (<[ k := v ]> (governance_params db)) db.

Definition put_vesting_schedule (s : VestingSchedule) (db : InMemoryStateDB) : InMemoryStateDB :=
  set_vesting_schedules (<[ vs_id s := s ]> (vesting_schedules db)) db.

Definition remove_vesting_schedule (id : Z) (db : InMemoryStateDB)
  : InMemoryStateDB * option VestingSchedule :=
  (set_vesting_schedules (base.delete id (vesting_schedules db)) db, vesting_schedules db !! id).

Definition put_sentinel_param (p : BoundedParameter) (db : InMemoryStateDB) : InMemoryStateDB :=
  let db := set_sentinel_params (<[ bp_id p := p ]> (sentinel_params db)) db in
  match sentinel_votes db !! bp_id p with
  | Some _ => db
  | None => set_sentinel_votes (<[ bp_id p := [] ]> (sentinel_votes db)) db
  end.

Definition get_sentinel_votes (db : InMemoryStateDB) (id : Z) : list SentinelVote :=
  default [] (sentinel_votes db !! id).

Definition put_sentinel_votes (id : Z) (votes : list SentinelVote) (db : InMemoryStateDB)
  : InMemoryStateDB := set_sentinel_votes (<[ id := votes ]> (sentinel_votes db)) db.

(** ** Historical snapshots *)

(** The [while] loop of [commit_state_snapshot]; each round removes one entry,
    so the number of entries is enough fuel. *)
Definition trim_snapshots {A} (fuel : nat) (m : gmap Z A) : gmap Z A :=
  trim_oldest MAX_SNAPSHOTS fuel m.

Definition commit_state_snapshot (height : Z) (db : InMemoryStateDB) : InMemoryStateDB :=
  let snap := {| h_accounts := accounts db; h_objects := objects db |} in
  let m := <[ height := snap ]> (snapshots db) in
  set_snapshots (trim_snapshots (size m) m) db.

Definition get_account_at_height (db : InMemoryStateDB) (addr : bytes) (height : Z)
  : option Account := snapshots db !! height ≫= fun s => h_accounts s !! addr.

Definition get_object_at_height (db : InMemoryStateDB) (id : bytes) (height : Z)
  : option StateObject := snapshots db !! height ≫= fun s => h_objects s !! id.

Definition earliest_snapshot_height (db : InMemoryStateDB) : option Z := oldest (snapshots db).

Definition latest_snapshot_height (db : InMemoryStateDB) : option Z :=
  fst <$> last (btree_iter (snapshots db)).

Definition prune_snapshots_before (height : Z) (db : InMemoryStateDB) : InMemoryStateDB :=
  set_snapshots (filter (fun kv => height <= kv.1) (snapshots db)) db.

(** ** Wipe before a snapshot restore *)

Definition clear_all_nullifiers (db : InMemoryStateDB) : InMemoryStateDB := set_spent_nullifiers ∅ db.
Definition clear_all_note_commitments (db : InMemoryStateDB) : InMemoryStateDB :=
  set_note_commitments ∅ db.
Definition clear_all_stakes_and_delegations (db : InMemoryStateDB) : InMemoryStateDB :=
  set_delegations ∅ (set_stakes ∅ db).
Definition clear_all_sentinel_state (db : InMemoryStateDB) : InMemoryStateDB :=
  set_sentinel_votes ∅ (set_sentinel_params ∅ db).
Definition clear_all_vesting_schedules (db : InMemoryStateDB) : InMemoryStateDB :=
  set_vesting_schedules ∅ db.

(** The trait's default body; the type does not override it. *)
Definition clear_all_governance_state (db : InMemoryStateDB) : InMemoryStateDB := db.

Definition wipe_full_state_for_snapshot_restore (db : InMemoryStateDB) : InMemoryStateDB :=
  let db := foldl (fun db id => (delete_object id db).1) db (all_object_ids db) in
  let db := foldl (fun db id => (remove_ghost id db).1) db (all_ghost_ids db) in
  let db := foldl (fun db a => (delete_account a db).1) db (all_account_addresses db) in
  let db := clear_all_nullifiers db in
  let db := clear_all_note_commitments db in
  let db := clear_all_stakes_and_delegations db in
  let db := clear_all_sentinel_state db in
  let db := clear_all_vesting_schedules db in
  clear_all_governance_state db.

(** ** Batches *)

Definition begin_batch (db : InMemoryStateDB) : InMemoryStateDB :=
  set_batch_snapshot (Some {|
     snap_objects := objects db; snap_ghosts := ghosts db; snap_accounts := accounts db;
     snap_trie := trie db; snap_dirty_objects := dirty_objects db;
     snap_dirty_accounts := dirty_accounts db; snap_note_tree_root := note_tree_root db;
     snap_spent_nullifiers := spent_nullifiers db;
     snap_shielded_pool_balance := shielded_pool_balance db; snap_note_count := note_count db;
     snap_note_commitments := note_commitments db; snap_last_rent_epoch := last_rent_epoch db;
     snap_stakes := stakes db; snap_delegations := delegations db;
     snap_proposals := proposals db; snap_governance_params := governance_params db;
     snap_vesting_schedules := vesting_schedules db;
     snap_sentinel_params := sentinel_params db; snap_sentinel_votes := sentinel_votes db;
     snap_snapshots := snapshots db |}) db.

Definition rollback_batch (db : InMemoryStateDB) : InMemoryStateDB :=
  match batch_snapshot db with
  | Some snap =>
      {|
         objects := snap_objects snap; ghosts := snap_ghosts snap;
         accounts := snap_accounts snap; trie := snap_trie snap;
         dirty_objects := snap_dirty_objects snap; dirty_accounts := snap_dirty_accounts snap;
         note_tree_root := snap_note_tree_root snap;
         spent_nullifiers := snap_spent_nullifiers snap;
         shielded_pool_balance := snap_shielded_pool_balance snap;
         note_count := snap_note_count snap; note_commitments := snap_note_commitments snap;
         last_rent_epoch := snap_last_rent_epoch snap; stakes := snap_stakes snap;
         delegations := snap_delegations snap; proposals := snap_proposals snap;
         governance_params := snap_governance_params snap;
         vesting_schedules := snap_vesting_schedules snap;
         sentinel_params := snap_sentinel_params snap;
         sentinel_votes := snap_sentinel_votes snap; snapshots := snap_snapshots snap;
         batch_snapshot := None |}
  | None => db
  end.
Definition commit_batch (db : InMemoryStateDB) : InMemoryStateDB * result unit string :=
  (set_batch_snapshot None db, Ok tt).

End operations.

(** ** Sequences of operations *)

Inductive db_op :=
| PutObject (o : StateObject)
| ModifyObject (id : bytes) (f : StateObject -> StateObject)
| DeleteObject (id : bytes)
| PutGhost (g : GhostRecord)
| RemoveGhost (id : bytes)
| PruneGhosts (height : Z)
| PutAccount (a : Account)
| ModifyAccount (addr : bytes) (f : Account -> Account)
| UpsertAccount (addr : bytes) (f : Account -> Account)
| DeleteAccount (addr : bytes)
| SpendNullifier (n : bytes)
| PutNoteTreeRoot (r : bytes)
| PutShieldedPoolBalance (b : Z)
| PutNoteCount (n : Z)
| AppendNoteCommitment (index : Z) (c : bytes)
| PutStake (r : StakeRecord)
| RemoveStake (vid : Z)
| PutDelegation (r : DelegationRecord)
| RemoveDelegation (delegator : bytes) (vid : Z)
| PutProposal (p : GovernanceProposal)
| PutGovernanceParam (k v : string)
| PutLastRentEpoch (e : Z)
| PutVestingSchedule (s : VestingSchedule)
| RemoveVestingSchedule (id : Z)
| PutSentinelParam (p : BoundedParameter)
| PutSentinelVotes (id : Z) (votes : list SentinelVote)
| CommitStateSnapshot (height : Z)
| PruneSnapshotsBefore (height : Z)
| ComputeStateRoot
| CompressColdSubtrees
| LoadTrieSnapshot (b : bytes)
| Wipe
| BeginBatch
| CommitBatch
| RollbackBatch.

Section runs.
Context `{Blake3, Pallas, HashOrder}.
Variable from_bytes : bytes -> result EnergyVerkleTrie string.

Definition apply_db (db : InMemoryStateDB) (o : db_op) : InMemoryStateDB :=
  match o with
  | PutObject obj => put_object obj db
  | ModifyObject id f => modify_object f id db
  | DeleteObject id => (delete_object id db).1
  | PutGhost g => put_ghost g db
  | RemoveGhost id => (remove_ghost id db).1
  | PruneGhosts h => (prune_before_height h db).1
  | PutAccount a => put_account a db
  | ModifyAccount addr f => modify_account f addr db
  | UpsertAccount addr f => upsert_account f addr db
  | DeleteAccount addr => (delete_account addr db).1
  | SpendNullifier n => (spend_nullifier n db).1
  | PutNoteTreeRoot r => put_note_tree_root r db
  | PutShieldedPoolBalance b => set_shielded_pool_balance b db
  | PutNoteCount n => set_note_count n db
  | AppendNoteCommitment i c => append_note_commitment i c db
  | PutStake r => put_stake r db
  | RemoveStake v => (remove_stake v db).1
  | PutDelegation r => put_delegation r db
  | RemoveDelegation d v => (remove_delegation d v db).1
  | PutProposal p => put_proposal p db
  | PutGovernanceParam k v => put_governance_param k v db
  | PutLastRentEpoch e => set_last_rent_epoch e db
  | PutVestingSchedule s => put_vesting_schedule s db
  | RemoveVestingSchedule id => (remove_vesting_schedule id db).1
  | PutSentinelParam p => put_sentinel_param p db
  | PutSentinelVotes id v => put_sentinel_votes id v db
  | CommitStateSnapshot h => commit_state_snapshot h db
  | PruneSnapshotsBefore h => prune_snapshots_before h db
  | ComputeStateRoot => (compute_state_root db).1
  | CompressColdSubtrees => (compress_cold_subtrees db).1
  | LoadTrieSnapshot b => (load_trie_snapshot from_bytes b db).1
  | Wipe => wipe_full_state_for_snapshot_restore db
  | BeginBatch => begin_batch db
  | CommitBatch => (commit_batch db).1
  | RollbackBatch => rollback_batch db
  end.

Definition run_db (ops : list db_op) (db : InMemoryStateDB) : InMemoryStateDB :=
  foldl apply_db db ops.

Definition is_batch_op (o : db_op) : bool :=
  match o with BeginBatch | CommitBatch | RollbackBatch => true | _ => false end.

(** *** Batches *)

Lemma foldl_preserves {A B C} (p : A -> C) (f : A -> B -> A) l a :
  (forall a b, p (f a b) = p a) -> p (foldl f a l) = p a.
Proof. intros Hf. revert a. induction l as [|b l IH]; intros a; simpl; [done|]. by rewrite IH. Qed.

Lemma batch_snapshot_wipe db :
  batch_snapshot (wipe_full_state_for_snapshot_restore db) = batch_snapshot db.
Proof.
  unfold wipe_full_state_for_snapshot_restore. cbv zeta. simpl.
  by rewrite !(foldl_preserves batch_snapshot) by done.
Qed.

Lemma batch_snapshot_apply db o :
  is_batch_op o = false -> batch_snapshot (apply_db db o) = batch_snapshot db.
Proof.
  destruct o; intros Hb; try done; simpl.
  - unfold modify_object, get_object_mut. case_decide; by destruct (objects db !! id).
  - unfold modify_account, get_account_mut. case_decide; by destruct (accounts db !! addr).
  - unfold upsert_account, get_or_create_account. by destruct (accounts db !! addr).
  - unfold put_sentinel_param. simpl. by destruct (sentinel_votes db !! bp_id p).
  - unfold compress_cold_subtrees. by destruct (compress_cold _).
  - unfold load_trie_snapshot. by destruct (from_bytes b).
  - apply batch_snapshot_wipe.
Qed.

Lemma batch_snapshot_run ops db :
  Forall (fun o => is_batch_op o = false) ops ->
  batch_snapshot (run_db ops db) = batch_snapshot db.
Proof.
  intros Hops. revert db. induction Hops as [|o ops Ho _ IH]; intros db; [done|].
  change (run_db (o :: ops) db) with (run_db ops (apply_db db o)).
  by rewrite IH, batch_snapshot_apply.
Qed.

(** C2: speculative execution leaves no trace: whatever a batch does to the
    database, from object and account writes to root computations, trie
    compressions, restores and wipes, [rollback_batch] gives back exactly the
    database on which [begin_batch] was called, dirty sets and trie
    included. *)
Theorem rollback_restores (db : InMemoryStateDB) (ops : list db_op) :
  Forall (fun o => is_batch_op o = false) ops ->
  rollback_batch (run_db ops (begin_batch db)) = set_batch_snapshot None db.
Proof.
  intros Hops. unfold rollback_batch. rewrite batch_snapshot_run by done. done.
Qed.

End runs.

(** ** Coherence of the incremental trie *)

(** BLAKE3 digests are 32 bytes. *)
Class Blake3Laws `{Blake3} := blake3_length b : length (blake3 b) = 32%nat.

(** No two of the identifiers and addresses in use collide as trie keys. *)
Class NoCollision `{Blake3} (ids addrs : gset bytes) := {
  okey_inj i j : i ∈ ids -> j ∈ ids -> trie_key_for_object i = trie_key_for_object j -> i = j;
  akey_inj a b : a ∈ addrs -> b ∈ addrs -> trie_key_for_account a = trie_key_for_account b -> a = b;
  okey_akey i a : i ∈ ids -> a ∈ addrs -> trie_key_for_object i <> trie_key_for_account a;
}.

Section coherence.
Context `{Blake3, Pallas, HashOrder, !Blake3Laws}.
Context (ids addrs : gset bytes) `{!NoCollision ids addrs}.

Definition leaf_of_object (id : bytes) (o : StateObject) : EnergyLeaf :=
  {| lkey := trie_key_for_object id; lvalue := trie_value_for_object o;
     lenergy := o_energy o; lhalf_life := o_half_life o; lepoch := o_last_refreshed o |}.

Definition leaf_of_account (addr : bytes) (a : Account) : EnergyLeaf :=
  {| lkey := trie_key_for_account addr; lvalue := trie_value_for_account a;
     lenergy := U64_MAX; lhalf_life := U64_MAX; lepoch := 0 |}.

(** The trie of a database is canonical and agrees with the maps wherever
    they are not marked dirty. *)
Record coherent (os : gmap bytes StateObject) (accs : gmap bytes Account)
    (t : EnergyVerkleTrie) (dos das : gset bytes) : Prop := {
  c_canon : canon_root (root t);
  c_objects : forall id, id ∈ ids -> id ∉ dos ->
    lookup_leaf (root t) (trie_key_for_object id) = leaf_of_object id <$> os !! id;
  c_accounts : forall a, a ∈ addrs -> a ∉ das ->
    lookup_leaf (root t) (trie_key_for_account a) = leaf_of_account a <$> accs !! a;
  c_only : forall k l, lookup_leaf (root t) k = Some l ->
    (exists id, id ∈ ids /\ k = trie_key_for_object id)
    \/ (exists a, a ∈ addrs /\ k = trie_key_for_account a);
  c_ids : forall id o, os !! id = Some o -> id ∈ ids /\ o_id o = id;
  c_addrs : forall a acc, accs !! a = Some acc -> a ∈ addrs;
  c_dirty_objects : dos ⊆ ids;
  c_dirty_accounts : forall a, a ∈ das -> is_Some (accs !! a);
}.

(** The trie operations, on contents. *)
Lemma trie_put_object_spec t id o :
  canon_root (root t) ->
  canon_root (root (trie_put_object t id o))
  /\ forall k, lookup_leaf (root (trie_put_object t id o)) k
     = if decide (k = trie_key_for_object id) then Some (leaf_of_object id o)
       else lookup_leaf (root t) k.
Proof. intros Hc. apply (insert_refines (root t) (leaf_of_object id o)); [done|apply blake3_length]. Qed.

Lemma trie_put_account_spec t a acc :
  canon_root (root t) ->
  canon_root (root (trie_put_account t a acc))
  /\ forall k, lookup_leaf (root (trie_put_account t a acc)) k
     = if decide (k = trie_key_for_account a) then Some (leaf_of_account a acc)
       else lookup_leaf (root t) k.
Proof. intros Hc. apply (insert_refines (root t) (leaf_of_account a acc)); [done|apply blake3_length]. Qed.

Lemma trie_delete_spec t key :
  canon_root (root t) ->
  canon_root (root (trie_delete t key).1)
  /\ forall k, lookup_leaf (root (trie_delete t key).1) k
     = if decide (k = key) then None else lookup_leaf (root t) k.
Proof.
  intros Hc. rewrite root_trie_delete.
  destruct (delete_refines (root t) key Hc) as (Hc' & _ & Hg). done.
Qed.

(** Replacing one object, in the map and either in the trie or in the dirty
    set. *)
Lemma coherent_set_object os accs t t' dos dos' das id (o : option StateObject) :
  coherent os accs t dos das -> id ∈ ids -> (forall x, o = Some x -> o_id x = id) ->
  canon_root (root t') ->
  (forall k, k <> trie_key_for_object id -> lookup_leaf (root t') k = lookup_leaf (root t) k) ->
  (id ∈ dos' \/ lookup_leaf (root t') (trie_key_for_object id) = leaf_of_object id <$> o) ->
  (forall j, j <> id -> j ∈ dos -> j ∈ dos') -> dos' ⊆ ids ->
  coherent (partial_alter (fun _ => o) id os) accs t' dos' das.
Proof.
  intros [Hc Ho Ha Hk Hi Had Hdo Hda] Hid Hox Hc' Hget Hown Hsub Hsub'. split; try done.
  - intros j Hj Hnd. destruct (decide (j = id)) as [->|Hne].
    + rewrite lookup_partial_alter_eq. by destruct Hown.
    + rewrite Hget, lookup_partial_alter_ne by (try done; intros E; by apply Hne, okey_inj).
      apply Ho; [done|]. intros Hd. by apply Hnd, Hsub.
  - intros a Haa Hnd. rewrite Hget; [by apply Ha|]. intros E. symmetry in E. by eapply okey_akey.
  - intros k l. destruct (decide (k = trie_key_for_object id)) as [->|E].
    + intros _. left. by exists id.
    + rewrite Hget by done. apply Hk.
  - intros j x. destruct (decide (j = id)) as [->|Hne].
    + rewrite lookup_partial_alter_eq. intros ->. split; [done|by apply Hox].
    + rewrite lookup_partial_alter_ne by done. apply Hi.
Qed.

Lemma coherent_set_account os accs t t' dos das das' a (acc : option Account) :
  coherent os accs t dos das -> a ∈ addrs -> canon_root (root t') ->
  (forall k, k <> trie_key_for_account a -> lookup_leaf (root t') k = lookup_leaf (root t) k) ->
  (a ∈ das' \/ lookup_leaf (root t') (trie_key_for_account a) = leaf_of_account a <$> acc) ->
  (forall b, b <> a -> b ∈ das <-> b ∈ das') -> (a ∈ das' -> is_Some acc) ->
  coherent os (partial_alter (fun _ => acc) a accs) t' dos das'.
Proof.
  intros [Hc Ho Ha Hk Hi Had Hdo Hda] Haa Hc' Hget Hown Hsub Hsub'. split; try done.
  - intros j Hj Hnd. rewrite Hget; [by apply Ho|]. by apply okey_akey.
  - intros b Hb Hnd. destruct (decide (b = a)) as [->|Hne].
    + rewrite lookup_partial_alter_eq. by destruct Hown.
    + rewrite Hget, lookup_partial_alter_ne by (try done; intros E; by apply Hne, akey_inj).
      apply Ha; [done|]. intros Hd. by apply Hnd, Hsub.
  - intros k l. destruct (decide (k = trie_key_for_account a)) as [->|E].
    + intros _. right. by exists a.
    + rewrite Hget by done. apply Hk.
  - intros b x. destruct (decide (b = a)) as [->|Hne]; [done|].
    rewrite lookup_partial_alter_ne by done. apply Had.
  - intros b Hb. destruct (decide (b = a)) as [->|Hne].
    + rewrite lookup_partial_alter_eq. by apply Hsub'.
    + rewrite lookup_partial_alter_ne by done. by apply Hda, Hsub.
Qed.

(** The same, for a trie whose content is a point update. *)
Lemma coherent_trie_object os accs t t' dos das id (o : option StateObject) :
  coherent os accs t dos das -> id ∈ ids -> (forall x, o = Some x -> o_id x = id) ->
  (canon_root (root t) -> canon_root (root t')
   /\ forall k, lookup_leaf (root t') k
      = if decide (k = trie_key_for_object id) then leaf_of_object id <$> o
        else lookup_leaf (root t) k) ->
  forall dos', (forall j, j <> id -> j ∈ dos -> j ∈ dos') -> dos' ⊆ ids ->
  coherent (partial_alter (fun _ => o) id os) accs t' dos' das.
Proof.
  intros Hc Hid Hox Hspec dos' Hsub Hsub'. destruct (Hspec (c_canon _ _ _ _ _ Hc)) as [Hc' Hget].
  eapply coherent_set_object; try done.
  - intros k Hk. by rewrite Hget, decide_False.
  - right. by rewrite Hget, decide_True.
Qed.

Lemma coherent_trie_account os accs t t' dos das a (acc : option Account) :
  coherent os accs t dos das -> a ∈ addrs ->
  (canon_root (root t) -> canon_root (root t')
   /\ forall k, lookup_leaf (root t') k
      = if decide (k = trie_key_for_account a) then leaf_of_account a <$> acc
        else lookup_leaf (root t) k) ->
  forall das', (forall b, b <> a -> b ∈ das <-> b ∈ das') -> (a ∈ das' -> is_Some acc) ->
  coherent os (partial_alter (fun _ => acc) a accs) t' dos das'.
Proof.
  intros Hc Haa Hspec das' Hsub Hsub'. destruct (Hspec (c_canon _ _ _ _ _ Hc)) as [Hc' Hget].
  eapply coherent_set_account; try done.
  - intros k Hk. by rewrite Hget, decide_False.
  - right. by rewrite Hget, decide_True.
Qed.

(** *** Synchronisation *)

Lemma partial_alter_const_id {A} (m : gmap bytes A) k : partial_alter (fun _ => m !! k) k m = m.
Proof. apply map_eq. intros j. destruct (decide (j = k)) as [->|]; by rewrite ?lookup_partial_alter_eq, ?lookup_partial_alter_ne. Qed.

Lemma sync_object_spec os t id :
  canon_root (root t) ->
  canon_root (root (sync_object os t id))
  /\ forall k, lookup_leaf (root (sync_object os t id)) k
     = if decide (k = trie_key_for_object id) then leaf_of_object id <$> os !! id
       else lookup_leaf (root t) k.
Proof.
  intros Hc. unfold sync_object. destruct (os !! id) as [o|].
  - by apply trie_put_object_spec.
  - by apply trie_delete_spec.
Qed.

Lemma coherent_sync_objects os accs t D das l :
  coherent os accs t (list_to_set l ∪ D) das ->
  coherent os accs (foldl (sync_object os) t l) D das.
Proof.
  revert t. induction l as [|id l IH]; intros t Hc; simpl in *.
  { by rewrite union_empty_l_L in Hc. }
  apply IH. pose proof (c_dirty_objects _ _ _ _ _ Hc) as Hsub.
  rewrite <- (partial_alter_const_id os id) at 1.
  eapply coherent_trie_object; [exact Hc|set_solver| |by apply sync_object_spec|set_solver|set_solver].
  intros x Hx. by apply (c_ids _ _ _ _ _ Hc) in Hx as [_ ?].
Qed.

Lemma coherent_sync_accounts os accs t dos D l :
  NoDup l -> coherent os accs t dos (list_to_set l ∪ D) -> (forall a, a ∈ l -> a ∉ D) ->
  coherent os accs (foldl (sync_account accs) t l) dos D.
Proof.
  intros Hl. revert t. induction Hl as [|a l Ha Hl IH]; intros t Hc Hd; simpl in *.
  { by rewrite union_empty_l_L in Hc. }
  apply IH; [|set_solver]. destruct (c_dirty_accounts _ _ _ _ _ Hc a) as [acc Hacc]; [set_solver|].
  pose proof (c_addrs _ _ _ _ _ Hc a acc Hacc) as Haa.
  unfold sync_account. rewrite Hacc, <- (partial_alter_const_id accs a) at 1. rewrite Hacc.
  eapply coherent_trie_account; [exact Hc|done|by apply trie_put_account_spec| |set_solver].
  intros b Hb. set_solver.
Qed.

Lemma list_to_set_sorted (s : gset bytes) : list_to_set (sort_bytes (elements s)) = s.
Proof.
  apply set_eq. intros x. by rewrite elem_of_list_to_set, elem_of_sort_bytes, elem_of_elements.
Qed.

(** After synchronisation the trie agrees with the maps everywhere. *)
Lemma coherent_sync db :
  coherent (objects db) (accounts db) (trie db) (dirty_objects db) (dirty_accounts db) ->
  coherent (objects db) (accounts db) (trie (sync_dirty_to_trie db)) ∅ ∅.
Proof.
  intros Hc. unfold sync_dirty_to_trie. simpl. apply coherent_sync_accounts.
  - rewrite sort_bytes_perm. apply NoDup_elements.
  - rewrite union_empty_r_L, list_to_set_sorted.
    apply coherent_sync_objects. by rewrite union_empty_r_L, list_to_set_sorted.
  - set_solver.
Qed.

(** Fully synchronised tries for the same maps are the same tree. *)
Lemma coherent_unique os accs t t' :
  coherent os accs t ∅ ∅ -> coherent os accs t' ∅ ∅ -> root t = root t'.
Proof.
  intros Hc Hc'. apply canon_root_unique; [apply Hc|apply Hc'|]. intros k.
  assert (Hsome : forall t1 t2, coherent os accs t1 ∅ ∅ -> coherent os accs t2 ∅ ∅ ->
    forall l, lookup_leaf (root t1) k = Some l -> lookup_leaf (root t2) k = Some l).
  { intros t1 t2 Hc1 Hc2 l Hl. destruct (c_only _ _ _ _ _ Hc1 k l Hl) as [(id & Hid & ->)|(a & Ha & ->)].
    - rewrite (c_objects _ _ _ _ _ Hc2 id Hid), <- (c_objects _ _ _ _ _ Hc1 id Hid) by set_solver. done.
    - rewrite (c_accounts _ _ _ _ _ Hc2 a Ha), <- (c_accounts _ _ _ _ _ Hc1 a Ha) by set_solver. done. }
  destruct (lookup_leaf (root t) k) as [l|] eqn:E; [symmetry; by apply (Hsome t)|].
  destruct (lookup_leaf (root t') k) as [l|] eqn:E'; [|done].
  apply (Hsome t' t Hc' Hc) in E'. congruence.
Qed.

(** *** Every mutator keeps the database coherent *)

Definition coherent_db (db : InMemoryStateDB) : Prop :=
  coherent (objects db) (accounts db) (trie db) (dirty_objects db) (dirty_accounts db).

Lemma coherent_new : coherent_db db_new.
Proof.
  split; simpl; intros; rewrite ?lookup_leaf_empty in *; try done; try set_solver. by left.
Qed.

Lemma coherent_put_object o db : coherent_db db -> o_id o ∈ ids -> coherent_db (put_object o db).
Proof.
  intros Hc Ho. pose proof (c_dirty_objects _ _ _ _ _ Hc).
  eapply (coherent_trie_object _ _ _ _ _ _ (o_id o) (Some o)); [exact Hc|done|naive_solver| |done|done].
  apply trie_put_object_spec.
Qed.

Lemma coherent_delete_object id db : coherent_db db -> id ∈ ids -> coherent_db (delete_object id db).1.
Proof.
  intros Hc Ho. pose proof (c_dirty_objects _ _ _ _ _ Hc).
  eapply (coherent_trie_object _ _ _ _ _ _ id None); [exact Hc|done|done| |done|done].
  apply trie_delete_spec.
Qed.

Lemma coherent_modify_object f id db :
  coherent_db db -> (forall o, o_id (f o) = o_id o) -> coherent_db (modify_object f id db).
Proof.
  intros Hc Hf. unfold modify_object, get_object_mut.
  destruct (objects db !! id) as [o|] eqn:E; [|by rewrite decide_False by (by intros [? [=]])].
  rewrite decide_True by done. pose proof (c_dirty_objects _ _ _ _ _ Hc).
  destruct (c_ids _ _ _ _ _ Hc id o E) as [Hid Ho].
  eapply (coherent_set_object _ _ _ _ _ _ _ id (Some (f o))); [exact Hc|done| |apply Hc|done| |set_solver|set_solver].
  - intros x [= <-]. by rewrite Hf.
  - left. simpl. set_solver.
Qed.

Lemma coherent_put_account a db : coherent_db db -> a_address a ∈ addrs -> coherent_db (put_account a db).
Proof.
  intros Hc Ha. eapply (coherent_trie_account _ _ _ _ _ _ (a_address a) (Some a));
    [exact Hc|done| |done|done]. apply trie_put_account_spec.
Qed.

Lemma coherent_delete_account a db : coherent_db db -> a ∈ addrs -> coherent_db (delete_account a db).1.
Proof.
  intros Hc Ha. eapply (coherent_trie_account _ _ _ _ _ _ a None);
    [exact Hc|done|by apply trie_delete_spec| |]; simpl; set_solver.
Qed.

(** Writing an account through a reference marks it dirty. *)
Lemma coherent_write_account acc a os accs t dos das :
  coherent os accs t dos das -> a ∈ addrs ->
  coherent os (<[ a := acc ]> accs) t dos ({[ a ]} ∪ das).
Proof.
  intros Hc Ha. eapply (coherent_set_account _ _ _ _ _ _ _ a (Some acc));
    [exact Hc|done|apply Hc|done|set_solver|set_solver|done].
Qed.

Lemma coherent_modify_account f a db : coherent_db db -> coherent_db (modify_account f a db).
Proof.
  intros Hc. unfold modify_account, get_account_mut.
  destruct (accounts db !! a) as [acc|] eqn:E; [|by rewrite decide_False by (by intros [? [=]])].
  rewrite decide_True by done. apply coherent_write_account; [done|].
  by apply (c_addrs _ _ _ _ _ Hc a acc).
Qed.

Lemma coherent_upsert_account f a db :
  coherent_db db -> a ∈ addrs -> coherent_db (upsert_account f a db).
Proof.
  intros Hc Ha. unfold upsert_account, get_or_create_account. unfold coherent_db.
  destruct (accounts db !! a) as [acc|] eqn:E; simpl.
  - replace (alter f a (accounts db)) with (<[ a := f acc ]> (accounts db)).
    + by apply coherent_write_account.
    + apply map_eq. intros j. destruct (decide (a = j)) as [<-|].
      * by rewrite lookup_insert_eq, lookup_alter_eq, E.
      * by rewrite lookup_insert_ne, lookup_alter_ne.
  - replace (alter f a (<[ a := new_account a ]> (accounts db)))
      with (<[ a := f (new_account a) ]> (<[ a := new_account a ]> (accounts db))).
    + apply coherent_write_account; [|done]. by apply (coherent_put_account (new_account a) db).
    + apply map_eq. intros j. destruct (decide (a = j)) as [<-|].
      * by rewrite lookup_insert_eq, lookup_alter_eq, lookup_insert_eq.
      * by rewrite lookup_insert_ne, lookup_alter_ne.
Qed.

Lemma coherent_sync_db db : coherent_db db -> coherent_db (sync_dirty_to_trie db).
Proof. apply coherent_sync. Qed.

Lemma foldl_invariant {A B} (P : A -> Prop) (Q : B -> Prop) (f : A -> B -> A) l a :
  (forall a b, P a -> Q b -> P (f a b)) -> Forall Q l -> P a -> P (foldl f a l).
Proof. intros Hf Hl. revert a. induction Hl; intros a Ha; simpl; auto. Qed.

Lemma coherent_wipe db : coherent_db db -> coherent_db (wipe_full_state_for_snapshot_restore db).
Proof.
  intros Hc. unfold wipe_full_state_for_snapshot_restore. cbv zeta.
  set (db1 := foldl _ db (all_object_ids db)).
  assert (Hc1 : coherent_db db1).
  { apply (foldl_invariant coherent_db (fun id => id ∈ ids)); [|  |done].
    - intros. by apply coherent_delete_object.
    - apply Forall_forall. intros id [o Ho]%elem_of_hash_keys. by apply (c_ids _ _ _ _ _ Hc id o). }
  set (db2 := foldl _ db1 (all_ghost_ids db1)).
  assert (Hc2 : coherent_db db2).
  { apply (foldl_invariant coherent_db (fun _ => True)); [done|by apply Forall_true|done]. }
  enough (coherent_db (foldl (fun db a => (delete_account a db).1) db2 (all_account_addresses db2)))
    by done.
  apply (foldl_invariant coherent_db (fun a => a ∈ addrs)); [| |done].
  - intros. by apply coherent_delete_account.
  - apply Forall_forall. intros a [x Hx]%elem_of_hash_keys. by apply (c_addrs _ _ _ _ _ Hc2 a x).
Qed.

(** *** Histories *)

(** The identifiers an operation introduces are in use; references keep an
    object's identifier; compression and restoring a serialized trie are
    excluded (they replace the tree, not its commitment). *)
Definition op_in_use (o : db_op) : Prop :=
  match o with
  | PutObject o => o_id o ∈ ids
  | ModifyObject _ f => forall o, o_id (f o) = o_id o
  | DeleteObject id => id ∈ ids
  | PutAccount a => a_address a ∈ addrs
  | UpsertAccount a _ => a ∈ addrs
  | DeleteAccount a => a ∈ addrs
  | CompressColdSubtrees | LoadTrieSnapshot _ => False
  | _ => True
  end.

Definition coherent_snap (s : InMemoryBatchSnapshot) : Prop :=
  coherent (snap_objects s) (snap_accounts s) (snap_trie s) (snap_dirty_objects s)
    (snap_dirty_accounts s).

(** The invariant, for the live fields and for an open batch. *)
Definition db_ok (db : InMemoryStateDB) : Prop :=
  coherent_db db /\ forall s, batch_snapshot db = Some s -> coherent_snap s.

Variable from_bytes : bytes -> result EnergyVerkleTrie string.

Lemma coherent_apply db o :
  coherent_db db -> is_batch_op o = false -> op_in_use o -> coherent_db (apply_db from_bytes db o).
Proof.
  intros Hc Hb Ho. destruct o; simpl in Ho |- *; try done.
  - by apply coherent_put_object.
  - by apply coherent_modify_object.
  - by apply coherent_delete_object.
  - by apply coherent_put_account.
  - by apply coherent_modify_account.
  - by apply coherent_upsert_account.
  - by apply coherent_delete_account.
  - unfold put_sentinel_param. simpl. by destruct (sentinel_votes db !! bp_id p).
  - by apply coherent_sync_db.
  - by apply coherent_wipe.
Qed.

Lemma db_ok_apply db o : db_ok db -> op_in_use o -> db_ok (apply_db from_bytes db o).
Proof.
  intros [Hc Hs] Ho. destruct (is_batch_op o) eqn:Hb.
  - destruct o; try discriminate Hb; simpl.
    + split; [exact Hc|]. by intros s [= <-].
    + split; [exact Hc|]. by intros s [=].
    + unfold rollback_batch. destruct (batch_snapshot db) as [s|] eqn:E; [|split; [done|by rewrite E]].
      split; [exact (Hs s eq_refl)|]. by intros s' [=].
  - split; [by apply coherent_apply|]. by rewrite batch_snapshot_apply.
Qed.

Lemma db_ok_run ops : Forall op_in_use ops -> db_ok (run_db from_bytes ops db_new).
Proof.
  intros Hops. apply (foldl_invariant db_ok op_in_use); [by apply db_ok_apply|done|].
  split; [apply coherent_new|]. by intros s [=].
Qed.

(** *** Rebuilding from scratch *)

(** An empty trie is coherent when everything is dirty. *)
Lemma coherent_all_dirty os accs :
  (forall id o, os !! id = Some o -> id ∈ ids /\ o_id o = id) ->
  (forall a acc, accs !! a = Some acc -> a ∈ addrs) ->
  coherent os accs trie_new (dom os) (dom accs).
Proof.
  intros Hos Haccs. split; simpl; try done.
  - by left.
  - intros id _ Hid%not_elem_of_dom. by rewrite lookup_leaf_empty, Hid.
  - intros a _ Ha%not_elem_of_dom. by rewrite lookup_leaf_empty, Ha.
  - intros k l. by rewrite lookup_leaf_empty.
  - intros id [o Ho]%elem_of_dom. by eapply Hos.
  - intros a Ha. by apply elem_of_dom.
Qed.

Lemma foldl_put_accounts accs al t :
  (forall a, a ∈ al -> accs !! a.1 = Some a.2) ->
  foldl (fun t a => trie_put_account t a.1 a.2) t al = foldl (sync_account accs) t al.*1.
Proof.
  revert t. induction al as [|a al IH]; intros t Hal; simpl; [done|].
  rewrite IH by set_solver. unfold sync_account at 3. by rewrite (Hal a) by set_solver.
Qed.

Lemma foldl_put_objects os ol t :
  (forall o, o ∈ ol -> os !! o_id o = Some o) ->
  foldl (fun t o => trie_put_object t (o_id o) o) t ol = foldl (sync_object os) t (o_id <$> ol).
Proof.
  revert t. induction ol as [|o ol IH]; intros t Hol; simpl; [done|].
  rewrite IH by set_solver. unfold sync_object at 3. by rewrite (Hol o) by set_solver.
Qed.

Lemma build_coherent os accs os_list accs_list :
  (forall id o, os !! id = Some o -> id ∈ ids /\ o_id o = id) ->
  (forall a acc, accs !! a = Some acc -> a ∈ addrs) ->
  os_list ≡ₚ (map_to_list os).*2 -> accs_list ≡ₚ map_to_list accs ->
  coherent os accs (build_energy_trie os_list accs_list) ∅ ∅.
Proof.
  intros Hos Haccs Hol Hal.
  assert (Hol' : forall o, o ∈ os_list <-> os !! o_id o = Some o).
  { intros o. rewrite Hol, list_elem_of_fmap. split.
    - intros ([id o'] & -> & Hid%elem_of_map_to_list). simpl. by destruct (Hos id o' Hid) as [_ ->].
    - intros Ho. exists (o_id o, o). by rewrite elem_of_map_to_list. }
  unfold build_energy_trie. cbv zeta.
  rewrite (foldl_put_objects os) by (intros o Ho; by apply Hol').
  rewrite (foldl_put_accounts accs) by (intros [a x]; by rewrite Hal, elem_of_map_to_list).
  apply coherent_sync_objects, coherent_sync_accounts; [| |set_solver].
  - rewrite Hal. apply NoDup_fst_map_to_list.
  - replace (list_to_set (o_id <$> os_list) ∪ ∅ : gset bytes) with (dom os).
    + replace (list_to_set accs_list.*1 ∪ ∅ : gset bytes) with (dom accs); [by apply coherent_all_dirty|].
      apply set_eq. intros a. rewrite union_empty_r_L, elem_of_list_to_set, Hal, elem_of_dom.
      rewrite list_elem_of_fmap. split.
      * intros [x Hx]. exists (a, x). by rewrite elem_of_map_to_list.
      * intros ([a' x] & -> & Hx%elem_of_map_to_list). by eexists.
    + apply set_eq. intros id. rewrite union_empty_r_L, elem_of_list_to_set, elem_of_dom, list_elem_of_fmap.
      split.
      * intros [o Ho]. exists o. destruct (Hos id o Ho) as [_ <-]. by rewrite Hol'.
      * intros (o & -> & Ho%Hol'). by eexists.
Qed.


(** What the root sees of an object and of an account. *)
Definition object_view (o : StateObject) : Z * ObjectState := (o_energy o, o_state o).
Definition account_view (a : Account) : Z * Z := (a_balance a, a_nonce a).

Lemma trie_value_object_view id o o' :
  object_view o = object_view o' ->
  lvalue (leaf_of_object id o) = lvalue (leaf_of_object id o').
Proof. unfold object_view. intros [= E1 E2]. simpl. unfold trie_value_for_object. by rewrite E1, E2. Qed.

Lemma trie_value_account_view a acc acc' :
  account_view acc = account_view acc' ->
  lvalue (leaf_of_account a acc) = lvalue (leaf_of_account a acc').
Proof. unfold account_view. intros [= E1 E2]. simpl. unfold trie_value_for_account. by rewrite E1, E2. Qed.

Lemma coherent_same_view os accs t os' accs' t' k :
  coherent os accs t ∅ ∅ -> coherent os' accs' t' ∅ ∅ ->
  (forall id, object_view <$> os !! id = object_view <$> os' !! id) ->
  (forall a, account_view <$> accs !! a = account_view <$> accs' !! a) ->
  is_Some (lookup_leaf (root t) k) ->
  lvalue <$> lookup_leaf (root t) k = lvalue <$> lookup_leaf (root t') k.
Proof.
  intros Hc Hc' Hos Haccs [l Hl]. destruct (c_only _ _ _ _ _ Hc k l Hl) as [(id & Hid & ->)|(a & Ha & ->)].
  - rewrite (c_objects _ _ _ _ _ Hc id Hid), (c_objects _ _ _ _ _ Hc' id Hid) by set_solver.
    specialize (Hos id). destruct (os !! id) as [o|], (os' !! id) as [o'|]; simplify_eq/=; [|done].
    f_equal. apply (trie_value_object_view id). unfold object_view. congruence.
  - rewrite (c_accounts _ _ _ _ _ Hc a Ha), (c_accounts _ _ _ _ _ Hc' a Ha) by set_solver.
    specialize (Haccs a). destruct (accs !! a) as [x|], (accs' !! a) as [x'|]; simplify_eq/=; [|done].
    f_equal. apply (trie_value_account_view a). unfold account_view. congruence.
Qed.

(** What the state root commits to: two databases, whatever their
    histories, whose objects agree in energy and lifecycle state and whose
    accounts agree in balance and nonce have the same state root.  In
    particular the root says nothing about an object's owner, data, half-life
    or decay curve. *)
Theorem state_root_view (ops ops' : list db_op) :
  Forall op_in_use ops -> Forall op_in_use ops' ->
  let db := run_db from_bytes ops db_new in
  let db' := run_db from_bytes ops' db_new in
  (forall id, object_view <$> objects db !! id = object_view <$> objects db' !! id) ->
  (forall a, account_view <$> accounts db !! a = account_view <$> accounts db' !! a) ->
  (compute_state_root db).2 = (compute_state_root db').2.
Proof.
  intros Hops Hops' db db' Hos Haccs.
  assert (Hc : coherent (objects db) (accounts db) (trie (sync_dirty_to_trie db)) ∅ ∅)
    by (apply coherent_sync, (db_ok_run ops Hops)).
  assert (Hc' : coherent (objects db') (accounts db') (trie (sync_dirty_to_trie db')) ∅ ∅)
    by (apply coherent_sync, (db_ok_run ops' Hops')).
  apply hash_values; [apply Hc|apply Hc'|]. intros k.
  destruct (lookup_leaf (root (trie (sync_dirty_to_trie db))) k) as [l|] eqn:E.
  - rewrite <- E. eapply coherent_same_view; eauto.
  - destruct (lookup_leaf (root (trie (sync_dirty_to_trie db'))) k) as [l|] eqn:E'; [|done].
    rewrite <- E, <- E'. symmetry. eapply coherent_same_view; eauto.
Qed.

(** *** The wipe *)

Lemma foldl_delete_empty {A C} `{Countable B} (p : A -> gmap B C) (f : A -> B -> A) l a :
  (forall a b, p (f a b) = base.delete b (p a)) ->
  (forall b, is_Some (p a !! b) -> b ∈ l) -> p (foldl f a l) = ∅.
Proof.
  intros Hf. revert a. induction l as [|b l IH]; intros a Hl; simpl.
  - apply map_empty. intros b. destruct (p a !! b) eqn:E; [|done].
    exfalso. by eapply not_elem_of_nil, Hl; eexists.
  - apply IH. intros b' [c Hb']. rewrite Hf in Hb'. apply lookup_delete_Some in Hb' as [Hne Hb'].
    specialize (Hl b' (ex_intro _ c Hb')). set_solver.
Qed.

Lemma wipe_maps db :
  let db' := wipe_full_state_for_snapshot_restore db in
  objects db' = ∅ /\ ghosts db' = ∅ /\ accounts db' = ∅
  /\ proposals db' = proposals db /\ governance_params db' = governance_params db.
Proof.
  unfold wipe_full_state_for_snapshot_restore. cbv zeta. simpl.
  set (db1 := foldl _ db (all_object_ids db)). set (db2 := foldl _ db1 (all_ghost_ids db1)).
  set (db3 := foldl _ db2 (all_account_addresses db2)).
  assert (Ho : objects db1 = ∅).
  { apply (foldl_delete_empty objects); [done|]. intros b Hb. by apply elem_of_hash_keys. }
  assert (Hg : ghosts db2 = ∅).
  { apply (foldl_delete_empty ghosts); [done|]. intros b Hb. by apply elem_of_hash_keys. }
  assert (Ha : accounts db3 = ∅).
  { apply (foldl_delete_empty accounts); [done|]. intros b Hb. by apply elem_of_hash_keys. }
  split_and!.
  - unfold db3, db2. by rewrite !(foldl_preserves objects).
  - unfold db3. by rewrite (foldl_preserves ghosts).
  - done.
  - unfold db3, db2, db1. by rewrite !(foldl_preserves proposals).
  - unfold db3, db2, db1. by rewrite !(foldl_preserves governance_params).
Qed.

Lemma coherent_empty t : coherent ∅ ∅ t ∅ ∅ -> root t = Empty.
Proof.
  intros Hc. apply canon_root_unique; [apply Hc|by left|]. intros k. rewrite lookup_leaf_empty.
  destruct (lookup_leaf (root t) k) as [l|] eqn:E; [|done].
  destruct (c_only _ _ _ _ _ Hc k l E) as [(id & Hid & ->)|(a & Ha & ->)].
  - rewrite (c_objects _ _ _ _ _ Hc id Hid) in E by set_solver. by rewrite lookup_empty in E.
  - rewrite (c_accounts _ _ _ _ _ Hc a Ha) in E by set_solver. by rewrite lookup_empty in E.
Qed.

(** The wipe before a snapshot restore empties the ledger: objects,
    ghosts, accounts, nullifiers, note commitments, stakes, delegations,
    sentinel and vesting state are gone and the state root is the empty
    root.  Governance proposals and parameters survive it. *)
Theorem wipe_empties (ops : list db_op) :
  Forall op_in_use ops ->
  let db := run_db from_bytes ops db_new in
  let db' := wipe_full_state_for_snapshot_restore db in
  (objects db' = ∅ /\ ghosts db' = ∅ /\ accounts db' = ∅)
  /\ (spent_nullifiers db' = ∅ /\ note_commitments db' = ∅ /\ stakes db' = ∅
      /\ delegations db' = ∅ /\ sentinel_params db' = ∅ /\ sentinel_votes db' = ∅
      /\ vesting_schedules db' = ∅)
  /\ (compute_state_root db').2 = zero_hash
  /\ proposals db' = proposals db /\ governance_params db' = governance_params db.
Proof.
  intros Hops db db'. destruct (wipe_maps db) as (Ho & Hg & Ha & Hp & Hv). fold db' in Ho, Hg, Ha, Hp, Hv.
  split_and!; try done.
  assert (Hc : coherent_db db') by apply coherent_wipe, (db_ok_run ops Hops).
  apply coherent_sync in Hc. rewrite Ho, Ha in Hc. apply coherent_empty in Hc.
  change (hash (root (trie (sync_dirty_to_trie db'))) = zero_hash). by rewrite Hc.
Qed.

End coherence.

(** ** Double spends *)

Section nullifiers.
Context `{Blake3, Pallas, HashOrder}.
Variable from_bytes : bytes -> result EnergyVerkleTrie string.

Lemma nullifier_persists n db o :
  o <> Wipe -> o <> RollbackBatch -> n ∈ spent_nullifiers db ->
  n ∈ spent_nullifiers (apply_db from_bytes db o).
Proof.
  intros Hw Hr Hn. destruct o; simpl; try done.
  - unfold modify_object, get_object_mut. case_decide; by destruct (objects db !! id).
  - unfold modify_account, get_account_mut. case_decide; by destruct (accounts db !! addr).
  - unfold upsert_account, get_or_create_account. by destruct (accounts db !! addr).
  - set_solver.
  - unfold put_sentinel_param. simpl. by destruct (sentinel_votes db !! bp_id p).
  - unfold compress_cold_subtrees. by destruct (compress_cold _).
  - unfold load_trie_snapshot. by destruct (from_bytes b).
Qed.

(** No double spend: spending a nullifier succeeds exactly when it was
    not spent before, and once spent it is refused after any further
    operations short of a rollback of the batch or a full wipe. *)
Theorem spend_nullifier_once (db : InMemoryStateDB) (n : bytes) (ops : list db_op) :
  Forall (fun o => o <> Wipe /\ o <> RollbackBatch) ops ->
  (spend_nullifier n db).2 = negb (is_nullifier_spent db n)
  /\ (spend_nullifier n (run_db from_bytes ops (spend_nullifier n db).1)).2 = false.
Proof.
  intros Hops. unfold is_nullifier_spent. split.
  { simpl. repeat case_bool_decide; done. }
  assert (Hn : n ∈ spent_nullifiers (run_db from_bytes ops (spend_nullifier n db).1)).
  { apply (foldl_invariant (fun db => n ∈ spent_nullifiers db) (fun o => o <> Wipe /\ o <> RollbackBatch)).
    - intros db' o Hdb [Hw Hr]. by apply nullifier_persists.
    - done.
    - simpl. set_solver. }
  unfold spend_nullifier at 1. cbn [snd]. apply bool_decide_eq_false_2. by intros Hnot.
Qed.

End nullifiers.


(** ** Bounded history *)

Section history.

(** Historical snapshots are bounded and exact.  Committing a snapshot
    keeps at most [MAX_SNAPSHOTS] heights, drops only heights older than
    every height it keeps, changes no snapshot it keeps, and a snapshot
    committed at a height not below the retained ones is readable at once as
    the current accounts and objects. *)
Theorem commit_state_snapshot_bounded (db : InMemoryStateDB) (height : Z) :
  let db' := commit_state_snapshot height db in
  (size (snapshots db') <= MAX_SNAPSHOTS)%nat
  /\ (forall h h', is_Some (snapshots db' !! h) -> is_Some (snapshots db !! h') ->
        h' <> height -> snapshots db' !! h' = None -> h' < h)
  /\ (forall h s, h <> height -> snapshots db' !! h = Some s -> snapshots db !! h = Some s)
  /\ ((forall h, is_Some (snapshots db !! h) -> h <= height) ->
      forall addr id, get_account_at_height db' addr height = accounts db !! addr
                      /\ get_object_at_height db' id height = objects db !! id).
Proof.
  intros db'. set (snap := {| h_accounts := accounts db; h_objects := objects db |}).
  set (m := <[ height := snap ]> (snapshots db)).
  destruct (trim_oldest_spec MAX_SNAPSHOTS (size m) m) as (Hs & Hsub & Hkeep); [lia|].
  fold (trim_snapshots (size m) m) in Hs, Hsub, Hkeep. assert (Hdb' : snapshots db' = trim_snapshots (size m) m) by done. rewrite Hdb'.
  split_and!; [lia| | |].
  - intros h h' Hh Hh' Hne. apply Hkeep; [done|]. unfold m. by rewrite lookup_insert_ne.
  - intros h s Hne Hh. apply (lookup_weaken _ _ _ _ Hh) in Hsub.
    unfold m in Hsub. by rewrite lookup_insert_ne in Hsub.
  - intros Hmax addr id. unfold get_account_at_height, get_object_at_height. rewrite Hdb'.
    destruct (trim_snapshots (size m) m !! height) as [s|] eqn:E.
    { pose proof (lookup_weaken _ _ _ _ E Hsub) as Hm. unfold m in Hm.
      rewrite lookup_insert_eq in Hm. by simplify_eq. }
    exfalso. assert (Hall : forall h, trim_snapshots (size m) m !! h = None).
    { intros h. destruct (trim_snapshots (size m) m !! h) as [s|] eqn:Eh; [|done]. exfalso.
      assert (Hlt : height < h).
      { apply Hkeep; [by eexists| |done]. unfold m. rewrite lookup_insert_eq. by eexists. }
      pose proof (lookup_weaken _ _ _ _ Eh Hsub) as Hm. unfold m in Hm.
      rewrite lookup_insert_ne in Hm by lia. specialize (Hmax h (ex_intro _ s Hm)). lia. }
    apply map_empty in Hall. rewrite Hall, map_size_empty in Hs.
    assert (size m <> 0)%nat by (rewrite map_size_ne_0_lookup; exists height, snap; apply lookup_insert_eq).
    unfold MAX_SNAPSHOTS in Hs. lia.
Qed.

End history.

(** ** A concrete database *)

Module ToyDB.

#[global] Instance toy_order : HashOrder :=
  {| hash_keys _ _ _ _ m := (map_to_list m).*1; hash_keys_perm _ _ _ _ m := reflexivity _ |}.

#[global] Instance toy_blake3_laws : Blake3Laws.
Proof. intros b. apply length_to_le_bytes. Qed.

Definition ids : gset bytes := {[ Toy.key 1 1; Toy.key 2 2 ]}.
Definition addrs : gset bytes := {[ Toy.key 3 3 ]}.

#[global] Instance toy_no_collision : NoCollision ids addrs.
Proof.
  split.
  - intros i j Hi Hj. unfold ids in *.
    apply elem_of_union in Hi as [->%elem_of_singleton| ->%elem_of_singleton];
      apply elem_of_union in Hj as [->%elem_of_singleton| ->%elem_of_singleton];
      intros E; first [reflexivity|exfalso; vm_compute in E; discriminate E].
  - intros a b ->%elem_of_singleton ->%elem_of_singleton _. reflexivity.
  - intros i a Hi ->%elem_of_singleton. unfold ids in *.
    apply elem_of_union in Hi as [->%elem_of_singleton| ->%elem_of_singleton];
      intros E; vm_compute in E; discriminate E.
Qed.

Definition object (id : bytes) (e : Z) (data : bytes) : StateObject :=
  {| o_id := id; o_owner := Toy.key 3 3; o_energy := e; o_half_life := 10; o_created_at := 0;
     o_last_refreshed := 0; o_state := Active; o_grace_epoch := None; o_data := data;
     o_decay_curve := None; o_lad_mode := None |}.

Definition drain (o : StateObject) : StateObject := set_lifecycle Grace (Some 5) 0 0 o.

Definition credit (a : Account) : Account :=
  {| a_address := a_address a; a_balance := a_balance a + 100; a_nonce := a_nonce a;
     a_storage_deposit := 0; a_storage_bytes := 0; a_last_touched_epoch := 5; a_vesting := None |}.

Definition no_codec (_ : bytes) : result EnergyVerkleTrie string := Err "unreadable"%string.

Definition ops : list db_op :=
  [PutObject (object (Toy.key 1 1) 50 [1; 2]); UpsertAccount (Toy.key 3 3) credit;
   PutObject (object (Toy.key 2 2) 9 [3]); ModifyObject (Toy.key 1 1) drain;
   BeginBatch; DeleteObject (Toy.key 1 1); RollbackBatch].

Definition ops' : list db_op :=
  [PutObject (object (Toy.key 2 2) 9 [7; 7; 7]); UpsertAccount (Toy.key 3 3) credit;
   PutObject (object (Toy.key 1 1) 8 []); ModifyObject (Toy.key 1 1) drain].

Lemma ops_ok : Forall (op_in_use ids addrs) ops.
Proof. unfold ops. repeat constructor; simpl; try done; unfold ids, addrs; set_solver. Qed.

Lemma ops_ok' : Forall (op_in_use ids addrs) ops'.
Proof. unfold ops'. repeat constructor; simpl; try done; unfold ids, addrs; set_solver. Qed.

Definition db : InMemoryStateDB := run_db no_codec ops db_new.
Definition db' : InMemoryStateDB := run_db no_codec ops' db_new.

End ToyDB.

Lemma rollback_restores_witness :
  let batch := [DeleteObject (Toy.key 1 1); Wipe; ComputeStateRoot] in
  rollback_batch (run_db ToyDB.no_codec batch (begin_batch ToyDB.db)) = ToyDB.db.
Proof.
  intros batch.
  transitivity (set_batch_snapshot None ToyDB.db); [|reflexivity].
  apply (rollback_restores ToyDB.no_codec ToyDB.db batch). repeat constructor.
Defined.


(** The full window: 256 heights are kept, the oldest is dropped. *)
Lemma commit_state_snapshot_bounded_witness :
  let full := foldl (fun db h => commit_state_snapshot (Z.of_nat h) db) ToyDB.db (seq 0 256) in
  let db' := commit_state_snapshot 256 full in
  size (snapshots full) = MAX_SNAPSHOTS /\ (size (snapshots db') <= MAX_SNAPSHOTS)%nat
  /\ earliest_snapshot_height db' = Some 1
  /\ get_account_at_height db' (Toy.key 3 3) 256 = accounts ToyDB.db !! Toy.key 3 3.
Proof.
  intros full db'.
  destruct (commit_state_snapshot_bounded full 256) as (Hs & _ & _ & Hnew).
  split_and!; [vm_compute; reflexivity|exact Hs|vm_compute; reflexivity|].
  vm_compute. reflexivity.
Defined.

(** Different data under the same identifiers, one root. *)
Lemma state_root_view_witness :
  objects ToyDB.db <> objects ToyDB.db'
  /\ (compute_state_root ToyDB.db).2 = (compute_state_root ToyDB.db').2.
Proof.
  split.
  - intros E. apply (f_equal (lookup (Toy.key 2 2))) in E. vm_compute in E. discriminate E.
  - apply (state_root_view ToyDB.ids ToyDB.addrs ToyDB.no_codec ToyDB.ops ToyDB.ops'
      ToyDB.ops_ok ToyDB.ops_ok'); intros k; rewrite <- !lookup_fmap;
      f_equal; vm_compute; reflexivity.
Defined.

Lemma wipe_empties_witness :
  objects ToyDB.db <> ∅
  /\ (compute_state_root (wipe_full_state_for_snapshot_restore ToyDB.db)).2 = zero_hash.
Proof.
  split.
  - intros E. apply (f_equal (lookup (Toy.key 2 2))) in E. vm_compute in E. discriminate E.
  - apply (wipe_empties ToyDB.ids ToyDB.addrs ToyDB.no_codec ToyDB.ops ToyDB.ops_ok).
Defined.

Lemma spend_nullifier_once_witness :
  let ops := [ComputeStateRoot; SpendNullifier (Toy.key 6 6)] in
  (spend_nullifier (Toy.key 9 9) ToyDB.db).2 = true
  /\ (spend_nullifier (Toy.key 9 9)
        (run_db ToyDB.no_codec ops (spend_nullifier (Toy.key 9 9) ToyDB.db).1)).2 = false.
Proof.
  intros ops. destruct (spend_nullifier_once ToyDB.no_codec ToyDB.db (Toy.key 9 9) ops) as [H1 H2].
  - repeat constructor; discriminate.
  - split; [|exact H2]. rewrite H1. vm_compute. reflexivity.
Defined.
