(* ===== verification/Transactions.v ===== *)
(** * Transactions

    crates/evaporchain-types/src/lib.rs: the twenty-five kinds of transaction,
    the bytes that are signed and hashed, and the accessors the mempool and the
    engines use.  Fields carry a prefix for their struct. *)

From stdpp Require Import base gmap list strings.
From Stdlib Require Import ZArith Lia.
From S2P Require Import Prelude Energy DecayCurves Types Trie.

Open Scope Z_scope.

(** ** Data *)

Record TransferTx := {
  tr_from : bytes;
  tr_to : bytes;
  tr_amount : Z;
  tr_nonce : Z;
  tr_signature : option bytes;
  tr_public_key : option bytes;
  tr_mev_refund_eligible : option bool;
}.

Record RefreshTx := {
  rf_object_id : bytes;
  rf_energy_deposit : Z;
  rf_signature : option bytes;
  rf_public_key : option bytes;
}.

Record CreateObjectTx := {
  co_creator : bytes;
  co_object_id : bytes;
  co_energy : Z;
  co_half_life : Z;
  co_data : bytes;
  co_decay_curve : option DecayCurve;
  co_lad_mode : option LadMode;
  co_signature : option bytes;
  co_public_key : option bytes;
}.

Record DeployContractTx := {
  dc_deployer : bytes;
  dc_template : string;
  dc_init_args : string;
  dc_energy : Z;
  dc_half_life : Z;
  dc_rules : option string;
  dc_signature : option bytes;
  dc_public_key : option bytes;
}.

Record CallContractTx := {
  cc_caller : bytes;
  cc_contract_id : Z;
  cc_method : string;
  cc_args : string;
  cc_epoch : Z;
  cc_signature : option bytes;
  cc_public_key : option bytes;
}.

Record DeployScriptTx := {
  ds_deployer : bytes;
  ds_source_code : string;
  ds_energy : Z;
  ds_half_life : Z;
  ds_signature : option bytes;
  ds_public_key : option bytes;
}.

Record CallScriptTx := {
  cs_caller : bytes;
  cs_contract_id : Z;
  cs_method : string;
  cs_args : string;
  cs_epoch : Z;
  cs_signature : option bytes;
  cs_public_key : option bytes;
}.

Record ValidatorStakeTx := {
  vs_validator_address : bytes;
  vs_stake_amount : Z;
  vs_validator_id : Z;
  vs_nonce : Z;
  vs_bls_public_key : option bytes;
  vs_vrf_public_key : option bytes;
  vs_signature : option bytes;
  vs_public_key : option bytes;
}.

Record ValidatorExitTx := {
  ve_validator_address : bytes;
  ve_validator_id : Z;
  ve_nonce : Z;
  ve_signature : option bytes;
  ve_public_key : option bytes;
}.

Record ValidatorClaimStakeTx := {
  vc_validator_address : bytes;
  vc_validator_id : Z;
  vc_nonce : Z;
  vc_signature : option bytes;
  vc_public_key : option bytes;
}.

Record MerkleProofData := {
  mp_siblings : list bytes;
  mp_leaf_index : Z;
  mp_root : bytes;
}.

Record EnergyDecayProofData := {
  ed_old_energy_commitment : bytes;
  ed_new_energy_commitment : bytes;
  ed_decay_binding : bytes;
  ed_half_life : Z;
  ed_epoch_start : Z;
  ed_epoch_end : Z;
  ed_is_evaporated : bool;
}.

Record ShieldTx := {
  sh_from : bytes;
  sh_amount : Z;
  sh_nonce : Z;
  sh_note_owner_hash : bytes;
  sh_value_blinding : bytes;
  sh_energy : option Z;
  sh_energy_blinding : option bytes;
  sh_half_life : Z;
  sh_signature : option bytes;
  sh_public_key : option bytes;
}.

Record UnshieldTx := {
  us_to : bytes;
  us_amount : Z;
  us_input_nullifiers : list bytes;
  us_anchor : bytes;
  us_balance_binding : bytes;
  us_input_amounts : list Z;
  us_input_blindings : list bytes;
  us_input_value_commitments : list bytes;
  us_input_note_commitments : list bytes;
  us_input_merkle_proofs : list MerkleProofData;
  us_output_blindings : list bytes;
  us_change_commitments : list bytes;
  us_energy_proofs : list EnergyDecayProofData;
}.

Record PrivateTransferTx := {
  pt_input_nullifiers : list bytes;
  pt_output_commitments : list bytes;
  pt_anchor : bytes;
  pt_balance_binding : bytes;
  pt_fee : Z;
  pt_input_amounts : list Z;
  pt_input_blindings : list bytes;
  pt_input_value_commitments : list bytes;
  pt_input_note_commitments : list bytes;
  pt_input_merkle_proofs : list MerkleProofData;
  pt_output_amounts : list Z;
  pt_output_blindings : list bytes;
  pt_energy_proofs : list EnergyDecayProofData;
}.

Inductive TemporalGuard :=
| AfterEpoch (e : Z)
| BeforeEpoch (e : Z)
| EnergyBelow (id : bytes) (threshold : Z)
| EnergyAbove (id : bytes) (threshold : Z)
| ObjectEvaporated (id : bytes)
| ContractInPhase (contract_id : Z) (phase : string).

Record DeferredTx := {
  df_submitter : bytes;
  df_nonce : Z;
  df_deposit : Z;
  df_guards : list TemporalGuard;
  df_inner_tx_bytes : bytes;
  df_gas_limit : Z;
  df_signature : option bytes;
  df_public_key : option bytes;
}.

Record BlobTx := {
  bl_submitter : bytes;
  bl_data : bytes;
  bl_nonce : Z;
  bl_namespace_id : Z;
  bl_signature : option bytes;
  bl_public_key : option bytes;
}.

Inductive GovernanceAction :=
| CreateProposal (title param_key param_value : string) (voting_epochs : Z)
| CastVote (proposal_id : Z) (vote : bool).

Record GovernanceTx := {
  gv_action : GovernanceAction;
  gv_sender : bytes;
  gv_nonce : Z;
  gv_signature : option bytes;
  gv_public_key : option bytes;
}.

Record MultiSigTx := {
  ms_multisig_address : bytes;
  ms_threshold : Z;
  ms_signers : list bytes;
  ms_inner_tx_bytes : bytes;
  ms_signatures : list (bytes * bytes);
  ms_public_keys : list (bytes * bytes);
  ms_nonce : Z;
}.

Record UserOpTx := {
  uo_sender : bytes;
  uo_nonce : Z;
  uo_call_data : bytes;
  uo_call_gas_limit : Z;
  uo_paymaster : option bytes;
  uo_paymaster_nonce : option Z;
  uo_paymaster_data : option bytes;
  uo_paymaster_signature : option bytes;
  uo_paymaster_public_key : option bytes;
  uo_signature : option bytes;
  uo_public_key : option bytes;
}.

Record UpgradeContractTx := {
  uc_owner : bytes;
  uc_contract_id : Z;
  uc_new_bytecode : bytes;
  uc_new_bytecode_hash : bytes;
  uc_nonce : Z;
  uc_admin_signature : option bytes;
  uc_admin_public_key : option bytes;
  uc_endorser_stakes : list Z;
  uc_required_stake : Z;
  uc_governance_approved : bool;
  uc_signature : option bytes;
  uc_public_key : option bytes;
}.

Record DelegateTx := {
  dl_delegator : bytes;
  dl_validator_id : Z;
  dl_amount : Z;
  dl_nonce : Z;
  dl_signature : option bytes;
  dl_public_key : option bytes;
}.

Record UndelegateTx := {
  ud_delegator : bytes;
  ud_validator_id : Z;
  ud_amount : Z;
  ud_nonce : Z;
  ud_signature : option bytes;
  ud_public_key : option bytes;
}.

Record RotateValidatorKeyTx := {
  rk_validator_address : bytes;
  rk_validator_id : Z;
  rk_new_bls_public_key : bytes;
  rk_bls_pop_old : bytes;
  rk_bls_pop_new : bytes;
  rk_effective_epoch : Z;
  rk_nonce : Z;
  rk_signature : option bytes;
  rk_public_key : option bytes;
}.

Record ClaimDelegationTx := {
  cd_delegator : bytes;
  cd_validator_id : Z;
  cd_nonce : Z;
  cd_signature : option bytes;
  cd_public_key : option bytes;
}.

Record RefundTx := {
  re_source_block_height : Z;
  re_source_observation_idx : Z;
  re_attacker : bytes;
  re_victim : bytes;
  re_amount : Z;
  re_settle_block_height : Z;
}.

Record DeployTemplateTx := {
  dt_deployer : bytes;
  dt_template_class : Z;
  dt_params : bytes;
  dt_nonce : Z;
  dt_submitted_at_epoch : Z;
  dt_signature : option bytes;
  dt_public_key : option bytes;
}.

Inductive Transaction :=
| Transfer (tx : TransferTx)
| Refresh (tx : RefreshTx)
| CreateObject (tx : CreateObjectTx)
| DeployContract (tx : DeployContractTx)
| CallContract (tx : CallContractTx)
| DeployScript (tx : DeployScriptTx)
| CallScript (tx : CallScriptTx)
| ValidatorStake (tx : ValidatorStakeTx)
| ValidatorExit (tx : ValidatorExitTx)
| ValidatorClaimStake (tx : ValidatorClaimStakeTx)
| Shield (tx : ShieldTx)
| Unshield (tx : UnshieldTx)
| PrivateTransfer (tx : PrivateTransferTx)
| Deferred (tx : DeferredTx)
| Blob (tx : BlobTx)
| Governance (tx : GovernanceTx)
| MultiSig (tx : MultiSigTx)
| UserOp (tx : UserOpTx)
| UpgradeContract (tx : UpgradeContractTx)
| Delegate (tx : DelegateTx)
| Undelegate (tx : UndelegateTx)
| RotateValidatorKey (tx : RotateValidatorKeyTx)
| ClaimDelegation (tx : ClaimDelegationTx)
| Refund (tx : RefundTx)
| DeployTemplate (tx : DeployTemplateTx).

Definition tx_signature (t : Transaction) : option bytes :=
  match t with
  | Transfer tx => tr_signature tx
  | Refresh tx => rf_signature tx
  | CreateObject tx => co_signature tx
  | DeployContract tx => dc_signature tx
  | CallContract tx => cc_signature tx
  | DeployScript tx => ds_signature tx
  | CallScript tx => cs_signature tx
  | ValidatorStake tx => vs_signature tx
  | ValidatorExit tx => ve_signature tx
  | ValidatorClaimStake tx => vc_signature tx
  | Shield tx => sh_signature tx
  | Unshield _ => None
  | PrivateTransfer _ => None
  | Deferred tx => df_signature tx
  | Blob tx => bl_signature tx
  | Governance tx => gv_signature tx
  | MultiSig _ => None
  | UserOp tx => uo_signature tx
  | UpgradeContract tx => uc_signature tx
  | Delegate tx => dl_signature tx
  | Undelegate tx => ud_signature tx
  | RotateValidatorKey tx => rk_signature tx
  | ClaimDelegation tx => cd_signature tx
  | Refund _ => None
  | DeployTemplate tx => dt_signature tx
  end.

Definition tx_public_key (t : Transaction) : option bytes :=
  match t with
  | Transfer tx => tr_public_key tx
  | Refresh tx => rf_public_key tx
  | CreateObject tx => co_public_key tx
  | DeployContract tx => dc_public_key tx
  | CallContract tx => cc_public_key tx
  | DeployScript tx => ds_public_key tx
  | CallScript tx => cs_public_key tx
  | ValidatorStake tx => vs_public_key tx
  | ValidatorExit tx => ve_public_key tx
  | ValidatorClaimStake tx => vc_public_key tx
  | Shield tx => sh_public_key tx
  | Unshield _ => None
  | PrivateTransfer _ => None
  | Deferred tx => df_public_key tx
  | Blob tx => bl_public_key tx
  | Governance tx => gv_public_key tx
  | MultiSig _ => None
  | UserOp tx => uo_public_key tx
  | UpgradeContract tx => uc_public_key tx
  | Delegate tx => dl_public_key tx
  | Undelegate tx => ud_public_key tx
  | RotateValidatorKey tx => rk_public_key tx
  | ClaimDelegation tx => cd_public_key tx
  | Refund _ => None
  | DeployTemplate tx => dt_public_key tx
  end.

(** The account that pays the fee. *)
Definition tx_sender (t : Transaction) : option bytes :=
  match t with
  | Transfer tx => Some (tr_from tx)
  | Refresh _ => None
  | CreateObject tx => Some (co_creator tx)
  | DeployContract tx => Some (dc_deployer tx)
  | CallContract tx => Some (cc_caller tx)
  | DeployScript tx => Some (ds_deployer tx)
  | CallScript tx => Some (cs_caller tx)
  | ValidatorStake tx => Some (vs_validator_address tx)
  | ValidatorExit tx => Some (ve_validator_address tx)
  | ValidatorClaimStake tx => Some (vc_validator_address tx)
  | Shield tx => Some (sh_from tx)
  | Unshield _ => None
  | PrivateTransfer _ => None
  | Deferred tx => Some (df_submitter tx)
  | Blob tx => Some (bl_submitter tx)
  | Governance tx => Some (gv_sender tx)
  | MultiSig tx => Some (ms_multisig_address tx)
  | UserOp tx => match uo_paymaster tx with Some pm => Some pm | None => Some (uo_sender tx) end
  | UpgradeContract tx => Some (uc_owner tx)
  | Delegate tx => Some (dl_delegator tx)
  | Undelegate tx => Some (ud_delegator tx)
  | RotateValidatorKey tx => Some (rk_validator_address tx)
  | ClaimDelegation tx => Some (cd_delegator tx)
  | Refund tx => Some (re_attacker tx)
  | DeployTemplate tx => Some (dt_deployer tx)
  end.

Definition tx_nonce (t : Transaction) : option Z :=
  match t with
  | Transfer tx => Some (tr_nonce tx)
  | Refresh _ => None
  | CreateObject _ => None
  | DeployContract _ => None
  | CallContract _ => None
  | DeployScript _ => None
  | CallScript _ => None
  | ValidatorStake tx => Some (vs_nonce tx)
  | ValidatorExit tx => Some (ve_nonce tx)
  | ValidatorClaimStake tx => Some (vc_nonce tx)
  | Shield tx => Some (sh_nonce tx)
  | Unshield _ => None
  | PrivateTransfer _ => None
  | Deferred tx => Some (df_nonce tx)
  | Blob tx => Some (bl_nonce tx)
  | Governance tx => Some (gv_nonce tx)
  | MultiSig tx => Some (ms_nonce tx)
  | UserOp tx => Some (uo_nonce tx)
  | UpgradeContract tx => Some (uc_nonce tx)
  | Delegate tx => Some (dl_nonce tx)
  | Undelegate tx => Some (ud_nonce tx)
  | RotateValidatorKey tx => Some (rk_nonce tx)
  | ClaimDelegation tx => Some (cd_nonce tx)
  | Refund _ => None
  | DeployTemplate tx => Some (dt_nonce tx)
  end.

(** ** Signed bytes *)

(** [serde_json::to_vec] on a decay curve. *)
Class CurveJson := curve_json : DecayCurve -> option bytes.

Definition guard_bytes (g : TemporalGuard) : bytes :=
  match g with
  | AfterEpoch e => [1] ++ to_le_bytes 8 e
  | BeforeEpoch e => [2] ++ to_le_bytes 8 e
  | EnergyBelow id threshold => [3] ++ id ++ to_le_bytes 8 threshold
  | EnergyAbove id threshold => [4] ++ id ++ to_le_bytes 8 threshold
  | ObjectEvaporated id => [5] ++ id
  | ContractInPhase cid phase => [6] ++ to_le_bytes 8 cid ++ bytes_of_string phase
  end.

Definition action_bytes (a : GovernanceAction) : bytes :=
  match a with
  | CreateProposal title param_key param_value voting_epochs =>
      [1] ++ bytes_of_string title ++ bytes_of_string param_key ++ bytes_of_string param_value
        ++ to_le_bytes 8 voting_epochs
  | CastVote proposal_id vote => [2] ++ to_le_bytes 8 proposal_id ++ [if vote then 1 else 0]
  end.

Definition signable_bytes `{CurveJson} (t : Transaction) : bytes :=
  match t with
  | Transfer tx =>
      [1] ++ tr_from tx ++ tr_to tx ++ to_le_bytes 8 (tr_amount tx) ++ to_le_bytes 8 (tr_nonce tx)
  | Refresh tx => [2] ++ rf_object_id tx ++ to_le_bytes 8 (rf_energy_deposit tx)
  | CreateObject tx =>
      [3] ++ co_creator tx ++ co_object_id tx ++ to_le_bytes 8 (co_energy tx) ++ to_le_bytes 8 (co_half_life tx)
        ++ co_data tx
        ++ match co_decay_curve tx with
           | Some curve => match curve_json curve with Some b => b | None => [] end
           | None => []
           end
  | DeployContract tx =>
      [4] ++ dc_deployer tx ++ bytes_of_string (dc_template tx) ++ bytes_of_string (dc_init_args tx)
        ++ to_le_bytes 8 (dc_energy tx) ++ to_le_bytes 8 (dc_half_life tx)
  | CallContract tx =>
      [5] ++ cc_caller tx ++ to_le_bytes 8 (cc_contract_id tx) ++ bytes_of_string (cc_method tx)
        ++ bytes_of_string (cc_args tx)
  | DeployScript tx =>
      [6] ++ ds_deployer tx ++ bytes_of_string (ds_source_code tx) ++ to_le_bytes 8 (ds_energy tx)
        ++ to_le_bytes 8 (ds_half_life tx)
  | CallScript tx =>
      [7] ++ cs_caller tx ++ to_le_bytes 8 (cs_contract_id tx) ++ bytes_of_string (cs_method tx)
        ++ bytes_of_string (cs_args tx)
  | ValidatorStake tx =>
      [8] ++ vs_validator_address tx ++ to_le_bytes 8 (vs_stake_amount tx) ++ to_le_bytes 8 (vs_validator_id tx)
        ++ to_le_bytes 8 (vs_nonce tx) ++ match vs_vrf_public_key tx with Some pk => pk | None => [] end
  | ValidatorExit tx =>
      [9] ++ ve_validator_address tx ++ to_le_bytes 8 (ve_validator_id tx) ++ to_le_bytes 8 (ve_nonce tx)
  | ValidatorClaimStake tx =>
      [15] ++ vc_validator_address tx ++ to_le_bytes 8 (vc_validator_id tx) ++ to_le_bytes 8 (vc_nonce tx)
  | Shield tx =>
      [10] ++ sh_from tx ++ to_le_bytes 8 (sh_amount tx) ++ to_le_bytes 8 (sh_nonce tx) ++ sh_note_owner_hash tx
        ++ sh_value_blinding tx ++ to_le_bytes 8 (sh_half_life tx)
  | Unshield tx =>
      [11] ++ us_to tx ++ to_le_bytes 8 (us_amount tx) ++ us_anchor tx ++ concat (us_input_nullifiers tx)
        ++ us_balance_binding tx
  | PrivateTransfer tx =>
      [12] ++ pt_anchor tx ++ to_le_bytes 8 (pt_fee tx) ++ concat (pt_input_nullifiers tx)
        ++ concat (pt_output_commitments tx) ++ pt_balance_binding tx
  | Deferred tx =>
      [13] ++ df_submitter tx ++ to_le_bytes 8 (df_nonce tx) ++ to_le_bytes 8 (df_deposit tx)
        ++ concat (guard_bytes <$> df_guards tx) ++ df_inner_tx_bytes tx
  | Blob tx =>
      [14] ++ bl_submitter tx ++ to_le_bytes 8 (bl_nonce tx) ++ to_le_bytes 8 (bl_namespace_id tx) ++ bl_data tx
  | Governance tx => [16] ++ gv_sender tx ++ to_le_bytes 8 (gv_nonce tx) ++ action_bytes (gv_action tx)
  | MultiSig tx =>
      [17] ++ ms_multisig_address tx ++ to_le_bytes 8 (ms_nonce tx) ++ [ms_threshold tx]
        ++ concat (ms_signers tx) ++ ms_inner_tx_bytes tx
  | UserOp tx =>
      [18] ++ uo_sender tx ++ to_le_bytes 8 (uo_nonce tx) ++ to_le_bytes 8 (uo_call_gas_limit tx)
        ++ uo_call_data tx ++ match uo_paymaster tx with Some pm => pm | None => [] end
  | UpgradeContract tx =>
      [19] ++ uc_owner tx ++ to_le_bytes 8 (uc_contract_id tx) ++ to_le_bytes 8 (uc_nonce tx)
        ++ [if uc_governance_approved tx then 1 else 0] ++ uc_new_bytecode tx ++ uc_new_bytecode_hash tx
        ++ to_le_bytes 4 (Z.of_nat (length (uc_endorser_stakes tx)))
        ++ concat (to_le_bytes 8 <$> uc_endorser_stakes tx) ++ to_le_bytes 8 (uc_required_stake tx)
  | Delegate tx =>
      [20] ++ dl_delegator tx ++ to_le_bytes 8 (dl_validator_id tx) ++ to_le_bytes 8 (dl_amount tx)
        ++ to_le_bytes 8 (dl_nonce tx)
  | Undelegate tx =>
      [21] ++ ud_delegator tx ++ to_le_bytes 8 (ud_validator_id tx) ++ to_le_bytes 8 (ud_amount tx)
        ++ to_le_bytes 8 (ud_nonce tx)
  | RotateValidatorKey tx =>
      [22] ++ rk_validator_address tx ++ to_le_bytes 8 (rk_validator_id tx) ++ u32_prefixed (rk_new_bls_public_key tx)
        ++ u32_prefixed (rk_bls_pop_old tx) ++ u32_prefixed (rk_bls_pop_new tx)
        ++ to_le_bytes 8 (rk_effective_epoch tx) ++ to_le_bytes 8 (rk_nonce tx)
  | ClaimDelegation tx =>
      [23] ++ cd_delegator tx ++ to_le_bytes 8 (cd_validator_id tx) ++ to_le_bytes 8 (cd_nonce tx)
  | Refund tx =>
      [24] ++ to_le_bytes 8 (re_source_block_height tx) ++ to_le_bytes 8 (re_source_observation_idx tx)
        ++ re_attacker tx ++ re_victim tx ++ to_le_bytes 8 (re_amount tx) ++ to_le_bytes 8 (re_settle_block_height tx)
  | DeployTemplate tx =>
      [25] ++ dt_deployer tx ++ to_le_bytes 4 (dt_template_class tx) ++ u32_prefixed (dt_params tx)
        ++ to_le_bytes 8 (dt_nonce tx) ++ to_le_bytes 8 (dt_submitted_at_epoch tx)
  end.

Definition signing_message `{CurveJson} (chain_id : string) (t : Transaction) : bytes :=
  u32_prefixed (bytes_of_string chain_id) ++ signable_bytes t.

Definition tx_hash `{CurveJson, Blake3} (t : Transaction) : bytes := blake3 (signable_bytes t).

Definition ADDRESS_DST : bytes := bytes_of_string "evaporchain:address:v1" ++ [0].

Definition address_from_pubkey `{Blake3} (pk : bytes) : bytes := blake3 (ADDRESS_DST ++ pk).

(** The bytes a paymaster signs. *)
Definition paymaster_sponsorship_payload `{Blake3} (chain_id : string) (tx : UserOpTx) : option bytes :=
  paymaster ← uo_paymaster tx;
  pm_nonce ← uo_paymaster_nonce tx;
  Some (bytes_of_string "evaporchain:paymaster_sponsorship:v1" ++ [0] ++ u32_prefixed (bytes_of_string chain_id)
          ++ uo_sender tx ++ to_le_bytes 8 (uo_nonce tx) ++ paymaster ++ to_le_bytes 8 pm_nonce
          ++ to_le_bytes 8 (uo_call_gas_limit tx) ++ blake3 (uo_call_data tx)).

(** ** What a signature binds *)

Definition addr (b : bytes) : Prop := length b = 32%nat.
Definition is_u32 (n : Z) : Prop := 0 <= n < 2 ^ 32.
Definition short (b : bytes) : Prop := Z.of_nat (length b) < 2 ^ 32.

(** The kinds whose fields are framed, with the fields outside the signed bytes
    (the signature, the key, the refund preference) removed. *)
Definition signed_part (t : Transaction) : option Transaction :=
  match t with
  | Transfer tx => Some (Transfer {| tr_from := tr_from tx; tr_to := tr_to tx; tr_amount := tr_amount tx; tr_nonce := tr_nonce tx; tr_signature := None; tr_public_key := None; tr_mev_refund_eligible := None |})
  | Refresh tx => Some (Refresh {| rf_object_id := rf_object_id tx; rf_energy_deposit := rf_energy_deposit tx; rf_signature := None; rf_public_key := None |})
  | DeployScript tx => Some (DeployScript {| ds_deployer := ds_deployer tx; ds_source_code := ds_source_code tx; ds_energy := ds_energy tx; ds_half_life := ds_half_life tx; ds_signature := None; ds_public_key := None |})
  | ValidatorExit tx => Some (ValidatorExit {| ve_validator_address := ve_validator_address tx; ve_validator_id := ve_validator_id tx; ve_nonce := ve_nonce tx; ve_signature := None; ve_public_key := None |})
  | ValidatorClaimStake tx => Some (ValidatorClaimStake {| vc_validator_address := vc_validator_address tx; vc_validator_id := vc_validator_id tx; vc_nonce := vc_nonce tx; vc_signature := None; vc_public_key := None |})
  | Blob tx => Some (Blob {| bl_submitter := bl_submitter tx; bl_data := bl_data tx; bl_nonce := bl_nonce tx; bl_namespace_id := bl_namespace_id tx; bl_signature := None; bl_public_key := None |})
  | Delegate tx => Some (Delegate {| dl_delegator := dl_delegator tx; dl_validator_id := dl_validator_id tx; dl_amount := dl_amount tx; dl_nonce := dl_nonce tx; dl_signature := None; dl_public_key := None |})
  | Undelegate tx => Some (Undelegate {| ud_delegator := ud_delegator tx; ud_validator_id := ud_validator_id tx; ud_amount := ud_amount tx; ud_nonce := ud_nonce tx; ud_signature := None; ud_public_key := None |})
  | RotateValidatorKey tx => Some (RotateValidatorKey {| rk_validator_address := rk_validator_address tx; rk_validator_id := rk_validator_id tx; rk_new_bls_public_key := rk_new_bls_public_key tx; rk_bls_pop_old := rk_bls_pop_old tx; rk_bls_pop_new := rk_bls_pop_new tx; rk_effective_epoch := rk_effective_epoch tx; rk_nonce := rk_nonce tx; rk_signature := None; rk_public_key := None |})
  | ClaimDelegation tx => Some (ClaimDelegation {| cd_delegator := cd_delegator tx; cd_validator_id := cd_validator_id tx; cd_nonce := cd_nonce tx; cd_signature := None; cd_public_key := None |})
  | Refund tx => Some (Refund {| re_source_block_height := re_source_block_height tx; re_source_observation_idx := re_source_observation_idx tx; re_attacker := re_attacker tx; re_victim := re_victim tx; re_amount := re_amount tx; re_settle_block_height := re_settle_block_height tx |})
  | DeployTemplate tx => Some (DeployTemplate {| dt_deployer := dt_deployer tx; dt_template_class := dt_template_class tx; dt_params := dt_params tx; dt_nonce := dt_nonce tx; dt_submitted_at_epoch := dt_submitted_at_epoch tx; dt_signature := None; dt_public_key := None |})
  | Governance tx =>
      match gv_action tx with
      | CastVote _ _ => Some (Governance {| gv_action := gv_action tx; gv_sender := gv_sender tx;
                                            gv_nonce := gv_nonce tx; gv_signature := None; gv_public_key := None |})
      | CreateProposal _ _ _ _ => None
      end
  | _ => None
  end.

(** The widths of the fields. *)
Definition tx_wf (t : Transaction) : Prop :=
  match t with
  | Transfer tx => addr (tr_from tx) /\ addr (tr_to tx) /\ is_u64 (tr_amount tx) /\ is_u64 (tr_nonce tx)
  | Refresh tx => addr (rf_object_id tx) /\ is_u64 (rf_energy_deposit tx)
  | DeployScript tx => addr (ds_deployer tx) /\ is_u64 (ds_energy tx) /\ is_u64 (ds_half_life tx)
  | ValidatorExit tx => addr (ve_validator_address tx) /\ is_u64 (ve_validator_id tx) /\ is_u64 (ve_nonce tx)
  | ValidatorClaimStake tx => addr (vc_validator_address tx) /\ is_u64 (vc_validator_id tx) /\ is_u64 (vc_nonce tx)
  | Blob tx => addr (bl_submitter tx) /\ is_u64 (bl_nonce tx) /\ is_u64 (bl_namespace_id tx)
  | Delegate tx => addr (dl_delegator tx) /\ is_u64 (dl_validator_id tx) /\ is_u64 (dl_amount tx) /\ is_u64 (dl_nonce tx)
  | Undelegate tx => addr (ud_delegator tx) /\ is_u64 (ud_validator_id tx) /\ is_u64 (ud_amount tx) /\ is_u64 (ud_nonce tx)
  | RotateValidatorKey tx => addr (rk_validator_address tx) /\ is_u64 (rk_validator_id tx) /\ short (rk_new_bls_public_key tx) /\ short (rk_bls_pop_old tx) /\ short (rk_bls_pop_new tx) /\ is_u64 (rk_effective_epoch tx) /\ is_u64 (rk_nonce tx)
  | ClaimDelegation tx => addr (cd_delegator tx) /\ is_u64 (cd_validator_id tx) /\ is_u64 (cd_nonce tx)
  | Refund tx => is_u64 (re_source_block_height tx) /\ is_u64 (re_source_observation_idx tx) /\ addr (re_attacker tx) /\ addr (re_victim tx) /\ is_u64 (re_amount tx) /\ is_u64 (re_settle_block_height tx)
  | DeployTemplate tx => addr (dt_deployer tx) /\ is_u32 (dt_template_class tx) /\ short (dt_params tx) /\ is_u64 (dt_nonce tx) /\ is_u64 (dt_submitted_at_epoch tx)
  | Governance tx =>
      addr (gv_sender tx) /\ is_u64 (gv_nonce tx) /\
      match gv_action tx with CastVote id _ => is_u64 id | CreateProposal _ _ _ v => is_u64 v end
  | _ => True
  end.

Ltac peel E :=
  lazymatch type of E with
  | ?x :: _ = ?x :: _ => apply (f_equal tail) in E; cbn [tail] in E
  | [_] = [_] => injection E as E
  | u32_prefixed _ ++ _ = _ => apply u32_prefixed_inj in E as [? E]; [|assumption..]
  | _ =>
      first
        [ apply app_inj_1 in E as [? E]; [|solve [by rewrite ?length_to_le_bytes | unfold addr in *; congruence]]
        | apply app_inj_2 in E as [E ?]; [|by rewrite !length_app, !length_to_le_bytes] ]
  end.

Ltac read_ints :=
  repeat match goal with
  | H : to_le_bytes 8 _ ++ _ = _ |- _ => peel H
  | H : to_le_bytes 8 _ = to_le_bytes 8 _ |- _ => apply to_le_bytes_inj in H; [|assumption..]
  | H : to_le_bytes 4 _ = to_le_bytes 4 _ |- _ => apply u32_le_inj in H; [|assumption..]
  | H : bytes_of_string _ = bytes_of_string _ |- _ => apply bytes_of_string_inj in H
  end.

(** Equal bytes of two framed transactions of one kind. *)
Ltac same_fields E :=
  cbn in *; destruct_and?; repeat peel E; read_ints; repeat match goal with b : bool |- _ => destruct b end; congruence.

(** The type tag. *)
Definition tx_tag (t : Transaction) : Z :=
  match t with
  | Transfer _ => 1 | Refresh _ => 2 | CreateObject _ => 3 | DeployContract _ => 4 | CallContract _ => 5
  | DeployScript _ => 6 | CallScript _ => 7 | ValidatorStake _ => 8 | ValidatorExit _ => 9 | Shield _ => 10
  | Unshield _ => 11 | PrivateTransfer _ => 12 | Deferred _ => 13 | Blob _ => 14 | ValidatorClaimStake _ => 15
  | Governance _ => 16 | MultiSig _ => 17 | UserOp _ => 18 | UpgradeContract _ => 19 | Delegate _ => 20
  | Undelegate _ => 21 | RotateValidatorKey _ => 22 | ClaimDelegation _ => 23 | Refund _ => 24 | DeployTemplate _ => 25
  end.

#[local] Opaque to_le_bytes bytes_of_string.

Section signing.
Context `{CurveJson}.

Lemma signable_tag t : head (signable_bytes t) = Some (tx_tag t).
Proof. by destruct t. Qed.

Lemma signable_framed t u b b' :
  tx_wf t -> tx_wf u -> signed_part t = Some b -> signed_part u = Some b' ->
  signable_bytes t = signable_bytes u -> b = b'.
Proof.
  intros Ht Hu Hb Hb' E. assert (Hk : tx_tag t = tx_tag u).
  { apply (f_equal head) in E. rewrite !signable_tag in E. congruence. }
  destruct t as [[]|[]|[]|[]|[]|[]|[]|[]|[]|[]|[]|[]|[]|[]|[]|[[]]|[]|[]|[]|[]|[]|[]|[]|[]|[]]; try discriminate Hb;
    destruct u as [[]|[]|[]|[]|[]|[]|[]|[]|[]|[]|[]|[]|[]|[]|[]|[[]]|[]|[]|[]|[]|[]|[]|[]|[]|[]]; try discriminate Hk;
    try discriminate Hb'; injection Hb as <-; injection Hb' as <-; same_fields E.
Qed.

Lemma signing_message_inj c c' t u :
  short (bytes_of_string c) -> short (bytes_of_string c') -> signing_message c t = signing_message c' u ->
  c = c' /\ signable_bytes t = signable_bytes u.
Proof. intros Hc Hc' [E ?]%u32_prefixed_inj; [|done..]. by apply bytes_of_string_inj in E. Qed.


(** The remaining kinds are not framed.  The same signature covers a contract
    call with bytes moved between method and arguments, a proposal with bytes moved
    between title, key and value, an operation whose paymaster is read as call data,
    and a stake transaction with any other consensus key. *)
Theorem signing_ambiguous c :
  (forall caller id m m' args e sig pk,
     signing_message c (CallContract {| cc_caller := caller; cc_contract_id := id; cc_method := String.append m m';
       cc_args := args; cc_epoch := e; cc_signature := sig; cc_public_key := pk |})
     = signing_message c (CallContract {| cc_caller := caller; cc_contract_id := id; cc_method := m;
       cc_args := String.append m' args; cc_epoch := e; cc_signature := sig; cc_public_key := pk |})) /\
  (forall sender n title k k' v epochs sig pk,
     signing_message c (Governance {| gv_action := CreateProposal title (String.append k k') v epochs;
       gv_sender := sender; gv_nonce := n; gv_signature := sig; gv_public_key := pk |})
     = signing_message c (Governance {| gv_action := CreateProposal title k (String.append k' v) epochs;
       gv_sender := sender; gv_nonce := n; gv_signature := sig; gv_public_key := pk |})) /\
  (forall sender n data gas pm pmn pd ps pp sig pk,
     signing_message c (UserOp {| uo_sender := sender; uo_nonce := n; uo_call_data := data; uo_call_gas_limit := gas;
       uo_paymaster := Some pm; uo_paymaster_nonce := pmn; uo_paymaster_data := pd; uo_paymaster_signature := ps;
       uo_paymaster_public_key := pp; uo_signature := sig; uo_public_key := pk |})
     = signing_message c (UserOp {| uo_sender := sender; uo_nonce := n; uo_call_data := data ++ pm;
       uo_call_gas_limit := gas; uo_paymaster := None; uo_paymaster_nonce := pmn; uo_paymaster_data := pd;
       uo_paymaster_signature := ps; uo_paymaster_public_key := pp; uo_signature := sig; uo_public_key := pk |})) /\
  (forall addr amount id n vrf sig pk bls bls',
     signing_message c (ValidatorStake {| vs_validator_address := addr; vs_stake_amount := amount;
       vs_validator_id := id; vs_nonce := n; vs_bls_public_key := bls; vs_vrf_public_key := vrf;
       vs_signature := sig; vs_public_key := pk |})
     = signing_message c (ValidatorStake {| vs_validator_address := addr; vs_stake_amount := amount;
       vs_validator_id := id; vs_nonce := n; vs_bls_public_key := bls'; vs_vrf_public_key := vrf;
       vs_signature := sig; vs_public_key := pk |})).
Proof.
  unfold signing_message.
  split_and!; intros; f_equal; cbn; rewrite ?bytes_of_string_app, <- ?app_assoc, ?app_nil_r; reflexivity.
Qed.
End signing.

(** ** Concrete transactions *)

Module ToyTx.
Definition a : bytes := replicate 32 1.
Definition b : bytes := replicate 32 2.
Definition pay (from : bytes) (amount nonce : Z) : Transaction :=
  Transfer {| tr_from := from; tr_to := b; tr_amount := amount; tr_nonce := nonce; tr_signature := None;
              tr_public_key := None; tr_mev_refund_eligible := None |}.
End ToyTx.

#[global] Instance toy_curve_json : CurveJson := fun _ => None.

