(* ===== verification/Mempool.v ===== *)
(** * Mempool

    crates/evaporchain-consensus/src/mempool.rs: admission with its limits,
    age-based eviction, and the draws that fill a block. *)

From stdpp Require Import base gmap list strings sorting.
From Stdlib Require Import ZArith Lia.
From S2P Require Import Prelude Energy DecayCurves Types Trie Transactions.

Open Scope Z_scope.

(** ** Limits *)

Definition MAX_MEMPOOL_SIZE : Z := 10000.
Definition MAX_TX_SIZE_BYTES : Z := 128 * 1024.
Definition MAX_MEMPOOL_BYTES : Z := 256 * 1024 * 1024.
Definition MAX_TXS_PER_ACCOUNT : Z := 64.
Definition MAX_TX_AGE_EPOCHS : Z := 256.
Definition BASE_INCLUSION_ENERGY : Z := 1000000.
Definition MEV_INCLUSION_HALF_LIFE_BLOCKS : Z := 4.

Record Mempool := {
  pending : list Transaction;
  seen : gset bytes;
  total_bytes : Z;
  max_size : Z;
  rejected_count : Z;
  duplicate_count : Z;
  account_tx_count : gmap bytes Z;
  tx_submit_epoch : gmap bytes Z;
  m_epoch : Z;
  verify_signatures : bool;
  m_chain_id : string;
}.

(** The hybrid signature scheme of the crypto crate. *)
Class HybridVerifier := hybrid_verify : bytes -> bytes -> bytes -> bool.

Definition size (b : bytes) : Z := Z.of_nat (length b).
Definition osize (o : option bytes) : Z := match o with Some b => size b | None => 0 end.
Definition ssize (s : string) : Z := Z.of_nat (String.length s).
Definition count {A} (l : list A) : Z := Z.of_nat (length l).

Definition estimate_tx_size (t : Transaction) : Z :=
  match t with
  | Transfer t => 64 + 8 + 8 + osize (tr_signature t) + osize (tr_public_key t)
  | CreateObject t => 32 + 32 + 8 + 8 + size (co_data t) + osize (co_signature t) + osize (co_public_key t)
  | Refresh t => 32 + 8 + osize (rf_signature t) + osize (rf_public_key t)
  | DeployContract t =>
      32 + ssize (dc_template t) + ssize (dc_init_args t) + 16 + osize (dc_signature t) + osize (dc_public_key t)
  | CallContract t =>
      32 + 32 + ssize (cc_method t) + ssize (cc_args t) + 16 + osize (cc_signature t) + osize (cc_public_key t)
  | DeployScript t => 32 + ssize (ds_source_code t) + 16 + osize (ds_signature t) + osize (ds_public_key t)
  | CallScript t =>
      32 + 8 + ssize (cs_method t) + ssize (cs_args t) + 16 + osize (cs_signature t) + osize (cs_public_key t)
  | ValidatorStake t =>
      32 + 8 + 8 + 8 + osize (vs_bls_public_key t) + osize (vs_signature t) + osize (vs_public_key t)
  | ValidatorExit t => 32 + 8 + 8 + osize (ve_signature t) + osize (ve_public_key t)
  | ValidatorClaimStake t => 32 + 8 + 8 + osize (vc_signature t) + osize (vc_public_key t)
  | Shield t => 32 + 8 + 8 + 32 + 32 + 8 + osize (sh_signature t) + osize (sh_public_key t)
  | Unshield t => 32 + 8 + 32 + 32 + count (us_input_nullifiers t) * 32 + count (us_change_commitments t) * 32
  | PrivateTransfer t => 32 + 32 + 8 + count (pt_input_nullifiers t) * 32 + count (pt_output_commitments t) * 32
  | Deferred t => 32 + 8 + 8 + count (df_guards t) * 50 + size (df_inner_tx_bytes t)
  | Blob t => 32 + size (bl_data t) + 8 + 8 + osize (bl_signature t) + osize (bl_public_key t)
  | Governance t => 32 + 8 + 64 + osize (gv_signature t) + osize (gv_public_key t)
  | MultiSig t =>
      32 + 1 + 8 + count (ms_signers t) * 32 + size (ms_inner_tx_bytes t) + count (ms_signatures t) * 64
  | UserOp t => 32 + 8 + 8 + size (uo_call_data t) + osize (uo_signature t) + osize (uo_public_key t)
  | UpgradeContract t => 32 + 8 + 8 + size (uc_new_bytecode t) + osize (uc_signature t) + osize (uc_public_key t)
  | Delegate t => 32 + 8 + 8 + 8 + osize (dl_signature t) + osize (dl_public_key t)
  | Undelegate t => 32 + 8 + 8 + 8 + osize (ud_signature t) + osize (ud_public_key t)
  | RotateValidatorKey t =>
      32 + 8 + 8 + 8 + size (rk_new_bls_public_key t) + size (rk_bls_pop_old t) + size (rk_bls_pop_new t)
        + osize (rk_signature t) + osize (rk_public_key t)
  | ClaimDelegation t => 32 + 8 + 8 + osize (cd_signature t) + osize (cd_public_key t)
  | Refund _ => 32 + 32 + 8 + 32
  | DeployTemplate t => 32 + 4 + 8 + 8 + size (dt_params t) + osize (dt_signature t) + osize (dt_public_key t)
  end.

Definition estimate_tx_gas (t : Transaction) : Z :=
  match t with
  | Transfer _ => 21000
  | CreateObject t => 50000 + 200 * size (co_data t)
  | Refresh _ => 30000
  | DeployContract _ => 100000
  | CallContract _ => 40000
  | DeployScript _ => 150000
  | CallScript _ => 50000
  | ValidatorStake _ => 50000
  | ValidatorExit _ => 30000
  | ValidatorClaimStake _ => 30000
  | Shield _ => 60000
  | Unshield _ => 80000
  | PrivateTransfer t => 100000 + 20000 * count (pt_input_nullifiers t) + 15000 * count (pt_output_commitments t)
  | Deferred t => 75000 + 5000 * count (df_guards t)
  | Blob t => 50000 + 10 * size (bl_data t)
  | Governance _ => 25000
  | MultiSig _ => 50000
  | UserOp t => 30000 + 16 * size (uo_call_data t)
  | UpgradeContract t => 100000 + 200 * size (uc_new_bytecode t)
  | Delegate _ => 40000
  | Undelegate _ => 40000
  | RotateValidatorKey _ => 80000
  | ClaimDelegation _ => 30000
  | Refund _ => 21000
  | DeployTemplate t => 50000 + 50 * size (dt_params t)
  end.

(** The parallel executor's schedule, which the proposal check uses. *)
Definition GAS_CREATE_OBJECT_BASE : Z := 50000.
Definition GAS_CREATE_OBJECT_PER_BYTE : Z := 200.
Definition GAS_USER_OP : Z := 30000.
Definition GAS_UPGRADE_CONTRACT : Z := 100000.
Definition GAS_REFUND : Z := 5000.

Definition estimate_private_transfer_gas (t : PrivateTransferTx) : Z :=
  saturating_add (saturating_add 100000 (saturating_mul 20000 (count (pt_input_nullifiers t))))
    (saturating_mul 15000 (count (pt_output_commitments t))).

Definition estimate_gas (t : Transaction) : Z :=
  match t with
  | Transfer _ => 21000
  | CreateObject t => as_u64 (GAS_CREATE_OBJECT_BASE + GAS_CREATE_OBJECT_PER_BYTE * size (co_data t))
  | Refresh _ => 30000
  | DeployContract _ => 100000
  | CallContract _ => 40000
  | DeployScript _ => 150000
  | CallScript _ => 50000
  | ValidatorStake _ => 50000
  | ValidatorExit _ => 30000
  | ValidatorClaimStake _ => 30000
  | Shield _ => 60000
  | Unshield _ => 80000
  | PrivateTransfer t => estimate_private_transfer_gas t
  | Deferred t => as_u64 (75000 + 5000 * count (df_guards t))
  | Blob t => as_u64 (GAS_CREATE_OBJECT_BASE + GAS_CREATE_OBJECT_PER_BYTE * size (bl_data t))
  | Governance _ => 25000
  | MultiSig _ => 50000
  | UserOp t => saturating_add GAS_USER_OP (wrapping_mul (size (uo_call_data t)) 16)
  | UpgradeContract t => saturating_add GAS_UPGRADE_CONTRACT (wrapping_mul (size (uc_new_bytecode t)) 200)
  | Delegate _ => 40000
  | Undelegate _ => 40000
  | RotateValidatorKey _ => 80000
  | ClaimDelegation _ => 30000
  | Refund _ => GAS_REFUND
  | DeployTemplate t => saturating_add 50000 (saturating_mul 50 (size (dt_params t)))
  end.

(** ** Construction and settings *)

Definition with_max_size (n : Z) : Mempool :=
  {| pending := []; seen := ∅; total_bytes := 0; max_size := n; rejected_count := 0; duplicate_count := 0;
     account_tx_count := ∅; tx_submit_epoch := ∅; m_epoch := 0; verify_signatures := false; m_chain_id := "" |}.

Definition mempool_new : Mempool := with_max_size MAX_MEMPOOL_SIZE.

Definition set_chain_id (c : string) (m : Mempool) : Mempool :=
  {| pending := pending m; seen := seen m; total_bytes := total_bytes m; max_size := max_size m;
     rejected_count := rejected_count m; duplicate_count := duplicate_count m;
     account_tx_count := account_tx_count m; tx_submit_epoch := tx_submit_epoch m; m_epoch := m_epoch m;
     verify_signatures := verify_signatures m; m_chain_id := c |}.

Definition enable_sig_verification (m : Mempool) : Mempool :=
  {| pending := pending m; seen := seen m; total_bytes := total_bytes m; max_size := max_size m;
     rejected_count := rejected_count m; duplicate_count := duplicate_count m;
     account_tx_count := account_tx_count m; tx_submit_epoch := tx_submit_epoch m; m_epoch := m_epoch m;
     verify_signatures := true; m_chain_id := m_chain_id m |}.

(** Assignments. *)
Definition set_counters (rejected duplicate : Z) (m : Mempool) : Mempool :=
  {| pending := pending m; seen := seen m; total_bytes := total_bytes m; max_size := max_size m;
     rejected_count := rejected; duplicate_count := duplicate;
     account_tx_count := account_tx_count m; tx_submit_epoch := tx_submit_epoch m; m_epoch := m_epoch m;
     verify_signatures := verify_signatures m; m_chain_id := m_chain_id m |}.
Definition set_accounts (a : gmap bytes Z) (m : Mempool) : Mempool :=
  {| pending := pending m; seen := seen m; total_bytes := total_bytes m; max_size := max_size m;
     rejected_count := rejected_count m; duplicate_count := duplicate_count m;
     account_tx_count := a; tx_submit_epoch := tx_submit_epoch m; m_epoch := m_epoch m;
     verify_signatures := verify_signatures m; m_chain_id := m_chain_id m |}.
Definition set_index (s : gset bytes) (e : gmap bytes Z) (m : Mempool) : Mempool :=
  {| pending := pending m; seen := s; total_bytes := total_bytes m; max_size := max_size m;
     rejected_count := rejected_count m; duplicate_count := duplicate_count m;
     account_tx_count := account_tx_count m; tx_submit_epoch := e; m_epoch := m_epoch m;
     verify_signatures := verify_signatures m; m_chain_id := m_chain_id m |}.
Definition set_pending (l : list Transaction) (n : Z) (m : Mempool) : Mempool :=
  {| pending := l; seen := seen m; total_bytes := n; max_size := max_size m;
     rejected_count := rejected_count m; duplicate_count := duplicate_count m;
     account_tx_count := account_tx_count m; tx_submit_epoch := tx_submit_epoch m; m_epoch := m_epoch m;
     verify_signatures := verify_signatures m; m_chain_id := m_chain_id m |}.
Definition set_current_epoch (e : Z) (m : Mempool) : Mempool :=
  {| pending := pending m; seen := seen m; total_bytes := total_bytes m; max_size := max_size m;
     rejected_count := rejected_count m; duplicate_count := duplicate_count m;
     account_tx_count := account_tx_count m; tx_submit_epoch := tx_submit_epoch m; m_epoch := e;
     verify_signatures := verify_signatures m; m_chain_id := m_chain_id m |}.

Section mempool.
Context `{CurveJson, Blake3, HybridVerifier}.

(** ** Admission *)

Inductive Verdict := Admit | Reject | Duplicate.

(** The signature rule, when verification is on. *)
Definition signature_ok (m : Mempool) (t : Transaction) : bool :=
  match t with
  | Unshield _ | PrivateTransfer _ => true
  | _ =>
      match tx_signature t, tx_public_key t with
      | Some sig, Some pk =>
          hybrid_verify (signing_message (m_chain_id m) t) sig pk &&
          match match t with
                | MultiSig _ => None
                | UserOp t => Some (uo_sender t)
                | _ => tx_sender t
                end with
          | Some claimed => bool_decide (address_from_pubkey pk = claimed)
          | None => true
          end
      | None, _ => bool_decide (tx_sender t = None)
      | Some _, None => true
      end
  end.

(** The checks in order. *)
Definition verdict (m : Mempool) (t : Transaction) : Verdict :=
  if decide (tx_hash t ∈ seen m) then Duplicate
  else if max_size m <=? Z.of_nat (length (pending m)) then Reject
  else if match t with Shield _ | Unshield _ | PrivateTransfer _ => true | _ => false end then Reject
  else if match t with Blob b => bl_namespace_id b =? 0 | _ => false end then Reject
  else if MAX_TX_SIZE_BYTES <? estimate_tx_size t then Reject
  else if MAX_MEMPOOL_BYTES <? saturating_add (total_bytes m) (estimate_tx_size t) then Reject
  else if match tx_sender t with
          | Some a => MAX_TXS_PER_ACCOUNT <=? default 0 (account_tx_count m !! a)
          | None => false
          end then Reject
  else if verify_signatures m && negb (signature_ok m t) then Reject
  else Admit.

Definition validate_submission (t : Transaction) (m : Mempool) : Mempool * bool :=
  match verdict m t with
  | Duplicate => (set_counters (rejected_count m) (wrapping_add (duplicate_count m) 1) m, false)
  | Reject => (set_counters (wrapping_add (rejected_count m) 1) (duplicate_count m) m, false)
  | Admit => (m, true)
  end.

Definition track_account_add (t : Transaction) (m : Mempool) : Mempool :=
  match tx_sender t with
  | Some a => set_accounts (<[ a := wrapping_add (default 0 (account_tx_count m !! a)) 1 ]> (account_tx_count m)) m
  | None => m
  end.

Definition track_account_remove (t : Transaction) (m : Mempool) : Mempool :=
  match tx_sender t with
  | Some a =>
      match account_tx_count m !! a with
      | Some c =>
          let c := saturating_sub c 1 in
          set_accounts (if c =? 0 then base.delete a (account_tx_count m) else <[ a := c ]> (account_tx_count m)) m
      | None => m
      end
  | None => m
  end.

(** What both submissions do once admitted. *)
Definition enqueue (front : bool) (t : Transaction) (m : Mempool) : Mempool :=
  let m := track_account_add t m in
  let m := set_index ({[ tx_hash t ]} ∪ seen m) (<[ tx_hash t := m_epoch m ]> (tx_submit_epoch m)) m in
  set_pending (if front then t :: pending m else pending m ++ [t])
    (wrapping_add (total_bytes m) (estimate_tx_size t)) m.

Definition submit (t : Transaction) (m : Mempool) : Mempool * bool :=
  let '(m, ok) := validate_submission t m in
  if ok then (enqueue false t m, true) else (m, false).

Definition submit_priority (t : Transaction) (m : Mempool) : Mempool * bool :=
  let '(m, ok) := validate_submission t m in
  if ok then (enqueue true t m, true) else (m, false).

(** ** Removal *)

(** Forget one transaction that left the queue. *)
Definition forget (t : Transaction) (m : Mempool) : Mempool :=
  track_account_remove t
    (set_index (seen m ∖ {[ tx_hash t ]}) (base.delete (tx_hash t) (tx_submit_epoch m)) m).

Definition forget_all (l : list Transaction) (m : Mempool) : Mempool := foldl (fun m t => forget t m) m l.

(** [pending = rest; total_bytes = sum]. *)
Definition requeue (rest : list Transaction) (m : Mempool) : Mempool :=
  set_pending rest (sumZ (estimate_tx_size <$> rest)) m.

Definition submitted_at (m : Mempool) (t : Transaction) (d : Z) : Z :=
  default d (tx_submit_epoch m !! tx_hash t).

Definition evict_expired (m : Mempool) : Mempool :=
  if m_epoch m <? MAX_TX_AGE_EPOCHS then m
  else
    let cutoff := m_epoch m - MAX_TX_AGE_EPOCHS in
    let evicted := filter (fun t => submitted_at m t 0 < cutoff) (pending m) in
    let kept := filter (fun t => ~ submitted_at m t 0 < cutoff) (pending m) in
    requeue kept (forget_all evicted m).

Definition set_epoch (e : Z) (m : Mempool) : Mempool := evict_expired (set_current_epoch e m).

Definition drain (m : Mempool) : Mempool * list Transaction :=
  (set_pending [] 0 (set_index ∅ ∅ (set_accounts ∅ m)), pending m).

(** ** Draws *)

Definition sender_key (t : Transaction) : bytes := default (replicate 32 255) (tx_sender t).
Definition nonce_key (t : Transaction) : Z := default 0 (tx_nonce t).

(** [sender.cmp().then(nonce).then(hash)], as "not greater". *)
Definition nonce_leb (a b : Transaction) : bool :=
  if bytes_leb (sender_key a) (sender_key b) then
    if bytes_leb (sender_key b) (sender_key a) then
      if nonce_key a =? nonce_key b then bytes_leb (tx_hash a) (tx_hash b)
      else nonce_key a <? nonce_key b
    else true
  else false.

Definition nonce_le (a b : Transaction) : Prop := Is_true (nonce_leb a b).

Definition sort_nonce_aware (l : list Transaction) : list Transaction := merge_sort nonce_le l.

Definition take (n : nat) (m : Mempool) : Mempool * list Transaction :=
  let l := sort_nonce_aware (pending m) in
  let taken := firstn n l in
  (requeue (skipn n l) (forget_all taken m), taken).

Definition take_with_hashes (n : nat) (m : Mempool) : Mempool * list (bytes * Transaction) :=
  let '(m, taken) := take n m in (m, (fun t => (tx_hash t, t)) <$> taken).

Definition priority_of (m : Mempool) (current_block : Z) (t : Transaction) : Z :=
  energy_at_epoch BASE_INCLUSION_ENERGY MEV_INCLUSION_HALF_LIFE_BLOCKS
    (saturating_sub current_block (submitted_at m t current_block)).

(** Priority first, descending, then the order above. *)
Definition priority_leb (m : Mempool) (current_block : Z) (a b : Transaction) : bool :=
  let pa := priority_of m current_block a in
  let pb := priority_of m current_block b in
  if pa =? pb then nonce_leb a b else pb <? pa.

Definition priority_le (m : Mempool) (current_block : Z) (a b : Transaction) : Prop :=
  Is_true (priority_leb m current_block a b).

Definition take_with_priority_sum_and_hints (n : nat) (current_block : Z) (m : Mempool)
  : Mempool * (list Transaction * Z * list Z) :=
  let l := merge_sort (priority_le m current_block) (pending m) in
  let taken := firstn n l in
  let hints := (fun t => submitted_at m t current_block) <$> taken in
  let sum := foldl saturating_add 0 (priority_of m current_block <$> taken) in
  (requeue (skipn n l) (forget_all taken m), (taken, sum, hints)).

Definition take_with_priority_and_sum (n : nat) (current_block : Z) (m : Mempool)
  : Mempool * (list Transaction * Z) :=
  let '(m, (txs, sum, _)) := take_with_priority_sum_and_hints n current_block m in (m, (txs, sum)).

Definition take_with_priority (n : nat) (current_block : Z) (m : Mempool) : Mempool * list Transaction :=
  let '(m, (txs, _)) := take_with_priority_and_sum n current_block m in (m, txs).

(** The loop of [take_with_gas_limit]: taken, remaining. *)
Fixpoint gas_loop (max_txs : nat) (gas_limit : Z) (l : list Transaction) (taken : nat) (gas_used : Z)
  : list Transaction * list Transaction :=
  match l with
  | [] => ([], [])
  | t :: l' =>
      let g := estimate_tx_gas t in
      if (taken <? max_txs)%nat && (saturating_add gas_used g <=? gas_limit) then
        let '(a, b) := gas_loop max_txs gas_limit l' (S taken) (wrapping_add gas_used g) in (t :: a, b)
      else
        let '(a, b) := gas_loop max_txs gas_limit l' taken gas_used in (a, t :: b)
  end.

Definition take_with_gas_limit (max_txs : nat) (gas_limit : Z) (m : Mempool) : Mempool * list Transaction :=
  let '(taken, remaining) := gas_loop max_txs gas_limit (sort_nonce_aware (pending m)) 0 0 in
  (requeue remaining (forget_all taken m), taken).

Definition mempool_len (m : Mempool) : Z := Z.of_nat (length (pending m)).
Definition contains_hash (m : Mempool) (h : bytes) : bool := bool_decide (h ∈ seen m).

(** One transaction per sender, in order. *)
Fixpoint antichain_loop (l : list (Transaction * Z)) (senders : gset bytes)
  : list Transaction * list Z * list Transaction :=
  match l with
  | [] => ([], [], [])
  | (t, hint) :: l' =>
      let keep s := let '(txs, hints, dropped) := antichain_loop l' s in (t :: txs, hint :: hints, dropped) in
      match tx_sender t with
      | Some a =>
          if decide (a ∈ senders) then
            let '(txs, hints, dropped) := antichain_loop l' senders in (txs, hints, t :: dropped)
          else keep ({[ a ]} ∪ senders)
      | None => keep senders
      end
  end.

Definition antichain_project (candidates : list Transaction) (hints : list Z)
  : list Transaction * list Z * list Transaction := antichain_loop (zip candidates hints) ∅.
End mempool.

(** ** The pool's bookkeeping *)

Section invariant.
Context `{CurveJson, Blake3, HybridVerifier}.

(** How many queued transactions a sender pays for. *)
Definition sent_by (a : bytes) (l : list Transaction) : Z :=
  Z.of_nat (length (filter (fun t => tx_sender t = Some a) l)).

(** The hash set, the submission epochs and the account counters describe
    exactly the transactions of [l]. *)
Record indexes (l : list Transaction) (m : Mempool) : Prop := {
  ix_seen : forall h, h ∈ seen m <-> h ∈ tx_hash <$> l;
  ix_epochs : forall h, is_Some (tx_submit_epoch m !! h) <-> h ∈ seen m;
  ix_counts : forall a, account_tx_count m !! a = if sent_by a l =? 0 then None else Some (sent_by a l);
}.

(** What admission lets in. *)
Definition admissible (t : Transaction) : Prop :=
  estimate_tx_size t <= MAX_TX_SIZE_BYTES /\
  match t with
  | Shield _ | Unshield _ | PrivateTransfer _ => False
  | Blob b => bl_namespace_id b <> 0
  | _ => True
  end.

Record pool_ok (m : Mempool) : Prop := {
  po_nodup : NoDup (tx_hash <$> pending m);
  po_index : indexes (pending m) m;
  po_bytes : total_bytes m = sumZ (estimate_tx_size <$> pending m);
  po_max_bytes : total_bytes m <= MAX_MEMPOOL_BYTES;
  po_accounts : forall a, sent_by a (pending m) <= MAX_TXS_PER_ACCOUNT;
  po_length : mempool_len m <= Z.max 0 (max_size m);
  po_admissible : Forall admissible (pending m);
}.

Lemma estimate_tx_size_nonneg t : 0 <= estimate_tx_size t.
Proof.
  assert (Ho : forall o, 0 <= osize o) by (intros [b|]; unfold osize, size; lia).
  destruct t; simpl; unfold size, ssize, count;
    repeat match goal with |- context [osize ?o] => pose proof (Ho o); generalize dependent (osize o); intros end; lia.
Qed.

Lemma sizes_nonneg l : 0 <= sumZ (estimate_tx_size <$> l).
Proof. apply sumZ_nonneg, Forall_fmap, Forall_forall. intros t _. apply estimate_tx_size_nonneg. Qed.

Lemma sent_by_cons a t l :
  sent_by a (t :: l) = (if decide (tx_sender t = Some a) then 1 else 0) + sent_by a l.
Proof. unfold sent_by. rewrite filter_cons. case_decide; simpl; lia. Qed.

Lemma sent_by_nonneg a l : 0 <= sent_by a l.
Proof. unfold sent_by. lia. Qed.

#[local] Instance sent_by_perm a : Proper (Permutation ==> eq) (sent_by a).
Proof. intros l k E. unfold sent_by. by rewrite E. Qed.

Lemma indexes_perm l k m : l ≡ₚ k -> indexes l m -> indexes k m.
Proof.
  intros E [Hs He Hc]. split; [|done|].
  - intros h. by rewrite Hs, E.
  - intros a. by rewrite Hc, (sent_by_perm a _ _ E).
Qed.

(** Forgetting a transaction of the queue. *)
Lemma indexes_forget t l m :
  NoDup (tx_hash <$> t :: l) -> indexes (t :: l) m -> indexes l (forget t m).
Proof.
  intros [Hn _]%NoDup_cons [Hs He Hc].
  assert (Hf : seen (forget t m) = seen m ∖ {[ tx_hash t ]} /\
    tx_submit_epoch (forget t m) = base.delete (tx_hash t) (tx_submit_epoch m)).
  { unfold forget, track_account_remove. by repeat case_match. }
  destruct Hf as [Hfs Hfe]. split.
  - intros h. rewrite Hfs, elem_of_difference, elem_of_singleton, Hs. csimpl. rewrite elem_of_cons.
    split; [naive_solver|]. intros Hh. split; [by right|]. by intros ->.
  - intros h. rewrite Hfs, Hfe, elem_of_difference, elem_of_singleton, <- He.
    destruct (decide (h = tx_hash t)) as [->|Hne].
    + rewrite lookup_delete_eq. split; [by intros [? ?]|naive_solver].
    + rewrite lookup_delete_ne by done. naive_solver.
  - intros a. unfold forget, track_account_remove. cbn [account_tx_count set_index].
    specialize (Hc a) as Ha. rewrite sent_by_cons in Ha. pose proof (sent_by_nonneg a l).
    destruct (tx_sender t) as [b|] eqn:Eb; [|by rewrite decide_False in Ha by congruence].
    destruct (decide (b = a)) as [->|Hne].
    + rewrite decide_True in Ha by done. destruct (Z.eqb_spec (1 + sent_by a l) 0); [lia|].
      rewrite Ha. cbn [account_tx_count set_accounts]. rewrite saturating_sub_exact by lia.
      replace (1 + sent_by a l - 1) with (sent_by a l) by lia.
      destruct (sent_by a l =? 0); [apply lookup_delete_eq|apply lookup_insert_eq].
    + rewrite decide_False in Ha by congruence. destruct (account_tx_count m !! b); [|exact Ha].
      cbn [account_tx_count set_accounts].
      case (saturating_sub _ 1 =? 0); [rewrite lookup_delete_ne by done|rewrite lookup_insert_ne by done]; exact Ha.
Qed.

Lemma indexes_forget_all l k m :
  NoDup (tx_hash <$> l ++ k) -> indexes (l ++ k) m -> indexes k (forget_all l m).
Proof.
  revert m. induction l as [|t l IH]; intros m Hn Hi; [done|]. simpl in *.
  apply IH; [by apply NoDup_cons in Hn as [_ ?]|]. by apply indexes_forget.
Qed.

(** Everything else is untouched. *)
Lemma forget_all_same l m :
  pending (forget_all l m) = pending m /\ max_size (forget_all l m) = max_size m.
Proof.
  revert m. induction l as [|t l IH]; intros m; [done|]. simpl. destruct (IH (forget t m)) as [-> ->].
  unfold forget, track_account_remove. by repeat case_match.
Qed.

(** A draw that splits the queue keeps the bookkeeping exact. *)
Lemma requeue_ok taken rest m :
  taken ++ rest ≡ₚ pending m -> pool_ok m -> pool_ok (requeue rest (forget_all taken m)).
Proof.
  intros E [Hn Hi Hb Hm Ha Hl Hf]. destruct (forget_all_same taken m) as [_ Hmax].
  assert (Hn' : NoDup (tx_hash <$> taken ++ rest)) by (by rewrite E).
  assert (Hr : indexes rest (forget_all taken m)).
  { apply indexes_forget_all; [done|]. by apply (indexes_perm (pending m)). }
  rewrite <- E in Hb, Hf. rewrite fmap_app, sumZ_app in Hb. pose proof (sizes_nonneg taken).
  split; cbn [pending total_bytes max_size requeue set_pending].
  - rewrite fmap_app in Hn'. by apply NoDup_app in Hn' as (_ & _ & ?).
  - by destruct Hr.
  - done.
  - lia.
  - intros a. specialize (Ha a). rewrite <- (sent_by_perm a _ _ E) in Ha. unfold sent_by in *.
    rewrite filter_app, length_app in Ha. lia.
  - unfold mempool_len in *. cbn. rewrite Hmax. rewrite <- (Permutation_length E), length_app in Hl. lia.
  - by apply Forall_app in Hf as [_ ?].
Qed.

(** The verdict says what admission checked. *)
Lemma verdict_admit m t :
  verdict m t = Admit ->
  (tx_hash t ∉ seen m) /\ mempool_len m < max_size m /\ admissible t /\
  saturating_add (total_bytes m) (estimate_tx_size t) <= MAX_MEMPOOL_BYTES /\
  (forall a, tx_sender t = Some a -> default 0 (account_tx_count m !! a) < MAX_TXS_PER_ACCOUNT) /\
  (verify_signatures m = true -> signature_ok m t = true).
Proof.
  unfold verdict, admissible, mempool_len. intros E.
  destruct (decide (tx_hash t ∈ seen m)) as [|Hs]; [done|].
  destruct (Z.leb_spec (max_size m) (Z.of_nat (length (pending m)))); [done|].
  destruct (match t with Shield _ | Unshield _ | PrivateTransfer _ => true | _ => false end) eqn:Ek; [done|].
  destruct (match t with Blob b => bl_namespace_id b =? 0 | _ => false end) eqn:En; [done|].
  destruct (Z.ltb_spec MAX_TX_SIZE_BYTES (estimate_tx_size t)); [done|].
  destruct (Z.ltb_spec MAX_MEMPOOL_BYTES (saturating_add (total_bytes m) (estimate_tx_size t))); [done|].
  destruct (match tx_sender t with Some a => _ | None => _ end) eqn:Ea; [done|].
  destruct (verify_signatures m && negb (signature_ok m t)) eqn:Es; [done|].
  split_and!; try done.
  - destruct t; try done. by apply Z.eqb_neq in En.
  - intros a Hs'. rewrite Hs' in Ea. by apply Z.leb_gt in Ea.
  - intros Hv. rewrite Hv in Es. by destruct (signature_ok m t).
Qed.

Lemma admit_ok front t m : pool_ok m -> verdict m t = Admit -> pool_ok (enqueue front t m).
Proof.
  intros [Hn Hi Hb Hm Ha Hl Hf] (Hs & Hlen & Had & Hbytes & Hacc & _)%verdict_admit.
  set (k := if front then t :: pending m else pending m ++ [t]).
  assert (Ek : t :: pending m ≡ₚ k) by (unfold k; destruct front; [done|apply Permutation_cons_append]).
  assert (Hc : forall a, default 0 (account_tx_count m !! a) = sent_by a (pending m)).
  { intros a. rewrite (ix_counts _ _ Hi). destruct (Z.eqb_spec (sent_by a (pending m)) 0); simpl; lia. }
  assert (Hfields : seen (enqueue front t m) = {[ tx_hash t ]} ∪ seen m /\
    tx_submit_epoch (enqueue front t m) = <[ tx_hash t := m_epoch m ]> (tx_submit_epoch m) /\
    pending (enqueue front t m) = k /\ max_size (enqueue front t m) = max_size m /\
    total_bytes (enqueue front t m) = total_bytes m + estimate_tx_size t /\
    account_tx_count (enqueue front t m) = match tx_sender t with
      | Some a => <[ a := sent_by a (pending m) + 1 ]> (account_tx_count m) | None => account_tx_count m end).
  { pose proof (estimate_tx_size_nonneg t). pose proof (sizes_nonneg (pending m)).
    unfold saturating_add in Hbytes. unfold MAX_MEMPOOL_BYTES, U64_MAX in *.
    unfold enqueue, track_account_add, wrapping_add, k. destruct (tx_sender t) as [a|] eqn:Ea; split_and!; try done; cbn.
    1,3: apply as_u64_small; unfold is_u64, U64_MAX; lia.
    rewrite (Hc a). f_equal. apply as_u64_small. specialize (Hacc a eq_refl). rewrite (Hc a) in Hacc.
    pose proof (sent_by_nonneg a (pending m)). unfold is_u64, U64_MAX, MAX_TXS_PER_ACCOUNT in *. lia. }
  destruct Hfields as (Fs & Fe & Fp & Fx & Fb & Fa). split.
  - rewrite Fp, <- Ek. csimpl. apply NoDup_cons. split; [|done]. by rewrite <- (ix_seen _ _ Hi).
  - rewrite Fp. apply (indexes_perm (t :: pending m)); [done|]. split.
    + intros h. rewrite Fs, elem_of_union, elem_of_singleton, (ix_seen _ _ Hi). csimpl. by rewrite elem_of_cons.
    + intros h. rewrite Fe, Fs, elem_of_union, elem_of_singleton, <- (ix_epochs _ _ Hi).
      destruct (decide (h = tx_hash t)) as [->|Hne]; [rewrite lookup_insert_eq; naive_solver|].
      rewrite lookup_insert_ne by done. naive_solver.
    + intros a. rewrite Fa, sent_by_cons. pose proof (sent_by_nonneg a (pending m)). pose proof (ix_counts _ _ Hi a) as Hca.
      destruct (tx_sender t) as [b|] eqn:Eb; [|by rewrite decide_False by done].
      destruct (decide (b = a)) as [->|Hne].
      * rewrite decide_True, lookup_insert_eq by done. destruct (Z.eqb_spec (1 + sent_by a (pending m)) 0); [lia|].
        f_equal. lia.
      * rewrite decide_False, lookup_insert_ne by congruence. exact Hca.
  - rewrite Fb, Fp, <- Ek. csimpl. lia.
  - rewrite Fb. unfold saturating_add in Hbytes. unfold MAX_MEMPOOL_BYTES, U64_MAX in *. lia.
  - intros a. rewrite Fp, <- (sent_by_perm a _ _ Ek), sent_by_cons. specialize (Ha a). case_decide as Ea; [|lia].
    specialize (Hacc a Ea). rewrite (Hc a) in Hacc. lia.
  - unfold mempool_len in *. rewrite Fp, Fx, <- (Permutation_length Ek). simpl. lia.
  - rewrite Fp, <- Ek. by constructor.
Qed.

(** The counters and settings do not matter. *)
Lemma pool_ok_same m m' :
  pending m' = pending m -> seen m' = seen m -> tx_submit_epoch m' = tx_submit_epoch m ->
  account_tx_count m' = account_tx_count m -> total_bytes m' = total_bytes m -> max_size m' = max_size m ->
  pool_ok m -> pool_ok m'.
Proof.
  destruct m, m'. simpl. intros -> -> -> -> -> -> [Hn [Hs He Hc] Hb Hm Ha Hl Hf].
  by split.
Qed.

Lemma submit_with_ok front t m :
  pool_ok m ->
  pool_ok (let '(m', ok) := validate_submission t m in if ok then enqueue front t m' else m').
Proof.
  intros Hm. unfold validate_submission. destruct (verdict m t) eqn:E; [by apply admit_ok|..]; by apply (pool_ok_same m).
Qed.

Lemma gas_loop_perm n g l k u : (gas_loop n g l k u).1 ++ (gas_loop n g l k u).2 ≡ₚ l.
Proof.
  revert k u. induction l as [|t l IH]; intros k u; simpl; [done|]. case_match.
  - specialize (IH (S k) (wrapping_add u (estimate_tx_gas t))). destruct (gas_loop _ _ _ _ _) as [a b]. simpl in *. by rewrite IH.
  - specialize (IH k u). destruct (gas_loop _ _ _ _ _) as [a b]. simpl in *. by rewrite <- Permutation_middle, IH.
Qed.

Lemma firstn_skipn_sorted R `{!RelDecision R} n (l : list Transaction) :
  firstn n (merge_sort R l) ++ skipn n (merge_sort R l) ≡ₚ l.
Proof. rewrite take_drop. apply merge_sort_Permutation. Qed.

Lemma empty_pool_ok m :
  pending m = [] -> seen m = ∅ -> tx_submit_epoch m = ∅ -> account_tx_count m = ∅ -> total_bytes m = 0 -> pool_ok m.
Proof.
  destruct m. simpl. intros -> -> -> -> ->. split; unfold mempool_len; simpl; try done; try constructor; simpl.
  - intros h. set_solver.
  - intros h. rewrite lookup_empty. split; [by intros [? ?]|set_solver].
  - intros a. by rewrite lookup_empty.
  - lia.
Qed.

(** ** Histories *)

Inductive PoolOp :=
| PSubmit (t : Transaction)
| PSubmitPriority (t : Transaction)
| PSetEpoch (e : Z)
| PDrain
| PTake (n : nat)
| PTakeWithHashes (n : nat)
| PTakeWithPriority (n : nat) (current_block : Z)
| PTakeWithGas (max_txs : nat) (gas_limit : Z)
| PSetChainId (c : string)
| PEnableVerification.

Definition run_op (m : Mempool) (op : PoolOp) : Mempool :=
  match op with
  | PSubmit t => (submit t m).1
  | PSubmitPriority t => (submit_priority t m).1
  | PSetEpoch e => set_epoch e m
  | PDrain => (drain m).1
  | PTake n => (take n m).1
  | PTakeWithHashes n => (take_with_hashes n m).1
  | PTakeWithPriority n b => (take_with_priority_sum_and_hints n b m).1
  | PTakeWithGas n g => (take_with_gas_limit n g m).1
  | PSetChainId c => set_chain_id c m
  | PEnableVerification => enable_sig_verification m
  end.

Lemma run_op_ok m op : pool_ok m -> pool_ok (run_op m op).
Proof.
  intros Hm. destruct op as [t|t|e| |n|n|n b|n g|c|]; cbn [run_op].
  - pose proof (submit_with_ok false t m Hm). unfold submit. by destruct (validate_submission t m) as [m' []].
  - pose proof (submit_with_ok true t m Hm). unfold submit_priority. by destruct (validate_submission t m) as [m' []].
  - assert (He : pool_ok (set_current_epoch e m)) by (by apply (pool_ok_same m)).
    unfold set_epoch, evict_expired. case_match; [done|]. apply requeue_ok; [|done]. apply filter_app_complement.
  - by apply empty_pool_ok.
  - apply requeue_ok; [apply firstn_skipn_sorted|done].
  - unfold take_with_hashes. apply (requeue_ok (firstn n _) (skipn n _)); [apply firstn_skipn_sorted|done].
  - apply requeue_ok; [apply firstn_skipn_sorted|done].
  - unfold take_with_gas_limit. pose proof (gas_loop_perm n g (sort_nonce_aware (pending m)) 0 0) as Hp.
    destruct (gas_loop _ _ _ _ _) as [a b]. apply requeue_ok; [|done]. simpl in Hp. rewrite Hp. apply merge_sort_Permutation.
  - by apply (pool_ok_same m).
  - by apply (pool_ok_same m).
Qed.

(** C18: whatever is submitted, drawn, drained or evicted, the pool stays consistent:
    no transaction twice, the hash set, epochs and account counters describe exactly
    the queue, the byte total is the sum of the sizes, and the limits on bytes, length,
    account and transaction size hold. *)
Theorem mempool_invariant n ops : pool_ok (foldl run_op (with_max_size n) ops).
Proof.
  assert (Hm : pool_ok (with_max_size n)) by (by apply empty_pool_ok).
  revert Hm. generalize (with_max_size n). induction ops as [|op ops IH]; intros m Hm; [done|].
  simpl. by apply IH, run_op_ok.
Qed.

(** ** Order of the draws *)

#[local] Instance nonce_le_dec : RelDecision nonce_le := fun a b => Is_true_dec (nonce_leb a b).

Lemma nonce_leb_cases a b :
  nonce_leb a b = true <->
  bytes_leb (sender_key a) (sender_key b) = true /\
  (bytes_leb (sender_key b) (sender_key a) = true ->
     nonce_key a < nonce_key b \/ nonce_key a = nonce_key b /\ bytes_leb (tx_hash a) (tx_hash b) = true).
Proof.
  unfold nonce_leb. destruct (bytes_leb (sender_key a) (sender_key b)), (bytes_leb (sender_key b) (sender_key a));
    destruct (Z.eqb_spec (nonce_key a) (nonce_key b)); rewrite ?Z.ltb_lt; try naive_solver lia.
Qed.

Lemma nonce_leb_total a b : nonce_leb a b = true \/ nonce_leb b a = true.
Proof.
  rewrite !nonce_leb_cases. pose proof (bytes_leb_total (sender_key a) (sender_key b)) as Hs%orb_true_iff.
  pose proof (bytes_leb_total (tx_hash a) (tx_hash b)) as Hh%orb_true_iff.
  destruct (bytes_leb (sender_key a) (sender_key b)) eqn:E1, (bytes_leb (sender_key b) (sender_key a)) eqn:E2;
    try (by destruct Hs); destruct (Z.lt_total (nonce_key a) (nonce_key b)) as [?|[?|?]]; naive_solver.
Qed.

Lemma nonce_leb_trans a b c : nonce_leb a b = true -> nonce_leb b c = true -> nonce_leb a c = true.
Proof.
  rewrite !nonce_leb_cases. intros [Hab Nab] [Hbc Nbc]. split; [by eapply bytes_leb_trans|]. intros Hca.
  assert (Hba : bytes_leb (sender_key b) (sender_key a) = true) by (by eapply bytes_leb_trans).
  assert (Hcb : bytes_leb (sender_key c) (sender_key b) = true) by (by eapply bytes_leb_trans).
  destruct (Nab Hba) as [?|[? Ha]], (Nbc Hcb) as [?|[? Hb]]; [left; lia..|]. right. split; [lia|].
  by eapply bytes_leb_trans.
Qed.

#[local] Instance nonce_le_total : Total nonce_le.
Proof. intros a b. unfold nonce_le. rewrite !Is_true_true. apply nonce_leb_total. Qed.
#[local] Instance nonce_le_trans : Transitive nonce_le.
Proof. intros a b c. unfold nonce_le. rewrite !Is_true_true. apply nonce_leb_trans. Qed.

Lemma sorted_nth {A} (R : relation A) l i j x y :
  StronglySorted R l -> l !! i = Some x -> l !! j = Some y -> (i < j)%nat -> R x y.
Proof.
  intros Hs. revert i j. induction Hs as [|z l Hs IH Hz]; intros [|i] [|j] Hi Hj Hij; simplify_eq/=; try lia.
  - rewrite Forall_forall in Hz. apply Hz. by eapply list_elem_of_lookup_2.
  - apply (IH i j); [done|done|lia].
Qed.

(** Drawing by nonce takes a prefix of the pool in an order that respects every
    sender's nonces: what is drawn and what stays are the whole pool, and of two
    transactions of one sender the smaller nonce comes first, drawn or left. *)
Theorem take_nonce_order n m :
  let '(m', taken) := take n m in
  taken ++ pending m' ≡ₚ pending m /\ length taken = min n (length (pending m)) /\
  forall i j a b, (taken ++ pending m') !! i = Some a -> (taken ++ pending m') !! j = Some b -> (i < j)%nat ->
    sender_key a = sender_key b -> nonce_key a <= nonce_key b.
Proof.
  unfold take. set (l := sort_nonce_aware (pending m)). cbn [pending requeue set_pending].
  assert (Hl : l ≡ₚ pending m) by apply merge_sort_Permutation.
  rewrite take_drop. split_and!; [done|by rewrite length_take, (Permutation_length Hl)|].
  intros i j a b Hi Hj Hij Hsend. assert (Hs : StronglySorted nonce_le l) by (apply StronglySorted_merge_sort; apply _).
  pose proof (sorted_nth _ _ _ _ _ _ Hs Hi Hj Hij) as Hab. apply Is_true_true, nonce_leb_cases in Hab as [_ Hn].
  rewrite Hsend in Hn. pose proof (bytes_leb_total (sender_key b) (sender_key b)) as Hr%orb_true_iff. naive_solver lia.
Qed.

(** ** Gas *)

(** A draw under a gas limit stays under it. *)
Theorem take_with_gas_limit_bounded n g m :
  0 <= g < U64_MAX ->
  let '(m', taken) := take_with_gas_limit n g m in
  taken ++ pending m' ≡ₚ pending m /\ (length taken <= n)%nat /\ sumZ (estimate_tx_gas <$> taken) <= g.
Proof.
  intros Hg. unfold take_with_gas_limit.
  assert (Hpos : forall t, 0 <= estimate_tx_gas t).
  { intros t. destruct t; simpl; unfold size, count; lia. }
  assert (Hloop : forall l k u, (k <= n)%nat -> 0 <= u <= g ->
    (k + length (gas_loop n g l k u).1 <= n)%nat /\ u + sumZ (estimate_tx_gas <$> (gas_loop n g l k u).1) <= g).
  { induction l as [|t l IH]; intros k u Hk Hu; [simpl; unfold sumZ; simpl; lia|simpl].
    destruct ((k <? n)%nat && (saturating_add u (estimate_tx_gas t) <=? g)) eqn:E.
    - apply andb_true_iff in E as [E1%Nat.ltb_lt E2%Z.leb_le]. specialize (Hpos t).
      unfold saturating_add in E2. assert (Hw : wrapping_add u (estimate_tx_gas t) = u + estimate_tx_gas t).
      { unfold wrapping_add. apply as_u64_small. unfold is_u64. lia. }
      rewrite Hw. specialize (IH (S k) (u + estimate_tx_gas t) ltac:(lia) ltac:(lia)).
      destruct (gas_loop _ _ _ _ _) as [x y]. csimpl in *. unfold sumZ in *. simpl in *. lia.
    - specialize (IH k u Hk Hu). by destruct (gas_loop _ _ _ _ _) as [x y]. }
  specialize (Hloop (sort_nonce_aware (pending m)) 0%nat 0 ltac:(lia) ltac:(lia)).
  pose proof (gas_loop_perm n g (sort_nonce_aware (pending m)) 0 0) as Hp.
  destruct (gas_loop _ _ _ _ _) as [x y]. simpl in *. split_and!; [|lia|lia].
  rewrite Hp. apply merge_sort_Permutation.
Qed.

(** The two gas schedules agree on every transaction the pool admits, except
    that the executor charges a blob twenty times as much per byte and a refund
    less. *)
Theorem gas_schedules_agree t :
  admissible t ->
  estimate_gas t =
  match t with
  | Blob b => estimate_tx_gas t + 190 * size (bl_data b)
  | Refund _ => estimate_tx_gas t - 16000
  | _ => estimate_tx_gas t
  end.
Proof.
  assert (Ho : forall o, 0 <= osize o) by (intros [b|]; unfold osize, size; lia).
  unfold admissible, MAX_TX_SIZE_BYTES. intros [Hs Hk].
  destruct t; try done; simpl in Hs |- *;
    repeat match goal with _ : context [osize ?o] |- _ => pose proof (Ho o); generalize dependent (osize o); intros end;
    unfold GAS_CREATE_OBJECT_BASE, GAS_CREATE_OBJECT_PER_BYTE, GAS_USER_OP, GAS_UPGRADE_CONTRACT, wrapping_mul,
      saturating_add, saturating_mul, size, count in *;
    rewrite ?as_u64_small; unfold is_u64, U64_MAX; lia.
Qed.

(** ** The priority draw *)

#[local] Instance priority_le_dec m b : RelDecision (priority_le m b) := fun x y => Is_true_dec (priority_leb m b x y).

#[local] Instance priority_le_total m b : Total (priority_le m b).
Proof.
  intros x y. unfold priority_le, priority_leb. rewrite !Is_true_true.
  destruct (Z.eqb_spec (priority_of m b x) (priority_of m b y)) as [E|E].
  - rewrite E, Z.eqb_refl. apply nonce_leb_total.
  - destruct (Z.eqb_spec (priority_of m b y) (priority_of m b x)); [lia|]. rewrite !Z.ltb_lt. lia.
Qed.

#[local] Instance priority_le_trans m b : Transitive (priority_le m b).
Proof.
  intros x y z. unfold priority_le, priority_leb. rewrite !Is_true_true.
  destruct (Z.eqb_spec (priority_of m b x) (priority_of m b y)) as [E1|E1],
    (Z.eqb_spec (priority_of m b y) (priority_of m b z)) as [E2|E2],
    (Z.eqb_spec (priority_of m b x) (priority_of m b z)) as [E3|E3]; rewrite ?Z.ltb_lt; try lia.
  apply nonce_leb_trans.
Qed.

(** The draw for a proposal splits the pool, gives each drawn transaction its
    submission epoch, and orders by decayed priority: what was submitted
    later comes first. *)
Theorem priority_draw_order n b m :
  let '(m', (taken, _, hints)) := take_with_priority_sum_and_hints n b m in
  taken ++ pending m' ≡ₚ pending m /\ length taken = min n (length (pending m)) /\
  hints = (fun t => submitted_at m t b) <$> taken /\
  forall i j x y, (taken ++ pending m') !! i = Some x -> (taken ++ pending m') !! j = Some y -> (i < j)%nat ->
    priority_of m b y <= priority_of m b x.
Proof.
  unfold take_with_priority_sum_and_hints. set (l := merge_sort (priority_le m b) (pending m)).
  cbn [pending requeue set_pending]. assert (Hl : l ≡ₚ pending m) by apply merge_sort_Permutation.
  rewrite take_drop. split_and!; [done|by rewrite length_take, (Permutation_length Hl)|done|].
  intros i j x y Hi Hj Hij. assert (Hs : StronglySorted (priority_le m b) l) by (apply StronglySorted_merge_sort; apply _).
  pose proof (sorted_nth _ _ _ _ _ _ Hs Hi Hj Hij) as Hxy. apply Is_true_true in Hxy. unfold priority_leb in Hxy.
  destruct (Z.eqb_spec (priority_of m b x) (priority_of m b y)); [lia|]. apply Z.ltb_lt in Hxy. lia.
Qed.

(** ** The antichain projection *)

Lemma antichain_loop_spec l s :
  let '(txs, hints, dropped) := antichain_loop l s in
  txs ++ dropped ≡ₚ l.*1 /\ length hints = length txs /\ zip txs hints `sublist_of` l /\
  NoDup (omap tx_sender txs) /\ (forall a, a ∈ omap tx_sender txs -> a ∉ s) /\
  Forall (fun t => exists a, tx_sender t = Some a /\ (a ∈ s \/ a ∈ omap tx_sender txs)) dropped.
Proof.
  revert s. induction l as [|[t hint] l IH]; intros s; [simpl; split_and!; try done; [constructor|set_solver]|].
  simpl. destruct (tx_sender t) as [a|] eqn:Ea; [destruct (decide (a ∈ s)) as [Hin|Hn]|].
  - specialize (IH s). destruct (antichain_loop l s) as [[txs hints] dropped].
    destruct IH as (Hp & Hl & Hsub & Hnd & Hs & Hd). split_and!; try done.
    + by rewrite <- Permutation_middle, Hp.
    + by apply sublist_cons.
    + constructor; [|done]. exists a. by split; [|left].
  - specialize (IH ({[ a ]} ∪ s)). destruct (antichain_loop l ({[ a ]} ∪ s)) as [[txs hints] dropped].
    destruct IH as (Hp & Hl & Hsub & Hnd & Hs & Hd). csimpl. rewrite Ea. split_and!.
    + by rewrite Hp.
    + by rewrite Hl.
    + by apply sublist_skip.
    + constructor; [|done]. intros Ha. apply (Hs a Ha). set_solver.
    + intros b [->|Hb]%elem_of_cons; [done|]. specialize (Hs b Hb). set_solver.
    + eapply Forall_impl; [exact Hd|]. intros u (b & Hu & Hb). exists b. set_solver.
  - specialize (IH s). destruct (antichain_loop l s) as [[txs hints] dropped].
    destruct IH as (Hp & Hl & Hsub & Hnd & Hs & Hd). csimpl. rewrite Ea. split_and!; try done.
    + by rewrite Hp.
    + by rewrite Hl.
    + by apply sublist_skip.
Qed.

(** The antichain projection keeps one transaction per sender, the first, with
    its hint and in order, and gives back all the others. *)
Theorem antichain_project_exact candidates hints :
  length candidates = length hints ->
  let '(txs, hs, dropped) := antichain_project candidates hints in
  txs ++ dropped ≡ₚ candidates /\ length hs = length txs /\ zip txs hs `sublist_of` zip candidates hints /\
  NoDup (omap tx_sender txs) /\ Forall (fun t => exists a, tx_sender t = Some a /\ a ∈ omap tx_sender txs) dropped.
Proof.
  intros Hlen. pose proof (antichain_loop_spec (zip candidates hints) ∅) as Hs. unfold antichain_project.
  destruct (antichain_loop _ _) as [[txs hs] dropped]. destruct Hs as (Hp & Hl & Hsub & Hnd & _ & Hd).
  rewrite fst_zip in Hp by lia. split_and!; try done.
  eapply Forall_impl; [exact Hd|]. intros t (a & Ht & [Ha|Ha]); [set_solver|]. by exists a.
Qed.

(** ** Authentic submissions *)

(** With verification on, an admitted transaction that carries a signature and a
    key was signed by that key for this chain, and the key is its sender's. *)
Theorem admission_authentic m t sig pk a :
  verify_signatures m = true -> (submit t m).2 = true -> tx_signature t = Some sig -> tx_public_key t = Some pk ->
  tx_sender t = Some a -> tx_tag t <> 18 ->
  hybrid_verify (signing_message (m_chain_id m) t) sig pk = true /\ address_from_pubkey pk = a /\
  t ∈ pending (submit t m).1.
Proof.
  unfold submit, validate_submission. intros Hv Hok Hsig Hpk Ha Htag. destruct (verdict m t) eqn:E; try done. simpl.
  apply verdict_admit in E as (_ & _ & _ & _ & _ & Hs). specialize (Hs Hv). unfold signature_ok in Hs.
  rewrite Hsig, Hpk, Ha in Hs. destruct t; try done; apply andb_true_iff in Hs as [? ?%bool_decide_eq_true];
    (split_and!; [done|done|]); unfold enqueue, track_account_add; rewrite Ha; simpl; set_solver.
Qed.

(** The rule has two holes: a signature without a key is never checked, and a
    multi-signature transaction, whose signatures are elsewhere, is never
    admitted. *)
Theorem signature_rule_gaps m :
  verify_signatures m = true ->
  (forall t sig, tx_signature t = Some sig -> tx_public_key t = None -> signature_ok m t = true) /\
  (forall x, (submit (MultiSig x) m).2 = false).
Proof.
  intros Hv. split.
  - intros t sig Hs Hp. unfold signature_ok. rewrite Hs, Hp. by destruct t.
  - intros x. unfold submit, validate_submission. destruct (verdict m (MultiSig x)) eqn:E; try done.
    apply verdict_admit in E as (_ & _ & _ & _ & _ & Hs). by specialize (Hs Hv).
Qed.
End invariant.

(** ** Concrete pools *)

#[global] Instance toy_verifier : HybridVerifier := fun _ sig _ => bool_decide (sig = [1]).

Module ToyPool.
Definition t0 : Transaction := ToyTx.pay ToyTx.a 5 0.
Definition t1 : Transaction := ToyTx.pay ToyTx.a 5 1.
(** The second payment arrives eight epochs after the first. *)
Definition m : Mempool := foldl run_op mempool_new [PSubmit t0; PSetEpoch 8; PSubmit t1].
Definition signed : Transaction :=
  Transfer {| tr_from := address_from_pubkey [7]; tr_to := ToyTx.b; tr_amount := 5; tr_nonce := 0;
              tr_signature := Some [1]; tr_public_key := Some [7]; tr_mev_refund_eligible := None |}.
End ToyPool.

(** The priority draw does not keep a sender's nonces in order: a newer
    transaction is worth more, so the payment with nonce 1 is drawn before the one
    with nonce 0 it depends on. *)
Theorem priority_breaks_nonces :
  (take_with_priority 2 8 ToyPool.m).2 = [ToyPool.t1; ToyPool.t0] /\
  (take 2 ToyPool.m).2 = [ToyPool.t0; ToyPool.t1] /\
  tx_sender ToyPool.t0 = tx_sender ToyPool.t1 /\ nonce_key ToyPool.t0 < nonce_key ToyPool.t1.
Proof. split_and!; vm_compute; reflexivity. Qed.

Lemma take_with_gas_limit_bounded_witness :
  let '(m', taken) := take_with_gas_limit 5 42000 ToyPool.m in
  taken ++ pending m' ≡ₚ pending ToyPool.m /\ (length taken <= 5)%nat /\
  sumZ (estimate_tx_gas <$> taken) <= 42000.
Proof. apply (take_with_gas_limit_bounded 5 42000 ToyPool.m). unfold U64_MAX. lia. Defined.

Lemma antichain_project_exact_witness :
  let '(txs, hs, dropped) := antichain_project [ToyPool.t0; ToyPool.t1] [0; 8] in
  txs ++ dropped ≡ₚ [ToyPool.t0; ToyPool.t1] /\ length hs = length txs /\
  zip txs hs `sublist_of` zip [ToyPool.t0; ToyPool.t1] [0; 8] /\
  NoDup (omap tx_sender txs) /\ Forall (fun t => exists a, tx_sender t = Some a /\ a ∈ omap tx_sender txs) dropped.
Proof. apply (antichain_project_exact [ToyPool.t0; ToyPool.t1] [0; 8]). reflexivity. Defined.

Lemma admission_authentic_witness :
  hybrid_verify (signing_message "" ToyPool.signed) [1] [7] = true /\
  address_from_pubkey [7] = address_from_pubkey [7] /\
  ToyPool.signed ∈ pending (submit ToyPool.signed (enable_sig_verification mempool_new)).1.
Proof.
  apply (admission_authentic (enable_sig_verification mempool_new) ToyPool.signed [1] [7] (address_from_pubkey [7]));
    first [reflexivity | vm_compute; reflexivity | done].
Defined.

Lemma signature_rule_gaps_witness :
  (forall t sig, tx_signature t = Some sig -> tx_public_key t = None ->
     signature_ok (enable_sig_verification mempool_new) t = true) /\
  (forall x, (submit (MultiSig x) (enable_sig_verification mempool_new)).2 = false).
Proof. apply (signature_rule_gaps (enable_sig_verification mempool_new)). reflexivity. Defined.

Lemma gas_schedules_agree_witness : estimate_gas ToyPool.t0 = estimate_tx_gas ToyPool.t0.
Proof. apply (gas_schedules_agree ToyPool.t0). split; [vm_compute; discriminate|exact I]. Defined.
