(* ===== verification/Mmr.v ===== *)
(** * The Merkle Mountain Range of nullifiers

    crates/evaporchain-crypto/src/accumulator.rs: the energy-stamped
    nullifier, the append-only accumulator in its flat array layout, peak
    enumeration and bagging, inclusion proofs and their verification.

    The array is related to the perfect binary trees it encodes; a read past
    the end of the array, which panics in the code, is [None]. *)

From stdpp Require Import base list strings.
From Stdlib Require Import ZArith Lia.
From S2P Require Import Prelude Trie.

Open Scope Z_scope.

(** ** Nullifiers *)

Record EnergyStampedNullifier := {
  n_object_id : bytes;
  n_value_hash : bytes;
  n_evaporation_epoch : Z;
  n_energy_at_death : Z;
  n_owner : bytes;
}.

Record MMRPosition := { leaf_index : Z; mmr_size : Z }.

Record MMRProof := {
  mp_leaf_index : Z;
  mp_mmr_size : Z;
  mp_siblings : list bytes;
  mp_peak_hashes : list bytes;
  mp_peak_index : nat;
}.

Record MerkleMountainRange := { mmr_nodes : list bytes; mmr_leaf_count : Z }.

Definition mmr_new : MerkleMountainRange := {| mmr_nodes := []; mmr_leaf_count := 0 |}.

(** [count_ones] of a [u64]. *)
Fixpoint popcount_pos (p : positive) : Z :=
  match p with
  | xH => 1
  | xO p' => popcount_pos p'
  | xI p' => 1 + popcount_pos p'
  end.

Definition count_ones (n : Z) : Z :=
  match n with
  | Zpos p => popcount_pos p
  | _ => 0
  end.

(** [v[i]] at a [u64] index. *)
Definition node_at (ns : list bytes) (i : Z) : option bytes :=
  if i <? 0 then None else ns !! Z.to_nat i.

Definition zlength (ns : list bytes) : Z := Z.of_nat (length ns).

(** [leaf_index_to_node_pos]. *)
Definition leaf_index_to_node_pos (i : Z) : Z := 2 * i - count_ones i.

(** [peak_heights_from_leaf_count]: the set bits from high to low. *)
Definition peak_heights_from_leaf_count (n : Z) : list nat :=
  filter (fun b => Is_true (Z.testbit n (Z.of_nat b))) (rev (seq 0 64)).

(** One round of the binary search of [leaf_count_from_mmr_size]; the interval
    halves, so 65 rounds are enough for [u64] bounds. *)
Fixpoint leaf_count_search (fuel : nat) (size lo hi : Z) : option Z :=
  match fuel with
  | O => None
  | S fuel' =>
      if hi <? lo then None
      else
        let mid := lo + (hi - lo) / 2 in
        let sz := as_u64 (2 * mid - count_ones mid) in
        match sz ?= size with
        | Eq => Some mid
        | Lt => leaf_count_search fuel' size (mid + 1) hi
        | Gt => if mid =? 0 then None else leaf_count_search fuel' size lo (mid - 1)
        end
  end.

Definition leaf_count_from_mmr_size (size : Z) : option Z :=
  if size =? 0 then Some 0 else leaf_count_search 65 size 1 size.

Section mmr.
Context `{Blake3}.

Definition NULLIFIER_LEAF_DST : bytes := bytes_of_string "evaporchain:nullifier:v1" ++ [0].
Definition MMR_NODE_DST : bytes := bytes_of_string "evaporchain:mmr:node:v1" ++ [0].

(** [EnergyStampedNullifier::to_bytes]. *)
Definition nullifier_bytes (n : EnergyStampedNullifier) : bytes :=
  blake3 (NULLIFIER_LEAF_DST ++ n_object_id n ++ n_value_hash n
          ++ to_le_bytes 8 (n_evaporation_epoch n) ++ to_le_bytes 8 (n_energy_at_death n)
          ++ n_owner n).

Definition hash_pair (left right : bytes) : bytes := blake3 (MMR_NODE_DST ++ left ++ right).

Definition bag_peaks (peaks : list bytes) : bytes :=
  match last peaks with
  | None => replicate 32 0
  | Some r => foldr hash_pair r (removelast peaks)
  end.

(** The merge loop of [append]: at most one round per bit of the index. *)
Fixpoint append_loop (fuel : nat) (index : Z) (ns : list bytes) (height : Z) (current : bytes)
  : option (list bytes) :=
  match fuel with
  | O => None
  | S fuel' =>
      if Z.testbit index height then
        let pos := zlength ns - 1 in
        let left_size := 2 ^ (height + 1) - 1 in
        match node_at ns (pos - left_size) with
        | None => None
        | Some left_hash =>
            let current' := hash_pair left_hash current in
            append_loop fuel' index (ns ++ [current']) (height + 1) current'
        end
      else Some ns
  end.

Definition append (m : MerkleMountainRange) (h : bytes)
  : option (MerkleMountainRange * MMRPosition) :=
  match append_loop 65 (mmr_leaf_count m) (mmr_nodes m ++ [h]) 0 h with
  | None => None
  | Some ns =>
      Some ({| mmr_nodes := ns; mmr_leaf_count := mmr_leaf_count m + 1 |},
            {| leaf_index := mmr_leaf_count m; mmr_size := zlength ns |})
  end.

(** [peak_positions], from the highest bit of the count down. *)
Fixpoint peak_positions_loop (height : nat) (remaining offset : Z) : list Z :=
  let subtree_leaves := 2 ^ Z.of_nat height in
  let subtree_nodes := 2 * subtree_leaves - 1 in
  let '(here, remaining', offset') :=
    if subtree_leaves <=? remaining
    then ([offset + subtree_nodes - 1], remaining - subtree_leaves, offset + subtree_nodes)
    else ([], remaining, offset) in
  here ++ match height with
          | O => []
          | S h => peak_positions_loop h remaining' offset'
          end.

Definition peak_positions (m : MerkleMountainRange) : list Z :=
  peak_positions_loop (Z.to_nat (Z.log2 (Z.max (mmr_leaf_count m) 1))) (mmr_leaf_count m) 0.

Definition peak_hashes (m : MerkleMountainRange) : option (list bytes) :=
  mapM (node_at (mmr_nodes m)) (peak_positions m).

Definition mmr_root (m : MerkleMountainRange) : option bytes := bag_peaks <$> peak_hashes m.

(** The climb of [prove]: sibling hashes and the position of the peak. *)
Fixpoint prove_loop (fuel : nat) (ns : list bytes) (index pos height : Z) (siblings : list bytes)
  : option (list bytes * Z) :=
  match fuel with
  | O => None
  | S fuel' =>
      let subtree_size := 2 ^ (height + 1) - 1 in
      let '(sibling_pos, parent_pos) :=
        if Z.testbit index height then (pos - subtree_size, pos + 1)
        else (pos + subtree_size, pos + subtree_size + 1) in
      if zlength ns <=? parent_pos then Some (siblings, pos)
      else if zlength ns <=? sibling_pos then Some (siblings, pos)
      else
        match node_at ns sibling_pos with
        | None => None
        | Some s => prove_loop fuel' ns index parent_pos (height + 1) (siblings ++ [s])
        end
  end.

(** The scan over the peaks: the other peaks' hashes, and the index of ours. *)
Fixpoint split_peaks (ns : list bytes) (pos : Z) (i : nat) (ps : list Z) (acc : list bytes)
    (idx : nat) : option (list bytes * nat) :=
  match ps with
  | [] => Some (acc, idx)
  | p :: ps' =>
      if p =? pos then split_peaks ns pos (S i) ps' acc i
      else
        match node_at ns p with
        | None => None
        | Some h => split_peaks ns pos (S i) ps' (acc ++ [h]) idx
        end
  end.

(** The outer [option] is the code's; a panic is [None] as well. *)
Definition mmr_prove (m : MerkleMountainRange) (index : Z) : option MMRProof :=
  if mmr_leaf_count m <=? index then None
  else
    let node_pos := leaf_index_to_node_pos index in
    if zlength (mmr_nodes m) <=? node_pos then None
    else
      match prove_loop 65 (mmr_nodes m) index node_pos 0 [] with
      | None => None
      | Some (sibs, pos) =>
          match split_peaks (mmr_nodes m) pos 0 (peak_positions m) [] 0 with
          | None => None
          | Some (others, idx) =>
              Some {| mp_leaf_index := index; mp_mmr_size := zlength (mmr_nodes m);
                      mp_siblings := sibs; mp_peak_hashes := others; mp_peak_index := idx |}
          end
      end.

(** From the leaf to its peak. *)
Fixpoint rebuild_peak (index : Z) (height : Z) (siblings : list bytes) (current : bytes) : bytes :=
  match siblings with
  | [] => current
  | s :: rest =>
      rebuild_peak index (height + 1) rest
        (if Z.testbit index height then hash_pair s current else hash_pair current s)
  end.

(** The peaks with ours at its place. *)
Definition insert_peak (i : nat) (current : bytes) (others : list bytes) : list bytes :=
  take i others ++ [current] ++ drop i others.

Definition mmr_verify (proof : MMRProof) (h expected_root : bytes) : bool :=
  match leaf_count_from_mmr_size (mp_mmr_size proof) with
  | None => false
  | Some n =>
      if n <=? mp_leaf_index proof then false
      else if negb (Z.of_nat (length (mp_peak_hashes proof)) + 1 =? count_ones n) then false
      else
        match peak_heights_from_leaf_count n !! mp_peak_index proof with
        | None => false
        | Some height =>
            if negb (bool_decide (length (mp_siblings proof) = height)) then false
            else
              let current := rebuild_peak (mp_leaf_index proof) 0 (mp_siblings proof) h in
              if decide (length (mp_peak_hashes proof) < mp_peak_index proof)%nat then false
              else
                bool_decide
                  (bag_peaks (insert_peak (mp_peak_index proof) current (mp_peak_hashes proof))
                   = expected_root)
        end
  end.

End mmr.

(** ** Population count *)

Lemma count_ones_double n : 0 <= n -> count_ones (2 * n) = count_ones n.
Proof. destruct n; done. Qed.

Lemma count_ones_succ_double n : 0 <= n -> count_ones (2 * n + 1) = 1 + count_ones n.
Proof. destruct n as [|p|p]; [done| |lia]. intros _. done. Qed.

Lemma count_ones_nonneg n : 0 <= count_ones n.
Proof. destruct n as [|p|p]; simpl; [lia| |lia]. induction p; simpl; lia. Qed.

Lemma count_ones_le n : 0 <= n -> count_ones n <= n.
Proof.
  destruct n as [|p|p]; simpl; [lia| |lia]. intros _. induction p as [p IH|p IH|]; simpl; lia.
Qed.

(** Bits of disjoint ranges add up. *)
Lemma count_ones_split (k : nat) a b :
  0 <= a -> 0 <= b < 2 ^ Z.of_nat k ->
  count_ones (a * 2 ^ Z.of_nat k + b) = count_ones a + count_ones b.
Proof.
  revert a b. induction k as [|k IH]; intros a b Ha Hb.
  { replace b with 0 by lia. rewrite Z.mul_1_r, !Z.add_0_r. done. }
  rewrite Nat2Z.inj_succ, Z.pow_succ_r in * by lia.
  pose proof (Z.div_mod b 2 ltac:(lia)) as Hdiv.
  pose proof (Z.mod_pos_bound b 2 ltac:(lia)) as Hmod.
  set (q := b / 2) in *. assert (Hq : 0 <= q < 2 ^ Z.of_nat k) by lia.
  assert (Hp : 0 < 2 ^ Z.of_nat k) by (apply Z.pow_pos_nonneg; lia).
  replace (a * (2 * 2 ^ Z.of_nat k) + b) with (2 * (a * 2 ^ Z.of_nat k + q) + b mod 2) by lia.
  rewrite Hdiv at 2. destruct (Z.eq_dec (b mod 2) 0) as [->|Hne].
  - rewrite !Z.add_0_r, !count_ones_double by lia. apply IH; lia.
  - replace (b mod 2) with 1 by lia. rewrite !count_ones_succ_double by lia.
    rewrite IH by lia. lia.
Qed.

Lemma count_ones_shift (k : nat) a : 0 <= a -> count_ones (a * 2 ^ Z.of_nat k) = count_ones a.
Proof.
  intros Ha. pose proof (Z.pow_pos_nonneg 2 (Z.of_nat k)).
  rewrite <- (Z.add_0_r (a * _)), count_ones_split by lia. simpl. lia.
Qed.

Lemma count_ones_pow2 (k : nat) : count_ones (2 ^ Z.of_nat k) = 1.
Proof.
  replace (2 ^ Z.of_nat k) with (1 * 2 ^ Z.of_nat k + 0) by lia.
  rewrite count_ones_split by lia. done.
Qed.

(** Bits of a sum whose high part is a multiple of [2^k]. *)
Lemma testbit_low (k : nat) a b (i : Z) :
  0 <= i < Z.of_nat k -> 0 <= b < 2 ^ Z.of_nat k ->
  Z.testbit (a * 2 ^ Z.of_nat k + b) i = Z.testbit b i.
Proof.
  intros Hi Hb. rewrite <- (Z.mod_pow2_bits_low _ (Z.of_nat k) i) by lia.
  rewrite Z.add_comm, Z.mod_add by lia. by rewrite Z.mod_small.
Qed.

Lemma testbit_here (k : nat) a b :
  0 <= b < 2 ^ Z.of_nat k -> Z.testbit (a * 2 ^ Z.of_nat k + b) (Z.of_nat k) = Z.odd a.
Proof.
  intros Hb. rewrite Z.testbit_odd, Z.shiftr_div_pow2 by lia.
  rewrite Z.add_comm, Z.div_add by lia. by rewrite Z.div_small.
Qed.

Lemma pow2_S (k : nat) : 2 ^ Z.of_nat (S k) = 2 * 2 ^ Z.of_nat k.
Proof. rewrite Nat2Z.inj_succ. apply Z.pow_succ_r. lia. Qed.

Lemma pow2_pos (k : nat) : 0 < 2 ^ Z.of_nat k.
Proof. apply Z.pow_pos_nonneg; lia. Qed.

(** ** The trees behind the array *)

Inductive tree := TLeaf (h : bytes) | TNode (l r : tree).

Fixpoint tleaves (t : tree) : list bytes :=
  match t with
  | TLeaf h => [h]
  | TNode l r => tleaves l ++ tleaves r
  end.

Inductive perfect : nat -> tree -> Prop :=
| perfect_leaf h : perfect 0 (TLeaf h)
| perfect_node k l r : perfect k l -> perfect k r -> perfect (S k) (TNode l r).

(** Perfect trees of strictly decreasing heights in [lo, hi). *)
Inductive forest (lo : nat) : nat -> list tree -> Prop :=
| forest_nil hi : forest lo hi []
| forest_cons hi h t ts :
    (lo <= h < hi)%nat -> perfect h t -> forest lo h ts -> forest lo hi (t :: ts).

Section trees.
Context `{Blake3}.

Fixpoint thash (t : tree) : bytes :=
  match t with
  | TLeaf h => h
  | TNode l r => hash_pair (thash l) (thash r)
  end.

(** Post-order: the layout of the array. *)
Fixpoint flatten (t : tree) : list bytes :=
  match t with
  | TLeaf h => [h]
  | TNode l r => flatten l ++ flatten r ++ [thash (TNode l r)]
  end.

Definition flat (ts : list tree) : list bytes := concat (flatten <$> ts).
Definition fleaves (ts : list tree) : list bytes := concat (tleaves <$> ts).
Definition count (ts : list tree) : Z := zlength (fleaves ts).

Lemma zlength_app a b : zlength (a ++ b) = zlength a + zlength b.
Proof. unfold zlength. rewrite length_app. lia. Qed.

Lemma zlength_nonneg a : 0 <= zlength a.
Proof. unfold zlength. lia. Qed.

Lemma zlength_tleaves k t : perfect k t -> zlength (tleaves t) = 2 ^ Z.of_nat k.
Proof.
  induction 1 as [h|k l r _ IHl _ IHr]; [done|]. simpl tleaves.
  rewrite zlength_app, IHl, IHr, pow2_S. lia.
Qed.

Lemma zlength_flatten k t : perfect k t -> zlength (flatten t) = 2 ^ Z.of_nat (S k) - 1.
Proof.
  induction 1 as [h|k l r _ IHl _ IHr]; [done|]. simpl flatten.
  rewrite !zlength_app, IHl, IHr, (pow2_S (S k)). change (zlength [_]) with 1. lia.
Qed.

Lemma flatten_last t : exists l, flatten t = l ++ [thash t].
Proof. destruct t as [h|l r]; [by exists []|]. exists (flatten l ++ flatten r). simpl. by rewrite app_assoc. Qed.

Lemma node_at_middle a x b : node_at (a ++ x :: b) (zlength a) = Some x.
Proof.
  unfold node_at, zlength. rewrite (proj2 (Z.ltb_ge _ 0)) by lia.
  rewrite Nat2Z.id. by apply list_lookup_middle.
Qed.

(** The root of a tree is the last node of its range. *)
Lemma node_at_root a t b :
  node_at (a ++ flatten t ++ b) (zlength a + zlength (flatten t) - 1) = Some (thash t).
Proof.
  destruct (flatten_last t) as [l ->]. rewrite <- !app_assoc, zlength_app.
  change (zlength [thash t]) with 1. replace (zlength a + (zlength l + 1) - 1) with (zlength (a ++ l))
    by (rewrite zlength_app; lia).
  rewrite app_assoc. apply node_at_middle.
Qed.

Lemma count_cons k t ts : perfect k t -> count (t :: ts) = 2 ^ Z.of_nat k + count ts.
Proof.
  intros Ht. unfold count, fleaves. rewrite fmap_cons. simpl concat.
  by rewrite zlength_app, (zlength_tleaves k t).
Qed.

Lemma count_app ts us : count (ts ++ us) = count ts + count us.
Proof. unfold count, fleaves. by rewrite fmap_app, concat_app, zlength_app. Qed.

Lemma count_nil : count [] = 0.
Proof. done. Qed.

Lemma count_singleton k t : perfect k t -> count [t] = 2 ^ Z.of_nat k.
Proof. intros Ht. rewrite (count_cons k t []), count_nil by done. lia. Qed.

Lemma flat_app ts us : flat (ts ++ us) = flat ts ++ flat us.
Proof. unfold flat. by rewrite fmap_app, concat_app. Qed.

Lemma flat_singleton t : flat [t] = flatten t.
Proof. unfold flat. simpl. by rewrite app_nil_r. Qed.

Lemma flat_cons t ts : flat (t :: ts) = flatten t ++ flat ts.
Proof. done. Qed.

Lemma count_nonneg ts : 0 <= count ts.
Proof. apply zlength_nonneg. Qed.

Lemma forest_count_lt lo hi ts : forest lo hi ts -> count ts < 2 ^ Z.of_nat hi.
Proof.
  induction 1 as [hi|hi h t ts Hh Ht _ IH]; [apply pow2_pos|].
  rewrite (count_cons h) by done.
  assert (2 * 2 ^ Z.of_nat h <= 2 ^ Z.of_nat hi).
  { rewrite <- pow2_S. apply Z.pow_le_mono_r; lia. }
  lia.
Qed.

(** The count determines how high the trees can be. *)
Lemma forest_tighten lo hi hi' ts :
  forest lo hi ts -> count ts < 2 ^ Z.of_nat hi' -> forest lo hi' ts.
Proof.
  intros Hf Hc. destruct Hf as [hi|hi h t ts Hh Ht Hts]; [constructor|].
  rewrite (count_cons h) in Hc by done. pose proof (count_nonneg ts).
  econstructor; [|done|done]. split; [lia|].
  apply Nat2Z.inj_lt. apply (Z.pow_lt_mono_r_iff 2); lia.
Qed.

Lemma forest_weaken lo lo' hi hi' ts :
  forest lo hi ts -> (lo' <= lo)%nat -> (hi <= hi')%nat -> forest lo' hi' ts.
Proof.
  intros Hf Hlo. revert hi'. induction Hf as [hi|hi h t ts Hh Ht _ IH]; intros hi' Hhi; [constructor|].
  econstructor; [|done|by apply IH]. lia.
Qed.

Lemma forest_snoc_inv lo hi ts u :
  forest lo hi (ts ++ [u]) ->
  exists h, (lo <= h < hi)%nat /\ perfect h u /\ forest (S h) hi ts.
Proof.
  revert hi. induction ts as [|t ts IH]; intros hi Hf; simpl in *.
  - inversion Hf as [|hi' h t' ts' Hh Ht Hts]; subst. exists h. split_and!; [lia..|done|constructor].
  - inversion Hf as [|hi' h t' ts' Hh Ht Hts]; subst. destruct (IH h Hts) as (h' & Hh' & Hu & Hts').
    exists h'. split_and!; [lia..|done|]. econstructor; [|done|done]. lia.
Qed.

Lemma forest_snoc lo hi ts u h :
  forest (S h) hi ts -> perfect h u -> (lo <= h < hi)%nat -> forest lo hi (ts ++ [u]).
Proof.
  intros Hf Hu. induction Hf as [hi|hi k t ts Hk Ht _ IH]; intros Hh; simpl.
  - econstructor; [|done|constructor]; lia.
  - econstructor; [|done|apply IH]; lia.
Qed.

(** Counts are multiples of the smallest size. *)
Lemma forest_divide lo hi ts : forest lo hi ts -> exists q, count ts = q * 2 ^ Z.of_nat lo /\ 0 <= q.
Proof.
  induction 1 as [hi|hi h t ts Hh Ht _ IH]; [by exists 0|].
  destruct IH as (q & Hq & Hq0). exists (2 ^ Z.of_nat (h - lo) + q).
  rewrite (count_cons h), Hq by done. rewrite Z.mul_add_distr_r, <- Z.pow_add_r by lia.
  replace (Z.of_nat (h - lo) + Z.of_nat lo) with (Z.of_nat h) by lia.
  pose proof (pow2_pos (h - lo)). split; lia.
Qed.

(** ** Appending *)

(** The bit the merge loop tests: is the last tree as high as the new one? *)
Lemma append_bit h hi ts :
  forest h hi ts ->
  Z.testbit (count ts + 2 ^ Z.of_nat h - 1) (Z.of_nat h)
  = match last ts with
    | Some u => bool_decide (zlength (tleaves u) = 2 ^ Z.of_nat h)
    | None => false
    end.
Proof.
  intros Hf. destruct (forest_divide _ _ _ Hf) as (q & Hq & _). pose proof (pow2_pos h).
  replace (count ts + 2 ^ Z.of_nat h - 1) with (q * 2 ^ Z.of_nat h + (2 ^ Z.of_nat h - 1)) by lia.
  rewrite testbit_here by lia. destruct ts as [|u ts _] using rev_ind.
  - rewrite count_nil in Hq. assert (q = 0) as -> by nia. done.
  - rewrite last_snoc. apply forest_snoc_inv in Hf as (k & Hk & Hu & Hts).
    destruct (forest_divide _ _ _ Hts) as (q' & Hq' & _).
    rewrite count_app, (count_singleton k), Hq', pow2_S in Hq by done.
    rewrite (zlength_tleaves k) by done.
    assert (Hkh : 2 ^ Z.of_nat k = 2 ^ Z.of_nat (k - h) * 2 ^ Z.of_nat h).
    { rewrite <- Z.pow_add_r by lia. f_equal. lia. }
    rewrite Hkh in Hq. assert (q = (2 * q' + 1) * 2 ^ Z.of_nat (k - h)) as -> by nia.
    rewrite Z.odd_mul, Z.odd_add, Z.odd_mul. simpl (Z.odd 2). rewrite andb_false_l, xorb_false_l.
    rewrite andb_true_l. destruct (decide (k = h)) as [->|Hne].
    + rewrite Nat.sub_diag. simpl. symmetry. by apply bool_decide_eq_true_2.
    + replace (k - h)%nat with (S (k - h - 1)) by lia. rewrite pow2_S, Z.odd_mul. simpl.
      symmetry. apply bool_decide_eq_false_2. rewrite Hkh.
      replace (k - h)%nat with (S (k - h - 1)) by lia. rewrite pow2_S.
      pose proof (pow2_pos (k - h - 1)). nia.
Qed.

Lemma append_loop_spec fuel h hi ts t index :
  forest h hi ts -> perfect h t -> (h <= hi)%nat -> (hi - h < fuel)%nat ->
  index = count ts + 2 ^ Z.of_nat h - 1 ->
  exists ts', append_loop fuel index (flat ts ++ flatten t) (Z.of_nat h) (thash t) = Some (flat ts')
    /\ forest 0 (S hi) ts' /\ fleaves ts' = fleaves ts ++ tleaves t.
Proof.
  revert h ts t. induction fuel as [|fuel IH]; intros h ts t Hf Ht Hhi Hfuel Hidx; [lia|].
  pose proof (append_bit h hi ts Hf) as Hbit. rewrite <- Hidx in Hbit.
  cbn [append_loop]. rewrite Hbit. clear Hbit.
  destruct ts as [|u ts _] using rev_ind.
  { exists [t]. rewrite flat_singleton. simpl. split_and!; [done| |].
    - econstructor; [|done|constructor]. lia.
    - unfold fleaves. simpl. by rewrite app_nil_r. }
  rewrite last_snoc. destruct (forest_snoc_inv _ _ _ _ Hf) as (k & Hk & Hu & Hts).
  rewrite (zlength_tleaves k) by done. case_bool_decide as Hkh.
  - assert (k = h) as -> by (apply Nat2Z.inj, (Z.pow_inj_r 2); lia).
    rewrite flat_app, flat_singleton, <- app_assoc.
    replace (zlength (flat ts ++ flatten u ++ flatten t) - 1 - (2 ^ (Z.of_nat h + 1) - 1))
      with (zlength (flat ts) + zlength (flatten u) - 1).
    2:{ rewrite !zlength_app, (zlength_flatten h t), pow2_S by done.
        rewrite Z.pow_add_r by lia. lia. }
    rewrite node_at_root.
    destruct (IH (S h) ts (TNode u t)) as (ts' & Happ & Hf' & Hl'); [done|by constructor|lia|lia| |].
    { rewrite Hidx, count_app, (count_singleton h), pow2_S by done. lia. }
    exists ts'. split_and!; [|done|].
    + rewrite <- Happ. simpl flatten. rewrite <- !app_assoc. rewrite Nat2Z.inj_succ. done.
    + rewrite Hl'. unfold fleaves. rewrite fmap_app, concat_app. simpl. by rewrite app_nil_r, app_assoc.
  - exists ((ts ++ [u]) ++ [t]). rewrite (flat_app (ts ++ [u])), flat_singleton. split_and!; [done| |].
    + eapply (forest_snoc _ _ _ _ h); [|done|lia].
      apply (forest_weaken (S h) _ hi); [|lia|lia].
      assert (k <> h) by congruence. eapply forest_snoc; [exact Hts|done|lia].
    + unfold fleaves. rewrite (fmap_app _ (ts ++ [u])), concat_app. simpl. by rewrite app_nil_r.
Qed.

(** The invariant: the array encodes a forest whose leaves are [ls]. *)
Definition mmr_ok (m : MerkleMountainRange) (ls : list bytes) : Prop :=
  exists ts, forest 0 64 ts /\ mmr_nodes m = flat ts /\ mmr_leaf_count m = count ts /\ fleaves ts = ls.

Lemma append_ok m ls h :
  mmr_ok m ls -> zlength ls + 1 < 2 ^ 64 ->
  exists m' pos, append m h = Some (m', pos) /\ mmr_ok m' (ls ++ [h])
    /\ leaf_index pos = zlength ls /\ mmr_size pos = zlength (mmr_nodes m').
Proof.
  intros (ts & Hf & Hn & Hc & Hl) Hlen. unfold append. rewrite Hn, Hc.
  destruct (append_loop_spec 65 0 64 ts (TLeaf h) (count ts)) as (ts' & Happ & Hf' & Hl');
    [done|constructor|lia|lia|simpl; lia|].
  change (flatten (TLeaf h)) with [h] in Happ. change (thash (TLeaf h)) with h in Happ.
  change (Z.of_nat 0) with 0 in Happ. rewrite Happ. clear Happ.
  eexists _, _. split; [reflexivity|].
  assert (Hcount : count ts' = count ts + 1).
  { unfold count. rewrite Hl', zlength_app. done. }
  split_and!; simpl; [|unfold count; by rewrite Hl|done].
  exists ts'. simpl. split_and!; [|done|done|].
  - eapply (forest_tighten 0 65); [done|]. rewrite Hcount. unfold count. rewrite Hl. lia.
  - by rewrite Hl', Hl.
Qed.

(** ** Peaks *)

(** Array positions of the roots of a forest laid out from [off]. *)
Fixpoint tree_positions (off : Z) (ts : list tree) : list Z :=
  match ts with
  | [] => []
  | t :: ts' => (off + zlength (flatten t) - 1) :: tree_positions (off + zlength (flatten t)) ts'
  end.

Lemma peak_positions_loop_spec h ts off :
  forest 0 (S h) ts -> peak_positions_loop h (count ts) off = tree_positions off ts.
Proof.
  revert ts off. induction h as [|h IH]; intros ts off Hf.
  - inversion Hf as [|hi k t ts' Hk Ht Hts]; subst; [done|]. assert (k = 0%nat) as -> by lia.
    assert (ts' = []) as -> by (inversion Hts; [done|lia]).
    rewrite (count_cons 0) by done. simpl. by rewrite (zlength_flatten 0).
  - cbn [peak_positions_loop]. inversion Hf as [|hi k t ts' Hk Ht Hts]; subst.
    { rewrite count_nil. rewrite (proj2 (Z.leb_gt _ _)) by apply pow2_pos.
      rewrite <- count_nil. simpl. apply (IH [] off). constructor. }
    rewrite (count_cons k) by done. destruct (decide (k = S h)) as [->|Hne].
    + pose proof (count_nonneg ts'). rewrite (proj2 (Z.leb_le _ _)) by lia. cbv iota beta.
      replace (2 ^ Z.of_nat (S h) + count ts' - 2 ^ Z.of_nat (S h)) with (count ts') by lia.
      rewrite IH by done. simpl tree_positions. rewrite (zlength_flatten (S h)) by done.
      rewrite (pow2_S (S h)). done.
    + rewrite (proj2 (Z.leb_gt _ _)).
      2:{ rewrite <- (count_cons k t ts') by done. eapply (forest_count_lt 0).
          econstructor; [|done|done]. lia. }
      cbv iota beta. rewrite <- (count_cons k t ts') by done. simpl app. apply IH.
      econstructor; [|done|done]. lia.
Qed.

Lemma peak_positions_spec m ls ts :
  forest 0 64 ts -> mmr_leaf_count m = count ts -> fleaves ts = ls ->
  peak_positions m = tree_positions 0 ts.
Proof.
  intros Hf Hc Hl. unfold peak_positions. rewrite Hc. apply peak_positions_loop_spec.
  eapply forest_tighten; [done|]. rewrite Nat2Z.inj_succ, Z2Nat.id by apply Z.log2_nonneg.
  pose proof (Z.log2_spec (Z.max (count ts) 1) ltac:(lia)). lia.
Qed.

Lemma positions_hashes pre ts post :
  mapM (node_at (pre ++ flat ts ++ post)) (tree_positions (zlength pre) ts) = Some (thash <$> ts).
Proof.
  revert pre. induction ts as [|t ts IH]; intros pre; [done|].
  rewrite flat_cons, <- app_assoc. simpl. rewrite node_at_root. simpl.
  rewrite <- zlength_app, app_assoc. rewrite IH. done.
Qed.

Lemma peak_hashes_spec m ls ts :
  forest 0 64 ts -> mmr_nodes m = flat ts -> mmr_leaf_count m = count ts -> fleaves ts = ls ->
  peak_hashes m = Some (thash <$> ts).
Proof.
  intros Hf Hn Hc Hl. unfold peak_hashes. rewrite (peak_positions_spec m ls ts) by done.
  rewrite Hn. pose proof (positions_hashes [] ts []) as Hp. by rewrite app_nil_r in Hp.
Qed.

(** ** Locating a leaf *)

Lemma forest_locate hi ts i :
  forest 0 hi ts -> 0 <= i < count ts ->
  exists ts1 t ts2 h j, ts = ts1 ++ t :: ts2 /\ i = count ts1 + j /\ 0 <= j < 2 ^ Z.of_nat h
    /\ forest (S h) hi ts1 /\ perfect h t /\ forest 0 h ts2.
Proof.
  intros Hf. revert i. induction Hf as [hi|hi h t ts Hh Ht Hts IH]; intros i Hi.
  { rewrite count_nil in Hi. lia. }
  rewrite (count_cons h) in Hi by done. destruct (Z.lt_ge_cases i (2 ^ Z.of_nat h)) as [Hlt|Hge].
  - exists [], t, ts, h, i. split_and!; [done|rewrite count_nil; lia|lia|lia|constructor|done|done].
  - destruct (IH (i - 2 ^ Z.of_nat h) ltac:(lia)) as (ts1 & t' & ts2 & h' & j & -> & Hij & Hj & H1 & H2 & H3).
    exists (t :: ts1), t', ts2, h', j. rewrite (count_cons h) by done.
    split_and!; [done|lia|lia|lia| |done|done].
    econstructor; [|done|done].
    assert (h' < h)%nat; [|lia]. clear IH. pose proof (pow2_pos h').
    destruct H1 as [|hi' k u us Hk Hu Hus]; [|lia].
    inversion Hts as [|hi'' k' u' us' Hk' Hu' Hus' Heq]; simplify_eq. 
    assert (k' = h') as ->; [|lia]. clear -Hu' H2. revert k' Hu'.
    induction H2 as [|k l r _ IHl _ _]; intros k' Hk'; inversion Hk'; subst; [done|]. f_equal. by apply IHl.
Qed.

Lemma count_ones_count lo hi ts : forest lo hi ts -> count_ones (count ts) = Z.of_nat (length ts).
Proof.
  induction 1 as [hi|hi h t ts Hh Ht Hts IH]; [done|]. rewrite (count_cons h) by done.
  rewrite <- (Z.mul_1_l (2 ^ Z.of_nat h)).
  rewrite count_ones_split, IH; [simpl; lia|lia|]. split; [apply count_nonneg|by eapply forest_count_lt].
Qed.

Lemma zlength_flat lo hi ts :
  forest lo hi ts -> zlength (flat ts) = 2 * count ts - Z.of_nat (length ts).
Proof.
  induction 1 as [hi|hi h t ts Hh Ht Hts IH]; [done|].
  rewrite flat_cons, zlength_app, IH, (zlength_flatten h), (count_cons h), pow2_S by done.
  simpl length. lia.
Qed.

(** The position formula: whole trees before, then inside the tree. *)
Lemma leaf_position h hi ts1 j :
  forest (S h) hi ts1 -> 0 <= j < 2 ^ Z.of_nat h ->
  leaf_index_to_node_pos (count ts1 + j) = zlength (flat ts1) + leaf_index_to_node_pos j.
Proof.
  intros Hf Hj. unfold leaf_index_to_node_pos. rewrite (zlength_flat (S h) hi) by done.
  rewrite <- (count_ones_count (S h) hi) by done.
  destruct (forest_divide _ _ _ Hf) as (q & Hq & Hq0). rewrite pow2_S in Hq.
  assert (Hq2 : count ts1 = 2 * q * 2 ^ Z.of_nat h) by lia.
  rewrite Hq2, count_ones_split, count_ones_shift by lia. lia.
Qed.

Lemma leaf_position_right k j :
  2 ^ Z.of_nat k <= j < 2 ^ Z.of_nat (S k) ->
  leaf_index_to_node_pos j
  = 2 ^ Z.of_nat (S k) - 1 + leaf_index_to_node_pos (j - 2 ^ Z.of_nat k).
Proof.
  intros Hj. rewrite pow2_S in *. unfold leaf_index_to_node_pos.
  replace (count_ones j) with (count_ones (1 * 2 ^ Z.of_nat k + (j - 2 ^ Z.of_nat k)))
    by (f_equal; lia).
  rewrite count_ones_split by lia. simpl (count_ones 1). lia.
Qed.

(** ** Inclusion paths *)

(** Sibling hashes of leaf [j], from the leaf up. *)
Fixpoint path (h : nat) (t : tree) (j : Z) : list bytes :=
  match t, h with
  | TNode l r, S h' =>
      if j <? 2 ^ Z.of_nat h' then path h' l j ++ [thash r]
      else path h' r (j - 2 ^ Z.of_nat h') ++ [thash l]
  | _, _ => []
  end.

Lemma length_path h t j : perfect h t -> length (path h t j) = h.
Proof.
  intros Ht. revert j. induction Ht as [|h l r _ IHl _ IHr]; intros j; simpl; [done|].
  case_match; rewrite length_app, ?IHl, ?IHr; simpl; lia.
Qed.

(** [index] and [j] agree on the bits below [h]. *)
Definition same_bits (h : nat) (index j : Z) : Prop :=
  forall k, 0 <= k < Z.of_nat h -> Z.testbit index k = Z.testbit j k.

Lemma same_bits_left h index j :
  same_bits (S h) index j -> 0 <= j < 2 ^ Z.of_nat h ->
  same_bits h index j /\ Z.testbit index (Z.of_nat h) = false.
Proof.
  intros Hs Hj. split; [intros k Hk; apply Hs; lia|]. rewrite Hs by lia.
  replace j with (0 * 2 ^ Z.of_nat h + j) by lia. by rewrite testbit_here.
Qed.

Lemma same_bits_right h index j :
  same_bits (S h) index j -> 2 ^ Z.of_nat h <= j < 2 ^ Z.of_nat (S h) ->
  same_bits h index (j - 2 ^ Z.of_nat h) /\ Z.testbit index (Z.of_nat h) = true.
Proof.
  intros Hs Hj. rewrite pow2_S in Hj.
  assert (Hj' : j = 1 * 2 ^ Z.of_nat h + (j - 2 ^ Z.of_nat h)) by lia. split.
  - intros k Hk. rewrite Hs by lia. rewrite Hj' at 1. apply testbit_low; lia.
  - rewrite Hs by lia. rewrite Hj', testbit_here by lia. done.
Qed.

Lemma rebuild_peak_app index k a s c :
  rebuild_peak index k (a ++ [s]) c
  = (let c' := rebuild_peak index k a c in
     if Z.testbit index (k + Z.of_nat (length a)) then hash_pair s c' else hash_pair c' s).
Proof.
  revert k c. induction a as [|x a IH]; intros k c; simpl.
  - by rewrite Z.add_0_r.
  - rewrite IH. simpl. replace (k + 1 + Z.of_nat (length a)) with (k + Z.of_nat (S (length a))) by lia.
    done.
Qed.

(** Hashing up the path gives the root of the tree. *)
Lemma rebuild_path h t j index x :
  perfect h t -> 0 <= j < 2 ^ Z.of_nat h -> same_bits h index j ->
  tleaves t !! Z.to_nat j = Some x -> rebuild_peak index 0 (path h t j) x = thash t.
Proof.
  intros Ht. revert j. induction Ht as [y|h l r Hl IHl Hr IHr]; intros j Hj Hs Hx.
  - assert (j = 0) as -> by (simpl in Hj; lia). by simplify_eq/=.
  - pose proof (zlength_tleaves h l Hl) as Hlen. unfold zlength in Hlen.
    simpl in Hx |- *. destruct (Z.ltb_spec j (2 ^ Z.of_nat h)) as [Hlt|Hge].
    + destruct (same_bits_left h index j) as [Hs' Hb]; [done|lia|].
      rewrite rebuild_peak_app. cbv zeta. rewrite length_path by done. rewrite Z.add_0_l, Hb.
      rewrite lookup_app_l in Hx by lia. by rewrite IHl by (done || lia).
    + destruct (same_bits_right h index j) as [Hs' Hb]; [done|lia|].
      rewrite rebuild_peak_app. cbv zeta. rewrite length_path by done. rewrite Z.add_0_l, Hb.
      rewrite lookup_app_r in Hx by lia. rewrite pow2_S in Hj.
      rewrite IHr; [done|lia|done|]. rewrite <- Hx. f_equal. lia.
Qed.

(** The climb inside one tree: [h] rounds from the leaf to the root. *)
Lemma prove_loop_climb h t j index pre post fuel acc :
  perfect h t -> 0 <= j < 2 ^ Z.of_nat h -> same_bits h index j ->
  prove_loop (h + fuel) (pre ++ flatten t ++ post) index
    (zlength pre + leaf_index_to_node_pos j) 0 acc
  = prove_loop fuel (pre ++ flatten t ++ post) index
      (zlength pre + zlength (flatten t) - 1) (Z.of_nat h) (acc ++ path h t j).
Proof.
  intros Ht. revert j pre post fuel acc.
  induction Ht as [y|h l r Hl IHl Hr IHr]; intros j pre post fuel acc Hj Hs.
  { assert (j = 0) as -> by (simpl in Hj; lia). simpl. rewrite app_nil_r. f_equal.
    unfold leaf_index_to_node_pos. simpl. unfold zlength. simpl. lia. }
  pose proof (zlength_flatten h l Hl) as Ll. pose proof (zlength_flatten h r Hr) as Lr.
  pose proof (pow2_pos h). rewrite pow2_S in Ll, Lr.
  replace (S h + fuel)%nat with (h + S fuel)%nat by lia.
  assert (Htot : zlength (flatten (TNode l r)) = zlength (flatten l) + zlength (flatten r) + 1).
  { simpl flatten. rewrite !zlength_app. change (zlength [_]) with 1. lia. }
  rewrite Htot. cbn [path]. destruct (Z.ltb_spec j (2 ^ Z.of_nat h)) as [Hlt|Hge].
  - destruct (same_bits_left h index j) as [Hs' Hb]; [done|lia|].
    replace (pre ++ flatten (TNode l r) ++ post)
      with (pre ++ flatten l ++ flatten r ++ [thash (TNode l r)] ++ post)
      by (simpl flatten; by rewrite <- !app_assoc).
    rewrite IHl by (done || lia). cbn [prove_loop]. rewrite Hb.
    rewrite Z.pow_add_r, Z.pow_1_r by lia.
    rewrite !(proj2 (Z.leb_gt _ _))
      by (rewrite !zlength_app; change (zlength [_]) with 1; pose proof (zlength_nonneg post); lia).
    replace (zlength pre + zlength (flatten l) - 1 + (2 ^ Z.of_nat h * 2 - 1))
      with (zlength (pre ++ flatten l) + zlength (flatten r) - 1) by (rewrite zlength_app; lia).
    rewrite (app_assoc pre), node_at_root, <- app_assoc. f_equal; [|lia|by rewrite app_assoc].
    rewrite zlength_app. lia.
  - rewrite pow2_S in Hj. destruct (same_bits_right h index j) as [Hs' Hb]; [done|rewrite pow2_S; lia|].
    replace (pre ++ flatten (TNode l r) ++ post)
      with ((pre ++ flatten l) ++ flatten r ++ [thash (TNode l r)] ++ post)
      by (simpl flatten; by rewrite <- !app_assoc).
    rewrite (leaf_position_right h) by (rewrite pow2_S; lia).
    replace (zlength pre + (2 ^ Z.of_nat (S h) - 1 + leaf_index_to_node_pos (j - 2 ^ Z.of_nat h)))
      with (zlength (pre ++ flatten l) + leaf_index_to_node_pos (j - 2 ^ Z.of_nat h))
      by (rewrite zlength_app, pow2_S; lia).
    rewrite IHr by (done || lia). cbn [prove_loop]. rewrite Hb.
    rewrite Z.pow_add_r, Z.pow_1_r by lia.
    rewrite !(proj2 (Z.leb_gt _ _))
      by (rewrite !zlength_app; change (zlength [_]) with 1; pose proof (zlength_nonneg post); lia).
    replace (zlength (pre ++ flatten l) + zlength (flatten r) - 1 - (2 ^ Z.of_nat h * 2 - 1))
      with (zlength pre + zlength (flatten l) - 1) by (rewrite zlength_app; lia).
    rewrite <- (app_assoc pre), node_at_root. f_equal; [|lia|by rewrite app_assoc].
    rewrite zlength_app. lia.
Qed.

(** The climb stops at the peak of the tree that holds the leaf. *)
Lemma prove_loop_peak hi ts1 t ts2 h j fuel acc :
  forest (S h) hi ts1 -> perfect h t -> forest 0 h ts2 -> 0 <= j < 2 ^ Z.of_nat h ->
  prove_loop (S fuel) (flat (ts1 ++ t :: ts2)) (count ts1 + j)
    (zlength (flat ts1) + zlength (flatten t) - 1) (Z.of_nat h) acc
  = Some (acc, zlength (flat ts1) + zlength (flatten t) - 1).
Proof.
  intros H1 Ht H2 Hj. cbn [prove_loop].
  destruct (forest_divide _ _ _ H1) as (q & Hq & Hq0). rewrite pow2_S in Hq.
  assert (Hbit : Z.testbit (count ts1 + j) (Z.of_nat h) = false).
  { replace (count ts1 + j) with (2 * q * 2 ^ Z.of_nat h + j) by lia.
    rewrite testbit_here by lia. by rewrite Z.odd_mul. }
  rewrite Hbit, Z.pow_add_r, Z.pow_1_r by lia.
  rewrite (proj2 (Z.leb_le _ _)); [done|].
  rewrite flat_app, flat_cons, !zlength_app, (zlength_flat 0 h ts2) by done.
  pose proof (forest_count_lt 0 h ts2 H2). pose proof (pow2_pos h).
  destruct ts2; [rewrite count_nil in *; simpl; lia|]. simpl length. lia.
Qed.

Lemma same_bits_count hi ts1 h j :
  forest (S h) hi ts1 -> 0 <= j < 2 ^ Z.of_nat h -> same_bits h (count ts1 + j) j.
Proof.
  intros H1 Hj k Hk. destruct (forest_divide _ _ _ H1) as (q & Hq & Hq0). rewrite pow2_S in Hq.
  replace (count ts1 + j) with (2 * q * 2 ^ Z.of_nat h + j) by lia. by apply testbit_low.
Qed.

(** *** The other peaks *)

Lemma tree_positions_ge off ts p :
  p ∈ tree_positions off ts -> (forall t, t ∈ ts -> 0 < zlength (flatten t)) -> off <= p.
Proof.
  revert off. induction ts as [|t ts IH]; intros off Hp Hpos; [by apply elem_of_nil in Hp|].
  simpl in Hp. pose proof (Hpos t ltac:(left)). apply elem_of_cons in Hp as [->|Hp]; [lia|].
  apply IH in Hp; [lia|]. intros u Hu. apply Hpos. by right.
Qed.

Lemma flatten_pos t : 0 < zlength (flatten t).
Proof. destruct (flatten_last t) as [l ->]. rewrite zlength_app. pose proof (zlength_nonneg l). change (zlength [_]) with 1. lia. Qed.

Lemma split_peaks_skip pre ts post pos i acc idx ps :
  pos ∉ tree_positions (zlength pre) ts ->
  split_peaks (pre ++ flat ts ++ post) pos i (tree_positions (zlength pre) ts ++ ps) acc idx
  = split_peaks (pre ++ flat ts ++ post) pos (i + length ts)%nat ps (acc ++ (thash <$> ts)) idx.
Proof.
  revert pre i acc. induction ts as [|t ts IH]; intros pre i acc Hpos.
  { simpl. by rewrite app_nil_r, Nat.add_0_r. }
  cbn [tree_positions] in *. apply not_elem_of_cons in Hpos as [Hne Hpos].
  rewrite flat_cons, <- app_assoc. cbn [app split_peaks].
  rewrite (proj2 (Z.eqb_neq _ _)), node_at_root by congruence.
  rewrite app_assoc, <- zlength_app in *. rewrite IH by done. f_equal; [simpl; lia|].
  rewrite fmap_cons, <- app_assoc. done.
Qed.

Lemma tree_positions_app off ts us :
  tree_positions off (ts ++ us) = tree_positions off ts ++ tree_positions (off + zlength (flat ts)) us.
Proof.
  revert off. induction ts as [|t ts IH]; intros off; simpl.
  - f_equal. unfold zlength. simpl. lia.
  - rewrite IH, flat_cons, zlength_app. do 3 f_equal. lia.
Qed.

Lemma tree_positions_lt off ts p : p ∈ tree_positions off ts -> p < off + zlength (flat ts).
Proof.
  revert off. induction ts as [|t ts IH]; intros off Hp; [by apply elem_of_nil in Hp|].
  rewrite flat_cons, zlength_app. pose proof (zlength_nonneg (flat ts)).
  cbn [tree_positions] in Hp. apply elem_of_cons in Hp as [->|Hp]; [lia|]. apply IH in Hp. lia.
Qed.

Lemma split_peaks_spec ts1 t ts2 :
  split_peaks (flat (ts1 ++ t :: ts2)) (zlength (flat ts1) + zlength (flatten t) - 1) 0
    (tree_positions 0 (ts1 ++ t :: ts2)) [] 0
  = Some ((thash <$> ts1) ++ (thash <$> ts2), length ts1).
Proof.
  set (pos := zlength (flat ts1) + zlength (flatten t) - 1).
  pose proof (flatten_pos t) as Ht.
  rewrite flat_app, tree_positions_app, flat_cons.
  etransitivity.
  { apply (split_peaks_skip [] ts1 (flatten t ++ flat ts2) pos 0 [] 0).
    intros Hp. apply tree_positions_lt in Hp. change (zlength []) with 0 in Hp. unfold pos in Hp. lia. }
  rewrite Z.add_0_l. cbn [tree_positions split_peaks]. rewrite (proj2 (Z.eqb_eq _ _)) by done.
  pose proof (split_peaks_skip (flat ts1 ++ flatten t) ts2 [] pos (S (length ts1))
    (thash <$> ts1) (length ts1) []) as Hs2.
  rewrite !app_nil_r, <- app_assoc, zlength_app in Hs2. etransitivity; [apply Hs2|done].
  intros Hp. apply tree_positions_ge in Hp; [unfold pos in Hp; lia|]. intros; apply flatten_pos.
Qed.

(** *** Peak heights *)

Fixpoint theight (t : tree) : nat :=
  match t with
  | TLeaf _ => 0
  | TNode l _ => S (theight l)
  end.

Lemma perfect_theight h t : perfect h t -> theight t = h.
Proof. induction 1; simpl; congruence. Qed.

Lemma forest_heights hi ts :
  forest 0 hi ts ->
  filter (fun b => Is_true (Z.testbit (count ts) (Z.of_nat b))) (rev (seq 0 hi)) = theight <$> ts.
Proof.
  revert ts. induction hi as [|hi IH]; intros ts Hf.
  { inversion Hf; [done|lia]. }
  rewrite seq_S, rev_app_distr. simpl app. inversion Hf as [|hi' h t ts' Hh Ht Hts]; subst.
  - rewrite filter_cons_False by (rewrite count_nil, Z.testbit_0_l; tauto). apply (IH []). constructor.
  - destruct (decide (h = hi)) as [->|Hne].
    + pose proof (forest_count_lt _ _ _ Hts). pose proof (count_nonneg ts').
      rewrite (count_cons hi), <- (Z.mul_1_l (2 ^ Z.of_nat hi)) by done.
      rewrite filter_cons_True by (rewrite testbit_here by lia; done).
      rewrite fmap_cons, (perfect_theight hi t Ht). f_equal. rewrite <- (IH ts' Hts).
      apply filter_ext_in. intros b Hb. rewrite list_elem_of_In, <- in_rev, in_seq in Hb.
      rewrite testbit_low; [done|lia|lia].
    + assert (Hf' : forest 0 hi (t :: ts')) by (econstructor; [|done|done]; lia).
      pose proof (forest_count_lt _ _ _ Hf'). pose proof (count_nonneg (t :: ts')).
      rewrite filter_cons_False; [by apply IH|].
      replace (count (t :: ts')) with (0 * 2 ^ Z.of_nat hi + count (t :: ts')) by lia.
      rewrite testbit_here by lia. simpl. tauto.
Qed.

(** ** Recovering the leaf count *)

(** [n -> 2n - popcount n] is strictly increasing. *)
Lemma node_count_step n : 0 <= n -> 2 * n - count_ones n < 2 * (n + 1) - count_ones (n + 1).
Proof.
  intros Hn. assert (count_ones (n + 1) <= count_ones n + 1); [|lia].
  destruct n as [|p|p]; [done| |lia]. clear Hn.
  replace (Z.pos p + 1) with (Z.pos (Pos.succ p)) by lia. simpl.
  induction p as [p IH|p IH|]; simpl; lia.
Qed.

Lemma node_count_mono a b : 0 <= a < b -> 2 * a - count_ones a < 2 * b - count_ones b.
Proof.
  intros [Ha Hab]. revert b Hab. apply (Z.lt_ind (fun b => 2 * a - count_ones a < 2 * b - count_ones b)).
  - by intros ? ? ->.
  - by apply node_count_step.
  - intros b Hb IH. unfold Z.succ. pose proof (node_count_step b ltac:(lia)). lia.
Qed.

Lemma leaf_count_search_spec fuel n lo hi :
  1 <= lo <= n -> n <= hi -> hi < 2 ^ 63 -> hi - lo < 2 ^ Z.of_nat fuel - 1 ->
  leaf_count_search fuel (2 * n - count_ones n) lo hi = Some n.
Proof.
  revert lo hi. induction fuel as [|fuel IH]; intros lo hi Hlo Hhi Hmax Hf; [simpl in Hf; lia|].
  rewrite pow2_S in Hf. cbn [leaf_count_search]. rewrite (proj2 (Z.ltb_ge _ _)) by lia.
  set (mid := lo + (hi - lo) / 2).
  assert (Hm : lo <= mid <= hi /\ mid - lo <= (hi - lo) / 2 /\ hi - mid <= (hi - lo) / 2 + 1).
  { unfold mid. pose proof (Z.div_mod (hi - lo) 2). pose proof (Z.mod_pos_bound (hi - lo) 2). lia. }
  assert (Hhalf : 2 * ((hi - lo) / 2) <= hi - lo) by (apply Z.mul_div_le; lia).
  pose proof (count_ones_le mid ltac:(lia)). pose proof (count_ones_nonneg mid).
  cbv zeta. rewrite as_u64_small by (unfold is_u64, U64_MAX; lia).
  destruct (Z.compare_spec (2 * mid - count_ones mid) (2 * n - count_ones n)) as [Heq|Hlt|Hgt].
  - f_equal. destruct (Z.lt_trichotomy mid n) as [Hc|[Hc|Hc]]; [|done|].
    + pose proof (node_count_mono mid n ltac:(lia)). lia.
    + pose proof (node_count_mono n mid ltac:(lia)). lia.
  - assert (mid < n).
    { destruct (Z.lt_ge_cases mid n) as [|Hge]; [done|]. destruct (Z.eq_dec mid n) as [->|]; [lia|].
      pose proof (node_count_mono n mid ltac:(lia)). lia. }
    apply IH; lia.
  - assert (n < mid).
    { destruct (Z.lt_ge_cases n mid) as [|Hge]; [done|]. destruct (Z.eq_dec mid n) as [->|]; [lia|].
      pose proof (node_count_mono mid n ltac:(lia)). lia. }
    rewrite (proj2 (Z.eqb_neq _ _)) by lia. apply IH; lia.
Qed.

Lemma leaf_count_from_mmr_size_spec n :
  0 <= n < 2 ^ 62 -> leaf_count_from_mmr_size (2 * n - count_ones n) = Some n.
Proof.
  intros Hn. unfold leaf_count_from_mmr_size. destruct (Z.eq_dec n 0) as [->|Hn0]; [done|].
  pose proof (node_count_mono 0 n ltac:(lia)). pose proof (count_ones_le n ltac:(lia)).
  pose proof (count_ones_nonneg n). change (count_ones 0) with 0 in *.
  rewrite (proj2 (Z.eqb_neq _ _)) by lia.
  apply leaf_count_search_spec; [lia|lia|lia|]. change (2 ^ Z.of_nat 65) with (2 ^ 65). lia.
Qed.

(** ** Round trip *)

Fixpoint append_all (m : MerkleMountainRange) (ls : list bytes) : option MerkleMountainRange :=
  match ls with
  | [] => Some m
  | h :: ls' =>
      match append m h with
      | Some (m', _) => append_all m' ls'
      | None => None
      end
  end.

Lemma mmr_ok_new : mmr_ok mmr_new [].
Proof. exists []. split_and!; [constructor|done..]. Qed.

Lemma append_all_ok m ls ls' :
  mmr_ok m ls -> zlength ls + zlength ls' < 2 ^ 64 ->
  exists m', append_all m ls' = Some m' /\ mmr_ok m' (ls ++ ls').
Proof.
  revert m ls. induction ls' as [|h ls' IH]; intros m ls Hm Hlen; cbn [append_all].
  { exists m. by rewrite app_nil_r. }
  assert (Hc : zlength (h :: ls') = 1 + zlength ls') by (unfold zlength; simpl length; lia).
  pose proof (zlength_nonneg ls').
  destruct (append_ok m ls h Hm) as (m' & pos & -> & Hm' & _); [lia|].
  destruct (IH m' (ls ++ [h]) Hm') as (m'' & Happ & Hok).
  { rewrite zlength_app. change (zlength [h]) with 1. lia. }
  exists m''. by rewrite <- app_assoc in Hok.
Qed.

Lemma take_drop_insert (a b : list bytes) x : insert_peak (length a) x (a ++ b) = a ++ x :: b.
Proof. unfold insert_peak. by rewrite take_app_length, drop_app_length. Qed.

Lemma prove_verify m ls i x :
  mmr_ok m ls -> zlength ls < 2 ^ 62 -> ls !! i = Some x ->
  exists p r, mmr_prove m (Z.of_nat i) = Some p /\ mmr_root m = Some r
    /\ mp_leaf_index p = Z.of_nat i /\ mmr_verify p x r = true.
Proof.
  intros (ts & Hf & Hn & Hc & Hl) Hlen Hx.
  assert (Hi : 0 <= Z.of_nat i < count ts).
  { apply lookup_lt_Some in Hx. unfold count, zlength. rewrite Hl. lia. }
  destruct (forest_locate 64 ts (Z.of_nat i) Hf Hi)
    as (ts1 & t & ts2 & h & j & Hts & Hij & Hj & H1 & Ht & H2).
  assert (Hleaf : tleaves t !! Z.to_nat j = Some x).
  { rewrite <- Hl, Hts in Hx. unfold fleaves in Hx. rewrite fmap_app, concat_app in Hx.
    pose proof (zlength_tleaves h t Ht). unfold count, zlength, fleaves in *.
    rewrite lookup_app_r in Hx by lia. rewrite fmap_cons in Hx. simpl concat in Hx.
    rewrite lookup_app_l in Hx by lia. rewrite <- Hx. f_equal. lia. }
  assert (Hh : (h < 64)%nat).
  { rewrite Hts in Hf. clear -Hf Ht H1. inversion H1 as [|hi k u us Hk]; subst; [|lia].
    inversion Hf as [|hi k u us Hk Hu]; subst. apply perfect_theight in Hu, Ht. lia. }
  assert (Hloop : prove_loop 65 (flat ts) (Z.of_nat i) (leaf_index_to_node_pos (Z.of_nat i)) 0 []
    = Some (path h t j, zlength (flat ts1) + zlength (flatten t) - 1)).
  { replace 65%nat with (h + S (64 - h))%nat by lia.
    rewrite Hij, (leaf_position h 64), Hts by done.
    rewrite flat_app, flat_cons, prove_loop_climb; [|done|done|by eapply same_bits_count].
    rewrite <- flat_cons, <- flat_app. by rewrite (prove_loop_peak 64). }
  assert (Hprove : mmr_prove m (Z.of_nat i) = Some {|
    mp_leaf_index := Z.of_nat i; mp_mmr_size := zlength (flat ts); mp_siblings := path h t j;
    mp_peak_hashes := (thash <$> ts1) ++ (thash <$> ts2); mp_peak_index := length ts1 |}).
  { unfold mmr_prove. rewrite Hc, Hn, (proj2 (Z.leb_gt _ _)) by lia.
    rewrite (proj2 (Z.leb_gt _ _)).
    2:{ rewrite (zlength_flat 0 64), <- (count_ones_count 0 64) by done.
        apply node_count_mono. lia. }
    rewrite Hloop, (peak_positions_spec m ls ts), Hts, split_peaks_spec by done. done. }
  eexists _, _. split; [exact Hprove|]. unfold mmr_root.
  rewrite (peak_hashes_spec m ls ts) by done. split; [reflexivity|]. split; [done|].
  unfold mmr_verify. cbn [mp_mmr_size mp_leaf_index mp_peak_hashes mp_peak_index mp_siblings].
  assert (Hcnt : count ts < 2 ^ 62) by (unfold count; by rewrite Hl).
  rewrite (zlength_flat 0 64), <- (count_ones_count 0 64), leaf_count_from_mmr_size_spec by (done || lia).
  rewrite (proj2 (Z.leb_gt _ _)) by lia.
  rewrite (count_ones_count 0 64) by done.
  assert (Hlens : length ts = S (length ts1 + length ts2)) by (rewrite Hts, length_app; simpl; lia).
  rewrite length_app, !length_fmap, (proj2 (Z.eqb_eq _ _)) by lia. simpl negb.
  unfold peak_heights_from_leaf_count. rewrite (forest_heights 64) by done.
  rewrite list_lookup_fmap, Hts at 1. rewrite list_lookup_middle by done. simpl fmap.
  rewrite (perfect_theight h) by done. rewrite length_path, bool_decide_eq_true_2 by done. simpl negb.
  rewrite decide_False by lia. apply bool_decide_eq_true_2.
  rewrite <- (length_fmap thash ts1), take_drop_insert.
  rewrite (rebuild_path h t j (Z.of_nat i) x); [|done|done|rewrite Hij; by eapply same_bits_count|done].
  by rewrite Hts, fmap_app, fmap_cons.
Qed.

(** C26: every nullifier ever appended stays provable: building the
    accumulator from any sequence of nullifier hashes never reads out of
    bounds, and for each of them the generated inclusion proof verifies
    against the bagged root. *)
Theorem mmr_prove_verify (ls : list bytes) :
  zlength ls < 2 ^ 62 ->
  exists m, append_all mmr_new ls = Some m
    /\ mmr_leaf_count m = zlength ls
    /\ forall i x, ls !! i = Some x ->
       exists p r, mmr_prove m (Z.of_nat i) = Some p /\ mmr_root m = Some r
         /\ mp_leaf_index p = Z.of_nat i /\ mmr_verify p x r = true.
Proof.
  intros Hlen. destruct (append_all_ok mmr_new [] ls mmr_ok_new) as (m & Happ & Hok).
  { change (zlength []) with 0. lia. }
  rewrite app_nil_l in Hok. exists m. split; [done|]. split.
  - destruct Hok as (ts & _ & _ & -> & <-). done.
  - intros i x. by apply (prove_verify m ls).
Qed.

End trees.

Lemma mmr_prove_verify_witness :
  exists m p r, append_all mmr_new [[1]; [2]; [3]; [4]; [5]] = Some m
    /\ mmr_prove m 2 = Some p /\ mmr_root m = Some r /\ length (mp_siblings p) = 2%nat
    /\ mmr_verify p [3] r = true.
Proof.
  destruct (mmr_prove_verify [[1]; [2]; [3]; [4]; [5]]) as (m & Happ & _ & Hall);
    [vm_compute; reflexivity|].
  destruct (Hall 2%nat [3] eq_refl) as (p & r & Hp & Hr & _ & Hv).
  exists m, p, r. split_and!; [exact Happ|exact Hp|exact Hr| |exact Hv].
  vm_compute in Happ. injection Happ as <-. vm_compute in Hp. injection Hp as <-.
  vm_compute. reflexivity.
Defined.
