(* ===== verification/Lifecycle.v ===== *)
(** * The object lifecycle

    crates/evaporchain-state/src/evaporation.rs ([EvaporationEngine]) and
    refresh.rs ([RefreshEngine]), and the refresh transaction of
    crates/evaporchain-execution/src/lib.rs ([execute_refresh]):
    Active -> Grace -> Ghost -> Resurrected.

    The engines take [&mut dyn StateDB]; the class [StateDB] below is that
    interface, restricted to the methods they call, and [StateDBLaws] is what
    an implementation promises about its object, ghost and account maps.
    [InMemoryStateDB] discharges it. *)

From stdpp Require Import base gmap list strings.
From Stdlib Require Import ZArith Lia.
From S2P Require Import Prelude Energy DecayCurves Types Trie StateDB Mmr.

Open Scope Z_scope.

(** ** The interface *)

Class StateDB (D : Type) := {
  db_objects : D -> gmap bytes StateObject;
  db_ghosts : D -> gmap bytes GhostRecord;
  db_accounts : D -> gmap bytes Account;
  db_all_object_ids : D -> list bytes;
  db_modify_object : (StateObject -> StateObject) -> bytes -> D -> D;
  db_put_object : StateObject -> D -> D;
  db_delete_object : bytes -> D -> D;
  db_put_ghost : GhostRecord -> D -> D;
  db_remove_ghost : bytes -> D -> D;
  db_modify_account : (Account -> Account) -> bytes -> D -> D;
  db_compress_cold_subtrees : D -> D * Z;
}.

Class StateDBLaws (D : Type) `{StateDB D} := {
  all_object_ids_perm d : db_all_object_ids d ≡ₚ (map_to_list (db_objects d)).*1;
  modify_object_view f id d :
    db_objects (db_modify_object f id d) = alter f id (db_objects d)
    /\ db_ghosts (db_modify_object f id d) = db_ghosts d
    /\ db_accounts (db_modify_object f id d) = db_accounts d;
  put_object_view o d :
    db_objects (db_put_object o d) = <[ o_id o := o ]> (db_objects d)
    /\ db_ghosts (db_put_object o d) = db_ghosts d
    /\ db_accounts (db_put_object o d) = db_accounts d;
  delete_object_view id d :
    db_objects (db_delete_object id d) = base.delete id (db_objects d)
    /\ db_ghosts (db_delete_object id d) = db_ghosts d
    /\ db_accounts (db_delete_object id d) = db_accounts d;
  put_ghost_view g d :
    db_objects (db_put_ghost g d) = db_objects d
    /\ db_ghosts (db_put_ghost g d) = <[ g_object_id g := g ]> (db_ghosts d)
    /\ db_accounts (db_put_ghost g d) = db_accounts d;
  remove_ghost_view id d :
    db_objects (db_remove_ghost id d) = db_objects d
    /\ db_ghosts (db_remove_ghost id d) = base.delete id (db_ghosts d)
    /\ db_accounts (db_remove_ghost id d) = db_accounts d;
  modify_account_view f a d :
    db_objects (db_modify_account f a d) = db_objects d
    /\ db_ghosts (db_modify_account f a d) = db_ghosts d
    /\ db_accounts (db_modify_account f a d) = alter f a (db_accounts d);
  compress_view d :
    db_objects (db_compress_cold_subtrees d).1 = db_objects d
    /\ db_ghosts (db_compress_cold_subtrees d).1 = db_ghosts d
    /\ db_accounts (db_compress_cold_subtrees d).1 = db_accounts d;
}.

(** ** Evaporation *)

Record EvaporationResult := {
  entered_grace : list bytes;
  evaporated : list bytes;
  decayed : Z;
  already_ghost : Z;
  compressed_subtrees : Z;
}.

Definition DEFAULT_MAX_EVAP_SCAN : nat := Z.to_nat 50000.

Record EvaporationEngine := { grace_period : Z; max_scan_per_epoch : nat }.

Definition engine_new (grace_period : Z) : EvaporationEngine :=
  {| grace_period := grace_period; max_scan_per_epoch := DEFAULT_MAX_EVAP_SCAN |}.

Definition result_new : EvaporationResult :=
  {| entered_grace := []; evaporated := []; decayed := 0; already_ghost := 0;
     compressed_subtrees := 0 |}.

(** The energy the sweep compares with zero. *)
Definition current_energy (o : StateObject) (current_epoch : Z) : Z :=
  match o_decay_curve o with
  | Some curve =>
      compute_energy curve (o_energy o) (saturating_sub current_epoch (o_last_refreshed o))
        (Some (o_last_refreshed o))
  | None => energy_at o current_epoch
  end.

Definition set_grace_epoch (e : Z) (o : StateObject) : StateObject :=
  set_lifecycle (o_state o) (Some e) (o_energy o) (o_last_refreshed o) o.

Definition enter_grace (e : Z) (o : StateObject) : StateObject :=
  set_lifecycle Grace (Some e) 0 (o_last_refreshed o) o.

Section engines.
Context `{Blake3} {D : Type} `{StateDB D}.

Definition ghost_of (o : StateObject) (current_epoch : Z) (mmr_position : option Z) : GhostRecord :=
  {| g_object_id := o_id o; g_owner := o_owner o; g_evaporated_at := current_epoch;
     g_data_hash := blake3 (o_data o); g_original_data := Some (o_data o);
     g_mmr_position := mmr_position; g_original_half_life := Some (o_half_life o) |}.

Definition nullifier_of (o : StateObject) (current_epoch : Z) : EnergyStampedNullifier :=
  {| n_object_id := o_id o; n_value_hash := blake3 (o_data o);
     n_evaporation_epoch := current_epoch; n_energy_at_death := 0; n_owner := o_owner o |}.

Definition release_bytes (n : Z) (a : Account) : Account :=
  set_storage_bytes (saturating_sub (a_storage_bytes a) n) a.

(** [None] is a panic inside the accumulator. *)
Definition evaporate_object (d : D) (o : StateObject) (current_epoch : Z)
    (mmr : option MerkleMountainRange) : option (D * option MerkleMountainRange) :=
  let finish (mmr' : option MerkleMountainRange) (pos : option Z) :=
    let d := db_modify_account (release_bytes (Z.of_nat (length (o_data o)))) (o_owner o) d in
    let d := db_delete_object (o_id o) d in
    (db_put_ghost (ghost_of o current_epoch pos) d, mmr') in
  match mmr with
  | None => Some (finish None None)
  | Some m =>
      match append m (nullifier_bytes (nullifier_of o current_epoch)) with
      | Some (m', pos) => Some (finish (Some m') (Some (leaf_index pos)))
      | None => None
      end
  end.

Definition sweep_state : Type := D * option MerkleMountainRange * EvaporationResult.

(** The body of the sweep for one identifier. *)
Definition process_object (eng : EvaporationEngine) (current_epoch : Z) (st : sweep_state)
    (id : bytes) : option sweep_state :=
  let '(d, mmr, r) := st in
  match db_objects d !! id with
  | None => Some st
  | Some o =>
      match o_state o with
      | Ghost =>
          Some (d, mmr, {| entered_grace := entered_grace r; evaporated := evaporated r;
                           decayed := decayed r; already_ghost := already_ghost r + 1;
                           compressed_subtrees := compressed_subtrees r |})
      | Grace =>
          let '(d, grace_start) :=
            match o_grace_epoch o with
            | Some e => (d, e)
            | None => (db_modify_object (set_grace_epoch current_epoch) id d, current_epoch)
            end in
          if wrapping_add grace_start (grace_period eng) <=? current_epoch then
            match evaporate_object d o current_epoch mmr with
            | None => None
            | Some (d, mmr) =>
                Some (d, mmr, {| entered_grace := entered_grace r;
                                 evaporated := evaporated r ++ [id]; decayed := decayed r;
                                 already_ghost := already_ghost r;
                                 compressed_subtrees := compressed_subtrees r |})
            end
          else Some (d, mmr, r)
      | Active | Resurrected =>
          if current_energy o current_epoch =? 0 then
            Some (db_modify_object (enter_grace current_epoch) id d, mmr,
                  {| entered_grace := entered_grace r ++ [id]; evaporated := evaporated r;
                     decayed := decayed r; already_ghost := already_ghost r;
                     compressed_subtrees := compressed_subtrees r |})
          else
            Some (d, mmr, {| entered_grace := entered_grace r; evaporated := evaporated r;
                             decayed := decayed r + 1; already_ghost := already_ghost r;
                             compressed_subtrees := compressed_subtrees r |})
      end
  end.

Fixpoint sweep (eng : EvaporationEngine) (current_epoch : Z) (st : sweep_state) (ids : list bytes)
  : option sweep_state :=
  match ids with
  | [] => Some st
  | id :: ids' =>
      match process_object eng current_epoch st id with
      | Some st' => sweep eng current_epoch st' ids'
      | None => None
      end
  end.

Definition process_epoch_inner (eng : EvaporationEngine) (d : D) (current_epoch : Z)
    (mmr : option MerkleMountainRange) : option sweep_state :=
  let ids := take (max_scan_per_epoch eng) (db_all_object_ids d) in
  match sweep eng current_epoch (d, mmr, result_new) ids with
  | None => None
  | Some (d, mmr, r) =>
      match evaporated r with
      | [] => Some (d, mmr, r)
      | _ =>
          let '(d, n) := db_compress_cold_subtrees d in
          Some (d, mmr, {| entered_grace := entered_grace r; evaporated := evaporated r;
                           decayed := decayed r; already_ghost := already_ghost r;
                           compressed_subtrees := n |})
      end
  end.

(** ** Refresh and resurrection *)

Inductive RefreshError :=
| ObjectNotFound (id : bytes)
| ZeroEnergy
| AlreadyActive (id : bytes)
| DataNotAvailable (id : bytes)
| DataHashMismatch (id : bytes).

(** The reference taken by [get_object_mut] marks the object even when the
    call fails; that is [db_modify_object id]. *)
Definition refresh (d : D) (object_id : bytes) (energy_deposit current_epoch : Z)
  : D * result unit RefreshError :=
  if energy_deposit =? 0 then (d, Err ZeroEnergy)
  else
    match db_objects d !! object_id with
    | None => (d, Err (ObjectNotFound object_id))
    | Some o =>
        match o_state o with
        | Active | Resurrected =>
            (db_modify_object (fun o =>
               set_lifecycle (o_state o) (o_grace_epoch o)
                 (saturating_add (o_energy o) energy_deposit) current_epoch o) object_id d, Ok tt)
        | Grace =>
            (db_modify_object (set_lifecycle Active None energy_deposit current_epoch) object_id d,
             Ok tt)
        | Ghost => (db_modify_object id object_id d, Err (ObjectNotFound object_id))
        end
    end.

Definition resurrected_object (object_id : bytes) (g : GhostRecord) (data : bytes)
    (energy_deposit current_epoch : Z) : StateObject :=
  {| o_id := object_id; o_owner := g_owner g; o_energy := energy_deposit;
     o_half_life := default 100 (g_original_half_life g); o_created_at := g_evaporated_at g;
     o_last_refreshed := current_epoch; o_state := Resurrected; o_grace_epoch := None;
     o_data := data; o_decay_curve := None; o_lad_mode := None |}.

Definition resurrect (d : D) (object_id : bytes) (energy_deposit current_epoch : Z)
  : D * result unit RefreshError :=
  if energy_deposit =? 0 then (d, Err ZeroEnergy)
  else
    match db_ghosts d !! object_id with
    | None => (d, Err (ObjectNotFound object_id))
    | Some g =>
        match g_original_data g with
        | None => (d, Err (DataNotAvailable object_id))
        | Some data =>
            let d := db_remove_ghost object_id d in
            (db_put_object (resurrected_object object_id g data energy_deposit current_epoch) d,
             Ok tt)
        end
    end.

(** ** The refresh transaction *)

Inductive ExecRefreshError :=
| NotObjectOwner
| NotGhostOwner
| RefreshFailed (e : RefreshError)
| ExecObjectNotFound (id : bytes).

Definition lift_refresh (r : D * result unit RefreshError) : D * result unit ExecRefreshError :=
  match r with
  | (d, Ok u) => (d, Ok u)
  | (d, Err e) => (d, Err (RefreshFailed e))
  end.

(** [sender] is the address derived from the transaction's public key. *)
Definition execute_refresh (d : D) (object_id : bytes) (energy_deposit : Z) (sender : option bytes)
    (epoch : Z) : D * result unit ExecRefreshError :=
  match db_objects d !! object_id with
  | Some o =>
      match sender with
      | Some s =>
          if decide (s = o_owner o)
          then lift_refresh (refresh d object_id energy_deposit epoch)
          else (d, Err NotObjectOwner)
      | None => lift_refresh (refresh d object_id energy_deposit epoch)
      end
  | None =>
      match db_ghosts d !! object_id with
      | Some g =>
          match sender with
          | Some s =>
              if decide (s = g_owner g)
              then lift_refresh (resurrect d object_id energy_deposit epoch)
              else (d, Err NotGhostOwner)
          | None => lift_refresh (resurrect d object_id energy_deposit epoch)
          end
      | None => (d, Err (ExecObjectNotFound object_id))
      end
  end.

End engines.

(** ** The in-memory database implements the interface *)

Section instance.
Context `{Blake3, Pallas, HashOrder}.

#[global] Instance InMemory_StateDB : StateDB InMemoryStateDB := {|
  db_objects := objects;
  db_ghosts := ghosts;
  db_accounts := accounts;
  db_all_object_ids := all_object_ids;
  db_modify_object := modify_object;
  db_put_object := put_object;
  db_delete_object id d := (delete_object id d).1;
  db_put_ghost := put_ghost;
  db_remove_ghost id d := (remove_ghost id d).1;
  db_modify_account := modify_account;
  db_compress_cold_subtrees := compress_cold_subtrees;
|}.

Lemma insert_alter_Some {A} (f : A -> A) (m : gmap bytes A) k x :
  m !! k = Some x -> <[ k := f x ]> m = alter f k m.
Proof.
  intros Hx. apply map_eq. intros j. destruct (decide (k = j)) as [<-|].
  - by rewrite lookup_insert_eq, lookup_alter_eq, Hx.
  - by rewrite lookup_insert_ne, lookup_alter_ne.
Qed.

Lemma alter_None {A} (f : A -> A) (m : gmap bytes A) k : m !! k = None -> m = alter f k m.
Proof.
  intros Hx. apply map_eq. intros j. destruct (decide (k = j)) as [<-|].
  - by rewrite lookup_alter_eq, Hx.
  - by rewrite lookup_alter_ne.
Qed.

#[global] Instance InMemory_laws : StateDBLaws InMemoryStateDB.
Proof.
  split; try done.
  - intros d. apply hash_keys_perm.
  - intros f k d. simpl. unfold modify_object, get_object_mut.
    destruct (objects d !! k) as [o|] eqn:E.
    + rewrite decide_True by done. simpl. split_and!; [by apply insert_alter_Some|done|done].
    + rewrite decide_False by (by intros [? [=]]). split_and!; [by apply alter_None|done|done].
  - intros f k d. simpl. unfold modify_account, get_account_mut.
    destruct (accounts d !! k) as [o|] eqn:E.
    + rewrite decide_True by done. simpl. split_and!; [done|done|by apply insert_alter_Some].
    + rewrite decide_False by (by intros [? [=]]). split_and!; [done|done|by apply alter_None].
  - intros d. simpl. unfold compress_cold_subtrees. by destruct (compress_cold _).
Qed.

End instance.

(** ** Specification of one epoch *)

(** Where one object goes in one epoch; [None] is the ghost world. *)
Definition evolve (eng : EvaporationEngine) (e : Z) (o : StateObject) : option StateObject :=
  match o_state o with
  | Ghost => Some o
  | Grace =>
      let grace_start := default e (o_grace_epoch o) in
      if wrapping_add grace_start (grace_period eng) <=? e then None
      else Some (set_grace_epoch grace_start o)
  | Active | Resurrected =>
      if current_energy o e =? 0 then Some (enter_grace e o) else Some o
  end.

(** The data an account's evaporating objects give back. *)
Definition released (eng : EvaporationEngine) (e : Z) (os : gmap bytes StateObject) (a : bytes)
    (ids : list bytes) : Z :=
  foldr (fun id n =>
    match os !! id with
    | Some o =>
        match evolve eng e o with
        | None => if decide (o_owner o = a) then Z.of_nat (length (o_data o)) + n else n
        | Some _ => n
        end
    | None => n
    end) 0 ids.

Section lifecycle.
Context `{Blake3} {D : Type} `{StateDB D, !StateDBLaws D}.

(** Objects are stored under their own identifier. *)
Definition keyed (d : D) : Prop := forall id o, db_objects d !! id = Some o -> o_id o = id.

(** The accumulator, when there is one, has room for [n] more leaves. *)
Definition mmr_fits (mmr : option MerkleMountainRange) (n : nat) : Prop :=
  match mmr with
  | None => True
  | Some m => exists ls, mmr_ok m ls /\ zlength ls + Z.of_nat n < 2 ^ 64
  end.

Lemma mmr_fits_le mmr n n' : (n' <= n)%nat -> mmr_fits mmr n -> mmr_fits mmr n'.
Proof. destruct mmr as [m|]; [|done]. intros Hn (ls & Hm & Hl). exists ls. split; [done|lia]. Qed.

Lemma evaporate_object_spec d o e mmr n :
  mmr_fits mmr (S n) ->
  exists d' mmr' pos, evaporate_object d o e mmr = Some (d', mmr') /\ mmr_fits mmr' n
    /\ db_objects d' = base.delete (o_id o) (db_objects d)
    /\ db_ghosts d' = <[ o_id o := ghost_of o e pos ]> (db_ghosts d)
    /\ db_accounts d'
       = alter (release_bytes (Z.of_nat (length (o_data o)))) (o_owner o) (db_accounts d).
Proof.
  intros Hfit.
  assert (Hview : forall pos, let d' := db_put_ghost (ghost_of o e pos) (db_delete_object (o_id o)
      (db_modify_account (release_bytes (Z.of_nat (length (o_data o)))) (o_owner o) d)) in
    db_objects d' = base.delete (o_id o) (db_objects d)
    /\ db_ghosts d' = <[ o_id o := ghost_of o e pos ]> (db_ghosts d)
    /\ db_accounts d'
       = alter (release_bytes (Z.of_nat (length (o_data o)))) (o_owner o) (db_accounts d)).
  { intros pos. cbv zeta.
    destruct (put_ghost_view (ghost_of o e pos) (db_delete_object (o_id o)
      (db_modify_account (release_bytes (Z.of_nat (length (o_data o)))) (o_owner o) d))) as (-> & -> & ->).
    destruct (delete_object_view (o_id o)
      (db_modify_account (release_bytes (Z.of_nat (length (o_data o)))) (o_owner o) d)) as (-> & -> & ->).
    by destruct (modify_account_view (release_bytes (Z.of_nat (length (o_data o)))) (o_owner o) d)
      as (-> & -> & ->). }
  unfold evaporate_object. destruct mmr as [m|].
  - destruct Hfit as (ls & Hm & Hl).
    destruct (append_ok m ls (nullifier_bytes (nullifier_of o e)) Hm) as (m' & pos & -> & Hm' & _).
    { lia. }
    eexists _, _, _. split; [reflexivity|]. split; [|apply Hview].
    exists (ls ++ [nullifier_bytes (nullifier_of o e)]). split; [done|].
    rewrite zlength_app. change (zlength [_]) with 1. lia.
  - eexists _, _, _. split; [reflexivity|]. split; [done|apply Hview].
Qed.

Lemma set_grace_epoch_id o e : o_grace_epoch o = Some e -> set_grace_epoch e o = o.
Proof. destruct o. simpl. intros ->. done. Qed.

(** One step of the sweep. *)
Lemma process_object_spec eng e d mmr r id o n :
  keyed d -> mmr_fits mmr (S n) -> db_objects d !! id = Some o ->
  exists d' mmr' r', process_object eng e (d, mmr, r) id = Some (d', mmr', r')
    /\ mmr_fits mmr' n
    /\ db_objects d' = partial_alter (fun _ => evolve eng e o) id (db_objects d)
    /\ match evolve eng e o with
       | Some _ => db_ghosts d' = db_ghosts d /\ db_accounts d' = db_accounts d
       | None =>
           (exists pos, db_ghosts d' = <[ id := ghost_of o e pos ]> (db_ghosts d))
           /\ db_accounts d'
              = alter (release_bytes (Z.of_nat (length (o_data o)))) (o_owner o) (db_accounts d)
       end.
Proof.
  intros Hk Hfit Ho. assert (Hfit' : mmr_fits mmr n) by (by eapply mmr_fits_le; [|exact Hfit]; lia).
  assert (Hsame : partial_alter (fun _ => Some o) id (db_objects d) = db_objects d)
    by (rewrite <- Ho; apply partial_alter_const_id).
  assert (Halter : forall f, alter f id (db_objects d) = partial_alter (fun _ => Some (f o)) id (db_objects d)).
  { intros f. apply map_eq. intros j. destruct (decide (j = id)) as [->|].
    - by rewrite lookup_alter_eq, lookup_partial_alter_eq, Ho.
    - by rewrite lookup_alter_ne, lookup_partial_alter_ne. }
  unfold process_object, evolve. rewrite Ho. destruct (o_state o) eqn:Hst.
  1,4: destruct (current_energy o e =? 0).
  1,3: destruct (modify_object_view (enter_grace e) id d) as (Ho' & Hg' & Ha');
       eexists _, _, _; split; [reflexivity|]; split; [done|]; by rewrite Ho', Halter.
  1,2: eexists _, _, _; split; [reflexivity|]; by rewrite Hsame.
  2: eexists _, _, _; split; [reflexivity|]; by rewrite Hsame.
  destruct (o_grace_epoch o) as [gs|] eqn:Hge; simpl default.
  - destruct (wrapping_add gs (grace_period eng) <=? e).
    + destruct (evaporate_object_spec d o e mmr n Hfit) as (d' & mmr' & pos & -> & Hf & Hobj & Hgh & Hac).
      rewrite (Hk id o Ho) in Hobj, Hgh. eexists _, _, _. split; [reflexivity|]. split; [done|].
      split; [done|]. split; [by exists pos|done].
    + eexists _, _, _. split; [reflexivity|]. by rewrite set_grace_epoch_id, Hsame.
  - destruct (modify_object_view (set_grace_epoch e) id d) as (Ho' & Hg' & Ha').
    destruct (wrapping_add e (grace_period eng) <=? e).
    + destruct (evaporate_object_spec (db_modify_object (set_grace_epoch e) id d) o e mmr n Hfit)
        as (d' & mmr' & pos & -> & Hf & Hobj & Hgh & Hac).
      rewrite (Hk id o Ho) in Hobj, Hgh. rewrite Ho', Hg', Ha' in *.
      eexists _, _, _. split; [reflexivity|]. split; [done|]. split.
      * rewrite Hobj, Halter. apply map_eq. intros j. destruct (decide (j = id)) as [->|].
        -- by rewrite lookup_delete_eq, lookup_partial_alter_eq.
        -- by rewrite lookup_delete_ne, !lookup_partial_alter_ne.
      * split; [by exists pos|done].
    + eexists _, _, _. split; [reflexivity|]. split; [done|]. by rewrite Ho', Halter.
Qed.

Lemma evolve_id eng e o o' : evolve eng e o = Some o' -> o_id o' = o_id o.
Proof. unfold evolve. destruct (o_state o); repeat case_match; intros [= <-]; done. Qed.

Lemma evolve_data eng e o o' :
  evolve eng e o = Some o' -> o_data o' = o_data o /\ o_owner o' = o_owner o
    /\ o_half_life o' = o_half_life o.
Proof. unfold evolve. destruct (o_state o); repeat case_match; intros [= <-]; done. Qed.

Lemma keyed_step eng e d d' id o :
  keyed d -> db_objects d !! id = Some o ->
  db_objects d' = partial_alter (fun _ => evolve eng e o) id (db_objects d) -> keyed d'.
Proof.
  intros Hk Ho Hd' j x. rewrite Hd'. destruct (decide (j = id)) as [->|Hne].
  - rewrite lookup_partial_alter_eq. intros Hx. rewrite (evolve_id _ _ _ _ Hx). by apply Hk.
  - rewrite lookup_partial_alter_ne by done. apply Hk.
Qed.

Lemma released_nonneg eng e os a ids : 0 <= released eng e os a ids.
Proof. induction ids as [|id ids IH]; simpl; [lia|]. repeat case_match; lia. Qed.

Lemma released_ext eng e os os' a ids :
  (forall id, id ∈ ids -> os !! id = os' !! id) -> released eng e os a ids = released eng e os' a ids.
Proof.
  induction ids as [|id ids IH]; intros Heq; simpl; [done|].
  rewrite IH by (intros; apply Heq; by right). by rewrite (Heq id) by left.
Qed.

Lemma release_bytes_twice m n a :
  0 <= m -> 0 <= n -> release_bytes n (release_bytes m a) = release_bytes (m + n) a.
Proof.
  intros. unfold release_bytes, set_storage_bytes. simpl. by rewrite saturating_sub_twice.
Qed.

Lemma release_bytes_0 a : 0 <= a_storage_bytes a -> release_bytes 0 a = a.
Proof. intros. unfold release_bytes, set_storage_bytes. rewrite saturating_sub_0_r by done. by destruct a. Qed.

(** What the sweep does to every object, ghost and account. *)
Definition swept (eng : EvaporationEngine) (e : Z) (ids : list bytes) (d d' : D) : Prop :=
  (forall k, db_objects d' !! k
     = if decide (k ∈ ids) then db_objects d !! k ≫= evolve eng e else db_objects d !! k)
  /\ (forall k, (exists o pos, k ∈ ids /\ db_objects d !! k = Some o /\ evolve eng e o = None
                   /\ db_ghosts d' !! k = Some (ghost_of o e pos))
         \/ ((forall o, k ∈ ids -> db_objects d !! k = Some o -> evolve eng e o <> None)
             /\ db_ghosts d' !! k = db_ghosts d !! k))
  /\ (forall a, db_accounts d' !! a
       = release_bytes (released eng e (db_objects d) a ids) <$> db_accounts d !! a).

Lemma swept_cons eng e id ids d d1 d' :
  id ∉ ids -> swept eng e [id] d d1 -> swept eng e ids d1 d' -> swept eng e (id :: ids) d d'.
Proof.
  intros Hid (O1 & G1 & A1) (O2 & G2 & A2).
  assert (Hother : forall k, k ∈ ids -> db_objects d1 !! k = db_objects d !! k).
  { intros k Hk. rewrite O1, decide_False; [done|]. rewrite list_elem_of_singleton. by intros ->. }
  split_and!.
  - intros k. rewrite O2, O1. destruct (decide (k ∈ ids)) as [Hk|Hk].
    + assert (k <> id) by (by intros ->).
      rewrite (decide_False (P := k ∈ [id])) by (by rewrite list_elem_of_singleton).
      rewrite (decide_True (P := k ∈ id :: ids)) by (by right). done.
    + destruct (decide (k = id)) as [->|Hne].
      * rewrite (decide_True (P := id ∈ [id])) by left.
        by rewrite (decide_True (P := id ∈ id :: ids)) by left.
      * rewrite (decide_False (P := k ∈ [id])) by (by rewrite list_elem_of_singleton).
        by rewrite (decide_False (P := k ∈ id :: ids)) by (by rewrite elem_of_cons; intros [|]).
  - intros k. destruct (G2 k) as [(o & pos & Hk & Ho & He & Hg)|[Hno Hg]].
    + left. exists o, pos. rewrite Hother in Ho by done. split_and!; [set_solver|done..].
    + destruct (G1 k) as [(o & pos & Hk & Ho & He & Hg')|[Hno' Hg']].
      * left. exists o, pos. split_and!; [set_solver|done|done|by rewrite Hg].
      * right. split; [|by rewrite Hg]. intros o Hk Ho. apply elem_of_cons in Hk as [->|Hk].
        -- apply (Hno' o); [set_solver|done].
        -- apply (Hno o Hk). by rewrite Hother.
  - intros a. rewrite A2, A1, <- option_fmap_compose.
    assert (Hrel : released eng e (db_objects d1) a ids = released eng e (db_objects d) a ids)
      by (apply released_ext; auto).
    assert (Hsum : released eng e (db_objects d) a (id :: ids)
      = released eng e (db_objects d) a [id] + released eng e (db_objects d) a ids).
    { simpl. repeat case_match; lia. }
    rewrite Hrel, Hsum. destruct (db_accounts d !! a); [|done]. cbn [fmap option_fmap option_map].
    f_equal. apply release_bytes_twice; apply released_nonneg.
Qed.

Definition storage_ok (d : D) : Prop :=
  forall a x, db_accounts d !! a = Some x -> 0 <= a_storage_bytes x.

Lemma storage_ok_swept eng e ids d d' : swept eng e ids d d' -> storage_ok d -> storage_ok d'.
Proof.
  intros (_ & _ & A) Hs a x. rewrite A. intros (y & Hy & ->)%fmap_Some.
  unfold release_bytes, set_storage_bytes, saturating_sub. simpl. lia.
Qed.

Lemma process_object_swept eng e d mmr r id n :
  keyed d -> storage_ok d -> mmr_fits mmr (S n) ->
  exists d' mmr' r', process_object eng e (d, mmr, r) id = Some (d', mmr', r')
    /\ mmr_fits mmr' n /\ keyed d' /\ swept eng e [id] d d'.
Proof.
  intros Hk Hs Hfit.
  assert (Hrel0 : forall d' : D, db_accounts d' = db_accounts d ->
    (forall a, released eng e (db_objects d) a [id] = 0) ->
    forall a, db_accounts d' !! a
      = release_bytes (released eng e (db_objects d) a [id]) <$> db_accounts d !! a).
  { intros d' Hd' Hz a. rewrite Hd', Hz. destruct (db_accounts d !! a) as [x|] eqn:Ex; simpl; [|done].
    by rewrite release_bytes_0 by eauto. }
  destruct (db_objects d !! id) as [o|] eqn:Ho.
  2:{ exists d, mmr, r. unfold process_object. rewrite Ho. split; [done|].
      split; [by eapply mmr_fits_le; [|exact Hfit]; lia|]. split; [done|]. split_and!.
      - intros k. case_decide as Hin; [|done]. apply list_elem_of_singleton in Hin as ->. by rewrite Ho.
      - intros k. right. split; [|done]. intros o Hin%list_elem_of_singleton. subst. by rewrite Ho.
      - apply Hrel0; [done|]. intros a. simpl. by rewrite Ho. }
  destruct (process_object_spec eng e d mmr r id o n Hk Hfit Ho) as (d' & mmr' & r' & Hp & Hf & Hobj & Hrest).
  exists d', mmr', r'. split; [done|]. split; [done|]. split; [by eapply keyed_step|].
  split; [|split].
  - intros k. rewrite Hobj. case_decide as Hin.
    + apply list_elem_of_singleton in Hin as ->. by rewrite lookup_partial_alter_eq, Ho.
    + rewrite lookup_partial_alter_ne; [done|set_solver].
  - intros k. destruct (evolve eng e o) as [o'|] eqn:He.
    + destruct Hrest as [Hg _]. right. rewrite Hg. split; [|done].
      intros x Hin%list_elem_of_singleton. subst. rewrite Ho. intros [= <-]. by rewrite He.
    + destruct Hrest as [[pos Hg] _]. rewrite Hg. destruct (decide (k = id)) as [->|Hne].
      * left. exists o, pos. split_and!; [set_solver|done|done|by rewrite lookup_insert_eq].
      * right. rewrite lookup_insert_ne by done. split; [set_solver|done].
  - destruct (evolve eng e o) as [o'|] eqn:He; destruct Hrest as [_ Ha].
    + apply Hrel0; [done|]. intros a. simpl. by rewrite Ho, He.
    + intros a. rewrite Ha. simpl. rewrite Ho, He. destruct (decide (o_owner o = a)) as [<-|Hne].
      * by rewrite lookup_alter_eq, Z.add_0_r.
      * rewrite lookup_alter_ne by done. destruct (db_accounts d !! a) as [x|] eqn:Ex; simpl; [|done].
        by rewrite release_bytes_0 by eauto.
Qed.

Lemma sweep_spec eng e d mmr r ids :
  NoDup ids -> keyed d -> storage_ok d -> mmr_fits mmr (length ids) ->
  exists d' mmr' r', sweep eng e (d, mmr, r) ids = Some (d', mmr', r')
    /\ keyed d' /\ swept eng e ids d d'.
Proof.
  intros Hnd. revert d mmr r. induction Hnd as [|id ids Hid Hnd IH]; intros d mmr r Hk Hs Hfit.
  - exists d, mmr, r. split; [done|]. split; [done|]. split_and!.
    + intros k. by rewrite decide_False by apply not_elem_of_nil.
    + intros k. right. split; [set_solver|done].
    + intros a. simpl. destruct (db_accounts d !! a) as [x|] eqn:Ex; simpl; [|done].
      by rewrite release_bytes_0 by eauto.
  - destruct (process_object_swept eng e d mmr r id (length ids) Hk Hs Hfit)
      as (d1 & mmr1 & r1 & Hp & Hf & Hk1 & Hs1).
    destruct (IH d1 mmr1 r1 Hk1 (storage_ok_swept _ _ _ _ _ Hs1 Hs) Hf) as (d' & mmr' & r' & Hsw & Hk' & Hs').
    exists d', mmr', r'. split; [cbn [sweep]; by rewrite Hp|]. split; [done|]. by eapply swept_cons.
Qed.

(** A database the sweep handles in full. *)
Definition good (eng : EvaporationEngine) (d : D) : Prop :=
  keyed d /\ storage_ok d /\ (length (db_all_object_ids d) <= max_scan_per_epoch eng)%nat.

Lemma length_all_ids d : length (db_all_object_ids d) = size (db_objects d).
Proof. by rewrite all_object_ids_perm, length_fmap, length_map_to_list. Qed.

Lemma elem_of_all_ids d k : k ∈ db_all_object_ids d <-> is_Some (db_objects d !! k).
Proof.
  rewrite all_object_ids_perm, list_elem_of_fmap. split.
  - intros ([k' x] & -> & Hx%elem_of_map_to_list). by eexists.
  - intros [x Hx]. exists (k, x). by rewrite elem_of_map_to_list.
Qed.

Lemma compress_tail (r : EvaporationResult) (d1 : D) (mmr1 : option MerkleMountainRange) :
  exists d' mmr' r', match evaporated r with
      | [] => Some (d1, mmr1, r)
      | _ => let '(d, n) := db_compress_cold_subtrees d1 in
          Some (d, mmr1, {| entered_grace := entered_grace r; evaporated := evaporated r;
                           decayed := decayed r; already_ghost := already_ghost r;
                           compressed_subtrees := n |})
      end = Some (d', mmr', r') /\ db_objects d' = db_objects d1
    /\ db_ghosts d' = db_ghosts d1 /\ db_accounts d' = db_accounts d1.
Proof.
  pose proof (compress_view d1) as Hc. destruct (evaporated r); [by eexists _, _, _|].
  destruct (db_compress_cold_subtrees d1) as [d2 n]. by eexists _, _, _.
Qed.

Lemma process_epoch_swept eng d e mmr :
  good eng d -> mmr_fits mmr (length (db_all_object_ids d)) ->
  exists d' mmr' r, process_epoch_inner eng d e mmr = Some (d', mmr', r)
    /\ good eng d' /\ swept eng e (db_all_object_ids d) d d'.
Proof.
  intros (Hk & Hs & Hlen) Hfit. unfold process_epoch_inner. rewrite take_ge by done.
  assert (Hnd : NoDup (db_all_object_ids d))
    by (rewrite all_object_ids_perm; apply NoDup_fst_map_to_list).
  destruct (sweep_spec eng e d mmr result_new _ Hnd Hk Hs Hfit) as (d1 & mmr1 & r1 & -> & Hk1 & Hsw).
  destruct (compress_tail r1 d1 mmr1) as (d' & mmr' & r & Heq & Ho' & Hg' & Ha').
  exists d', mmr', r. split; [exact Heq|].
  assert (Hsw' : swept eng e (db_all_object_ids d) d d').
  { destruct Hsw as (O & G & A). by split_and!; [rewrite Ho'|rewrite Hg'|rewrite Ha']. }
  split; [|done]. split_and!.
  - intros k o. rewrite Ho'. apply Hk1.
  - by eapply storage_ok_swept.
  - etrans; [|exact Hlen]. rewrite !length_all_ids, <- !(size_dom (D := gset bytes)).
    apply subseteq_size. intros k. rewrite !elem_of_dom. destruct Hsw' as (O & _ & _). rewrite O.
    destruct (db_objects d !! k) eqn:E; [done|]. case_decide; by intros [? ?].
Qed.

(** A sweep over all identifiers, pointwise. *)
Lemma swept_all eng e d d' :
  swept eng e (db_all_object_ids d) d d' ->
  (forall id, db_objects d' !! id = db_objects d !! id ≫= evolve eng e)
  /\ (forall id, (exists o pos, db_objects d !! id = Some o /\ evolve eng e o = None
                    /\ db_ghosts d' !! id = Some (ghost_of o e pos))
        \/ ((forall o, db_objects d !! id = Some o -> evolve eng e o <> None)
            /\ db_ghosts d' !! id = db_ghosts d !! id)).
Proof.
  intros (O & G & _). split.
  - intros k. rewrite O. case_decide as Hk; [done|]. rewrite elem_of_all_ids in Hk.
    destruct (db_objects d !! k) eqn:E; [|done]. by destruct Hk.
  - intros k. destruct (G k) as [(o & pos & _ & ?)|[Hno ?]]; [left; by exists o, pos|].
    right. split; [|done]. intros o Ho. apply Hno; [|done]. apply elem_of_all_ids. by eexists.
Qed.

(** C17: one epoch of evaporation, object by object.  On a database whose
    objects are stored under their own identifiers, a full sweep never fails
    and moves every object exactly as [evolve] says: live objects with energy
    stay, exhausted ones enter grace with energy zero, expired ones leave the
    object map; exactly the latter leave a ghost that retains their data and
    half-life; each owner's storage account is credited with the data its
    evaporated objects held.  The outcome does not depend on the order in
    which the objects are enumerated, the accumulator positions apart. *)
Theorem process_epoch_spec (eng : EvaporationEngine) (d : D) (e : Z)
    (mmr : option MerkleMountainRange) :
  good eng d -> mmr_fits mmr (length (db_all_object_ids d)) ->
  exists d' mmr' r, process_epoch_inner eng d e mmr = Some (d', mmr', r)
    /\ (forall id, db_objects d' !! id = db_objects d !! id ≫= evolve eng e)
    /\ (forall id, (exists o pos, db_objects d !! id = Some o /\ evolve eng e o = None
                      /\ db_ghosts d' !! id = Some (ghost_of o e pos))
          \/ ((forall o, db_objects d !! id = Some o -> evolve eng e o <> None)
              /\ db_ghosts d' !! id = db_ghosts d !! id))
    /\ (forall a, db_accounts d' !! a
          = release_bytes (released eng e (db_objects d) a (db_all_object_ids d))
              <$> db_accounts d !! a).
Proof.
  intros Hg Hfit. destruct (process_epoch_swept eng d e mmr Hg Hfit) as (d' & mmr' & r & Hp & _ & Hsw).
  exists d', mmr', r. split; [done|]. destruct (swept_all eng e d d' Hsw) as [O G].
  split_and!; [done|done|]. apply Hsw.
Qed.

(** *** Many epochs *)

(** [process_epoch] once per epoch of the list. *)
Fixpoint run_epochs (eng : EvaporationEngine) (es : list Z) (d : D) : option D :=
  match es with
  | [] => Some d
  | e :: es' =>
      match process_epoch_inner eng d e None with
      | Some (d', _, _) => run_epochs eng es' d'
      | None => None
      end
  end.

(** What that does to one object. *)
Fixpoint evolve_all (eng : EvaporationEngine) (es : list Z) (o : StateObject) : option StateObject :=
  match es with
  | [] => Some o
  | e :: es' => evolve eng e o ≫= evolve_all eng es'
  end.

Lemma run_epochs_spec eng es d :
  good eng d ->
  exists d', run_epochs eng es d = Some d' /\ good eng d'
    /\ forall id, db_objects d' !! id = db_objects d !! id ≫= evolve_all eng es.
Proof.
  revert d. induction es as [|e es IH]; intros d Hg.
  { exists d. split_and!; try done. intros id. simpl. by destruct (db_objects d !! id). }
  destruct (process_epoch_swept eng d e None Hg I) as (d1 & mmr1 & r1 & Hp & Hg1 & Hsw).
  destruct (IH d1 Hg1) as (d' & Hr & Hg' & Ho). exists d'. cbn [run_epochs]. rewrite Hp.
  split_and!; try done; try apply Hg'. intros id. rewrite Ho.
  destruct (swept_all eng e d d1 Hsw) as [O _]. rewrite O.
  destruct (db_objects d !! id) as [o|]; [|done]. simpl. done.
Qed.

Lemma evolve_grace_stays eng e0 o es :
  0 <= e0 -> 0 <= grace_period eng -> e0 + grace_period eng <= U64_MAX ->
  Forall (fun e => e < e0 + grace_period eng) es ->
  evolve_all eng es (enter_grace e0 o) = Some (enter_grace e0 o).
Proof.
  intros He Hp Hmax. induction 1 as [|e es Hlt _ IH]; [done|]. simpl. unfold evolve. simpl.
  unfold wrapping_add. rewrite as_u64_small by u64_lia.
  rewrite (proj2 (Z.leb_gt _ _)) by lia. simpl. exact IH.
Qed.

(** C34: the grace period is honoured.  An object whose energy is exhausted
    at epoch [e0] survives every sweep before [e0 + grace_period], in state
    Grace with all its data; the first sweep at or after that epoch removes
    it and leaves a ghost holding its data. *)
Theorem grace_period_honoured (eng : EvaporationEngine) (d : D) (id : bytes) (o : StateObject)
    (e0 : Z) (es : list Z) :
  good eng d -> db_objects d !! id = Some o -> o_state o = Active \/ o_state o = Resurrected ->
  current_energy o e0 = 0 ->
  0 <= e0 -> 0 <= grace_period eng -> e0 + grace_period eng <= U64_MAX ->
  Forall (fun e => e < e0 + grace_period eng) es ->
  exists d1, run_epochs eng (e0 :: es) d = Some d1
    /\ db_objects d1 !! id = Some (enter_grace e0 o)
    /\ forall e, e0 + grace_period eng <= e ->
       exists d2 mmr2 r pos, process_epoch_inner eng d1 e None = Some (d2, mmr2, r)
         /\ db_objects d2 !! id = None
         /\ db_ghosts d2 !! id = Some (ghost_of (enter_grace e0 o) e pos).
Proof.
  intros Hg Ho Hst Hen He0 Hgp Hmax Hes.
  destruct (run_epochs_spec eng (e0 :: es) d Hg) as (d1 & Hr & Hg1 & Hobj).
  assert (Hd1 : db_objects d1 !! id = Some (enter_grace e0 o)).
  { rewrite Hobj, Ho. simpl. unfold evolve at 1. rewrite (proj2 (Z.eqb_eq _ _) Hen).
    destruct Hst as [-> | ->]; simpl; by apply evolve_grace_stays. }
  exists d1. split_and!; [done|done|]. intros e He.
  destruct (process_epoch_swept eng d1 e None Hg1 I) as (d2 & mmr2 & r2 & Hp & _ & Hsw).
  destruct (swept_all eng e d1 d2 Hsw) as [O G].
  assert (Hnone : evolve eng e (enter_grace e0 o) = None).
  { unfold evolve. simpl. unfold wrapping_add. rewrite as_u64_small by u64_lia.
    by rewrite (proj2 (Z.leb_le _ _)). }
  destruct (G id) as [(o' & pos & Ho' & _ & Hgh)|[Hno _]]; [|by exfalso; eapply Hno].
  rewrite Hd1 in Ho'. injection Ho' as <-. exists d2, mmr2, r2, pos.
  split_and!; [done| |done]. rewrite O, Hd1. exact Hnone.
Qed.

(** ** Resurrection *)

(** Every branch of [resurrect]. *)
Lemma resurrect_cases d id dep now :
  match resurrect d id dep now with
  | (d', Ok _) =>
      exists g data, dep <> 0 /\ db_ghosts d !! id = Some g /\ g_original_data g = Some data
        /\ db_objects d' = <[ id := resurrected_object id g data dep now ]> (db_objects d)
        /\ db_ghosts d' = base.delete id (db_ghosts d)
        /\ db_accounts d' = db_accounts d
  | (d', Err ZeroEnergy) => d' = d /\ dep = 0
  | (d', Err (ObjectNotFound i)) => d' = d /\ i = id /\ db_ghosts d !! id = None
  | (d', Err (DataNotAvailable i)) =>
      d' = d /\ i = id /\ exists g, db_ghosts d !! id = Some g /\ g_original_data g = None
  | (_, Err _) => False
  end.
Proof.
  unfold resurrect. destruct (Z.eqb_spec dep 0) as [->|Hd]; [done|].
  destruct (db_ghosts d !! id) as [g|] eqn:Hg; [|done].
  destruct (g_original_data g) as [data|] eqn:Hdat; [|by eauto].
  exists g, data. destruct (put_object_view (resurrected_object id g data dep now) (db_remove_ghost id d))
    as (-> & -> & ->). destruct (remove_ghost_view id d) as (-> & -> & ->). done.
Qed.

(** C33: evaporation loses no data.  An object that a sweep evaporates can be
    resurrected with any positive deposit: it comes back under its
    identifier with its owner, data and half-life, in state Resurrected with
    the deposited energy and a fresh decay clock; its ghost is consumed, so it
    cannot be resurrected twice.  The resurrection does not charge the
    owner's storage account again. *)
Theorem evaporate_resurrect_round_trip (eng : EvaporationEngine) (d : D) (id : bytes)
    (o : StateObject) (e dep now : Z) :
  good eng d -> db_objects d !! id = Some o -> evolve eng e o = None -> dep <> 0 ->
  exists d1 mmr1 r d2 o', process_epoch_inner eng d e None = Some (d1, mmr1, r)
    /\ resurrect d1 id dep now = (d2, Ok tt)
    /\ db_objects d2 !! id = Some o'
    /\ (o_id o' = id /\ o_owner o' = o_owner o /\ o_data o' = o_data o
        /\ o_half_life o' = o_half_life o /\ o_state o' = Resurrected /\ o_energy o' = dep
        /\ o_last_refreshed o' = now)
    /\ db_accounts d2 = db_accounts d1
    /\ forall dep' now', (resurrect d2 id dep' now').2
         = Err (if dep' =? 0 then ZeroEnergy else ObjectNotFound id).
Proof.
  intros Hg Ho Hev Hdep.
  destruct (process_epoch_swept eng d e None Hg I) as (d1 & mmr1 & r & Hp & _ & Hsw).
  destruct (swept_all eng e d d1 Hsw) as [_ G].
  destruct (G id) as [(x & pos & Hx & _ & Hgh)|[Hno _]]; [|by exfalso; eapply Hno].
  rewrite Ho in Hx. injection Hx as <-.
  assert (Hres := resurrect_cases d1 id dep now).
  assert (Hok : exists d2, resurrect d1 id dep now = (d2, Ok tt)).
  { unfold resurrect. rewrite (proj2 (Z.eqb_neq _ _) Hdep), Hgh. simpl. by eexists. }
  destruct Hok as [d2 Hok]. rewrite Hok in Hres.
  destruct Hres as (g & data & _ & Hg' & Hdat & Hobj & Hgho & Hacc).
  rewrite Hgh in Hg'. injection Hg' as <-. simpl in Hdat. injection Hdat as <-.
  exists d1, mmr1, r, d2, (resurrected_object id (ghost_of o e pos) (o_data o) dep now).
  split_and!; try done.
  - by rewrite Hobj, lookup_insert_eq.
  - intros dep' now'. unfold resurrect. rewrite Hgho, lookup_delete_eq. by destruct (dep' =? 0).
Qed.

(** ** Refresh *)

(** Every branch of [refresh].  A live object gets the deposit on top of
    its stored (undecayed) energy and a fresh clock, so right after the refresh
    it has all of it, however far it had decayed; an object in grace returns
    to Active with the deposit alone; in every other case the call fails and
    the maps are as before.  Nothing but the object's energy, clock and
    lifecycle state changes. *)
Theorem refresh_spec (d : D) (id : bytes) (dep now : Z) :
  match refresh d id dep now with
  | (d', Ok _) =>
      exists o o', db_objects d !! id = Some o /\ dep <> 0 /\ o_state o <> Ghost
        /\ db_objects d' = <[ id := o' ]> (db_objects d)
        /\ (o_id o' = o_id o /\ o_owner o' = o_owner o /\ o_data o' = o_data o
            /\ o_last_refreshed o' = now)
        /\ (match o_state o with
            | Grace => o_state o' = Active /\ o_energy o' = dep /\ o_grace_epoch o' = None
            | _ => o_state o' = o_state o /\ o_energy o' = saturating_add (o_energy o) dep
            end)
        /\ (is_u64 (o_energy o') -> 0 < o_half_life o -> energy_at o' now = o_energy o')
  | (d', Err _) =>
      db_objects d' = db_objects d
      /\ (dep = 0 \/ db_objects d !! id = None
          \/ exists o, db_objects d !! id = Some o /\ o_state o = Ghost)
  end
  /\ db_ghosts (refresh d id dep now).1 = db_ghosts d
  /\ db_accounts (refresh d id dep now).1 = db_accounts d.
Proof.
  unfold refresh. destruct (Z.eqb_spec dep 0) as [->|Hd]; [by auto|].
  destruct (db_objects d !! id) as [o|] eqn:Ho; [|by auto].
  assert (Halter : forall f, alter f id (db_objects d) = <[ id := f o ]> (db_objects d)).
  { intros f. symmetry. by apply insert_alter_Some. }
  assert (Hclock : forall st g en, is_u64 en -> 0 < o_half_life o ->
    energy_at (set_lifecycle st g en now o) now = en).
  { intros st g en He Hh. unfold energy_at, set_lifecycle, saturating_sub. simpl.
    rewrite Z.sub_diag. by apply energy_at_epoch_0. }
  destruct (o_state o) eqn:Hst;
    match goal with
    | |- context [db_modify_object ?f id d] =>
        destruct (modify_object_view f id d) as (Ho' & Hg' & Ha')
    end.
  1,2,4: split; [|done]; eexists o, _; rewrite Ho', Halter, Hst;
         split_and!; [done|done|done|reflexivity|done|done|done|done|..]; simpl; auto.
  split; [|done]. split; [|by eauto]. rewrite Ho'. apply map_eq. intros j.
  destruct (decide (id = j)) as [<-|].
  - rewrite lookup_alter_eq. by rewrite Ho.
  - by rewrite lookup_alter_ne.
Qed.

(** ** The refresh transaction *)

(** The owner of an identifier: of the live object, else of the ghost. *)
Definition owner_of (d : D) (id : bytes) : option bytes :=
  match db_objects d !! id with
  | Some o => Some (o_owner o)
  | None => g_owner <$> db_ghosts d !! id
  end.

(** Refreshing or resurrecting [id] leaves every other identifier and the
    owner of [id] alone. *)
Definition touches_only (id : bytes) (d d' : D) : Prop :=
  (forall k, k <> id -> db_objects d' !! k = db_objects d !! k
                        /\ db_ghosts d' !! k = db_ghosts d !! k)
  /\ owner_of d' id = owner_of d id /\ db_accounts d' = db_accounts d.

Lemma refresh_touches d id dep now : touches_only id d (refresh d id dep now).1.
Proof.
  assert (Hmod : forall f : StateObject -> StateObject, (forall o, o_owner (f o) = o_owner o) ->
    touches_only id d (db_modify_object f id d)).
  { intros f Hf. destruct (modify_object_view f id d) as (Ho & Hg & Ha). split_and!; [|..|done].
    - intros k Hk. by rewrite Ho, Hg, lookup_alter_ne.
    - unfold owner_of. rewrite Ho, Hg, lookup_alter_eq. destruct (db_objects d !! id); simpl; [|done].
      by rewrite Hf. }
  unfold refresh. destruct (dep =? 0); [done|]. destruct (db_objects d !! id) as [o|]; [|done].
  destruct (o_state o); by apply Hmod.
Qed.

Lemma resurrect_touches d id dep now :
  db_objects d !! id = None -> touches_only id d (resurrect d id dep now).1.
Proof.
  intros Hn. pose proof (resurrect_cases d id dep now) as Hc.
  destruct (resurrect d id dep now) as [d' [u|[]]]; simpl in *; try done;
    try (destruct Hc as [-> _]; done).
  destruct Hc as (g & data & _ & Hg & _ & Ho & Hgh & Ha). split_and!; [|..|done].
  - intros k Hk. by rewrite Ho, Hgh, lookup_insert_ne, lookup_delete_ne.
  - unfold owner_of. by rewrite Ho, lookup_insert_eq, Hn, Hg.
Qed.

Lemma lift_refresh_fst r : (lift_refresh (D := D) r).1 = r.1.
Proof. by destruct r as [d []]. Qed.

(** Only the owner refreshes.  A refresh transaction signed by [s]
    succeeds only if [s] owns the live object, or the ghost when there is no
    live object; otherwise the database is unchanged.  Whoever sends it, it
    touches no other object or ghost, no account, and never changes who owns
    the identifier. *)
Theorem execute_refresh_authorised (d : D) (id : bytes) (dep : Z) (sender : option bytes) (e : Z) :
  let '(d', r) := execute_refresh d id dep sender e in
  (forall s, sender = Some s -> owner_of d id <> Some s -> d' = d /\ exists err, r = Err err)
  /\ touches_only id d d'.
Proof.
  destruct (execute_refresh d id dep sender e) as [d' r] eqn:Hx. unfold execute_refresh in Hx.
  assert (Hrefl : touches_only id d d) by done.
  assert (Hok : forall p : D * result unit RefreshError, lift_refresh p = (d', r) ->
    touches_only id d p.1 -> touches_only id d d').
  { intros p Hp Ht. by rewrite <- lift_refresh_fst, Hp in Ht. }
  assert (Hdone : owner_of d id = None -> (d', r) = (d, Err (ExecObjectNotFound id)) ->
    (forall s, sender = Some s -> owner_of d id <> Some s -> d' = d /\ exists err, r = Err err)
    /\ touches_only id d d') by (intros _ [= -> ->]; eauto).
  unfold owner_of in *. destruct (db_objects d !! id) as [o|] eqn:Ho;
    [|destruct (db_ghosts d !! id) as [g|] eqn:Hg; [|by apply Hdone]];
    destruct sender as [s|]; try case_decide; subst; try (injection Hx as <- <-).
  all: split; [intros s' [= <-] Hs; try done; eauto|].
  all: try done.
  all: eapply Hok; [exact Hx|]; first [apply refresh_touches|by apply resurrect_touches].
Qed.

End lifecycle.

(** ** Concrete lifecycles *)

Module ToyLife.

(** One exhausted object and its owner, in the in-memory database. *)
Definition obj (id : bytes) : StateObject :=
  {| o_id := id; o_owner := Toy.key 3 3; o_energy := 4; o_half_life := 1; o_created_at := 0;
     o_last_refreshed := 0; o_state := Active; o_grace_epoch := None; o_data := [7; 7];
     o_decay_curve := None; o_lad_mode := None |}.

Definition owner : Account := set_storage_bytes 9 (new_account (Toy.key 3 3)).

Definition db : InMemoryStateDB :=
  put_account owner (put_object (obj (Toy.key 1 1)) (put_object (obj (Toy.key 2 2)) db_new)).

Definition eng : EvaporationEngine := engine_new 7.

Lemma db_good : good eng db.
Proof.
  split_and!.
  - intros k o. unfold db. cbn. intros Hk.
    apply lookup_insert_Some in Hk as [[<- <-]|[_ Hk]]; [done|].
    apply lookup_insert_Some in Hk as [[<- <-]|[_ Hk]]; [done|]. by rewrite lookup_empty in Hk.
  - intros a x. unfold db. cbn. intros Hk.
    apply lookup_insert_Some in Hk as [[<- <-]|[_ Hk]]; [simpl; lia|]. by rewrite lookup_empty in Hk.
  - rewrite length_all_ids. apply Nat2Z.inj_le. vm_compute. discriminate.
Qed.

(** In grace since epoch 10. *)
Definition grace_db : InMemoryStateDB := put_object (enter_grace 10 (obj (Toy.key 1 1))) db.

Lemma grace_db_good : good eng grace_db.
Proof.
  split_and!.
  - intros k o. unfold grace_db, db. cbn. intros Hk.
    repeat (apply lookup_insert_Some in Hk as [[<- <-]|[_ Hk]]; [done|]). by rewrite lookup_empty in Hk.
  - intros a x. unfold grace_db, db. cbn. intros Hk.
    apply lookup_insert_Some in Hk as [[<- <-]|[_ Hk]]; [simpl; lia|]. by rewrite lookup_empty in Hk.
  - rewrite length_all_ids. apply Nat2Z.inj_le. vm_compute. discriminate.
Qed.

End ToyLife.

Lemma process_epoch_spec_witness :
  exists d' mmr' r, process_epoch_inner ToyLife.eng ToyLife.db 100 (Some mmr_new) = Some (d', mmr', r)
    /\ db_objects d' !! Toy.key 1 1 = Some (enter_grace 100 (ToyLife.obj (Toy.key 1 1))).
Proof.
  destruct (process_epoch_spec ToyLife.eng ToyLife.db 100 (Some mmr_new) ToyLife.db_good)
    as (d' & mmr' & r & Hp & Ho & _).
  - exists []. split; [apply mmr_ok_new|]. rewrite length_all_ids. vm_compute. reflexivity.
  - exists d', mmr', r. split; [exact Hp|]. rewrite Ho. vm_compute. reflexivity.
Defined.

Lemma grace_period_honoured_witness :
  exists d1, run_epochs ToyLife.eng [100; 103; 106] ToyLife.db = Some d1
    /\ db_objects d1 !! Toy.key 1 1 = Some (enter_grace 100 (ToyLife.obj (Toy.key 1 1))).
Proof.
  destruct (grace_period_honoured ToyLife.eng ToyLife.db (Toy.key 1 1) (ToyLife.obj (Toy.key 1 1)) 100
    [103; 106] ToyLife.db_good) as (d1 & Hr & Ho & _).
  - vm_compute. reflexivity.
  - left. reflexivity.
  - vm_compute. reflexivity.
  - lia.
  - vm_compute. discriminate.
  - vm_compute. discriminate.
  - repeat constructor.
  - exists d1. split; [exact Hr|exact Ho].
Defined.

(** Two objects of two bytes each: one evaporates and comes back, yet the
    owner's account stays credited with its bytes. *)
Lemma evaporate_resurrect_round_trip_witness :
  exists d1 mmr1 r d2 o', process_epoch_inner ToyLife.eng ToyLife.grace_db 17 None = Some (d1, mmr1, r)
    /\ resurrect d1 (Toy.key 1 1) 50 20 = (d2, Ok tt)
    /\ db_objects d2 !! Toy.key 1 1 = Some o' /\ o_data o' = [7; 7]
    /\ a_storage_bytes <$> db_accounts d2 !! Toy.key 3 3 = Some 7.
Proof.
  destruct (evaporate_resurrect_round_trip ToyLife.eng ToyLife.grace_db (Toy.key 1 1)
    (enter_grace 10 (ToyLife.obj (Toy.key 1 1))) 17 50 20 ToyLife.grace_db_good)
    as (d1 & mmr1 & r & d2 & o' & Hp & Hr & Ho & (_ & _ & Hd & _) & Ha & _).
  - vm_compute. reflexivity.
  - vm_compute. reflexivity.
  - discriminate.
  - exists d1, mmr1, r, d2, o'. split_and!; [exact Hp|exact Hr|exact Ho|exact Hd|].
    rewrite Ha. clear -Hp. vm_compute in Hp. injection Hp as <- <- <-. vm_compute. reflexivity.
Defined.

(** An object decayed to nothing at epoch 90 gets its whole initial energy
    back for a deposit of one. *)
Lemma refresh_spec_witness :
  energy_at (ToyLife.obj (Toy.key 1 1)) 90 = 0
  /\ exists o', db_objects (refresh ToyLife.db (Toy.key 1 1) 1 90).1 !! Toy.key 1 1 = Some o'
     /\ energy_at o' 90 = 5.
Proof.
  split; [vm_compute; reflexivity|].
  destruct (refresh_spec ToyLife.db (Toy.key 1 1) 1 90) as [Hspec _].
  destruct (refresh ToyLife.db (Toy.key 1 1) 1 90) as [d' r] eqn:Hr.
  assert (r = Ok tt) as -> by (vm_compute in Hr; injection Hr as _ <-; reflexivity).
  destruct Hspec as (o & o' & Ho & _ & _ & Hd & _ & Hst & Hen).
  vm_compute in Ho. injection Ho as <-. destruct Hst as [_ He].
  exists o'. split; [cbn [fst]; by rewrite Hd, lookup_insert_eq|].
  rewrite Hen, He by (rewrite ?He; vm_compute; split; discriminate || reflexivity).
  vm_compute. reflexivity.
Defined.

(** A stranger cannot refresh. *)
Lemma execute_refresh_authorised_witness :
  (execute_refresh ToyLife.db (Toy.key 1 1) 5 (Some (Toy.key 8 8)) 2).1 = ToyLife.db.
Proof.
  pose proof (execute_refresh_authorised ToyLife.db (Toy.key 1 1) 5 (Some (Toy.key 8 8)) 2) as Hx.
  destruct (execute_refresh ToyLife.db (Toy.key 1 1) 5 (Some (Toy.key 8 8)) 2) as [d' r].
  destruct Hx as [Hs _]. apply (Hs (Toy.key 8 8) eq_refl). vm_compute. discriminate.
Defined.

(** ** Enumeration order

    The identifiers come from a hash map: with an accumulator, two orders of
    the same objects give the same object map but different nullifier
    positions, hence different accumulator roots. *)
Lemma sweep_order_changes_accumulator :
  let d := put_object (enter_grace 10 (ToyLife.obj (Toy.key 2 2))) ToyLife.grace_db in
  let root ids :=
    match sweep ToyLife.eng 17 (d, Some mmr_new, result_new) ids with
    | Some (_, Some m, _) => mmr_root m
    | _ => None
    end in
  is_Some (root [Toy.key 1 1; Toy.key 2 2])
  /\ root [Toy.key 1 1; Toy.key 2 2] <> root [Toy.key 2 2; Toy.key 1 1].
Proof. vm_compute. split; [by eexists|discriminate]. Qed.
