(* ===== verification/ScriptValue.v ===== *)
(** * EvaporScript values, opcodes and contexts

    The shared types of crates/evaporchain-script/src/lib.rs ([Value] with
    its accessors, map keys and [Display], [ScriptError], [ContractEvent],
    [ExecutionContext], [contract_address], [validate_deploy_bytecode]), the
    opcode set of compiler.rs, and the interval algebra of
    crates/evaporchain-allen-decay that the virtual machine exposes.

    A Rust [String] is a [string], whose characters are its bytes; a [usize]
    that indexes code or counts operands is a [nat].  The message of a
    [Runtime] error is a constructor of [RuntimeError] carrying what the
    message interpolates.  The [hex] crate and the escaping of [Debug] for
    strings are parameters. *)

From stdpp Require Import base gmap list sorting strings pretty.
From Stdlib Require Import ZArith Lia.
From S2P Require Import Prelude Trie.

Open Scope Z_scope.

(** The values of a [u8]. *)
Definition is_u8 (b : Z) : Prop := 0 <= b < 256.

(** [hex::encode] of the hex crate: two digits per byte, so injective on
    byte strings. *)
Class Hex := hex_encode : bytes -> string.
Class HexLaws `{Hex} := hex_encode_inj a b :
  Forall is_u8 a -> Forall is_u8 b -> hex_encode a = hex_encode b -> a = b.

(** A digest is a string of bytes. *)
Class Blake3Bytes `{Blake3} := blake3_bytes b : Forall is_u8 (blake3 b).

(** [Debug] of a string: quoted and escaped by Unicode tables. *)
Class StrDebug := str_debug : string -> string.

(** ** Values *)

Inductive Value : Type :=
| U64 (n : Z)
| VBool (b : bool)
| Str (s : string)
| Address (a : bytes)
| VMap (m : gmap string Value)
| VArray (l : list Value)
| Null.

(** [PartialEq] of values: structural, maps as maps. *)
#[global] Instance Value_eq_dec : EqDecision Value.
Proof.
  refine (fix go v w := let _ : EqDecision Value := go in
    match v, w return {v = w} + {v <> w} with
    | U64 n, U64 k => cast_if (decide (n = k))
    | VBool b, VBool c => cast_if (decide (b = c))
    | Str s, Str t => cast_if (decide (s = t))
    | Address a, Address b => cast_if (decide (a = b))
    | VMap m, VMap k => cast_if (decide (m = k))
    | VArray l, VArray k => cast_if (decide (l = k))
    | Null, Null => left _
    | _, _ => right _
    end); congruence.
Defined.

(** [s.len()] *)
Definition str_len (s : string) : Z := Z.of_nat (String.length s).

(** [format!("{n}")] of a [u64] and [format!("{b}")] of a [bool]. *)
Definition show_u64 (n : Z) : string := pretty (Z.to_N n).
Definition show_bool (b : bool) : string := if b then "true" else "false".

(** Strings in the byte order of [Ord for String]. *)
Definition string_le (a b : string) : Prop := Is_true (String.leb a b).

#[global] Instance string_le_dec : RelDecision string_le.
Proof. intros a b. unfold string_le. apply _. Defined.

Definition sort_keys (l : list string) : list string := merge_sort string_le l.

(** A separated list, as the [if i > 0] loops write it. *)
Fixpoint join (sep : string) (l : list string) : string :=
  match l with
  | [] => ""
  | [x] => x
  | x :: l' => String.append x (String.append sep (join sep l'))
  end.

Section formats.
Context `{Hex}.

(** [impl Display for Value] *)
Fixpoint display (v : Value) : string :=
  match v with
  | U64 n => show_u64 n
  | VBool b => show_bool b
  | Str s => s
  | Address a => String.append "0x" (hex_encode a)
  | Null => "null"
  | VMap m =>
      let shown := map_fold (fun k w acc => <[ k := display w ]> acc) (∅ : gmap string string) m in
      let sorted_keys := sort_keys (map_to_list shown).*1 in
      String.append "{" (String.append
        (join ", " ((fun key => String.append (String (Ascii.ascii_of_nat 34) key)
           (String.append (String (Ascii.ascii_of_nat 34) ": ") (default EmptyString (shown !! key))))
           <$> sorted_keys)) "}")
  | VArray l => String.append "[" (String.append (join ", " (display <$> l)) "]")
  end.

(** [Value::to_map_key] *)
Definition to_map_key `{Blake3} (v : Value) : string :=
  match v with
  | U64 n => String.append "u:" (show_u64 n)
  | VBool b => String.append "b:" (show_bool b)
  | Str s => String.append "s:" s
  | Address a => String.append "a:" (hex_encode a)
  | Null => "n:null"
  | VMap _ => String.append "m:" (hex_encode (blake3 (bytes_of_string (display v))))
  | VArray _ => String.append "r:" (hex_encode (blake3 (bytes_of_string (display v))))
  end.

(** The derived [Debug] of [Value]; a map is shown in the hash map's order. *)
Fixpoint debug `{StrDebug, HashOrder} (v : Value) : string :=
  match v with
  | U64 n => String.append "U64(" (String.append (show_u64 n) ")")
  | VBool b => String.append "Bool(" (String.append (show_bool b) ")")
  | Str s => String.append "Str(" (String.append (str_debug s) ")")
  | Address a => String.append "Address([" (String.append (join ", " (show_u64 <$> a)) "])")
  | Null => "Null"
  | VMap m =>
      let shown := map_fold (fun k w acc => <[ k := debug w ]> acc) (∅ : gmap string string) m in
      String.append "Map({" (String.append
        (join ", " ((fun key => String.append (str_debug key)
           (String.append ": " (default EmptyString (shown !! key)))) <$> hash_keys shown)) "})")
  | VArray l => String.append "Array([" (String.append (join ", " (debug <$> l)) "])")
  end.
End formats.

(** ** Errors *)

Inductive RuntimeError : Type :=
| ExpectedU64 (v : Value)
| ExpectedBool (v : Value)
| ExpectedStr (v : Value)
| ExpectedAddress (v : Value)
| ExpectedArray (v : Value)
| ExpectedArrayVar (name : string) (v : Value)
| MemoryLimit (used : Z)
| StackOverflow
| StackUnderflow
| MethodNotFound (method : string)
| StateKeysLimit
| AddOverflow
| SubUnderflow
| MulOverflow
| CannotAdd (a b : Value)
| StringTooLarge (len : Z)
| DivisionByZero
| ModuloByZero
| ShiftOutOfRange (shift : Z)
| CannotNegate (v : Value)
| JumpOutOfBounds (target len : nat)
| LoopLimit
| ArraySizeLimit
| IndexOutOfBounds (index len : Z)
| UndefinedVariable (name : string)
| MapSetNotMap (field : string)
| MapEntryLimit
| NotMapOrArray (field : string)
| TooManyTopics (tc : nat)
| EpochOutOfRange (epoch min max : Z)
| RandomRangeZero
| CallInHook
| CallDepthExceeded
| NoExternalCaller
| WrongArity (name : string)
| InvalidInterval (which : string) (start fin : Z)
| LenUnsupported (v : Value)
| UnknownBuiltin (name : string)
| BytecodeTooLarge (n : nat)
| InvalidJump (offset target n : nat)
| InvalidMethod (name : string) (start n : nat)
| Reentrancy (contract_id : Z)
| ContractNotFound (contract_id : Z)
| ContractEvaporated (contract_id : Z)
| ContractNoEnergy (contract_id : Z)
| SourceTooLarge.

Inductive ScriptError : Type :=
| Parse (line : nat) (message : string)
| CompileError (field : string)
| Runtime (e : RuntimeError)
| GasLimitExceeded (used limit : Z)
| StepLimitExceeded (steps limit : Z)
| RequireFailed (msg : string).

#[global] Instance RuntimeError_eq_dec : EqDecision RuntimeError.
Proof. solve_decision. Defined.

#[global] Instance ScriptError_eq_dec : EqDecision ScriptError.
Proof. solve_decision. Defined.

(** [Value::as_u64] and its siblings. *)
Definition value_as_u64 (v : Value) : result Z ScriptError :=
  match v with U64 n => Ok n | other => Err (Runtime (ExpectedU64 other)) end.

Definition value_as_bool (v : Value) : result bool ScriptError :=
  match v with VBool b => Ok b | other => Err (Runtime (ExpectedBool other)) end.

Definition value_as_str (v : Value) : result string ScriptError :=
  match v with Str s => Ok s | other => Err (Runtime (ExpectedStr other)) end.

Definition value_as_address (v : Value) : result bytes ScriptError :=
  match v with Address a => Ok a | other => Err (Runtime (ExpectedAddress other)) end.

(** ** Types, schema and ABI *)

Inductive ScriptType : Type :=
| TU64 | TBool | TString | TAddress
| TMap (k v : ScriptType)
| TArray (t : ScriptType).

Record StateFieldSchema := {
  sf_name : string;
  sf_ty : ScriptType;
  sf_default : option Value;
}.

Abbreviation StateSchema := (list StateFieldSchema).

(** ** Opcodes and bytecode *)

Inductive Op : Type :=
| OPush (v : Value) | OPop | OLoad (name : string) | OStore (name : string)
| OStateLoad (field : string) | OStateStore (field : string)
| OAdd | OSub | OMul | ODiv | OMod | OShl | OShr
| OEq | ONeq | OGt | OLt | OGte | OLte
| OAnd | OOr | ONot | ONeg
| OJump (target : nat) | OJumpIf (target : nat) | OJumpIfFalse (target : nat)
| OCall (name : string) (arg_count : nat)
| OMapGet (field : string) | OMapSet (field : string)
| ORequire
| OArrayNew (count : nat) | OArrayGet | OArraySet (name : string)
| OEmit | OEmitEvent (name : string) (topic_count : nat)
| OReturn | OHalt
| OEpochNow | OBlockNum | OEnergyOf | ORequireEpochRange | OComputeDecay
| OVrfRandomness | OVrfDomainRandomness | ORandomRange
| OCallExternal (arg_count : nat).

#[global] Instance Op_eq_dec : EqDecision Op.
Proof. solve_decision. Defined.

Record EvaporBytecode := {
  methods : gmap string nat;
  opcodes : list Op;
  state_schema : StateSchema;
  bname : string;
}.

(** ** Deploy-time validation *)

Definition MAX_DEPLOY_OPCODES : Z := 65536.

(** The scan of the jump targets, [i] the offset of the head. *)
Fixpoint check_jumps (n i : nat) (ops : list Op) : result unit ScriptError :=
  match ops with
  | [] => Ok tt
  | op :: ops' =>
      match op with
      | OJump t | OJumpIf t | OJumpIfFalse t =>
          if decide (n <= t)%nat then Err (Runtime (InvalidJump i t n))
          else check_jumps n (S i) ops'
      | _ => check_jumps n (S i) ops'
      end
  end.

(** The scan of the method table, in the hash map's order. *)
Fixpoint check_methods (n : nat) (ms : gmap string nat) (names : list string)
  : result unit ScriptError :=
  match names with
  | [] => Ok tt
  | name :: names' =>
      let start := default 0%nat (ms !! name) in
      if decide (n <= start)%nat then Err (Runtime (InvalidMethod name start n))
      else check_methods n ms names'
  end.

Definition validate_deploy_bytecode `{HashOrder} (bytecode : EvaporBytecode)
  : result unit ScriptError :=
  let n := length (opcodes bytecode) in
  if MAX_DEPLOY_OPCODES <? Z.of_nat n then Err (Runtime (BytecodeTooLarge n))
  else
    let? _ := check_jumps n 0 (opcodes bytecode) in
    check_methods n (methods bytecode) (hash_keys (methods bytecode)).

(** ** Events, context, contract identities *)

Record ContractEvent := {
  ev_name : string;
  ev_topics : list Value;
  ev_data : list Value;
}.

#[global] Instance ContractEvent_eq_dec : EqDecision ContractEvent.
Proof. solve_decision. Defined.

Record ExecutionContext := {
  caller : bytes;
  owner : bytes;
  epoch : Z;
  energy : Z;
  vrf_randomness : bytes;
  call_depth : Z;
}.

Definition MAX_CALL_DEPTH : Z := 8.

Definition CONTRACT_ID_DST : bytes :=
  bytes_of_string "EVAPORCHAIN_V1_SCRIPT_CONTRACT_ID" ++ [0].

Definition contract_address `{Blake3} (contract_id : Z) : bytes :=
  blake3 (CONTRACT_ID_DST ++ to_le_bytes 8 contract_id).

(** [trait ExternalCaller]: the state of the callee side is threaded, also
    through an error. *)
Class ExternalCaller (X : Type) :=
  call_external : X -> Z -> string -> list Value -> bytes -> Z -> Z -> Z ->
    result (Value * list ContractEvent * Z) ScriptError * X.

(** ** Allen's interval algebra *)

Module Allen.

Record Interval := { start : Z; fin : Z }.

(** [Interval::new]; [None] is [EmptyOrInverted]. *)
Definition new (s e : Z) : option Interval :=
  if e <=? s then None else Some {| start := s; fin := e |}.

Definition duration (i : Interval) : Z := fin i - start i.

Inductive AllenRelation : Type :=
| Before | Meets | Overlaps | Starts | During | Finishes | Equals
| FinishedBy | Contains | StartedBy | OverlappedBy | MetBy | After.

#[global] Instance AllenRelation_eq_dec : EqDecision AllenRelation.
Proof. solve_decision. Defined.

Definition inverse (r : AllenRelation) : AllenRelation :=
  match r with
  | Before => After | Meets => MetBy | Overlaps => OverlappedBy | Starts => StartedBy
  | During => Contains | Finishes => FinishedBy | Equals => Equals
  | FinishedBy => Finishes | Contains => During | StartedBy => Starts
  | OverlappedBy => Overlaps | MetBy => Meets | After => Before
  end.

Definition compute_relation (a b : Interval) : AllenRelation :=
  let s := Z.compare (start a) (start b) in
  let e := Z.compare (fin a) (fin b) in
  let a_e_vs_b_s := Z.compare (fin a) (start b) in
  let a_s_vs_b_e := Z.compare (start a) (fin b) in
  match a_e_vs_b_s with
  | Lt => Before
  | Eq => Meets
  | Gt =>
      match a_s_vs_b_e with
      | Gt => After
      | Eq => MetBy
      | Lt =>
          match s, e with
          | Lt, Lt => Overlaps
          | Eq, Lt => Starts
          | Gt, Lt => During
          | Gt, Eq => Finishes
          | Eq, Eq => Equals
          | Lt, Eq => FinishedBy
          | Lt, Gt => Contains
          | Eq, Gt => StartedBy
          | Gt, Gt => OverlappedBy
          end
      end
  end.

(** The code the [allen_relation] built-in returns. *)
Definition code (r : AllenRelation) : Z :=
  match r with
  | Before => 0 | Meets => 1 | Overlaps => 2 | Starts => 3 | During => 4
  | Finishes => 5 | Equals => 6 | FinishedBy => 7 | Contains => 8
  | StartedBy => 9 | OverlappedBy => 10 | MetBy => 11 | After => 12
  end.

(** The table of relation.rs: what each relation means of the endpoints. *)
Definition meaning (r : AllenRelation) (a b : Interval) : Prop :=
  match r with
  | Before => fin a < start b
  | Meets => fin a = start b
  | Overlaps => start a < start b /\ start b < fin a /\ fin a < fin b
  | Starts => start a = start b /\ fin a < fin b
  | During => start b < start a /\ fin a < fin b
  | Finishes => start b < start a /\ fin a = fin b
  | Equals => start a = start b /\ fin a = fin b
  | FinishedBy => start a < start b /\ fin a = fin b
  | Contains => start a < start b /\ fin b < fin a
  | StartedBy => start a = start b /\ fin b < fin a
  | OverlappedBy => start b < start a /\ start a < fin b /\ fin b < fin a
  | MetBy => start a = fin b
  | After => fin b < start a
  end.

End Allen.

(** ** Well-formed values

    Every integer inside a value is a [u64] and every address is made of bytes: what the Rust types guarantee
    and every operation of the machine has to respect. *)

Inductive value_wf : Value -> Prop :=
| wf_u64 n : is_u64 n -> value_wf (U64 n)
| wf_bool b : value_wf (VBool b)
| wf_str s : value_wf (Str s)
| wf_address a : Forall is_u8 a -> value_wf (Address a)
| wf_map m : (forall k v, m !! k = Some v -> value_wf v) -> value_wf (VMap m)
| wf_array l : (forall v, v ∈ l -> value_wf v) -> value_wf (VArray l)
| wf_null : value_wf Null.

Create HintDb script.
#[export] Hint Constructors value_wf : script.

Lemma value_wf_map m : value_wf (VMap m) <-> map_Forall (fun _ => value_wf) m.
Proof. split; [by inversion 1|by constructor]. Qed.

Lemma value_wf_array l : value_wf (VArray l) <-> Forall value_wf l.
Proof. rewrite Forall_forall. split; [by inversion 1|by constructor]. Qed.

Lemma value_as_u64_Ok v n : value_as_u64 v = Ok n <-> v = U64 n.
Proof. destruct v; naive_solver. Qed.

Lemma value_as_bool_Ok v b : value_as_bool v = Ok b <-> v = VBool b.
Proof. destruct v; naive_solver. Qed.

Lemma value_as_str_Ok v s : value_as_str v = Ok s <-> v = Str s.
Proof. destruct v; naive_solver. Qed.

Lemma value_as_address_Ok v a : value_as_address v = Ok a <-> v = Address a.
Proof. destruct v; naive_solver. Qed.

(** *** Induction through maps and arrays *)

Fixpoint value_depth (v : Value) : nat :=
  match v with
  | VMap m => S (map_fold (fun _ w a => Nat.max (value_depth w) a) 0%nat m)
  | VArray l => S (foldr Nat.max 0%nat (value_depth <$> l))
  | _ => 0%nat
  end.

Lemma foldr_max_le (l : list nat) x : x ∈ l -> (x <= foldr Nat.max 0 l)%nat.
Proof. induction 1; simpl; lia. Qed.

Lemma value_rect_nested (P : Value -> Prop) :
  (forall n, P (U64 n)) -> (forall b, P (VBool b)) -> (forall s, P (Str s)) ->
  (forall a, P (Address a)) -> P Null ->
  (forall m, (forall k v, m !! k = Some v -> P v) -> P (VMap m)) ->
  (forall l, (forall v, v ∈ l -> P v) -> P (VArray l)) ->
  forall v, P v.
Proof.
  intros HU HB HS HA HN HM HL v. remember (value_depth v) as d eqn:Ed.
  assert (Hd : (value_depth v <= d)%nat) by lia. clear Ed. revert v Hd.
  induction (lt_wf d) as [d _ IH]. intros [n|b|s|a|m|l|] Hd; try done.
  - apply HM. intros k v Hk. apply (map_fold_max_le value_depth) in Hk. simpl in Hd.
    apply (IH (value_depth v)); lia.
  - apply HL. intros v Hv. simpl in Hd.
    pose proof (foldr_max_le (value_depth <$> l) (value_depth v)) as Hm.
    apply (IH (value_depth v)); [|done]. specialize (Hm ltac:(by apply list_elem_of_fmap_2)). lia.
Qed.

(** ** Properties of keys, intervals and validation *)

(** A value that is not a map or an array: the keys contracts index with. *)
Definition scalar (v : Value) : bool :=
  match v with VMap _ | VArray _ => false | _ => true end.

Lemma show_u64_inj a b : 0 <= a -> 0 <= b -> show_u64 a = show_u64 b -> a = b.
Proof. unfold show_u64. intros ? ? E%(inj pretty). by apply Z2N.inj in E. Qed.

Lemma append_inj_r p a b : String.append p a = String.append p b -> a = b.
Proof. by intros ?%(inj (String.append p)). Qed.

(** Two different well-formed scalar values have different map keys:
    [u64]s, booleans, strings, addresses and null never alias a slot of a
    contract's map. *)
Theorem to_map_key_injective `{Hex, Blake3, !HexLaws} v w :
  value_wf v -> value_wf w -> scalar v = true -> scalar w = true ->
  v <> w -> to_map_key v <> to_map_key w.
Proof.
  intros Hv Hw Sv Sw Hne E. apply Hne. clear Hne. destruct v, w; try discriminate;
    inversion Hv; inversion Hw; subst; try apply append_inj_r in E.
  - apply show_u64_inj in E; unfold is_u64 in *; [by subst|lia..].
  - by destruct b, b0.
  - by subst.
  - by apply hex_encode_inj in E as ->.
  - done.
Qed.

(** On non-empty intervals [compute_relation] is exactly the table of
    the thirteen relations (so they are exhaustive and mutually exclusive),
    and exchanging the intervals inverts the relation. *)
Theorem compute_relation_exact a b r :
  Allen.start a < Allen.fin a -> Allen.start b < Allen.fin b ->
  (Allen.compute_relation a b = r <-> Allen.meaning r a b) /\
  Allen.compute_relation b a = Allen.inverse (Allen.compute_relation a b).
Proof.
  destruct a as [s e], b as [s' e']. simpl. intros Ha Hb. unfold Allen.compute_relation. simpl.
  rewrite (Z.compare_antisym s s'), (Z.compare_antisym e e'),
    (Z.compare_antisym s e'), (Z.compare_antisym e s').
  destruct (Z.compare_spec s s'), (Z.compare_spec e e'), (Z.compare_spec e s'),
    (Z.compare_spec s e'); try (exfalso; lia); simpl; (split; [|done]);
    destruct r; simpl; (split; intros; [first [discriminate|lia]|first [reflexivity|exfalso; lia]]).
Qed.

Lemma compute_relation_exact_witness :
  Allen.compute_relation {| Allen.start := 3; Allen.fin := 7 |} {| Allen.start := 1; Allen.fin := 5 |}
    = Allen.OverlappedBy /\
  Allen.compute_relation {| Allen.start := 1; Allen.fin := 5 |} {| Allen.start := 3; Allen.fin := 7 |}
    = Allen.Overlaps.
Proof.
  split; [reflexivity|].
  exact (proj2 (compute_relation_exact {| Allen.start := 3; Allen.fin := 7 |}
    {| Allen.start := 1; Allen.fin := 5 |} Allen.OverlappedBy ltac:(reflexivity) ltac:(reflexivity))).
Defined.

(** *** Validation *)

Lemma check_jumps_Ok n i ops :
  check_jumps n i ops = Ok tt <->
  forall op t, op ∈ ops -> op = OJump t \/ op = OJumpIf t \/ op = OJumpIfFalse t -> (t < n)%nat.
Proof.
  revert i. induction ops as [|op ops IH]; intros i; simpl; [split; set_solver|].
  assert (Hrec : (forall o t, o ∈ op :: ops -> o = OJump t \/ o = OJumpIf t \/ o = OJumpIfFalse t -> (t < n)%nat)
    <-> (forall t, op = OJump t \/ op = OJumpIf t \/ op = OJumpIfFalse t -> (t < n)%nat) /\
        check_jumps n (S i) ops = Ok tt).
  { rewrite IH. set_solver. }
  rewrite Hrec. destruct op; try case_decide; naive_solver lia.
Qed.

Lemma check_methods_Ok n ms names :
  check_methods n ms names = Ok tt <-> forall m, m ∈ names -> (default 0 (ms !! m) < n)%nat.
Proof.
  induction names as [|m names IH]; simpl; [split; set_solver|].
  case_decide; [split; [done|]|rewrite IH; split].
  - intros Hm. specialize (Hm m ltac:(left)). lia.
  - intros Hm m' [->|Hm']%elem_of_cons; [lia|by apply Hm].
  - intros Hm m' Hm'. apply Hm. by right.
Qed.

(** What an accepted deployment satisfies. *)
Lemma validate_deploy_bytecode_Ok `{HashOrder} bc :
  validate_deploy_bytecode bc = Ok tt <->
  Z.of_nat (length (opcodes bc)) <= MAX_DEPLOY_OPCODES /\
  (forall op t, op ∈ opcodes bc ->
     op = OJump t \/ op = OJumpIf t \/ op = OJumpIfFalse t -> (t < length (opcodes bc))%nat) /\
  (forall m start, methods bc !! m = Some start -> (start < length (opcodes bc))%nat).
Proof.
  unfold validate_deploy_bytecode. zcase; [split; [done|lia]|].
  rewrite rbind_Ok. setoid_rewrite check_methods_Ok. split.
  - intros ([] & Hj & Hm). rewrite check_jumps_Ok in Hj. split_and!; [lia|done|].
    intros m start Hs. specialize (Hm m). rewrite Hs in Hm. apply Hm, elem_of_hash_keys. by eexists.
  - intros (_ & Hj & Hm). exists tt. rewrite check_jumps_Ok. split; [done|].
    intros m [start Hs]%elem_of_hash_keys. rewrite Hs. by apply (Hm m).
Qed.

(** ** A concrete hex encoder *)

Lemma to_le_bytes_u8 k n : Forall is_u8 (to_le_bytes k n).
Proof.
  revert n. induction k as [|k IH]; intros n; simpl; constructor; [|done].
  unfold is_u8. pose proof (Z.mod_pos_bound n 256). lia.
Qed.

Module ToyScript.

Definition hex_digit (d : Z) : Ascii.ascii :=
  Ascii.ascii_of_nat (Z.to_nat (if d <? 10 then d + 48 else d + 87)).

#[global] Instance toy_hex : Hex :=
  fix go bs := match bs with
  | [] => EmptyString
  | b :: bs' => String (hex_digit (b / 16)) (String (hex_digit (b mod 16)) (go bs'))
  end.

Lemma hex_digit_inj a b : 0 <= a < 16 -> 0 <= b < 16 -> hex_digit a = hex_digit b -> a = b.
Proof.
  unfold hex_digit. intros Ha Hb E%(f_equal Ascii.nat_of_ascii).
  rewrite !Ascii.nat_ascii_embedding in E by (zcase; lia).
  revert E. zcase; lia.
Qed.

#[global] Instance toy_hex_laws : HexLaws.
Proof.
  intros a. induction a as [|x a IH]; intros [|y b] Ha Hb E; try discriminate; [done|].
  apply Forall_cons in Ha as [Hx Ha], Hb as [Hy Hb]. unfold is_u8 in *.
  injection E as E1 E2 E3. f_equal; [|by apply IH].
  apply hex_digit_inj in E1; [|by split; [apply Z.div_pos|apply Z.div_lt_upper_bound]; lia..].
  apply hex_digit_inj in E2; [|by apply Z.mod_pos_bound..].
  rewrite (Z.div_mod x 16), (Z.div_mod y 16) by lia. congruence.
Qed.

#[global] Instance toy_blake3_bytes : Blake3Bytes.
Proof. intros b. apply to_le_bytes_u8. Qed.

#[global] Instance toy_hash_order : HashOrder :=
  {| hash_keys K A _ _ m := (map_to_list m).*1; hash_keys_perm K A _ _ m := Permutation_refl _ |}.

#[global] Instance toy_str_debug : StrDebug :=
  fun s => String.append (String (Ascii.ascii_of_nat 34) s) (String (Ascii.ascii_of_nat 34) "").

End ToyScript.

Lemma to_map_key_injective_witness :
  to_map_key (U64 42) <> to_map_key (Str "42").
Proof.
  exact (to_map_key_injective (U64 42) (Str "42")
    (wf_u64 42 ltac:(u64_lia)) (wf_str "42") eq_refl eq_refl ltac:(discriminate)).
Defined.
