(* ===== verification/ScriptVM.v ===== *)
(** * The EvaporScript virtual machine

    crates/evaporchain-script/src/vm.rs: the stack machine with its gas, step
    and memory meters, every opcode, every built-in function, and the entry
    points [execute*].

    The machine is threaded through a state and error monad [M].  An error
    drops the machine, as [execute_full_with_self] does, but keeps the state
    of the external caller, which outlives the call.  The interpreter loop is
    iterated at most [MAX_STEPS + 1] times; the counter is binary, so that a
    run costs what the program costs, and the theorems show that the bound is
    never what ends a run. *)

From stdpp Require Import base gmap list sorting strings pretty.
From Stdlib Require Import ZArith Lia.
From S2P Require Import Prelude Energy Trie ScriptValue.

Open Scope Z_scope.

(** ** Gas costs and limits *)

Definition GAS_PUSH : Z := 1.
Definition GAS_POP : Z := 1.
Definition GAS_LOAD : Z := 2.
Definition GAS_STORE : Z := 2.
Definition GAS_STATE_LOAD : Z := 5.
Definition GAS_STATE_STORE : Z := 10.
Definition GAS_ADD : Z := 3.
Definition GAS_SUB : Z := 3.
Definition GAS_MUL : Z := 5.
Definition GAS_DIV : Z := 5.
Definition GAS_CMP : Z := 3.
Definition GAS_LOGIC : Z := 3.
Definition GAS_JUMP : Z := 2.
Definition GAS_CALL : Z := 10.
Definition GAS_HASH_BASE : Z := 10.
Definition GAS_HASH_PER_32B : Z := 1.
Definition GAS_TOSTRING_BASE : Z := 10.
Definition GAS_TOSTRING_PER_32B : Z := 1.
Definition GAS_MAP_GET : Z := 10.
Definition GAS_MAP_SET : Z := 20.
Definition GAS_REQUIRE : Z := 5.
Definition GAS_EMIT : Z := 8.
Definition GAS_EMIT_EVENT : Z := 20.
Definition GAS_CALL_EXTERNAL : Z := 100.
Definition GAS_RETURN : Z := 1.
Definition GAS_MOD : Z := 5.
Definition GAS_SHIFT : Z := 5.
Definition GAS_ARRAY_NEW : Z := 5.
Definition GAS_ARRAY_GET : Z := 5.
Definition GAS_ARRAY_SET : Z := 10.

Definition MAX_STACK_DEPTH : Z := 1024.
Definition MAX_LOOP_ITERATIONS : Z := 100000.
Definition MAX_STRING_LEN : Z := 1048576.
Definition MAX_EVENT_TOPICS : Z := 64.
Definition MAX_MAP_ENTRIES : Z := 10000.
Definition MAX_ARRAY_SIZE : Z := 10000.
Definition MAX_STATE_KEYS : Z := 10000.
Definition MAX_STEPS : Z := 10000000.
Definition DEFAULT_GAS_LIMIT : Z := 10000000.
Definition MAX_MEMORY_BYTES : Z := 4194304.
Definition MAX_REJECTION_ITERS : nat := 64.

Create HintDb gas.
#[export] Hint Unfold GAS_PUSH GAS_POP GAS_LOAD GAS_STORE GAS_STATE_LOAD GAS_STATE_STORE GAS_ADD
  GAS_SUB GAS_MUL GAS_DIV GAS_CMP GAS_LOGIC GAS_JUMP GAS_CALL GAS_HASH_BASE GAS_HASH_PER_32B
  GAS_TOSTRING_BASE GAS_TOSTRING_PER_32B GAS_MAP_GET GAS_MAP_SET GAS_REQUIRE GAS_EMIT
  GAS_EMIT_EVENT GAS_CALL_EXTERNAL GAS_RETURN GAS_MOD GAS_SHIFT GAS_ARRAY_NEW GAS_ARRAY_GET
  GAS_ARRAY_SET div_ceil saturating_add U64_MAX str_len : gas.

(** The size of a map, as [HashMap::len]. *)
Definition map_len {A} (m : gmap string A) : Z := Z.of_nat (size m).

Fixpoint estimated_to_string_bytes (v : Value) : Z :=
  match v with
  | Str s => str_len s
  | U64 _ => 20
  | VBool _ => 5
  | Address _ => 70
  | Null => 4
  | VMap m =>
      let fluff := saturating_mul (map_len m) 6 in
      let entries := map_fold (fun k w acc => str_len k + estimated_to_string_bytes w + acc) 0 m in
      saturating_add (saturating_add fluff entries) 2
  | VArray l =>
      let fluff := saturating_mul (Z.of_nat (length l)) 2 in
      let entries := foldr Z.add 0 (estimated_to_string_bytes <$> l) in
      saturating_add (saturating_add fluff entries) 2
  end.

(** ** The machine *)

(** The operand stack has its top at the head of the list. *)
Record EvaporVM := {
  stack : list Value;
  locals : gmap string Value;
  state : gmap string Value;
  events : list string;
  structured_events : list ContractEvent;
  gas_used : Z;
  gas_limit : Z;
  step_count : Z;
  memory_used : Z;
  in_lifecycle_hook : bool;
  executing_contract_id : Z;
}.

Definition vm_new (st : gmap string Value) (limit : Z) : EvaporVM :=
  {| stack := []; locals := ∅; state := st; events := []; structured_events := [];
     gas_used := 0; gas_limit := limit; step_count := 0; memory_used := 0;
     in_lifecycle_hook := false; executing_contract_id := 0 |}.

Definition is_lifecycle_hook (method : string) : bool :=
  bool_decide (method = "on_grace" \/ method = "on_refresh" \/ method = "on_evaporate").

Definition set_stack (s : list Value) (vm : EvaporVM) : EvaporVM :=
  {| stack := s; locals := locals vm; state := state vm; events := events vm;
     structured_events := structured_events vm; gas_used := gas_used vm;
     gas_limit := gas_limit vm; step_count := step_count vm; memory_used := memory_used vm;
     in_lifecycle_hook := in_lifecycle_hook vm;
     executing_contract_id := executing_contract_id vm |}.

Definition set_locals (l : gmap string Value) (vm : EvaporVM) : EvaporVM :=
  {| stack := stack vm; locals := l; state := state vm; events := events vm;
     structured_events := structured_events vm; gas_used := gas_used vm;
     gas_limit := gas_limit vm; step_count := step_count vm; memory_used := memory_used vm;
     in_lifecycle_hook := in_lifecycle_hook vm;
     executing_contract_id := executing_contract_id vm |}.

Definition set_state (st : gmap string Value) (vm : EvaporVM) : EvaporVM :=
  {| stack := stack vm; locals := locals vm; state := st; events := events vm;
     structured_events := structured_events vm; gas_used := gas_used vm;
     gas_limit := gas_limit vm; step_count := step_count vm; memory_used := memory_used vm;
     in_lifecycle_hook := in_lifecycle_hook vm;
     executing_contract_id := executing_contract_id vm |}.

(** Append to the two event logs. *)
Definition add_events (es : list string) (ses : list ContractEvent) (vm : EvaporVM) : EvaporVM :=
  {| stack := stack vm; locals := locals vm; state := state vm; events := events vm ++ es;
     structured_events := structured_events vm ++ ses; gas_used := gas_used vm;
     gas_limit := gas_limit vm; step_count := step_count vm; memory_used := memory_used vm;
     in_lifecycle_hook := in_lifecycle_hook vm;
     executing_contract_id := executing_contract_id vm |}.

Definition set_meters (gas steps mem : Z) (vm : EvaporVM) : EvaporVM :=
  {| stack := stack vm; locals := locals vm; state := state vm; events := events vm;
     structured_events := structured_events vm; gas_used := gas;
     gas_limit := gas_limit vm; step_count := steps; memory_used := mem;
     in_lifecycle_hook := in_lifecycle_hook vm;
     executing_contract_id := executing_contract_id vm |}.

Definition set_identity (hook : bool) (id : Z) (vm : EvaporVM) : EvaporVM :=
  {| stack := stack vm; locals := locals vm; state := state vm; events := events vm;
     structured_events := structured_events vm; gas_used := gas_used vm;
     gas_limit := gas_limit vm; step_count := step_count vm; memory_used := memory_used vm;
     in_lifecycle_hook := hook; executing_contract_id := id |}.

Record ScriptCallResult := {
  return_value : Value;
  r_events : list string;
  r_structured_events : list ContractEvent;
  r_gas_used : Z;
  state_changes : gmap string Value;
}.

(** ** The monad *)

Declare Scope vm_scope.
Delimit Scope vm_scope with vm.
Open Scope vm_scope.

Section machine.
Context {X : Type} `{!ExternalCaller X, Hex, StrDebug, HashOrder, Blake3}.

Definition M (A : Type) : Type :=
  EvaporVM -> option X -> result (A * EvaporVM) ScriptError * option X.

Definition ret {A} (a : A) : M A := fun vm x => (Ok (a, vm), x).

(** The [?] operator. *)
Definition bind {A B} (c : M A) (f : A -> M B) : M B := fun vm x =>
  match c vm x with
  | (Ok (a, vm'), x') => f a vm' x'
  | (Err e, x') => (Err e, x')
  end.

Definition fail {A} (e : ScriptError) : M A := fun vm x => (Err e, x).
Definition gets {A} (f : EvaporVM -> A) : M A := fun vm x => (Ok (f vm, vm), x).
Definition modify (f : EvaporVM -> EvaporVM) : M unit := fun vm x => (Ok (tt, f vm), x).
Definition lift {A} (r : result A ScriptError) : M A := fun vm x =>
  match r with
  | Ok a => (Ok (a, vm), x)
  | Err e => (Err e, x)
  end.

Local Notation "'let!' x ':=' c 'in' k" := (bind c (fun x => k))
  (at level 10, x name, c at level 100, k at level 200) : vm_scope.

(** ** Metering and the operand stack *)

Definition track_memory (n : Z) : M unit :=
  let! used := gets memory_used in
  let used' := saturating_add used n in
  if MAX_MEMORY_BYTES <? used' then fail (Runtime (MemoryLimit used'))
  else modify (fun vm => set_meters (gas_used vm) (step_count vm) used' vm).

Definition charge_gas (cost : Z) : M unit :=
  let! used := gets gas_used in
  let! limit := gets gas_limit in
  match checked_add used cost with
  | None => fail (GasLimitExceeded U64_MAX limit)
  | Some used' =>
      if limit <? used' then fail (GasLimitExceeded used' limit)
      else modify (fun vm => set_meters used' (step_count vm) (memory_used vm) vm)
  end.

Definition push (v : Value) : M unit :=
  let! s := gets stack in
  if MAX_STACK_DEPTH <=? Z.of_nat (length s) then fail (Runtime StackOverflow)
  else modify (set_stack (v :: s)).

Definition pop : M Value :=
  let! s := gets stack in
  match s with
  | [] => fail (Runtime StackUnderflow)
  | v :: s' => let! _ := modify (set_stack s') in ret v
  end.

(** [self.pop()?.as_u64()?] and its siblings. *)
Definition pop_u64 : M Z := let! v := pop in lift (value_as_u64 v).
Definition pop_bool : M bool := let! v := pop in lift (value_as_bool v).
Definition pop_str : M string := let! v := pop in lift (value_as_str v).
Definition pop_address : M bytes := let! v := pop in lift (value_as_address v).

(** [n] pops, collected and reversed. *)
Fixpoint pop_n (n : nat) (acc : list Value) : M (list Value) :=
  match n with
  | O => ret acc
  | S n' => let! v := pop in pop_n n' (v :: acc)
  end.

(** What an emitted or required message is shown as. *)
Definition message (v : Value) : string :=
  match v with Str s => s | other => display other end.

(** The bytes an event's value is charged for. *)
Definition event_value_bytes (v : Value) : Z :=
  match v with Str s => str_len s | _ => 8 end.

(** ** Randomness *)

(** [u64::from_le_bytes(d[..8])] *)
Definition first_u64 (d : bytes) : Z := from_le_bytes (take 8 d).

Definition domain_randomness (ctx : ExecutionContext) (domain : string) : Z :=
  first_u64 (blake3 (bytes_of_string "EvaporChain_Beacon_Derive" ++ vrf_randomness ctx ++
    bytes_of_string domain)).

(** The [iter]-th sample of the rejection loop. *)
Definition range_sample (ctx : ExecutionContext) (iter : Z) : Z :=
  first_u64 (blake3 (bytes_of_string "EvaporChain_RandomRange_Reject_v1" ++ vrf_randomness ctx ++
    to_le_bytes 4 iter)).

(** The loop; [left] is [MAX_REJECTION_ITERS - iter]. *)
Fixpoint reject_loop (ctx : ExecutionContext) (max zone : Z) (left : nat) (iter : Z) : Z :=
  let raw := range_sample ctx iter in
  match left with
  | O => raw mod max
  | S left' => if raw <? zone then raw mod max else reject_loop ctx max zone left' (iter + 1)
  end.

Definition random_range (ctx : ExecutionContext) (max : Z) : Z :=
  let zone := U64_MAX - U64_MAX mod max in
  reject_loop ctx max zone MAX_REJECTION_ITERS 0.

(** ** Built-in functions *)

(** FNV-1a over the input, on [u64]. *)
Definition fnv1a (input : bytes) : Z :=
  foldl (fun h byte => wrapping_mul (Z.lxor h byte) 0x100000001b3) 0xcbf29ce484222325 input.

Definition hash_input (v : Value) : bytes :=
  match v with
  | Str s => bytes_of_string s
  | U64 n => to_le_bytes 8 n
  | Address a => a
  | _ => bytes_of_string (debug v)
  end.

Definition arity (name : string) (want got : nat) : M unit :=
  if decide (got = want) then ret tt else fail (Runtime (WrongArity name)).

Definition builtin_balance (arg_count : nat) : M Value :=
  let! _ := arity "balance" 1 arg_count in
  let! _ := pop_address in
  ret (U64 0).

Definition builtin_transfer (arg_count : nat) : M Value :=
  let! _ := arity "transfer" 2 arg_count in
  let! amount := pop_u64 in
  let! to := pop_address in
  let! _ := modify (add_events [String.append "transfer(" (String.append (show_u64 amount)
        (String.append " to 0x" (String.append (hex_encode to) ")")))] []) in
  ret Null.

Definition builtin_emit (arg_count : nat) : M Value :=
  let! _ := arity "emit" 1 arg_count in
  let! val := pop in
  let msg := message val in
  let! _ := track_memory (str_len msg) in
  let! _ := modify (add_events [msg] []) in
  ret Null.

Definition builtin_allen_relation (arg_count : nat) : M Value :=
  let! _ := arity "allen_relation" 4 arg_count in
  let! end_b := pop_u64 in
  let! start_b := pop_u64 in
  let! end_a := pop_u64 in
  let! start_a := pop_u64 in
  match Allen.new start_a end_a with
  | None => fail (Runtime (InvalidInterval "A" start_a end_a))
  | Some interval_a =>
      match Allen.new start_b end_b with
      | None => fail (Runtime (InvalidInterval "B" start_b end_b))
      | Some interval_b => ret (U64 (Allen.code (Allen.compute_relation interval_a interval_b)))
      end
  end.

Definition builtin_emit_event (arg_count : nat) : M Value :=
  if decide (arg_count < 2)%nat then fail (Runtime (WrongArity "emit_event"))
  else
    let! name := pop_str in
    let! data_val := pop in
    let! topics := pop_n (arg_count - 2) [] in
    let event_bytes := str_len name + event_value_bytes data_val +
      foldr Z.add 0 (event_value_bytes <$> topics) in
    let! _ := track_memory event_bytes in
    let! _ := modify (add_events [String.append "event:" name]
          [{| ev_name := name; ev_topics := topics; ev_data := [data_val] |}]) in
    ret Null.

Definition builtin_require (arg_count : nat) : M Value :=
  let! _ := arity "require" 2 arg_count in
  let! msg := pop in
  let! cond := pop_bool in
  if cond then ret Null else fail (RequireFailed (message msg)).

Definition builtin_min (arg_count : nat) : M Value :=
  let! _ := arity "min" 2 arg_count in
  let! b := pop_u64 in
  let! a := pop_u64 in
  ret (U64 (Z.min a b)).

Definition builtin_max (arg_count : nat) : M Value :=
  let! _ := arity "max" 2 arg_count in
  let! b := pop_u64 in
  let! a := pop_u64 in
  ret (U64 (Z.max a b)).

Definition builtin_hash (arg_count : nat) : M Value :=
  let! _ := arity "hash" 1 arg_count in
  let! val := pop in
  let input := hash_input val in
  let extra := saturating_mul (div_ceil (Z.of_nat (length input)) 32) GAS_HASH_PER_32B in
  let! _ := charge_gas (saturating_add GAS_HASH_BASE extra) in
  ret (U64 (fnv1a input)).

Definition builtin_len (arg_count : nat) : M Value :=
  let! _ := arity "len" 1 arg_count in
  let! val := pop in
  match val with
  | Str s => ret (U64 (as_u64 (str_len s)))
  | VMap m => ret (U64 (as_u64 (map_len m)))
  | VArray l => ret (U64 (as_u64 (Z.of_nat (length l))))
  | _ => fail (Runtime (LenUnsupported val))
  end.

Definition builtin_to_string (arg_count : nat) : M Value :=
  let! _ := arity "to_string" 1 arg_count in
  let! val := pop in
  let est := estimated_to_string_bytes val in
  let extra := saturating_mul (div_ceil est 32) GAS_TOSTRING_PER_32B in
  let! _ := charge_gas (saturating_add GAS_TOSTRING_BASE extra) in
  ret (Str (message val)).

Definition builtin_vrf_domain_randomness (ctx : ExecutionContext) (arg_count : nat) : M Value :=
  let! _ := arity "vrf_domain_randomness" 1 arg_count in
  let! domain := pop_str in
  ret (U64 (domain_randomness ctx domain)).

Definition builtin_random_range (ctx : ExecutionContext) (arg_count : nat) : M Value :=
  let! _ := arity "random_range" 1 arg_count in
  let! max := pop_u64 in
  if max =? 0 then fail (Runtime RandomRangeZero)
  else ret (U64 (random_range ctx max)).

Definition call_builtin (name : string) (arg_count : nat) (ctx : ExecutionContext) : M Value :=
  if String.eqb name "caller" then ret (Address (caller ctx))
  else if String.eqb name "owner" then ret (Address (owner ctx))
  else if String.eqb name "epoch" then ret (U64 (epoch ctx))
  else if String.eqb name "energy" then ret (U64 (energy ctx))
  else if String.eqb name "balance" then builtin_balance arg_count
  else if String.eqb name "transfer" then builtin_transfer arg_count
  else if String.eqb name "emit" then builtin_emit arg_count
  else if String.eqb name "allen_relation" then builtin_allen_relation arg_count
  else if String.eqb name "emit_event" then builtin_emit_event arg_count
  else if String.eqb name "require" then builtin_require arg_count
  else if String.eqb name "min" then builtin_min arg_count
  else if String.eqb name "max" then builtin_max arg_count
  else if String.eqb name "hash" then builtin_hash arg_count
  else if String.eqb name "len" then builtin_len arg_count
  else if String.eqb name "to_string" then builtin_to_string arg_count
  else if String.eqb name "vrf_domain_randomness" then builtin_vrf_domain_randomness ctx arg_count
  else if String.eqb name "random_range" then builtin_random_range ctx arg_count
  else fail (Runtime (UnknownBuiltin name)).

(** ** Opcodes

    One definition per arm of the dispatch in [execute_method]. *)

Definition op_push (val : Value) : M unit :=
  let! _ := charge_gas GAS_PUSH in
  push val.

Definition op_pop : M unit :=
  let! _ := charge_gas GAS_POP in
  let! _ := pop in
  ret tt.

Definition op_load (name : string) : M unit :=
  let! _ := charge_gas GAS_LOAD in
  let! ls := gets locals in
  push (default Null (ls !! name)).

Definition op_store (name : string) : M unit :=
  let! _ := charge_gas GAS_STORE in
  let! val := pop in
  modify (fun vm => set_locals (<[ name := val ]> (locals vm)) vm).

Definition op_state_load (field : string) : M unit :=
  let! _ := charge_gas GAS_STATE_LOAD in
  let! st := gets state in
  push (default Null (st !! field)).

Definition op_state_store (field : string) : M unit :=
  let! _ := charge_gas GAS_STATE_STORE in
  let! val := pop in
  let! st := gets state in
  if bool_decide (st !! field = None) && (MAX_STATE_KEYS <=? map_len st)
  then fail (Runtime StateKeysLimit)
  else modify (set_state (<[ field := val ]> st)).

Definition op_add : M unit :=
  let! _ := charge_gas GAS_ADD in
  let! b := pop in
  let! a := pop in
  match a, b with
  | U64 x, U64 y =>
      let! r := lift (ok_or (checked_add x y) (Runtime AddOverflow)) in
      push (U64 r)
  | Str x, Str y =>
      let concat_len := str_len x + str_len y in
      let! _ := charge_gas (3 + concat_len / 32) in
      if MAX_STRING_LEN <? concat_len then fail (Runtime (StringTooLarge concat_len))
      else
        let! _ := track_memory concat_len in
        push (Str (String.append x y))
  | _, _ => fail (Runtime (CannotAdd a b))
  end.

Definition op_sub : M unit :=
  let! _ := charge_gas GAS_SUB in
  let! b := pop_u64 in
  let! a := pop_u64 in
  let! r := lift (ok_or (checked_sub a b) (Runtime SubUnderflow)) in
  push (U64 r).

Definition op_mul : M unit :=
  let! _ := charge_gas GAS_MUL in
  let! b := pop_u64 in
  let! a := pop_u64 in
  let! r := lift (ok_or (checked_mul a b) (Runtime MulOverflow)) in
  push (U64 r).

Definition op_div : M unit :=
  let! _ := charge_gas GAS_DIV in
  let! b := pop_u64 in
  let! a := pop_u64 in
  if b =? 0 then fail (Runtime DivisionByZero)
  else push (U64 (a / b)).

Definition op_mod : M unit :=
  let! _ := charge_gas GAS_MOD in
  let! b := pop_u64 in
  let! a := pop_u64 in
  if b =? 0 then fail (Runtime ModuloByZero)
  else push (U64 (a mod b)).

Definition op_shl : M unit :=
  let! _ := charge_gas GAS_SHIFT in
  let! shift := pop_u64 in
  let! value := pop_u64 in
  if 64 <=? shift then fail (Runtime (ShiftOutOfRange shift))
  else push (U64 (as_u64 (Z.shiftl value shift))).

Definition op_shr : M unit :=
  let! _ := charge_gas GAS_SHIFT in
  let! shift := pop_u64 in
  let! value := pop_u64 in
  if 64 <=? shift then fail (Runtime (ShiftOutOfRange shift))
  else push (U64 (Z.shiftr value shift)).

Definition op_eq : M unit :=
  let! _ := charge_gas GAS_CMP in
  let! b := pop in
  let! a := pop in
  push (VBool (bool_decide (a = b))).

Definition op_neq : M unit :=
  let! _ := charge_gas GAS_CMP in
  let! b := pop in
  let! a := pop in
  push (VBool (negb (bool_decide (a = b)))).

Definition op_gt : M unit :=
  let! _ := charge_gas GAS_CMP in
  let! b := pop_u64 in
  let! a := pop_u64 in
  push (VBool (b <? a)).

Definition op_lt : M unit :=
  let! _ := charge_gas GAS_CMP in
  let! b := pop_u64 in
  let! a := pop_u64 in
  push (VBool (a <? b)).

Definition op_gte : M unit :=
  let! _ := charge_gas GAS_CMP in
  let! b := pop_u64 in
  let! a := pop_u64 in
  push (VBool (b <=? a)).

Definition op_lte : M unit :=
  let! _ := charge_gas GAS_CMP in
  let! b := pop_u64 in
  let! a := pop_u64 in
  push (VBool (a <=? b)).

Definition op_and : M unit :=
  let! _ := charge_gas GAS_LOGIC in
  let! b := pop_bool in
  let! a := pop_bool in
  push (VBool (a && b)).

Definition op_or : M unit :=
  let! _ := charge_gas GAS_LOGIC in
  let! b := pop_bool in
  let! a := pop_bool in
  push (VBool (a || b)).

Definition op_not : M unit :=
  let! _ := charge_gas GAS_LOGIC in
  let! a := pop_bool in
  push (VBool (negb a)).

Definition op_neg : M unit :=
  let! _ := charge_gas GAS_SUB in
  let! val := pop in
  match val with
  | U64 n => if n =? 0 then push (U64 0) else fail (Runtime (CannotNegate val))
  | VBool b => push (VBool (negb b))
  | other => fail (Runtime (CannotNegate other))
  end.

(** Where control goes after an opcode: on, to a target with the loop counter
    at a value, or out of the method. *)
Inductive Flow :=
| Next
| Goto (ip : nat) (loop_counter : Z)
| Done (v : Value).

(** A taken jump: a backward one counts as a loop iteration. *)
Definition take_jump (target ip : nat) (loop_counter : Z) : M Flow :=
  if decide (target <= ip)%nat then
    let loop_counter := loop_counter + 1 in
    if MAX_LOOP_ITERATIONS <? loop_counter then fail (Runtime LoopLimit)
    else ret (Goto target loop_counter)
  else ret (Goto target loop_counter).

(** The check of a jump target against the code size. *)
Definition check_target (target len : nat) : M unit :=
  if decide (len <= target)%nat then fail (Runtime (JumpOutOfBounds target len)) else ret tt.

Definition op_jump (target len ip : nat) (loop_counter : Z) : M Flow :=
  let! _ := charge_gas GAS_JUMP in
  let! _ := check_target target len in
  take_jump target ip loop_counter.

Definition op_jump_if (target len ip : nat) (loop_counter : Z) : M Flow :=
  let! _ := charge_gas GAS_JUMP in
  let! _ := check_target target len in
  let! cond := pop_bool in
  if cond then take_jump target ip loop_counter else ret Next.

Definition op_jump_if_false (target len ip : nat) (loop_counter : Z) : M Flow :=
  let! _ := charge_gas GAS_JUMP in
  let! _ := check_target target len in
  let! cond := pop_bool in
  if negb cond then take_jump target ip loop_counter else ret Next.

Definition op_call (name : string) (arg_count : nat) (ctx : ExecutionContext) : M unit :=
  let! _ := charge_gas GAS_CALL in
  let! r := call_builtin name arg_count ctx in
  push r.

Definition op_array_new (count : nat) : M unit :=
  let! _ := charge_gas GAS_ARRAY_NEW in
  if MAX_ARRAY_SIZE <? Z.of_nat count then fail (Runtime ArraySizeLimit)
  else
    let! _ := charge_gas (Z.of_nat count) in
    let! _ := track_memory (Z.of_nat count * 16) in
    let! elements := pop_n count [] in
    push (VArray elements).

(** [arr[index]] with the machine's bounds check. *)
Definition array_at (arr : list Value) (index : Z) : M Value :=
  if Z.of_nat (length arr) <=? index
  then fail (Runtime (IndexOutOfBounds index (Z.of_nat (length arr))))
  else ret (default Null (arr !! Z.to_nat index)).

(** [arr[index] = val] with the machine's bounds check. *)
Definition array_put (arr : list Value) (index : Z) (val : Value) : M (list Value) :=
  if Z.of_nat (length arr) <=? index
  then fail (Runtime (IndexOutOfBounds index (Z.of_nat (length arr))))
  else ret (<[ Z.to_nat index := val ]> arr).

Definition op_array_get : M unit :=
  let! _ := charge_gas GAS_ARRAY_GET in
  let! index := pop_u64 in
  let! array := pop in
  match array with
  | VArray arr => let! v := array_at arr index in push v
  | other => fail (Runtime (ExpectedArray other))
  end.

Definition op_array_set (name : string) : M unit :=
  let! _ := charge_gas GAS_ARRAY_SET in
  let! index := pop_u64 in
  let! value := pop in
  let! ls := gets locals in
  match ls !! name with
  | None => fail (Runtime (UndefinedVariable name))
  | Some (VArray arr) =>
      let! arr' := array_put arr index value in
      modify (set_locals (<[ name := VArray arr' ]> ls))
  | Some other => fail (Runtime (ExpectedArrayVar name other))
  end.

Definition op_map_get (field : string) : M unit :=
  let! _ := charge_gas GAS_MAP_GET in
  let! key := pop in
  let! st := gets state in
  match st !! field with
  | Some (VMap map) => push (default (U64 0) (map !! to_map_key key))
  | Some (VArray arr) =>
      let! index := lift (value_as_u64 key) in
      let! v := array_at arr index in
      push v
  | _ => push (U64 0)
  end.

Definition op_map_set (field : string) : M unit :=
  let! _ := charge_gas GAS_MAP_SET in
  let! val := pop in
  let! key := pop in
  let! st := gets state in
  let! _ := match st !! field with
            | Some (VMap _) | Some (VArray _) | None => ret tt
            | Some _ => fail (Runtime (MapSetNotMap field))
            end in
  let is_new_entry :=
    match st !! field with
    | Some (VMap m) => bool_decide (m !! to_map_key key = None)
    | None => true
    | _ => false
    end in
  let! _ := if is_new_entry then track_memory 64 else ret tt in
  match default (VMap ∅) (st !! field) with
  | VMap m =>
      let key_str := to_map_key key in
      if bool_decide (m !! key_str = None) && (MAX_MAP_ENTRIES <=? map_len m)
      then fail (Runtime MapEntryLimit)
      else modify (set_state (<[ field := VMap (<[ key_str := val ]> m) ]> st))
  | VArray arr =>
      let! index := lift (value_as_u64 key) in
      let! arr' := array_put arr index val in
      modify (set_state (<[ field := VArray arr' ]> st))
  | _ => fail (Runtime (NotMapOrArray field))
  end.

Definition op_require : M unit :=
  let! _ := charge_gas GAS_REQUIRE in
  let! cond := pop_bool in
  let! msg := pop in
  if cond then ret tt else fail (RequireFailed (message msg)).

Definition op_emit : M unit :=
  let! _ := charge_gas GAS_EMIT in
  let! val := pop in
  let msg := message val in
  let! _ := track_memory (str_len msg) in
  modify (add_events [msg] [{| ev_name := "Log"; ev_topics := []; ev_data := [Str msg] |}]).

Definition op_emit_event (name : string) (tc : nat) : M unit :=
  if MAX_EVENT_TOPICS <? Z.of_nat tc then fail (Runtime (TooManyTopics tc))
  else
    let total := S tc in
    let! _ := charge_gas (saturating_add GAS_EMIT_EVENT (Z.of_nat total)) in
    let! values := pop_n total [] in
    let event_bytes := str_len name + foldr Z.add 0 (event_value_bytes <$> values) in
    let! _ := track_memory event_bytes in
    modify (add_events [String.append "event:" name]
      [{| ev_name := name; ev_topics := take tc values; ev_data := drop tc values |}]).

(** [self.pop().or(Ok(Value::Null))] *)
Definition op_return : M Flow :=
  let! _ := charge_gas GAS_RETURN in
  let! s := gets stack in
  match s with
  | [] => ret (Done Null)
  | _ => let! v := pop in ret (Done v)
  end.

Definition op_halt : M Flow :=
  let! _ := charge_gas GAS_RETURN in
  ret (Done Null).

Definition op_epoch_now (ctx : ExecutionContext) : M unit :=
  let! _ := charge_gas GAS_PUSH in
  push (U64 (epoch ctx)).

Definition op_block_num (ctx : ExecutionContext) : M unit :=
  let! _ := charge_gas GAS_PUSH in
  push (U64 (epoch ctx)).

Definition op_energy_of (ctx : ExecutionContext) : M unit :=
  let! _ := charge_gas GAS_STATE_LOAD in
  push (U64 (energy ctx)).

Definition op_require_epoch_range (ctx : ExecutionContext) : M unit :=
  let! _ := charge_gas GAS_REQUIRE in
  let! max_epoch := pop_u64 in
  let! min_epoch := pop_u64 in
  if (epoch ctx <? min_epoch) || (max_epoch <=? epoch ctx)
  then fail (Runtime (EpochOutOfRange (epoch ctx) min_epoch max_epoch))
  else ret tt.

Definition op_compute_decay : M unit :=
  let! _ := charge_gas GAS_MUL in
  let! half_life := pop_u64 in
  let! initial_energy := pop_u64 in
  let! epochs_elapsed := pop_u64 in
  push (U64 (energy_at_epoch initial_energy half_life epochs_elapsed)).

Definition op_vrf_randomness (ctx : ExecutionContext) : M unit :=
  let! _ := charge_gas GAS_PUSH in
  push (U64 (first_u64 (vrf_randomness ctx))).

Definition op_vrf_domain_randomness (ctx : ExecutionContext) : M unit :=
  let! domain := pop_str in
  let chunks_32 := div_ceil (str_len domain) 32 in
  let! _ := charge_gas (GAS_HASH_BASE + GAS_HASH_PER_32B * chunks_32) in
  push (U64 (domain_randomness ctx domain)).

Definition op_random_range (ctx : ExecutionContext) : M unit :=
  let! _ := charge_gas GAS_STATE_LOAD in
  let! max := pop_u64 in
  if max =? 0 then fail (Runtime RandomRangeZero)
  else push (U64 (random_range ctx max)).

(** The caller identity the callee sees. *)
Definition nested_caller (id : Z) (ctx : ExecutionContext) : bytes :=
  if id =? 0 then caller ctx else contract_address id.

(** [ext.call_external(...)?], or the refusal when there is no [ext]. *)
Definition dispatch (contract_id : Z) (method : string) (args : list Value) (from : bytes)
    (ctx : ExecutionContext) (gas_remaining : Z) : M (Value * list ContractEvent * Z) :=
  fun vm x =>
    match x with
    | None => (Err (Runtime NoExternalCaller), None)
    | Some ext =>
        match call_external ext contract_id method args from (epoch ctx) (call_depth ctx + 1)
                gas_remaining with
        | (Ok r, ext') => (Ok (r, vm), Some ext')
        | (Err e, ext') => (Err e, Some ext')
        end
    end.

(** The gas the callee reports is added with the check of [charge_gas]. *)
Definition op_call_external (arg_count : nat) (ctx : ExecutionContext) : M unit :=
  let! _ := charge_gas GAS_CALL_EXTERNAL in
  let! hook := gets in_lifecycle_hook in
  if hook then fail (Runtime CallInHook)
  else if MAX_CALL_DEPTH <=? call_depth ctx then fail (Runtime CallDepthExceeded)
  else
    let! args := pop_n (arg_count - 2) [] in
    let! method := pop_str in
    let! contract_id := pop_u64 in
    let! gas_remaining := gets (fun vm => saturating_sub (gas_limit vm) (gas_used vm)) in
    let! id := gets executing_contract_id in
    let! r := dispatch contract_id method args (nested_caller id ctx) ctx gas_remaining in
    let! _ := charge_gas r.2 in
    let! _ := modify (add_events [] r.1.2) in
    push r.1.1.

(** ** The interpreter loop *)

Definition next (c : M unit) : M Flow := let! _ := c in ret Next.

(** The dispatch [match op]. *)
Definition exec_op (op : Op) (len ip : nat) (loop_counter : Z) (ctx : ExecutionContext) : M Flow :=
  match op with
  | OPush val => next (op_push val)
  | OPop => next op_pop
  | OLoad name => next (op_load name)
  | OStore name => next (op_store name)
  | OStateLoad field => next (op_state_load field)
  | OStateStore field => next (op_state_store field)
  | OAdd => next op_add
  | OSub => next op_sub
  | OMul => next op_mul
  | ODiv => next op_div
  | OMod => next op_mod
  | OShl => next op_shl
  | OShr => next op_shr
  | OEq => next op_eq
  | ONeq => next op_neq
  | OGt => next op_gt
  | OLt => next op_lt
  | OGte => next op_gte
  | OLte => next op_lte
  | OAnd => next op_and
  | OOr => next op_or
  | ONot => next op_not
  | ONeg => next op_neg
  | OJump target => op_jump target len ip loop_counter
  | OJumpIf target => op_jump_if target len ip loop_counter
  | OJumpIfFalse target => op_jump_if_false target len ip loop_counter
  | OCall name arg_count => next (op_call name arg_count ctx)
  | OArrayNew count => next (op_array_new count)
  | OArrayGet => next op_array_get
  | OArraySet name => next (op_array_set name)
  | OMapGet field => next (op_map_get field)
  | OMapSet field => next (op_map_set field)
  | ORequire => next op_require
  | OEmit => next op_emit
  | OEmitEvent name tc => next (op_emit_event name tc)
  | OReturn => op_return
  | OHalt => op_halt
  | OEpochNow => next (op_epoch_now ctx)
  | OBlockNum => next (op_block_num ctx)
  | OEnergyOf => next (op_energy_of ctx)
  | ORequireEpochRange => next (op_require_epoch_range ctx)
  | OComputeDecay => next op_compute_decay
  | OVrfRandomness => next (op_vrf_randomness ctx)
  | OVrfDomainRandomness => next (op_vrf_domain_randomness ctx)
  | ORandomRange => next (op_random_range ctx)
  | OCallExternal arg_count => next (op_call_external arg_count ctx)
  end.

(** The hard step limit. *)
Definition count_step : M unit :=
  let! steps := gets step_count in
  match checked_add steps 1 with
  | None => fail (StepLimitExceeded U64_MAX MAX_STEPS)
  | Some steps' =>
      if MAX_STEPS <? steps' then fail (StepLimitExceeded steps' MAX_STEPS)
      else modify (fun vm => set_meters (gas_used vm) steps' (memory_used vm) vm)
  end.

(** The loop's variables: the machine, [ip], [loop_counter], the caller. *)
Record Loop := {
  l_vm : EvaporVM;
  l_ip : nat;
  l_counter : Z;
  l_ext : option X;
}.

(** What [execute_method] returns, with the machine it leaves. *)
Definition Outcome : Type := result (Value * EvaporVM) ScriptError * option X.

(** One iteration of the loop. *)
Definition exec_step (bytecode : EvaporBytecode) (ctx : ExecutionContext) (s : Loop)
  : Loop + Outcome :=
  let ip := l_ip s in
  match opcodes bytecode !! ip with
  | None => inr (Ok (Null, l_vm s), l_ext s)
  | Some op =>
      match (let! _ := count_step in
             exec_op op (length (opcodes bytecode)) ip (l_counter s) ctx) (l_vm s) (l_ext s) with
      | (Err e, x) => inr (Err e, x)
      | (Ok (Next, vm), x) =>
          inl {| l_vm := vm; l_ip := S ip; l_counter := l_counter s; l_ext := x |}
      | (Ok (Goto target n, vm), x) =>
          inl {| l_vm := vm; l_ip := target; l_counter := n; l_ext := x |}
      | (Ok (Done v, vm), x) => inr (Ok (v, vm), x)
      end
  end.

(** [for arg in args { self.push(arg)?; }] *)
Fixpoint push_args (args : list Value) : M unit :=
  match args with
  | [] => ret tt
  | arg :: args' => let! _ := push arg in push_args args'
  end.

Definition STEP_FUEL : positive := Z.to_pos (MAX_STEPS + 1).

(** [None] is a loop that outlives [STEP_FUEL] iterations. *)
Definition execute_method (bytecode : EvaporBytecode) (method : string) (args : list Value)
    (ctx : ExecutionContext) (vm : EvaporVM) (x : option X) : option Outcome :=
  match methods bytecode !! method with
  | None => Some (Err (Runtime (MethodNotFound method)), x)
  | Some start_offset =>
      match push_args args vm x with
      | (Err e, x') => Some (Err e, x')
      | (Ok (_, vm'), x') =>
          match loop_pos (exec_step bytecode ctx) STEP_FUEL
                  {| l_vm := vm'; l_ip := start_offset; l_counter := 0; l_ext := x' |} with
          | inr r => Some r
          | inl _ => None
          end
      end
  end.

(** ** Entry points *)

Definition call_result (v : Value) (vm : EvaporVM) : ScriptCallResult :=
  {| return_value := v; r_events := events vm; r_structured_events := structured_events vm;
     r_gas_used := gas_used vm; state_changes := state vm |}.

Definition execute_full_with_self (bytecode : EvaporBytecode) (method : string)
    (args : list Value) (st : gmap string Value) (ctx : ExecutionContext) (limit : Z)
    (external : option X) (id : Z) : option (result ScriptCallResult ScriptError * option X) :=
  let vm := set_identity (is_lifecycle_hook method) id (vm_new st limit) in
  match execute_method bytecode method args ctx vm external with
  | None => None
  | Some (Err e, x) => Some (Err e, x)
  | Some (Ok (v, vm'), x) => Some (Ok (call_result v vm'), x)
  end.

Definition execute_full (bytecode : EvaporBytecode) (method : string)
    (args : list Value) (st : gmap string Value) (ctx : ExecutionContext) (limit : Z)
    (external : option X) : option (result ScriptCallResult ScriptError * option X) :=
  execute_full_with_self bytecode method args st ctx limit external 0.

Definition execute_with_gas_limit (bytecode : EvaporBytecode) (method : string)
    (args : list Value) (st : gmap string Value) (ctx : ExecutionContext) (limit : Z)
    : option (result ScriptCallResult ScriptError * option X) :=
  execute_full bytecode method args st ctx limit None.

Definition execute (bytecode : EvaporBytecode) (method : string)
    (args : list Value) (st : gmap string Value) (ctx : ExecutionContext)
    : option (result ScriptCallResult ScriptError * option X) :=
  execute_full bytecode method args st ctx DEFAULT_GAS_LIMIT None.

End machine.

#[global] Arguments loop_pos : simpl never.
#[global] Opaque STEP_FUEL.

(** ** Invariant of the machine *)

Definition event_wf (e : ContractEvent) : Prop :=
  Forall value_wf (ev_topics e) /\ Forall value_wf (ev_data e).

Abbreviation map_wf := (map_Forall (fun (_ : string) => value_wf)).

(** Every limit the machine promises, and well-formed data everywhere. *)
Record vm_ok (vm : EvaporVM) : Prop := {
  ok_depth : Z.of_nat (length (stack vm)) <= MAX_STACK_DEPTH;
  ok_stack : Forall value_wf (stack vm);
  ok_locals : map_wf (locals vm);
  ok_state : map_wf (state vm);
  ok_gas : 0 <= gas_used vm <= gas_limit vm;
  ok_limit : is_u64 (gas_limit vm);
  ok_memory : 0 <= memory_used vm <= MAX_MEMORY_BYTES;
  ok_steps : 0 <= step_count vm <= MAX_STEPS;
  ok_events : Forall event_wf (structured_events vm);
}.

(** How a machine may change while one opcode runs: the meters only grow, the
    limits and the identity stay, the logs are only appended to. *)
Record evolves (vm vm' : EvaporVM) : Prop := {
  ev_limit : gas_limit vm' = gas_limit vm;
  ev_hook : in_lifecycle_hook vm' = in_lifecycle_hook vm;
  ev_id : executing_contract_id vm' = executing_contract_id vm;
  ev_steps : step_count vm' = step_count vm;
  ev_gas : gas_used vm <= gas_used vm';
  ev_memory : memory_used vm <= memory_used vm';
  ev_events : events vm `prefix_of` events vm';
  ev_structured : structured_events vm `prefix_of` structured_events vm';
}.

#[global] Instance evolves_refl : Reflexive evolves.
Proof. by split. Qed.

#[global] Instance evolves_trans : Transitive evolves.
Proof. intros a b c [] []. split; try congruence; try lia; by etrans. Qed.

Record ctx_ok (ctx : ExecutionContext) : Prop := {
  ctx_caller : Forall is_u8 (caller ctx);
  ctx_owner : Forall is_u8 (owner ctx);
  ctx_epoch : is_u64 (epoch ctx);
  ctx_energy : is_u64 (energy ctx);
  ctx_vrf : Forall is_u8 (vrf_randomness ctx);
}.

(** The constants of a program are well formed. *)
Definition code_ok (ops : list Op) : Prop := forall v, OPush v ∈ ops -> value_wf v.

(** What an external caller promises, on the states [ext_ok] of its own. *)
Class ExternalCallerLaws (X : Type) `{!ExternalCaller X} (ext_ok : X -> Prop) :=
  call_external_ok x id method args from ep depth gas r x' :
    ext_ok x -> is_u64 id -> Forall value_wf args -> Forall is_u8 from -> is_u64 ep -> is_u64 gas ->
    call_external x id method args from ep depth gas = (r, x') ->
    ext_ok x' /\
    forall v es g, r = Ok (v, es, g) -> value_wf v /\ Forall event_wf es /\ is_u64 g.

Section invariant.
Context {X : Type} `{!ExternalCaller X, Hex, StrDebug, HashOrder, Blake3, !Blake3Bytes}.
Context (ext_ok : X -> Prop) `{!ExternalCallerLaws X ext_ok}.

Definition exts_ok (x : option X) : Prop := forall e, x = Some e -> ext_ok e.

(** [spec h c g Q]: from a machine within its limits, with the hook flag at
    [h], [c] stays within them, charges at least [g] gas, returns a value in
    [Q] if it returns one, and inside a hook leaves the caller alone. *)
Definition spec {A} (h : bool) (c : M A) (g : Z) (Q : A -> Prop) : Prop :=
  forall vm x, vm_ok vm -> in_lifecycle_hook vm = h -> exts_ok x ->
    exts_ok (c vm x).2 /\ (h = true -> (c vm x).2 = x) /\
    forall a vm', (c vm x).1 = Ok (a, vm') ->
      vm_ok vm' /\ evolves vm vm' /\ gas_used vm + g <= gas_used vm' /\ Q a.

Lemma spec_ret {A} h (a : A) g (Q : A -> Prop) : g <= 0 -> Q a -> spec h (ret a) g Q.
Proof. intros ? ? vm x ? ? ?. simpl. split_and!; [done..|]. intros ? ? [= <- <-]. split_and!; [done..|lia|done]. Qed.

Lemma spec_fail {A} h e g (Q : A -> Prop) : spec h (fail e) g Q.
Proof. intros vm x ? ? ?. simpl. by split_and!. Qed.

Lemma spec_lift {A} h (r : result A ScriptError) g (Q : A -> Prop) :
  g <= 0 -> (forall a, r = Ok a -> Q a) -> spec h (lift r) g Q.
Proof. destruct r; intros ? HQ; [by apply spec_ret; [|apply HQ]|apply spec_fail]. Qed.

Lemma spec_lift_any {A} h (r : result A ScriptError) : spec h (lift r) 0 (fun _ => True).
Proof. by apply spec_lift. Qed.

Lemma spec_weaken {A} h (c : M A) g g' (P Q : A -> Prop) :
  spec h c g P -> g' <= g -> (forall a, P a -> Q a) -> spec h c g' Q.
Proof.
  intros Hc Hg HPQ vm x Hvm Hh Hx. destruct (Hc vm x Hvm Hh Hx) as (? & ? & Hok).
  split_and!; [done..|]. intros a vm' E. destruct (Hok a vm' E) as (? & ? & ? & ?).
  split_and!; [done..|lia|auto].
Qed.

Lemma spec_bind {A B} h (c : M A) (f : A -> M B) g (P : A -> Prop) (Q : B -> Prop) :
  spec h c 0 P -> (forall a, P a -> spec h (f a) g Q) -> spec h (bind c f) g Q.
Proof.
  intros Hc Hf vm x Hvm Hh Hx. destruct (Hc vm x Hvm Hh Hx) as (Hx' & Hq & Hok).
  unfold bind. destruct (c vm x) as [[[a vm']|e] x']; simpl in *; [|by split_and!].
  destruct (Hok a vm' eq_refl) as (Hvm' & Hev & Hg & Ha).
  destruct (Hf a Ha vm' x' Hvm') as (Hx'' & Hq' & Hok'); [by rewrite (ev_hook _ _ Hev)|done|].
  split_and!; [done|intros ->; rewrite Hq' by done; auto|].
  intros b vm'' E. destruct (Hok' b vm'' E) as (? & ? & ? & ?).
  split_and!; [done|by etrans|lia|done].
Qed.

(** A step that changes the machine by a function. *)
Lemma spec_modify h (f : EvaporVM -> EvaporVM) :
  (forall vm, vm_ok vm -> vm_ok (f vm) /\ evolves vm (f vm)) ->
  spec h (modify f) 0 (fun _ => True).
Proof.
  intros Hf vm x Hvm Hh Hx. simpl. split_and!; [done..|]. intros [] ? [= <-].
  destruct (Hf vm Hvm) as [? Hev]. split_and!; [done..| |done].
  pose proof (ev_gas _ _ Hev). lia.
Qed.

Lemma spec_gets {A} h (f : EvaporVM -> A) (P : A -> Prop) :
  (forall vm, vm_ok vm -> in_lifecycle_hook vm = h -> P (f vm)) -> spec h (gets f) 0 P.
Proof.
  intros Hf vm x Hvm Hh Hx. simpl. split_and!; [done..|]. intros ? ? [= <- <-].
  split_and!; [done..|lia|auto].
Qed.

(** *** The primitives *)

Lemma spec_charge {A} h n (k : M A) g (Q : A -> Prop) :
  0 <= n -> spec h k (g - n) Q -> spec h (bind (charge_gas n) (fun _ => k)) g Q.
Proof.
  intros Hn Hk vm x Hvm Hh Hx. unfold bind, charge_gas, gets, bind.
  destruct (checked_add (gas_used vm) n) as [used|] eqn:E; simpl; [|by split_and!].
  apply checked_add_Some in E as [-> Hu]. destruct (Z.ltb_spec (gas_limit vm) (gas_used vm + n));
    simpl; [by split_and!|].
  assert (Hok : vm_ok (set_meters (gas_used vm + n) (step_count vm) (memory_used vm) vm)).
  { destruct Hvm. split; simpl; try done; lia. }
  destruct (Hk _ x Hok Hh Hx) as (? & ? & HQ). split_and!; [done..|].
  intros a vm' E. destruct (HQ a vm' E) as (? & Hev & Hg & ?). simpl in Hg.
  split_and!; [done| |lia|done]. destruct Hev; split; simpl in *; try done; lia.
Qed.

Lemma spec_track h n : 0 <= n -> spec h (track_memory n) 0 (fun _ => True).
Proof.
  intros Hn vm x Hvm Hh Hx. unfold track_memory, bind, gets.
  destruct (Z.ltb_spec MAX_MEMORY_BYTES (saturating_add (memory_used vm) n)); simpl; [by split_and!|].
  split_and!; [done..|]. intros [] ? [= <-].
  assert (memory_used vm <= saturating_add (memory_used vm) n).
  { pose proof (ok_memory _ Hvm). unfold MAX_MEMORY_BYTES in *. u64_lia. }
  split_and!; [|by split|simpl; lia|done].
  destruct Hvm. split; simpl; try done; lia.
Qed.

Lemma set_stack_ok s vm :
  vm_ok vm -> Z.of_nat (length s) <= MAX_STACK_DEPTH -> Forall value_wf s ->
  vm_ok (set_stack s vm) /\ evolves vm (set_stack s vm).
Proof. intros [] ? ?. split; by split. Qed.

Lemma set_locals_ok ls vm :
  map_wf ls -> vm_ok vm -> vm_ok (set_locals ls vm) /\ evolves vm (set_locals ls vm).
Proof. intros ? []. split; by split. Qed.

Lemma set_state_ok st vm :
  map_wf st -> vm_ok vm -> vm_ok (set_state st vm) /\ evolves vm (set_state st vm).
Proof. intros ? []. split; by split. Qed.

Lemma add_events_ok es ses vm :
  Forall event_wf ses -> vm_ok vm -> vm_ok (add_events es ses vm) /\ evolves vm (add_events es ses vm).
Proof.
  intros Hs []. split; split; simpl; try done; [by apply Forall_app|by eexists..].
Qed.

Lemma spec_push h v : value_wf v -> spec h (push v) 0 (fun _ => True).
Proof.
  intros Hv vm x Hvm Hh Hx. unfold push, bind, gets.
  destruct (Z.leb_spec MAX_STACK_DEPTH (Z.of_nat (length (stack vm)))); simpl; [by split_and!|].
  split_and!; [done..|]. intros [] ? [= <-].
  destruct (set_stack_ok (v :: stack vm) vm Hvm); [simpl; lia|constructor; [done|by apply ok_stack]|].
  split_and!; [done..|simpl; lia|done].
Qed.

Lemma spec_pop h : spec h pop 0 value_wf.
Proof.
  intros vm x Hvm Hh Hx. unfold pop, bind, gets.
  pose proof (ok_depth _ Hvm) as Hd. pose proof (ok_stack _ Hvm) as Hs.
  destruct (stack vm) as [|v s]; simpl; [by split_and!|].
  apply Forall_cons in Hs as [Hv Hs]. split_and!; [done..|]. intros ? ? [= <- <-].
  destruct (set_stack_ok s vm Hvm); [simpl in Hd; lia|done|]. split_and!; [done..|simpl; lia|done].
Qed.

Lemma spec_pop_u64 h : spec h pop_u64 0 is_u64.
Proof.
  eapply spec_bind; [apply spec_pop|]. intros v Hv. apply spec_lift; [done|].
  intros n ->%value_as_u64_Ok. by inversion Hv.
Qed.

Lemma spec_pop_bool h : spec h pop_bool 0 (fun _ => True).
Proof. eapply spec_bind; [apply spec_pop|]. intros v Hv. by apply spec_lift. Qed.

Lemma spec_pop_str h : spec h pop_str 0 (fun _ => True).
Proof. eapply spec_bind; [apply spec_pop|]. intros v Hv. by apply spec_lift. Qed.

Lemma spec_pop_address h : spec h pop_address 0 (Forall is_u8).
Proof.
  eapply spec_bind; [apply spec_pop|]. intros v Hv. apply spec_lift; [done|].
  intros a ->%value_as_address_Ok. by inversion Hv.
Qed.

Lemma spec_pop_n h n acc : Forall value_wf acc -> spec h (pop_n n acc) 0 (Forall value_wf).
Proof.
  revert acc. induction n as [|n IH]; intros acc Hacc; simpl; [by apply spec_ret|].
  eapply spec_bind; [apply spec_pop|]. intros v Hv. apply IH. by constructor.
Qed.

Lemma spec_array_at h arr index :
  Forall value_wf arr -> spec h (array_at arr index) 0 value_wf.
Proof.
  intros Ha. unfold array_at. zcase; [apply spec_fail|]. apply spec_ret; [done|].
  destruct (arr !! Z.to_nat index) as [v|] eqn:E; simpl; [|constructor].
  by eapply Forall_lookup in E.
Qed.

Lemma spec_array_put h arr index v :
  Forall value_wf arr -> value_wf v -> spec h (array_put arr index v) 0 (Forall value_wf).
Proof.
  intros Ha Hv. unfold array_put. zcase; [apply spec_fail|]. apply spec_ret; [done|].
  by apply Forall_insert.
Qed.

Lemma map_wf_lookup (m : gmap string Value) k v : map_wf m -> m !! k = Some v -> value_wf v.
Proof. intros Hm Hk. by apply (Hm k). Qed.

Lemma map_wf_default (m : gmap string Value) k d : map_wf m -> value_wf d -> value_wf (default d (m !! k)).
Proof. intros Hm Hd. destruct (m !! k) eqn:E; [|done]. by apply (Hm k). Qed.

Lemma map_wf_insert (m : gmap string Value) k v : map_wf m -> value_wf v -> map_wf (<[ k := v ]> m).
Proof. intros Hm Hv. by apply map_Forall_insert_2. Qed.

Lemma first_u64_range d : Forall is_u8 d -> is_u64 (first_u64 d).
Proof.
  intros Hd. unfold first_u64, is_u64, U64_MAX.
  pose proof (from_le_bytes_range (take 8 d) ltac:(by apply Forall_take)) as Hr.
  rewrite length_take in Hr.
  assert (256 ^ Z.of_nat (Nat.min 8 (length d)) <= 256 ^ 8) by (apply Z.pow_le_mono_r; lia).
  change (256 ^ 8) with (2 ^ 64) in *. lia.
Qed.


Lemma domain_randomness_range ctx d : is_u64 (domain_randomness ctx d).
Proof. apply first_u64_range, blake3_bytes. Qed.

Lemma reject_loop_range ctx max zone left iter :
  0 < max -> 0 <= reject_loop ctx max zone left iter < max.
Proof.
  intros Hmax. revert iter. induction left as [|left IH]; intros iter; simpl.
  - by apply Z.mod_pos_bound.
  - zcase; [by apply Z.mod_pos_bound|apply IH].
Qed.

Lemma random_range_range ctx max : 0 < max -> 0 <= random_range ctx max < max.
Proof. apply reject_loop_range. Qed.


Lemma sum_nonneg (l : list Z) : (forall x, x ∈ l -> 0 <= x) -> 0 <= foldr Z.add 0 l.
Proof.
  induction l as [|x l IH]; intros Hl; simpl; [lia|].
  pose proof (Hl x ltac:(left)). specialize (IH ltac:(intros; apply Hl; by right)). lia.
Qed.

Lemma estimated_nonneg v : 0 <= estimated_to_string_bytes v.
Proof.
  induction v as [| | | | |m IH|l IH] using value_rect_nested; simpl;
    try (unfold str_len; lia).
  - assert (0 <= map_fold (fun k w acc => str_len k + estimated_to_string_bytes w + acc) 0 m).
    { revert IH. apply (map_fold_weak_ind (fun r (m : gmap string Value) =>
        (forall k v, m !! k = Some v -> 0 <= estimated_to_string_bytes v) -> 0 <= r)); [done|].
      intros k w m' r Hk IHr Hm. assert (0 <= r).
      { apply IHr. intros k' v' Hk'. apply (Hm k'). rewrite lookup_insert_ne; [done|congruence]. }
      pose proof (Hm k w (lookup_insert_eq _ _ _)). unfold str_len. lia. }
    unfold map_len. u64_lia.
  - pose proof (sum_nonneg (estimated_to_string_bytes <$> l)) as Hs.
    specialize (Hs ltac:(intros x (v & -> & Hv)%list_elem_of_fmap; by apply IH)). u64_lia.
Qed.

Lemma event_value_bytes_nonneg l : 0 <= foldr Z.add 0 (event_value_bytes <$> l).
Proof.
  apply sum_nonneg. intros x (v & -> & _)%list_elem_of_fmap. destruct v; simpl; unfold str_len; lia.
Qed.

Lemma gas_scaled_nonneg base n : 0 <= base -> 0 <= n ->
  0 <= saturating_add base (saturating_mul (div_ceil n 32) 1).
Proof.
  intros Hb Hn. assert (0 <= div_ceil n 32) by (unfold div_ceil; apply Z.div_pos; lia). u64_lia.
Qed.

Lemma fnv1a_range input : is_u64 (fnv1a input).
Proof.
  unfold fnv1a. assert (Hh : is_u64 0xcbf29ce484222325) by u64_lia. revert Hh.
  generalize 0xcbf29ce484222325. induction input as [|b input IH]; intros h Hh; simpl; [done|].
  apply IH, as_u64_range.
Qed.


(** *** Every opcode *)

(** The amounts charged are non-negative, and one unit is always paid. *)
Ltac gas_side :=
  solve [ apply gas_scaled_nonneg; [done|first [lia|apply estimated_nonneg]]
        | match goal with
          | |- 0 - ?n <= 0 =>
              enough (0 <= n) by lia;
              apply gas_scaled_nonneg; [done|first [lia|apply estimated_nonneg]]
          end
        | repeat autounfold with gas; Z.to_euclidean_division_equations; lia ].

(** Run through the monadic structure with the rules above; the leaves are
    well-formedness obligations. *)
Ltac vm_bind R := eapply spec_bind; [apply R|intros].
Ltac vm_step :=
  match goal with
  | |- spec _ (bind (charge_gas _) _) _ _ => apply spec_charge; [gas_side|]
  | |- spec _ (bind (bind _ _) _) _ _ => fail
  | |- spec _ (bind (gets state) _) _ _ =>
      eapply spec_bind; [apply (spec_gets _ _ map_wf); by intros ? []|intros]
  | |- spec _ (bind (gets locals) _) _ _ =>
      eapply spec_bind; [apply (spec_gets _ _ map_wf); by intros ? []|intros]
  | |- spec _ (bind pop _) _ _ => vm_bind spec_pop
  | |- spec _ (bind pop_u64 _) _ _ => vm_bind spec_pop_u64
  | |- spec _ (bind pop_bool _) _ _ => vm_bind spec_pop_bool
  | |- spec _ (bind pop_str _) _ _ => vm_bind spec_pop_str
  | |- spec _ (bind pop_address _) _ _ => vm_bind spec_pop_address
  | |- spec _ (bind (pop_n _ _) _) _ _ =>
      eapply spec_bind; [apply spec_pop_n; constructor|intros]
  | |- spec _ (bind (arity _ _ _) _) _ _ =>
      eapply (spec_bind _ _ _ _ (fun _ => True));
        [unfold arity; case_decide; [by apply spec_ret|apply spec_fail]|intros _ _]
  | |- spec _ (bind (track_memory _) _) _ _ => eapply spec_bind; [apply spec_track|intros _ _]
  | |- spec _ (fail _) _ _ => apply spec_fail
  | |- spec _ (if ?b then _ else _) _ _ => destruct b eqn:?
  | |- spec _ (push _) _ _ => eapply spec_weaken; [apply spec_push|gas_side|done]
  | |- spec _ (ret _) _ _ => apply spec_ret; [gas_side|]
  end.
Ltac vm_spec := repeat vm_step.

Definition ok_op (c : M unit) : Prop := forall h, spec h c 1 (fun _ => True).

Lemma op_push_ok v : value_wf v -> ok_op (op_push v).
Proof. intros ? h. unfold op_push. vm_spec. done. Qed.

Lemma op_pop_ok : ok_op op_pop.
Proof. intros h. unfold op_pop. vm_spec. done. Qed.

Lemma op_load_ok name : ok_op (op_load name).
Proof. intros h. unfold op_load. vm_spec. by apply map_wf_default; [|constructor]. Qed.

Lemma op_state_load_ok name : ok_op (op_state_load name).
Proof. intros h. unfold op_state_load. vm_spec. by apply map_wf_default; [|constructor]. Qed.

Lemma op_store_ok name : ok_op (op_store name).
Proof.
  intros h. unfold op_store. vm_spec. eapply spec_weaken; [apply spec_modify|done|done].
  intros vm Hvm. apply set_locals_ok; [|done]. apply map_wf_insert; [by apply ok_locals|done].
Qed.

Lemma spec_set_state h st : map_wf st -> spec h (modify (set_state st)) 0 (fun _ => True).
Proof. intros. apply spec_modify. intros vm Hvm. by apply set_state_ok. Qed.

Lemma spec_set_locals h ls : map_wf ls -> spec h (modify (set_locals ls)) 0 (fun _ => True).
Proof. intros. apply spec_modify. intros vm Hvm. by apply set_locals_ok. Qed.

Lemma spec_add_events h es ses :
  Forall event_wf ses -> spec h (modify (add_events es ses)) 0 (fun _ => True).
Proof. intros. apply spec_modify. intros vm Hvm. by apply add_events_ok. Qed.

(** A step that sets the state, the locals or the logs, in the middle of a
    computation or at its end. *)
Ltac vm_mod R :=
  first [eapply spec_weaken; [apply R|gas_side|done] | eapply spec_bind; [apply R|intros _ _]].

Lemma op_state_store_ok name : ok_op (op_state_store name).
Proof. intros h. unfold op_state_store. vm_spec. vm_mod spec_set_state. by apply map_wf_insert. Qed.

(** A checked result is a [u64]. *)
Lemma spec_checked h o e :
  (forall n, o = Some n -> is_u64 n) -> spec h (lift (ok_or o e)) 0 is_u64.
Proof. intros Ho. apply spec_lift; [done|]. intros n ->%ok_or_Ok. auto. Qed.

Lemma op_add_ok : ok_op op_add.
Proof.
  intros h. unfold op_add. vm_spec. destruct a0 as [x| |x| | | |], a as [y| |y| | | |]; vm_spec.
  - inversion H5; inversion H4; subst. eapply spec_bind; [apply spec_checked|intros; vm_spec; by constructor].
    intros n (-> & ?)%checked_add_Some. u64_lia.
  - unfold str_len. lia.
  - constructor.
Qed.

Lemma op_sub_ok : ok_op op_sub.
Proof.
  intros h. unfold op_sub. vm_spec. eapply spec_bind; [apply spec_checked|intros; vm_spec; by constructor].
  intros n (-> & ?)%checked_sub_Some. u64_lia.
Qed.

Lemma op_mul_ok : ok_op op_mul.
Proof.
  intros h. unfold op_mul. vm_spec. eapply spec_bind; [apply spec_checked|intros; vm_spec; by constructor].
  intros n (-> & ?)%checked_mul_Some. u64_lia.
Qed.

Lemma div_u64 a b : is_u64 a -> is_u64 b -> b <> 0 -> is_u64 (a / b).
Proof.
  unfold is_u64. intros. pose proof (Z.div_pos a b).
  assert (a / b <= a) by (apply Z.div_le_upper_bound; nia). lia.
Qed.

Lemma mod_u64 a b : is_u64 a -> is_u64 b -> b <> 0 -> is_u64 (a mod b).
Proof. unfold is_u64. intros. pose proof (Z.mod_pos_bound a b). lia. Qed.

Lemma shiftr_u64 a n : is_u64 a -> is_u64 n -> is_u64 (Z.shiftr a n).
Proof.
  unfold is_u64. intros. rewrite Z.shiftr_div_pow2 by lia.
  assert (0 < 2 ^ n) by (apply Z.pow_pos_nonneg; lia). pose proof (Z.div_pos a (2 ^ n)).
  assert (a / 2 ^ n <= a) by (apply Z.div_le_upper_bound; nia). lia.
Qed.

Lemma op_div_ok : ok_op op_div.
Proof. intros h. unfold op_div. vm_spec. constructor. zbool. by apply div_u64. Qed.

Lemma op_mod_ok : ok_op op_mod.
Proof. intros h. unfold op_mod. vm_spec. constructor. zbool. by apply mod_u64. Qed.

Lemma op_shl_ok : ok_op op_shl.
Proof. intros h. unfold op_shl. vm_spec. constructor. apply as_u64_range. Qed.

Lemma op_shr_ok : ok_op op_shr.
Proof. intros h. unfold op_shr. vm_spec. constructor. by apply shiftr_u64. Qed.

Lemma op_neg_ok : ok_op op_neg.
Proof. intros h. unfold op_neg. vm_spec. destruct a; vm_spec; constructor; u64_lia. Qed.

Lemma op_array_new_ok n : ok_op (op_array_new n).
Proof.
  intros h. unfold op_array_new. vm_spec; [lia|]. by apply value_wf_array.
Qed.

Lemma op_array_get_ok : ok_op op_array_get.
Proof.
  intros h. unfold op_array_get. vm_spec. destruct a0; vm_spec.
  eapply spec_bind; [apply spec_array_at; by apply value_wf_array|intros; by vm_spec].
Qed.

Lemma op_array_set_ok name : ok_op (op_array_set name).
Proof.
  intros h. unfold op_array_set. vm_spec. destruct (a1 !! name) as [[]|] eqn:E; vm_spec.
  assert (Hl : value_wf (VArray l)) by (by eapply map_wf_lookup).
  eapply spec_bind; [apply spec_array_put; [by apply value_wf_array|done]|intros arr Harr].
  vm_mod spec_set_locals. apply map_wf_insert; [done|by apply value_wf_array].
Qed.

Lemma op_map_get_ok field : ok_op (op_map_get field).
Proof.
  intros h. unfold op_map_get. vm_spec. destruct (a0 !! field) as [[]|] eqn:E; vm_spec;
    try (constructor; u64_lia); eapply map_wf_lookup in E; try done.
  - apply map_wf_default; [by apply value_wf_map|constructor; u64_lia].
  - eapply spec_bind; [apply spec_lift_any|intros index _].
    eapply spec_bind; [apply spec_array_at; by apply value_wf_array|intros; by vm_spec].
Qed.

Lemma op_map_set_ok field : ok_op (op_map_set field).
Proof.
  intros h. unfold op_map_set. vm_spec.
  eapply (spec_bind _ _ _ _ (fun _ => True)).
  { destruct (a1 !! field) as [[]|]; vm_spec; done. }
  intros _ _. eapply (spec_bind _ _ _ _ (fun _ => True)).
  { match goal with |- spec _ (if ?b then _ else _) _ _ => destruct b end;
      [by apply spec_track|by vm_spec]. }
  intros _ _. assert (Hd : value_wf (default (VMap ∅) (a1 !! field))).
  { apply map_wf_default; [done|]. constructor. by intros ? ? ?%lookup_empty_Some. }
  destruct (default _ _); vm_spec.
  - vm_mod spec_set_state. apply map_wf_insert; [done|]. apply value_wf_map, map_wf_insert; [|done].
    by apply value_wf_map.
  - eapply spec_bind; [apply spec_lift_any|intros index _].
    eapply spec_bind; [apply spec_array_put; [by apply value_wf_array|done]|intros arr Harr].
    vm_mod spec_set_state. apply map_wf_insert; [done|by apply value_wf_array].
Qed.

Lemma op_emit_ok : ok_op op_emit.
Proof.
  intros h. unfold op_emit. vm_spec; [unfold str_len; lia|]. vm_mod spec_add_events.
  repeat constructor.
Qed.

Lemma op_emit_event_ok name tc : ok_op (op_emit_event name tc).
Proof.
  intros h. unfold op_emit_event. vm_spec.
  { unfold str_len. pose proof (event_value_bytes_nonneg a). lia. }
  vm_mod spec_add_events. constructor; [|constructor].
  split; simpl; [by apply Forall_take|by apply Forall_drop].
Qed.

Lemma op_require_ok : ok_op op_require.
Proof. intros h. unfold op_require. by vm_spec. Qed.

Lemma op_compute_decay_ok : ok_op op_compute_decay.
Proof.
  intros h. unfold op_compute_decay. vm_spec. constructor.
  pose proof (energy_at_epoch_range a a0 a1 ltac:(done) ltac:(u64_lia) ltac:(u64_lia)). u64_lia.
Qed.

(** *** Built-in functions *)

Definition ok_builtin (c : M Value) : Prop := forall h, spec h c 0 value_wf.

Lemma builtin_transfer_ok n : ok_builtin (builtin_transfer n).
Proof.
  intros h. unfold builtin_transfer. vm_spec. vm_mod spec_add_events; [constructor|].
  vm_spec. constructor.
Qed.

Lemma builtin_emit_ok n : ok_builtin (builtin_emit n).
Proof.
  intros h. unfold builtin_emit. vm_spec; [unfold str_len; lia|].
  vm_mod spec_add_events; [constructor|]. vm_spec. constructor.
Qed.

Lemma builtin_emit_event_ok n : ok_builtin (builtin_emit_event n).
Proof.
  intros h. unfold builtin_emit_event. vm_spec.
  { unfold str_len. pose proof (event_value_bytes_nonneg a1).
    pose proof (event_value_bytes_nonneg [a0]) as Ha. simpl in Ha. lia. }
  vm_mod spec_add_events; [by repeat constructor|]. vm_spec. constructor.
Qed.

Lemma builtin_allen_relation_ok n : ok_builtin (builtin_allen_relation n).
Proof.
  intros h. unfold builtin_allen_relation. vm_spec.
  destruct (Allen.new a2 a1); vm_spec. destruct (Allen.new a0 a); vm_spec.
  constructor. destruct (Allen.compute_relation _ _); simpl; u64_lia.
Qed.

Lemma builtin_len_ok n : ok_builtin (builtin_len n).
Proof.
  intros h. unfold builtin_len. vm_spec. destruct a; vm_spec; constructor; apply as_u64_range.
Qed.

Lemma builtin_random_range_ok ctx n : ok_builtin (builtin_random_range ctx n).
Proof.
  intros h. unfold builtin_random_range. vm_spec. constructor. zbool.
  pose proof (random_range_range ctx a ltac:(u64_lia)). u64_lia.
Qed.

Lemma builtin_hash_ok n : ok_builtin (builtin_hash n).
Proof. intros h. unfold builtin_hash. vm_spec. constructor. apply fnv1a_range. Qed.

Lemma builtin_to_string_ok n : ok_builtin (builtin_to_string n).
Proof. intros h. unfold builtin_to_string. vm_spec. constructor. Qed.

Lemma builtin_min_ok n : ok_builtin (builtin_min n).
Proof. intros h. unfold builtin_min. vm_spec. constructor. u64_lia. Qed.

Lemma builtin_max_ok n : ok_builtin (builtin_max n).
Proof. intros h. unfold builtin_max. vm_spec. constructor. u64_lia. Qed.

Lemma builtin_balance_ok n : ok_builtin (builtin_balance n).
Proof. intros h. unfold builtin_balance. vm_spec. constructor. u64_lia. Qed.

Lemma builtin_require_ok n : ok_builtin (builtin_require n).
Proof. intros h. unfold builtin_require. vm_spec. constructor. Qed.

Lemma builtin_vrf_ok ctx n : ok_builtin (builtin_vrf_domain_randomness ctx n).
Proof.
  intros h. unfold builtin_vrf_domain_randomness. vm_spec. constructor. apply domain_randomness_range.
Qed.

Lemma call_builtin_ok name n ctx : ctx_ok ctx -> ok_builtin (call_builtin name n ctx).
Proof.
  intros [] h. unfold call_builtin. vm_spec; try by constructor.
  all: first [apply builtin_transfer_ok | apply builtin_emit_ok | apply builtin_emit_event_ok
    | apply builtin_allen_relation_ok | apply builtin_len_ok | apply builtin_random_range_ok
    | apply builtin_hash_ok | apply builtin_to_string_ok | apply builtin_min_ok
    | apply builtin_max_ok | apply builtin_balance_ok | apply builtin_require_ok
    | apply builtin_vrf_ok].
Qed.

Lemma op_call_ok name n ctx : ctx_ok ctx -> ok_op (op_call name n ctx).
Proof.
  intros Hctx h. unfold op_call. vm_spec.
  eapply spec_bind; [by apply call_builtin_ok|intros; by vm_spec].
Qed.

(** *** Cross-contract calls *)

Lemma contract_address_u8 id : Forall is_u8 (contract_address id).
Proof. apply blake3_bytes. Qed.

Lemma spec_dispatch id method args from ctx gas :
  ctx_ok ctx -> is_u64 id -> Forall value_wf args -> Forall is_u8 from -> is_u64 gas ->
  spec false (dispatch id method args from ctx gas) 0
    (fun r => value_wf r.1.1 /\ Forall event_wf r.1.2 /\ is_u64 r.2).
Proof.
  intros [] Hid Hargs Hfrom Hgas vm x Hvm Hh Hx. unfold dispatch.
  destruct x as [ext|]; simpl; [|by split_and!].
  destruct (call_external _ _ _ _ _ _ _ _) as [r ext'] eqn:E.
  destruct (call_external_ok _ _ _ _ _ _ _ _ _ _ (Hx ext eq_refl) Hid Hargs Hfrom ctx_epoch0 Hgas E)
    as [Hext' Hr].
  assert (exts_ok (Some ext')) by (by intros ? [= <-]).
  destruct r as [[[v es] g]|e]; simpl; (split_and!; [done..|]); [|done].
  intros a vm' [= <- <-]. destruct (Hr v es g eq_refl) as (? & ? & ?). by split_and!; try lia.
Qed.

Lemma op_call_external_ok n ctx : ctx_ok ctx -> ok_op (op_call_external n ctx).
Proof.
  intros Hctx h. unfold op_call_external. vm_spec.
  eapply spec_bind; [apply (spec_gets _ _ (fun b => b = h)); by intros|intros ? ->].
  destruct h; vm_spec.
  eapply spec_bind; [apply (spec_gets _ _ is_u64)|intros gas Hgas].
  { intros vm [] _. u64_lia. }
  eapply spec_bind; [by apply (spec_gets _ _ (fun _ => True))|intros id _].
  eapply spec_bind.
  { apply spec_dispatch; try done. unfold nested_caller. zcase; [by apply ctx_caller|].
    apply contract_address_u8. }
  intros r (Hv & Hes & Hg). apply spec_charge; [u64_lia|].
  vm_mod spec_add_events; [done|]. eapply spec_weaken; [by apply spec_push|unfold GAS_CALL_EXTERNAL; u64_lia|done].
Qed.

(** *** One opcode, one iteration *)

Definition flow_ok (len : nat) (f : Flow) : Prop :=
  match f with
  | Next => True
  | Goto target _ => (target < len)%nat
  | Done v => value_wf v
  end.

Lemma next_ok len (c : M unit) : ok_op c -> forall h, spec h (next c) 1 (flow_ok len).
Proof.
  intros Hc h vm x Hvm Hh Hx. destruct (Hc h vm x Hvm Hh Hx) as (Hx' & Hq & Hok).
  unfold next, bind. destruct (c vm x) as [[[[] vm']|e] x']; simpl in *; [|by split_and!].
  destruct (Hok tt vm' eq_refl) as (? & ? & ? & _). split_and!; [done..|].
  by intros ? ? [= <- <-].
Qed.

Lemma check_target_ok h target len :
  spec h (check_target target len) 0 (fun _ => (target < len)%nat).
Proof. unfold check_target. case_decide; [apply spec_fail|apply spec_ret; [done|lia]]. Qed.

Lemma take_jump_ok h target ip n len :
  (target < len)%nat -> spec h (take_jump target ip n) 0 (flow_ok len).
Proof.
  intros. unfold take_jump. case_decide; [|by apply spec_ret]. cbv zeta. zcase; [apply spec_fail|].
  by apply spec_ret.
Qed.

Lemma op_return_ok h len : spec h op_return 1 (flow_ok len).
Proof.
  unfold op_return. vm_spec. eapply spec_bind; [by apply (spec_gets _ _ (fun _ => True))|intros s _].
  destruct s; vm_spec; [constructor|done].
Qed.

(** The value-producing arms that need nothing but the rules. *)
Ltac by_rules := intros h; vm_spec; try done; constructor; first [done|u64_lia|by apply first_u64_range].

Lemma op_simple_ok ctx :
  ctx_ok ctx ->
  ok_op op_eq /\ ok_op op_neq /\ ok_op op_gt /\ ok_op op_lt /\ ok_op op_gte /\ ok_op op_lte /\
  ok_op op_and /\ ok_op op_or /\ ok_op op_not /\ ok_op (op_epoch_now ctx) /\
  ok_op (op_block_num ctx) /\ ok_op (op_energy_of ctx) /\ ok_op (op_vrf_randomness ctx).
Proof.
  intros []. unfold op_eq, op_neq, op_gt, op_lt, op_gte, op_lte, op_and, op_or, op_not,
    op_epoch_now, op_block_num, op_energy_of, op_vrf_randomness. split_and!; by_rules.
Qed.

Lemma op_require_epoch_range_ok ctx : ok_op (op_require_epoch_range ctx).
Proof. intros h. unfold op_require_epoch_range. vm_spec. done. Qed.

Lemma op_vrf_domain_randomness_ok ctx : ok_op (op_vrf_domain_randomness ctx).
Proof.
  intros h. unfold op_vrf_domain_randomness. vm_spec. constructor. apply domain_randomness_range.
Qed.

Lemma op_random_range_ok ctx : ok_op (op_random_range ctx).
Proof.
  intros h. unfold op_random_range. vm_spec. constructor. zbool.
  pose proof (random_range_range ctx a ltac:(u64_lia)). u64_lia.
Qed.

Lemma exec_op_ok op len ip n ctx :
  ctx_ok ctx -> (forall v, op = OPush v -> value_wf v) ->
  forall h, spec h (exec_op op len ip n ctx) 1 (flow_ok len).
Proof.
  intros Hctx Hpush h. destruct (op_simple_ok ctx Hctx) as (?&?&?&?&?&?&?&?&?&?&?&?&?).
  destruct op; simpl; try (apply next_ok; first
    [ done | apply op_push_ok; by apply Hpush | apply op_pop_ok | apply op_load_ok
    | apply op_store_ok | apply op_state_load_ok | apply op_state_store_ok | apply op_add_ok
    | apply op_sub_ok | apply op_mul_ok | apply op_div_ok | apply op_mod_ok | apply op_shl_ok
    | apply op_shr_ok | apply op_neg_ok | by apply op_call_ok | apply op_map_get_ok
    | apply op_map_set_ok | apply op_require_ok | apply op_array_new_ok | apply op_array_get_ok
    | apply op_array_set_ok | apply op_emit_ok | apply op_emit_event_ok
    | apply op_require_epoch_range_ok | apply op_compute_decay_ok
    | apply op_vrf_domain_randomness_ok | apply op_random_range_ok
    | by apply op_call_external_ok ]).
  - unfold op_jump. vm_spec. eapply spec_bind; [apply check_target_ok|intros [] ?].
    by eapply spec_weaken; [apply take_jump_ok|done|].
  - unfold op_jump_if. vm_spec. eapply spec_bind; [apply check_target_ok|intros [] ?].
    vm_spec; [|done]. by eapply spec_weaken; [apply take_jump_ok|done|].
  - unfold op_jump_if_false. vm_spec. eapply spec_bind; [apply check_target_ok|intros [] ?].
    vm_spec; [|done]. by eapply spec_weaken; [apply take_jump_ok|done|].
  - apply op_return_ok.
  - unfold op_halt. vm_spec. constructor.
Qed.

(** *** The loop *)

(** What holds at the head of every iteration; [x0] is the caller the method
    started with. *)
Record loop_ok (h : bool) (limit : Z) (x0 : option X) (s : Loop) : Prop := {
  lo_vm : vm_ok (l_vm s);
  lo_hook : in_lifecycle_hook (l_vm s) = h;
  lo_limit : gas_limit (l_vm s) = limit;
  lo_steps : step_count (l_vm s) <= gas_used (l_vm s);
  lo_ext : exts_ok (l_ext s);
  lo_quiet : h = true -> l_ext s = x0;
}.

Definition outcome_ok (h : bool) (limit : Z) (x0 : option X) (o : Outcome) : Prop :=
  exts_ok o.2 /\ (h = true -> o.2 = x0) /\
  forall v vm, o.1 = Ok (v, vm) ->
    value_wf v /\ vm_ok vm /\ gas_limit vm = limit /\ step_count vm <= gas_used vm.

Lemma count_step_Ok vm (x : option X) vm' x' :
  count_step vm x = (Ok (tt, vm'), x') ->
  x' = x /\ step_count vm < MAX_STEPS /\
  vm' = set_meters (gas_used vm) (step_count vm + 1) (memory_used vm) vm.
Proof.
  unfold count_step, bind, gets. destruct (checked_add _ 1) as [n|] eqn:E; [|done].
  apply checked_add_Some in E as [-> _]. zcase; [done|]. intros [= <- <-]. split_and!; [done|lia|done].
Qed.

Lemma count_step_Err vm (x : option X) e x' : count_step vm x = (Err e, x') -> x' = x.
Proof.
  unfold count_step, bind, gets. destruct (checked_add _ 1); [|by intros [= _ <-]].
  zcase; [by intros [= _ <-]|done].
Qed.

Lemma exec_step_ok bc ctx h limit x0 s :
  code_ok (opcodes bc) -> ctx_ok ctx -> loop_ok h limit x0 s ->
  match exec_step bc ctx s with
  | inl s' => loop_ok h limit x0 s'
  | inr o => outcome_ok h limit x0 o
  end.
Proof.
  intros Hcode Hctx [Hvm Hh Hlim Hst Hext Hq]. unfold exec_step.
  destruct (opcodes bc !! l_ip s) as [op|] eqn:Eop.
  2:{ split_and!; [done..|]. intros v vm [= <- <-]. split_and!; [constructor|done..]. }
  unfold bind. destruct (count_step _ _) as [[[[] vm1]|e] x1] eqn:Ec.
  2:{ apply count_step_Err in Ec as ->. by split_and!. }
  apply count_step_Ok in Ec as (-> & Hlt & ->).
  set (vm1 := set_meters _ _ _ _).
  assert (Hvm1 : vm_ok vm1) by (destruct Hvm; split; simpl; try done; lia).
  assert (Hp : forall v, op = OPush v -> value_wf v).
  { intros v ->. by apply Hcode, list_elem_of_lookup_2 with (l_ip s). }
  destruct (exec_op_ok op (length (opcodes bc)) (l_ip s) (l_counter s) ctx Hctx Hp h vm1 (l_ext s) Hvm1 Hh Hext)
    as (Hx' & Hq' & Hok).
  destruct (exec_op _ _ _ _ _ vm1 _) as [[[f vm2]|e] x2]; simpl in *.
  2:{ split_and!; [done|intros ->; rewrite Hq' by done; auto|done]. }
  destruct (Hok f vm2 eq_refl) as (Hvm2 & Hev & Hg & Hf).
  assert (step_count vm2 <= gas_used vm2) by (rewrite (ev_steps _ _ Hev); simpl; lia).
  assert (Hx2 : h = true -> x2 = x0) by (intros ->; rewrite Hq' by done; auto).
  assert (gas_limit vm2 = limit) by (by rewrite (ev_limit _ _ Hev)).
  assert (in_lifecycle_hook vm2 = h) by (by rewrite (ev_hook _ _ Hev)).
  destruct f; [by split..|]. split_and!; [done..|]. by intros ? ? [= <- <-].
Qed.

Lemma push_args_ok h args : Forall value_wf args -> spec h (push_args args) 0 (fun _ => True).
Proof.
  induction 1 as [|v args Hv Hargs IH]; simpl; [by apply spec_ret|].
  by eapply spec_bind; [apply spec_push|].
Qed.

(** The whole method, from a fresh machine. *)
Lemma execute_method_ok bc method args st ctx limit x0 id o :
  code_ok (opcodes bc) -> ctx_ok ctx -> Forall value_wf args -> map_wf st -> is_u64 limit ->
  exts_ok x0 ->
  execute_method bc method args ctx
    (set_identity (is_lifecycle_hook method) id (vm_new st limit)) x0 = Some o ->
  outcome_ok (is_lifecycle_hook method) limit x0 o.
Proof.
  intros Hcode Hctx Hargs Hst Hlim Hx. unfold execute_method.
  set (vm0 := set_identity _ _ _).
  assert (Hvm0 : vm_ok vm0).
  { split; simpl; try done; try (unfold MAX_STACK_DEPTH, MAX_MEMORY_BYTES, MAX_STEPS; u64_lia). }
  destruct (methods bc !! method) as [start|]; [|intros [= <-]; by split_and!].
  destruct (push_args_ok (is_lifecycle_hook method) args Hargs vm0 x0 Hvm0 eq_refl Hx)
    as (Hx' & Hq & Hok).
  destruct (push_args args vm0 x0) as [[[[] vm1]|e] x1]; simpl in *;
    [|intros [= <-]; by split_and!].
  destruct (Hok tt vm1 eq_refl) as (Hvm1 & Hev & Hg & _).
  rewrite loop_pos_nat. destruct (loop_nat _ _ _) as [|o'] eqn:El; [done|]. intros [= <-].
  refine (loop_nat_inv _ (loop_ok (is_lifecycle_hook method) limit x0) _ _ _ _ _ _ _ El).
  - intros s s' Hs E. pose proof (exec_step_ok bc ctx _ _ _ s Hcode Hctx Hs) as Hi. by rewrite E in Hi.
  - intros s r Hs E. pose proof (exec_step_ok bc ctx _ _ _ s Hcode Hctx Hs) as Hi. by rewrite E in Hi.
  - destruct Hev. by split; simpl in *; try congruence; try lia.
Qed.

End invariant.

(** ** What the opcodes leave alone

    A component [p] of the machine that does not depend on the stack, the
    locals, the logs, the gas and the memory meter is changed by no opcode but
    the two that write the contract state. *)

Definition writes_state (op : Op) : bool :=
  match op with OStateStore _ | OMapSet _ => true | _ => false end.

Section frame.
Context {X : Type} `{!ExternalCaller X, Hex, StrDebug, HashOrder, Blake3}.
Context {T : Type} (p : EvaporVM -> T).

Definition keeps {A} (c : M A) : Prop :=
  forall (vm : EvaporVM) (x : option X) a vm', (c vm x).1 = Ok (a, vm') -> p vm' = p vm.

Lemma keeps_ret {A} (a : A) : keeps (ret a).
Proof. by intros vm x ? ? [= <- <-]. Qed.

Lemma keeps_fail {A} e : keeps (A:=A) (fail e).
Proof. done. Qed.

Lemma keeps_lift {A} (r : result A ScriptError) : keeps (lift r).
Proof. destruct r; intros vm x ? ? E; naive_solver. Qed.

Lemma keeps_gets {A} (f : EvaporVM -> A) : keeps (gets f).
Proof. by intros vm x ? ? [= <- <-]. Qed.

Lemma keeps_modify f : (forall vm, p (f vm) = p vm) -> keeps (modify f).
Proof. by intros Hf vm x ? ? [= <- <-]. Qed.

Lemma keeps_bind {A B} (c : M A) (f : A -> M B) :
  keeps c -> (forall a, keeps (f a)) -> keeps (bind c f).
Proof.
  intros Hc Hf vm x b vm'. unfold bind. specialize (Hc vm x).
  destruct (c vm x) as [[[a vm1]|e] x1]; [|done]. intros E.
  etrans; [by eapply Hf|by eapply Hc].
Qed.

Lemma keeps_dispatch id method args from ctx gas : keeps (dispatch id method args from ctx gas).
Proof.
  intros vm x a vm'. unfold dispatch. destruct x; [|done].
  destruct (call_external _ _ _ _ _ _ _ _) as [[] ?]; naive_solver.
Qed.

Context (Hstack : forall s vm, p (set_stack s vm) = p vm).
Context (Hlocals : forall l vm, p (set_locals l vm) = p vm).
Context (Hevents : forall es ses vm, p (add_events es ses vm) = p vm).
Context (Hmeters : forall g m vm, p (set_meters g (step_count vm) m vm) = p vm).

Lemma keeps_pop : keeps pop.
Proof.
  intros vm x a vm'. unfold pop, bind, gets. destruct (stack vm); [done|]. intros [= <- <-]. apply Hstack.
Qed.

Lemma keeps_pop_n n acc : keeps (pop_n n acc).
Proof.
  revert acc. induction n as [|n IH]; intros acc; simpl; [apply keeps_ret|].
  by apply keeps_bind; [apply keeps_pop|].
Qed.

Ltac keeps_step :=
  first [ apply keeps_ret | apply keeps_fail | apply keeps_lift | apply keeps_gets
        | apply keeps_dispatch | apply keeps_pop | apply keeps_pop_n
        | apply keeps_modify; intros; first [apply Hstack|apply Hlocals|apply Hevents|apply Hmeters]
        | apply keeps_bind; [|intros ?] | case_match ].

Lemma keeps_push v : keeps (push v).
Proof. unfold push. repeat keeps_step. Qed.
Lemma keeps_charge n : keeps (charge_gas n).
Proof. unfold charge_gas. repeat keeps_step. Qed.
Lemma keeps_track n : keeps (track_memory n).
Proof. unfold track_memory. repeat keeps_step. Qed.

Lemma keeps_builtin name n ctx : keeps (call_builtin name n ctx).
Proof.
  unfold call_builtin, builtin_balance, builtin_transfer, builtin_emit, builtin_allen_relation,
    builtin_emit_event, builtin_require, builtin_min, builtin_max, builtin_hash, builtin_len,
    builtin_to_string, builtin_vrf_domain_randomness, builtin_random_range, arity, pop_u64,
    pop_bool, pop_str, pop_address.
  repeat first [apply keeps_push|apply keeps_charge|apply keeps_track|keeps_step].
Qed.

Lemma keeps_exec_op op len ip n ctx :
  writes_state op = false \/ (forall st vm, p (set_state st vm) = p vm) ->
  keeps (exec_op op len ip n ctx).
Proof.
  intros Hst. destruct op; simpl; unfold next;
    unfold op_push, op_pop, op_load, op_store, op_state_load, op_state_store, op_add, op_sub, op_mul,
      op_div, op_mod, op_shl, op_shr, op_eq, op_neq, op_gt, op_lt, op_gte, op_lte, op_and, op_or,
      op_not, op_neg, op_jump, op_jump_if, op_jump_if_false, op_call, op_map_get, op_map_set,
      op_require, op_array_new, op_array_get, op_array_set, op_emit, op_emit_event, op_return,
      op_halt, op_epoch_now, op_block_num, op_energy_of, op_require_epoch_range, op_compute_decay,
      op_vrf_randomness, op_vrf_domain_randomness, op_random_range, op_call_external,
      check_target, take_jump, array_at, array_put, pop_u64, pop_bool, pop_str;
    repeat first [apply keeps_builtin|apply keeps_push|apply keeps_charge|apply keeps_track
                 |keeps_step].
  all: apply keeps_modify; intros; destruct Hst as [Hst|Hst]; [discriminate Hst|apply Hst].
Qed.

Lemma keeps_push_args args : keeps (push_args args).
Proof.
  induction args; simpl; [apply keeps_ret|]. by apply keeps_bind; [apply keeps_push|].
Qed.
End frame.

(** ** Termination

    No opcode touches the step counter, so every iteration raises it by one
    and the hard limit ends the loop, whatever the code, the inputs and the
    callee do. *)
Section termination.
Context {X : Type} `{!ExternalCaller X, Hex, StrDebug, HashOrder, Blake3}.

Lemma steady_exec_op op len ip n ctx : keeps (X:=X) step_count (exec_op op len ip n ctx).
Proof. apply keeps_exec_op; auto. Qed.

Lemma steady_exec_step bc ctx (s s' : Loop) :
  exec_step bc ctx s = inl s' ->
  step_count (l_vm s) < MAX_STEPS /\ step_count (l_vm s') = step_count (l_vm s) + 1.
Proof.
  unfold exec_step. destruct (opcodes bc !! l_ip s) as [op|]; [|done]. unfold bind.
  destruct (count_step _ _) as [[[[] vm1]|e] x1] eqn:Ec; [|done].
  apply count_step_Ok in Ec as (-> & Hlt & ->).
  destruct (exec_op _ _ _ _ _ _ _) as [[[f vm2]|e] x2] eqn:Eop; [|done].
  assert (Hst : step_count vm2 = step_count (l_vm s) + 1).
  { pose proof (steady_exec_op op (length (opcodes bc)) (l_ip s) (l_counter s) ctx _ _ f vm2
      ltac:(by rewrite Eop)) as ->. done. }
  destruct f; by intros [= <-].
Qed.

Lemma exec_loop_ends bc ctx (s : Loop) :
  0 <= step_count (l_vm s) ->
  exists o, loop_pos (exec_step bc ctx) STEP_FUEL s = inr o.
Proof.
  intros Hs. rewrite loop_pos_nat.
  apply (loop_nat_ends _ (fun s => 0 <= step_count (l_vm s))
    (fun s => Z.to_nat (MAX_STEPS - step_count (l_vm s)))); [|done|].
  - intros s1 s2 Hs1 [Hlt Heq]%steady_exec_step. lia.
  - change STEP_FUEL with (Z.to_pos (MAX_STEPS + 1)). unfold MAX_STEPS. lia.
Qed.

(** C14: running a method always returns: whatever the bytecode, the
    arguments, the state, the context, the gas limit and the external caller,
    the interpreter loop ends within the step limit. *)
Theorem execute_terminates bc method args st ctx limit (x : option X) id :
  exists r, execute_full_with_self bc method args st ctx limit x id = Some r.
Proof.
  unfold execute_full_with_self, execute_method. set (vm0 := set_identity _ _ _).
  destruct (methods bc !! method) as [start|]; [|by eexists].
  destruct (push_args args vm0 x) as [[[[] vm1]|e] x1] eqn:Ep; [|by eexists].
  assert (Hst : step_count vm1 = step_count vm0).
  { eapply (keeps_push_args step_count); [done|]. by rewrite Ep. }
  destruct (exec_loop_ends bc ctx {| l_vm := vm1; l_ip := start; l_counter := 0; l_ext := x1 |})
    as [[[[v vm2]|e] x2] ->]; [by simpl; rewrite Hst|by eexists..].
Qed.
End termination.

(** ** Resource limits and isolation *)

Section limits.
Context {X : Type} `{!ExternalCaller X, Hex, StrDebug, HashOrder, Blake3, !Blake3Bytes}.
Context (ext_ok : X -> Prop) `{!ExternalCallerLaws X ext_ok}.

(** What a call promises its dispatcher, in the terms of the interface. *)
Lemma execute_full_wf bc method args st ctx limit x id r x' :
  code_ok (opcodes bc) -> ctx_ok ctx -> Forall value_wf args -> map_wf st -> is_u64 limit ->
  exts_ok ext_ok x ->
  execute_full_with_self bc method args st ctx limit x id = Some (r, x') ->
  exts_ok ext_ok x' /\
  forall res, r = Ok res ->
    value_wf (return_value res) /\ map_wf (state_changes res) /\
    Forall event_wf (r_structured_events res) /\ 0 <= r_gas_used res <= limit.
Proof.
  intros Hcode Hctx Hargs Hst Hlim Hx. unfold execute_full_with_self.
  destruct (execute_method _ _ _ _ _ _) as [[o y]|] eqn:E; [|done].
  destruct (execute_method_ok ext_ok bc method args st ctx limit x id _ Hcode Hctx Hargs Hst Hlim Hx E)
    as (Hy & _ & Ho). simpl in *.
  destruct o as [[v vm]|e]; intros [= <- <-]; (split; [done|]); [|done].
  intros res [= <-]. destruct (Ho v vm eq_refl) as (Hv & [] & <- & ?). simpl. by split_and!; try lia.
Qed.


(** A lifecycle hook never reaches another contract: whether it succeeds
    or fails, the external caller is in the state it started in. *)
Theorem lifecycle_hook_isolated bc method args st ctx limit x id r x' :
  code_ok (opcodes bc) -> ctx_ok ctx -> Forall value_wf args -> map_wf st -> is_u64 limit ->
  exts_ok ext_ok x -> is_lifecycle_hook method = true ->
  execute_full_with_self bc method args st ctx limit x id = Some (r, x') ->
  x' = x.
Proof.
  intros Hcode Hctx Hargs Hst Hlim Hx Hh. unfold execute_full_with_self.
  destruct (execute_method _ _ _ _ _ _) as [[o y]|] eqn:E; [|done].
  destruct (execute_method_ok ext_ok bc method args st ctx limit x id _ Hcode Hctx Hargs Hst Hlim Hx E)
    as (_ & Hq & _). simpl in Hq.
  destruct o as [[v vm]|e]; intros [= <- <-]; by apply Hq.
Qed.
End limits.

(** ** What a run may do to the external caller

    Any preorder that every external call respects is respected by a whole
    run, failed or not. *)
Section callee_relation.
Context {X : Type} `{!ExternalCaller X, Hex, StrDebug, HashOrder, Blake3}.
Context (R : X -> X -> Prop) `{!PreOrder R}.
Context (HR : forall x id method args from ep depth gas,
  R x (call_external x id method args from ep depth gas).2).

Definition callee_rel (x y : option X) : Prop :=
  match x, y with
  | Some a, Some b => R a b
  | None, None => True
  | _, _ => False
  end.

#[local] Instance callee_rel_preorder : PreOrder callee_rel.
Proof.
  split.
  - by intros [x|]; simpl.
  - intros [x|] [y|] [z|]; simpl; try done. apply transitivity.
Qed.

Definition traces {A} (c : M A) : Prop := forall vm x, callee_rel x (c vm x).2.

Lemma traces_pure {A} (c : M A) : (forall vm x, (c vm x).2 = x) -> traces c.
Proof. intros Hc vm x. by rewrite Hc. Qed.

Lemma traces_ret {A} (a : A) : traces (ret a).
Proof. by apply traces_pure. Qed.
Lemma traces_fail {A} e : traces (A:=A) (fail e).
Proof. by apply traces_pure. Qed.
Lemma traces_lift {A} (r : result A ScriptError) : traces (lift r).
Proof. apply traces_pure. by destruct r. Qed.
Lemma traces_gets {A} (f : EvaporVM -> A) : traces (gets f).
Proof. by apply traces_pure. Qed.
Lemma traces_modify f : traces (modify f).
Proof. by apply traces_pure. Qed.

Lemma traces_bind {A B} (c : M A) (f : A -> M B) :
  traces c -> (forall a, traces (f a)) -> traces (bind c f).
Proof.
  intros Hc Hf vm x. unfold bind. specialize (Hc vm x).
  destruct (c vm x) as [[[a vm1]|e] x1]; simpl in *; [|done]. etrans; [done|apply Hf].
Qed.

Lemma traces_dispatch id method args from ctx gas : traces (dispatch id method args from ctx gas).
Proof.
  intros vm x. unfold dispatch. destruct x as [x|]; [|done].
  pose proof (HR x id method args from (epoch ctx) (call_depth ctx + 1) gas) as Hx.
  by destruct (call_external _ _ _ _ _ _ _ _) as [[] ?].
Qed.

Lemma traces_pop_n n acc : traces (pop_n n acc).
Proof.
  revert acc. induction n as [|n IH]; intros acc; simpl; [apply traces_ret|].
  apply traces_bind; [|intros; apply IH]. unfold pop. apply traces_bind; [apply traces_gets|].
  intros [|v s]; [apply traces_fail|]. apply traces_bind; [apply traces_modify|intros; apply traces_ret].
Qed.

Ltac traces_step :=
  first [ apply traces_ret | apply traces_fail | apply traces_lift | apply traces_gets
        | apply traces_dispatch | apply traces_pop_n | apply traces_modify
        | apply traces_bind; [|intros ?] | case_match ].

Lemma traces_pop : traces pop.
Proof. unfold pop. repeat traces_step. Qed.
Lemma traces_push v : traces (push v).
Proof. unfold push. repeat traces_step. Qed.
Lemma traces_charge n : traces (charge_gas n).
Proof. unfold charge_gas. repeat traces_step. Qed.
Lemma traces_track n : traces (track_memory n).
Proof. unfold track_memory. repeat traces_step. Qed.

Ltac traces_solve :=
  repeat first [apply traces_pop|apply traces_push|apply traces_charge|apply traces_track|traces_step].

Lemma traces_builtin name n ctx : traces (call_builtin name n ctx).
Proof.
  unfold call_builtin, builtin_balance, builtin_transfer, builtin_emit, builtin_allen_relation,
    builtin_emit_event, builtin_require, builtin_min, builtin_max, builtin_hash, builtin_len,
    builtin_to_string, builtin_vrf_domain_randomness, builtin_random_range, arity, pop_u64,
    pop_bool, pop_str, pop_address.
  traces_solve.
Qed.

Lemma traces_exec_op op len ip n ctx : traces (exec_op op len ip n ctx).
Proof.
  destruct op; simpl; unfold next;
    unfold op_push, op_pop, op_load, op_store, op_state_load, op_state_store, op_add, op_sub, op_mul,
      op_div, op_mod, op_shl, op_shr, op_eq, op_neq, op_gt, op_lt, op_gte, op_lte, op_and, op_or,
      op_not, op_neg, op_jump, op_jump_if, op_jump_if_false, op_call, op_map_get, op_map_set,
      op_require, op_array_new, op_array_get, op_array_set, op_emit, op_emit_event, op_return,
      op_halt, op_epoch_now, op_block_num, op_energy_of, op_require_epoch_range, op_compute_decay,
      op_vrf_randomness, op_vrf_domain_randomness, op_random_range, op_call_external,
      check_target, take_jump, array_at, array_put, pop_u64, pop_bool, pop_str;
    repeat first [apply traces_builtin|apply traces_pop|apply traces_push|apply traces_charge
                 |apply traces_track|traces_step].
Qed.

Lemma traces_push_args args : traces (push_args args).
Proof. induction args; simpl; [apply traces_ret|]. by apply traces_bind; [apply traces_push|]. Qed.

Lemma exec_step_rel bc ctx (s : Loop) :
  match exec_step bc ctx s with
  | inl s' => callee_rel (l_ext s) (l_ext s')
  | inr o => callee_rel (l_ext s) o.2
  end.
Proof.
  unfold exec_step. destruct (opcodes bc !! l_ip s) as [op|]; simpl; [|done].
  assert (Ht : traces (bind count_step (fun _ =>
    exec_op op (length (opcodes bc)) (l_ip s) (l_counter s) ctx))).
  { apply traces_bind; [unfold count_step; traces_solve|intros; apply traces_exec_op]. }
  specialize (Ht (l_vm s) (l_ext s)).
  by destruct (bind _ _ _ _) as [[[[] vm]|e] x].
Qed.

Lemma execute_full_rel bc method args st ctx limit x id r x' :
  execute_full_with_self bc method args st ctx limit x id = Some (r, x') -> callee_rel x x'.
Proof.
  unfold execute_full_with_self, execute_method.
  destruct (methods bc !! method) as [start|]; [|by intros [= <- <-]].
  set (vm0 := set_identity _ _ _). pose proof (traces_push_args args vm0 x) as Hp.
  destruct (push_args args vm0 x) as [[[[] vm1]|e] x1]; simpl in Hp; [|by intros [= <- <-]].
  rewrite loop_pos_nat. destruct (loop_nat _ _ _) as [|o] eqn:El; [done|].
  assert (Ho : callee_rel x o.2).
  { refine (loop_nat_inv _ (fun s => callee_rel x (l_ext s)) (fun o => callee_rel x o.2) _ _ _ _ _ _ El);
      [| |done].
    - intros s s' Hs E. pose proof (exec_step_rel bc ctx s) as Hst. rewrite E in Hst. by etrans.
    - intros s o' Hs E. pose proof (exec_step_rel bc ctx s) as Hst. rewrite E in Hst. by etrans. }
  destruct o as [[[v vm]|e] y]; by intros [= <- <-].
Qed.
End callee_relation.

(** ** Randomness without modulo bias *)

Section randomness.
Context `{Blake3}.

(** The rejection loop returns the first sample below the zone, reduced, and
    otherwise the last sample. *)
Lemma reject_loop_first ctx max zone left iter :
  exists k, (k <= left)%nat /\
    (forall j, (j < k)%nat -> zone <= range_sample ctx (iter + Z.of_nat j)) /\
    (range_sample ctx (iter + Z.of_nat k) < zone \/ k = left) /\
    reject_loop ctx max zone left iter = range_sample ctx (iter + Z.of_nat k) mod max.
Proof.
  revert iter. induction left as [|left IH]; intros iter.
  - exists 0%nat. split_and!; [lia|lia|by right|]. simpl. by rewrite Z.add_0_r.
  - simpl. destruct (Z.ltb_spec (range_sample ctx iter) zone).
    + exists 0%nat. rewrite Z.add_0_r. split_and!; [lia|lia|by left|done].
    + destruct (IH (iter + 1)) as (k & Hk & Hrej & Hend & ->). exists (S k).
      replace (iter + Z.of_nat (S k)) with (iter + 1 + Z.of_nat k) by lia.
      split_and!; [lia| |destruct Hend; [by left|right; lia]|done].
      intros [|j] Hj; [by rewrite Z.add_0_r|].
      replace (iter + Z.of_nat (S j)) with (iter + 1 + Z.of_nat j) by lia. apply Hrej. lia.
Qed.

(** [random_range] draws from [0, max): it is the first of the samples
    0, ..., 64 that falls in the acceptance zone, reduced modulo [max] (the
    last one if none does), and the zone holds every residue equally often,
    so an accepted sample carries no modulo bias. *)
Theorem random_range_spec ctx max :
  0 < max <= U64_MAX ->
  let zone := U64_MAX - U64_MAX mod max in
  0 <= random_range ctx max < max /\
  (exists k, (k <= MAX_REJECTION_ITERS)%nat /\
     (forall j, (j < k)%nat -> zone <= range_sample ctx (Z.of_nat j)) /\
     (range_sample ctx (Z.of_nat k) < zone \/ k = MAX_REJECTION_ITERS) /\
     random_range ctx max = range_sample ctx (Z.of_nat k) mod max) /\
  (forall r raw, 0 <= r < max ->
     (0 <= raw < zone /\ raw mod max = r) <->
     exists q, 0 <= q < zone / max /\ raw = r + max * q).
Proof.
  intros Hmax zone. split_and!.
  - apply random_range_range. lia.
  - apply random_range_range. lia.
  - destruct (reject_loop_first ctx max zone MAX_REJECTION_ITERS 0) as (k & Hk).
    exists k. by setoid_rewrite Z.add_0_l in Hk.
  - intros r raw Hr. assert (Hz : zone = max * (zone / max)).
    { unfold zone. pose proof (Z.div_mod U64_MAX max).
      replace (U64_MAX - U64_MAX mod max) with (U64_MAX / max * max) by lia.
      rewrite Z.div_mul by lia. lia. }
    split.
    + intros [Hraw <-]. exists (raw / max). pose proof (Z.div_mod raw max).
      assert (0 <= raw / max) by (apply Z.div_pos; lia).
      assert (raw / max < zone / max) by (apply Z.div_lt_upper_bound; lia). lia.
    + intros (q & Hq & ->). split; [nia|].
      rewrite Z.mul_comm, Z_mod_plus_full. apply Z.mod_small. lia.
Qed.
End randomness.

(** ** The limit on state keys *)

Section state_keys.
Context {X : Type} `{!ExternalCaller X, Hex, StrDebug, HashOrder, Blake3}.

(** A charge the limit covers. *)
Lemma charge_gas_run {A} n (k : unit -> M A) (vm : EvaporVM) (x : option X) :
  gas_used vm + n <= gas_limit vm -> is_u64 (gas_limit vm) ->
  bind (charge_gas n) k vm x
  = k tt (set_meters (gas_used vm + n) (step_count vm) (memory_used vm) vm) x.
Proof.
  intros Hn Hl. unfold bind, charge_gas, gets, bind, checked_add, modify.
  zcase; first [done|u64_lia].
Qed.

(** At the limit of ten thousand state keys [StateStore] refuses a new
    field, but [MapSet] on a field that does not exist yet inserts it: the
    limit the code sets on a contract's storage does not bind map fields. *)
Theorem map_set_exceeds_state_keys (vm : EvaporVM) (x : option X) field val key s :
  0 <= gas_used vm -> gas_used vm + GAS_MAP_SET <= gas_limit vm -> is_u64 (gas_limit vm) ->
  0 <= memory_used vm -> memory_used vm + 64 <= MAX_MEMORY_BYTES ->
  stack vm = val :: key :: s -> state vm !! field = None -> MAX_STATE_KEYS <= map_len (state vm) ->
  (op_state_store field vm x).1 = Err (Runtime StateKeysLimit) /\
  exists vm', (op_map_set field vm x).1 = Ok (tt, vm') /\
    map_len (state vm') = 1 + map_len (state vm).
Proof.
  intros Hg Hgl Hl Hm Hml Hs Hf Hk.
  split.
  - unfold op_state_store. rewrite charge_gas_run by (unfold GAS_STATE_STORE, GAS_MAP_SET in *; lia || done).
    unfold bind, pop, bind, gets, modify, ret. simpl. rewrite Hs. simpl.
    rewrite bool_decide_true by done. simpl. zcase; [done|lia].
  - unfold op_map_set. rewrite charge_gas_run by (unfold GAS_MAP_SET in *; lia || done).
    unfold bind, pop, bind, gets, modify, ret. simpl. rewrite Hs. simpl. rewrite Hf. simpl.
    unfold track_memory, bind, gets. simpl. rewrite saturating_add_exact by (unfold MAX_MEMORY_BYTES in *; u64_lia).
    zcase; [lia|]. simpl. rewrite lookup_empty, bool_decide_true by done. simpl. zcase; [done|].
    eexists. split; [done|]. simpl. unfold map_len. rewrite map_size_insert_None by done. lia.
Qed.
End state_keys.

(** ** Concrete runs *)

Module ToyVM.

(** A callee that always answers seven, for five gas. *)
#[global] Instance toy_external : ExternalCaller unit :=
  fun x _ _ _ _ _ _ _ => (Ok (U64 7, [], 5), x).

#[global] Instance toy_external_laws : ExternalCallerLaws unit (fun _ => True).
Proof.
  intros x id m args from ep depth gas r x' _ _ _ _ _ _ [= <- <-]. split; [done|].
  intros v es g [= <- <- <-]. split_and!; [constructor; u64_lia|done|u64_lia].
Qed.

Definition ctx : ExecutionContext :=
  {| caller := replicate 32 1; owner := replicate 32 2; epoch := 5; energy := 9;
     vrf_randomness := replicate 32 3; call_depth := 0 |}.

Lemma toy_ctx_ok : ctx_ok ctx.
Proof. split; simpl; try u64_lia; repeat (constructor; [unfold is_u8; lia|]); constructor. Qed.

Definition code (method : string) (ops : list Op) : EvaporBytecode :=
  {| methods := {[ method := 0%nat ]}; opcodes := ops; state_schema := []; bname := "toy" |}.

(** Count to a hundred, then call contract 4. *)
Definition counter : list Op :=
  [OPush (U64 0); OStore "i"; OLoad "i"; OPush (U64 100); OLt; OJumpIfFalse 11; OLoad "i";
   OPush (U64 1); OAdd; OStore "i"; OJump 2; OPush (U64 4); OPush (Str "m"); OCallExternal 2;
   OLoad "i"; OAdd; OReturn].

Lemma counter_ok method : code_ok (opcodes (code method counter)).
Proof.
  intros v Hv. unfold code, counter in Hv. simpl in Hv. rewrite !elem_of_cons, elem_of_nil in Hv.
  destruct_or!; try discriminate; simplify_eq; constructor; u64_lia.
Qed.

Lemma toy_inputs_ok :
  Forall value_wf [] /\ map_wf (∅ : gmap string Value) /\ is_u64 5000 /\ exts_ok (fun _ : unit => True) (Some tt).
Proof. split_and!; [done|done|u64_lia|done]. Qed.

(** A storage at its limit. *)
Definition full_key (i : nat) : string := String.append "k" (show_u64 (Z.of_nat i)).

Definition full_state : gmap string Value :=
  list_to_map ((fun i => (full_key i, Null)) <$> seq 0 (Z.to_nat MAX_STATE_KEYS)).

Lemma full_state_keys : ((fun i => (full_key i, Null)) <$> seq 0 (Z.to_nat MAX_STATE_KEYS)).*1
  = full_key <$> seq 0 (Z.to_nat MAX_STATE_KEYS).
Proof. rewrite <- list_fmap_compose. by apply list_fmap_ext. Qed.

Lemma full_state_len : map_len full_state = MAX_STATE_KEYS.
Proof.
  unfold map_len, full_state. rewrite map_size_list_to_map.
  - rewrite length_fmap, length_seq. apply Z2Nat.id. unfold MAX_STATE_KEYS. lia.
  - rewrite full_state_keys. apply NoDup_fmap_2_strong; [|apply NoDup_seq].
    intros i j _ _ E%append_inj_r%show_u64_inj; lia.
Qed.

Lemma full_state_fresh : full_state !! "balances"%string = None.
Proof.
  apply not_elem_of_list_to_map_1. rewrite full_state_keys.
  intros (i & E & _)%list_elem_of_fmap. discriminate.
Qed.

Definition full_vm : EvaporVM :=
  set_stack [U64 1; U64 2] (vm_new full_state 100).

End ToyVM.

Lemma map_set_exceeds_state_keys_witness :
  exists vm', (op_map_set (X:=unit) "balances" ToyVM.full_vm None).1 = Ok (tt, vm') /\
    map_len (state vm') = 1 + MAX_STATE_KEYS.
Proof.
  pose proof (map_set_exceeds_state_keys (X:=unit) ToyVM.full_vm None "balances" (U64 1) (U64 2) []
    ltac:(unfold ToyVM.full_vm; cbn; lia) ltac:(unfold ToyVM.full_vm, GAS_MAP_SET; cbn; lia)
    ltac:(unfold ToyVM.full_vm; cbn; u64_lia)
    ltac:(unfold ToyVM.full_vm; cbn; lia) ltac:(unfold ToyVM.full_vm, MAX_MEMORY_BYTES; cbn; lia) eq_refl
    ToyVM.full_state_fresh (Z.eq_le_incl _ _ (eq_sym ToyVM.full_state_len))) as [_ (vm' & Hvm & Hlen)].
  exists vm'. split; [exact Hvm|]. rewrite Hlen. exact (f_equal (Z.add 1) ToyVM.full_state_len).
Defined.


Lemma lifecycle_hook_isolated_witness :
  exists x', execute_full_with_self (X:=unit) (ToyVM.code "on_grace" ToyVM.counter) "on_grace" [] ∅
    ToyVM.ctx 5000 (Some tt) 1 = Some (Err (Runtime CallInHook), x') /\ x' = Some tt.
Proof.
  destruct ToyVM.toy_inputs_ok as (Ha & Hs & Hl & Hx).
  eexists. split; [vm_compute; reflexivity|].
  refine (lifecycle_hook_isolated (fun _ : unit => True) (ToyVM.code "on_grace" ToyVM.counter) "on_grace"
    [] ∅ ToyVM.ctx 5000 (Some tt) 1 (Err (Runtime CallInHook)) _ (ToyVM.counter_ok _)
    ToyVM.toy_ctx_ok Ha Hs Hl Hx eq_refl _).
  vm_compute. reflexivity.
Defined.

Lemma random_range_spec_witness : 0 <= random_range ToyVM.ctx 6 < 6.
Proof. exact (proj1 (random_range_spec ToyVM.ctx 6 ltac:(u64_lia))). Defined.
