(* ===== verification/ScriptCompiler.v ===== *)
(** * The EvaporScript compiler

    crates/evaporchain-script/src/compiler.rs on the syntax tree of
    parser.rs: code generation, constant folding, dead-code elimination, the
    public [compile] and the ABI generator.  The parser is in ScriptTokens.v and
    ScriptGrammar.v; this file starts from a [Contract].

    Code generation appends to the opcode vector; [None] stands for the panic
    of [patch_jump] on a non-jump, which the theorems exclude.  Both
    optimisation loops run on fuel that the measure lemmas show to be
    enough. *)

From stdpp Require Import base gmap list sorting strings.
From Stdlib Require Import ZArith Lia.
From S2P Require Import Prelude Energy Trie ScriptValue ScriptVM.

Open Scope Z_scope.

(** ** Syntax *)

Inductive BinOp : Type :=
| BAdd | BSub | BMul | BDiv | BMod | BEq | BNeq | BGt | BLt | BGte | BLte
| BAnd | BOr | BShl | BShr.

Inductive UnaryOp : Type := UNot | UNeg.

Inductive Expr : Type :=
| Literal (v : Value)
| Var (name : string)
| StateAccess (field : string)
| MapAccess (field : string) (key : Expr)
| BinaryOp (left : Expr) (op : BinOp) (right : Expr)
| Unary (op : UnaryOp) (e : Expr)
| FunctionCall (name : string) (args : list Expr)
| ArrayLiteral (elements : list Expr)
| ArrayAccess (array index : Expr).

Inductive AssignTarget : Type :=
| TVariable (name : string)
| TStateField (field : string)
| TMapEntry (field : string) (key : Expr)
| TArrayElement (name : string) (index : Expr).

Inductive Stmt : Type :=
| SLet (name : string) (value : Expr)
| SAssign (target : AssignTarget) (value : Expr)
| SCompoundAssign (target : AssignTarget) (op : BinOp) (value : Expr)
| SIf (condition : Expr) (then_body : list Stmt) (else_body : option (list Stmt))
| SWhile (condition : Expr) (body : list Stmt)
| SReturn (e : option Expr)
| SRequire (condition message : Expr)
| SEmit (e : Expr)
| SExpr (e : Expr).

Record StateField := {
  fld_name : string;
  fld_ty : ScriptType;
  fld_default : option Expr;
}.

Record Function := {
  fn_name : string;
  fn_params : list (string * ScriptType);
  fn_return_type : option ScriptType;
  fn_body : list Stmt;
}.

Inductive LifecycleHook : Type :=
| OnEvaporate (body : list Stmt)
| OnGrace (body : list Stmt)
| OnRefresh (body : list Stmt).

Record Contract := {
  c_name : string;
  state_fields : list StateField;
  functions : list Function;
  lifecycle_hooks : list LifecycleHook;
}.

(** ** Code generation *)

Definition emit (op : Op) (ops : list Op) : list Op := ops ++ [op].

(** [patch_jump]; [None] is its panic. *)
Definition patch_jump (jump_idx target : nat) (ops : list Op) : option (list Op) :=
  match ops !! jump_idx with
  | Some (OJump _) => Some (<[ jump_idx := OJump target ]> ops)
  | Some (OJumpIf _) => Some (<[ jump_idx := OJumpIf target ]> ops)
  | Some (OJumpIfFalse _) => Some (<[ jump_idx := OJumpIfFalse target ]> ops)
  | _ => None
  end.

Definition binop_op (op : BinOp) : Op :=
  match op with
  | BAdd => OAdd | BSub => OSub | BMul => OMul | BDiv => ODiv | BMod => OMod
  | BEq => OEq | BNeq => ONeq | BGt => OGt | BLt => OLt | BGte => OGte | BLte => OLte
  | BAnd => OAnd | BOr => OOr | BShl => OShl | BShr => OShr
  end.

Definition emit_binop (op : BinOp) (ops : list Op) : list Op := emit (binop_op op) ops.

(** The bare names that are calls of a zero-argument built-in. *)
Definition is_context_name (name : string) : bool :=
  bool_decide (name = "caller" \/ name = "owner" \/ name = "epoch" \/ name = "energy").

Fixpoint compile_expr (e : Expr) (ops : list Op) : list Op :=
  match e with
  | Literal val => emit (OPush val) ops
  | Var name =>
      if is_context_name name then emit (OCall name 0) ops else emit (OLoad name) ops
  | StateAccess field => emit (OStateLoad field) ops
  | MapAccess field key => emit (OMapGet field) (compile_expr key ops)
  | BinaryOp l op r => emit_binop op (compile_expr r (compile_expr l ops))
  | Unary op e =>
      let ops := compile_expr e ops in
      match op with
      | UNot => emit ONot ops
      | UNeg => emit ONeg ops
      end
  | FunctionCall name args =>
      let ops := foldl (fun ops arg => compile_expr arg ops) ops args in
      if String.eqb name "call_contract" then emit (OCallExternal (length args)) ops
      else emit (OCall name (length args)) ops
  | ArrayLiteral elements =>
      let ops := foldl (fun ops elem => compile_expr elem ops) ops elements in
      emit (OArrayNew (length elements)) ops
  | ArrayAccess array index => emit OArrayGet (compile_expr index (compile_expr array ops))
  end.

Definition compile_assign (target : AssignTarget) (value : Expr) (ops : list Op) : list Op :=
  match target with
  | TVariable name => emit (OStore name) (compile_expr value ops)
  | TStateField field => emit (OStateStore field) (compile_expr value ops)
  | TMapEntry field key => emit (OMapSet field) (compile_expr value (compile_expr key ops))
  | TArrayElement name index => emit (OArraySet name) (compile_expr index (compile_expr value ops))
  end.

Definition compile_compound (target : AssignTarget) (op : BinOp) (value : Expr) (ops : list Op)
  : list Op :=
  match target with
  | TStateField field =>
      let ops := emit (OStateLoad field) ops in
      let ops := emit_binop op (compile_expr value ops) in
      emit (OStateStore field) ops
  | TMapEntry field key =>
      let ops := emit (OStore "__map_key_tmp") (compile_expr key ops) in
      let ops := emit (OMapGet field) (emit (OLoad "__map_key_tmp") ops) in
      let ops := emit_binop op (compile_expr value ops) in
      let ops := emit (OStore "__map_val_tmp") ops in
      let ops := emit (OLoad "__map_val_tmp") (emit (OLoad "__map_key_tmp") ops) in
      emit (OMapSet field) ops
  | TVariable name =>
      let ops := emit (OLoad name) ops in
      let ops := emit_binop op (compile_expr value ops) in
      emit (OStore name) ops
  | TArrayElement name index =>
      let ops := emit (OStore "__arr_idx_tmp") (compile_expr index ops) in
      let ops := emit (OLoad "__arr_idx_tmp") (emit (OLoad name) ops) in
      let ops := emit OArrayGet ops in
      let ops := emit_binop op (compile_expr value ops) in
      let ops := emit (OLoad "__arr_idx_tmp") ops in
      emit (OArraySet name) ops
  end.

Fixpoint compile_stmt (s : Stmt) (ops : list Op) : option (list Op) :=
  let compile_body := foldl (fun acc s => acc ≫= compile_stmt s) in
  match s with
  | SLet name value => Some (emit (OStore name) (compile_expr value ops))
  | SAssign target value => Some (compile_assign target value ops)
  | SCompoundAssign target op value => Some (compile_compound target op value ops)
  | SIf condition then_body else_body =>
      let ops := compile_expr condition ops in
      let else_jump := length ops in
      let ops := emit (OJumpIfFalse 0) ops in
      ops ← compile_body (Some ops) then_body;
      match else_body with
      | Some else_stmts =>
          let end_jump := length ops in
          let ops := emit (OJump 0) ops in
          let else_start := length ops in
          ops ← patch_jump else_jump else_start ops;
          ops ← compile_body (Some ops) else_stmts;
          patch_jump end_jump (length ops) ops
      | None => patch_jump else_jump (length ops) ops
      end
  | SWhile condition body =>
      let loop_start := length ops in
      let ops := compile_expr condition ops in
      let exit_jump := length ops in
      let ops := emit (OJumpIfFalse 0) ops in
      ops ← compile_body (Some ops) body;
      let ops := emit (OJump loop_start) ops in
      patch_jump exit_jump (length ops) ops
  | SReturn e =>
      let ops := match e with
                 | Some e => compile_expr e ops
                 | None => emit (OPush Null) ops
                 end in
      Some (emit OReturn ops)
  | SRequire condition message =>
      Some (emit ORequire (compile_expr condition (compile_expr message ops)))
  | SEmit e => Some (emit OEmit (compile_expr e ops))
  | SExpr e => Some (emit OPop (compile_expr e ops))
  end.

Definition compile_body (body : list Stmt) (ops : list Op) : option (list Op) :=
  foldl (fun acc s => acc ≫= compile_stmt s) (Some ops) body.

(** [struct Compiler] *)
Record Compiler := {
  comp_opcodes : list Op;
  comp_methods : gmap string nat;
}.

Definition compiler_new : Compiler := {| comp_opcodes := []; comp_methods := ∅ |}.

(** A method entry, its prologue, its body and the implicit return. *)
Definition compile_method (name : string) (params : list (string * ScriptType)) (body : list Stmt)
    (c : Compiler) : option Compiler :=
  let methods := <[ name := length (comp_opcodes c) ]> (comp_methods c) in
  let ops := foldl (fun ops p => emit (OStore p.1) ops) (comp_opcodes c) (rev params) in
  ops ← compile_body body ops;
  Some {| comp_opcodes := emit OReturn (emit (OPush Null) ops); comp_methods := methods |}.

Definition compile_function (f : Function) (c : Compiler) : option Compiler :=
  compile_method (fn_name f) (fn_params f) (fn_body f) c.

Definition hook_name (h : LifecycleHook) : string :=
  match h with
  | OnEvaporate _ => "on_evaporate"
  | OnGrace _ => "on_grace"
  | OnRefresh _ => "on_refresh"
  end.

Definition hook_body (h : LifecycleHook) : list Stmt :=
  match h with OnEvaporate b | OnGrace b | OnRefresh b => b end.

Definition compile_hook (h : LifecycleHook) (c : Compiler) : option Compiler :=
  compile_method (hook_name h) [] (hook_body h) c.

Definition compile_contract (contract : Contract) (c : Compiler) : option Compiler :=
  c ← foldl (fun acc f => acc ≫= compile_function f) (Some c) (functions contract);
  foldl (fun acc h => acc ≫= compile_hook h) (Some c) (lifecycle_hooks contract).

(** ** State schema *)

Fixpoint eval_const_expr (e : Expr) : option Value :=
  match e with
  | Literal val => Some val
  | ArrayLiteral elements => VArray <$> mapM eval_const_expr elements
  | _ => None
  end.

Definition extract_state_schema (contract : Contract) : StateSchema :=
  (fun f => {| sf_name := fld_name f; sf_ty := fld_ty f;
               sf_default := fld_default f ≫= eval_const_expr |}) <$> state_fields contract.

(** ** Constant folding *)

Definition MAX_FOLD_STRING_LEN : Z := 65536.

Definition fold_binop (a b : Value) (op : BinOp) : option Value :=
  match a, b, op with
  | U64 x, U64 y, BAdd => U64 <$> checked_add x y
  | U64 x, U64 y, BSub => U64 <$> checked_sub x y
  | U64 x, U64 y, BMul => U64 <$> checked_mul x y
  | U64 x, U64 y, BDiv => if negb (y =? 0) then Some (U64 (x / y)) else None
  | U64 x, U64 y, BMod => if negb (y =? 0) then Some (U64 (x mod y)) else None
  | U64 x, U64 y, BEq => Some (VBool (x =? y))
  | U64 x, U64 y, BNeq => Some (VBool (negb (x =? y)))
  | U64 x, U64 y, BGt => Some (VBool (y <? x))
  | U64 x, U64 y, BLt => Some (VBool (x <? y))
  | U64 x, U64 y, BGte => Some (VBool (y <=? x))
  | U64 x, U64 y, BLte => Some (VBool (x <=? y))
  | VBool x, VBool y, BAnd => Some (VBool (x && y))
  | VBool x, VBool y, BOr => Some (VBool (x || y))
  | VBool x, VBool y, BEq => Some (VBool (eqb x y))
  | VBool x, VBool y, BNeq => Some (VBool (negb (eqb x y)))
  | U64 x, U64 y, BShl => if y <? 64 then Some (U64 (as_u64 (Z.shiftl x y))) else None
  | U64 x, U64 y, BShr => if y <? 64 then Some (U64 (Z.shiftr x y)) else None
  | Str x, Str y, BAdd =>
      if MAX_FOLD_STRING_LEN <? saturating_add (str_len x) (str_len y) then None
      else Some (Str (String.append x y))
  | Str x, Str y, BEq => Some (VBool (String.eqb x y))
  | Str x, Str y, BNeq => Some (VBool (negb (String.eqb x y)))
  | _, _, _ => None
  end.

(** The operator of a foldable opcode. *)
Definition op_binop (op : Op) : option BinOp :=
  match op with
  | OAdd => Some BAdd | OSub => Some BSub | OMul => Some BMul | ODiv => Some BDiv
  | OMod => Some BMod | OEq => Some BEq | ONeq => Some BNeq | OGt => Some BGt
  | OLt => Some BLt | OGte => Some BGte | OLte => Some BLte | OAnd => Some BAnd
  | OOr => Some BOr | OShl => Some BShl | OShr => Some BShr
  | _ => None
  end.

(** [Push(a), Push(b), op] at [i], folded. *)
Definition fold_binary_at (ops : list Op) (i : nat) : option Value :=
  match ops !! i, ops !! (i + 1)%nat, ops !! (i + 2)%nat with
  | Some (OPush a), Some (OPush b), Some op =>
      match op_binop op with
      | Some o => fold_binop a b o
      | None => None
      end
  | _, _, _ => None
  end.

(** [Push(a), Not] at [i], folded. *)
Definition fold_unary_at (ops : list Op) (i : nat) : option Value :=
  match ops !! i, ops !! (i + 1)%nat with
  | Some (OPush (VBool b)), Some ONot => Some (VBool (negb b))
  | _, _ => None
  end.

(** [Vec::remove] *)
Definition vec_remove (i : nat) (ops : list Op) : list Op := take i ops ++ drop (S i) ops.

Fixpoint constant_fold_loop (fuel : nat) (ops : list Op) (i : nat) (changed : bool)
  : list Op * bool :=
  match fuel with
  | O => (ops, changed)
  | S fuel' =>
      if decide (i < length ops)%nat then
        match fold_binary_at ops i with
        | Some r =>
            constant_fold_loop fuel'
              (vec_remove (i + 1) (vec_remove (i + 2) (<[ i := OPush r ]> ops))) i true
        | None =>
            match fold_unary_at ops i with
            | Some r => constant_fold_loop fuel' (vec_remove (i + 1) (<[ i := OPush r ]> ops)) i true
            | None => constant_fold_loop fuel' ops (S i) changed
            end
        end
      else (ops, changed)
  end.

Definition constant_fold (ops : list Op) : list Op * bool :=
  constant_fold_loop (length ops) ops 0 false.

(** ** Dead-code elimination *)

(** The offsets an opcode at [pc] enqueues, in push order. *)
Definition successors (pc : nat) (op : Op) : list nat :=
  match op with
  | OReturn | OHalt => []
  | OJump target => [target]
  | OJumpIf target | OJumpIfFalse target => [target; S pc]
  | _ => [S pc]
  end.

(** The reachability loop; the worklist has its last element first. *)
Fixpoint mark_loop (fuel : nat) (ops : list Op) (worklist : list nat) (reachable : list bool)
  : list bool :=
  match fuel with
  | O => reachable
  | S fuel' =>
      match worklist with
      | [] => reachable
      | pc :: worklist' =>
          match ops !! pc with
          | None => mark_loop fuel' ops worklist' reachable
          | Some op =>
              if default false (reachable !! pc) then mark_loop fuel' ops worklist' reachable
              else mark_loop fuel' ops (rev (successors pc op) ++ worklist') (<[ pc := true ]> reachable)
          end
      end
  end.

(** One pop per entry ever pushed: the methods, and two per opcode. *)
Definition mark_fuel (ops : list Op) (worklist : list nat) : nat :=
  length worklist + 2 * length ops.

Definition reachable_from `{HashOrder} (ops : list Op) (methods : gmap string nat) : list bool :=
  let worklist := rev ((fun name => default 0%nat (methods !! name)) <$> hash_keys methods) in
  mark_loop (mark_fuel ops worklist) ops worklist (replicate (length ops) false).

(** The final sweep: every unreached opcode becomes [Pop]. *)
Definition sweep_dead (ops : list Op) (reachable : list bool) : list Op :=
  zip_with (fun op (r : bool) => if r then op else OPop) ops reachable.

Definition eliminate_dead_code `{HashOrder} (ops : list Op) (methods : gmap string nat)
  : list Op * bool :=
  match ops with
  | [] => (ops, false)
  | _ =>
      let ops' := sweep_dead ops (reachable_from ops methods) in
      (ops', negb (bool_decide (ops' = ops)))
  end.

(** ** The optimiser and the public entry points *)

(** [for _ in 0..n { fold; eliminate; break at the fixpoint }] *)
Fixpoint optimize_loop `{HashOrder} (n : nat) (ops : list Op) (methods : gmap string nat) : list Op :=
  match n with
  | O => ops
  | S n' =>
      let '(ops1, folded) := constant_fold ops in
      let '(ops2, eliminated) := eliminate_dead_code ops1 methods in
      if negb folded && negb eliminated then ops2 else optimize_loop n' ops2 methods
  end.

Definition optimize `{HashOrder} (ops : list Op) (methods : gmap string nat) : list Op :=
  optimize_loop 16 ops methods.

Definition RESERVED : list string := ["owner"; "caller"; "epoch"; "energy"]%string.

(** [compile]; [None] is a panic. *)
Definition compile `{HashOrder} (contract : Contract) : option (result EvaporBytecode ScriptError) :=
  match head (filter (fun f => fld_name f ∈ RESERVED) (state_fields contract)) with
  | Some field => Some (Err (CompileError (fld_name field)))
  | None =>
      compiler ← compile_contract contract compiler_new;
      Some (Ok {| methods := comp_methods compiler;
                  opcodes := optimize (comp_opcodes compiler) (comp_methods compiler);
                  state_schema := extract_state_schema contract;
                  bname := c_name contract |})
  end.

(** ** The ABI *)

Record AbiMethod := {
  abi_name : string;
  abi_params : list (string * ScriptType);
  abi_return_type : option ScriptType;
  mutates_state : bool;
}.

Record AbiStateField := {
  abi_field : string;
  abi_ty : ScriptType;
  has_default : bool;
}.

Record ContractAbi := {
  abi_contract : string;
  abi_methods : list AbiMethod;
  abi_state : list AbiStateField;
  abi_hooks : list string;
}.

Fixpoint stmt_mutates_state (s : Stmt) : bool :=
  match s with
  | SAssign (TStateField _) _ | SCompoundAssign (TStateField _) _ _
  | SAssign (TMapEntry _ _) _ | SCompoundAssign (TMapEntry _ _) _ _ => true
  | SIf _ then_body else_body =>
      existsb stmt_mutates_state then_body ||
      match else_body with
      | Some eb => existsb stmt_mutates_state eb
      | None => false
      end
  | SWhile _ body => existsb stmt_mutates_state body
  | _ => false
  end.

Definition fn_mutates_state (stmts : list Stmt) : bool := existsb stmt_mutates_state stmts.

(** ** The totality gate

    totality.rs: under [script_vm_mode = "total"] a contract with a [while]
    anywhere is rejected. *)

Fixpoint stmt_has_while (s : Stmt) : bool :=
  match s with
  | SWhile _ _ => true
  | SIf _ then_body else_body =>
      existsb stmt_has_while then_body ||
      match else_body with
      | Some eb => existsb stmt_has_while eb
      | None => false
      end
  | _ => false
  end.

Definition block_has_while (stmts : list Stmt) : bool := existsb stmt_has_while stmts.

(** The first function, then the first hook, with a loop is named. *)
Definition check_total_contract (contract : Contract) : result unit ScriptError :=
  match head (filter (fun f => Is_true (block_has_while (fn_body f))) (functions contract)) with
  | Some f => Err (CompileError (fn_name f))
  | None =>
      match head (filter (fun h => Is_true (block_has_while (hook_body h))) (lifecycle_hooks contract)) with
      | Some h => Err (CompileError (hook_name h))
      | None => Ok tt
      end
  end.

Definition generate_abi (contract : Contract) : ContractAbi :=
  {| abi_contract := c_name contract;
     abi_methods := (fun f => {| abi_name := fn_name f; abi_params := fn_params f;
       abi_return_type := fn_return_type f; mutates_state := fn_mutates_state (fn_body f) |})
       <$> functions contract;
     abi_state := (fun f => {| abi_field := fld_name f; abi_ty := fld_ty f;
       has_default := bool_decide (is_Some (fld_default f)) |}) <$> state_fields contract;
     abi_hooks := hook_name <$> lifecycle_hooks contract |}.

(** ** Folding agrees with the machine *)

(** The errors that only say that a resource ran out. *)
Definition resource_error (e : ScriptError) : Prop :=
  match e with
  | GasLimitExceeded _ _ | Runtime StackOverflow | Runtime (MemoryLimit _) => True
  | _ => False
  end.

(** Machines that differ at most in the stack and the meters. *)
Record same_data (vm vm' : EvaporVM) : Prop := {
  sd_locals : locals vm' = locals vm;
  sd_state : state vm' = state vm;
  sd_events : events vm' = events vm;
  sd_structured : structured_events vm' = structured_events vm;
  sd_limit : gas_limit vm' = gas_limit vm;
  sd_steps : step_count vm' = step_count vm;
  sd_hook : in_lifecycle_hook vm' = in_lifecycle_hook vm;
  sd_id : executing_contract_id vm' = executing_contract_id vm;
}.

#[global] Instance same_data_refl : Reflexive same_data.
Proof. by split. Qed.

#[global] Instance same_data_trans : Transitive same_data.
Proof. intros a b c [] []. split; congruence. Qed.

Section folding.
Context {X : Type} `{!ExternalCaller X, Hex, StrDebug, HashOrder, Blake3}.

(** [yields c s Q]: from the stack [s], [c] either runs out of a resource or
    returns with a stack in [Q], and touches nothing else. *)
Definition yields {A} (c : M A) (s : list Value) (Q : A -> list Value -> Prop) : Prop :=
  forall (vm : EvaporVM) (x : option X), stack vm = s ->
    (c vm x).2 = x /\
    match (c vm x).1 with
    | Ok (a, vm') => Q a (stack vm') /\ same_data vm vm'
    | Err e => resource_error e
    end.

Lemma yields_ret {A} (a : A) s (Q : A -> list Value -> Prop) : Q a s -> yields (ret a) s Q.
Proof. intros HQ vm x <-. by split. Qed.

Lemma yields_bind {A B} (c : M A) (f : A -> M B) s P Q :
  yields c s P -> (forall a s', P a s' -> yields (f a) s' Q) -> yields (bind c f) s Q.
Proof.
  intros Hc Hf vm x Hs. destruct (Hc vm x Hs) as [Hx Hr]. unfold bind.
  destruct (c vm x) as [[[a vm']|e] x']; simpl in *; subst x'; [|done].
  destruct Hr as [HP Hd]. destruct (Hf a _ HP vm' x eq_refl) as [Hx' Hr'].
  split; [done|]. destruct (f a vm' x) as [[[b vm'']|e] x'']; simpl in *; [|done].
  destruct Hr' as [? ?]. split; [done|by etrans].
Qed.

Lemma yields_charge n s : yields (charge_gas n) s (fun _ s' => s' = s).
Proof.
  intros vm x <-. unfold charge_gas, bind, gets. destruct (checked_add _ _); [|done].
  zcase; done.
Qed.

Lemma yields_track n s : yields (track_memory n) s (fun _ s' => s' = s).
Proof. intros vm x <-. unfold track_memory, bind, gets. cbv zeta. zcase; done. Qed.

Lemma yields_push v s : yields (push v) s (fun _ s' => s' = v :: s).
Proof. intros vm x <-. unfold push, bind, gets. zcase; done. Qed.

Lemma yields_pop v s : yields pop (v :: s) (fun a s' => a = v /\ s' = s).
Proof. intros vm x Hs. unfold pop, bind, gets. by rewrite Hs. Qed.

Lemma yields_pop_u64 n s : yields pop_u64 (U64 n :: s) (fun a s' => a = n /\ s' = s).
Proof. eapply yields_bind; [apply yields_pop|]. intros ? ? [-> ->]. by apply yields_ret. Qed.

Lemma yields_pop_bool b s : yields pop_bool (VBool b :: s) (fun a s' => a = b /\ s' = s).
Proof. eapply yields_bind; [apply yields_pop|]. intros ? ? [-> ->]. by apply yields_ret. Qed.

Lemma yields_lift {A} (a : A) s : yields (lift (Ok a)) s (fun a' s' => a' = a /\ s' = s).
Proof. by apply yields_ret. Qed.

Lemma yields_push_end v s (Q : unit -> list Value -> Prop) : Q tt (v :: s) -> yields (push v) s Q.
Proof.
  intros HQ vm x Hs. destruct (yields_push v s vm x Hs) as [Hx Hr]. split; [done|].
  destruct (push v vm x) as [[[[] vm']|e] x']; simpl in *; [|done]. by destruct Hr as [-> ?].
Qed.

Ltac yields_step :=
  match goal with
  | |- yields (bind (charge_gas _) _) _ _ => eapply yields_bind; [apply yields_charge|intros ? ? ->]
  | |- yields (bind (track_memory _) _) _ _ => eapply yields_bind; [apply yields_track|intros ? ? ->]
  | |- yields (bind pop _) _ _ => eapply yields_bind; [apply yields_pop|intros ? ? [-> ->]]
  | |- yields (bind pop_u64 _) _ _ => eapply yields_bind; [apply yields_pop_u64|intros ? ? [-> ->]]
  | |- yields (bind pop_bool _) _ _ => eapply yields_bind; [apply yields_pop_bool|intros ? ? [-> ->]]
  | |- yields (push _) _ _ => apply yields_push_end
  end.

(** Equality of values of one kind, as the folder computes it. *)
Lemma eq_u64 x y : bool_decide (U64 x = U64 y) = (x =? y).
Proof. destruct (Z.eqb_spec x y); [by rewrite bool_decide_true by congruence|]. apply bool_decide_false. congruence. Qed.

Lemma eq_bool x y : bool_decide (VBool x = VBool y) = eqb x y.
Proof. by destruct x, y. Qed.

Lemma eq_str x y : bool_decide (Str x = Str y) = String.eqb x y.
Proof.
  destruct (String.eqb_spec x y); [by rewrite bool_decide_true by congruence|].
  apply bool_decide_false. congruence.
Qed.

(** The opcode of a folded operator, on its two operands. *)
Lemma binop_yields a b op r len ip n ctx s :
  fold_binop a b op = Some r ->
  yields (exec_op (binop_op op) len ip n ctx) (b :: a :: s) (fun f s' => f = Next /\ s' = r :: s).
Proof.
  intros Hf. assert (Hc : exists c, exec_op (binop_op op) len ip n ctx = next c /\
      yields c (b :: a :: s) (fun _ s' => s' = r :: s)).
  2:{ destruct Hc as (c & -> & Hc). unfold next. eapply yields_bind; [exact Hc|].
      intros [] s' ->. by apply yields_ret. }
  destruct a as [x|x|x| | | |], b as [y|y|y| | | |], op; simpl in Hf; try discriminate;
    (eexists; split; [reflexivity|]);
    unfold op_add, op_sub, op_mul, op_div, op_mod, op_shl, op_shr, op_eq, op_neq, op_gt, op_lt,
      op_gte, op_lte, op_and, op_or; repeat yields_step.
  all: try (injection Hf as <-; by rewrite ?eq_u64, ?eq_bool, ?eq_str).
  - destruct (checked_add x y); [|done]. injection Hf as <-.
    eapply yields_bind; [apply yields_lift|intros ? ? [-> ->]]. by yields_step.
  - destruct (checked_sub x y); [|done]. injection Hf as <-.
    eapply yields_bind; [apply yields_lift|intros ? ? [-> ->]]. by yields_step.
  - destruct (checked_mul x y); [|done]. injection Hf as <-.
    eapply yields_bind; [apply yields_lift|intros ? ? [-> ->]]. by yields_step.
  - destruct (y =? 0); [done|]. injection Hf as <-. by yields_step.
  - destruct (y =? 0); [done|]. injection Hf as <-. by yields_step.
  - destruct (Z.ltb_spec y 64); [|done]. injection Hf as <-. zcase; [lia|]. by yields_step.
  - destruct (Z.ltb_spec y 64); [|done]. injection Hf as <-. zcase; [lia|]. by yields_step.
  - destruct (Z.ltb_spec MAX_FOLD_STRING_LEN (saturating_add (str_len x) (str_len y))) as [|Hl]; [done|].
    injection Hf as <-. unfold MAX_FOLD_STRING_LEN, MAX_STRING_LEN in *. zcase; [u64_lia|].
    by repeat yields_step.
Qed.

(** What the constant folder computes is what the machine would have
    pushed: if [a op b] folds to [r], then pushing [a] and [b] and executing
    the opcode leaves [r] on the stack and changes nothing but the meters, or
    stops for lack of gas, stack or memory.  In particular the folder never
    folds an operation on which the machine raises an arithmetic error. *)
Theorem fold_binop_sound a b op r len ip n ctx (vm : EvaporVM) (x : option X) :
  fold_binop a b op = Some r ->
  let run := bind (op_push a) (fun _ => bind (op_push b) (fun _ =>
    exec_op (binop_op op) len ip n ctx)) vm x in
  run.2 = x /\
  match run.1 with
  | Ok (f, vm') => f = Next /\ stack vm' = r :: stack vm /\ same_data vm vm'
  | Err e => resource_error e
  end.
Proof.
  intros Hf run. assert (Hy : yields (bind (op_push a) (fun _ => bind (op_push b) (fun _ =>
    exec_op (binop_op op) len ip n ctx))) (stack vm) (fun f s' => f = Next /\ s' = r :: stack vm)).
  { unfold op_push.
    apply (yields_bind _ _ _ (fun _ s' => s' = a :: stack vm)); [by repeat yields_step|intros [] ? ->].
    apply (yields_bind _ _ _ (fun _ s' => s' = b :: a :: stack vm)); [by repeat yields_step|].
    intros [] ? ->. by apply binop_yields. }
  destruct (Hy vm x eq_refl) as [? Hr]. subst run. split; [done|].
  destruct (bind _ _ vm x) as [[[f vm']|e] x']; simpl in *; [|done]. naive_solver.
Qed.
End folding.

(** ** Dead-code elimination preserves every execution *)

(** Control leaves an opcode only towards its successors. *)
Section control_flow.
Context {X : Type} `{!ExternalCaller X, Hex, StrDebug, HashOrder, Blake3}.

Definition flows {A} (c : M A) (Q : A -> Prop) : Prop :=
  forall (vm : EvaporVM) (x : option X) a vm', (c vm x).1 = Ok (a, vm') -> Q a.

Lemma flows_ret {A} (a : A) (Q : A -> Prop) : Q a -> flows (ret a) Q.
Proof. by intros HQ vm x ? ? [= <- <-]. Qed.

Lemma flows_fail {A} e (Q : A -> Prop) : flows (fail e) Q.
Proof. done. Qed.

Lemma flows_bind {A B} (c : M A) (f : A -> M B) Q :
  (forall a, flows (f a) Q) -> flows (bind c f) Q.
Proof.
  intros Hf vm x b vm'. unfold bind. destruct (c vm x) as [[[a vm1]|e] x1]; [|done]. apply Hf.
Qed.

Definition flow_to (len ip : nat) (op : Op) (f : Flow) : Prop :=
  match f with
  | Next => S ip ∈ successors ip op
  | Goto target _ => target ∈ successors ip op
  | Done _ => True
  end.

Lemma flows_next (c : M unit) len ip op :
  S ip ∈ successors ip op -> flows (next c) (flow_to len ip op).
Proof. intros. apply flows_bind. intros. by apply flows_ret. Qed.

Lemma flows_take_jump target ip n len op :
  target ∈ successors ip op -> flows (take_jump target ip n) (flow_to len ip op).
Proof.
  intros Ht. unfold take_jump. case_decide; [cbv zeta; zcase|]; try apply flows_fail; by apply flows_ret.
Qed.

Lemma exec_op_flow op len ip n ctx : flows (exec_op op len ip n ctx) (flow_to len ip op).
Proof.
  destruct op; simpl; try (apply flows_next; simpl; set_solver).
  - unfold op_jump. do 2 (apply flows_bind; intros). apply flows_take_jump. simpl. set_solver.
  - unfold op_jump_if. do 3 (apply flows_bind; intros). case_match.
    + apply flows_take_jump. simpl. set_solver.
    + apply flows_ret. simpl. set_solver.
  - unfold op_jump_if_false. do 3 (apply flows_bind; intros). case_match.
    + apply flows_take_jump. simpl. set_solver.
    + apply flows_ret. simpl. set_solver.
  - unfold op_return. do 2 (apply flows_bind; intros). case_match; [by apply flows_ret|].
    apply flows_bind; intros. by apply flows_ret.
  - unfold op_halt. apply flows_bind; intros. by apply flows_ret.
Qed.

(** The loop's next offset is a successor of the current opcode. *)
Lemma exec_step_successor bc ctx (s s' : Loop) :
  exec_step bc ctx s = inl s' ->
  exists op, opcodes bc !! l_ip s = Some op /\ l_ip s' ∈ successors (l_ip s) op.
Proof.
  unfold exec_step. destruct (opcodes bc !! l_ip s) as [op|]; [|done].
  intros E. exists op. split; [done|]. revert E.
  pose proof (flows_bind count_step (fun _ => exec_op op (length (opcodes bc)) (l_ip s) (l_counter s) ctx)
    _ (fun _ => exec_op_flow op (length (opcodes bc)) (l_ip s) (l_counter s) ctx) (l_vm s) (l_ext s)) as Hf.
  destruct (bind _ _ _ _) as [[[f vm]|e] x]; [|done]. specialize (Hf f vm eq_refl).
  destruct f; intros [= <-]; exact Hf.
Qed.
End control_flow.

(** *** The marking loop *)

Definition count_false (l : list bool) : nat := length (filter (fun b => b = false) l).

Lemma count_false_insert l i :
  l !! i = Some false -> (count_false (<[ i := true ]> l) + 1 = count_false l)%nat.
Proof.
  intros Hi. rewrite insert_take_drop by (by eapply lookup_lt_Some).
  rewrite <- (take_drop_middle l i false Hi) at 3.
  unfold count_false. rewrite !filter_app, !filter_cons, !length_app.
  case_decide; [done|]. case_decide; [simpl; lia|done].
Qed.

Lemma count_false_replicate n : count_false (replicate n false) = n.
Proof.
  unfold count_false. induction n as [|n IH]; [done|]. cbn [replicate].
  rewrite filter_cons_True by done. cbn [length]. by rewrite IH.
Qed.

(** Every successor of a marked offset is marked, up to a worklist. *)
Definition closed_upto (ops : list Op) (reach : list bool) (wl : list nat) : Prop :=
  forall pc op s, reach !! pc = Some true -> ops !! pc = Some op -> s ∈ successors pc op ->
    (s < length ops)%nat -> reach !! s = Some true \/ s ∈ wl.

Lemma mark_loop_spec fuel ops wl reach :
  length reach = length ops -> (length wl + 2 * count_false reach <= fuel)%nat ->
  closed_upto ops reach wl ->
  let r := mark_loop fuel ops wl reach in
  length r = length ops /\ closed_upto ops r [] /\
  (forall pc, reach !! pc = Some true -> r !! pc = Some true) /\
  (forall s, s ∈ wl -> (s < length ops)%nat -> r !! s = Some true).
Proof.
  revert wl reach. induction fuel as [|fuel IH]; intros [|pc wl] reach Hlen Hfuel Hcl; simpl in *;
    try lia; [split_and!; set_solver..|].
  destruct (ops !! pc) as [op|] eqn:Eop.
  2:{ apply lookup_ge_None in Eop.
      destruct (IH wl reach Hlen ltac:(lia)) as (? & ? & ? & Hwl).
      { intros p o s Hp Ho Hs Hlt. destruct (Hcl p o s Hp Ho Hs Hlt) as [|[->|]%elem_of_cons]; auto. lia. }
      split_and!; try done. intros s [->|Hs]%elem_of_cons Hlt; [lia|auto]. }
  destruct (lookup_lt_is_Some_2 reach pc) as [b Eb].
  { rewrite Hlen. by eapply lookup_lt_Some. }
  rewrite Eb. simpl. destruct b.
  - destruct (IH wl reach Hlen ltac:(lia)) as (? & ? & Hm & Hwl).
    { intros p o s Hp Ho Hs Hlt. destruct (Hcl p o s Hp Ho Hs Hlt) as [|[->|]%elem_of_cons]; auto. }
    split_and!; try done. intros s [->|Hs]%elem_of_cons Hlt; auto.
  - destruct (IH (rev (successors pc op) ++ wl) (<[ pc := true ]> reach)) as (? & ? & Hm & Hwl).
    + by rewrite length_insert.
    + pose proof (count_false_insert reach pc Eb). rewrite length_app, length_rev.
      assert (length (successors pc op) <= 2)%nat by (destruct op; simpl; lia). lia.
    + intros p o s Hp Ho Hs Hlt. destruct (decide (p = pc)) as [->|Hne].
      { assert (o = op) as -> by congruence. right. apply elem_of_app. left.
        by rewrite list_elem_of_In, <- in_rev, <- list_elem_of_In. }
      rewrite list_lookup_insert_ne in Hp by congruence.
      destruct (decide (s = pc)) as [->|Hsn].
      { left. apply list_lookup_insert_eq. by eapply lookup_lt_Some. }
      rewrite list_lookup_insert_ne by congruence.
      destruct (Hcl p o s Hp Ho Hs Hlt) as [|Hin]; [by left|right]. set_solver.
    + assert (Hpc : (<[ pc := true ]> reach) !! pc = Some true)
        by (apply list_lookup_insert_eq; by eapply lookup_lt_Some).
      split_and!; try done.
      * intros p Hp. apply Hm. destruct (decide (p = pc)) as [->|]; [done|].
        by rewrite list_lookup_insert_ne by congruence.
      * intros s [->|Hs]%elem_of_cons Hlt; [by apply Hm|]. apply Hwl; [|done]. set_solver.
Qed.

(** What the analysis marks: every method entry, and everything control can
    reach from a marked offset. *)
Lemma reachable_from_spec `{HashOrder} ops (ms : gmap string nat) :
  let r := reachable_from ops ms in
  length r = length ops /\ closed_upto ops r [] /\
  (forall name start, ms !! name = Some start -> (start < length ops)%nat -> r !! start = Some true).
Proof.
  unfold reachable_from. set (wl := rev _).
  destruct (mark_loop_spec (mark_fuel ops wl) ops wl (replicate (length ops) false))
    as (? & ? & _ & Hwl).
  - by rewrite length_replicate.
  - rewrite count_false_replicate. unfold mark_fuel. lia.
  - intros pc op s [[=] _]%lookup_replicate.
  - split_and!; try done. intros name start Hn Hlt. apply Hwl; [|done].
    rewrite list_elem_of_In. unfold wl. rewrite <- in_rev, <- list_elem_of_In.
    apply list_elem_of_fmap. exists name. rewrite Hn. split; [done|].
    apply elem_of_hash_keys. by eexists.
Qed.

Lemma sweep_dead_lookup ops reach pc :
  length reach = length ops -> reach !! pc = Some true -> sweep_dead ops reach !! pc = ops !! pc.
Proof.
  intros Hlen Hr. unfold sweep_dead. rewrite lookup_zip_with, Hr. by destruct (ops !! pc).
Qed.

Lemma length_sweep_dead ops reach : length reach = length ops -> length (sweep_dead ops reach) = length ops.
Proof. intros Hlen. unfold sweep_dead. rewrite length_zip_with. lia. Qed.

Definition with_opcodes (bc : EvaporBytecode) (ops : list Op) : EvaporBytecode :=
  {| methods := methods bc; opcodes := ops; state_schema := state_schema bc; bname := bname bc |}.

Section dead_code.
Context {X : Type} `{!ExternalCaller X, Hex, StrDebug, HashOrder, Blake3}.

(** C30: dead-code elimination is invisible: with the unreachable opcodes
    replaced, every call of every method, from any state and with any
    external caller, returns exactly what it returned before. *)
Theorem eliminate_dead_code_preserves bc method args st ctx limit (x : option X) id :
  execute_full_with_self (with_opcodes bc (eliminate_dead_code (opcodes bc) (methods bc)).1)
    method args st ctx limit x id
  = execute_full_with_self bc method args st ctx limit x id.
Proof.
  set (ops := opcodes bc). set (r := reachable_from ops (methods bc)).
  assert (Hops : (eliminate_dead_code ops (methods bc)).1 = sweep_dead ops r).
  { unfold eliminate_dead_code, r. by destruct ops. }
  rewrite Hops. destruct (reachable_from_spec ops (methods bc)) as (Hlen & Hcl & Hstart).
  fold r in Hlen, Hcl, Hstart.
  unfold execute_full_with_self, execute_method. cbn [methods with_opcodes].
  destruct (methods bc !! method) as [start|] eqn:Em; [|done].
  destruct (push_args _ _ _) as [[[[] vm]|e] x']; [|done].
  rewrite !loop_pos_nat.
  rewrite (loop_nat_ext _ (exec_step bc ctx)
    (fun s => (length ops <= l_ip s)%nat \/ r !! l_ip s = Some true)); [done|..].
  - intros s Hs. unfold exec_step. cbn [opcodes with_opcodes]. fold ops.
    rewrite length_sweep_dead by done. destruct Hs as [Hs|Hs].
    + rewrite !(proj2 (lookup_ge_None _ _)); [done|lia|by rewrite length_sweep_dead].
    + by rewrite sweep_dead_lookup.
  - intros s s' Hs (op & Hop & Hsucc)%exec_step_successor. cbn [opcodes with_opcodes] in Hop.
    destruct (decide (l_ip s' < length ops)%nat) as [Hlt|]; [right|left; lia].
    destruct Hs as [Hs|Hs]; [apply lookup_lt_Some in Hop; rewrite length_sweep_dead in Hop; [lia|done]|].
    rewrite sweep_dead_lookup in Hop by done.
    destruct (Hcl _ _ _ Hs Hop Hsucc Hlt) as [|Hn]; [done|by apply elem_of_nil in Hn].
  - simpl. destruct (decide (start < length ops)%nat); [right; by eapply Hstart|left; lia].
Qed.
End dead_code.

(** ** Shape of the generated code *)

(** Induction on expressions and statements through their lists. *)
Section nested_induction.
Context (P : Expr -> Prop).
Context (HLit : forall v, P (Literal v)) (HVar : forall n, P (Var n))
  (HState : forall f, P (StateAccess f)) (HMap : forall f k, P k -> P (MapAccess f k))
  (HBin : forall l o r, P l -> P r -> P (BinaryOp l o r)) (HUn : forall o e, P e -> P (Unary o e))
  (HCall : forall n args, Forall P args -> P (FunctionCall n args))
  (HArr : forall es, Forall P es -> P (ArrayLiteral es))
  (HAcc : forall a i, P a -> P i -> P (ArrayAccess a i)).

Fixpoint Expr_nested (e : Expr) : P e :=
  let list_nested := fix go es : Forall P es :=
    match es with [] => Forall_nil_2 P | e :: es => Forall_cons_2 P e es (Expr_nested e) (go es) end in
  match e with
  | Literal v => HLit v
  | Var n => HVar n
  | StateAccess f => HState f
  | MapAccess f k => HMap f k (Expr_nested k)
  | BinaryOp l o r => HBin l o r (Expr_nested l) (Expr_nested r)
  | Unary o e => HUn o e (Expr_nested e)
  | FunctionCall n args => HCall n args (list_nested args)
  | ArrayLiteral es => HArr es (list_nested es)
  | ArrayAccess a i => HAcc a i (Expr_nested a) (Expr_nested i)
  end.

Context (Q : Stmt -> Prop).
Context (QLet : forall n v, Q (SLet n v)) (QAssign : forall t v, Q (SAssign t v))
  (QComp : forall t o v, Q (SCompoundAssign t o v))
  (QIf : forall c t e, Forall Q t -> (forall eb, e = Some eb -> Forall Q eb) -> Q (SIf c t e))
  (QWhile : forall c b, Forall Q b -> Q (SWhile c b)) (QRet : forall e, Q (SReturn e))
  (QReq : forall c m, Q (SRequire c m)) (QEmit : forall e, Q (SEmit e)) (QExpr : forall e, Q (SExpr e)).

Lemma Some_Forall (o : option (list Stmt)) :
  match o with Some l => Forall Q l | None => True end -> forall l, o = Some l -> Forall Q l.
Proof. by intros ? ? ->. Qed.

Fixpoint Stmt_nested (s : Stmt) : Q s :=
  let list_nested := fix go ss : Forall Q ss :=
    match ss with [] => Forall_nil_2 Q | s :: ss => Forall_cons_2 Q s ss (Stmt_nested s) (go ss) end in
  match s with
  | SLet n v => QLet n v
  | SAssign t v => QAssign t v
  | SCompoundAssign t o v => QComp t o v
  | SIf c t e => QIf c t e (list_nested t) (Some_Forall e
      match e with Some l => list_nested l | None => I end)
  | SWhile c b => QWhile c b (list_nested b)
  | SReturn e => QRet e
  | SRequire c m => QReq c m
  | SEmit e => QEmit e
  | SExpr e => QExpr e
  end.
End nested_induction.

Definition jump_target (op : Op) : option nat :=
  match op with OJump t | OJumpIf t | OJumpIfFalse t => Some t | _ => None end.

(** What a piece of source does: whether it writes the contract state, and
    whether it loops. *)
Definition flags : Type := bool * bool.

Definition stmt_flags (s : Stmt) : flags := (stmt_mutates_state s, stmt_has_while s).
Definition body_flags (body : list Stmt) : flags := (fn_mutates_state body, block_has_while body).

(** Code placed at offset [b] whose jumps stay inside it (or at its end),
    which writes the contract state only if the first flag says so, and jumps
    backwards only if the second does. *)
Record segment (w : flags) (b : nat) (code : list Op) : Prop := {
  seg_jumps op t : op ∈ code -> jump_target op = Some t -> (b <= t <= b + length code)%nat;
  seg_writes op : w.1 = false -> op ∈ code -> writes_state op = false;
  seg_forward i op t : w.2 = false -> code !! i = Some op -> jump_target op = Some t -> (b + i < t)%nat;
}.

Lemma segment_nil w b : segment w b [].
Proof. split; intros; set_solver. Qed.

Lemma segment_app w b c1 c2 :
  segment w b c1 -> segment w (b + length c1) c2 -> segment w b (c1 ++ c2).
Proof.
  intros [J1 W1 F1] [J2 W2 F2]. split.
  - intros op t [Hin|Hin]%elem_of_app Ht; rewrite length_app;
      [specialize (J1 op t Hin Ht)|specialize (J2 op t Hin Ht)]; lia.
  - intros op Hw [Hin|Hin]%elem_of_app; auto.
  - intros i op t Hw [Hi|[Hge Hi]]%lookup_app_Some Ht; [by eapply F1|].
    specialize (F2 _ _ _ Hw Hi Ht). lia.
Qed.

(** An opcode that is no jump and no write. *)
Definition plain (op : Op) : bool :=
  match jump_target op with None => negb (writes_state op) | Some _ => false end.

Lemma segment_plain w b ops : forallb plain ops = true -> segment w b ops.
Proof.
  intros Hp. rewrite forallb_forall in Hp.
  assert (Hpl : forall op, op ∈ ops -> jump_target op = None /\ writes_state op = false).
  { intros op Hin. rewrite list_elem_of_In in Hin. apply Hp in Hin. unfold plain in Hin.
    destruct (jump_target op); [done|]. by destruct (writes_state op). }
  split.
  - intros op t [Hj _]%Hpl. congruence.
  - by intros op _ [_ ?]%Hpl.
  - intros i op t _ [Hj _]%list_elem_of_lookup_2%Hpl. congruence.
Qed.

(** Expressions generate plain code, after what is there. *)
Definition appends_plain (f : list Op -> list Op) : Prop :=
  forall ops, exists code, f ops = ops ++ code /\ forallb plain code = true.

Lemma appends_emit op f :
  plain op = true -> appends_plain f -> appends_plain (fun ops => emit op (f ops)).
Proof.
  intros Hop Hf ops. destruct (Hf ops) as (code & -> & Hc). exists (code ++ [op]).
  unfold emit. rewrite <- app_assoc. split; [done|]. rewrite forallb_app, Hc. simpl. by rewrite Hop.
Qed.

Lemma appends_id : appends_plain (fun ops => ops).
Proof. intros ops. exists []. by rewrite app_nil_r. Qed.

Lemma appends_comp f g : appends_plain f -> appends_plain g -> appends_plain (fun ops => g (f ops)).
Proof.
  intros Hf Hg ops. destruct (Hf ops) as (c1 & -> & H1). destruct (Hg (ops ++ c1)) as (c2 & -> & H2).
  exists (c1 ++ c2). rewrite <- app_assoc. split; [done|]. by rewrite forallb_app, H1, H2.
Qed.

Lemma appends_foldl args :
  Forall (fun e => appends_plain (compile_expr e)) args ->
  appends_plain (fun ops => foldl (fun ops arg => compile_expr arg ops) ops args).
Proof.
  induction 1 as [|e args He _ IH]; simpl; [apply appends_id|].
  by apply (appends_comp (compile_expr e) (fun ops => foldl _ ops args)).
Qed.

Lemma compile_expr_appends e : appends_plain (compile_expr e).
Proof.
  induction e using Expr_nested; simpl.
  - by apply (appends_emit _ (fun ops => ops)), appends_id.
  - destruct (is_context_name n); by apply (appends_emit _ (fun ops => ops)), appends_id.
  - by apply (appends_emit _ (fun ops => ops)), appends_id.
  - by apply appends_emit.
  - apply appends_emit; [by destruct o|]. by apply (appends_comp (compile_expr e1)).
  - destruct o; by apply appends_emit.
  - destruct (String.eqb n "call_contract"); apply appends_emit; try done; by apply appends_foldl.
  - apply appends_emit; [done|]. by apply appends_foldl.
  - apply appends_emit; [done|]. by apply (appends_comp (compile_expr e1)).
Qed.

(** Straight-line statements. *)
Definition appends (w : flags) (f : list Op -> list Op) : Prop :=
  forall ops, exists code, f ops = ops ++ code /\ segment w (length ops) code.

Lemma appends_expr w e f : appends w f -> appends w (fun ops => compile_expr e (f ops)).
Proof.
  intros Hf ops. destruct (Hf ops) as (c1 & -> & H1).
  destruct (compile_expr_appends e (ops ++ c1)) as (c2 & -> & H2). exists (c1 ++ c2).
  rewrite <- app_assoc. split; [done|]. apply segment_app; [done|by apply segment_plain].
Qed.

Lemma appends_op w op f :
  jump_target op = None -> (w.1 = false -> writes_state op = false) ->
  appends w f -> appends w (fun ops => emit op (f ops)).
Proof.
  intros Hj Hw Hf ops. destruct (Hf ops) as (c1 & -> & H1). exists (c1 ++ [op]).
  unfold emit. rewrite <- app_assoc. split; [done|]. apply segment_app; [done|].
  split; [intros ? ? ->%list_elem_of_singleton; congruence|intros ? ? ->%list_elem_of_singleton; auto|].
  intros i ? ? _ [_ <-]%list_lookup_singleton_Some ?. congruence.
Qed.

Lemma appends_nothing w : appends w (fun ops => ops).
Proof. intros ops. exists []. rewrite app_nil_r. split; [done|apply segment_nil]. Qed.

Ltac appends_step :=
  match goal with
  | |- appends _ (fun ops => ops) => apply appends_nothing
  | |- appends _ (fun ops => compile_expr ?e (@?f ops)) => apply (appends_expr _ e f)
  | |- appends _ (fun ops => emit_binop ?o (@?f ops)) =>
      apply (appends_op _ (binop_op o) f); [by destruct o|by destruct o|]
  | |- appends _ (fun ops => emit ?op (@?f ops)) => apply (appends_op _ op f); [done|done|]
  end.
Ltac appends_solve := cbv beta zeta; repeat appends_step.

Lemma compile_assign_appends t v : appends (stmt_flags (SAssign t v)) (compile_assign t v).
Proof.
  destruct t; unfold stmt_flags; cbn [stmt_mutates_state stmt_has_while]; unfold compile_assign;
    appends_solve.
Qed.

Lemma compile_compound_appends t o v :
  appends (stmt_flags (SCompoundAssign t o v)) (compile_compound t o v).
Proof.
  destruct t; unfold stmt_flags; cbn [stmt_mutates_state stmt_has_while]; unfold compile_compound;
    appends_solve.
Qed.

(** *** Control flow *)

Lemma patch_jump_if_false l k t r :
  patch_jump (length l) t (l ++ OJumpIfFalse k :: r) = Some (l ++ OJumpIfFalse t :: r).
Proof.
  unfold patch_jump. rewrite list_lookup_middle by done. f_equal. by rewrite insert_app_r_alt, Nat.sub_diag by done.
Qed.

Lemma patch_jump_jump l k t r :
  patch_jump (length l) t (l ++ OJump k :: r) = Some (l ++ OJump t :: r).
Proof.
  unfold patch_jump. rewrite list_lookup_middle by done. f_equal. by rewrite insert_app_r_alt, Nat.sub_diag by done.
Qed.

Definition good_stmt (s : Stmt) : Prop :=
  forall ops, exists code, compile_stmt s ops = Some (ops ++ code) /\
    segment (stmt_flags s) (length ops) code.

Lemma existsb_false_in {A} (f : A -> bool) l x : existsb f l = false -> x ∈ l -> f x = false.
Proof.
  intros Hf Hx. destruct (f x) eqn:E; [|done]. rewrite <- Hf. symmetry. apply existsb_exists.
  exists x. by rewrite <- list_elem_of_In.
Qed.

Lemma segment_mono (w w' : flags) b c :
  (w.1 = true -> w'.1 = true) -> (w.2 = true -> w'.2 = true) -> segment w b c -> segment w' b c.
Proof.
  intros H1 H2 [J W F]. split; [done|intros op E|intros i op t E].
  - apply W. destruct w.1; [|done]. by rewrite H1 in E.
  - apply F. destruct w.2; [|done]. by rewrite H2 in E.
Qed.

Lemma compile_body_good body :
  Forall good_stmt body -> forall ops, exists code,
    compile_body body ops = Some (ops ++ code) /\ segment (body_flags body) (length ops) code.
Proof.
  unfold compile_body. induction 1 as [|s body Hs _ IH]; intros ops; simpl.
  - exists []. rewrite app_nil_r. split; [done|apply segment_nil].
  - destruct (Hs ops) as (c1 & -> & H1). destruct (IH (ops ++ c1)) as (c2 & -> & H2).
    exists (c1 ++ c2). rewrite app_assoc. split; [done|]. rewrite length_app in H2.
    apply segment_app; (eapply segment_mono; [| |done]); simpl; intros E;
      apply orb_true_iff; first [by left|by right].
Qed.

(** A single jump as a segment, its target within the code that follows. *)
Lemma segment_jump w b op t c :
  jump_target op = Some t -> (b < t <= b + length (op :: c))%nat ->
  segment w (b + 1) c -> segment w b (op :: c).
Proof.
  intros Hop Ht [J W F]. split.
  - intros op' t' [->|Hin]%elem_of_cons Ht'.
    + assert (t' = t) as -> by congruence. lia.
    + simpl. specialize (J _ _ Hin Ht'). lia.
  - intros op' Hw [->|Hin]%elem_of_cons; [by destruct op|auto].
  - intros [|i] op' t' Hw Hi Ht'; simpl in Hi.
    + injection Hi as <-. assert (t' = t) as -> by congruence. lia.
    + specialize (F _ _ _ Hw Hi Ht'). lia.
Qed.

Lemma if_good c t e :
  Forall good_stmt t -> (forall eb, e = Some eb -> Forall good_stmt eb) -> good_stmt (SIf c t e).
Proof.
  intros Ht He ops. unfold stmt_flags. cbn [compile_stmt stmt_mutates_state stmt_has_while].
  destruct (compile_expr_appends c ops) as (cc & -> & Hc). unfold emit.
  destruct (compile_body_good t Ht ((ops ++ cc) ++ [OJumpIfFalse 0])) as (ct & Ect & Hct).
  unfold compile_body in Ect. rewrite Ect. cbn [mbind option_bind]. clear Ect.
  set (pre := ops ++ cc) in *.
  assert (Hpre : length pre = (length ops + length cc)%nat) by apply length_app.
  destruct e as [eb|].
  - rewrite <- !app_assoc. cbn [app]. rewrite patch_jump_if_false. cbn [mbind option_bind].
    set (es := length (pre ++ OJumpIfFalse 0 :: ct ++ [OJump 0])).
    destruct (compile_body_good eb (He eb eq_refl) (pre ++ OJumpIfFalse es :: ct ++ [OJump 0]))
      as (ce & Ece & Hce).
    unfold compile_body in Ece. rewrite Ece. cbn [mbind option_bind]. clear Ece.
    replace ((pre ++ OJumpIfFalse es :: ct ++ [OJump 0]) ++ ce)
      with ((pre ++ OJumpIfFalse es :: ct) ++ OJump 0 :: ce) by (by rewrite <- !app_assoc; simpl; rewrite <- app_assoc).
    replace (length (pre ++ OJumpIfFalse 0 :: ct)) with (length (pre ++ OJumpIfFalse es :: ct))
      by (by rewrite !length_app).
    rewrite patch_jump_jump. eexists (cc ++ OJumpIfFalse es :: ct ++ OJump _ :: ce).
    split; [by unfold pre; rewrite <- !app_assoc|].
    rewrite !length_app in Hct, Hce. cbn [length] in Hct, Hce.
    assert (Hes : es = (length pre + length ct + 2)%nat)
      by (unfold es; rewrite length_app; cbn [length]; rewrite length_app; simpl; lia).
    apply segment_app; [by apply segment_plain|].
    eapply segment_jump; [done|cbn [length]; rewrite length_app; cbn [length]; lia|].
    apply segment_app.
    { eapply segment_mono; [| |by rewrite <- Hpre]; simpl; intros E; apply orb_true_iff; by left. }
    eapply segment_jump; [done|rewrite !length_app; cbn [length]; lia|].
    eapply segment_mono; [| |replace (length ops + length cc + 1 + length ct + 1)%nat
      with (length pre + S (length ct + 1))%nat by lia; rewrite !length_app in Hce; exact Hce];
      simpl; intros E; apply orb_true_iff; by right.
  - rewrite <- app_assoc. cbn [app]. rewrite patch_jump_if_false.
    eexists (cc ++ OJumpIfFalse _ :: ct). split; [by unfold pre; rewrite <- app_assoc|].
    rewrite length_app in Hct. cbn [length] in Hct.
    apply segment_app; [by apply segment_plain|].
    eapply segment_jump; [done|rewrite !length_app; cbn [length]; lia|].
    rewrite !orb_false_r, <- Hpre. exact Hct.
Qed.

Lemma while_good c b : Forall good_stmt b -> good_stmt (SWhile c b).
Proof.
  intros Hb ops. unfold stmt_flags. cbn [compile_stmt stmt_mutates_state stmt_has_while].
  destruct (compile_expr_appends c ops) as (cc & -> & Hc). unfold emit.
  destruct (compile_body_good b Hb ((ops ++ cc) ++ [OJumpIfFalse 0])) as (cb & Ecb & Hcb).
  unfold compile_body in Ecb. rewrite Ecb. cbn [mbind option_bind]. clear Ecb.
  set (pre := ops ++ cc) in *.
  assert (Hpre : length pre = (length ops + length cc)%nat) by apply length_app.
  rewrite <- !app_assoc. cbn [app]. rewrite patch_jump_if_false.
  eexists (cc ++ OJumpIfFalse _ :: cb ++ [OJump (length ops)]).
  split; [by unfold pre; rewrite <- app_assoc|].
  rewrite length_app in Hcb. cbn [length] in Hcb.
  destruct Hcb as [J W _]. destruct (segment_plain (false, false) 0 cc Hc) as [_ Wc _].
  assert (Hcc : forall op, op ∈ cc -> jump_target op = None).
  { intros op Hin. rewrite forallb_forall in Hc. rewrite list_elem_of_In in Hin. apply Hc in Hin.
    unfold plain in Hin. by destruct (jump_target op). }
  split.
  - intros op t Hin Hop. rewrite !length_app. cbn [length]. rewrite !length_app. cbn [length].
    rewrite elem_of_app, elem_of_cons, elem_of_app, list_elem_of_singleton in Hin.
    destruct Hin as [Hin|[->|[Hin| ->]]].
    + apply Hcc in Hin. congruence.
    + injection Hop as <-. rewrite !length_app. cbn [length]. rewrite length_app. simpl. lia.
    + specialize (J _ _ Hin Hop). lia.
    + injection Hop as <-. lia.
  - intros op Hw Hin. rewrite elem_of_app, elem_of_cons, elem_of_app, list_elem_of_singleton in Hin.
    destruct Hin as [Hin|[->|[Hin| ->]]]; [by apply Wc|done|by apply W|done].
  - done.
Qed.

Lemma appends_good s f :
  (forall ops, compile_stmt s ops = Some (f ops)) -> appends (stmt_flags s) f -> good_stmt s.
Proof.
  intros Hs Hf ops. destruct (Hf ops) as (code & E & Hc). exists code. by rewrite Hs, E.
Qed.

Lemma stmt_good s : good_stmt s.
Proof.
  induction s as [n v|t v|t o v|c t e Ht He|c b Hb|e|c m|e|e] using Stmt_nested;
    try (by apply if_good); try (by apply while_good);
    (eapply appends_good; [intros; cbn [compile_stmt]; reflexivity|]).
  - appends_solve.
  - apply compile_assign_appends.
  - apply compile_compound_appends.
  - destruct e; appends_solve.
  - appends_solve.
  - appends_solve.
  - appends_solve.
Qed.

(** *** Whole contracts *)

(** The code of one method: what [compile_method] appends. *)
Definition method_code (w : flags) (b : nat) (code : list Op) : Prop :=
  exists body, code = body ++ [OPush Null; OReturn] /\ segment w b body.

Lemma compile_method_spec name params body c :
  exists code, compile_method name params body c =
    Some {| comp_opcodes := comp_opcodes c ++ code;
            comp_methods := <[ name := length (comp_opcodes c) ]> (comp_methods c) |} /\
    method_code (body_flags body) (length (comp_opcodes c)) code.
Proof.
  unfold compile_method.
  assert (Hp : exists pro, foldl (fun ops p => emit (OStore p.1) ops) (comp_opcodes c) (rev params)
    = comp_opcodes c ++ pro /\ forallb plain pro = true).
  { generalize (comp_opcodes c). induction (rev params) as [|q l IH]; intros ops; simpl.
    - exists []. by rewrite app_nil_r.
    - destruct (IH (emit (OStore q.1) ops)) as (pro & -> & Hpro). exists (OStore q.1 :: pro).
      unfold emit. rewrite <- app_assoc. by split. }
  destruct Hp as (pro & -> & Hpro).
  assert (Hg : Forall good_stmt body) by (apply Forall_true, stmt_good).
  destruct (compile_body_good body Hg (comp_opcodes c ++ pro)) as (cb & -> & Hcb). simpl.
  exists ((pro ++ cb) ++ [OPush Null; OReturn]). unfold emit. rewrite <- !app_assoc. split; [done|].
  exists (pro ++ cb). split; [by rewrite <- app_assoc|]. rewrite length_app in Hcb.
  apply segment_app; [by apply segment_plain|done].
Qed.

(** Everything that is compiled to a method, in order. *)
Definition entries (contract : Contract) : list (string * list Stmt) :=
  ((fun f => (fn_name f, fn_body f)) <$> functions contract) ++
  ((fun h => (hook_name h, hook_body h)) <$> lifecycle_hooks contract).

(** A compiler state laid out method by method. *)
Inductive layout : Compiler -> list (string * list Stmt) -> Prop :=
| layout_nil : layout compiler_new []
| layout_snoc c es name body code :
    layout c es -> method_code (body_flags body) (length (comp_opcodes c)) code ->
    layout {| comp_opcodes := comp_opcodes c ++ code;
              comp_methods := <[ name := length (comp_opcodes c) ]> (comp_methods c) |}
      (es ++ [(name, body)]).

(** Compiling a list of items, each of them as a method. *)
Lemma layout_foldl {A} (f : A -> Compiler -> option Compiler) (g : A -> string * list Stmt) items c es :
  (forall a c, exists params, f a c = compile_method (g a).1 params (g a).2 c) ->
  layout c es ->
  exists c', foldl (fun acc a => acc ≫= f a) (Some c) items = Some c' /\ layout c' (es ++ (g <$> items)).
Proof.
  intros Hf. revert c es. induction items as [|a items IH]; intros c es Hl; simpl.
  - exists c. by rewrite app_nil_r.
  - destruct (Hf a c) as [params ->].
    destruct (compile_method_spec (g a).1 params (g a).2 c) as (code & -> & Hc).
    destruct (IH _ _ (layout_snoc _ _ (g a).1 (g a).2 _ Hl Hc)) as (c' & -> & Hl').
    exists c'. split; [done|]. rewrite <- app_assoc in Hl'. cbn [app] in Hl'. by destruct (g a).
Qed.

Lemma compile_contract_layout contract :
  exists c, compile_contract contract compiler_new = Some c /\ layout c (entries contract).
Proof.
  unfold compile_contract, entries.
  destruct (layout_foldl compile_function (fun f => (fn_name f, fn_body f)) (functions contract)
    compiler_new [] (fun f c => ex_intro _ (fn_params f) eq_refl) layout_nil) as (c & -> & Hc).
  destruct (layout_foldl compile_hook (fun h => (hook_name h, hook_body h)) (lifecycle_hooks contract)
    c _ (fun h c => ex_intro _ [] eq_refl) Hc) as (c' & E & Hc').
  exists c'. by split.
Qed.

Lemma method_code_targets w b code op t :
  method_code w b code -> op ∈ code -> jump_target op = Some t -> (b <= t < b + length code)%nat.
Proof.
  intros (body & -> & [J _ _]) [Hin|Hin]%elem_of_app Ht; rewrite length_app; simpl.
  - specialize (J _ _ Hin Ht). lia.
  - rewrite !elem_of_cons, elem_of_nil in Hin. destruct_or!; by subst.
Qed.

Lemma method_code_length w b code : method_code w b code -> (2 <= length code)%nat.
Proof. intros (body & -> & _). rewrite length_app. simpl. lia. Qed.

Lemma layout_in_range c es :
  layout c es ->
  (forall op t, op ∈ comp_opcodes c -> jump_target op = Some t -> (t < length (comp_opcodes c))%nat) /\
  (forall m start, comp_methods c !! m = Some start -> (start < length (comp_opcodes c))%nat).
Proof.
  induction 1 as [|c es name body code _ [IHj IHm] Hc]; simpl; [set_solver|].
  rewrite length_app. pose proof (method_code_length _ _ _ Hc). split.
  - intros op t [Hin|Hin]%elem_of_app Ht; [specialize (IHj _ _ Hin Ht); lia|].
    pose proof (method_code_targets _ _ _ _ _ Hc Hin Ht). lia.
  - intros m start [[_ <-]|[_ Hm]]%lookup_insert_Some; [lia|]. specialize (IHm _ _ Hm). lia.
Qed.

(** The bytecode before optimisation. *)
Definition raw_bytecode (contract : Contract) (c : Compiler) : EvaporBytecode :=
  {| methods := comp_methods c; opcodes := comp_opcodes c;
     state_schema := extract_state_schema contract; bname := c_name contract |}.


(** ** Methods the ABI calls read-only *)

(** Where a method is, when names are not reused. *)
Lemma layout_method c es name body :
  layout c es -> NoDup es.*1 -> (name, body) ∈ es ->
  exists pre code rest, comp_opcodes c = pre ++ code ++ rest /\
    comp_methods c !! name = Some (length pre) /\
    method_code (body_flags body) (length pre) code.
Proof.
  induction 1 as [|c es n b code Hl IH Hc]; simpl; intros Hnd Hin; [by apply elem_of_nil in Hin|].
  rewrite fmap_app in Hnd. apply NoDup_app in Hnd as (Hnd & Hdis & _).
  apply elem_of_app in Hin as [Hin|Hin].
  - destruct (IH Hnd Hin) as (pre & code' & rest & -> & Hm & Hc').
    exists pre, code', (rest ++ code). rewrite <- !app_assoc. split_and!; [done| |done].
    rewrite lookup_insert_ne; [done|]. intros ->. apply (Hdis name); [|set_solver].
    apply list_elem_of_fmap. by exists (name, body).
  - apply list_elem_of_singleton in Hin as [= -> ->]. exists (comp_opcodes c), code, [].
    rewrite app_nil_r. by rewrite lookup_insert_eq.
Qed.

Section read_only.
Context {X : Type} `{!ExternalCaller X, Hex, StrDebug, HashOrder, Blake3}.

Lemma keeps_state_exec_op op len ip n ctx :
  writes_state op = false -> keeps (X:=X) state (exec_op op len ip n ctx).
Proof. intros Hw. apply keeps_exec_op; auto. Qed.

Lemma keeps_state_exec_step bc ctx (s : Loop) op :
  opcodes bc !! l_ip s = Some op -> writes_state op = false ->
  match exec_step bc ctx s with
  | inl s' => state (l_vm s') = state (l_vm s)
  | inr o => forall v vm, o.1 = Ok (v, vm) -> state vm = state (l_vm s)
  end.
Proof.
  intros Eop Hw. unfold exec_step. rewrite Eop. unfold bind.
  destruct (count_step _ _) as [[[[] vm1]|e] x1] eqn:Ec; [|done].
  apply count_step_Ok in Ec as (-> & _ & ->).
  destruct (exec_op _ _ _ _ _ _ _) as [[[f vm2]|e] x2] eqn:Eo; [|done].
  pose proof (keeps_state_exec_op op (length (opcodes bc)) (l_ip s) (l_counter s) ctx Hw _ _ f vm2
    ltac:(by rewrite Eo)) as Hk. destruct f; simpl; [done|done|]. by intros ? ? [= <- <-].
Qed.

(** The opcode at an offset inside a method's code. *)
Lemma method_op bc pre code rest ip :
  opcodes bc = pre ++ code ++ rest -> (length pre <= ip < length pre + length code)%nat ->
  exists op, opcodes bc !! ip = Some op /\ code !! (ip - length pre)%nat = Some op.
Proof.
  intros Hops Hip. destruct (lookup_lt_is_Some_2 code (ip - length pre)) as [op Eop]; [lia|].
  exists op. split; [|done]. rewrite Hops, lookup_app_r by lia. by rewrite lookup_app_l by lia.
Qed.

(** Inside the code of a method the loop stays inside, and moves forward when
    the method has no [while]. *)
Lemma method_step bc ctx w pre code rest (s s' : Loop) :
  opcodes bc = pre ++ code ++ rest -> method_code w (length pre) code ->
  (length pre <= l_ip s < length pre + length code)%nat -> exec_step bc ctx s = inl s' ->
  (length pre <= l_ip s' < length pre + length code)%nat /\ (w.2 = false -> (l_ip s < l_ip s')%nat).
Proof.
  intros Hops Hc Hip (op' & Eop' & Hsucc)%exec_step_successor.
  destruct (method_op bc pre code rest _ Hops Hip) as (op & Eop & Ecode).
  assert (op' = op) as -> by congruence. pose proof (list_elem_of_lookup_2 _ _ _ Ecode) as Hin.
  destruct Hc as (body & -> & Hseg). rewrite length_app in *. simpl in *.
  assert (Hlast : op = OReturn \/ (l_ip s + 1 < length pre + (length body + 2))%nat).
  { apply lookup_app_Some in Ecode as [Hb%lookup_lt_Some|[_ Hb]]; [right; lia|].
    destruct (l_ip s - length pre - length body)%nat as [|[|?]] eqn:En; naive_solver lia. }
  destruct (jump_target op) as [t|] eqn:Ej.
  - assert (Hs : op <> OReturn /\ (l_ip s' = t \/ l_ip s' = S (l_ip s)))
      by (destruct op; simpl in *; set_solver).
    assert (Hb : body !! (l_ip s - length pre)%nat = Some op).
    { apply lookup_app_Some in Ecode as [Hb|[_ Hb]]; [done|].
      apply list_elem_of_lookup_2 in Hb. rewrite !elem_of_cons, elem_of_nil in Hb. destruct_or!; by subst. }
    pose proof (seg_jumps _ _ _ Hseg op t (list_elem_of_lookup_2 _ _ _ Hb) Ej).
    destruct Hlast as [?|Hlast]; [by destruct Hs|].
    destruct Hs as [Hr [->| ->]]; (split; [|intros Hw; pose proof (seg_forward _ _ _ Hseg _ _ _ Hw Hb Ej)]; lia).
  - assert (Hs : op <> OReturn /\ l_ip s' = S (l_ip s)) by (destruct op; simpl in *; set_solver).
    destruct Hs as [Hr ->]. destruct Hlast as [?|Hlast]; [done|]. split; lia.
Qed.

(** Inside the code of a read-only method the loop keeps the state. *)
Lemma read_only_step bc ctx l pre code rest st (s : Loop) :
  opcodes bc = pre ++ code ++ rest -> method_code (false, l) (length pre) code ->
  (length pre <= l_ip s < length pre + length code)%nat -> state (l_vm s) = st ->
  match exec_step bc ctx s with
  | inl s' => (length pre <= l_ip s' < length pre + length code)%nat /\ state (l_vm s') = st
  | inr o => forall v vm, o.1 = Ok (v, vm) -> state vm = st
  end.
Proof.
  intros Hops Hc Hip <-. destruct (method_op bc pre code rest _ Hops Hip) as (op & Eop & Ecode).
  assert (Hw : writes_state op = false).
  { destruct Hc as (body & -> & Hseg). apply list_elem_of_lookup_2 in Ecode.
    apply elem_of_app in Ecode as [Hin|Hin]; [by eapply seg_writes|].
    rewrite !elem_of_cons, elem_of_nil in Hin. destruct_or!; by subst. }
  pose proof (keeps_state_exec_step bc ctx s op Eop Hw) as Hk.
  destruct (exec_step bc ctx s) as [s'|o] eqn:E; [|done].
  split; [|done]. by eapply method_step.
Qed.

(** The ABI's mutability flag is sound for the generated code: a method
    the ABI reports as not mutating leaves the contract state exactly as it
    found it, whenever it returns. *)
Theorem abi_read_only_sound contract c am args st ctx limit (x : option X) id r x' :
  compile_contract contract compiler_new = Some c ->
  NoDup (entries contract).*1 ->
  am ∈ abi_methods (generate_abi contract) -> mutates_state am = false ->
  execute_full_with_self (raw_bytecode contract c) (abi_name am) args st ctx limit x id
    = Some (Ok r, x') ->
  state_changes r = st.
Proof.
  intros Ec Hnd Ham Hmut. destruct (compile_contract_layout contract) as (c' & Ec' & Hl).
  assert (c' = c) as -> by congruence.
  apply list_elem_of_fmap in Ham as (f & -> & Hf). simpl in Hmut |- *.
  destruct (layout_method c _ (fn_name f) (fn_body f) Hl Hnd) as (pre & code & rest & Hops & Hm & Hc).
  { apply elem_of_app. left. apply list_elem_of_fmap. by exists f. }
  unfold body_flags in Hc. rewrite Hmut in Hc. unfold execute_full_with_self, execute_method.
  cbn [methods raw_bytecode]. rewrite Hm. set (vm0 := set_identity _ _ _).
  destruct (push_args args vm0 x) as [[[[] vm1]|e] x1] eqn:Ep; [|done].
  assert (Hst : state vm1 = st).
  { change st with (state vm0). eapply (keeps_push_args state); [done|]. by rewrite Ep. }
  rewrite loop_pos_nat. destruct (loop_nat _ _ _) as [|o] eqn:El; [done|].
  assert (Ho : forall v vm, o.1 = Ok (v, vm) -> state vm = st).
  { refine (loop_nat_inv _ (fun s => (length pre <= l_ip s < length pre + length code)%nat /\
      state (l_vm s) = st) (fun o => forall v vm, o.1 = Ok (v, vm) -> state vm = st) _ _ _ _ _ _ El).
    - intros s s' [Hip Hs] E. pose proof (read_only_step (raw_bytecode contract c) ctx _ pre code rest st s
        Hops Hc Hip Hs) as Hi. by rewrite E in Hi.
    - intros s o' [Hip Hs] E. pose proof (read_only_step (raw_bytecode contract c) ctx _ pre code rest st s
        Hops Hc Hip Hs) as Hi. by rewrite E in Hi.
    - pose proof (method_code_length _ _ _ Hc). simpl. split; [lia|done]. }
  destruct o as [[[v vm]|e] y]; [|done]. intros [= <- <-]. simpl. by eapply Ho.
Qed.

(** *** Total contracts *)

Lemma check_total_contract_Ok contract :
  check_total_contract contract = Ok tt ->
  forall name body, (name, body) ∈ entries contract -> block_has_while body = false.
Proof.
  unfold check_total_contract. intros Ht name body Hin.
  destruct (filter _ (functions contract)) as [|f fs] eqn:Ef; simpl in Ht; [|done].
  destruct (filter _ (lifecycle_hooks contract)) as [|h hs] eqn:Eh; simpl in Ht; [|done].
  apply elem_of_app in Hin as [(f & [= -> ->] & Hf)%list_elem_of_fmap|(h & [= -> ->] & Hh)%list_elem_of_fmap].
  - destruct (block_has_while (fn_body f)) eqn:E; [|done]. exfalso.
    apply (elem_of_nil f). rewrite <- Ef. apply list_elem_of_filter. by rewrite E.
  - destruct (block_has_while (hook_body h)) eqn:E; [|done]. exfalso.
    apply (elem_of_nil h). rewrite <- Eh. apply list_elem_of_filter. by rewrite E.
Qed.

(** The totality gate certifies linear time: in a contract it accepts,
    the interpreter runs any method of the generated code in at most as many
    iterations as the program has opcodes, whatever the input, the gas limit
    and the callees. *)
Theorem total_contract_linear contract c name body ctx :
  check_total_contract contract = Ok tt ->
  compile_contract contract compiler_new = Some c ->
  NoDup (entries contract).*1 -> (name, body) ∈ entries contract ->
  exists start, methods (raw_bytecode contract c) !! name = Some start /\
    forall (vm : EvaporVM) (x : option X), exists o,
      loop_nat (exec_step (raw_bytecode contract c) ctx) (length (comp_opcodes c))
        {| l_vm := vm; l_ip := start; l_counter := 0; l_ext := x |} = inr o.
Proof.
  intros Ht Ec Hnd Hin. destruct (compile_contract_layout contract) as (c' & Ec' & Hl).
  assert (c' = c) as -> by congruence.
  destruct (layout_method c _ name body Hl Hnd Hin) as (pre & code & rest & Hops & Hm & Hc).
  pose proof (check_total_contract_Ok _ Ht _ _ Hin) as Hw.
  exists (length pre). split; [done|]. intros vm x. set (inside := fun s : Loop (X:=X) => (length pre <= l_ip s < length pre + length code)%nat).
  destruct (loop_nat_ends (exec_step (raw_bytecode contract c) ctx) inside
    (fun s => (length pre + length code - 1 - l_ip s)%nat) (length (comp_opcodes c))
    {| l_vm := vm; l_ip := length pre; l_counter := 0; l_ext := x |}) as [o Ho].
  - intros s s' Hs E. destruct (method_step (raw_bytecode contract c) ctx _ pre code rest s s' Hops Hc Hs E)
      as [Hs' Hf]. specialize (Hf Hw). unfold inside in *. split; [done|lia].
  - pose proof (method_code_length _ _ _ Hc). unfold inside. simpl. lia.
  - pose proof (method_code_length _ _ _ Hc). rewrite Hops, !length_app. simpl. lia.
  - by exists o.
Qed.
End read_only.

(** ** Well-typed literals give well-typed code *)

Fixpoint expr_wf (e : Expr) : Prop :=
  match e with
  | Literal v => value_wf v
  | Var _ | StateAccess _ => True
  | MapAccess _ key => expr_wf key
  | BinaryOp l _ r => expr_wf l /\ expr_wf r
  | Unary _ e => expr_wf e
  | FunctionCall _ es | ArrayLiteral es => foldr (fun e P => expr_wf e /\ P) True es
  | ArrayAccess a i => expr_wf a /\ expr_wf i
  end.

Definition target_wf (t : AssignTarget) : Prop :=
  match t with
  | TVariable _ | TStateField _ => True
  | TMapEntry _ e | TArrayElement _ e => expr_wf e
  end.

Fixpoint stmt_wf (s : Stmt) : Prop :=
  match s with
  | SLet _ v | SEmit v | SExpr v => expr_wf v
  | SAssign t v | SCompoundAssign t _ v => target_wf t /\ expr_wf v
  | SIf c t e =>
      expr_wf c /\ foldr (fun s P => stmt_wf s /\ P) True t /\
      match e with Some eb => foldr (fun s P => stmt_wf s /\ P) True eb | None => True end
  | SWhile c b => expr_wf c /\ foldr (fun s P => stmt_wf s /\ P) True b
  | SReturn e => match e with Some e => expr_wf e | None => True end
  | SRequire c m => expr_wf c /\ expr_wf m
  end.

Definition body_wf (body : list Stmt) : Prop := foldr (fun s P => stmt_wf s /\ P) True body.

Definition contract_wf (contract : Contract) : Prop :=
  (forall name body, (name, body) ∈ entries contract -> body_wf body) /\
  (forall f e, f ∈ state_fields contract -> fld_default f = Some e -> expr_wf e).

Lemma code_ok_emit op ops :
  (forall v, op = OPush v -> value_wf v) -> code_ok ops -> code_ok (emit op ops).
Proof. intros Hop Hops v [Hv|Hv%list_elem_of_singleton]%elem_of_app; [by apply Hops|by apply Hop]. Qed.

Lemma code_ok_expr e ops : expr_wf e -> code_ok ops -> code_ok (compile_expr e ops).
Proof.
  revert ops.
  assert (Hl : forall es, Forall (fun e => forall ops, expr_wf e -> code_ok ops -> code_ok (compile_expr e ops)) es ->
    forall ops, foldr (fun e P => expr_wf e /\ P) True es -> code_ok ops ->
      code_ok (foldl (fun ops e => compile_expr e ops) ops es)).
  { induction 1 as [|e0 es He _ IH]; intros ops Hw Hops; simpl in *; [done|]. naive_solver. }
  induction e using Expr_nested; intros ops Hw Hops; simpl in *.
  - apply code_ok_emit; [by intros ? [= <-]|done].
  - case_match; by apply code_ok_emit.
  - by apply code_ok_emit.
  - apply code_ok_emit; naive_solver.
  - apply code_ok_emit; [by destruct o|naive_solver].
  - destruct o; apply code_ok_emit; naive_solver.
  - case_match; (apply code_ok_emit; [done|by apply Hl]).
  - apply code_ok_emit; [done|by apply Hl].
  - apply code_ok_emit; naive_solver.
Qed.

Ltac code_ok_solve :=
  repeat first [ apply code_ok_emit; [by intros ? [=]|] | apply code_ok_expr; [tauto|] | assumption ].

Lemma code_ok_emit_binop o ops : code_ok ops -> code_ok (emit_binop o ops).
Proof. intros. apply code_ok_emit; [by destruct o|done]. Qed.

Lemma code_ok_assign t v ops : target_wf t -> expr_wf v -> code_ok ops -> code_ok (compile_assign t v ops).
Proof. intros. destruct t; simpl in *; code_ok_solve. Qed.

Lemma code_ok_compound t o v ops :
  target_wf t -> expr_wf v -> code_ok ops -> code_ok (compile_compound t o v ops).
Proof.
  intros. destruct t; simpl in *;
    repeat first [apply code_ok_emit_binop|apply code_ok_emit; [by intros ? [=]|]
                 |apply code_ok_expr; [tauto|]|assumption].
Qed.

Lemma code_ok_patch i t ops ops' : patch_jump i t ops = Some ops' -> code_ok ops -> code_ok ops'.
Proof.
  unfold patch_jump. intros Hp Hops v Hv.
  assert (Hin : exists op, ops' = <[ i := op ]> ops /\ forall v, op <> OPush v).
  { repeat case_match; try done; injection Hp as <-; by eexists. }
  destruct Hin as (op & -> & Hne). apply list_elem_of_lookup in Hv as [k Hk].
  destruct (decide (k = i)) as [->|].
  - pose proof (lookup_lt_Some _ _ _ Hk) as Hlt. rewrite length_insert in Hlt.
    rewrite list_lookup_insert_eq in Hk by done. injection Hk as ->. by destruct (Hne v).
  - rewrite list_lookup_insert_ne in Hk by congruence. apply Hops. by eapply list_elem_of_lookup_2.
Qed.

Definition stmt_code_ok (s : Stmt) : Prop :=
  forall ops ops', stmt_wf s -> code_ok ops -> compile_stmt s ops = Some ops' -> code_ok ops'.

Lemma code_ok_body body ops ops' :
  Forall stmt_code_ok body -> body_wf body -> code_ok ops ->
  compile_body body ops = Some ops' -> code_ok ops'.
Proof.
  unfold compile_body. intros Hb. revert ops. induction Hb as [|s body Hs Hb IH]; intros ops Hw Hops E; simpl in *.
  - by injection E as <-.
  - destruct Hw as [Hw1 Hw2]. destruct (compile_stmt s ops) as [ops1|] eqn:E1.
    + by eapply IH; [|eapply Hs|].
    + exfalso. clear -E. induction body; simpl in *; [done|]. auto.
Qed.

Lemma code_ok_stmt s : stmt_code_ok s.
Proof.
  induction s as [n v|t v|t o v|c t e Ht He|c b Hb|e|c m|e|e] using Stmt_nested;
    intros ops ops' Hw Hops E; simpl in *.
  - injection E as <-. code_ok_solve.
  - injection E as <-. apply code_ok_assign; tauto.
  - injection E as <-. apply code_ok_compound; tauto.
  - destruct Hw as (Hc & Hwt & Hwe). apply bind_Some in E as (ops1 & E1 & E).
    assert (H1 : code_ok ops1) by (eapply (code_ok_body t); [exact Ht|exact Hwt| |exact E1]; code_ok_solve).
    destruct e as [eb|]; [|by eapply code_ok_patch].
    apply bind_Some in E as (ops2 & E2 & E). apply bind_Some in E as (ops3 & E3 & E).
    eapply code_ok_patch; [exact E|]. eapply (code_ok_body eb); [by apply He|done| |exact E3].
    eapply code_ok_patch; [exact E2|]. code_ok_solve.
  - destruct Hw as (Hc & Hwb). apply bind_Some in E as (ops1 & E1 & E).
    eapply code_ok_patch; [exact E|]. apply code_ok_emit; [done|].
    eapply (code_ok_body b); [exact Hb|exact Hwb| |exact E1]; code_ok_solve.
  - injection E as <-. destruct e; [code_ok_solve|].
    repeat (apply code_ok_emit; [intros ? [= <-]; constructor|]). done.
  - injection E as <-. code_ok_solve.
  - injection E as <-. code_ok_solve.
  - injection E as <-. code_ok_solve.
Qed.

Lemma code_ok_method name params body c c' :
  body_wf body -> code_ok (comp_opcodes c) -> compile_method name params body c = Some c' ->
  code_ok (comp_opcodes c').
Proof.
  unfold compile_method. intros Hw Hc E. apply bind_Some in E as (ops & E & [= <-]). simpl.
  apply code_ok_emit; [done|]. apply code_ok_emit; [intros ? [= <-]; constructor|].
  eapply (code_ok_body body); [apply Forall_true, code_ok_stmt|done| |exact E].
  clear -Hc. revert Hc. generalize (comp_opcodes c). induction (rev params) as [|q l IH]; intros ops Hops; simpl; [done|].
  apply IH. by apply code_ok_emit.
Qed.

Lemma code_ok_foldl {A} (f : A -> Compiler -> option Compiler) items c c' :
  (forall a c c', a ∈ items -> code_ok (comp_opcodes c) -> f a c = Some c' -> code_ok (comp_opcodes c')) ->
  code_ok (comp_opcodes c) -> foldl (fun acc a => acc ≫= f a) (Some c) items = Some c' ->
  code_ok (comp_opcodes c').
Proof.
  revert c. induction items as [|a items IH]; intros c Hf Hc E; simpl in *; [by injection E as <-|].
  destruct (f a c) as [c1|] eqn:E1.
  - eapply IH; [|by eapply (Hf a); [left|..]|exact E]. intros b d d' Hb. apply Hf. by right.
  - exfalso. clear -E. induction items; simpl in *; [done|]. auto.
Qed.

Lemma code_ok_contract contract c :
  contract_wf contract -> compile_contract contract compiler_new = Some c -> code_ok (comp_opcodes c).
Proof.
  intros [Hw _] E. unfold compile_contract in E. apply bind_Some in E as (c1 & E1 & E2).
  assert (H1 : code_ok (comp_opcodes c1)).
  { eapply (code_ok_foldl compile_function); [| |exact E1]; [|by intros v Hv%elem_of_nil].
    intros f d d' Hf Hd. apply code_ok_method; [|done]. apply (Hw (fn_name f)).
    apply elem_of_app. left. apply list_elem_of_fmap. by exists f. }
  eapply (code_ok_foldl compile_hook); [|exact H1|exact E2].
  intros h d d' Hh Hd. apply code_ok_method; [|done]. apply (Hw (hook_name h)).
  apply elem_of_app. right. apply list_elem_of_fmap. by exists h.
Qed.

(** *** The optimiser keeps it *)

Lemma fold_binop_wf a b op r : value_wf a -> value_wf b -> fold_binop a b op = Some r -> value_wf r.
Proof.
  intros Ha Hb Hf. destruct a, b, op; simpl in Hf; try discriminate;
    repeat case_match; try discriminate; try (injection Hf as <-; constructor);
    inversion Ha; inversion Hb; subst; zbool.
  - apply fmap_Some in Hf as (c & (-> & ?)%checked_add_Some & ->). constructor. u64_lia.
  - apply fmap_Some in Hf as (c & (-> & ?)%checked_sub_Some & ->). constructor. u64_lia.
  - apply fmap_Some in Hf as (c & (-> & ?)%checked_mul_Some & ->). constructor. u64_lia.
  - apply div_u64; [done..|]. by destruct (Z.eqb_spec n0 0).
  - apply mod_u64; [done..|]. by destruct (Z.eqb_spec n0 0).
  - apply as_u64_range.
  - by apply shiftr_u64.
Qed.

Lemma code_ok_sub ops ops' :
  (forall op, op ∈ ops' -> op ∈ ops \/ exists v, op = OPush v /\ value_wf v) -> code_ok ops -> code_ok ops'.
Proof. intros Hsub Hops v Hv. destruct (Hsub _ Hv) as [|(w & [= <-] & ?)]; [by apply Hops|done]. Qed.

Lemma elem_of_insert_list (ops : list Op) i op op' : op' ∈ <[ i := op ]> ops -> op' ∈ ops \/ op' = op.
Proof.
  intros [k Hk]%list_elem_of_lookup. destruct (decide (k = i)) as [->|].
  - pose proof (lookup_lt_Some _ _ _ Hk) as Hlt. rewrite length_insert in Hlt.
    rewrite list_lookup_insert_eq in Hk by done. injection Hk as <-. by right.
  - rewrite list_lookup_insert_ne in Hk by congruence. left. by eapply list_elem_of_lookup_2.
Qed.

Lemma elem_of_vec_remove ops i (op : Op) : op ∈ vec_remove i ops -> op ∈ ops.
Proof.
  unfold vec_remove. intros [Hin|Hin]%elem_of_app.
  - by eapply subseteq_take.
  - by eapply subseteq_drop.
Qed.

Lemma code_ok_fold fuel ops i ch :
  code_ok ops -> code_ok (constant_fold_loop fuel ops i ch).1.
Proof.
  revert ops i ch. induction fuel as [|fuel IH]; intros ops i ch Hops; simpl; [done|].
  case_decide; [|done]. destruct (fold_binary_at ops i) as [r|] eqn:Eb.
  { apply IH. eapply code_ok_sub; [|exact Hops].
    intros op [?| ->]%elem_of_vec_remove%elem_of_vec_remove%elem_of_insert_list; [by left|].
    right. exists r. split; [done|]. unfold fold_binary_at in Eb. repeat case_match; try done.
    eapply fold_binop_wf; [| |exact Eb]; apply Hops; by eapply list_elem_of_lookup_2. }
  destruct (fold_unary_at ops i) as [r|] eqn:Eu; [|by apply IH].
  apply IH. eapply code_ok_sub; [|exact Hops].
  intros op [?| ->]%elem_of_vec_remove%elem_of_insert_list; [by left|].
  right. exists r. split; [done|]. unfold fold_unary_at in Eu. repeat case_match; try done.
  injection Eu as <-. constructor.
Qed.

Lemma code_ok_dce `{HashOrder} ops ms : code_ok ops -> code_ok (eliminate_dead_code ops ms).1.
Proof.
  intros Hops. unfold eliminate_dead_code. destruct ops as [|o ops]; [done|].
  intros v Hv. unfold sweep_dead in Hv. cbn [fst] in Hv.
  apply elem_of_lookup_zip_with in Hv as (i & op & r & E & Ho & Hr). destruct r; [|done].
  apply Hops. rewrite E. by eapply list_elem_of_lookup_2.
Qed.

Lemma code_ok_optimize `{HashOrder} n ops ms : code_ok ops -> code_ok (optimize_loop n ops ms).
Proof.
  revert ops. induction n as [|n IH]; intros ops Hops; simpl; [done|].
  pose proof (code_ok_fold (length ops) ops 0 false Hops) as H1. fold (constant_fold ops) in H1.
  destruct (constant_fold ops) as [ops1 folded]. simpl in H1.
  pose proof (code_ok_dce ops1 ms H1) as H2. destruct (eliminate_dead_code ops1 ms) as [ops2 el].
  case_match; [done|by apply IH].
Qed.

Lemma eval_const_wf e v : expr_wf e -> eval_const_expr e = Some v -> value_wf v.
Proof.
  revert v. induction e as [w| | | | | | |es IH|] using Expr_nested; intros v Hw E; simpl in *; try discriminate.
  - by injection E as <-.
  - apply fmap_Some in E as (l & El & ->). apply value_wf_array.
    revert l Hw El. induction IH as [|e es He _ IH']; intros l Hw El; simpl in *.
    + injection El as <-. constructor.
    + apply bind_Some in El as (v & Ev & El). apply bind_Some in El as (l' & El' & [= <-]).
      destruct Hw as [Hw1 Hw2]. constructor; [by apply He|by apply IH'].
Qed.

(** [compile] of a well-typed contract. *)
Lemma compile_wf `{HashOrder} contract bc :
  contract_wf contract -> compile contract = Some (Ok bc) ->
  code_ok (opcodes bc) /\
  forall f v, f ∈ state_schema bc -> sf_default f = Some v -> value_wf v.
Proof.
  unfold compile. intros Hw E. destruct (head _); [done|].
  apply bind_Some in E as (c & Ec & [= <-]). simpl. split.
  - by apply code_ok_optimize, (code_ok_contract contract).
  - intros f v Hf Hd. apply list_elem_of_fmap in Hf as (g & -> & Hg). simpl in Hd.
    apply bind_Some in Hd as (e & Ee & Ev). eapply eval_const_wf; [|exact Ev].
    by eapply (proj2 Hw).
Qed.

(** ** Constant folding and code offsets *)

Lemma length_vec_remove i ops : (i < length ops)%nat -> (length (vec_remove i ops) + 1 = length ops)%nat.
Proof. intros. unfold vec_remove. rewrite length_app, length_take, length_drop. lia. Qed.

(** One iteration per opcode is enough: more fuel does not change the pass. *)
Lemma constant_fold_fuel fuel extra ops i ch :
  (length ops <= fuel + i)%nat ->
  constant_fold_loop (fuel + extra) ops i ch = constant_fold_loop fuel ops i ch.
Proof.
  revert ops i ch. induction fuel as [|fuel IH]; intros ops i ch Hf; simpl.
  - destruct extra; simpl; [done|]. case_decide; [lia|done].
  - case_decide as Hi; [|done]. destruct (fold_binary_at ops i) as [r|] eqn:Eb.
    { assert (Hlen : (i + 2 < length ops)%nat).
      { unfold fold_binary_at in Eb. repeat case_match; try done. by eapply lookup_lt_Some. }
      apply IH. pose proof (length_vec_remove (i + 2) (<[i:=OPush r]> ops)) as H2.
      pose proof (length_vec_remove (i + 1) (vec_remove (i + 2) (<[i:=OPush r]> ops))) as H1.
      rewrite length_insert in H2. lia. }
    destruct (fold_unary_at ops i) as [r|] eqn:Eu; [|apply IH; lia].
    assert (Hlen : (i + 1 < length ops)%nat).
    { unfold fold_unary_at in Eu. repeat case_match; try done. by eapply lookup_lt_Some. }
    apply IH. pose proof (length_vec_remove (i + 1) (<[i:=OPush r]> ops)) as H1.
    rewrite length_insert in H1. lia.
Qed.

Module ToyCompiler.
Export ToyScript ToyVM.

Definition lit (n : Z) : Expr := Literal (U64 n).

Definition fn (name : string) (body : list Stmt) : Function :=
  {| fn_name := name; fn_params := []; fn_return_type := Some TU64; fn_body := body |}.

(** [fn a() { return 1 + 2 }  fn b() { return 7 }] *)
Definition two_methods : Contract :=
  {| c_name := "Two"; state_fields := [];
     functions := [fn "a" [SReturn (Some (BinaryOp (lit 1) BAdd (lit 2)))];
                   fn "b" [SReturn (Some (lit 7))]];
     lifecycle_hooks := [] |}.

Definition run (bc : EvaporBytecode) (method : string) : option (result Value ScriptError) :=
  match execute (X:=unit) bc method [] ∅ ctx with
  | Some (Ok r, _) => Some (Ok (return_value r))
  | Some (Err e, _) => Some (Err e)
  | None => None
  end.
End ToyCompiler.

(** Constant folding removes opcodes without moving the method table
    (or the jump targets), so optimised code can differ from generated code.
    In the contract with [fn a() { return 1 + 2 }] and [fn b() { return 7 }]
    the generated code of [b] returns 7; after [compile], whose output passes
    the deploy-time validation, [b] starts two opcodes late, its body has
    been swept away as dead code, and calling it returns null. *)
Theorem folding_misplaces_methods :
  exists c bc,
    compile_contract ToyCompiler.two_methods compiler_new = Some c /\
    compile ToyCompiler.two_methods = Some (Ok bc) /\
    validate_deploy_bytecode bc = Ok tt /\
    ToyCompiler.run (raw_bytecode ToyCompiler.two_methods c) "b" = Some (Ok (U64 7)) /\
    ToyCompiler.run bc "b" = Some (Ok Null).
Proof.
  eexists _, _. split; [vm_compute; reflexivity|]. split; [vm_compute; reflexivity|].
  split; [vm_compute; reflexivity|]. split; vm_compute; reflexivity.
Qed.

(** ** Concrete instances *)

Lemma fold_binop_sound_witness :
  exists vm', (bind (op_push (X:=unit) (U64 5)) (fun _ => bind (op_push (U64 6)) (fun _ =>
      exec_op OMul 3 2 0 ToyVM.ctx))
    (vm_new ∅ 100) None).1 = Ok (Next, vm') /\ stack vm' = [U64 30].
Proof.
  pose proof (fold_binop_sound (X:=unit) (U64 5) (U64 6) BMul (U64 30) 3 2 0 ToyVM.ctx (vm_new ∅ 100) None
    eq_refl) as [_ Hr].
  eexists. split; [vm_compute; reflexivity|]. vm_compute in Hr. exact (proj1 (proj2 Hr)).
Defined.

(** [fn get() { let i = 0  while i < 3 { i = i + 1 }  return i }], beside a
    setter. *)
Definition getter_contract : Contract :=
  {| c_name := "Getter"; state_fields := [];
     functions := [ToyCompiler.fn "get" [SLet "i" (ToyCompiler.lit 0);
         SWhile (BinaryOp (Var "i") BLt (ToyCompiler.lit 3))
           [SCompoundAssign (TVariable "i") BAdd (ToyCompiler.lit 1)];
         SReturn (Some (Var "i"))];
       ToyCompiler.fn "set" [SAssign (TStateField "v") (ToyCompiler.lit 1)]];
     lifecycle_hooks := [OnGrace [SEmit (Literal (Str "grace"))]] |}.

Lemma abi_read_only_sound_witness :
  exists c r x', compile_contract getter_contract compiler_new = Some c /\
    execute_full_with_self (X:=unit) (raw_bytecode getter_contract c) "get" [] {[ "v"%string := U64 9 ]}
      ToyVM.ctx 1000 None 1 = Some (Ok r, x') /\
    return_value r = U64 3 /\ state_changes r = {[ "v"%string := U64 9 ]}.
Proof.
  eexists _, _, _. split; [vm_compute; reflexivity|]. split; [vm_compute; reflexivity|].
  split; [reflexivity|].
  refine (abi_read_only_sound (X:=unit) getter_contract _
    {| abi_name := "get"; abi_params := []; abi_return_type := Some TU64; mutates_state := false |}
    [] _ ToyVM.ctx 1000 None 1 _ _ _ _ _ eq_refl _); [vm_compute; reflexivity| | |vm_compute; reflexivity].
  - simpl. by apply (bool_decide_unpack _).
  - simpl. left.
Defined.

Lemma total_contract_linear_witness :
  exists c start, compile_contract ToyCompiler.two_methods compiler_new = Some c /\
    comp_methods c !! "b"%string = Some start /\
    exists o, loop_nat (exec_step (X:=unit) (raw_bytecode ToyCompiler.two_methods c) ToyVM.ctx)
      (length (comp_opcodes c))
      {| l_vm := vm_new ∅ 100; l_ip := start; l_counter := 0; l_ext := None |} = inr o.
Proof.
  destruct (compile_contract ToyCompiler.two_methods compiler_new) as [c|] eqn:E;
    [|vm_compute in E; discriminate E].
  destruct (total_contract_linear (X:=unit) ToyCompiler.two_methods c "b" [SReturn (Some (ToyCompiler.lit 7))]
    ToyVM.ctx) as (start & Hs & Hrun).
  - vm_compute. reflexivity.
  - exact E.
  - simpl. by apply (bool_decide_unpack _).
  - simpl. right. left.
  - exists c, start. split; [reflexivity|]. split; [exact Hs|]. exact (Hrun _ None).
Defined.
