(* ===== verification/ScriptTokens.v ===== *)
(** * Tokens of EvaporScript

    The lexer of crates/evaporchain-script/src/parser.rs.  A source is a string
    of UTF-8 bytes; the lexer works on its characters, as code points.  A lexer
    is the characters that are left and the line.  The Unicode tables behind
    [char::is_whitespace] and its siblings are a parameter beyond ASCII. *)

From stdpp Require Import base gmap list strings pretty.
From Stdlib Require Import ZArith Lia.
From S2P Require Import Prelude Energy Trie ScriptValue ScriptVM ScriptCompiler.

Open Scope Z_scope.

(** ** Characters *)

Class Unicode := {
  wide_whitespace : Z -> bool;
  wide_alphabetic : Z -> bool;
  wide_numeric : Z -> bool;
}.

(** [str::chars] on valid UTF-8. *)
Fixpoint utf8_decode (b : bytes) : list Z :=
  match b with
  | [] => []
  | x :: r =>
      if x <? 128 then x :: utf8_decode r
      else
        match r with
        | [] => []
        | y :: r2 =>
            if x <? 224 then (x - 192) * 64 + (y - 128) :: utf8_decode r2
            else
              match r2 with
              | [] => []
              | z :: r3 =>
                  if x <? 240 then (x - 224) * 4096 + (y - 128) * 64 + (z - 128) :: utf8_decode r3
                  else
                    match r3 with
                    | [] => []
                    | w :: r4 =>
                        (x - 240) * 262144 + (y - 128) * 4096 + (z - 128) * 64 + (w - 128) :: utf8_decode r4
                    end
              end
        end
  end.

(** [String::push]. *)
Definition utf8_encode (c : Z) : bytes :=
  if c <? 128 then [c]
  else if c <? 2048 then [192 + c / 64; 128 + c mod 64]
  else if c <? 65536 then [224 + c / 4096; 128 + c / 64 mod 64; 128 + c mod 64]
  else [240 + c / 262144; 128 + c / 4096 mod 64; 128 + c / 64 mod 64; 128 + c mod 64].

Definition text_of_bytes (b : bytes) : string :=
  String.string_of_list_ascii ((fun x => Ascii.ascii_of_nat (Z.to_nat x)) <$> b).

Definition chars (s : string) : list Z := utf8_decode (bytes_of_string s).

(** [collect::<String>()]. *)
Definition text (l : list Z) : string := text_of_bytes (concat (utf8_encode <$> l)).

Definition is_ascii_digit (c : Z) : bool := (48 <=? c) && (c <=? 57).

Section classes.
Context `{Unicode}.

Definition is_whitespace (c : Z) : bool :=
  if c <? 128 then (c =? 32) || ((9 <=? c) && (c <=? 13)) else wide_whitespace c.

Definition is_alphabetic (c : Z) : bool :=
  if c <? 128 then ((97 <=? c) && (c <=? 122)) || ((65 <=? c) && (c <=? 90)) else wide_alphabetic c.

Definition is_alphanumeric (c : Z) : bool :=
  is_alphabetic c || (if c <? 128 then is_ascii_digit c else wide_numeric c).
End classes.

(** ** Tokens *)

Inductive Token :=
| TkContract | TkState | TkFn | TkLet | TkIf | TkElse | TkWhile | TkReturn | TkSelfKw | TkTrue | TkFalse
| TkOnEvaporate | TkOnGrace | TkOnRefresh
| TkU64Type | TkBoolType | TkStringType | TkAddressType | TkMapType | TkArrayType
| TkIdent (name : string) | TkIntLit (n : Z) | TkStrLit (s : string)
| TkPlus | TkMinus | TkStar | TkSlash | TkPercent | TkEqEq | TkNeq | TkGt | TkLt | TkGte | TkLte | TkAnd | TkOr | TkNot
| TkAssign | TkPlusAssign | TkMinusAssign | TkStarAssign | TkSlashAssign | TkShl | TkShr | TkArrow
| TkLBrace | TkRBrace | TkLParen | TkRParen | TkLBracket | TkRBracket | TkComma | TkColon | TkDot
| TkEof.

#[global] Instance Token_eq_dec : EqDecision Token.
Proof. solve_decision. Defined.

(** ** The lexer *)

Definition MAX_STRING_LITERAL : Z := 65536.
Definition MAX_TOKENS : Z := 1000000.
Definition MAX_SOURCE_BYTES : Z := 1048576.

Record Lexer := { lx_chars : list Z; lx_line : nat }.

(** The line after a character has been consumed. *)
Definition line_after (c : Z) (line : nat) : nat := if c =? 10 then S line else line.

Section lexer.
Context `{Unicode}.

(** A comment ends before the newline, which is then skipped as whitespace. *)
Fixpoint skip_whitespace_and_comments (in_comment : bool) (l : list Z) (line : nat) : Lexer :=
  match l with
  | [] => {| lx_chars := []; lx_line := line |}
  | c :: l' =>
      if in_comment then skip_whitespace_and_comments (negb (c =? 10)) l' (line_after c line)
      else if is_whitespace c then skip_whitespace_and_comments false l' (line_after c line)
      else
        match l' with
        | d :: _ =>
            if (c =? 47) && (d =? 47) then skip_whitespace_and_comments true l' line
            else {| lx_chars := l; lx_line := line |}
        | [] => {| lx_chars := l; lx_line := line |}
        end
  end.

(** [while peek().is_some_and(p) { advance() }]. *)
Fixpoint span (p : Z -> bool) (l : list Z) : list Z * list Z :=
  match l with
  | c :: l' => if p c then let '(a, b) := span p l' in (c :: a, b) else ([], l)
  | [] => ([], [])
  end.

Definition ident_char (c : Z) : bool := is_alphanumeric c || (c =? 95).

(** [str::parse::<u64>] on digits. *)
Definition digits_value (l : list Z) : Z := foldl (fun n c => n * 10 + (c - 48)) 0 l.

Definition read_number (l : list Z) (line : nat) : result (Z * list Z) ScriptError :=
  let '(digits, rest) := span is_ascii_digit l in
  if digits_value digits <=? U64_MAX then Ok (digits_value digits, rest)
  else Err (Parse line ("integer literal overflows u64: " +:+ text digits)).

Definition unescape (c : Z) : Z := if c =? 110 then 10 else if c =? 116 then 9 else c.

(** After the opening quote; [s] are the bytes so far. *)
Fixpoint read_string (l : list Z) (line : nat) (s : bytes) : result (string * Lexer) ScriptError :=
  match l with
  | [] => Err (Parse line "unterminated string literal")
  | c :: l' =>
      let line := line_after c line in
      if c =? 34 then Ok (text_of_bytes s, {| lx_chars := l'; lx_line := line |})
      else if c =? 92 then
        match l' with
        | [] => Err (Parse line "unterminated escape in string")
        | d :: l'' => read_string l'' (line_after d line) (s ++ utf8_encode (unescape d))
        end
      else if MAX_STRING_LITERAL <=? Z.of_nat (length s)
      then Err (Parse line ("string literal too large: " +:+ show_u64 (Z.of_nat (length s)) +:+ " bytes (max 65536)"))
      else read_string l' line (s ++ utf8_encode c)
  end.

Definition keyword (ident : string) : Token :=
  match ident with
  | "contract" => TkContract | "state" => TkState | "fn" => TkFn | "let" => TkLet | "if" => TkIf | "else" => TkElse
  | "while" => TkWhile | "return" => TkReturn | "self" => TkSelfKw | "true" => TkTrue | "false" => TkFalse
  | "on_evaporate" => TkOnEvaporate | "on_grace" => TkOnGrace | "on_refresh" => TkOnRefresh
  | "u64" => TkU64Type | "bool" => TkBoolType | "string" => TkStringType | "address" => TkAddressType
  | "map" => TkMapType | "array" => TkArrayType
  | _ => TkIdent ident
  end%string.

(** The second character decides between two or three tokens. *)
Definition choose (l : list Z) (options : list (Z * Token)) (otherwise : Token) : Token * list Z :=
  match l with
  | d :: l' =>
      match List.find (fun o => o.1 =? d) options with
      | Some o => (o.2, l')
      | None => (otherwise, l)
      end
  | [] => (otherwise, l)
  end.

(** [peek() == Some(d)], and what is left behind it. *)
Definition following (d : Z) (l : list Z) : option (list Z) :=
  match l with x :: l' => if x =? d then Some l' else None | [] => None end.

(** Operators and punctuation, after [c] has been consumed. *)
Definition operator (c : Z) (l : list Z) (line : nat) : result (Token * list Z) ScriptError :=
  if c =? 43 then Ok (choose l [(61, TkPlusAssign)] TkPlus)
  else if c =? 45 then Ok (choose l [(62, TkArrow); (61, TkMinusAssign)] TkMinus)
  else if c =? 42 then Ok (choose l [(61, TkStarAssign)] TkStar)
  else if c =? 47 then Ok (choose l [(61, TkSlashAssign)] TkSlash)
  else if c =? 37 then Ok (TkPercent, l)
  else if c =? 61 then Ok (choose l [(61, TkEqEq)] TkAssign)
  else if c =? 33 then Ok (choose l [(61, TkNeq)] TkNot)
  else if c =? 62 then Ok (choose l [(62, TkShr); (61, TkGte)] TkGt)
  else if c =? 60 then Ok (choose l [(60, TkShl); (61, TkLte)] TkLt)
  else if c =? 38 then match following 38 l with Some l' => Ok (TkAnd, l') | None => Err (Parse line "expected '&&'") end
  else if c =? 124 then match following 124 l with Some l' => Ok (TkOr, l') | None => Err (Parse line "expected '||'") end
  else if c =? 123 then Ok (TkLBrace, l)
  else if c =? 125 then Ok (TkRBrace, l)
  else if c =? 40 then Ok (TkLParen, l)
  else if c =? 41 then Ok (TkRParen, l)
  else if c =? 91 then Ok (TkLBracket, l)
  else if c =? 93 then Ok (TkRBracket, l)
  else if c =? 44 then Ok (TkComma, l)
  else if c =? 58 then Ok (TkColon, l)
  else if c =? 46 then Ok (TkDot, l)
  else Err (Parse line ("unexpected character: '" +:+ text [c] +:+ "'")).

Definition next_token (x : Lexer) : result (Token * nat * Lexer) ScriptError :=
  let x := skip_whitespace_and_comments false (lx_chars x) (lx_line x) in
  let line := lx_line x in
  match lx_chars x with
  | [] => Ok (TkEof, line, x)
  | ch :: l =>
      if is_alphabetic ch || (ch =? 95) then
        let '(ident, rest) := span ident_char (ch :: l) in
        Ok (keyword (text ident), line, {| lx_chars := rest; lx_line := line |})
      else if is_ascii_digit ch then
        match read_number (ch :: l) line with
        | Ok (n, rest) => Ok (TkIntLit n, line, {| lx_chars := rest; lx_line := line |})
        | Err e => Err e
        end
      else if ch =? 34 then
        match read_string l line [] with
        | Ok (s, x) => Ok (TkStrLit s, line, x)
        | Err e => Err e
        end
      else
        match operator ch l line with
        | Ok (tok, rest) => Ok (tok, line, {| lx_chars := rest; lx_line := line |})
        | Err e => Err e
        end
  end.

(** [count] tokens have been read; [None] is out of fuel. *)
Fixpoint tokenize_from (fuel : nat) (x : Lexer) (count : Z) : option (result (list (Token * nat)) ScriptError) :=
  match fuel with
  | O => None
  | S fuel =>
      match next_token x with
      | Err e => Some (Err e)
      | Ok (tok, line, x) =>
          if MAX_TOKENS <? count + 1 then Some (Err (Runtime SourceTooLarge))
          else if decide (tok = TkEof) then Some (Ok [(tok, line)])
          else
            match tokenize_from fuel x (count + 1) with
            | Some (Ok l) => Some (Ok ((tok, line) :: l))
            | r => r
            end
      end
  end.

Definition too_large (source : string) : bool := MAX_SOURCE_BYTES <? Z.of_nat (String.length source).

Definition too_large_error (source : string) : ScriptError :=
  Parse 0 ("source too large: " +:+ show_u64 (Z.of_nat (String.length source)) +:+ " bytes exceeds MAX_SOURCE_BYTES (1048576)").

(** A token takes at least a character, so this many steps are enough. *)
Definition lex_fuel (l : list Z) : nat := S (length l).

Definition tokenize_chars (l : list Z) : option (result (list (Token * nat)) ScriptError) :=
  tokenize_from (lex_fuel l) {| lx_chars := l; lx_line := 1 |} 0.

Definition tokenize (source : string) : option (result (list (Token * nat)) ScriptError) :=
  if too_large source then Some (Err (too_large_error source)) else tokenize_chars (chars source).
End lexer.

(** ** The lexer always ends *)

Section ends.
Context `{Unicode}.

Lemma skip_shortens b l line : (length (lx_chars (skip_whitespace_and_comments b l line)) <= length l)%nat.
Proof.
  revert b line. induction l as [|c l IH]; intros b line; cbn [skip_whitespace_and_comments]; [done|].
  destruct b; [specialize (IH (negb (c =? 10)) (line_after c line)); cbn; lia|].
  destruct (is_whitespace c); [specialize (IH false (line_after c line)); cbn; lia|].
  destruct l as [|d l]; [done|]. destruct (_ && _); [|done]. specialize (IH true line). cbn in *. lia.
Qed.

Lemma span_split p l : let '(a, b) := span p l in l = a ++ b /\ Forall (fun c => p c = true) a /\ (forall c, head b = Some c -> p c = false).
Proof.
  induction l as [|c l IH]; cbn [span]; [done|]. destruct (p c) eqn:E.
  - destruct (span p l) as [a b]. destruct IH as (-> & Ha & Hb). split_and!; [done|by constructor|done].
  - split_and!; [done|constructor|]. by intros d [= <-].
Qed.

Lemma span_head p c l : p c = true -> exists a b, span p (c :: l) = (c :: a, b) /\ (length b <= length l)%nat.
Proof.
  intros E. cbn [span]. rewrite E. pose proof (span_split p l) as Hs. destruct (span p l) as [a b]. destruct Hs as (-> & _).
  exists a, b. split; [done|]. rewrite length_app. lia.
Qed.

Lemma read_string_shortens l line s :
  match read_string l line s with Ok (_, x) => (length (lx_chars x) <= length l)%nat | Err _ => True end.
Proof.
  remember (length l) as n eqn:En. assert (Hn : (length l <= n)%nat) by lia. clear En. revert l line s Hn.
  induction n as [|n IH]; intros [|c l] line s Hn; cbn [read_string]; try done; [cbn in Hn; lia|]. cbn in Hn.
  destruct (c =? 34); [cbn; lia|]. destruct (c =? 92).
  - destruct l as [|d l]; [done|]. specialize (IH l (line_after d (line_after c line)) (s ++ utf8_encode (unescape d))).
    cbn in Hn. specialize (IH ltac:(lia)). destruct (read_string _ _ _) as [[? ?]|]; [lia|done].
  - destruct (_ <=? _); [done|]. specialize (IH l (line_after c line) (s ++ utf8_encode c) ltac:(lia)).
    destruct (read_string _ _ _) as [[? ?]|]; [lia|done].
Qed.

Lemma choose_shortens l options t : (length (choose l options t).2 <= length l)%nat.
Proof. unfold choose. destruct l as [|d l]; [done|]. destruct (List.find _ _); cbn; lia. Qed.

Lemma operator_shortens c l line : match operator c l line with Ok (_, r) => (length r <= length l)%nat | Err _ => True end.
Proof.
  assert (Hf : forall d l', following d l = Some l' -> (length l' <= length l)%nat).
  { intros d l' E. unfold following in E. destruct l as [|x l]; [done|]. destruct (x =? d); simplify_eq. cbn. lia. }
  assert (Hc : forall o t, let '(_, r) := choose l o t in (length r <= length l)%nat).
  { intros o t. pose proof (choose_shortens l o t). by destruct (choose l o t). }
  unfold operator. repeat (destruct (c =? _); [first [exact (Hc _ _)|done|destruct (following _ l) eqn:E; [by eapply Hf|done]]|]).
  done.
Qed.

(** A token that is not the end takes at least one character. *)
Lemma next_token_shortens x :
  match next_token x with
  | Ok (tok, _, x') => tok = TkEof \/ (length (lx_chars x') < length (lx_chars x))%nat
  | Err _ => True
  end.
Proof.
  unfold next_token. pose proof (skip_shortens false (lx_chars x) (lx_line x)) as Hs.
  destruct (skip_whitespace_and_comments _ _ _) as [[|ch l] line]; cbn [lx_chars lx_line] in *; [by left|]. cbn [length] in Hs.
  destruct (is_alphabetic ch || (ch =? 95)) eqn:Ea.
  { destruct (span_head ident_char ch l) as (a & b & -> & Hb); [|right; cbn; lia].
    unfold ident_char, is_alphanumeric. apply orb_true_iff in Ea as [->| ->]; [done|by rewrite orb_true_r]. }
  destruct (is_ascii_digit ch) eqn:Ed.
  { unfold read_number. destruct (span_head is_ascii_digit ch l Ed) as (a & b & -> & Hb). destruct (_ <=? _); [right; cbn; lia|done]. }
  destruct (ch =? 34).
  { pose proof (read_string_shortens l line []) as Hr. destruct (read_string _ _ _) as [[s x']|]; [right; lia|done]. }
  pose proof (operator_shortens ch l line) as Ho. destruct (operator _ _ _) as [[t r]|]; [right; cbn; lia|done].
Qed.

Lemma tokenize_from_total fuel x count : (length (lx_chars x) < fuel)%nat -> is_Some (tokenize_from fuel x count).
Proof.
  revert x count. induction fuel as [|fuel IH]; intros x count Hf; [lia|]. cbn [tokenize_from].
  pose proof (next_token_shortens x) as Hn. destruct (next_token x) as [[[tok line] x']|e]; [|by eexists].
  destruct (_ <? _); [by eexists|]. case_decide; [by eexists|]. destruct Hn as [?|Hn]; [done|].
  destruct (IH x' (count + 1) ltac:(lia)) as [[l|e] ->]; by eexists.
Qed.

Lemma tokenize_total source : is_Some (tokenize source).
Proof. unfold tokenize. destruct (too_large source); [by eexists|]. apply tokenize_from_total. unfold lex_fuel. cbn. lia. Qed.
End ends.
