(* ===== verification/ScriptGrammar.v ===== *)
(** * The grammar of EvaporScript

    The recursive-descent parser of crates/evaporchain-script/src/parser.rs, from
    tokens to the syntax tree that ScriptCompiler.v compiles.  A parser is the
    tokens that are left and the two depth counters; an error ends the parse, so
    it carries no parser.

    Every function is written over the fuel its recursion or loop needs, [None]
    being out of fuel: expressions and blocks recurse at most as deep as the depth
    guards allow, loops and the two unguarded recursions (types, [else if]) at
    most once per token.  [parse_total] shows that none of it runs out. *)

From stdpp Require Import base gmap list strings pretty.
From Stdlib Require Import ZArith Lia.
From S2P Require Import Prelude Energy Trie ScriptValue ScriptVM ScriptCompiler ScriptTokens.

Open Scope Z_scope.

(** [Debug] of a token. *)
Definition token_debug `{StrDebug} (t : Token) : string :=
  match t with
  | TkContract => "Contract" | TkState => "State" | TkFn => "Fn" | TkLet => "Let" | TkIf => "If" | TkElse => "Else"
  | TkWhile => "While" | TkReturn => "Return" | TkSelfKw => "SelfKw" | TkTrue => "True" | TkFalse => "False"
  | TkOnEvaporate => "OnEvaporate" | TkOnGrace => "OnGrace" | TkOnRefresh => "OnRefresh"
  | TkU64Type => "U64Type" | TkBoolType => "BoolType" | TkStringType => "StringType" | TkAddressType => "AddressType"
  | TkMapType => "MapType" | TkArrayType => "ArrayType"
  | TkIdent name => "Ident(" +:+ str_debug name +:+ ")" | TkIntLit n => "IntLit(" +:+ show_u64 n +:+ ")"
  | TkStrLit s => "StrLit(" +:+ str_debug s +:+ ")"
  | TkPlus => "Plus" | TkMinus => "Minus" | TkStar => "Star" | TkSlash => "Slash" | TkPercent => "Percent" | TkEqEq => "EqEq"
  | TkNeq => "Neq" | TkGt => "Gt" | TkLt => "Lt" | TkGte => "Gte" | TkLte => "Lte" | TkAnd => "And" | TkOr => "Or" | TkNot => "Not"
  | TkAssign => "Assign" | TkPlusAssign => "PlusAssign" | TkMinusAssign => "MinusAssign" | TkStarAssign => "StarAssign"
  | TkSlashAssign => "SlashAssign" | TkShl => "Shl" | TkShr => "Shr" | TkArrow => "Arrow"
  | TkLBrace => "LBrace" | TkRBrace => "RBrace" | TkLParen => "LParen" | TkRParen => "RParen" | TkLBracket => "LBracket"
  | TkRBracket => "RBracket" | TkComma => "Comma" | TkColon => "Colon" | TkDot => "Dot" | TkEof => "Eof"
  end%string.

(** ** The state of a parse *)

Definition MAX_EXPR_DEPTH : nat := 64.
Definition MAX_STMT_DEPTH : nat := 64.

Record Parser := mkParser { rest : list (Token * nat); expr_depth : nat; stmt_depth : nat }.

Definition peek (p : Parser) : Token := match rest p with (t, _) :: _ => t | [] => TkEof end.
Definition line (p : Parser) : nat := match rest p with (_, n) :: _ => n | [] => 0%nat end.
Definition advance (p : Parser) : Parser := mkParser (tail (rest p)) (expr_depth p) (stmt_depth p).
Definition with_expr_depth (n : nat) (p : Parser) : Parser := mkParser (rest p) n (stmt_depth p).
Definition with_stmt_depth (n : nat) (p : Parser) : Parser := mkParser (rest p) (expr_depth p) n.

(** A step of the parse. *)
Definition parsing (A : Type) : Type := Parser -> option (result (A * Parser) ScriptError).

Definition pret {A} (a : A) : parsing A := fun p => Some (Ok (a, p)).
Definition pfail {A} (message : string) : parsing A := fun p => Some (Err (Parse (line p) message)).
Definition pfail_at {A} (n : nat) (message : string) : parsing A := fun _ => Some (Err (Parse n message)).
Definition exhausted {A} : parsing A := fun _ => None.

Definition pbind {A B} (m : parsing A) (f : A -> parsing B) : parsing B := fun p =>
  match m p with
  | Some (Ok (a, p)) => f a p
  | Some (Err e) => Some (Err e)
  | None => None
  end.

Declare Scope parsing_scope.
Delimit Scope parsing_scope with parsing.
Open Scope parsing_scope.
Notation "'let!' x := m 'in' k" := (pbind m (fun x => k)) (at level 10, x name, m at level 100, k at level 200) : parsing_scope.
Notation "m ;; k" := (pbind m (fun _ => k)) (at level 100, k at level 200, right associativity) : parsing_scope.
Notation "'with' 'next' t => k" := (fun p => (fun t => k) (peek p) p) (at level 10, t name, k at level 200) : parsing_scope.

Definition skip : parsing unit := fun p => Some (Ok (tt, advance p)).

Section grammar.
Context `{StrDebug}.

(** Only the variant of an expected token counts, and none of those expected carries data. *)
Definition expect (expected : Token) : parsing unit := fun p =>
  if decide (peek p = expected) then Some (Ok (tt, advance p))
  else Some (Err (Parse (line p) ("expected " +:+ token_debug expected +:+ ", got " +:+ token_debug (peek p)))).

Definition expect_ident : parsing string := fun p =>
  match peek p with
  | TkIdent name => Some (Ok (name, advance p))
  | t => Some (Err (Parse (line p) ("expected identifier, got " +:+ token_debug t)))
  end.

(** [self.expr_depth += 1; ...; self.expr_depth -= 1] around [m], with the guard. *)
Definition nested_expr {A} (m : parsing A) : parsing A := fun p =>
  if (MAX_EXPR_DEPTH <? S (expr_depth p))%nat
  then Some (Err (Parse (line p) "expression nesting depth exceeds maximum (64)"))
  else (let! a := m in fun p => Some (Ok (a, with_expr_depth (pred (expr_depth p)) p))) (with_expr_depth (S (expr_depth p)) p).

(** ** Expressions *)

(** One precedence level: operands of the next level, to the left. *)
Fixpoint operators (fuel : nat) (op_of : Token -> option BinOp) (operand : parsing Expr) (left : Expr) : parsing Expr :=
  match fuel with
  | O => exhausted
  | S fuel =>
      with next t =>
        match op_of t with
        | Some op => skip;; let! right := operand in operators fuel op_of operand (BinaryOp left op right)
        | None => pret left
        end
  end.

Definition left_assoc (op_of : Token -> option BinOp) (operand : parsing Expr) : parsing Expr :=
  let! left := operand in fun p => operators (S (length (rest p))) op_of operand left p.

Definition or_op (t : Token) : option BinOp := match t with TkOr => Some BOr | _ => None end.
Definition and_op (t : Token) : option BinOp := match t with TkAnd => Some BAnd | _ => None end.
Definition equality_op (t : Token) : option BinOp := match t with TkEqEq => Some BEq | TkNeq => Some BNeq | _ => None end.
Definition comparison_op (t : Token) : option BinOp :=
  match t with TkGt => Some BGt | TkLt => Some BLt | TkGte => Some BGte | TkLte => Some BLte | _ => None end.
Definition shift_op (t : Token) : option BinOp := match t with TkShl => Some BShl | TkShr => Some BShr | _ => None end.
Definition additive_op (t : Token) : option BinOp := match t with TkPlus => Some BAdd | TkMinus => Some BSub | _ => None end.
Definition multiplicative_op (t : Token) : option BinOp :=
  match t with TkStar => Some BMul | TkSlash => Some BDiv | TkPercent => Some BMod | _ => None end.

Section levels.
Context (parse_unary : parsing Expr).

Definition parse_multiplicative : parsing Expr := left_assoc multiplicative_op parse_unary.
Definition parse_additive : parsing Expr := left_assoc additive_op parse_multiplicative.
Definition parse_shift : parsing Expr := left_assoc shift_op parse_additive.
Definition parse_comparison : parsing Expr := left_assoc comparison_op parse_shift.
Definition parse_equality : parsing Expr := left_assoc equality_op parse_comparison.
Definition parse_and : parsing Expr := left_assoc and_op parse_equality.
Definition parse_or : parsing Expr := left_assoc or_op parse_and.
End levels.

(** [while peek() != close]: elements with commas between them. *)
Fixpoint elements_until (fuel : nat) (close : Token) (element : parsing Expr) (acc : list Expr) : parsing (list Expr) :=
  match fuel with
  | O => exhausted
  | S fuel =>
      with next t =>
        if decide (t = close) then pret acc
        else
          (if decide (acc = []) then pret tt else expect TkComma);;
          let! e := element in elements_until fuel close element (acc ++ [e])
  end.

Definition parse_elements (close : Token) (element : parsing Expr) : parsing (list Expr) :=
  let! l := fun p => elements_until (S (length (rest p))) close element [] p in
  expect close;; pret l.

(** The literal or access at the front; [parse_expr] is the parser of what is inside it. *)
Definition parse_primary (parse_expr : parsing Expr) : parsing Expr := fun p =>
  (match peek p with
   | TkIntLit n => skip;; pret (Literal (U64 n))
   | TkStrLit s => skip;; pret (Literal (Str s))
   | TkTrue => skip;; pret (Literal (VBool true))
   | TkFalse => skip;; pret (Literal (VBool false))
   | TkSelfKw =>
       skip;; expect TkDot;;
       let! field := expect_ident in
       with next t =>
         if decide (t = TkLBracket) then skip;; let! key := parse_expr in expect TkRBracket;; pret (MapAccess field key)
         else pret (StateAccess field)
   | TkIdent name =>
       skip;;
       with next t =>
         if decide (t = TkLParen) then skip;; let! args := parse_elements TkRParen parse_expr in pret (FunctionCall name args)
         else if decide (t = TkLBracket) then
           skip;; let! index := parse_expr in expect TkRBracket;; pret (ArrayAccess (Var name) index)
         else pret (Var name)
   | TkLBracket => skip;; let! l := parse_elements TkRBracket parse_expr in pret (ArrayLiteral l)
   | TkLParen => skip;; let! e := parse_expr in expect TkRParen;; pret e
   | t => pfail_at (line p) ("unexpected token in expression: " +:+ token_debug t)
   end) p.

Fixpoint parse_expr_in (fuel : nat) : parsing Expr :=
  match fuel with
  | O => exhausted
  | S fuel => nested_expr (parse_or (parse_unary_in fuel))
  end
with parse_unary_in (fuel : nat) : parsing Expr :=
  match fuel with
  | O => exhausted
  | S fuel =>
      nested_expr
        (with next t =>
           match t with
           | TkNot => skip;; let! e := parse_unary_in fuel in pret (Unary UNot e)
           | TkMinus => skip;; let! e := parse_unary_in fuel in pret (Unary UNeg e)
           | _ => parse_primary (parse_expr_in fuel)
           end)
  end.

(** Deeper than the guard allows. *)
Definition EXPR_FUEL : nat := S (S MAX_EXPR_DEPTH).

Definition parse_expr : parsing Expr := parse_expr_in EXPR_FUEL.
Definition parse_unary : parsing Expr := parse_unary_in EXPR_FUEL.

(** ** Types *)

Fixpoint parse_type_in (fuel : nat) : parsing ScriptType :=
  match fuel with
  | O => exhausted
  | S fuel => fun p =>
      (match peek p with
       | TkU64Type => skip;; pret TU64
       | TkBoolType => skip;; pret TBool
       | TkStringType => skip;; pret TString
       | TkAddressType => skip;; pret TAddress
       | TkMapType =>
           skip;; expect TkLBracket;; let! k := parse_type_in fuel in
           expect TkArrow;; let! v := parse_type_in fuel in expect TkRBracket;; pret (TMap k v)
       | TkArrayType => skip;; expect TkLBracket;; let! t := parse_type_in fuel in expect TkRBracket;; pret (TArray t)
       | t => pfail ("expected type, got " +:+ token_debug t)
       end) p
  end.

Definition parse_type : parsing ScriptType := fun p => parse_type_in (S (length (rest p))) p.

(** ** Statements *)

Definition compound_op (t : Token) : option BinOp :=
  match t with
  | TkPlusAssign => Some BAdd | TkMinusAssign => Some BSub | TkStarAssign => Some BMul | TkSlashAssign => Some BDiv
  | _ => None
  end.

(** An assignment to [target], if one follows. *)
Definition assignment (target : AssignTarget) (otherwise : parsing Stmt) : parsing Stmt :=
  with next t =>
    if decide (t = TkAssign) then skip;; let! value := parse_expr in pret (SAssign target value)
    else
      match compound_op t with
      | Some op => skip;; let! value := parse_expr in pret (SCompoundAssign target op value)
      | None => otherwise
      end.

(** The arguments of a call that is a statement: [expr (, expr)*]. *)
Fixpoint more_arguments (fuel : nat) (acc : list Expr) : parsing (list Expr) :=
  match fuel with
  | O => exhausted
  | S fuel =>
      with next t =>
        if decide (t = TkComma) then skip;; let! e := parse_expr in more_arguments fuel (acc ++ [e]) else pret acc
  end.

Definition parse_arguments : parsing (list Expr) :=
  with next t =>
    if decide (t = TkRParen) then pret []
    else let! e := parse_expr in fun p => more_arguments (S (length (rest p))) [e] p.

Definition parse_ident_stmt : parsing Stmt :=
  let! name := expect_ident in
  with next t =>
    if decide (t = TkLBracket) then
      skip;; let! index := parse_expr in expect TkRBracket;;
      assignment (TArrayElement name index) (pret (SExpr (ArrayAccess (Var name) index)))
    else
      assignment (TVariable name)
        (with next t =>
           if decide (t = TkLParen) then
             skip;; let! args := parse_arguments in expect TkRParen;; pret (SExpr (FunctionCall name args))
           else pret (SExpr (Var name))).

Definition parse_let : parsing Stmt :=
  skip;; let! name := expect_ident in
  (with next t => if decide (t = TkColon) then skip;; let! _ := parse_type in pret tt else pret tt);;
  expect TkAssign;; let! value := parse_expr in pret (SLet name value).

Definition parse_return : parsing Stmt :=
  skip;;
  with next t => if decide (t = TkRBrace) then pret (SReturn None) else let! e := parse_expr in pret (SReturn (Some e)).

Definition parse_require : parsing Stmt :=
  skip;; expect TkLParen;; let! condition := parse_expr in expect TkComma;; let! message := parse_expr in
  expect TkRParen;; pret (SRequire condition message).

Definition parse_emit : parsing Stmt :=
  skip;; expect TkLParen;; let! e := parse_expr in expect TkRParen;; pret (SEmit e).

Definition parse_self_assign_or_expr : parsing Stmt :=
  skip;; expect TkDot;; let! field := expect_ident in
  with next t =>
    if decide (t = TkLBracket) then
      skip;; let! key := parse_expr in expect TkRBracket;;
      assignment (TMapEntry field key) (pfail "expected assignment operator after map access")
    else assignment (TStateField field) (pfail "expected assignment operator after self.field").

Section blocks.
Context (parse_block : parsing (list Stmt)).

(** [else if] recurses without a block of its own. *)
Fixpoint parse_if_in (fuel : nat) : parsing Stmt :=
  match fuel with
  | O => exhausted
  | S fuel =>
      skip;; let! condition := parse_expr in let! then_body := parse_block in
      with next t =>
        if decide (t = TkElse) then
          skip;;
          with next t =>
            if decide (t = TkIf) then let! nested := parse_if_in fuel in pret (SIf condition then_body (Some [nested]))
            else let! else_body := parse_block in pret (SIf condition then_body (Some else_body))
        else pret (SIf condition then_body None)
  end.

Definition parse_if : parsing Stmt := fun p => parse_if_in (S (length (rest p))) p.

Definition parse_while : parsing Stmt :=
  skip;;
  with next t =>
    if decide (t = TkLParen)
    then skip;; let! condition := parse_expr in expect TkRParen;; let! body := parse_block in pret (SWhile condition body)
    else let! condition := parse_expr in let! body := parse_block in pret (SWhile condition body).

Definition parse_stmt : parsing Stmt :=
  with next t =>
    match t with
    | TkLet => parse_let
    | TkIf => parse_if
    | TkWhile => parse_while
    | TkReturn => parse_return
    | TkSelfKw => parse_self_assign_or_expr
    | TkIdent name =>
        if decide (name = "require"%string) then parse_require
        else if decide (name = "emit"%string) then parse_emit
        else parse_ident_stmt
    | _ => let! e := parse_expr in pret (SExpr e)
    end.

(** [while peek() != RBrace && peek() != Eof]. *)
Fixpoint statements (fuel : nat) (acc : list Stmt) : parsing (list Stmt) :=
  match fuel with
  | O => exhausted
  | S fuel =>
      with next t =>
        if decide (t = TkRBrace \/ t = TkEof) then pret acc
        else let! s := parse_stmt in statements fuel (acc ++ [s])
  end.
End blocks.

(** [self.stmt_depth += 1; ...; self.stmt_depth -= 1], with the guard. *)
Definition nested_stmt {A} (m : parsing A) : parsing A := fun p =>
  if (MAX_STMT_DEPTH <? S (stmt_depth p))%nat
  then Some (Err (Parse (line p) "block nesting depth exceeds maximum (64)"))
  else (let! a := m in fun p => Some (Ok (a, with_stmt_depth (pred (stmt_depth p)) p))) (with_stmt_depth (S (stmt_depth p)) p).

Fixpoint parse_block_in (fuel : nat) : parsing (list Stmt) :=
  match fuel with
  | O => exhausted
  | S fuel =>
      nested_stmt
        (expect TkLBrace;; let! l := (fun p => statements (parse_block_in fuel) (S (length (rest p))) [] p) in
         expect TkRBrace;; pret l)
  end.

Definition STMT_FUEL : nat := S (S MAX_STMT_DEPTH).

Definition parse_block : parsing (list Stmt) := parse_block_in STMT_FUEL.

(** ** Contracts *)

Fixpoint state_fields_until (fuel : nat) (acc : list StateField) : parsing (list StateField) :=
  match fuel with
  | O => exhausted
  | S fuel =>
      with next t =>
        if decide (t = TkRBrace) then pret acc
        else
          let! name := expect_ident in expect TkColon;; let! ty := parse_type in
          let! default := (with next t => if decide (t = TkAssign) then skip;; let! e := parse_expr in pret (Some e) else pret None) in
          state_fields_until fuel (acc ++ [{| fld_name := name; fld_ty := ty; fld_default := default |}])
  end.

Definition parse_state_block : parsing (list StateField) :=
  expect TkState;; expect TkLBrace;;
  let! fields := (fun p => state_fields_until (S (length (rest p))) [] p) in
  expect TkRBrace;; pret fields.

Fixpoint parameters_until (fuel : nat) (acc : list (string * ScriptType)) : parsing (list (string * ScriptType)) :=
  match fuel with
  | O => exhausted
  | S fuel =>
      with next t =>
        if decide (t = TkRParen) then pret acc
        else
          (if decide (acc = []) then pret tt else expect TkComma);;
          let! name := expect_ident in expect TkColon;; let! ty := parse_type in parameters_until fuel (acc ++ [(name, ty)])
  end.

Definition parse_function : parsing Function :=
  expect TkFn;; let! name := expect_ident in expect TkLParen;;
  let! params := (fun p => parameters_until (S (length (rest p))) [] p) in
  expect TkRParen;;
  let! return_type := (with next t => if decide (t = TkArrow) then skip;; let! ty := parse_type in pret (Some ty) else pret None) in
  let! body := parse_block in
  pret {| fn_name := name; fn_params := params; fn_return_type := return_type; fn_body := body |}.

Definition parse_hook (make : list Stmt -> LifecycleHook) : parsing LifecycleHook :=
  skip;; expect TkLParen;; expect TkRParen;; let! body := parse_block in pret (make body).

Fixpoint members (fuel : nat) (c : Contract) : parsing Contract :=
  match fuel with
  | O => exhausted
  | S fuel =>
      let hook make :=
        let! h := parse_hook make in
        members fuel {| c_name := c_name c; state_fields := state_fields c; functions := functions c;
                        lifecycle_hooks := lifecycle_hooks c ++ [h] |} in
      with next t =>
        match t with
        | TkRBrace | TkEof => pret c
        | TkState =>
            if decide (length (state_fields c) = 0%nat) then
              let! l := parse_state_block in
              members fuel {| c_name := c_name c; state_fields := l; functions := functions c; lifecycle_hooks := lifecycle_hooks c |}
            else fun _ => Some (Err (CompileError "duplicate state block — merge all fields into a single state {} block"))
        | TkFn =>
            let! f := parse_function in
            members fuel {| c_name := c_name c; state_fields := state_fields c; functions := functions c ++ [f];
                            lifecycle_hooks := lifecycle_hooks c |}
        | TkOnEvaporate => hook OnEvaporate
        | TkOnGrace => hook OnGrace
        | TkOnRefresh => hook OnRefresh
        | t => pfail ("expected state, fn, or lifecycle hook, got " +:+ token_debug t)
        end
  end.

Definition parse_contract : parsing Contract :=
  expect TkContract;; let! name := expect_ident in expect TkLBrace;;
  let! c := (fun p => members (S (length (rest p)))
                        {| c_name := name; state_fields := []; functions := []; lifecycle_hooks := [] |} p) in
  expect TkRBrace;; pret c.

Definition parser_new (tokens : list (Token * nat)) : Parser := mkParser tokens 0 0.

(** The public [parse]; the tokens after the contract are not looked at. *)
Definition parse_tokens (tokens : list (Token * nat)) : option (result Contract ScriptError) :=
  match parse_contract (parser_new tokens) with
  | Some (Ok (c, _)) => Some (Ok c)
  | Some (Err e) => Some (Err e)
  | None => None
  end.

Definition parse `{Unicode} (source : string) : option (result Contract ScriptError) :=
  match tokenize source with
  | Some (Ok tokens) => parse_tokens tokens
  | Some (Err e) => Some (Err e)
  | None => None
  end.
End grammar.
