(* ===== verification/ScriptParses.v ===== *)
(** * Every EvaporScript source parses to a contract or an error

    The fuel of the lexer and of the grammar (ScriptTokens.v, ScriptGrammar.v) is
    enough: [parse] is total.  [ends m Q p] says that [m] started at [p] does not
    run out and, if it succeeds, ends in [Q]; [after n p q] that [q] is what is left
    of [p] once at least [n] tokens are consumed, at the same depths. *)

From stdpp Require Import base gmap list strings pretty.
From Stdlib Require Import ZArith Lia.
From S2P Require Import Prelude Energy Trie ScriptValue ScriptVM ScriptCompiler ScriptTokens ScriptGrammar.

Open Scope Z_scope.

Definition ends {A} (m : parsing A) (Q : A -> Parser -> Prop) (p : Parser) : Prop :=
  match m p with Some (Ok (a, q)) => Q a q | Some (Err _) => True | None => False end.

Definition after (n : nat) (p q : Parser) : Prop :=
  (length (rest q) + n <= length (rest p))%nat /\ expr_depth q = expr_depth p /\ stmt_depth q = stmt_depth p.

(** [m] consumes a token when it succeeds, started at these depths. *)
Definition advances {A} (e s : nat) (m : parsing A) : Prop :=
  forall p, expr_depth p = e -> stmt_depth p = s -> ends m (fun _ q => after 1 p q) p.

Ltac after_lia := unfold after in *; lia.

(** ** Rules *)

Section rules.
Context {A B : Type}.

Lemma ends_mono (m : parsing A) (P Q : A -> Parser -> Prop) p : ends m P p -> (forall a q, P a q -> Q a q) -> ends m Q p.
Proof. unfold ends. destruct (m p) as [[[a q]|e]|]; auto. Qed.

Lemma ends_bind (m : parsing A) (f : A -> parsing B) Q p : ends m (fun a q => ends (f a) Q q) p -> ends (pbind m f) Q p.
Proof. unfold ends, pbind. by destruct (m p) as [[[a q]|e]|]. Qed.

Lemma ends_ret (a : A) (Q : A -> Parser -> Prop) p : Q a p -> ends (pret a) Q p.
Proof. done. Qed.

Lemma ends_fail message (Q : A -> Parser -> Prop) p : ends (pfail message) Q p.
Proof. done. Qed.

Lemma ends_fail_at n message (Q : A -> Parser -> Prop) p : ends (pfail_at n message) Q p.
Proof. done. Qed.

Lemma ends_advances e s (m : parsing A) (Q : A -> Parser -> Prop) p :
  advances e s m -> expr_depth p = e -> stmt_depth p = s -> (forall a q, after 1 p q -> Q a q) -> ends m Q p.
Proof. intros Hm He Hs HQ. eapply ends_mono; [by apply Hm|]. auto. Qed.
End rules.

Lemma advance_after p : after (if decide (peek p = TkEof) then 0 else 1) p (advance p).
Proof. unfold after, peek, advance. destruct p as [[|[t n] l] e s]; cbn; case_decide; first [lia|done]. Qed.

Lemma ends_skip (Q : unit -> Parser -> Prop) p : (forall q, after 0 p q -> Q tt q) -> ends skip Q p.
Proof. intros HQ. apply HQ. pose proof (advance_after p). case_decide; after_lia. Qed.

Lemma ends_skip_token (Q : unit -> Parser -> Prop) p : peek p <> TkEof -> (forall q, after 1 p q -> Q tt q) -> ends skip Q p.
Proof. intros Hp HQ. apply HQ. pose proof (advance_after p). case_decide; done. Qed.

Section tokens.
Context `{StrDebug}.

Lemma ends_expect t (Q : unit -> Parser -> Prop) p : t <> TkEof -> (forall q, after 1 p q -> Q tt q) -> ends (expect t) Q p.
Proof.
  intros Ht HQ. unfold ends, expect. pose proof (advance_after p) as Ha. destruct (decide (peek p = t)) as [E|]; [|done].
  apply HQ. rewrite E in Ha. by case_decide.
Qed.

Lemma ends_expect_ident (Q : string -> Parser -> Prop) p : (forall name q, after 1 p q -> Q name q) -> ends expect_ident Q p.
Proof.
  intros HQ. unfold ends, expect_ident. pose proof (advance_after p) as Ha. destruct (peek p) eqn:E; try done.
  apply HQ. by case_decide.
Qed.

(** A nested parser runs one level deeper, if the guard lets it. *)
Lemma ends_nested_expr {A} (m : parsing A) (Q : A -> Parser -> Prop) p :
  ((expr_depth p < MAX_EXPR_DEPTH)%nat -> advances (S (expr_depth p)) (stmt_depth p) m) ->
  (forall a q, after 1 p q -> Q a q) -> ends (nested_expr m) Q p.
Proof.
  intros Hm HQ. unfold ends, nested_expr. destruct (MAX_EXPR_DEPTH <? S (expr_depth p))%nat eqn:E; [done|]. apply Nat.ltb_ge in E.
  specialize (Hm ltac:(lia) (with_expr_depth (S (expr_depth p)) p) eq_refl eq_refl). unfold ends in Hm. unfold pbind.
  destruct (m _) as [[[a q]|e]|]; [|done|done]. apply HQ. unfold after in *. cbn in *. lia.
Qed.

Lemma ends_nested_stmt {A} (m : parsing A) (Q : A -> Parser -> Prop) p :
  ((stmt_depth p < MAX_STMT_DEPTH)%nat -> advances (expr_depth p) (S (stmt_depth p)) m) ->
  (forall a q, after 1 p q -> Q a q) -> ends (nested_stmt m) Q p.
Proof.
  intros Hm HQ. unfold ends, nested_stmt. destruct (MAX_STMT_DEPTH <? S (stmt_depth p))%nat eqn:E; [done|]. apply Nat.ltb_ge in E.
  specialize (Hm ltac:(lia) (with_stmt_depth (S (stmt_depth p)) p) eq_refl eq_refl). unfold ends in Hm. unfold pbind.
  destruct (m _) as [[[a q]|e]|]; [|done|done]. apply HQ. unfold after in *. cbn in *. lia.
Qed.
End tokens.

(** Walks a parser down to what its parts do. *)
Ltac run_step :=
  lazymatch goal with
  | |- ends (pbind _ _) _ _ => apply ends_bind
  | |- ends (pret _) _ _ => apply ends_ret
  | |- ends (pfail _) _ _ => apply ends_fail
  | |- ends (pfail_at _ _) _ _ => apply ends_fail_at
  | |- ends skip _ _ => first [apply ends_skip_token; [congruence|]|apply ends_skip]; intros ??
  | |- ends (expect _) _ _ => apply ends_expect; [done|]; intros ??
  | |- ends expect_ident _ _ => apply ends_expect_ident; intros ???
  | |- ends (fun p => @?b p) ?Q ?q =>
      let r := eval cbv beta in (b q) in
      lazymatch r with
      | ?m q => change (ends m Q q)
      | Some (Err _) => exact I
      end
  | |- ends (if decide _ then _ else _) _ _ => case_decide
  | |- ends (match ?t with _ => _ end) _ _ => destruct t eqn:?
  | |- after _ _ _ => after_lia
  end.
Ltac run := repeat run_step.

(** ** Expressions *)

Section total.
Context `{StrDebug}.

Section operand.
Context (e s : nat) (op_of : Token -> option BinOp) (operand : parsing Expr) (Hoperand : advances e s operand).

Lemma operators_end fuel left p :
  (length (rest p) < fuel)%nat -> expr_depth p = e -> stmt_depth p = s ->
  ends (operators fuel op_of operand left) (fun _ q => after 0 p q) p.
Proof.
  revert left p. induction fuel as [|fuel IH]; intros left p Hf He Hs; [lia|]. cbn [operators]. run.
  eapply ends_advances; [done|after_lia..|]. intros a q' Hq'. eapply ends_mono; [apply IH; after_lia|]. intros ???. after_lia.
Qed.

Lemma left_assoc_advances : advances e s (left_assoc op_of operand).
Proof.
  intros p He Hs. unfold left_assoc. run. eapply ends_advances; [done..|]. intros left q Hq. run.
  eapply ends_mono; [apply operators_end; after_lia|]. intros ???. after_lia.
Qed.

Lemma elements_until_end fuel close acc p :
  (length (rest p) < fuel)%nat -> expr_depth p = e -> stmt_depth p = s ->
  ends (elements_until fuel close operand acc) (fun _ q => after 0 p q) p.
Proof.
  revert acc p. induction fuel as [|fuel IH]; intros acc p Hf He Hs; [lia|]. cbn [elements_until]. run.
  all: eapply ends_advances; [done|after_lia..|]; intros a q' Hq'; eapply ends_mono; [apply IH; after_lia|]; intros ???; after_lia.
Qed.

Lemma parse_elements_advances close : close <> TkEof -> advances e s (parse_elements close operand).
Proof.
  intros Hc p He Hs. unfold parse_elements. run. eapply ends_mono; [apply elements_until_end; lia|]. intros l q Hq. run.
Qed.
End operand.

Lemma parse_or_advances e s m : advances e s m -> advances e s (parse_or m).
Proof. intros Hm. by repeat apply left_assoc_advances. Qed.

Lemma parse_primary_advances e s m : advances e s m -> advances e s (parse_primary m).
Proof.
  intros Hm p He Hs. unfold parse_primary. run.
  all: eapply ends_advances; [first [done|by apply parse_elements_advances]|after_lia..|]; intros; run.
Qed.

(** The depth guard stops the recursion before the fuel does. *)
Lemma parse_expr_in_advances fuel e s :
  (e <= MAX_EXPR_DEPTH)%nat -> (MAX_EXPR_DEPTH < fuel + e)%nat ->
  advances e s (parse_expr_in fuel) /\ advances e s (parse_unary_in fuel).
Proof.
  revert e. induction fuel as [|fuel IH]; intros e He Hf; [lia|]. split; intros p Ep Es; cbn [parse_expr_in parse_unary_in].
  - apply ends_nested_expr; [|by intros ???]. intros Hd. apply parse_or_advances. rewrite Ep, Es. apply IH; lia.
  - apply ends_nested_expr; [|by intros ???]. intros Hd q Eq Es'. rewrite Ep, Es in *.
    destruct (IH (S e)) as [IHe IHu]; [lia..|]. run.
    all: first [by eapply parse_primary_advances|eapply ends_advances; [done|after_lia..|]; intros; run].
Qed.

Lemma parse_expr_advances e s : (e <= MAX_EXPR_DEPTH)%nat -> advances e s parse_expr.
Proof. intros He. apply parse_expr_in_advances; [done|]. unfold EXPR_FUEL. lia. Qed.

(** ** Types *)

Lemma parse_type_in_end fuel p : (length (rest p) < fuel)%nat -> ends (parse_type_in fuel) (fun _ q => after 1 p q) p.
Proof.
  revert p. induction fuel as [|fuel IH]; intros p Hf; [lia|]. cbn [parse_type_in]. run.
  all: eapply ends_mono; [apply IH; after_lia|]; intros ???; run.
  eapply ends_mono; [apply IH; after_lia|]; intros ???; run.
Qed.

Lemma parse_type_advances e s : advances e s parse_type.
Proof. intros p _ _. unfold parse_type. run. apply parse_type_in_end. lia. Qed.

(** ** Statements *)

Lemma parse_expr_end p (Q : Expr -> Parser -> Prop) :
  expr_depth p = 0%nat -> (forall a q, after 1 p q -> Q a q) -> ends parse_expr Q p.
Proof. intros Ep. apply (ends_advances 0 (stmt_depth p)); [|done..]. apply parse_expr_advances. unfold MAX_EXPR_DEPTH. lia. Qed.

Lemma parse_type_end p (Q : ScriptType -> Parser -> Prop) : (forall a q, after 1 p q -> Q a q) -> ends parse_type Q p.
Proof. intros HQ. by eapply ends_advances; [apply parse_type_advances|reflexivity..|]. Qed.

Ltac parse_step :=
  first
    [ run_step
    | lazymatch goal with
      | |- ends parse_expr _ _ => apply parse_expr_end; [after_lia|]; intros ???
      | |- ends parse_type _ _ => apply parse_type_end; intros ???
      end ].
Ltac parse_run := repeat parse_step.

Lemma assignment_end target otherwise p (Q : Stmt -> Parser -> Prop) :
  expr_depth p = 0%nat -> (forall a q, after 0 p q -> Q a q) -> ends otherwise Q p -> ends (assignment target otherwise) Q p.
Proof. intros Ep HQ Ho. unfold assignment. parse_run; try done. all: apply HQ; after_lia. Qed.

Lemma more_arguments_end fuel acc p :
  (length (rest p) < fuel)%nat -> expr_depth p = 0%nat -> ends (more_arguments fuel acc) (fun _ q => after 0 p q) p.
Proof.
  revert acc p. induction fuel as [|fuel IH]; intros acc p Hf He; [lia|]. cbn [more_arguments]. parse_run.
  eapply ends_mono; [apply IH; after_lia|]. intros ???. after_lia.
Qed.

Lemma parse_arguments_end p : expr_depth p = 0%nat -> ends parse_arguments (fun _ q => after 0 p q) p.
Proof.
  intros Ep. unfold parse_arguments. parse_run. eapply ends_mono; [apply more_arguments_end; after_lia|]. intros ???. after_lia.
Qed.

Lemma parse_ident_stmt_advances s : advances 0 s parse_ident_stmt.
Proof.
  intros p Ep _. unfold parse_ident_stmt. parse_run.
  - apply assignment_end; [after_lia|intros; after_lia|]. parse_run.
  - apply assignment_end; [after_lia|intros; after_lia|]. parse_run.
    eapply ends_mono; [apply parse_arguments_end; after_lia|]. intros. parse_run.
Qed.

Lemma parse_self_advances s : advances 0 s parse_self_assign_or_expr.
Proof.
  intros p Ep _. unfold parse_self_assign_or_expr. parse_run.
  all: apply assignment_end; [after_lia|intros; after_lia|]; parse_run.
Qed.

Lemma parse_let_advances s : advances 0 s parse_let.
Proof. intros p Ep _. unfold parse_let. parse_run. Qed.

Lemma parse_require_advances s : advances 0 s parse_require.
Proof. intros p Ep _. unfold parse_require. parse_run. Qed.

Lemma parse_emit_advances s : advances 0 s parse_emit.
Proof. intros p Ep _. unfold parse_emit. parse_run. Qed.

Lemma parse_return_end p : expr_depth p = 0%nat -> peek p <> TkEof -> ends parse_return (fun _ q => after 1 p q) p.
Proof. intros Ep Hp. unfold parse_return. parse_run. Qed.

Section block.
Context (s : nat) (parse_block : parsing (list Stmt)) (Hblock : advances 0 s parse_block).

Lemma parse_if_in_end fuel p :
  (length (rest p) < fuel)%nat -> expr_depth p = 0%nat -> stmt_depth p = s ->
  ends (parse_if_in parse_block fuel) (fun _ q => after 1 p q) p.
Proof.
  revert p. induction fuel as [|fuel IH]; intros p Hf Ep Es; [lia|]. cbn [parse_if_in]. parse_run.
  eapply ends_advances; [done|after_lia..|]. intros. parse_run.
  - eapply ends_mono; [apply IH; after_lia|]. intros. parse_run.
  - eapply ends_advances; [done|after_lia..|]. intros. parse_run.
Qed.

Lemma parse_while_advances : advances 0 s (parse_while parse_block).
Proof.
  intros p Ep Es. unfold parse_while. parse_run.
  all: eapply ends_advances; [done|after_lia..|]; intros; parse_run.
Qed.

Lemma parse_stmt_advances p :
  expr_depth p = 0%nat -> stmt_depth p = s -> peek p <> TkEof -> ends (parse_stmt parse_block) (fun _ q => after 1 p q) p.
Proof.
  intros Ep Es Hp. unfold parse_stmt. run_step. destruct (peek p) eqn:E; try done; parse_run.
  - by apply (parse_let_advances s).
  - unfold parse_if. run. apply parse_if_in_end; lia || done.
  - by apply parse_while_advances.
  - apply parse_return_end; congruence.
  - by apply (parse_self_advances s).
  - by apply (parse_require_advances s).
  - by apply (parse_emit_advances s).
  - by apply (parse_ident_stmt_advances s).
Qed.

Lemma statements_end fuel acc p :
  (length (rest p) < fuel)%nat -> expr_depth p = 0%nat -> stmt_depth p = s ->
  ends (statements parse_block fuel acc) (fun _ q => after 0 p q) p.
Proof.
  revert acc p. induction fuel as [|fuel IH]; intros acc p Hf Ep Es; [lia|]. cbn [statements]. run_step. case_decide; run.
  eapply ends_mono; [apply parse_stmt_advances; [done..|naive_solver]|]. intros.
  eapply ends_mono; [apply IH; after_lia|]. intros. cbv beta in *. after_lia.
Qed.
End block.

Lemma parse_block_in_advances fuel s :
  (s <= MAX_STMT_DEPTH)%nat -> (MAX_STMT_DEPTH < fuel + s)%nat -> advances 0 s (parse_block_in fuel).
Proof.
  revert s. induction fuel as [|fuel IH]; intros s Hs Hf; [lia|]. intros p Ep Es. cbn [parse_block_in].
  apply ends_nested_stmt; [|by intros ???]. intros Hd q Eq Es'. parse_run.
  eapply ends_mono; [apply (statements_end (S s)); [apply IH; after_lia|after_lia..]|]. intros. cbv beta in *. parse_run.
Qed.

Lemma parse_block_advances : advances 0 0 parse_block.
Proof. apply parse_block_in_advances; unfold STMT_FUEL; unfold MAX_STMT_DEPTH; lia. Qed.

(** ** Contracts *)

Lemma parse_block_end p (Q : list Stmt -> Parser -> Prop) :
  expr_depth p = 0%nat -> stmt_depth p = 0%nat -> (forall a q, after 1 p q -> Q a q) -> ends parse_block Q p.
Proof. apply ends_advances, parse_block_advances. Qed.

Lemma state_fields_end fuel acc p :
  (length (rest p) < fuel)%nat -> expr_depth p = 0%nat -> ends (state_fields_until fuel acc) (fun _ q => after 0 p q) p.
Proof.
  revert acc p. induction fuel as [|fuel IH]; intros acc p Hf Ep; [lia|]. cbn [state_fields_until]. parse_run.
  all: eapply ends_mono; [apply IH; after_lia|]; intros; cbv beta in *; after_lia.
Qed.

Lemma parse_state_block_advances s : advances 0 s parse_state_block.
Proof.
  intros p Ep _. unfold parse_state_block. parse_run. eapply ends_mono; [apply state_fields_end; after_lia|]. intros. cbv beta in *. parse_run.
Qed.

Lemma parameters_end fuel acc p : (length (rest p) < fuel)%nat -> ends (parameters_until fuel acc) (fun _ q => after 0 p q) p.
Proof.
  revert acc p. induction fuel as [|fuel IH]; intros acc p Hf; [lia|]. cbn [parameters_until]. parse_run.
  all: eapply ends_mono; [apply IH; after_lia|]; intros; cbv beta in *; after_lia.
Qed.

Lemma parse_function_advances : advances 0 0 parse_function.
Proof.
  intros p Ep Es. unfold parse_function. parse_run. eapply ends_mono; [apply parameters_end; after_lia|]. intros. cbv beta in *. parse_run.
  all: apply parse_block_end; [after_lia..|]; intros; parse_run.
Qed.

Lemma parse_hook_advances make : advances 0 0 (parse_hook make).
Proof. intros p Ep Es. unfold parse_hook. parse_run. apply parse_block_end; [after_lia..|]. intros. parse_run. Qed.

Lemma members_end fuel c p :
  (length (rest p) < fuel)%nat -> expr_depth p = 0%nat -> stmt_depth p = 0%nat ->
  ends (members fuel c) (fun _ q => after 0 p q) p.
Proof.
  revert c p. induction fuel as [|fuel IH]; intros c p Hf Ep Es; [lia|]. cbn [members]. run.
  all: eapply ends_advances;
    [first [apply (parse_state_block_advances 0)|apply parse_function_advances|apply parse_hook_advances]|done..|].
  all: intros; eapply ends_mono; [apply IH; after_lia|]; intros; cbv beta in *; after_lia.
Qed.

Lemma parse_contract_end tokens : ends parse_contract (fun _ _ => True) (parser_new tokens).
Proof.
  unfold parse_contract. parse_run. eapply ends_mono; [apply members_end; unfold after, parser_new in *; cbn in *; lia|].
  intros. parse_run. done.
Qed.
End total.


(** ** What a parse promises

    Every literal of the tree is a value of its type: the hypothesis of the compiler's and
    the engine's theorems. *)

Definition token_wf (t : Token) : Prop := match t with TkIntLit n => is_u64 n | _ => True end.

Definition tokens_wf (p : Parser) : Prop := Forall (fun t => token_wf t.1) (rest p).

(** [m] turns good tokens into a good result. *)
Definition gives {A} (Q : A -> Prop) (m : parsing A) : Prop :=
  forall p, tokens_wf p -> match m p with Some (Ok (a, q)) => Q a /\ tokens_wf q | _ => True end.

Section gives.
Context {A B : Type}.

Lemma gives_bind P Q (m : parsing A) (f : A -> parsing B) : gives P m -> (forall a, P a -> gives Q (f a)) -> gives Q (pbind m f).
Proof.
  intros Hm Hf p Hp. specialize (Hm p Hp). unfold pbind. destruct (m p) as [[[a q]|e]|]; [|done..]. destruct Hm as [Ha Hq]. by apply Hf.
Qed.

Lemma gives_ret (Q : A -> Prop) a : Q a -> gives Q (pret a).
Proof. by intros Ha p Hp. Qed.

Lemma gives_fail (Q : A -> Prop) message : gives Q (pfail message). Proof. done. Qed.
Lemma gives_fail_at (Q : A -> Prop) n message : gives Q (pfail_at n message). Proof. done. Qed.
Lemma gives_exhausted (Q : A -> Prop) : gives Q exhausted. Proof. done. Qed.
Lemma gives_error (Q : A -> Prop) e : gives Q (fun _ => Some (Err e)). Proof. done. Qed.

Lemma peek_wf p : tokens_wf p -> token_wf (peek p).
Proof. unfold tokens_wf, peek. destruct (rest p) as [|[t n] l]; [done|]. by intros ?%Forall_inv. Qed.

Lemma gives_next (Q : A -> Prop) (k : Token -> parsing A) : (forall t, token_wf t -> gives Q (k t)) -> gives Q (fun p => k (peek p) p).
Proof. intros Hk p Hp. by apply Hk; [apply peek_wf|]. Qed.

(** Over the rest of the parser: fuel that depends on it, say. *)
Lemma gives_over (Q : A -> Prop) (k : Parser -> parsing A) : (forall p, tokens_wf p -> gives Q (k p)) -> gives Q (fun p => k p p).
Proof. intros Hk p Hp. by apply Hk. Qed.

Lemma gives_mono (P Q : A -> Prop) m : gives P m -> (forall a, P a -> Q a) -> gives Q m.
Proof. intros Hm HPQ p Hp. specialize (Hm p Hp). destruct (m p) as [[[a q]|e]|]; naive_solver. Qed.
End gives.

Lemma advance_wf p : tokens_wf p -> tokens_wf (advance p).
Proof. unfold tokens_wf, advance. cbn. destruct (rest p); [done|]. by intros ?%Forall_inv_tail. Qed.

Lemma gives_skip : gives (fun _ => True) skip.
Proof. intros p Hp. split; [done|by apply advance_wf]. Qed.

Section gives_tokens.
Context `{StrDebug}.

Lemma gives_expect t : gives (fun _ => True) (expect t).
Proof. intros p Hp. unfold expect. case_decide; [split; [done|by apply advance_wf]|done]. Qed.

Lemma gives_expect_ident : gives (fun _ => True) expect_ident.
Proof. intros p Hp. unfold expect_ident. destruct (peek p); try done. split; [done|by apply advance_wf]. Qed.

Lemma gives_nested_expr {A} (Q : A -> Prop) m : gives Q m -> gives Q (nested_expr m).
Proof.
  intros Hm p Hp. unfold nested_expr. destruct (_ <? _)%nat; [done|]. unfold pbind.
  specialize (Hm (with_expr_depth (S (expr_depth p)) p) Hp). destruct (m _) as [[[a q]|e]|]; [|done..]. exact Hm.
Qed.

Lemma gives_nested_stmt {A} (Q : A -> Prop) m : gives Q m -> gives Q (nested_stmt m).
Proof.
  intros Hm p Hp. unfold nested_stmt. destruct (_ <? _)%nat; [done|]. unfold pbind.
  specialize (Hm (with_stmt_depth (S (stmt_depth p)) p) Hp). destruct (m _) as [[[a q]|e]|]; [|done..]. exact Hm.
Qed.
End gives_tokens.

Ltac yield_step :=
  lazymatch goal with
  | |- gives _ (pbind skip _) => eapply gives_bind; [apply gives_skip|intros ? _]
  | |- gives _ (pbind (expect _) _) => eapply gives_bind; [apply gives_expect|intros ? _]
  | |- gives _ (pbind expect_ident _) => eapply gives_bind; [apply gives_expect_ident|intros ? _]
  | |- gives _ (pret _) => apply gives_ret
  | |- gives _ (pfail _) => apply gives_fail
  | |- gives _ (pfail_at _ _) => apply gives_fail_at
  | |- gives _ exhausted => apply gives_exhausted
  | |- gives _ (nested_expr _) => apply gives_nested_expr
  | |- gives _ (nested_stmt _) => apply gives_nested_stmt
  | |- gives _ (fun _ => Some (Err _)) => apply gives_error
  | |- gives ?Q (fun p => @?b p) =>
      let p := fresh "p" in let Hp := fresh "Hp" in
      intros p Hp; pose proof (peek_wf p Hp);
      let r := eval cbv beta in (b p) in
      lazymatch r with ?m p => apply (fun Hm : gives Q m => Hm p Hp) end
  | |- gives _ (if decide _ then _ else _) => case_decide
  | |- gives _ (match ?t with _ => _ end) => destruct t eqn:?
  end.
Ltac yield := repeat yield_step.

Section good.
Context `{StrDebug}.

Lemma operators_good fuel op_of operand left :
  gives expr_wf operand -> expr_wf left -> gives expr_wf (operators fuel op_of operand left).
Proof.
  intros Ho. revert left. induction fuel as [|fuel IH]; intros left Hl; cbn [operators]; yield; [|done].
  eapply gives_bind; [done|]. intros right Hr. by apply IH.
Qed.

Lemma left_assoc_good op_of operand : gives expr_wf operand -> gives expr_wf (left_assoc op_of operand).
Proof. intros Ho. unfold left_assoc. eapply gives_bind; [done|]. intros left Hl. yield. by apply operators_good. Qed.

Lemma parse_or_good m : gives expr_wf m -> gives expr_wf (parse_or m).
Proof. intros Hm. by repeat apply left_assoc_good. Qed.

Definition exprs_wf (l : list Expr) : Prop := foldr (fun e P => expr_wf e /\ P) True l.

Lemma exprs_wf_app l e : exprs_wf l -> expr_wf e -> exprs_wf (l ++ [e]).
Proof. unfold exprs_wf. induction l as [|x l IH]; cbn; [done|]. naive_solver. Qed.

Lemma elements_good fuel close element acc :
  gives expr_wf element -> exprs_wf acc -> gives exprs_wf (elements_until fuel close element acc).
Proof.
  intros He. revert acc. induction fuel as [|fuel IH]; intros acc Ha; cbn [elements_until]; yield; [done|].
  eapply gives_bind with (P := fun _ => True); [case_decide; yield; done || apply gives_expect|intros ? _].
  eapply gives_bind; [done|]. intros e Hwe. by apply IH, exprs_wf_app.
Qed.

Lemma parse_elements_good close element : gives expr_wf element -> gives exprs_wf (parse_elements close element).
Proof.
  intros He. unfold parse_elements. eapply gives_bind with (P := exprs_wf); [yield; by apply elements_good|]. intros l Hl. by yield.
Qed.

Lemma parse_primary_good m : gives expr_wf m -> gives expr_wf (parse_primary m).
Proof.
  intros Hm. unfold parse_primary. yield; try done; try by constructor.
  all: first [eapply gives_bind; [by apply parse_elements_good|]|eapply gives_bind; [exact Hm|]]; intros ? ?; by yield.
Qed.

Lemma parse_expr_in_good fuel : gives expr_wf (parse_expr_in fuel) /\ gives expr_wf (parse_unary_in fuel).
Proof.
  induction fuel as [|fuel (IHe & IHu)]; [done|]. cbn [parse_expr_in parse_unary_in]. split.
  - apply gives_nested_expr. by apply parse_or_good.
  - yield; try (by apply parse_primary_good). all: eapply gives_bind; [exact IHu|]; intros ? ?; by yield.
Qed.

Lemma parse_expr_good : gives expr_wf parse_expr.
Proof. apply parse_expr_in_good. Qed.

Lemma parse_type_in_good fuel : gives (fun _ => True) (parse_type_in fuel).
Proof.
  induction fuel as [|fuel IH]; [done|]. cbn [parse_type_in]. yield; try done.
  all: eapply gives_bind; [exact IH|]; intros ? _; yield; try done.
  eapply gives_bind; [exact IH|]; intros ? _; by yield.
Qed.

Lemma parse_type_good : gives (fun _ => True) parse_type.
Proof. unfold parse_type. yield. apply parse_type_in_good. Qed.

Ltac good_step :=
  first
    [ yield_step
    | lazymatch goal with
      | |- gives _ (pbind parse_expr _) => eapply gives_bind; [apply parse_expr_good|intros ? ?]
      | |- gives _ (pbind parse_type _) => eapply gives_bind; [apply parse_type_good|intros ? _]
      end ].
Ltac good := repeat good_step.

Lemma assignment_good target otherwise :
  target_wf target -> gives stmt_wf otherwise -> gives stmt_wf (assignment target otherwise).
Proof. intros Ht Ho. unfold assignment. good; done. Qed.

Lemma more_arguments_good fuel acc : exprs_wf acc -> gives exprs_wf (more_arguments fuel acc).
Proof. revert acc. induction fuel as [|fuel IH]; intros acc Ha; cbn [more_arguments]; good; [|done]. by apply IH, exprs_wf_app. Qed.

Lemma parse_arguments_good : gives exprs_wf parse_arguments.
Proof. unfold parse_arguments. good; [done|]. by apply more_arguments_good. Qed.

Lemma parse_ident_stmt_good : gives stmt_wf parse_ident_stmt.
Proof.
  unfold parse_ident_stmt. good.
  - apply assignment_good; [done|]. by good.
  - apply assignment_good; [done|]. good; [|done]. eapply gives_bind; [apply parse_arguments_good|]. intros ? ?. by good.
Qed.

Lemma parse_self_good : gives stmt_wf parse_self_assign_or_expr.
Proof. unfold parse_self_assign_or_expr. good; apply assignment_good; done. Qed.

Lemma parse_let_good : gives stmt_wf parse_let.
Proof. unfold parse_let. good. eapply gives_bind with (P := fun _ => True); [by good|]. intros ? _. by good. Qed.

Section block_good.
Context (block : parsing (list Stmt)) (Hblock : gives body_wf block).

Lemma parse_if_in_good fuel : gives stmt_wf (parse_if_in block fuel).
Proof.
  induction fuel as [|fuel IH]; [done|]. cbn [parse_if_in]. good. eapply gives_bind; [exact Hblock|]. intros ? ?. good; [| |done].
  - eapply gives_bind; [exact IH|]. intros ? ?. good. done.
  - eapply gives_bind; [exact Hblock|]. intros ? ?. by good.
Qed.

Lemma parse_while_good : gives stmt_wf (parse_while block).
Proof. unfold parse_while. good; (eapply gives_bind; [exact Hblock|]; intros ? ?; by good). Qed.

Lemma parse_stmt_good : gives stmt_wf (parse_stmt block).
Proof.
  unfold parse_stmt. yield_step.
  match goal with |- context [peek ?q] => destruct (peek q) end; try (good; done).
  - apply parse_let_good.
  - unfold parse_if. yield_step. apply parse_if_in_good.
  - apply parse_while_good.
  - unfold parse_return. by good.
  - apply parse_self_good.
  - case_decide; [unfold parse_require; by good|]. case_decide; [unfold parse_emit; by good|]. apply parse_ident_stmt_good.
Qed.

Lemma body_wf_app l s : body_wf l -> stmt_wf s -> body_wf (l ++ [s]).
Proof. unfold body_wf. induction l as [|x l IH]; cbn; [done|]. naive_solver. Qed.

Lemma statements_good fuel acc : body_wf acc -> gives body_wf (statements block fuel acc).
Proof.
  revert acc. induction fuel as [|fuel IH]; intros acc Ha; cbn [statements]; good; [done|].
  eapply gives_bind; [apply parse_stmt_good|]. intros s Hs. by apply IH, body_wf_app.
Qed.
End block_good.

Lemma parse_block_in_good fuel : gives body_wf (parse_block_in fuel).
Proof.
  induction fuel as [|fuel IH]; [done|]. cbn [parse_block_in]. good. eapply gives_bind with (P := body_wf); [|intros ? ?; by good].
  yield_step. by apply statements_good.
Qed.

Lemma parse_block_good : gives body_wf parse_block.
Proof. apply parse_block_in_good. Qed.

Definition field_wf (f : StateField) : Prop := forall e, fld_default f = Some e -> expr_wf e.

Lemma state_fields_good fuel acc : Forall field_wf acc -> gives (Forall field_wf) (state_fields_until fuel acc).
Proof.
  revert acc. induction fuel as [|fuel IH]; intros acc Ha; cbn [state_fields_until]; good; [done|].
  eapply gives_bind with (P := fun o => forall e, o = Some e -> expr_wf e).
  - good; [by intros ? [= <-]|done].
  - intros o Ho. apply IH, Forall_app_2; [done|]. by repeat constructor.
Qed.

Lemma parse_state_block_good : gives (Forall field_wf) parse_state_block.
Proof.
  unfold parse_state_block. good. eapply gives_bind with (P := Forall field_wf); [yield_step; by apply state_fields_good|]. intros ? ?. by good.
Qed.

Lemma parameters_good fuel acc : gives (fun _ => True) (parameters_until fuel acc).
Proof.
  revert acc. induction fuel as [|fuel IH]; intros acc; cbn [parameters_until]; good; [done|].
  eapply gives_bind with (P := fun _ => True); [case_decide; yield; done || apply gives_expect|intros ? _]. good. apply IH.
Qed.

Lemma parse_function_good : gives (fun f => body_wf (fn_body f)) parse_function.
Proof.
  unfold parse_function. good. eapply gives_bind with (P := fun _ => True); [yield_step; apply parameters_good|intros ? _]. good.
  eapply gives_bind with (P := fun _ => True); [by good|intros ? _]. eapply gives_bind; [apply parse_block_good|]. intros ? ?. by good.
Qed.

Lemma parse_hook_good make : (forall l, hook_body (make l) = l) -> gives (fun h => body_wf (hook_body h)) (parse_hook make).
Proof.
  intros Hm. unfold parse_hook. good. eapply gives_bind; [apply parse_block_good|]. intros ? ?. good. by rewrite Hm.
Qed.

Definition contract_good (c : Contract) : Prop :=
  Forall field_wf (state_fields c) /\ Forall (fun f => body_wf (fn_body f)) (functions c) /\
  Forall (fun h => body_wf (hook_body h)) (lifecycle_hooks c).

Lemma members_good fuel c : contract_good c -> gives contract_good (members fuel c).
Proof.
  revert c. induction fuel as [|fuel IH]; intros c (Hs & Hf & Hh); cbn [members]; yield; try done.
  all: eapply gives_bind;
    [first [apply parse_state_block_good|apply parse_function_good|by apply parse_hook_good]|]; intros ? ?; apply IH.
  all: unfold contract_good; split_and!; cbn [state_fields functions lifecycle_hooks];
    first [done|apply Forall_app_2; [done|by repeat constructor]].
Qed.

Lemma parse_contract_good : gives contract_good parse_contract.
Proof.
  unfold parse_contract. good. eapply gives_bind with (P := contract_good); [yield_step; by apply members_good|]. intros ? ?. by good.
Qed.

Lemma contract_good_wf c : contract_good c -> contract_wf c.
Proof.
  intros (Hs & Hf & Hh). rewrite !Forall_forall in *. split; [|intros f e Hin; by apply Hs].
  intros name body [(f & [= -> ->] & Hin)%list_elem_of_fmap|(h & [= -> ->] & Hin)%list_elem_of_fmap]%elem_of_app; [by apply Hf|by apply Hh].
Qed.
End good.

Section good_source.
Context `{StrDebug, Unicode}.

Lemma digits_value_nonneg l : Forall (fun c => is_ascii_digit c = true) l -> 0 <= digits_value l.
Proof.
  intros Hl. unfold digits_value. assert (Hi : forall n, 0 <= n -> 0 <= foldl (fun n c => n * 10 + (c - 48)) n l); [|by apply Hi].
  induction Hl as [|c l Hc _ IH]; intros n Hn; [done|]. cbn [foldl]. apply IH. unfold is_ascii_digit in Hc.
  apply andb_true_iff in Hc as (Hc%Z.leb_le & _). lia.
Qed.

Lemma operator_no_literal c l line t r : operator c l line = Ok (t, r) -> token_wf t.
Proof.
  assert (Hc : forall o t', Forall (fun o => token_wf o.2) o -> token_wf t' -> token_wf (choose l o t').1).
  { intros o t' Ho Ht'. unfold choose. destruct l as [|d l']; [done|]. destruct (List.find _ o) as [x|] eqn:E; [|done].
    apply List.find_some in E as (E & _). rewrite Forall_forall in Ho. by apply Ho, list_elem_of_In. }
  unfold operator. intros E.
  repeat (destruct (c =? _);
    [lazymatch type of E with
     | Ok (choose _ ?o ?t') = _ => pose proof (Hc o t' ltac:(repeat constructor) I) as Hw; injection E as E; by rewrite E in Hw
     | Ok (_, _) = _ => injection E as <- _; exact I
     | _ => destruct (following _ l); [injection E as <- _; exact I|done]
     end|]).
  done.
Qed.

Lemma next_token_wf x t line x' : next_token x = Ok (t, line, x') -> token_wf t.
Proof.
  unfold next_token. destruct (skip_whitespace_and_comments _ _ _) as [[|c l] n]; cbn [lx_chars lx_line]; [by intros [= <- <- <-]|].
  destruct (is_alphabetic c || (c =? 95)).
  { destruct (span ident_char (c :: l)) as [a b]. intros [= <- <- <-]. unfold keyword.
    repeat case_match; done. }
  destruct (is_ascii_digit c).
  { unfold read_number. pose proof (span_split is_ascii_digit (c :: l)) as Hs. destruct (span is_ascii_digit (c :: l)) as [a b]. destruct Hs as (_ & Ha & _).
    destruct (Z.leb_spec (digits_value a) U64_MAX); [|done]. intros [= <- <- <-]. split; [by apply digits_value_nonneg|done]. }
  destruct (c =? 34); [destruct (read_string l n []) as [[s y]|]; [|done]; by intros [= <- <- <-]|].
  destruct (operator c l n) as [[t' r]|] eqn:E; [|done]. intros [= <- <- <-]. by eapply operator_no_literal.
Qed.

Lemma tokenize_from_wf fuel x count l : tokenize_from fuel x count = Some (Ok l) -> Forall (fun t => token_wf t.1) l.
Proof.
  revert x count l. induction fuel as [|fuel IH]; intros x count l E; [done|]. cbn [tokenize_from] in E.
  destruct (next_token x) as [[[t line] x']|] eqn:En; [|done]. apply next_token_wf in En. destruct (_ <? _); [done|].
  case_decide; [injection E as <-; by repeat constructor|]. destruct (tokenize_from fuel x' (count + 1)) as [[l'|]|] eqn:Er; [|done..].
  injection E as <-. constructor; [done|by eapply IH].
Qed.

(** Every literal of a parsed contract is a value of its type. *)
Lemma parse_contract_wf source c : parse source = Some (Ok c) -> contract_wf c.
Proof.
  unfold parse, tokenize. destruct (too_large source); [done|].
  destruct (tokenize_chars (chars source)) as [[tokens|]|] eqn:Et; [|done..]. intros E. apply contract_good_wf. unfold parse_tokens in E.
  pose proof (parse_contract_good (parser_new tokens) (tokenize_from_wf _ _ _ _ Et)) as Hg.
  destruct (parse_contract _) as [[[c' q]|]|]; [|done..]. injection E as ->. apply Hg.
Qed.
End good_source.
