(* ===== verification/ScriptPrinter.v ===== *)
(** * Printing EvaporScript

    A printer for the syntax tree and the proof that the parser of ScriptGrammar.v
    reads back what it writes.  The printer puts in parentheses only what the
    precedence of the grammar asks for.  The repository has no printer: this one is
    the specification of the grammar, one clause per construct. *)

From stdpp Require Import base gmap list strings pretty.
From Stdlib Require Import ZArith Lia.
From S2P Require Import Prelude Energy Trie ScriptValue ScriptVM ScriptCompiler ScriptTokens ScriptGrammar.

Open Scope Z_scope.

(** ** Expressions *)

(** The precedence of an operator, from [||] up. *)
Definition level_of (op : BinOp) : nat :=
  match op with
  | BOr => 0 | BAnd => 1 | BEq | BNeq => 2 | BGt | BLt | BGte | BLte => 3 | BShl | BShr => 4 | BAdd | BSub => 5
  | BMul | BDiv | BMod => 6
  end.

Definition binop_token (op : BinOp) : Token :=
  match op with
  | BAdd => TkPlus | BSub => TkMinus | BMul => TkStar | BDiv => TkSlash | BMod => TkPercent | BEq => TkEqEq | BNeq => TkNeq
  | BGt => TkGt | BLt => TkLt | BGte => TkGte | BLte => TkLte | BAnd => TkAnd | BOr => TkOr | BShl => TkShl | BShr => TkShr
  end.

Definition unop_token (op : UnaryOp) : Token := match op with UNot => TkNot | UNeg => TkMinus end.

Definition print_literal (v : Value) : list Token :=
  match v with
  | U64 n => [TkIntLit n] | Str s => [TkStrLit s] | VBool true => [TkTrue] | VBool false => [TkFalse]
  | _ => []
  end.

Definition commas (l : list (list Token)) : list Token :=
  match l with [] => [] | x :: l => x ++ concat (cons TkComma <$> l) end.

(** Operands of a binary operator are printed at its level, the right one a level up. *)
Fixpoint print_expr (level : nat) (e : Expr) : list Token :=
  match e with
  | Literal v => print_literal v
  | Var name => [TkIdent name]
  | StateAccess f => [TkSelfKw; TkDot; TkIdent f]
  | MapAccess f k => [TkSelfKw; TkDot; TkIdent f; TkLBracket] ++ print_expr 0 k ++ [TkRBracket]
  | BinaryOp l op r =>
      let body := print_expr (level_of op) l ++ binop_token op :: print_expr (S (level_of op)) r in
      if (level <=? level_of op)%nat then body else TkLParen :: body ++ [TkRParen]
  | Unary op e => unop_token op :: print_expr 7 e
  | FunctionCall f args => [TkIdent f; TkLParen] ++ commas (print_expr 0 <$> args) ++ [TkRParen]
  | ArrayLiteral l => [TkLBracket] ++ commas (print_expr 0 <$> l) ++ [TkRBracket]
  | ArrayAccess a i => print_expr 7 a ++ [TkLBracket] ++ print_expr 0 i ++ [TkRBracket]
  end.

(** What the grammar has: literals of three kinds, and only a variable is indexed. *)
Definition wf_literal (v : Value) : bool :=
  match v with U64 n => (0 <=? n) && (n <=? U64_MAX) | Str _ | VBool _ => true | _ => false end.

Fixpoint wf_expr (e : Expr) : bool :=
  match e with
  | Literal v => wf_literal v
  | Var _ | StateAccess _ => true
  | MapAccess _ k => wf_expr k
  | BinaryOp l _ r => wf_expr l && wf_expr r
  | Unary _ e => wf_expr e
  | FunctionCall _ l | ArrayLiteral l => forallb wf_expr l
  | ArrayAccess a i => match a with Var _ => wf_expr i | _ => false end
  end.

(** How deep the parser nests, on the way down from a level. *)
Fixpoint nesting (level : nat) (e : Expr) : nat :=
  match e with
  | Literal _ | Var _ | StateAccess _ => 1
  | MapAccess _ k => S (S (nesting 0 k))
  | BinaryOp l op r =>
      let n := Nat.max (nesting (level_of op) l) (nesting (S (level_of op)) r) in
      if (level <=? level_of op)%nat then n else S (S n)
  | Unary _ e => S (nesting 7 e)
  | FunctionCall _ l | ArrayLiteral l => S (list_max ((fun e => S (nesting 0 e)) <$> l))
  | ArrayAccess _ i => S (S (nesting 0 i))
  end.

(** All on one line. *)
Definition lined (l : list Token) : list (Token * nat) := (fun t => (t, 1%nat)) <$> l.

Lemma lined_app l1 l2 : lined (l1 ++ l2) = lined l1 ++ lined l2.
Proof. apply fmap_app. Qed.

Lemma lined_cons t l : lined (t :: l) = (t, 1%nat) :: lined l.
Proof. done. Qed.

(** Spreads out the tokens of a printed construct. *)
Ltac spread := repeat (progress (cbn [app]; rewrite ?lined_app, ?lined_cons, <- ?app_assoc)); change (lined []) with (@nil (Token * nat)); cbn [app].

(** ** Runs of the parser *)

Definition runs {A} (m : parsing A) (p : Parser) (a : A) (q : Parser) : Prop := m p = Some (Ok (a, q)).

Section rules.
Context `{StrDebug}.

Lemma runs_bind {A B} (m : parsing A) (f : A -> parsing B) p a q b r : runs m p a q -> runs (f a) q b r -> runs (pbind m f) p b r.
Proof. unfold runs, pbind. by intros -> ->. Qed.

Lemma runs_ret {A} (a : A) p : runs (pret a) p a p.
Proof. done. Qed.

Lemma runs_skip x l d s : runs skip (mkParser (x :: l) d s) tt (mkParser l d s).
Proof. done. Qed.

Lemma runs_expect t n l d s : runs (expect t) (mkParser ((t, n) :: l) d s) tt (mkParser l d s).
Proof. unfold runs, expect. cbn. by rewrite decide_True. Qed.

Lemma runs_expect_ident x n l d s : runs expect_ident (mkParser ((TkIdent x, n) :: l) d s) x (mkParser l d s).
Proof. done. Qed.

Lemma runs_nested_expr {A} (m : parsing A) l a l' d s :
  (d < MAX_EXPR_DEPTH)%nat -> runs m (mkParser l (S d) s) a (mkParser l' (S d) s) ->
  runs (nested_expr m) (mkParser l d s) a (mkParser l' d s).
Proof.
  intros Hd Hm. unfold runs, nested_expr. rewrite (proj2 (Nat.ltb_ge _ _)) by (cbn; lia).
  eapply runs_bind; [exact Hm|]. done.
Qed.

Lemma runs_nested_stmt {A} (m : parsing A) l a l' d s :
  (s < MAX_STMT_DEPTH)%nat -> runs m (mkParser l d (S s)) a (mkParser l' d (S s)) ->
  runs (nested_stmt m) (mkParser l d s) a (mkParser l' d s).
Proof.
  intros Hd Hm. unfold runs, nested_stmt. rewrite (proj2 (Nat.ltb_ge _ _)) by (cbn; lia).
  eapply runs_bind; [exact Hm|]. done.
Qed.
End rules.

Lemma peek_cons t n l d s : peek (mkParser ((t, n) :: l) d s) = t.
Proof. done. Qed.

(** Replays a parser on tokens whose head is known. *)
Ltac play_step :=
  lazymatch goal with
  | |- runs (pbind _ _) _ _ _ => eapply runs_bind
  | |- runs (pret _) _ _ _ => apply runs_ret
  | |- runs skip _ _ _ => apply runs_skip
  | |- runs (expect _) _ _ _ => apply runs_expect
  | |- runs expect_ident _ _ _ => apply runs_expect_ident
  | |- runs (if decide ?P then ?x else _) ?p ?a ?q =>
      first
        [ rewrite (decide_True (P := P)) by done
        | rewrite (decide_False (P := P)) by first [assumption|done] ]
  | |- runs (fun p => @?b p) ?q ?a ?r =>
      let b := eval cbv beta in (b q) in
      lazymatch b with ?m q => change (runs m q a r); rewrite ?peek_cons end
  end.
Ltac play := repeat play_step.

(** ** Expressions are read back *)

Section expressions.
Context `{StrDebug}.

Definition op_at (level : nat) (t : Token) : option BinOp :=
  match level with
  | 0%nat => or_op t | 1%nat => and_op t | 2%nat => equality_op t | 3%nat => comparison_op t | 4%nat => shift_op t
  | 5%nat => additive_op t | 6%nat => multiplicative_op t | _ => None
  end.

(** The parser of a level: [parse_or], ..., [parse_multiplicative], [parse_unary]. *)
Definition parse_level (level : nat) (unary : parsing Expr) : parsing Expr :=
  match level with
  | 0%nat => parse_or unary | 1%nat => parse_and unary | 2%nat => parse_equality unary | 3%nat => parse_comparison unary
  | 4%nat => parse_shift unary | 5%nat => parse_additive unary | 6%nat => parse_multiplicative unary | _ => unary
  end.

Lemma parse_level_step level u : (level < 7)%nat -> parse_level level u = left_assoc (op_at level) (parse_level (S level) u).
Proof. intros Hl. do 7 (destruct level as [|level]; [done|]). lia. Qed.

Lemma op_at_token op : op_at (level_of op) (binop_token op) = Some op.
Proof. by destruct op. Qed.

Lemma op_at_other level op : level <> level_of op -> op_at level (binop_token op) = None.
Proof. intros Hl. do 7 (destruct level as [|level]; [by destruct op|]). done. Qed.

Lemma level_of_lt op : (level_of op < 7)%nat.
Proof. destruct op; cbn; lia. Qed.

(** [t] does not carry on an expression of a level. *)
Definition stops (level : nat) (t : Token) : Prop :=
  (forall j, (level <= j)%nat -> op_at j t = None) /\ t <> TkLParen /\ t <> TkLBracket.

Definition front (l : list (Token * nat)) : Token := peek (mkParser l 0 0).

Lemma stops_le level level' t : stops level t -> (level <= level')%nat -> stops level' t.
Proof. intros (Hs & ? & ?) Hl. split_and!; [|done..]. intros j Hj. apply Hs. lia. Qed.

Lemma stops_operator op : stops (S (level_of op)) (binop_token op).
Proof. split_and!; [|by destruct op..]. intros j Hj. apply op_at_other. lia. Qed.

Lemma stops_unary t : t <> TkLParen -> t <> TkLBracket -> stops 7 t.
Proof. intros ??. split_and!; [|done..]. intros j Hj. do 7 (destruct j as [|j]; [lia|]). done. Qed.

Lemma stops_by level t : (forall j, op_at j t = None) -> t <> TkLParen -> t <> TkLBracket -> stops level t.
Proof. done. Qed.

(** The loop of a level. *)
Lemma operators_more fuel fuel' op_of operand left p r :
  operators fuel op_of operand left p = Some r -> (fuel <= fuel')%nat -> operators fuel' op_of operand left p = Some r.
Proof.
  revert fuel' left p. induction fuel as [|fuel IH]; intros fuel' left p E Hf; [done|].
  destruct fuel' as [|fuel']; [lia|]. cbn [operators] in *. destruct (op_of (peek p)) as [op|]; [|done].
  unfold pbind in *. cbn [skip] in *. destruct (operand _) as [[[a q]|e]|]; [|done|done]. apply IH; [done|lia].
Qed.

Lemma operators_step fuel op_of operand left t n l d s op right q :
  op_of t = Some op -> runs operand (mkParser l d s) right q ->
  operators (S fuel) op_of operand left (mkParser ((t, n) :: l) d s) = operators fuel op_of operand (BinaryOp left op right) q.
Proof. intros Ho Hr. cbn [operators]. cbn [peek rest]. rewrite Ho. unfold pbind. cbn [skip]. by rewrite Hr. Qed.

(** What is claimed of an expression: at any level it is read back where it stops,
    and below the level of [unary] it is the first operand of the loop. *)
Definition reads (level : nat) (e : Expr) : Prop :=
  forall fuel d s ts, (MAX_EXPR_DEPTH < fuel + d)%nat -> (d + nesting level e <= MAX_EXPR_DEPTH)%nat -> stops level (front ts) ->
    runs (parse_level level (parse_unary_in fuel)) (mkParser (lined (print_expr level e) ++ ts) d s) e (mkParser ts d s).

Definition leads (level : nat) (e : Expr) : Prop :=
  forall fuel d s ts r, (MAX_EXPR_DEPTH < fuel + d)%nat -> (d + nesting level e <= MAX_EXPR_DEPTH)%nat ->
    stops (S level) (front ts) ->
    operators (S (length ts)) (op_at level) (parse_level (S level) (parse_unary_in fuel)) e (mkParser ts d s) = Some r ->
    parse_level level (parse_unary_in fuel) (mkParser (lined (print_expr level e) ++ ts) d s) = Some r.

Lemma leads_reads level e : (level < 7)%nat -> leads level e -> reads level e.
Proof.
  intros Hl He fuel d s ts Hf Hn Hs. apply He; [done..|eapply stops_le; [done|lia]|].
  cbn [operators]. change (peek (mkParser ts d s)) with (front ts). destruct Hs as (Hs & _). by rewrite (Hs level).
Qed.

(** An expression that is not of this level is one operand. *)
Definition of_level (level : nat) (e : Expr) : Prop := exists l op r, e = BinaryOp l op r /\ level_of op = level.

Lemma print_up level e : ~ of_level level e -> print_expr level e = print_expr (S level) e /\ nesting level e = nesting (S level) e.
Proof.
  intros Ho. destruct e as [| | | |l op r| | | |]; try done. cbn [print_expr nesting].
  destruct (Nat.leb_spec level (level_of op)), (Nat.leb_spec (S level) (level_of op)); try done; [|lia].
  exfalso. apply Ho. exists l, op, r. split; [done|lia].
Qed.

Lemma reads_leads level e : (level < 7)%nat -> ~ of_level level e -> reads (S level) e -> leads level e.
Proof.
  intros Hl Ho He fuel d s ts r Hf Hn Hs Hr. rewrite parse_level_step by done. destruct (print_up level e Ho) as (Ep & En).
  rewrite Ep. rewrite En in Hn. unfold left_assoc, pbind. rewrite (He fuel d s ts Hf Hn Hs). done.
Qed.

Lemma reads_down level n e :
  (level + n <= 7)%nat -> (forall j, (level <= j < level + n)%nat -> ~ of_level j e) -> reads (level + n) e -> reads level e.
Proof.
  revert level. induction n as [|n IH]; intros level Hl Ho He; [by rewrite Nat.add_0_r in He|].
  apply leads_reads; [lia|]. apply reads_leads; [lia|apply Ho; lia|]. apply IH; [lia|intros; apply Ho; lia|].
  by replace (S level + n)%nat with (level + S n)%nat by lia.
Qed.

Lemma binary_leads l op r : leads (level_of op) l -> reads (S (level_of op)) r -> leads (level_of op) (BinaryOp l op r).
Proof.
  intros Hl Hr fuel d s ts res Hf Hn Hs Hres. cbn [print_expr nesting] in *. rewrite Nat.leb_refl in *.
  rewrite lined_app, <- app_assoc. apply Hl; [done|lia|apply stops_operator|].
  cbn [lined fmap list_fmap app]. erewrite operators_step; [|apply op_at_token|by apply Hr; [|lia|]].
  eapply operators_more; [exact Hres|]. cbn. rewrite length_app. lia.
Qed.

(** Inside brackets or parentheses. *)
Definition inside (e : Expr) : Prop :=
  forall fuel d s ts, (MAX_EXPR_DEPTH < fuel + d)%nat -> (d + S (nesting 0 e) <= MAX_EXPR_DEPTH)%nat -> stops 0 (front ts) ->
    runs (parse_expr_in fuel) (mkParser (lined (print_expr 0 e) ++ ts) d s) e (mkParser ts d s).

Lemma reads_inside e : reads 0 e -> inside e.
Proof.
  intros He [|fuel] d s ts Hf Hn Hs; [lia|]. cbn [parse_expr_in]. apply runs_nested_expr; [lia|]. apply (He fuel); [lia..|done].
Qed.

Lemma stops_rparen : stops 0 TkRParen. Proof. apply stops_by; [|done..]. intros j. by do 7 (destruct j as [|j]; [done|]). Qed.
Lemma stops_rbracket : stops 0 TkRBracket. Proof. apply stops_by; [|done..]. intros j. by do 7 (destruct j as [|j]; [done|]). Qed.
Lemma stops_comma : stops 0 TkComma. Proof. apply stops_by; [|done..]. intros j. by do 7 (destruct j as [|j]; [done|]). Qed.

(** The tokens an expression begins with. *)
Definition begins (t : Token) : bool :=
  match t with
  | TkIntLit _ | TkStrLit _ | TkTrue | TkFalse | TkSelfKw | TkIdent _ | TkLBracket | TkLParen | TkNot | TkMinus => true
  | _ => false
  end.

Lemma print_expr_begins level e : wf_expr e = true -> exists t l, print_expr level e = t :: l /\ begins t = true.
Proof.
  revert level. induction e as [v|x|f|f k IH|l op r IHl IHr|op e IH|f l IH|l IH|a i IHa IHi] using Expr_nested; intros level Hw; cbn [print_expr].
  all: try by eexists _, _.
  - destruct v as [|[]| | | | |]; try done; by eexists _, _.
  - cbn in Hw. apply andb_true_iff in Hw as [Hw _]. destruct (IHl (level_of op) Hw) as (t & l' & -> & Ht).
    destruct (_ <=? _)%nat; by eexists _, _.
  - destruct op; by eexists _, _.
  - destruct a; try done. by eexists _, _.
Qed.

Lemma peek_print level e ts d s : wf_expr e = true -> begins (peek (mkParser (lined (print_expr level e) ++ ts) d s)) = true.
Proof. intros Hw. by destruct (print_expr_begins level e Hw) as (t & l & -> & Ht). Qed.

Lemma commas_length (l : list (list Token)) : (length l <= length (concat (cons TkComma <$> l)))%nat.
Proof. induction l as [|x l IH]; cbn; [lia|]. rewrite length_app. lia. Qed.

Lemma lined_length l : length (lined l) = length l.
Proof. apply length_fmap. Qed.

Definition closing (t : Token) : Prop := t = TkRParen \/ t = TkRBracket.

Lemma closing_stops t : closing t -> stops 0 t.
Proof. intros [-> | ->]; [apply stops_rparen|apply stops_rbracket]. Qed.

Section elements.
Context (fuel d s : nat) (close : Token) (ts : list (Token * nat)).
Context (Hf : (MAX_EXPR_DEPTH < fuel + d)%nat) (Hclose : closing close).

Definition fits (e : Expr) : Prop := inside e /\ wf_expr e = true /\ (d + S (nesting 0 e) <= MAX_EXPR_DEPTH)%nat.

Lemma more_elements_read n acc l :
  Forall fits l -> acc <> [] -> (length l < n)%nat ->
  runs (elements_until n close (parse_expr_in fuel) acc)
    (mkParser (lined (concat (cons TkComma <$> (print_expr 0 <$> l))) ++ (close, 1%nat) :: ts) d s)
    (acc ++ l) (mkParser ((close, 1%nat) :: ts) d s).
Proof.
  intros Hl. revert n acc. induction Hl as [|e l (He & Hw & Hn) _ IH]; intros [|n] acc Ha Hlen; cbn in Hlen; try lia; cbn [elements_until].
  - rewrite app_nil_r. play.
  - cbn [fmap list_fmap concat]. rewrite lined_app, <- app_assoc. cbn [app lined fmap list_fmap].
    play_step. rewrite (decide_False (P := TkComma = close)) by (by destruct Hclose as [-> | ->]).
    rewrite (decide_False (P := acc = [])) by done. play.
    + apply He; [done..|]. destruct l; cbn; [by apply closing_stops|apply stops_comma].
    + replace (acc ++ e :: l) with ((acc ++ [e]) ++ l) by by rewrite <- app_assoc. apply IH; [by destruct acc|lia].
Qed.

Lemma parse_elements_read l :
  Forall fits l ->
  runs (parse_elements close (parse_expr_in fuel))
    (mkParser (lined (commas (print_expr 0 <$> l)) ++ (close, 1%nat) :: ts) d s) l (mkParser ts d s).
Proof.
  intros Hl. unfold parse_elements. play_step; [|play]. play_step. cbn [rest]. destruct Hl as [|e l (He & Hw & Hn) Hl].
  - cbn [elements_until]. cbn [commas fmap list_fmap lined app]. play.
  - cbn [fmap list_fmap commas elements_until]. rewrite lined_app, <- app_assoc.
    pose proof (peek_print 0 e (lined (concat (cons TkComma <$> (print_expr 0 <$> l))) ++ (close, 1%nat) :: ts) d s Hw) as Hb.
    play_step. rewrite (decide_False (P := peek _ = close)) by (by intros E; rewrite E in Hb; destruct Hclose as [-> | ->]). play.
    + apply He; [done..|]. destruct l; cbn; [by apply closing_stops|apply stops_comma].
    + change (e :: l) with ([e] ++ l). apply more_elements_read; [done..|]. 
      pose proof (commas_length (print_expr 0 <$> l)) as Hc. rewrite length_fmap in Hc. rewrite !length_app, !lined_length. cbn [length]. lia.
Qed.
End elements.

(** ** Every expression *)

Lemma nesting_positive level e : (0 < nesting level e)%nat.
Proof.
  revert level. induction e as [v|x|f|f k IH|l op r IHl IHr|op e IH|f l IH|l IH|a i IHa IHi] using Expr_nested; intros level; cbn; try lia.
  specialize (IHl (level_of op)). destruct (_ <=? _)%nat; lia.
Qed.

Lemma list_max_elem (l : list nat) n x : x ∈ l -> (list_max l <= n)%nat -> (x <= n)%nat.
Proof. intros Hx Hl. apply list_max_le in Hl. rewrite Forall_forall in Hl. by apply Hl. Qed.

(** A step into [parse_unary] that is not an operator. *)
Lemma unary_reads fuel d s l t e ts :
  front l = t -> t <> TkNot -> t <> TkMinus -> (MAX_EXPR_DEPTH < fuel + d)%nat -> (d < MAX_EXPR_DEPTH)%nat ->
  (forall fuel', (MAX_EXPR_DEPTH < fuel' + S d)%nat ->
    runs (parse_primary (parse_expr_in fuel')) (mkParser l (S d) s) e (mkParser ts (S d) s)) ->
  runs (parse_unary_in fuel) (mkParser l d s) e (mkParser ts d s).
Proof.
  intros Et Hn Hm Hf Hd He. destruct fuel as [|fuel]; [lia|]. cbn [parse_unary_in]. apply runs_nested_expr; [done|].
  unfold runs in *. change (peek (mkParser l (S d) s)) with (front l). rewrite Et. specialize (He fuel ltac:(lia)). by destruct t.
Qed.

Definition read_back (e : Expr) : Prop :=
  (forall level, (level <= 7)%nat -> reads level e) /\ (forall level, (level < 7)%nat -> leads level e).

Lemma atom_read_back e : match e with BinaryOp _ _ _ => False | _ => True end -> reads 7 e -> read_back e.
Proof.
  intros Ha He. assert (Ho : forall j, ~ of_level j e) by by intros j (l & op & r & -> & _).
  assert (Hr : forall level, (level <= 7)%nat -> reads level e).
  { intros level Hl. apply (reads_down level (7 - level)); [lia|by intros|]. by replace (level + (7 - level))%nat with 7%nat by lia. }
  split; [done|]. intros level Hl. apply reads_leads; [done..|]. apply Hr. lia.
Qed.

Lemma fits_all d l :
  Forall (fun e => wf_expr e = true -> read_back e) l -> forallb wf_expr l = true ->
  (S d + list_max ((fun e => S (nesting 0 e)) <$> l) <= MAX_EXPR_DEPTH)%nat -> Forall (fits (S d)) l.
Proof.
  intros IH Hw Hn. rewrite Forall_forall in *. intros e He. rewrite forallb_forall in Hw.
  assert (Hwe : wf_expr e = true) by by apply Hw, list_elem_of_In. split_and!; [|done|].
  - apply reads_inside. apply IH; [done..|lia].
  - enough (S (nesting 0 e) <= MAX_EXPR_DEPTH - S d)%nat by lia. apply (list_max_elem ((fun e => S (nesting 0 e)) <$> l)); [|lia]. by apply (list_elem_of_fmap_2 (fun e => S (nesting 0 e))).
Qed.

Ltac enter_primary :=
  eapply unary_reads; [reflexivity|done|done|done|lia|]; intros fuel' Hfuel'; unfold parse_primary; cbn [print_literal lined fmap list_fmap app]; play.

(** A binary operator: as it is up to its own level, in parentheses above. *)
Lemma binary_reads l op r level : (level <= 7)%nat -> read_back l -> read_back r -> reads level (BinaryOp l op r).
Proof.
  intros Hlevel (_ & Hl) (Hr & _). pose proof (level_of_lt op) as Hop.
  assert (Hother : forall j, j <> level_of op -> ~ of_level j (BinaryOp l op r)) by (intros j Hj (? & ? & ? & [= <- <- <-] & ?); congruence).
  assert (Hup : forall j, (j <= level_of op)%nat -> reads j (BinaryOp l op r)).
  { intros j Hj. apply (reads_down j (level_of op - j)); [lia|intros; apply Hother; lia|].
    replace (j + _)%nat with (level_of op) by lia. apply leads_reads; [done|]. apply binary_leads; [by apply Hl|by apply Hr]. }
  destruct (Nat.le_gt_cases level (level_of op)) as [Hle|Hgt]; [by apply Hup|].
  apply (reads_down level (7 - level)); [lia|intros; apply Hother; lia|]. replace (level + _)%nat with 7%nat by lia.
  intros fuel d s ts Hf Hn Hs. pose proof (reads_inside _ (Hup 0%nat ltac:(lia))) as Hi. unfold inside in Hi.
  cbn [print_expr nesting parse_level] in *. rewrite (proj2 (Nat.leb_gt _ _)) in * by lia. cbn [Nat.leb] in *.
  enter_primary. rewrite lined_app, <- app_assoc. apply Hi; [lia|lia|apply stops_rparen].
Qed.

Lemma binary_read_back l op r : read_back l -> read_back r -> read_back (BinaryOp l op r).
Proof.
  intros Hl Hr. split; [intros; by apply binary_reads|]. intros level Hlevel. destruct (decide (level = level_of op)) as [->|Hne].
  - apply binary_leads; [by apply Hl|apply Hr; lia].
  - apply reads_leads; [done|intros (? & ? & ? & [= <- <- <-] & ?); congruence|]. apply binary_reads; [lia|done..].
Qed.

Lemma wf_read_back e : wf_expr e = true -> read_back e.
Proof.
  induction e as [v|x|f|f k IH|l op r IHl IHr|op e IH|f l IH|l IH|a i IHa IHi] using Expr_nested; intros Hw.
  5: { cbn in Hw. apply andb_true_iff in Hw as [Hwl Hwr]. apply binary_read_back; auto. }
  all: apply atom_read_back; [done|]; intros fuel d s ts Hf Hn (_ & Hp & Hb); cbn [nesting] in Hn; cbn [print_expr parse_level].
  - destruct v as [n|[]|str| | | |]; try done; enter_primary.
  - enter_primary.
  - enter_primary.
  - enter_primary. rewrite lined_app, <- app_assoc. apply reads_inside; [by apply IH; [|lia]|lia|lia|apply stops_rbracket].
  - destruct fuel as [|fuel]; [lia|]. cbn [parse_unary_in]. apply runs_nested_expr; [pose proof (nesting_positive 7 e); lia|].
    cbn [lined fmap list_fmap app]. assert (He : reads 7 e) by by apply IH.
    destruct op; cbn [unop_token]; play; (apply He; [lia|lia|by apply stops_unary]).
  - enter_primary. rewrite lined_app, <- app_assoc. apply parse_elements_read; [done|by left|apply fits_all; [done..|lia]].
  - enter_primary. rewrite lined_app, <- app_assoc. apply parse_elements_read; [done|by right|apply fits_all; [done..|lia]].
  - destruct a; try done. cbn [print_expr app]. enter_primary. rewrite lined_app, <- app_assoc. apply reads_inside; [by apply IHi; [|lia]|lia|lia|apply stops_rbracket].
Qed.

(** The public entry, at the depth a statement is parsed at. *)
Lemma parse_expr_print e s ts :
  wf_expr e = true -> (nesting 0 e < MAX_EXPR_DEPTH)%nat -> stops 0 (front ts) ->
  runs parse_expr (mkParser (lined (print_expr 0 e) ++ ts) 0 s) e (mkParser ts 0 s).
Proof.
  intros Hw Hn Hs. apply reads_inside; [apply wf_read_back; [done|lia]|unfold EXPR_FUEL; lia|lia|done].
Qed.
End expressions.

(** ** Types *)

Fixpoint print_type (t : ScriptType) : list Token :=
  match t with
  | TU64 => [TkU64Type] | TBool => [TkBoolType] | TString => [TkStringType] | TAddress => [TkAddressType]
  | TMap k v => [TkMapType; TkLBracket] ++ print_type k ++ [TkArrow] ++ print_type v ++ [TkRBracket]
  | TArray t => [TkArrayType; TkLBracket] ++ print_type t ++ [TkRBracket]
  end.

Section types.
Context `{StrDebug}.

Lemma parse_type_in_print t fuel d s ts :
  (length (print_type t) <= fuel)%nat -> runs (parse_type_in fuel) (mkParser (lined (print_type t) ++ ts) d s) t (mkParser ts d s).
Proof.
  revert fuel ts. induction t as [| | | |k IHk v IHv|t IHt]; intros [|fuel] ts Hf; cbn [print_type] in *; try (cbn in Hf; lia).
  all: cbn [app length] in Hf; rewrite ?length_app in Hf; cbn [app length] in Hf; rewrite ?length_app in Hf.
  all: cbn [parse_type_in]; spread; play.
  - apply IHk. lia.
  - apply IHv. lia.
  - apply IHt. lia.
Qed.

Lemma parse_type_print t d s ts : runs parse_type (mkParser (lined (print_type t) ++ ts) d s) t (mkParser ts d s).
Proof. unfold parse_type. play. apply parse_type_in_print. cbn. rewrite length_app, lined_length. lia. Qed.
End types.
