(* ===== verification/ScriptRoundTrip.v ===== *)
(** * Printed contracts are read back

    The printer of ScriptPrinter.v for statements and contracts, and the round trip
    through the grammar.  Statements have no terminator, so not every list of
    statements can be written down: [wf_sequence] says which neighbours the parser
    keeps apart. *)

From stdpp Require Import base gmap list strings pretty.
From Stdlib Require Import ZArith Lia.
From S2P Require Import Prelude Energy Trie ScriptValue ScriptVM ScriptCompiler ScriptTokens ScriptGrammar ScriptPrinter.

Open Scope Z_scope.

(** ** Printing *)

Definition print_target (t : AssignTarget) : list Token :=
  match t with
  | TVariable x => [TkIdent x]
  | TStateField f => [TkSelfKw; TkDot; TkIdent f]
  | TMapEntry f k => [TkSelfKw; TkDot; TkIdent f; TkLBracket] ++ print_expr 0 k ++ [TkRBracket]
  | TArrayElement x i => [TkIdent x; TkLBracket] ++ print_expr 0 i ++ [TkRBracket]
  end.

Definition compound_token (op : BinOp) : option Token :=
  match op with
  | BAdd => Some TkPlusAssign | BSub => Some TkMinusAssign | BMul => Some TkStarAssign | BDiv => Some TkSlashAssign
  | _ => None
  end.

(** The condition of [while] goes in parentheses, which that statement reads as its own. *)
Fixpoint print_stmt (s : Stmt) : list Token :=
  let print_block l := [TkLBrace] ++ concat (print_stmt <$> l) ++ [TkRBrace] in
  match s with
  | SLet x e => [TkLet; TkIdent x; TkAssign] ++ print_expr 0 e
  | SAssign t e => print_target t ++ [TkAssign] ++ print_expr 0 e
  | SCompoundAssign t op e => print_target t ++ from_option (fun t => [t]) [] (compound_token op) ++ print_expr 0 e
  | SIf c l o =>
      [TkIf] ++ print_expr 0 c ++ print_block l ++
      match o with
      | None => []
      | Some [SIf _ _ _ as s] => TkElse :: print_stmt s
      | Some l => TkElse :: print_block l
      end
  | SWhile c l => [TkWhile; TkLParen] ++ print_expr 0 c ++ [TkRParen] ++ print_block l
  | SReturn o => TkReturn :: from_option (print_expr 0) [] o
  | SRequire c m => [TkIdent "require"; TkLParen] ++ print_expr 0 c ++ [TkComma] ++ print_expr 0 m ++ [TkRParen]
  | SEmit e => [TkIdent "emit"; TkLParen] ++ print_expr 0 e ++ [TkRParen]
  | SExpr e => print_expr 0 e
  end.

Definition print_block (l : list Stmt) : list Token := [TkLBrace] ++ concat (print_stmt <$> l) ++ [TkRBrace].

Definition print_field (f : StateField) : list Token :=
  [TkIdent (fld_name f); TkColon] ++ print_type (fld_ty f) ++ from_option (fun e => TkAssign :: print_expr 0 e) [] (fld_default f).

Definition print_state (l : list StateField) : list Token :=
  match l with [] => [] | _ => [TkState; TkLBrace] ++ concat (print_field <$> l) ++ [TkRBrace] end.

Definition print_parameter (p : string * ScriptType) : list Token := [TkIdent p.1; TkColon] ++ print_type p.2.

Definition print_function (f : Function) : list Token :=
  [TkFn; TkIdent (fn_name f); TkLParen] ++ commas (print_parameter <$> fn_params f) ++ [TkRParen] ++
  from_option (fun t => TkArrow :: print_type t) [] (fn_return_type f) ++ print_block (fn_body f).

Definition print_hook (h : LifecycleHook) : list Token :=
  match h with
  | OnEvaporate l => [TkOnEvaporate; TkLParen; TkRParen] ++ print_block l
  | OnGrace l => [TkOnGrace; TkLParen; TkRParen] ++ print_block l
  | OnRefresh l => [TkOnRefresh; TkLParen; TkRParen] ++ print_block l
  end.

Definition print_contract (c : Contract) : list Token :=
  [TkContract; TkIdent (c_name c); TkLBrace] ++ print_state (state_fields c) ++ concat (print_function <$> functions c) ++
  concat (print_hook <$> lifecycle_hooks c) ++ [TkRBrace].

(** ** What can be written down *)

(** Within the depth guard. *)
Definition wf_top (e : Expr) : bool := wf_expr e && (nesting 0 e <? MAX_EXPR_DEPTH)%nat.

(** [require] and [emit] are statements of their own. *)
Definition plain_name (x : string) : bool := negb (bool_decide (x = "require" \/ x = "emit")).

Definition wf_target (t : AssignTarget) : bool :=
  match t with
  | TVariable x => plain_name x
  | TStateField _ => true
  | TMapEntry _ k => wf_top k
  | TArrayElement x i => plain_name x && wf_top i
  end.

Definition first (l : list Token) : Token := match l with t :: _ => t | [] => TkEof end.

(** An expression on its own: one access or call, or not beginning with a name. *)
Definition wf_alone (e : Expr) : bool :=
  match e with
  | Var x | FunctionCall x _ | ArrayAccess (Var x) _ => plain_name x
  | _ => match first (print_expr 0 e) with TkIdent _ | TkSelfKw => false | _ => true end
  end.

(** The next statement's first token could carry this one on. *)
Definition open_ended (s : Stmt) : bool :=
  match s with
  | SLet _ _ | SAssign _ _ | SCompoundAssign _ _ _ | SReturn _ => true
  | SExpr (FunctionCall _ _) | SExpr (ArrayAccess _ _) => false
  | SExpr _ => true
  | _ => false
  end.

Definition carries_on (t : Token) : bool := match t with TkMinus | TkLParen | TkLBracket => true | _ => false end.

Definition keeps_apart (s : Stmt) (t : Token) : bool :=
  match s with SReturn None => bool_decide (t = TkRBrace) | _ => negb (open_ended s && carries_on t) end.

Fixpoint wf_sequence (l : list Stmt) : bool :=
  match l with
  | s :: (s' :: _) as l => keeps_apart s (first (print_stmt s')) && wf_sequence l
  | _ => true
  end.

Fixpoint wf_stmt (s : Stmt) : bool :=
  match s with
  | SLet _ e => wf_top e
  | SAssign t e => wf_target t && wf_top e
  | SCompoundAssign t op e => wf_target t && bool_decide (is_Some (compound_token op)) && wf_top e
  | SIf c l o =>
      wf_top c && forallb wf_stmt l && wf_sequence l &&
      match o with None => true | Some l => forallb wf_stmt l && wf_sequence l end
  | SWhile c l => wf_top c && forallb wf_stmt l && wf_sequence l
  | SReturn o => from_option wf_top true o
  | SRequire c m => wf_top c && wf_top m
  | SEmit e => wf_top e
  | SExpr e => wf_top e && wf_alone e
  end.

Definition wf_block (l : list Stmt) : bool := forallb wf_stmt l && wf_sequence l.

(** How many blocks deep. *)
Fixpoint block_nesting (s : Stmt) : nat :=
  let block l := S (list_max (block_nesting <$> l)) in
  match s with
  | SIf _ l o =>
      Nat.max (block l) (match o with None => 0 | Some [SIf _ _ _ as s] => block_nesting s | Some l => block l end)
  | SWhile _ l => block l
  | _ => 0
  end.

Definition fits_blocks (l : list Stmt) : bool := (S (list_max (block_nesting <$> l)) <=? MAX_STMT_DEPTH)%nat.

(** ** Statements are read back *)

Section statements.
Context `{StrDebug}.

Definition stmt_begins (t : Token) : bool :=
  begins t || match t with TkLet | TkIf | TkWhile | TkReturn => true | _ => false end.

(** What stands behind a statement of a block. *)
Definition next_ok (t : Token) : bool := stmt_begins t || bool_decide (t = TkRBrace).

Lemma wf_top_split e : wf_top e = true -> wf_expr e = true /\ (nesting 0 e < MAX_EXPR_DEPTH)%nat.
Proof. unfold wf_top. rewrite andb_true_iff, Nat.ltb_lt. done. Qed.

Lemma front_print l ts : l <> [] -> front (lined l ++ ts) = first l.
Proof. by destruct l. Qed.

Lemma print_stmt_first s : wf_stmt s = true -> exists t l, print_stmt s = t :: l /\ stmt_begins t = true.
Proof.
  destruct s as [x e|t e|t op e|c l o|c l|o|c m|e|e]; intros Hw; cbn [print_stmt]; try by eexists _, _.
  - destruct t; by eexists _, _.
  - destruct t; by eexists _, _.
  - cbn in Hw. apply andb_true_iff in Hw as [(Hw & _)%wf_top_split _]. destruct (print_expr_begins 0 e Hw) as (t & l & -> & Ht).
    exists t, l. unfold stmt_begins. by rewrite Ht.
Qed.

Lemma next_ok_stops t : next_ok t = true -> carries_on t = false -> stops 0 t.
Proof.
  intros Hn Hc. apply stops_by; [|by destruct t..]. intros j.
  destruct t; try done; by do 7 (destruct j as [|j]; [done|]).
Qed.

Lemma stops_lbrace : stops 0 TkLBrace.
Proof. apply stops_by; [|done..]. intros j. by do 7 (destruct j as [|j]; [done|]). Qed.

Definition follows (s : Stmt) (t : Token) : Prop := next_ok t = true /\ keeps_apart s t = true.

Lemma follows_stops s t : open_ended s = true -> s <> SReturn None -> follows s t -> stops 0 t.
Proof.
  intros Ho Hs (Hn & Hk). apply next_ok_stops; [done|]. destruct s as [| | | | |[e|]| | |]; cbn in Ho, Hk; try done.
  all: try by apply negb_true_iff in Hk.
  rewrite Ho in Hk. by apply negb_true_iff in Hk.
Qed.

Lemma top_reads e s ts : wf_top e = true -> stops 0 (front ts) -> runs parse_expr (mkParser (lined (print_expr 0 e) ++ ts) 0 s) e (mkParser ts 0 s).
Proof. intros (Hw & Hn)%wf_top_split Hs. by apply parse_expr_print. Qed.

Section stmt.
Context (parse_block : parsing (list Stmt)) (d : nat) (ts : list (Token * nat)).

(** An assignment, whatever it is to. *)
Lemma target_reads target tok l s q :
  wf_target target = true -> tok <> TkLBracket ->
  (forall otherwise, runs (assignment target otherwise) (mkParser ((tok, 1%nat) :: l) 0 d) s q) ->
  runs (parse_stmt parse_block) (mkParser (lined (print_target target) ++ (tok, 1%nat) :: l) 0 d) s q.
Proof.
  intros Hw Ht Ha. destruct target as [x|f|f k|x i]; cbn [print_target]; spread; unfold parse_stmt; play_step; cbn in Hw.
  - unfold plain_name in Hw. apply negb_true_iff, bool_decide_eq_false in Hw.
    rewrite !decide_False by tauto.
    unfold parse_ident_stmt. play. apply Ha.
  - unfold parse_self_assign_or_expr. play. apply Ha.
  - unfold parse_self_assign_or_expr. play; [|apply Ha]. apply top_reads; [done|apply stops_rbracket].
  - apply andb_true_iff in Hw as [Hx Hi]. unfold plain_name in Hx. apply negb_true_iff, bool_decide_eq_false in Hx.
    rewrite !decide_False by tauto. unfold parse_ident_stmt. play; [|apply Ha]. apply top_reads; [done|apply stops_rbracket].
Qed.

Lemma assign_reads target e otherwise :
  wf_top e = true -> stops 0 (front ts) ->
  runs (assignment target otherwise) (mkParser ((TkAssign, 1%nat) :: lined (print_expr 0 e) ++ ts) 0 d) (SAssign target e) (mkParser ts 0 d).
Proof. intros Hw Hs. unfold assignment. play. by apply top_reads. Qed.

Lemma compound_reads target op tok e otherwise :
  compound_token op = Some tok -> wf_top e = true -> stops 0 (front ts) ->
  runs (assignment target otherwise) (mkParser ((tok, 1%nat) :: lined (print_expr 0 e) ++ ts) 0 d) (SCompoundAssign target op e) (mkParser ts 0 d).
Proof.
  intros Ho Hw Hs. unfold assignment. play_step.
  destruct op; try done; injection Ho as <-; cbn [compound_op]; play; by apply top_reads.
Qed.
End stmt.

Lemma more_arguments_read n acc l d ts :
  forallb wf_top l = true -> (length l < n)%nat ->
  runs (more_arguments n acc) (mkParser (lined (concat (cons TkComma <$> (print_expr 0 <$> l))) ++ (TkRParen, 1%nat) :: ts) 0 d)
    (acc ++ l) (mkParser ((TkRParen, 1%nat) :: ts) 0 d).
Proof.
  revert n acc. induction l as [|e l IH]; intros [|n] acc Hw Hn; cbn in Hn; try lia; cbn [more_arguments].
  - rewrite app_nil_r. play.
  - cbn in Hw. apply andb_true_iff in Hw as [He Hl]. cbn [fmap list_fmap concat]. spread. play.
    + apply top_reads; [done|]. destruct l; [apply stops_rparen|apply stops_comma].
    + replace (acc ++ e :: l) with ((acc ++ [e]) ++ l) by by rewrite <- app_assoc. apply IH; [done|lia].
Qed.

Lemma parse_arguments_read l d ts :
  forallb wf_top l = true ->
  runs parse_arguments (mkParser (lined (commas (print_expr 0 <$> l)) ++ (TkRParen, 1%nat) :: ts) 0 d) l
    (mkParser ((TkRParen, 1%nat) :: ts) 0 d).
Proof.
  intros Hw. unfold parse_arguments. destruct l as [|e l]; cbn [fmap list_fmap commas]; [play|].
  cbn in Hw. apply andb_true_iff in Hw as [He Hl]. spread.
  pose proof (peek_print 0 e (lined (concat (cons TkComma <$> (print_expr 0 <$> l))) ++ (TkRParen, 1%nat) :: ts) 0 d (proj1 (wf_top_split e He))) as Hb.
  play_step. rewrite decide_False by (by intros E; rewrite E in Hb). play.
  - apply top_reads; [done|]. destruct l; [apply stops_rparen|apply stops_comma].
  - cbn [rest]. change (e :: l) with ([e] ++ l). apply more_arguments_read; [done|].
    pose proof (commas_length (print_expr 0 <$> l)) as Hc. rewrite length_fmap in Hc. rewrite length_app, lined_length. cbn [length]. lia.
Qed.

(** A call's arguments are nested less deep than the call. *)
Lemma wf_top_args f l : wf_top (FunctionCall f l) = true -> forallb wf_top l = true.
Proof.
  intros (Hw & Hn)%wf_top_split. cbn in Hw, Hn. rewrite forallb_forall in *. intros e He. unfold wf_top. rewrite (Hw e He), andb_true_l.
  apply Nat.ltb_lt. enough (S (nesting 0 e) <= MAX_EXPR_DEPTH - 1)%nat by lia.
  apply (list_max_elem ((fun e => S (nesting 0 e)) <$> l)); [|lia].
  by apply (list_elem_of_fmap_2 (fun e => S (nesting 0 e))), list_elem_of_In.
Qed.

Lemma wf_top_index x i : wf_top (ArrayAccess (Var x) i) = true -> wf_top i = true.
Proof. intros (Hw & Hn)%wf_top_split. cbn in Hw, Hn. unfold wf_top. rewrite Hw. apply Nat.ltb_lt. lia. Qed.

Lemma assignment_none target otherwise p s q :
  next_ok (peek p) = true -> runs otherwise p s q -> runs (assignment target otherwise) p s q.
Proof. intros Hn Ho. unfold assignment, runs in *. by destruct (peek p). Qed.

Lemma plain_name_other x : plain_name x = true -> x <> "require"%string /\ x <> "emit"%string.
Proof. unfold plain_name. intros Hx%negb_true_iff. apply bool_decide_eq_false in Hx. tauto. Qed.

Lemma name_reads block x l d s q :
  plain_name x = true -> runs parse_ident_stmt (mkParser ((TkIdent x, 1%nat) :: l) 0 d) s q ->
  runs (parse_stmt block) (mkParser ((TkIdent x, 1%nat) :: l) 0 d) s q.
Proof. intros (? & ?)%plain_name_other Hr. unfold parse_stmt. play_step. by rewrite !decide_False. Qed.

(** An expression on its own. *)
Lemma alone_reads block e d ts :
  wf_top e = true -> wf_alone e = true -> follows (SExpr e) (front ts) ->
  runs (parse_stmt block) (mkParser (lined (print_expr 0 e) ++ ts) 0 d) (SExpr e) (mkParser ts 0 d).
Proof.
  intros Hw Ha Hf.
  assert (Hother : match first (print_expr 0 e) with TkIdent _ | TkSelfKw => false | _ => true end = true ->
    open_ended (SExpr e) = true -> runs (parse_stmt block) (mkParser (lined (print_expr 0 e) ++ ts) 0 d) (SExpr e) (mkParser ts 0 d)).
  { intros Hfirst Ho. pose proof (top_reads e d ts Hw (follows_stops _ _ Ho ltac:(done) Hf)) as Hr.
    destruct (print_expr_begins 0 e (proj1 (wf_top_split e Hw))) as (t & l & E & Ht). rewrite E in *. cbn [first] in Hfirst.
    unfold parse_stmt. revert Hr. spread. intros Hr. play_step.
    destruct t; try done; (eapply runs_bind; [exact Hr|apply runs_ret]). }
  destruct e as [v|x|f|f k|l op r|op e|f l|l|a i]; try (by apply Hother).
  - apply name_reads; [done|]. destruct (follows_stops (SExpr (Var x)) _ eq_refl ltac:(done) Hf) as (_ & Hp & Hb). unfold parse_ident_stmt. play.
    apply assignment_none; [apply Hf|]. play.
  - cbn [print_expr]. spread. apply name_reads; [done|]. unfold parse_ident_stmt. play. apply assignment_none; [done|]. play.
    apply parse_arguments_read, (wf_top_args f), Hw.
  - destruct (wf_top_split _ Hw) as (Hwa & _). cbn in Hwa. destruct a; try done. cbn [print_expr]. spread. apply name_reads; [done|].
    unfold parse_ident_stmt. play; [apply top_reads; [by eapply wf_top_index|apply stops_rbracket]|]. apply assignment_none; [apply Hf|]. play.
Qed.

Lemma list_max_cons n l : list_max (n :: l) = Nat.max n (list_max l).
Proof. done. Qed.

(** *** Blocks *)

Definition reads_stmt (s : Stmt) : Prop :=
  forall fuel d ts, (MAX_STMT_DEPTH < fuel + d)%nat -> (d + block_nesting s <= MAX_STMT_DEPTH)%nat -> follows s (front ts) ->
    runs (parse_stmt (parse_block_in fuel)) (mkParser (lined (print_stmt s) ++ ts) 0 d) s (mkParser ts 0 d).

Definition reads_block (l : list Stmt) : Prop :=
  forall fuel d ts, (MAX_STMT_DEPTH < fuel + d)%nat -> (d + S (list_max (block_nesting <$> l)) <= MAX_STMT_DEPTH)%nat ->
    runs (parse_block_in fuel) (mkParser (lined (print_block l) ++ ts) 0 d) l (mkParser ts 0 d).

Lemma statements_read fuel d ts n acc l :
  (MAX_STMT_DEPTH < fuel + d)%nat -> Forall reads_stmt l -> forallb wf_stmt l = true -> wf_sequence l = true ->
  (d + list_max (block_nesting <$> l) <= MAX_STMT_DEPTH)%nat -> (length l < n)%nat ->
  runs (statements (parse_block_in fuel) n acc)
    (mkParser (lined (concat (print_stmt <$> l)) ++ (TkRBrace, 1%nat) :: ts) 0 d) (acc ++ l) (mkParser ((TkRBrace, 1%nat) :: ts) 0 d).
Proof.
  intros Hf Hl. revert n acc. induction Hl as [|s l Hs Hl IH]; intros [|n] acc Hw Hseq Hd Hn; cbn in Hn; try lia; cbn [statements].
  - rewrite app_nil_r. play_step. rewrite decide_True by tauto. play.
  - cbn in Hw. apply andb_true_iff in Hw as [Hws Hwl]. rewrite fmap_cons, list_max_cons in Hd. cbn [fmap list_fmap concat]. spread.
    destruct (print_stmt_first s Hws) as (t & l' & E & Ht).
    assert (Hnext : follows s (front (lined (concat (print_stmt <$> l)) ++ (TkRBrace, 1%nat) :: ts)) /\ wf_sequence l = true).
    { destruct l as [|s' l]; [split; [|done]; split; [done|]; destruct s as [| | | | |[]| | |]; try done; cbn; by rewrite andb_false_r|].
      cbn [wf_sequence] in Hseq. apply andb_true_iff in Hseq as [Hk Hseq]. split; [|done].
      cbn in Hwl. apply andb_true_iff in Hwl as [Hws' _]. destruct (print_stmt_first s' Hws') as (t' & l'' & E' & Ht').
      rewrite E' in Hk. cbn [fmap list_fmap concat]. rewrite E'. split; [|exact Hk]. unfold next_ok. cbn. by rewrite Ht'. }
    destruct Hnext as (Hnext & Hseq'). specialize (Hs fuel d _ Hf ltac:(lia) Hnext). rewrite E in Hs. revert Hs. rewrite E. spread. intros Hs.
    play_step. rewrite decide_False by (by intros [-> | ->]). play; [exact Hs|].
    replace (acc ++ s :: l) with ((acc ++ [s]) ++ l) by by rewrite <- app_assoc. apply IH; [done|done|lia|lia].
Qed.

Lemma stmts_length l : forallb wf_stmt l = true -> (length l <= length (concat (print_stmt <$> l)))%nat.
Proof.
  induction l as [|s l IH]; intros Hw; cbn; [lia|]. cbn in Hw. apply andb_true_iff in Hw as [Hs Hl].
  destruct (print_stmt_first s Hs) as (t & l' & -> & _). cbn. rewrite length_app. specialize (IH Hl). lia.
Qed.

Lemma block_reads l : Forall reads_stmt l -> wf_block l = true -> reads_block l.
Proof.
  intros Hl (Hw & Hseq)%andb_true_iff [|fuel] d ts Hf Hd; [lia|]. unfold print_block. cbn [parse_block_in]. apply runs_nested_stmt; [lia|].
  spread. play. cbn [rest]. apply (statements_read fuel (S d) ts _ []); [lia|done..|lia|].
  pose proof (stmts_length l Hw). rewrite length_app, lined_length. cbn [length]. lia.
Qed.

(** *** [if] and its chain of [else if] *)

Definition reads_if (s : Stmt) : Prop :=
  forall fuel d n ts, (MAX_STMT_DEPTH < fuel + d)%nat -> (d + block_nesting s <= MAX_STMT_DEPTH)%nat -> next_ok (front ts) = true ->
    (length (print_stmt s) <= n)%nat ->
    runs (parse_if_in (parse_block_in fuel) n) (mkParser (lined (print_stmt s) ++ ts) 0 d) s (mkParser ts 0 d).

Definition is_if (s : Stmt) : Prop := match s with SIf _ _ _ => True | _ => False end.

Definition print_else (o : option (list Stmt)) : list Token :=
  match o with None => [] | Some [SIf _ _ _ as s] => TkElse :: print_stmt s | Some l => TkElse :: print_block l end.

Definition else_nesting (o : option (list Stmt)) : nat :=
  match o with None => 0 | Some [SIf _ _ _ as s] => block_nesting s | Some l => S (list_max (block_nesting <$> l)) end.

Lemma print_if c l o : print_stmt (SIf c l o) = [TkIf] ++ print_expr 0 c ++ print_block l ++ print_else o.
Proof. done. Qed.

Lemma nesting_if c l o : block_nesting (SIf c l o) = Nat.max (S (list_max (block_nesting <$> l))) (else_nesting o).
Proof. done. Qed.

(** Either the chain goes on, or a block ends it. *)
Lemma else_cases l :
  (exists s, l = [s] /\ is_if s /\ print_else (Some l) = TkElse :: print_stmt s /\ else_nesting (Some l) = block_nesting s) \/
  (print_else (Some l) = TkElse :: print_block l /\ else_nesting (Some l) = S (list_max (block_nesting <$> l))).
Proof. destruct l as [|[] []]; first [by right|left; by eexists]. Qed.

Lemma if_reads c l o :
  wf_top c = true -> reads_block l -> from_option reads_block True o -> (forall s, o = Some [s] -> is_if s -> reads_if s) ->
  reads_if (SIf c l o).
Proof.
  intros Hc Hl Ho Hif fuel d n ts Hf Hd Hnext Hn. rewrite nesting_if in Hd. rewrite print_if in *.
  destruct n as [|n]; [cbn in Hn; lia|]. cbn [parse_if_in]. rewrite !length_app in Hn. cbn [length] in Hn. spread.
  eapply runs_bind; [apply runs_skip|].
  eapply runs_bind; [apply top_reads; [done|unfold print_block; spread; apply stops_lbrace]|].
  eapply runs_bind; [apply Hl; [done|lia]|]. destruct o as [l'|].
  - destruct (else_cases l') as [(s & -> & Hs & Ep & En)|(Ep & En)]; rewrite Ep in *; rewrite En in *; cbn [length] in Hn; spread.
    + specialize (Hif _ eq_refl Hs fuel d n ts Hf ltac:(lia) Hnext ltac:(lia)). 
      destruct s; try done. revert Hif. rewrite print_if. spread. intros Hif. play. exact Hif.
    + specialize (Ho fuel d ts Hf ltac:(lia)). revert Ho. unfold print_block. spread. intros Ho. play. exact Ho.
  - change (lined (print_else None) ++ ts) with ts. play_step.
    rewrite decide_False by (intros E; change (peek _) with (front ts) in E; by rewrite E in Hnext). play.
Qed.

(** ** Every statement *)

Definition stmt_read (s : Stmt) : Prop := wf_stmt s = true -> reads_stmt s /\ (is_if s -> reads_if s).

Lemma blocks_read l : Forall stmt_read l -> forallb wf_stmt l = true -> wf_sequence l = true -> reads_block l.
Proof.
  intros IH Hw Hs. apply block_reads; [|unfold wf_block; by rewrite Hw, Hs]. rewrite Forall_forall in *. intros s Hin.
  apply IH; [done|]. rewrite forallb_forall in Hw. by apply Hw, list_elem_of_In.
Qed.

Lemma if_read c l o : Forall stmt_read l -> (forall l', o = Some l' -> Forall stmt_read l') -> stmt_read (SIf c l o).
Proof.
  intros IHl IHo Hw. cbn [wf_stmt] in Hw. rewrite !andb_true_iff in Hw. destruct Hw as (((Hc & Hwl) & Hsl) & Hwo).
  assert (Hif : reads_if (SIf c l o)).
  { apply if_reads; [done|by apply blocks_read|destruct o; [|done]; apply andb_true_iff in Hwo as [??]; apply blocks_read; by auto|].
    intros s -> Hs. specialize (IHo _ eq_refl). cbn in Hwo. apply Forall_inv in IHo. apply IHo; [|done]. by rewrite !andb_true_r in Hwo. }
  split; [|done]. intros fuel d ts Hf Hd (Hn & _). unfold parse_stmt. rewrite print_if. spread. play_step. unfold parse_if. play_step.
  specialize (Hif fuel d (S (length (lined (print_stmt (SIf c l o)) ++ ts))) ts Hf Hd Hn). rewrite print_if in Hif. revert Hif. spread.
  intros Hif. apply Hif. cbn [length]. rewrite !length_app, !lined_length. lia.
Qed.

Lemma while_reads c l : wf_top c = true -> reads_block l -> reads_stmt (SWhile c l).
Proof.
  intros Hc Hl fuel d ts Hf Hd _. unfold parse_stmt. cbn [print_stmt]. spread. play_step. unfold parse_while. play.
  - apply top_reads; [done|apply stops_rparen].
  - cbn [block_nesting] in Hd. specialize (Hl fuel d ts Hf ltac:(lia)). revert Hl. unfold print_block. by spread.
Qed.

Lemma return_reads o : from_option wf_top true o = true -> reads_stmt (SReturn o).
Proof.
  intros Ho fuel d ts Hf Hd Hn. unfold parse_stmt. cbn [print_stmt]. spread. play_step. unfold parse_return.
  eapply runs_bind; [apply runs_skip|]. destruct o as [e|]; cbn [from_option] in *.
  - pose proof (peek_print 0 e ts 0 d (proj1 (wf_top_split e Ho))) as Hb.
    play_step. rewrite decide_False by (by intros E; rewrite E in Hb). play. apply top_reads; [done|]. by eapply follows_stops; [..|exact Hn].
  - destruct Hn as (_ & Hk). cbn in Hk. apply bool_decide_eq_true in Hk. play_step. rewrite decide_True by done. play.
Qed.

Lemma wf_reads s : stmt_read s.
Proof.
  induction s as [x e|t e|t op e|c l o IHl IHo|c l IHl|o|c m|e|e] using Stmt_nested; [..|by apply if_read| | | | |]; intros Hw.
  all: split; [|done]; cbn [wf_stmt] in Hw; rewrite ?andb_true_iff in Hw.
  4: { apply while_reads; [tauto|apply blocks_read; tauto]. }
  4: by apply return_reads.
  all: intros fuel d ts Hf Hd Hn; cbn [print_stmt].
  - unfold parse_stmt. spread. play_step. unfold parse_let. play. apply top_reads; [done|]. by eapply follows_stops; [..|exact Hn].
  - spread. apply target_reads; [tauto|done|]. intros. apply assign_reads; [tauto|]. by eapply follows_stops; [..|exact Hn].
  - destruct Hw as ((Ht & (tok & Ho)%bool_decide_eq_true) & He). rewrite Ho. cbn [from_option]. spread. 
    apply target_reads; [done|by destruct op; try done; injection Ho as <-|]. intros. eapply compound_reads; [done..|]. by eapply follows_stops; [..|exact Hn].
  - unfold parse_stmt. spread. play_step. rewrite decide_True by done. unfold parse_require. play.
    + apply top_reads; [tauto|apply stops_comma].
    + apply top_reads; [tauto|apply stops_rparen].
  - unfold parse_stmt. spread. play_step. rewrite decide_False, decide_True by done. unfold parse_emit. play.
    apply top_reads; [tauto|apply stops_rparen].
  - destruct Hw. by apply alone_reads.
Qed.

Lemma parse_block_print l ts :
  wf_block l = true -> fits_blocks l = true -> runs parse_block (mkParser (lined (print_block l) ++ ts) 0 0) l (mkParser ts 0 0).
Proof.
  intros Hw Hd%Nat.leb_le. apply andb_true_iff in Hw as (Hw & Hs). apply blocks_read; [|done|done|unfold STMT_FUEL; lia|lia].
  apply Forall_forall. intros s _. apply wf_reads.
Qed.
End statements.

(** ** Contracts *)

Definition wf_body (l : list Stmt) : bool := wf_block l && fits_blocks l.
Definition wf_field (f : StateField) : bool := from_option wf_top true (fld_default f).
Definition wf_function (f : Function) : bool := wf_body (fn_body f).

Definition wf_contract (c : Contract) : bool :=
  forallb wf_field (state_fields c) && forallb wf_function (functions c) && forallb (fun h => wf_body (hook_body h)) (lifecycle_hooks c).

Section contracts.
Context `{StrDebug}.

Lemma body_reads l ts : wf_body l = true -> runs parse_block (mkParser (lined (print_block l) ++ ts) 0 0) l (mkParser ts 0 0).
Proof. intros [??]%andb_true_iff. by apply parse_block_print. Qed.

Lemma concat_length {A} (print : A -> list Token) l :
  (forall a, print a <> []) -> (length l <= length (concat (print <$> l)))%nat.
Proof.
  intros Hp. induction l as [|a l IH]; cbn; [lia|]. rewrite length_app. specialize (Hp a). destruct (print a); [done|]. cbn. lia.
Qed.

(** The state block. *)
Lemma fields_read n acc l ts :
  forallb wf_field l = true -> (length l < n)%nat ->
  runs (state_fields_until n acc) (mkParser (lined (concat (print_field <$> l)) ++ (TkRBrace, 1%nat) :: ts) 0 0)
    (acc ++ l) (mkParser ((TkRBrace, 1%nat) :: ts) 0 0).
Proof.
  revert n acc. induction l as [|f l IH]; intros [|n] acc Hw Hn; cbn in Hn; try lia; cbn [state_fields_until].
  - rewrite app_nil_r. play.
  - cbn in Hw. apply andb_true_iff in Hw as [Hf Hl]. destruct f as [x ty o]. cbn [fmap list_fmap concat]. unfold print_field at 1. cbn [fld_name fld_ty fld_default].
    assert (Hnext : next_ok (front (lined (concat (print_field <$> l)) ++ (TkRBrace, 1%nat) :: ts)) = true) by by destruct l.
    assert (Hstop : stops 0 (front (lined (concat (print_field <$> l)) ++ (TkRBrace, 1%nat) :: ts))) by (apply next_ok_stops; by destruct l).
    assert (Hrest : forall f, runs (state_fields_until n (acc ++ [f]))
      (mkParser (lined (concat (print_field <$> l)) ++ (TkRBrace, 1%nat) :: ts) 0 0) (acc ++ f :: l) (mkParser ((TkRBrace, 1%nat) :: ts) 0 0)).
    { intros f. replace (acc ++ f :: l) with ((acc ++ [f]) ++ l) by by rewrite <- app_assoc. apply IH; [done|lia]. }
    spread. play_step. rewrite (decide_False (P := TkIdent x = TkRBrace)) by done. unfold wf_field in Hf. cbn [fld_default] in Hf.
    do 2 (eapply runs_bind; [play|]). eapply runs_bind; [apply parse_type_print|]. destruct o as [e|]; cbn [from_option] in *; spread.
    + eapply runs_bind; [play; by apply top_reads|]. apply Hrest.
    + eapply runs_bind; [|apply Hrest]. play_step.
      rewrite decide_False by (intros E; revert Hnext; unfold front; unfold peek in *; cbn [rest] in *; by rewrite E). play.
Qed.

Lemma state_block_reads l ts :
  forallb wf_field l = true -> l <> [] -> runs parse_state_block (mkParser (lined (print_state l) ++ ts) 0 0) l (mkParser ts 0 0).
Proof.
  intros Hw Hl. destruct l as [|f l]; [done|]. unfold print_state, parse_state_block. spread. play. cbn [rest].
  apply (fields_read _ [] (f :: l)); [done|]. pose proof (concat_length print_field (f :: l) ltac:(done)).
  rewrite length_app, lined_length. cbn [length] in *. lia.
Qed.

(** A function. *)
Lemma parameters_read n acc l ts :
  (length l < n)%nat -> acc <> [] ->
  runs (parameters_until n acc) (mkParser (lined (concat (cons TkComma <$> (print_parameter <$> l))) ++ (TkRParen, 1%nat) :: ts) 0 0)
    (acc ++ l) (mkParser ((TkRParen, 1%nat) :: ts) 0 0).
Proof.
  revert n acc. induction l as [|[x t] l IH]; intros [|n] acc Hn Ha; cbn in Hn; try lia; cbn [parameters_until].
  - rewrite app_nil_r. play.
  - cbn [fmap list_fmap concat]. unfold print_parameter at 1. cbn [fst snd]. spread. play_step. rewrite decide_False by done.
    rewrite (decide_False (P := acc = [])) by done. play; [apply parse_type_print|].
    replace (acc ++ (x, t) :: l) with ((acc ++ [(x, t)]) ++ l) by by rewrite <- app_assoc. apply IH; [lia|by destruct acc].
Qed.

Lemma all_parameters_read n l ts :
  (length l < n)%nat ->
  runs (parameters_until n []) (mkParser (lined (commas (print_parameter <$> l)) ++ (TkRParen, 1%nat) :: ts) 0 0)
    l (mkParser ((TkRParen, 1%nat) :: ts) 0 0).
Proof.
  intros Hn. destruct n as [|n]; [lia|]. destruct l as [|[x t] l]; cbn [parameters_until]; [play|].
  cbn [fmap list_fmap commas]. unfold print_parameter at 1. cbn [fst snd]. spread. play; [apply parse_type_print|].
  apply (parameters_read n [(x, t)]); [cbn in Hn; lia|done].
Qed.

Lemma function_reads f ts : wf_function f = true -> runs parse_function (mkParser (lined (print_function f) ++ ts) 0 0) f (mkParser ts 0 0).
Proof.
  intros Hw. destruct f as [x l o body]. unfold wf_function in Hw. unfold print_function, parse_function. cbn [fn_name fn_params fn_return_type fn_body] in *.
  pose proof (body_reads body ts Hw) as Hb. spread. do 3 (eapply runs_bind; [play|]). eapply runs_bind.
  { play. cbn [rest]. apply all_parameters_read. rewrite length_app, lined_length. destruct l as [|p l]; cbn; [lia|].
    pose proof (commas_length (print_parameter <$> l)) as Hc. rewrite length_fmap in Hc. rewrite !length_app. cbn. lia. }
  eapply runs_bind; [play|]. destruct o as [t|]; cbn [from_option]; spread.
  - eapply runs_bind; [play; apply parse_type_print|]. play. exact Hb.
  - revert Hb. unfold print_block. spread. intros Hb. eapply runs_bind; [play|]. play. exact Hb.
Qed.

(** The members, hooks last. *)
Lemma hooks_read n c l ts :
  forallb (fun h => wf_body (hook_body h)) l = true -> (length l < n)%nat ->
  runs (members n c) (mkParser (lined (concat (print_hook <$> l)) ++ (TkRBrace, 1%nat) :: ts) 0 0)
    {| c_name := c_name c; state_fields := state_fields c; functions := functions c; lifecycle_hooks := lifecycle_hooks c ++ l |}
    (mkParser ((TkRBrace, 1%nat) :: ts) 0 0).
Proof.
  revert n c. induction l as [|h l IH]; intros [|n] c Hw Hn; cbn in Hn; try lia; cbn [members].
  - rewrite app_nil_r. play_step. destruct c. apply runs_ret.
  - cbn in Hw. apply andb_true_iff in Hw as [Hh Hl]. cbn [fmap list_fmap concat].
    assert (Hb := body_reads (hook_body h) (lined (concat (print_hook <$> l)) ++ (TkRBrace, 1%nat) :: ts) Hh).
    assert (Hrest := IH n {| c_name := c_name c; state_fields := state_fields c; functions := functions c; lifecycle_hooks := lifecycle_hooks c ++ [h] |} Hl ltac:(lia)).
    cbn [c_name state_fields functions lifecycle_hooks] in Hrest. rewrite <- app_assoc in Hrest.
    destruct h as [b|b|b]; cbn [print_hook hook_body] in *; spread; play_step; unfold parse_hook; (eapply runs_bind; [play; exact Hb|exact Hrest]).
Qed.

Lemma functions_read n c l hooks ts :
  forallb wf_function l = true -> forallb (fun h => wf_body (hook_body h)) hooks = true -> (length l + length hooks < n)%nat ->
  runs (members n c)
    (mkParser (lined (concat (print_function <$> l)) ++ lined (concat (print_hook <$> hooks)) ++ (TkRBrace, 1%nat) :: ts) 0 0)
    {| c_name := c_name c; state_fields := state_fields c; functions := functions c ++ l; lifecycle_hooks := lifecycle_hooks c ++ hooks |}
    (mkParser ((TkRBrace, 1%nat) :: ts) 0 0).
Proof.
  revert n c. induction l as [|f l IH]; intros n c Hw Hh Hn; cbn in Hn.
  - rewrite app_nil_r. apply hooks_read; [done|lia].
  - destruct n as [|n]; [lia|]. cbn [members]. cbn in Hw. apply andb_true_iff in Hw as [Hf Hl].
    cbn [fmap list_fmap concat]. rewrite lined_app, <- app_assoc.
    pose proof (function_reads f (lined (concat (print_function <$> l)) ++ lined (concat (print_hook <$> hooks)) ++ (TkRBrace, 1%nat) :: ts) Hf) as Hr.
    specialize (IH n {| c_name := c_name c; state_fields := state_fields c; functions := functions c ++ [f]; lifecycle_hooks := lifecycle_hooks c |} Hl Hh ltac:(lia)).
    cbn [c_name state_fields functions lifecycle_hooks] in IH. rewrite <- app_assoc in IH.
    assert (exists l', print_function f = TkFn :: l') as (l' & E) by by eexists. rewrite E in *. rewrite lined_cons in *. cbn [app] in *. play_step. eapply runs_bind; [exact Hr|exact IH].
Qed.

Lemma members_read n x fields l hooks ts :
  forallb wf_field fields = true -> forallb wf_function l = true -> forallb (fun h => wf_body (hook_body h)) hooks = true ->
  (S (length l + length hooks) < n)%nat ->
  runs (members n {| c_name := x; state_fields := []; functions := []; lifecycle_hooks := [] |})
    (mkParser (lined (print_state fields) ++ lined (concat (print_function <$> l)) ++ lined (concat (print_hook <$> hooks)) ++ (TkRBrace, 1%nat) :: ts) 0 0)
    {| c_name := x; state_fields := fields; functions := l; lifecycle_hooks := hooks |} (mkParser ((TkRBrace, 1%nat) :: ts) 0 0).
Proof.
  intros Hs Hl Hh Hn. destruct fields as [|f fields].
  - change (lined (print_state [])) with (@nil (Token * nat)). rewrite app_nil_l.
    apply (functions_read n {| c_name := x; state_fields := []; functions := []; lifecycle_hooks := [] |}); [done..|lia].
  - destruct n as [|n]; [lia|]. cbn [members].
    pose proof (state_block_reads (f :: fields) (lined (concat (print_function <$> l)) ++ lined (concat (print_hook <$> hooks)) ++ (TkRBrace, 1%nat) :: ts) Hs ltac:(done)) as Hr.
    revert Hr. unfold print_state. spread. intros Hr. play_step. cbn [state_fields length]. rewrite decide_True by done.
    eapply runs_bind; [exact Hr|].
    apply (functions_read n {| c_name := x; state_fields := f :: fields; functions := []; lifecycle_hooks := [] |}); [done..|lia].
Qed.

Lemma parse_contract_print c ts :
  wf_contract c = true -> runs parse_contract (mkParser (lined (print_contract c) ++ ts) 0 0) c (mkParser ts 0 0).
Proof.
  intros Hw. unfold wf_contract in Hw. rewrite !andb_true_iff in Hw. destruct Hw as ((Hs & Hf) & Hh).
  destruct c as [x fields l hooks]. cbn [state_fields functions lifecycle_hooks] in *. unfold print_contract, parse_contract.
  cbn [c_name state_fields functions lifecycle_hooks]. spread. play. cbn [rest]. apply members_read; [done..|].
  assert (forall f, print_function f <> []) by done. assert (Hne : forall h, print_hook h <> []) by by intros [].
  pose proof (concat_length print_function l ltac:(done)). pose proof (concat_length print_hook hooks Hne).
  rewrite !length_app, !lined_length. cbn [length]. lia.
Qed.

(** What is printed is read back, whatever follows. *)
Theorem parse_print_tokens c ts : wf_contract c = true -> parse_tokens (lined (print_contract c) ++ ts) = Some (Ok c).
Proof. intros Hw. unfold parse_tokens, parser_new. by rewrite (parse_contract_print c ts Hw). Qed.
End contracts.
