(* ===== verification/ScriptText.v ===== *)
(** * From a contract to its source and back

    The source text of a contract: the tokens of ScriptRoundTrip.v, one space before
    each.  The lexer of ScriptTokens.v reads them back, so [parse] is a left inverse of
    [source]. *)

From stdpp Require Import base gmap list strings pretty.
From Stdlib Require Import ZArith Lia.
From S2P Require Import Prelude Energy Trie ScriptValue ScriptVM ScriptCompiler ScriptTokens ScriptGrammar ScriptPrinter ScriptRoundTrip.

Open Scope Z_scope.

(** ** UTF-8 *)

Definition is_scalar (c : Z) : bool := (0 <=? c) && (c <? 1114112).

Definition encode (l : list Z) : bytes := concat (utf8_encode <$> l).

Lemma utf8_encode_bytes c : is_scalar c = true -> Forall is_u8 (utf8_encode c).
Proof.
  unfold is_scalar, utf8_encode, is_u8. rewrite andb_true_iff, Z.leb_le, Z.ltb_lt. intros Hc.
  repeat case_match; repeat constructor; rewrite ?Z.ltb_lt, ?Z.ltb_ge in *.
  all: try (Z.div_mod_to_equations; lia).
Qed.

Lemma utf8_decode_encode c b : is_scalar c = true -> utf8_decode (utf8_encode c ++ b) = c :: utf8_decode b.
Proof.
  unfold is_scalar. rewrite andb_true_iff, Z.leb_le, Z.ltb_lt. intros Hc. unfold utf8_encode.
  destruct (Z.ltb_spec c 128); [cbn [app utf8_decode]; by rewrite (proj2 (Z.ltb_lt c 128))|].
  destruct (Z.ltb_spec c 2048).
  { cbn [app utf8_decode]. rewrite (proj2 (Z.ltb_ge _ 128)), (proj2 (Z.ltb_lt _ 224)) by (Z.div_mod_to_equations; lia).
    f_equal. Z.div_mod_to_equations; lia. }
  destruct (Z.ltb_spec c 65536).
  { cbn [app utf8_decode]. rewrite (proj2 (Z.ltb_ge _ 128)), (proj2 (Z.ltb_ge _ 224)), (proj2 (Z.ltb_lt _ 240)) by (Z.div_mod_to_equations; lia).
    f_equal. Z.div_mod_to_equations; lia. }
  cbn [app utf8_decode]. rewrite (proj2 (Z.ltb_ge _ 128)), (proj2 (Z.ltb_ge _ 224)), (proj2 (Z.ltb_ge _ 240)) by (Z.div_mod_to_equations; lia).
  f_equal. Z.div_mod_to_equations; lia.
Qed.

Lemma utf8_round_trip l : forallb is_scalar l = true -> utf8_decode (encode l) = l.
Proof.
  induction l as [|c l IH]; [done|]. cbn [forallb]. intros [Hc Hl]%andb_true_iff. unfold encode. cbn [fmap list_fmap concat].
  rewrite utf8_decode_encode by done. f_equal. by apply IH.
Qed.

Lemma encode_bytes l : forallb is_scalar l = true -> Forall is_u8 (encode l).
Proof.
  induction l as [|c l IH]; [constructor|]. cbn [forallb]. intros [Hc Hl]%andb_true_iff. unfold encode. cbn [fmap list_fmap concat].
  apply Forall_app_2; [by apply utf8_encode_bytes|by apply IH].
Qed.

Lemma bytes_of_text b : Forall is_u8 b -> bytes_of_string (text_of_bytes b) = b.
Proof.
  intros Hb. unfold bytes_of_string, text_of_bytes. rewrite String.list_ascii_of_string_of_list_ascii, <- list_fmap_compose.
  induction Hb as [|x b Hx _ IH]; [done|]. cbn. f_equal; [|exact IH]. unfold is_u8 in Hx. unfold compose. rewrite Ascii.nat_ascii_embedding; lia.
Qed.

Lemma chars_text l : forallb is_scalar l = true -> chars (text l) = l.
Proof. intros Hl. unfold chars, text. rewrite bytes_of_text by by apply encode_bytes. by apply utf8_round_trip. Qed.

Lemma length_encode l : (length l <= length (encode l))%nat.
Proof.
  induction l as [|c l IH]; [done|]. unfold encode in *. cbn [fmap list_fmap concat length]. rewrite length_app.
  enough (1 <= length (utf8_encode c))%nat by lia. unfold utf8_encode. repeat case_match; cbn; lia.
Qed.

Lemma length_text l : String.length (text l) = length (encode l).
Proof.
  unfold text, text_of_bytes. fold (encode l). induction (encode l) as [|x b IH]; [done|]. cbn. f_equal. exact IH.
Qed.

(** ** Literals and names *)

Fixpoint decimal_from (fuel : nat) (n : Z) : list Z :=
  match fuel with
  | O => []
  | S fuel => if n <? 10 then [48 + n] else decimal_from fuel (n / 10) ++ [48 + n mod 10]
  end.

(** Enough for any [u64]. *)
Definition decimal (n : Z) : list Z := decimal_from 20 n.

Lemma decimal_from_value fuel n : 0 <= n < 10 ^ Z.of_nat fuel -> digits_value (decimal_from fuel n) = n.
Proof.
  revert n. induction fuel as [|fuel IH]; intros n Hn; [cbn in *; lia|]. cbn [decimal_from].
  rewrite Nat2Z.inj_succ, Z.pow_succ_r in Hn by lia. unfold digits_value in *. destruct (Z.ltb_spec n 10); [cbn [foldl]; lia|].
  rewrite foldl_app, IH by (Z.div_mod_to_equations; lia). cbn [foldl]. Z.div_mod_to_equations; lia.
Qed.

Lemma decimal_from_digits fuel n : 0 <= n -> Forall (fun c => is_ascii_digit c = true) (decimal_from fuel n).
Proof.
  assert (Hd : forall d, 0 <= d < 10 -> is_ascii_digit (48 + d) = true) by (intros; unfold is_ascii_digit; apply andb_true_iff; rewrite !Z.leb_le; lia).
  revert n. induction fuel as [|fuel IH]; intros n Hn; [constructor|]. cbn [decimal_from].
  destruct (Z.ltb_spec n 10); [repeat constructor; apply Hd; lia|].
  apply Forall_app_2; [apply IH; by apply Z.div_pos|]. repeat constructor. apply Hd. by apply Z.mod_pos_bound.
Qed.

(** Quotes, backslashes and newlines are escaped. *)
Definition escape (c : Z) : list Z :=
  if (c =? 34) || (c =? 92) then [92; c] else if c =? 10 then [92; 110] else [c].

(** The text of a Rust string: valid UTF-8. *)
Definition valid_text (s : string) : bool := forallb is_scalar (chars s) && bool_decide (text (chars s) = s).

Definition punctuation (t : Token) : list Z :=
  match t with
  | TkPlus => [43] | TkMinus => [45] | TkStar => [42] | TkSlash => [47] | TkPercent => [37] | TkEqEq => [61; 61] | TkNeq => [33; 61]
  | TkGt => [62] | TkLt => [60] | TkGte => [62; 61] | TkLte => [60; 61] | TkAnd => [38; 38] | TkOr => [124; 124] | TkNot => [33]
  | TkAssign => [61] | TkPlusAssign => [43; 61] | TkMinusAssign => [45; 61] | TkStarAssign => [42; 61] | TkSlashAssign => [47; 61]
  | TkShl => [60; 60] | TkShr => [62; 62] | TkArrow => [45; 62]
  | TkLBrace => [123] | TkRBrace => [125] | TkLParen => [40] | TkRParen => [41] | TkLBracket => [91] | TkRBracket => [93]
  | TkComma => [44] | TkColon => [58] | TkDot => [46]
  | _ => []
  end.

Definition keyword_text (t : Token) : option string :=
  match t with
  | TkContract => Some "contract" | TkState => Some "state" | TkFn => Some "fn" | TkLet => Some "let" | TkIf => Some "if" | TkElse => Some "else"
  | TkWhile => Some "while" | TkReturn => Some "return" | TkSelfKw => Some "self" | TkTrue => Some "true" | TkFalse => Some "false"
  | TkOnEvaporate => Some "on_evaporate" | TkOnGrace => Some "on_grace" | TkOnRefresh => Some "on_refresh"
  | TkU64Type => Some "u64" | TkBoolType => Some "bool" | TkStringType => Some "string" | TkAddressType => Some "address"
  | TkMapType => Some "map" | TkArrayType => Some "array"
  | TkIdent x => Some x
  | _ => None
  end%string.

Definition token_chars (t : Token) : list Z :=
  match t with
  | TkIntLit n => decimal n
  | TkStrLit s => [34] ++ concat (escape <$> chars s) ++ [34]
  | _ => match keyword_text t with Some s => chars s | None => punctuation t end
  end.

Definition source_chars (l : list Token) : list Z := concat ((fun t => 32 :: token_chars t) <$> l).

Definition source_of (l : list Token) : string := text (source_chars l).

Definition source (c : Contract) : string := source_of (print_contract c).

Section lexable.
Context `{Unicode}.

(** An identifier the lexer takes whole, and for what it is. *)
Definition lexable_name (x : string) : bool :=
  valid_text x && bool_decide (keyword x = TkIdent x) && forallb ident_char (chars x) &&
  match chars x with c :: _ => (is_alphabetic c || (c =? 95)) && negb (is_whitespace c) | [] => false end.

Definition lexable (t : Token) : bool :=
  match t with
  | TkIdent x => lexable_name x
  | TkIntLit n => (0 <=? n) && (n <=? U64_MAX)
  | TkStrLit s => valid_text s && (Z.of_nat (String.length s) <=? MAX_STRING_LITERAL)
  | TkEof => false
  | _ => true
  end.

(** What can stand behind a token. *)
Definition gap (l : list Z) : Prop := l = [] \/ exists l', l = 32 :: l'.

Lemma gap_head p l : (p 32 = false) -> gap l -> forall c, head l = Some c -> p c = false.
Proof. by intros Hp [-> |(l' & ->)] c [= <-]. Qed.

Lemma span_app p a b : Forall (fun c => p c = true) a -> (forall c, head b = Some c -> p c = false) -> span p (a ++ b) = (a, b).
Proof.
  intros Ha Hb. induction Ha as [|c a Hc _ IH]; cbn [app span].
  - destruct b as [|c b]; [done|]. cbn [span]. by rewrite (Hb c).
  - by rewrite Hc, IH.
Qed.

Lemma ident_char_space : ident_char 32 = false. Proof. done. Qed.

Lemma forallb_Forall_true (p : Z -> bool) l : forallb p l = true -> Forall (fun c => p c = true) l.
Proof. rewrite forallb_forall, Forall_forall. intros Hl c Hc. by apply Hl, list_elem_of_In. Qed.

Lemma skip_to c l line :
  is_whitespace c = false -> c <> 47 \/ (forall d, head l = Some d -> d <> 47) ->
  skip_whitespace_and_comments false (32 :: c :: l) line = {| lx_chars := c :: l; lx_line := line |}.
Proof.
  intros Hc Hd. cbn [skip_whitespace_and_comments]. change (is_whitespace 32) with true. change (line_after 32 line) with line. cbn iota.
  rewrite Hc. destruct l as [|d l]; [done|]. destruct (Z.eqb_spec c 47), (Z.eqb_spec d 47); try done. destruct Hd as [?|Hd]; [done|]. by specialize (Hd d eq_refl).
Qed.

Lemma not_slash c : is_alphabetic c || (c =? 95) = true -> c <> 47.
Proof. by intros Ha ->. Qed.

(** A name or a keyword. *)
Lemma name_lexes x t c l rest line :
  chars x = c :: l -> is_alphabetic c || (c =? 95) = true -> is_whitespace c = false -> forallb ident_char (c :: l) = true ->
  text (chars x) = x -> keyword x = t -> gap rest ->
  next_token {| lx_chars := 32 :: chars x ++ rest; lx_line := line |} = Ok (t, line, {| lx_chars := rest; lx_line := line |}).
Proof.
  intros Ec Ha Hs Hi Ht Hk Hg. unfold next_token. cbn [lx_chars lx_line]. rewrite Ec. cbn [app].
  rewrite skip_to by (first [done|left; by apply not_slash]). cbn [lx_chars lx_line]. rewrite Ha. change (c :: l ++ rest) with ((c :: l) ++ rest).
  rewrite span_app; [|by apply forallb_Forall_true|by apply gap_head]. by rewrite <- Ec, Ht, Hk.
Qed.

(** A number. *)
Lemma digit_ascii c : is_ascii_digit c = true -> is_alphabetic c || (c =? 95) = false /\ is_whitespace c = false /\ c <> 47.
Proof.
  unfold is_ascii_digit. rewrite andb_true_iff, !Z.leb_le. intros Hc. unfold is_alphabetic, is_whitespace.
  rewrite (proj2 (Z.ltb_lt c 128)) by lia. rewrite orb_false_iff, !orb_false_iff, !andb_false_iff, !Z.leb_gt, !Z.eqb_neq. lia.
Qed.

Lemma decimal_nonempty n : decimal n <> [].
Proof. unfold decimal. cbn [decimal_from]. destruct (n <? 10); [done|]. by intros [_ ?]%app_nil. Qed.

Lemma number_lexes n rest line :
  0 <= n <= U64_MAX -> gap rest ->
  next_token {| lx_chars := 32 :: decimal n ++ rest; lx_line := line |} = Ok (TkIntLit n, line, {| lx_chars := rest; lx_line := line |}).
Proof.
  intros Hn Hg. pose proof (decimal_from_digits 20 n ltac:(lia)) as Hd. pose proof (decimal_nonempty n) as Hne.
  assert (Hv : digits_value (decimal n) = n) by (apply decimal_from_value; unfold U64_MAX in Hn; lia). fold (decimal n) in Hd.
  unfold next_token. cbn [lx_chars lx_line]. destruct (decimal n) as [|c l] eqn:E; [done|]. cbn [app].
  destruct (digit_ascii c) as (Ha & Hs & H47); [by apply Forall_inv in Hd|]. rewrite skip_to by auto. cbn [lx_chars lx_line]. rewrite Ha.
  rewrite (Forall_inv Hd). unfold read_number. change (c :: l ++ rest) with ((c :: l) ++ rest).
  rewrite span_app; [|done|by apply gap_head]. rewrite Hv. by rewrite (proj2 (Z.leb_le _ _)) by lia.
Qed.

(** A string. *)
Lemma read_string_escape l rest line s :
  forallb is_scalar l = true -> Z.of_nat (length s + length (encode l)) <= MAX_STRING_LITERAL ->
  read_string (concat (escape <$> l) ++ 34 :: rest) line s = Ok (text_of_bytes (s ++ encode l), {| lx_chars := rest; lx_line := line |}).
Proof.
  revert s. induction l as [|c l IH]; intros s Hl Hs.
  - cbn [fmap list_fmap concat app read_string]. by rewrite app_nil_r.
  - cbn [forallb] in Hl. apply andb_true_iff in Hl as [Hc Hl]. unfold encode in *. cbn [fmap list_fmap concat] in *. rewrite length_app in Hs.
    assert (Hpos : (1 <= length (utf8_encode c))%nat) by (unfold utf8_encode; repeat case_match; cbn; lia).
    specialize (IH (s ++ utf8_encode c) Hl). rewrite length_app in IH. specialize (IH ltac:(lia)). rewrite <- app_assoc in IH.
    unfold escape at 1. destruct (Z.eqb_spec c 34) as [->|H34]; [exact IH|]. destruct (Z.eqb_spec c 92) as [->|H92]; [exact IH|].
    destruct (Z.eqb_spec c 10) as [->|H10]; [exact IH|]. cbn [orb app read_string]. unfold line_after. rewrite (proj2 (Z.eqb_neq c 10)) by done.
    rewrite (proj2 (Z.eqb_neq c 34)), (proj2 (Z.eqb_neq c 92)) by done. by rewrite (proj2 (Z.leb_gt _ _)) by lia.
Qed.

Lemma valid_text_split s : valid_text s = true -> forallb is_scalar (chars s) = true /\ text (chars s) = s.
Proof. unfold valid_text. by rewrite andb_true_iff, bool_decide_eq_true. Qed.

Lemma string_lexes s rest line :
  valid_text s = true -> Z.of_nat (String.length s) <= MAX_STRING_LITERAL ->
  next_token {| lx_chars := 32 :: ([34] ++ concat (escape <$> chars s) ++ [34]) ++ rest; lx_line := line |} =
  Ok (TkStrLit s, line, {| lx_chars := rest; lx_line := line |}).
Proof.
  intros (Hs & Ht)%valid_text_split Hl. unfold next_token. cbn [lx_chars lx_line app]. rewrite <- app_assoc. cbn [app].
  rewrite skip_to by auto. cbn [lx_chars lx_line]. change (is_alphabetic 34 || (34 =? 95)) with false. change (is_ascii_digit 34) with false. cbn iota.
  change (34 =? 34) with true. cbn iota. rewrite read_string_escape; [|done|]. { by change (text_of_bytes ([] ++ encode (chars s))) with (text (chars s)); rewrite Ht. }
  cbn [length]. rewrite <- length_text, Ht. done.
Qed.

Lemma token_lexes t rest line :
  lexable t = true -> gap rest ->
  next_token {| lx_chars := 32 :: token_chars t ++ rest; lx_line := line |} = Ok (t, line, {| lx_chars := rest; lx_line := line |}).
Proof.
  intros Ht Hg. destruct (keyword_text t) as [x|] eqn:Ek.
  - destruct t; cbn in Ek; simplify_eq; cbn [token_chars keyword_text].
    all: try (eapply name_lexes; [vm_compute; reflexivity|reflexivity..|done]).
    cbn [lexable] in Ht. unfold lexable_name in Ht. rewrite !andb_true_iff in Ht. destruct Ht as (((Hv & Hk) & Hi) & Hc).
    apply valid_text_split in Hv as (_ & Hv). apply bool_decide_eq_true in Hk. destruct (chars x) as [|c l] eqn:E; [done|].
    apply andb_true_iff in Hc as (Ha & Hw%negb_true_iff). rewrite <- E.
    eapply name_lexes; [exact E|done|done|done|by rewrite E|done|done].
  - destruct t as [| | | | | | | | | | | | | | | | | | | |x|n|str| | | | | | | | | | | | | | | | | | | | | | | | | | | | | | | |]; try done; cbn [lexable] in Ht.
    1: { apply andb_true_iff in Ht as (H0%Z.leb_le & H1%Z.leb_le). by apply number_lexes. }
    1: { apply andb_true_iff in Ht as (H0 & H1%Z.leb_le). by apply string_lexes. }
    all: cbn [token_chars keyword_text punctuation]; by destruct Hg as [-> |(l' & ->)].
Qed.

(** ** The whole source *)

Lemma source_gap l : gap (source_chars l).
Proof. destruct l as [|t l]; [by left|right; by eexists]. Qed.

Lemma tokenize_from_source fuel l count :
  forallb lexable l = true -> (length l < fuel)%nat -> count + Z.of_nat (length l) < MAX_TOKENS ->
  tokenize_from fuel {| lx_chars := source_chars l; lx_line := 1 |} count = Some (Ok (lined l ++ [(TkEof, 1%nat)])).
Proof.
  revert fuel count. induction l as [|t l IH]; intros [|fuel] count Hl Hf Hc; cbn [length] in *; try lia; cbn [tokenize_from].
  - rewrite (proj2 (Z.ltb_ge _ _)) by lia. done.
  - cbn [forallb] in Hl. apply andb_true_iff in Hl as (Ht & Hl).
    change (source_chars (t :: l)) with (32 :: token_chars t ++ source_chars l). rewrite token_lexes by (try done; apply source_gap).
    rewrite (proj2 (Z.ltb_ge _ _)) by lia. rewrite decide_False by (by intros ->). rewrite IH by (try done; lia). done.
Qed.

Lemma token_chars_scalar t : lexable t = true -> forallb is_scalar (token_chars t) = true /\ (1 <= length (token_chars t))%nat.
Proof.
  intros Ht. destruct t; try done; try (split; [reflexivity|vm_compute; lia]); cbn [lexable token_chars keyword_text punctuation] in *.
  - unfold lexable_name in Ht. rewrite !andb_true_iff in Ht. destruct Ht as (((Hv & _) & _) & Hc). apply valid_text_split in Hv as (Hv & _).
    split; [done|]. destruct (chars name); [done|]. cbn. lia.
  - apply andb_true_iff in Ht as (H0%Z.leb_le & _). split; [|pose proof (decimal_nonempty n); destruct (decimal n); [done|cbn; lia]].
    apply forallb_forall. intros c Hc%list_elem_of_In. pose proof (decimal_from_digits 20 n H0) as Hd. rewrite Forall_forall in Hd. specialize (Hd c Hc).
    unfold is_ascii_digit in Hd. unfold is_scalar. rewrite andb_true_iff, !Z.leb_le in *. rewrite Z.ltb_lt. lia.
  - apply andb_true_iff in Ht as ((Hv & _)%valid_text_split & _). split; [|cbn; lia]. rewrite !forallb_app. cbn [forallb]. rewrite !andb_true_iff. split_and!; try done.
    induction (chars s) as [|c l IH]; [done|]. cbn [forallb] in Hv. apply andb_true_iff in Hv as (Hc & Hl). cbn [fmap list_fmap concat]. rewrite forallb_app, IH by done.
    unfold escape. repeat case_match; cbn [forallb]; rewrite ?Hc; done.
Qed.

Lemma source_chars_scalar l :
  forallb lexable l = true -> forallb is_scalar (source_chars l) = true /\ (2 * length l <= length (source_chars l))%nat.
Proof.
  induction l as [|t l IH]; [done|]. cbn [forallb]. intros (Ht & Hl)%andb_true_iff. destruct (IH Hl) as (Hs & Hn). destruct (token_chars_scalar t Ht) as (Hc & Hp).
  change (source_chars (t :: l)) with (32 :: token_chars t ++ source_chars l). cbn [forallb length]. rewrite forallb_app, length_app, Hc, Hs. split; [done|lia].
Qed.

(** The lexer reads a list of tokens back from its text. *)
Lemma tokenize_source l :
  forallb lexable l = true -> too_large (source_of l) = false -> tokenize (source_of l) = Some (Ok (lined l ++ [(TkEof, 1%nat)])).
Proof.
  intros Hl Hs. destruct (source_chars_scalar l Hl) as (Hc & Hn). unfold tokenize. rewrite Hs. unfold tokenize_chars, source_of.
  rewrite chars_text by done. apply Z.ltb_ge in Hs. unfold source_of in Hs. rewrite length_text in Hs. pose proof (length_encode (source_chars l)).
  apply tokenize_from_source; [done|unfold lex_fuel; lia|]. unfold MAX_TOKENS, MAX_SOURCE_BYTES in *. lia.
Qed.
End lexable.

(** C13: the parser is a left inverse of the printer, down to the bytes: a contract built from what
    the grammar has (literals in range, names the lexer takes for names, nesting within the
    guards, neighbouring statements the grammar keeps apart) is read back unchanged from its
    source, with the precedence and associativity of every operator, every kind of statement,
    type and hook, and every character of its strings. *)
Theorem parse_source `{StrDebug, Unicode} (c : Contract) :
  wf_contract c = true -> forallb lexable (print_contract c) = true -> too_large (source c) = false ->
  parse (source c) = Some (Ok c).
Proof. intros Hw Hl Hs. unfold parse, source in *. rewrite tokenize_source by done. by apply parse_print_tokens. Qed.

(** ** A contract with everything in it *)

Module Sample.
Export ToyScript.

(** Nothing beyond ASCII is a letter, a digit or a space. *)
#[global] Instance ascii_unicode : Unicode :=
  {| wide_whitespace _ := false; wide_alphabetic _ := false; wide_numeric _ := false |}.

Definition quote : string := String (Ascii.ascii_of_nat 34) "".
Definition newline : string := String (Ascii.ascii_of_nat 10) "".

Definition lit (n : Z) : Expr := Literal (U64 n).

(** [n - (2 - 3) << 1 < 4 && !(a == b || self.m[a] >= xs[0])] *)
Definition tangled : Expr :=
  BinaryOp
    (BinaryOp (BinaryOp (BinaryOp (Var "n") BSub (BinaryOp (lit 2) BSub (lit 3))) BShl (lit 1)) BLt (lit 4)) BAnd
    (Unary UNot (BinaryOp (BinaryOp (Var "a") BEq (Var "b")) BOr (BinaryOp (MapAccess "m" (Var "a")) BGte (ArrayAccess (Var "xs") (lit 0))))).

Definition body : list Stmt :=
  [ SLet "xs" (ArrayLiteral [lit 1; lit 18446744073709551615; FunctionCall "min" [Var "n"; lit 7]]);
    SRequire tangled (Literal (Str ("not " +:+ quote +:+ "now" +:+ quote +:+ newline +:+ "\ é")));
    SWhile (BinaryOp (Var "n") BGt (lit 0)) [SCompoundAssign (TVariable "n") BSub (lit 1); SAssign (TArrayElement "xs" (lit 0)) (Var "n")];
    SIf (Literal (VBool false)) [SExpr (FunctionCall "log" []); SReturn None]
      (Some [SIf (Var "a") [SEmit (Var "n")] (Some [SExpr (Unary UNeg (lit 1)); SCompoundAssign (TMapEntry "m" (Var "a")) BMul (lit 2)])]);
    SAssign (TStateField "n") (Var "n");
    SReturn (Some (BinaryOp (BinaryOp (lit 9) BDiv (lit 2)) BMod (BinaryOp (lit 3) BMul (lit 4)))) ].

Definition sample : Contract :=
  {| c_name := "Sample";
     state_fields := [{| fld_name := "m"; fld_ty := TMap TAddress (TArray TU64); fld_default := None |};
                      {| fld_name := "n"; fld_ty := TU64; fld_default := Some (Unary UNeg (lit 5)) |}];
     functions := [{| fn_name := "f"; fn_params := [("n", TU64); ("a", TBool)]%string; fn_return_type := Some TString; fn_body := body |}];
     lifecycle_hooks := [OnGrace [SEmit (Literal (Str "grace"))]; OnEvaporate []] |}.
End Sample.

Lemma parse_source_witness : parse (source Sample.sample) = Some (Ok Sample.sample).
Proof. apply parse_source; vm_compute; reflexivity. Defined.
