(* ===== verification/ScriptEngine.v ===== *)
(** * The script engine

    crates/evaporchain-script/src/lib.rs: deployed contracts, deployment and
    upgrade, calls with the cross-contract router, lifecycle hooks, the epoch
    tick and energy refresh.

    The operations take the result of [parser::parse], given with the length of
    the source; ScriptSource.v has them on source text.  The router implements
    the [ExternalCaller] interface of the machine: a call at depth [d] runs
    the callee with the router for depth [d + 1], so the recursion is on the
    depth that is left, and [CALL_FUEL] levels are enough because both sides
    refuse depth [MAX_CALL_DEPTH]. *)

From stdpp Require Import base gmap list sorting strings.
From Stdlib Require Import ZArith Lia.
From S2P Require Import Prelude Energy Trie ScriptValue ScriptVM ScriptCompiler.

Open Scope Z_scope.

(** ** Contracts *)

Record ScriptContract := {
  sc_id : Z;
  sc_name : string;
  sc_bytecode : EvaporBytecode;
  sc_abi : ContractAbi;
  sc_state : gmap string Value;
  sc_creator : bytes;
  sc_created_epoch : Z;
  sc_energy : Z;
  sc_half_life : Z;
  sc_last_refreshed : Z;
  sc_evaporated : bool;
  sc_storage_bytes_charged : Z;
  sc_admin : option bytes;
  sc_upgrade_count : Z;
}.

Definition energy_at (c : ScriptContract) (epoch : Z) : Z :=
  energy_at_epoch (sc_energy c) (sc_half_life c) (saturating_sub epoch (sc_last_refreshed c)).

Definition with_state (st : gmap string Value) (c : ScriptContract) : ScriptContract :=
  {| sc_id := sc_id c; sc_name := sc_name c; sc_bytecode := sc_bytecode c; sc_abi := sc_abi c;
     sc_state := st; sc_creator := sc_creator c; sc_created_epoch := sc_created_epoch c;
     sc_energy := sc_energy c; sc_half_life := sc_half_life c;
     sc_last_refreshed := sc_last_refreshed c; sc_evaporated := sc_evaporated c;
     sc_storage_bytes_charged := sc_storage_bytes_charged c; sc_admin := sc_admin c;
     sc_upgrade_count := sc_upgrade_count c |}.

Definition with_evaporated (b : bool) (c : ScriptContract) : ScriptContract :=
  {| sc_id := sc_id c; sc_name := sc_name c; sc_bytecode := sc_bytecode c; sc_abi := sc_abi c;
     sc_state := sc_state c; sc_creator := sc_creator c; sc_created_epoch := sc_created_epoch c;
     sc_energy := sc_energy c; sc_half_life := sc_half_life c;
     sc_last_refreshed := sc_last_refreshed c; sc_evaporated := b;
     sc_storage_bytes_charged := sc_storage_bytes_charged c; sc_admin := sc_admin c;
     sc_upgrade_count := sc_upgrade_count c |}.

Definition with_energy (e epoch : Z) (c : ScriptContract) : ScriptContract :=
  {| sc_id := sc_id c; sc_name := sc_name c; sc_bytecode := sc_bytecode c; sc_abi := sc_abi c;
     sc_state := sc_state c; sc_creator := sc_creator c; sc_created_epoch := sc_created_epoch c;
     sc_energy := e; sc_half_life := sc_half_life c;
     sc_last_refreshed := epoch; sc_evaporated := sc_evaporated c;
     sc_storage_bytes_charged := sc_storage_bytes_charged c; sc_admin := sc_admin c;
     sc_upgrade_count := sc_upgrade_count c |}.

Definition with_code (name : string) (bc : EvaporBytecode) (abi : ContractAbi)
    (st : gmap string Value) (count : Z) (c : ScriptContract) : ScriptContract :=
  {| sc_id := sc_id c; sc_name := name; sc_bytecode := bc; sc_abi := abi;
     sc_state := st; sc_creator := sc_creator c; sc_created_epoch := sc_created_epoch c;
     sc_energy := sc_energy c; sc_half_life := sc_half_life c;
     sc_last_refreshed := sc_last_refreshed c; sc_evaporated := sc_evaporated c;
     sc_storage_bytes_charged := sc_storage_bytes_charged c; sc_admin := sc_admin c;
     sc_upgrade_count := count |}.

Record ScriptEngine := {
  contracts : gmap Z ScriptContract;
  next_id : Z;
  e_vrf : bytes;
}.

Definition engine_new : ScriptEngine :=
  {| contracts := ∅; next_id := 1; e_vrf := replicate 32 0 |}.

Definition set_contracts (cs : gmap Z ScriptContract) (e : ScriptEngine) : ScriptEngine :=
  {| contracts := cs; next_id := next_id e; e_vrf := e_vrf e |}.

(** [for (key, value) in changes { state.insert(key, value) }] *)
Definition apply_changes (changes : gmap string Value) (c : ScriptContract) : ScriptContract :=
  with_state (changes ∪ sc_state c) c.

(** ** The cross-contract router *)

(** The snapshot of one contract. *)
Record RouterEntry := {
  re_bytecode : EvaporBytecode;
  re_state : gmap string Value;
  re_creator : bytes;
  re_created_epoch : Z;
  re_energy : Z;
  re_half_life : Z;
  re_last_refreshed : Z;
  re_evaporated : bool;
}.

Record ContractCallRouter := {
  rt_contracts : gmap Z RouterEntry;
  rt_vrf : bytes;
  state_patches : list (Z * gmap string Value);
  collected_events : list ContractEvent;
  active_calls : gset Z;
}.

Definition snapshot (c : ScriptContract) : RouterEntry :=
  {| re_bytecode := sc_bytecode c; re_state := sc_state c; re_creator := sc_creator c;
     re_created_epoch := sc_created_epoch c; re_energy := sc_energy c;
     re_half_life := sc_half_life c; re_last_refreshed := sc_last_refreshed c;
     re_evaporated := sc_evaporated c |}.

Definition from_engine (e : ScriptEngine) : ContractCallRouter :=
  {| rt_contracts := snapshot <$> contracts e; rt_vrf := e_vrf e; state_patches := [];
     collected_events := []; active_calls := ∅ |}.

Definition set_active (a : gset Z) (x : ContractCallRouter) : ContractCallRouter :=
  {| rt_contracts := rt_contracts x; rt_vrf := rt_vrf x; state_patches := state_patches x;
     collected_events := collected_events x; active_calls := a |}.

Definition record_call (id : Z) (r : ScriptCallResult) (x : ContractCallRouter) : ContractCallRouter :=
  {| rt_contracts := rt_contracts x; rt_vrf := rt_vrf x;
     state_patches := state_patches x ++ [(id, state_changes r)];
     collected_events := collected_events x ++ r_structured_events r;
     active_calls := active_calls x |}.

Section engine.
Context `{Hex, StrDebug, HashOrder, Blake3}.

(** A run that outlives the step bound does not exist ([execute_terminates]);
    the branch is there to make the definition total. *)
Definition run_result {X} (o : option (result ScriptCallResult ScriptError * option X)) (x : X)
  : result ScriptCallResult ScriptError * X :=
  match o with
  | Some (r, Some x') => (r, x')
  | Some (r, None) => (r, x)
  | None => (Err (StepLimitExceeded U64_MAX MAX_STEPS), x)
  end.

(** [ContractCallRouter::call_external], with [fuel] levels left. *)
Fixpoint router_call (fuel : nat) : ExternalCaller ContractCallRouter :=
  fun x contract_id method args caller epoch call_depth gas_remaining =>
    if MAX_CALL_DEPTH <=? call_depth then (Err (Runtime CallDepthExceeded), x)
    else if decide (contract_id ∈ active_calls x) then (Err (Runtime (Reentrancy contract_id)), x)
    else
      match rt_contracts x !! contract_id with
      | None => (Err (Runtime (ContractNotFound contract_id)), x)
      | Some c =>
          if re_evaporated c then (Err (Runtime (ContractEvaporated contract_id)), x)
          else
            let current_energy := energy_at_epoch (re_energy c) (re_half_life c)
              (saturating_sub epoch (re_last_refreshed c)) in
            if current_energy =? 0 then (Err (Runtime (ContractNoEnergy contract_id)), x)
            else
              let ctx := {| caller := caller; owner := re_creator c; epoch := epoch;
                            energy := current_energy; vrf_randomness := rt_vrf x;
                            call_depth := call_depth |} in
              let x := set_active (active_calls x ∪ {[ contract_id ]}) x in
              let '(result, x) :=
                match fuel with
                | O => (Err (Runtime CallDepthExceeded), x)
                | S fuel' =>
                    run_result (execute_full_with_self (ExternalCaller0 := router_call fuel')
                      (re_bytecode c) method args (re_state c) ctx gas_remaining (Some x)
                      contract_id) x
                end in
              let x := set_active (active_calls x ∖ {[ contract_id ]}) x in
              match result with
              | Err e => (Err e, x)
              | Ok r => (Ok (return_value r, r_structured_events r, r_gas_used r),
                         record_call contract_id r x)
              end
      end.

Definition CALL_FUEL : nat := 8.

#[global] Instance router_caller : ExternalCaller ContractCallRouter := router_call CALL_FUEL.

(** ** Deployment *)

Definition default_of (ty : ScriptType) : Value :=
  match ty with
  | TU64 => U64 0
  | TBool => VBool false
  | TString => Str EmptyString
  | TAddress => Address (replicate 32 0)
  | TMap _ _ => VMap ∅
  | TArray _ => VArray []
  end.

Definition field_default (f : StateFieldSchema) : Value := default (default_of (sf_ty f)) (sf_default f).

Definition initial_state (schema : StateSchema) : gmap string Value :=
  foldl (fun st f => <[ sf_name f := field_default f ]> st) ∅ schema.

(** [compiler::compile(&ast)?]; it never panics ([generated_code_validates]). *)
Definition compile_or_err (ast : Contract) : result EvaporBytecode ScriptError :=
  match compile ast with
  | Some r => r
  | None => Err (CompileError (c_name ast))
  end.

Definition deploy (parsed : result Contract ScriptError) (source_len : Z) (creator : bytes)
    (energy half_life current_epoch : Z) (e : ScriptEngine) : ScriptEngine * result Z ScriptError :=
  let r :=
    let? ast := parsed in
    let? bytecode := compile_or_err ast in
    let? _ := validate_deploy_bytecode bytecode in
    Ok (ast, bytecode) in
  match r with
  | Err err => (e, Err err)
  | Ok (ast, bytecode) =>
      let id := next_id e in
      let c := {| sc_id := id; sc_name := c_name ast; sc_bytecode := bytecode;
                  sc_abi := generate_abi ast; sc_state := initial_state (state_schema bytecode);
                  sc_creator := creator; sc_created_epoch := current_epoch; sc_energy := energy;
                  sc_half_life := half_life; sc_last_refreshed := current_epoch;
                  sc_evaporated := false; sc_storage_bytes_charged := source_len;
                  sc_admin := Some creator; sc_upgrade_count := 0 |} in
      ({| contracts := <[ id := c ]> (contracts e); next_id := wrapping_add id 1;
          e_vrf := e_vrf e |}, Ok id)
  end.

(** ** Upgrade *)

Inductive UpgradeAuth : Type :=
| Admin (caller : bytes)
| Governance.

Inductive UpgradeError : Type :=
| UpNotFound (id : Z)
| UpEvaporated (id : Z)
| UpFrozen (id : Z)
| UpNotAdmin (id : Z)
| UpScript (e : ScriptError)
| UpRemovesField (field : string)
| UpTypeMismatch (field : string).

(** The [matches!] of a live value against a declared type. *)
Definition compatible (v : Value) (ty : ScriptType) : bool :=
  match v, ty with
  | U64 _, TU64 | VBool _, TBool | Str _, TString | Address _, TAddress
  | VMap _, TMap _ _ | VArray _, TArray _ => true
  | _, _ => false
  end.

Fixpoint check_schema (fields : list string) (st : gmap string Value) (schema : StateSchema)
  : result unit UpgradeError :=
  match fields with
  | [] => Ok tt
  | name :: fields' =>
      match head (filter (fun f => sf_name f = name) schema) with
      | None => Err (UpRemovesField name)
      | Some f =>
          if compatible (default Null (st !! name)) (sf_ty f) then check_schema fields' st schema
          else Err (UpTypeMismatch name)
      end
  end.

(** The defaults of the fields that are new. *)
Definition inject_defaults (schema : StateSchema) (st : gmap string Value) : gmap string Value :=
  foldl (fun st f => match st !! sf_name f with
                     | Some _ => st
                     | None => <[ sf_name f := field_default f ]> st
                     end) st schema.

Definition check_auth (auth : UpgradeAuth) (id : Z) (c : ScriptContract) : result unit UpgradeError :=
  match auth with
  | Governance => Ok tt
  | Admin caller =>
      match sc_admin c with
      | None => Err (UpFrozen id)
      | Some admin => if decide (admin = caller) then Ok tt else Err (UpNotAdmin id)
      end
  end.

Definition upgrade_contract (contract_id : Z) (parsed : result Contract ScriptError)
    (auth : UpgradeAuth) (e : ScriptEngine) : ScriptEngine * result unit UpgradeError :=
  match contracts e !! contract_id with
  | None => (e, Err (UpNotFound contract_id))
  | Some c =>
      if sc_evaporated c then (e, Err (UpEvaporated contract_id))
      else
        let r :=
          let? _ := check_auth auth contract_id c in
          let? ast := match parsed with Ok a => Ok a | Err x => Err (UpScript x) end in
          let? bc := match compile_or_err ast with Ok b => Ok b | Err x => Err (UpScript x) end in
          let? _ := check_schema (hash_keys (sc_state c)) (sc_state c) (state_schema bc) in
          Ok (ast, bc) in
        match r with
        | Err err => (e, Err err)
        | Ok (ast, bc) =>
            let c' := with_code (c_name ast) bc (generate_abi ast)
              (inject_defaults (state_schema bc) (sc_state c))
              (saturating_add (sc_upgrade_count c) 1) c in
            (set_contracts (<[ contract_id := c' ]> (contracts e)) e, Ok tt)
        end
  end.

(** ** Calls *)

Definition apply_patch (cs : gmap Z ScriptContract) (p : Z * gmap string Value)
  : gmap Z ScriptContract := alter (apply_changes p.2) p.1 cs.

Definition call_with_vm_gas (contract_id : Z) (method : string) (args : list Value) (from : bytes)
    (current_epoch vm_gas_limit : Z) (e : ScriptEngine)
  : ScriptEngine * result ScriptCallResult ScriptError :=
  match contracts e !! contract_id with
  | None => (e, Err (Runtime (ContractNotFound contract_id)))
  | Some c =>
      if sc_evaporated c then (e, Err (Runtime (ContractEvaporated contract_id)))
      else
        let current_energy := energy_at c current_epoch in
        if current_energy =? 0 then (e, Err (Runtime (ContractNoEnergy contract_id)))
        else
          let ctx := {| caller := from; owner := sc_creator c; epoch := current_epoch;
                        energy := current_energy; vrf_randomness := e_vrf e; call_depth := 0 |} in
          let router := set_active {[ contract_id ]} (from_engine e) in
          let '(result, router) :=
            run_result (execute_full_with_self (sc_bytecode c) method args (sc_state c) ctx
              vm_gas_limit (Some router) contract_id) router in
          match result with
          | Err err => (e, Err err)
          | Ok r =>
              let cs := alter (apply_changes (state_changes r)) contract_id (contracts e) in
              let cs := foldl apply_patch cs (state_patches router) in
              (set_contracts cs e,
               Ok {| return_value := return_value r; r_events := r_events r;
                     r_structured_events := r_structured_events r ++ collected_events router;
                     r_gas_used := r_gas_used r; state_changes := state_changes r |})
          end
  end.

Definition call (contract_id : Z) (method : string) (args : list Value) (from : bytes)
    (current_epoch : Z) (e : ScriptEngine) : ScriptEngine * result ScriptCallResult ScriptError :=
  call_with_vm_gas contract_id method args from current_epoch DEFAULT_GAS_LIMIT e.

Definition empty_result : ScriptCallResult :=
  {| return_value := Null; r_events := []; r_structured_events := []; r_gas_used := 0;
     state_changes := ∅ |}.

Definition call_lifecycle_hook (contract_id : Z) (hook : string) (from : bytes) (current_epoch : Z)
    (e : ScriptEngine) : ScriptEngine * result ScriptCallResult ScriptError :=
  match contracts e !! contract_id with
  | None => (e, Err (Runtime (ContractNotFound contract_id)))
  | Some c =>
      match methods (sc_bytecode c) !! hook with
      | None => (e, Ok empty_result)
      | Some _ =>
          let ctx := {| caller := from; owner := sc_creator c; epoch := current_epoch;
                        energy := energy_at c current_epoch; vrf_randomness := e_vrf e;
                        call_depth := 0 |} in
          match execute (X := ContractCallRouter) (sc_bytecode c) hook [] (sc_state c) ctx with
          | Some (Ok r, _) =>
              (set_contracts (alter (apply_changes (state_changes r)) contract_id (contracts e)) e, Ok r)
          | Some (Err err, _) => (e, Err err)
          | None => (e, Err (StepLimitExceeded U64_MAX MAX_STEPS))
          end
      end
  end.

(** ** The epoch tick *)

Record ScriptTickResult := {
  contracts_ticked : Z;
  contracts_evaporated : list Z;
  t_events : list string;
  t_structured_events : list ContractEvent;
}.

(** The body of the tick for one contract. *)
Definition tick_one (current_epoch : Z) (acc : ScriptEngine * ScriptTickResult) (id : Z)
  : ScriptEngine * ScriptTickResult :=
  let '(e, t) := acc in
  match contracts e !! id with
  | None => (e, t)
  | Some c =>
      if sc_evaporated c then (e, t)
      else
        let ticked := contracts_ticked t + 1 in
        if energy_at c current_epoch =? 0 then
          let '(e, evs, sevs) :=
            match methods (sc_bytecode c) !! "on_evaporate"%string with
            | Some _ =>
                match call_lifecycle_hook id "on_evaporate" (sc_creator c) current_epoch e with
                | (e', Ok r) => (e', r_events r, r_structured_events r)
                | (e', Err _) => (e', [], [])
                end
            | None => (e, [], [])
            end in
          (set_contracts (alter (with_evaporated true) id (contracts e)) e,
           {| contracts_ticked := ticked; contracts_evaporated := contracts_evaporated t ++ [id];
              t_events := t_events t ++ evs; t_structured_events := t_structured_events t ++ sevs |})
        else (e, {| contracts_ticked := ticked; contracts_evaporated := contracts_evaporated t;
                    t_events := t_events t; t_structured_events := t_structured_events t |})
  end.

Definition tick (current_epoch : Z) (e : ScriptEngine) : ScriptEngine * ScriptTickResult :=
  foldl (tick_one current_epoch) (e, {| contracts_ticked := 0; contracts_evaporated := [];
    t_events := []; t_structured_events := [] |}) (hash_keys (contracts e)).

(** ** Refresh and restore *)

Definition refresh_contract (id energy_deposit epoch : Z) (e : ScriptEngine)
  : ScriptEngine * result unit ScriptError :=
  match contracts e !! id with
  | None => (e, Err (Runtime (ContractNotFound id)))
  | Some c =>
      let c := with_energy (wrapping_add (energy_at c epoch) energy_deposit) epoch c in
      let c := if sc_evaporated c then with_evaporated false c else c in
      (set_contracts (<[ id := c ]> (contracts e)) e, Ok tt)
  end.

Definition restore_contract (c : ScriptContract) (e : ScriptEngine) : ScriptEngine :=
  {| contracts := <[ sc_id c := c ]> (contracts e);
     next_id := if next_id e <=? sc_id c then wrapping_add (sc_id c) 1 else next_id e;
     e_vrf := e_vrf e |}.

Definition get_contract (e : ScriptEngine) (id : Z) : option ScriptContract := contracts e !! id.

End engine.

(** ** Enough depth *)

(** Callers that agree at the depth below the running call cannot be told
    apart by it. *)
Section same_callee.
Context {X : Type} (E1 E2 : ExternalCaller X) `{Hex, StrDebug, HashOrder, Blake3}.
Context (ctx : ExecutionContext).
Context (agree : call_depth ctx < MAX_CALL_DEPTH -> forall x id method args from ep gas,
  @call_external X E1 x id method args from ep (call_depth ctx + 1) gas
  = @call_external X E2 x id method args from ep (call_depth ctx + 1) gas).

Lemma bind_ext {A B} (c1 c2 : M (X:=X) A) (k1 k2 : A -> M B) vm x :
  (forall vm x, c1 vm x = c2 vm x) -> (forall a vm x, k1 a vm x = k2 a vm x) ->
  bind c1 k1 vm x = bind c2 k2 vm x.
Proof. intros Hc Hk. unfold bind. rewrite Hc. destruct (c2 vm x) as [[[a vm']|e] x']; [apply Hk|done]. Qed.

Lemma exec_op_ext op len ip n vm x :
  exec_op (ExternalCaller0 := E1) op len ip n ctx vm x = exec_op (ExternalCaller0 := E2) op len ip n ctx vm x.
Proof.
  destruct op; try reflexivity. cbn [exec_op]. unfold next, op_call_external.
  apply bind_ext; [clear vm x; intros vm x|done].
  apply bind_ext; [done|intros _ vm1 x1]. apply bind_ext; [done|intros hook vm2 x2].
  destruct hook; [done|]. destruct (Z.leb_spec MAX_CALL_DEPTH (call_depth ctx)); [done|].
  do 5 (apply bind_ext; [done|intros]). apply bind_ext; [|done].
  intros vm9 x9. unfold dispatch. destruct x9; [|done]. by rewrite agree.
Qed.

Lemma execute_full_ext bc method args st limit x id :
  execute_full_with_self (ExternalCaller0 := E1) bc method args st ctx limit x id
  = execute_full_with_self (ExternalCaller0 := E2) bc method args st ctx limit x id.
Proof.
  unfold execute_full_with_self, execute_method. destruct (methods bc !! method) as [start|]; [|done].
  destruct (push_args _ _ _) as [[[[] vm]|e] x']; [|done]. rewrite !loop_pos_nat.
  rewrite (loop_nat_ext _ (exec_step (ExternalCaller0 := E2) bc ctx) (fun _ => True)); [done| |done..].
  intros s _. unfold exec_step. destruct (opcodes bc !! l_ip s) as [op|]; [|done].
  erewrite bind_ext; [reflexivity|done|]. intros. apply exec_op_ext.
Qed.
End same_callee.

(** Levels beyond the depth that is left do not change a nested call, so
    [CALL_FUEL] never cuts one short. *)
Lemma router_call_fuel `{Hex, StrDebug, HashOrder, Blake3} fuel k x id method args from ep depth gas :
  MAX_CALL_DEPTH <= depth + Z.of_nat fuel ->
  router_call (fuel + k) x id method args from ep depth gas = router_call fuel x id method args from ep depth gas.
Proof.
  revert x id method args from ep depth gas. induction fuel as [|fuel IH];
    intros x id method args from ep depth gas Hd.
  - destruct k; simpl; [done|]. destruct (Z.leb_spec MAX_CALL_DEPTH depth); [done|lia].
  - cbn [router_call Nat.add]. destruct (MAX_CALL_DEPTH <=? depth); [done|]. case_decide; [done|].
    destruct (rt_contracts x !! id) as [c|]; [|done]. destruct (re_evaporated c); [done|].
    cbv zeta. destruct (_ =? 0); [done|].
    rewrite (execute_full_ext (router_call (fuel + k)) (router_call fuel)); [done|].
    intros _ x' id' m' args' from' ep' gas'. simpl. apply IH. lia.
Qed.

(** ** The router keeps callers apart *)

(** What any sequence of nested calls may do to the router: it leaves the
    snapshot and the stack of active calls alone and only appends patches,
    none of them for a contract that is being called. *)
Record routed (x x' : ContractCallRouter) : Prop := {
  rt_same_contracts : rt_contracts x' = rt_contracts x;
  rt_same_vrf : rt_vrf x' = rt_vrf x;
  rt_same_active : active_calls x' = active_calls x;
  rt_patches : exists new, state_patches x' = state_patches x ++ new /\
    forall p, p ∈ new -> p.1 ∉ active_calls x;
}.

#[global] Instance routed_preorder : PreOrder routed.
Proof.
  split.
  - intros x. split; try done. exists []. rewrite app_nil_r. split; [done|]. by intros p ?%elem_of_nil.
  - intros x y z [C1 V1 A1 (n1 & P1 & N1)] [C2 V2 A2 (n2 & P2 & N2)]. split; try congruence.
    exists (n1 ++ n2). rewrite P2, P1, app_assoc. split; [done|].
    intros p [Hp|Hp]%elem_of_app; [by apply N1|]. rewrite <- A1. by apply N2.
Qed.

Section router.
Context `{Hex, StrDebug, HashOrder, Blake3}.

Lemma run_result_rel {X} (R : X -> X -> Prop) `{!Reflexive R} o (x : X) :
  (forall r x', o = Some (r, x') -> callee_rel R (Some x) x') -> R x (run_result o x).2.
Proof.
  intros Ho. destruct o as [[r x']|]; simpl; [|done]. specialize (Ho r x' eq_refl).
  by destruct x'.
Qed.

(** Leaving a call restores the stack of active calls. *)
Lemma routed_leave id x y :
  id ∉ active_calls x -> routed (set_active (active_calls x ∪ {[ id ]}) x) y ->
  routed x (set_active (active_calls y ∖ {[ id ]}) y).
Proof.
  intros Hid [C V A (new & P & N)]. simpl in *. split; simpl; [done|done|rewrite A; set_solver|].
  exists new. split; [done|]. intros p Hp. specialize (N p Hp). set_solver.
Qed.

Lemma routed_record id r x y :
  id ∉ active_calls x -> routed x y -> routed x (record_call id r y).
Proof.
  intros Hid [C V A (new & P & N)]. split; simpl; [done..|].
  exists (new ++ [(id, state_changes r)]). rewrite P, <- app_assoc. split; [done|].
  intros p [Hp| ->%list_elem_of_singleton]%elem_of_app; [by apply N|done].
Qed.

Lemma router_call_routed fuel x id method args from ep depth gas :
  routed x (router_call fuel x id method args from ep depth gas).2.
Proof.
  revert x id method args from ep depth gas. induction fuel as [|fuel IH];
    intros x id method args from ep depth gas; cbn [router_call];
    (destruct (MAX_CALL_DEPTH <=? depth); [done|]); (case_decide as Hid; [done|]);
    (destruct (rt_contracts x !! id) as [c|]; [|done]); (destruct (re_evaporated c); [done|]);
    cbv zeta; (destruct (_ =? 0); [done|]).
  - simpl. by apply routed_leave.
  - set (x1 := set_active _ x).
    assert (Hr : routed x1 (run_result (execute_full_with_self (ExternalCaller0 := router_call fuel)
      (re_bytecode c) method args (re_state c) {| caller := from; owner := re_creator c; epoch := ep;
        energy := energy_at_epoch (re_energy c) (re_half_life c) (saturating_sub ep (re_last_refreshed c));
        vrf_randomness := rt_vrf x; call_depth := depth |} gas (Some x1) id) x1).2).
    { apply run_result_rel; [apply _|]. intros r x'. apply execute_full_rel; [apply _|].
      intros. apply IH. }
    destruct (run_result _ x1) as [[r|e] y]; simpl in *.
    + apply routed_record; [done|]. by apply routed_leave.
    + by apply routed_leave.
Qed.


(** *** Applying the patches of a call *)

(** Two contracts that differ at most in their state. *)
Definition same_but_state (o o' : option ScriptContract) : Prop :=
  match o, o' with
  | Some c, Some c' => exists st, c' = with_state st c
  | None, None => True
  | _, _ => False
  end.

#[local] Instance same_but_state_preorder : PreOrder same_but_state.
Proof.
  split.
  - intros [c|]; simpl; [|done]. exists (sc_state c). by destruct c.
  - intros [a|] [b|] [c|]; simpl; try done. intros [st ->] [st' ->]. by exists st'.
Qed.

Lemma alter_same_but_state changes (cs : gmap Z ScriptContract) i j :
  same_but_state (cs !! i) (alter (apply_changes changes) j cs !! i).
Proof.
  destruct (decide (i = j)) as [->|].
  - rewrite lookup_alter_eq. destruct (cs !! j); simpl; [by eexists|done].
  - by rewrite lookup_alter_ne by congruence.
Qed.

Lemma patches_same_but_state ps (cs : gmap Z ScriptContract) i : same_but_state (cs !! i) (foldl apply_patch cs ps !! i).
Proof.
  revert cs. induction ps as [|p ps IH]; intros cs; simpl; [done|].
  etrans; [apply alter_same_but_state|apply IH].
Qed.

Lemma patches_other ps (cs : gmap Z ScriptContract) i : (forall p, p ∈ ps -> p.1 <> i) -> foldl apply_patch cs ps !! i = cs !! i.
Proof.
  revert cs. induction ps as [|p ps IH]; intros cs Hps; simpl; [done|].
  rewrite IH by (intros q Hq; apply Hps; by right). unfold apply_patch.
  rewrite lookup_alter_ne; [done|]. apply Hps. left.
Qed.

(** C20: a contract call is atomic and isolated: if it fails, the engine is
    unchanged; if it succeeds, only contract states change, never a
    contract's code, owner, energy or upgrade rights, and the called
    contract's new state is exactly its own writes over its old state,
    because no nested call can re-enter it. *)
Theorem call_isolated id method args from ep gas e :
  let '(e', r) := call_with_vm_gas id method args from ep gas e in
  match r with
  | Err _ => e' = e
  | Ok res =>
      next_id e' = next_id e /\ e_vrf e' = e_vrf e /\
      (forall i, same_but_state (contracts e !! i) (contracts e' !! i)) /\
      exists c, contracts e !! id = Some c /\
        contracts e' !! id = Some (apply_changes (state_changes res) c)
  end.
Proof.
  unfold call_with_vm_gas. destruct (contracts e !! id) as [c|] eqn:Ec; [|done].
  destruct (sc_evaporated c); [done|]. cbv zeta. destruct (energy_at c ep =? 0); [done|].
  set (x := set_active _ _).
  assert (Hr : routed x (run_result (execute_full_with_self (sc_bytecode c) method args (sc_state c)
    {| caller := from; owner := sc_creator c; epoch := ep; energy := energy_at c ep;
       vrf_randomness := e_vrf e; call_depth := 0 |} gas (Some x) id) x).2).
  { apply run_result_rel; [apply _|]. intros r x'. apply execute_full_rel; [apply _|].
    intros. apply router_call_routed. }
  destruct (run_result _ x) as [[r|err] y]; simpl in *; [|done].
  destruct Hr as [_ _ _ (new & Hp & Hn)]. simpl in *. rewrite Hp.
  split_and!; [done|done| |].
  - intros i. etrans; [apply (alter_same_but_state (state_changes r) _ i id)|apply patches_same_but_state].
  - exists c. split; [done|]. rewrite patches_other.
    + by rewrite lookup_alter_eq, Ec.
    + intros p Hpn E. apply (Hn p Hpn). rewrite E. set_solver.
Qed.
End router.

(** ** The invariant of the engine *)

Definition entry_ok (c : RouterEntry) : Prop :=
  code_ok (opcodes (re_bytecode c)) /\ map_wf (re_state c) /\ Forall is_u8 (re_creator c) /\
  is_u64 (re_energy c) /\ is_u64 (re_half_life c).

Definition contract_ok (c : ScriptContract) : Prop := entry_ok (snapshot c).

Record router_ok (x : ContractCallRouter) : Prop := {
  ro_entries : map_Forall (fun _ => entry_ok) (rt_contracts x);
  ro_vrf : Forall is_u8 (rt_vrf x);
  ro_patches : Forall (fun p => map_wf p.2) (state_patches x);
  ro_events : Forall event_wf (collected_events x);
}.

(** Every contract is well formed, and the identifiers handed out so far are
    below the next one. *)
Record engine_ok (e : ScriptEngine) : Prop := {
  eo_contracts : map_Forall (fun _ => contract_ok) (contracts e);
  eo_fresh : forall id c, contracts e !! id = Some c -> id < next_id e;
  eo_vrf : Forall is_u8 (e_vrf e);
}.

Section safety.
Context `{Hex, StrDebug, HashOrder, Blake3, !Blake3Bytes}.

Lemma contract_energy_u64 e h t : is_u64 e -> is_u64 h -> 0 <= t -> is_u64 (energy_at_epoch e h t).
Proof. intros He Hh Ht. pose proof (energy_at_epoch_range h e t He). u64_lia. Qed.

Lemma saturating_sub_nonneg a b : 0 <= saturating_sub a b.
Proof. u64_lia. Qed.

#[local] Hint Resolve contract_energy_u64 saturating_sub_nonneg : core.

Lemma router_ok_active a x : router_ok x -> router_ok (set_active a x).
Proof. by intros []. Qed.

Lemma router_ok_record id r x :
  router_ok x -> map_wf (state_changes r) -> Forall event_wf (r_structured_events r) ->
  router_ok (record_call id r x).
Proof. intros [] Hs He. split; simpl; [done|done|apply Forall_app; split; [done|by repeat constructor]|by apply Forall_app]. Qed.

(** The context a contract runs in. *)
Lemma entry_ctx_ok c from ep vrf depth :
  entry_ok c -> Forall is_u8 from -> is_u64 ep -> Forall is_u8 vrf ->
  ctx_ok {| caller := from; owner := re_creator c; epoch := ep;
            energy := energy_at_epoch (re_energy c) (re_half_life c) (saturating_sub ep (re_last_refreshed c));
            vrf_randomness := vrf; call_depth := depth |}.
Proof. intros (_ & _ & Hc & He & Hh) Hf Hep Hv. split; simpl; auto. Qed.

(** What running a contract under a router promises. *)
Lemma run_result_ok {X} `{!ExternalCaller X} (ext_ok : X -> Prop) `{!ExternalCallerLaws X ext_ok}
    bc method args st ctx limit x id :
  code_ok (opcodes bc) -> ctx_ok ctx -> Forall value_wf args -> map_wf st -> is_u64 limit -> ext_ok x ->
  let '(r, x') := run_result (execute_full_with_self bc method args st ctx limit (Some x) id) x in
  ext_ok x' /\ forall res, r = Ok res ->
    value_wf (return_value res) /\ map_wf (state_changes res) /\
    Forall event_wf (r_structured_events res) /\ 0 <= r_gas_used res <= limit.
Proof.
  intros Hcode Hctx Hargs Hst Hlim Hx.
  destruct (execute_full_with_self bc method args st ctx limit (Some x) id) as [[r x']|] eqn:E;
    simpl; [|done].
  destruct (execute_full_wf ext_ok bc method args st ctx limit (Some x) id r x' Hcode Hctx Hargs Hst Hlim)
    as [Hx' Hr]; [by intros ? [= <-]|done|].
  destruct x' as [x'|]; (split; [|done]); [by apply Hx'|done].
Qed.

(** The router keeps the promises the machine asks of an external caller. *)
#[export] Instance router_laws fuel : @ExternalCallerLaws _ (router_call fuel) router_ok.
Proof.
  induction fuel as [|fuel IH]; intros x id method args from ep depth gas r x' Hx Hid Hargs Hfrom Hep Hgas;
    unfold call_external; cbn [router_call];
    (destruct (MAX_CALL_DEPTH <=? depth); [by intros [= <- <-]|]);
    (case_decide; [by intros [= <- <-]|]);
    (destruct (rt_contracts x !! id) as [c|] eqn:Ec; [|by intros [= <- <-]]);
    (destruct (re_evaporated c); [by intros [= <- <-]|]); cbv zeta;
    (destruct (_ =? 0); [by intros [= <- <-]|]).
  - intros [= <- <-]. split; [|done]. by repeat apply router_ok_active.
  - pose proof (ro_entries _ Hx _ _ Ec) as Hc.
    pose proof (run_result_ok (ExternalCaller0 := router_call fuel) router_ok (re_bytecode c) method args
      (re_state c) _ gas (set_active (active_calls x ∪ {[ id ]}) x) id (proj1 Hc)
      (entry_ctx_ok c from ep (rt_vrf x) depth Hc Hfrom Hep (ro_vrf _ Hx)) Hargs (proj1 (proj2 Hc)) Hgas
      (router_ok_active _ _ Hx)) as Hr.
    destruct (run_result _ _) as [[res|err] y]; destruct Hr as [Hy Hres]; intros [= <- <-].
    + destruct (Hres res eq_refl) as (Hv & Hs & He & Hg). split.
      * apply router_ok_record; [by apply router_ok_active|done..].
      * intros v es g [= <- <- <-]. split_and!; [done|done|u64_lia].
    + split; [by apply router_ok_active|done].
Qed.

(** *** Updating contracts *)

Lemma contract_ok_changes st c : map_wf st -> contract_ok c -> contract_ok (apply_changes st c).
Proof.
  intros Hst (Hc & Hs & Ho). split; [exact Hc|]. split; [|exact Ho]. simpl. by apply map_Forall_union_2.
Qed.

Lemma engine_ok_alter f id e :
  (forall c, contract_ok c -> contract_ok (f c)) -> engine_ok e ->
  engine_ok (set_contracts (alter f id (contracts e)) e).
Proof.
  intros Hf [Hc Hn Hv]. split; simpl; [| |done].
  - intros i c. rewrite lookup_alter. case_decide as E; [|apply Hc].
    intros (c0 & E0 & ->)%fmap_Some. apply Hf. by eapply Hc.
  - intros i c. rewrite lookup_alter. case_decide as E; [|apply Hn].
    intros (c0 & E0 & ->)%fmap_Some. subst. by eapply Hn.
Qed.

Lemma engine_ok_insert id c c' e :
  contracts e !! id = Some c -> contract_ok c' -> engine_ok e ->
  engine_ok (set_contracts (<[ id := c' ]> (contracts e)) e).
Proof.
  intros Hid Hc' [Hc Hn Hv]. split; simpl; [| |done].
  - by apply map_Forall_insert_2.
  - intros i d. rewrite lookup_insert. case_decide as E; [subst; intros _; by eapply Hn|apply Hn].
Qed.

Lemma engine_ok_patches ps e :
  Forall (fun p => map_wf p.2) ps -> engine_ok e ->
  engine_ok (set_contracts (foldl apply_patch (contracts e) ps) e).
Proof.
  intros Hps. revert e. induction Hps as [|p ps Hp _ IH]; intros e He; simpl; [by destruct e|].
  apply (IH (set_contracts (apply_patch (contracts e) p) e)).
  apply engine_ok_alter; [|done]. intros. by apply contract_ok_changes.
Qed.

Lemma default_of_wf ty : value_wf (default_of ty).
Proof.
  destruct ty; cbn [default_of]; constructor; try u64_lia; try done.
  - apply Forall_replicate. unfold is_u8. lia.
  - intros v Hv. by apply elem_of_nil in Hv.
Qed.

Lemma field_default_wf (schema : StateSchema) f :
  (forall f v, f ∈ schema -> sf_default f = Some v -> value_wf v) -> f ∈ schema ->
  value_wf (field_default f).
Proof.
  intros Hd Hf. unfold field_default. destruct (sf_default f) eqn:E; simpl; [by eapply Hd|apply default_of_wf].
Qed.

Lemma initial_state_wf schema :
  (forall f v, f ∈ schema -> sf_default f = Some v -> value_wf v) -> map_wf (initial_state schema).
Proof.
  intros Hd. unfold initial_state. apply (foldl_inv map_wf); [apply map_Forall_empty|].
  intros st f Hf Hst. apply map_wf_insert; [done|by apply (field_default_wf schema)].
Qed.

Lemma inject_defaults_wf schema st :
  (forall f v, f ∈ schema -> sf_default f = Some v -> value_wf v) -> map_wf st ->
  map_wf (inject_defaults schema st).
Proof.
  intros Hd Hst. unfold inject_defaults. apply (foldl_inv map_wf); [done|].
  intros st' f Hf Hst'. case_match; [done|]. apply map_wf_insert; [done|by apply (field_default_wf schema)].
Qed.

Lemma compile_or_err_wf ast bc :
  contract_wf ast -> compile_or_err ast = Ok bc ->
  code_ok (opcodes bc) /\ forall f v, f ∈ state_schema bc -> sf_default f = Some v -> value_wf v.
Proof.
  unfold compile_or_err. intros Hw. destruct (compile ast) as [r|] eqn:E; [|done].
  intros ->. by apply (compile_wf ast).
Qed.

Lemma engine_ok_deploy parsed len creator en hl ep e :
  (forall ast, parsed = Ok ast -> contract_wf ast) -> Forall is_u8 creator -> is_u64 en -> is_u64 hl ->
  0 <= next_id e < U64_MAX -> engine_ok e -> engine_ok (deploy parsed len creator en hl ep e).1.
Proof.
  intros Hp Hcr Hen Hhl Hid He. unfold deploy. destruct parsed as [ast|]; simpl; [|done].
  destruct (compile_or_err ast) as [bc|] eqn:Eb; simpl; [|done].
  destruct (validate_deploy_bytecode bc); simpl; [|done].
  destruct (compile_or_err_wf ast bc (Hp ast eq_refl) Eb) as [Hcode Hd]. destruct He as [Hc Hn Hv].
  unfold wrapping_add. rewrite as_u64_small by u64_lia. split; simpl; [| |done].
  - apply map_Forall_insert_2; [|done]. split_and!; simpl; [done|by apply initial_state_wf|done..].
  - intros i c. rewrite lookup_insert. case_decide; [lia|]. intros Hi%Hn. lia.
Qed.

Lemma engine_ok_upgrade id parsed auth e :
  (forall ast, parsed = Ok ast -> contract_wf ast) -> engine_ok e ->
  engine_ok (upgrade_contract id parsed auth e).1.
Proof.
  intros Hp He. unfold upgrade_contract. destruct (contracts e !! id) as [c|] eqn:Ec; [|done].
  destruct (sc_evaporated c); [done|]. destruct (check_auth auth id c); simpl; [|done].
  destruct parsed as [ast|]; simpl; [|done].
  destruct (compile_or_err ast) as [bc|] eqn:Eb; simpl; [|done].
  destruct (check_schema _ _ _); simpl; [|done].
  destruct (compile_or_err_wf ast bc (Hp ast eq_refl) Eb) as [Hcode Hd].
  destruct (eo_contracts _ He _ _ Ec) as (_ & Hs & Ho).
  eapply engine_ok_insert; [exact Ec| |done].
  split; [exact Hcode|]. split; [by apply inject_defaults_wf|exact Ho].
Qed.

(** A call, with what it returns. *)
Lemma engine_ok_call id method args from ep gas e :
  Forall value_wf args -> Forall is_u8 from -> is_u64 ep -> is_u64 gas -> engine_ok e ->
  let '(e', r) := call_with_vm_gas id method args from ep gas e in
  engine_ok e' /\ forall res, r = Ok res ->
    value_wf (return_value res) /\ Forall event_wf (r_structured_events res) /\
    0 <= r_gas_used res <= gas.
Proof.
  intros Hargs Hfrom Hep Hgas He. unfold call_with_vm_gas.
  destruct (contracts e !! id) as [c|] eqn:Ec; [|done]. destruct (sc_evaporated c); [done|].
  cbv zeta. destruct (energy_at c ep =? 0); [done|].
  pose proof (eo_contracts _ He _ _ Ec) as Hc.
  assert (Hx : router_ok (set_active {[ id ]} (from_engine e))).
  { apply router_ok_active. split; simpl; [|apply He|done..].
    intros i en. rewrite lookup_fmap. intros (c' & E' & ->)%fmap_Some. by apply (eo_contracts _ He i). }
  pose proof (run_result_ok router_ok (sc_bytecode c) method args (sc_state c) _ gas _ id (proj1 Hc)
    (entry_ctx_ok (snapshot c) from ep (e_vrf e) 0 Hc Hfrom Hep (eo_vrf _ He)) Hargs (proj1 (proj2 Hc))
    Hgas Hx) as Hr.
  unfold energy_at in *. simpl in Hr. destruct (run_result _ _) as [[res|err] y]; [|done].
  destruct Hr as [Hy Hres]. destruct (Hres res eq_refl) as (Hv & Hs & Hev & Hg). split.
  - apply (engine_ok_patches (state_patches y) (set_contracts _ e)); [apply Hy|].
    apply engine_ok_alter; [|done]. intros. by apply contract_ok_changes.
  - intros res' [= <-]. simpl. split_and!; [done| |lia..]. apply Forall_app. split; [done|apply Hy].
Qed.

Lemma engine_ok_hook id hook from ep e :
  Forall is_u8 from -> is_u64 ep -> engine_ok e ->
  engine_ok (call_lifecycle_hook id hook from ep e).1.
Proof.
  intros Hfrom Hep He. unfold call_lifecycle_hook.
  destruct (contracts e !! id) as [c|] eqn:Ec; [|done]. destruct (methods _ !! hook); [|done].
  pose proof (eo_contracts _ He _ _ Ec) as Hc.
  destruct (execute _ _ _ _ _) as [[[res|err] x]|] eqn:E; [|done..].
  unfold execute in E.
  eapply (execute_full_wf router_ok) in E;
    [|apply Hc|exact (entry_ctx_ok (snapshot c) from ep (e_vrf e) 0 Hc Hfrom Hep (eo_vrf _ He))
     |done|apply Hc|unfold DEFAULT_GAS_LIMIT; u64_lia|done].
  destruct E as [_ Hr]. destruct (Hr res eq_refl) as (_ & Hs & _).
  apply engine_ok_alter; [|done]. intros. by apply contract_ok_changes.
Qed.

Lemma engine_ok_tick ep e : is_u64 ep -> engine_ok e -> engine_ok (tick ep e).1.
Proof.
  intros Hep He. unfold tick. apply (foldl_inv (fun a => engine_ok a.1)); [done|].
  intros [e1 t] id _ He1. simpl in *. unfold tick_one.
  destruct (contracts e1 !! id) as [c|] eqn:Ec; [|done]. destruct (sc_evaporated c); [done|].
  cbv zeta. destruct (energy_at c ep =? 0); [|done].
  pose proof (eo_contracts _ He1 _ _ Ec) as (_ & _ & Hcr & _).
  pose proof (engine_ok_hook id "on_evaporate" (sc_creator c) ep e1 Hcr Hep He1) as Hk.
  destruct (methods _ !! _); [destruct (call_lifecycle_hook _ _ _ _ _) as [e2 [r|err]]|];
    by apply engine_ok_alter.
Qed.

Lemma engine_ok_refresh id deposit ep e : engine_ok e -> engine_ok (refresh_contract id deposit ep e).1.
Proof.
  intros He. unfold refresh_contract. destruct (contracts e !! id) as [c|] eqn:Ec; [|done].
  pose proof (eo_contracts _ He _ _ Ec) as (Hcode & Hs & Hcr & _ & Hh).
  eapply engine_ok_insert; [exact Ec| |done]. destruct (sc_evaporated _);
    (split; [exact Hcode|]; split; [exact Hs|]; split; [exact Hcr|]; split; [apply as_u64_range|exact Hh]).
Qed.

Lemma engine_ok_restore c e :
  contract_ok c -> 0 <= sc_id c < U64_MAX -> engine_ok e -> engine_ok (restore_contract c e).
Proof.
  intros Hc Hid [He Hn Hv]. unfold restore_contract, wrapping_add. rewrite as_u64_small by u64_lia.
  split; simpl; [by apply map_Forall_insert_2| |done].
  intros i d. rewrite lookup_insert.
  destruct (Z.leb_spec (next_id e) (sc_id c)); case_decide; try lia; intros ?%Hn; lia.
Qed.

(** The public operations, on inputs of the widths their types give them.
    [contract_wf] is what the parser promises of its literals; the identifier
    counter is assumed not to have run out. *)
Inductive engine_step : ScriptEngine -> ScriptEngine -> Prop :=
| step_deploy parsed len creator en hl ep e :
    (forall ast, parsed = Ok ast -> contract_wf ast) -> Forall is_u8 creator -> is_u64 en -> is_u64 hl ->
    0 <= next_id e < U64_MAX -> engine_step e (deploy parsed len creator en hl ep e).1
| step_upgrade id parsed auth e :
    (forall ast, parsed = Ok ast -> contract_wf ast) ->
    engine_step e (upgrade_contract id parsed auth e).1
| step_call id method args from ep gas e :
    Forall value_wf args -> Forall is_u8 from -> is_u64 ep -> is_u64 gas ->
    engine_step e (call_with_vm_gas id method args from ep gas e).1
| step_hook id hook from ep e :
    Forall is_u8 from -> is_u64 ep -> engine_step e (call_lifecycle_hook id hook from ep e).1
| step_tick ep e : is_u64 ep -> engine_step e (tick ep e).1
| step_refresh id deposit ep e : engine_step e (refresh_contract id deposit ep e).1
| step_restore c e :
    contract_ok c -> 0 <= sc_id c < U64_MAX -> engine_step e (restore_contract c e).

Lemma engine_ok_new : engine_ok engine_new.
Proof.
  split; simpl; [apply map_Forall_empty|done|]. apply (Forall_replicate is_u8 32 0). unfold is_u8. lia.
Qed.

Lemma engine_step_ok e e' : engine_step e e' -> engine_ok e -> engine_ok e'.
Proof.
  destruct 1; intros He.
  - by apply engine_ok_deploy.
  - by apply engine_ok_upgrade.
  - pose proof (engine_ok_call id method args from ep gas e) as Hc.
    destruct (call_with_vm_gas _ _ _ _ _ _ _). by apply Hc.
  - by apply engine_ok_hook.
  - by apply engine_ok_tick.
  - by apply engine_ok_refresh.
  - by apply engine_ok_restore.
Qed.

(** The engine keeps its invariant through any sequence of deployments,
    upgrades, calls (with every call they nest through the router), hooks,
    ticks, refreshes and restores: all code, states, owners and energies stay
    well formed and identifiers stay below the counter, so a deployment never
    replaces a contract; and whatever a call nests, it returns within the gas
    it was given, with a well-formed value and well-formed events. *)
Theorem engine_invariant e :
  rtc engine_step engine_new e ->
  engine_ok e /\
  (forall parsed len creator en hl ep id,
    (deploy parsed len creator en hl ep e).2 = Ok id -> contracts e !! id = None) /\
  (forall id method args from ep gas res,
    Forall value_wf args -> Forall is_u8 from -> is_u64 ep -> is_u64 gas ->
    (call_with_vm_gas id method args from ep gas e).2 = Ok res ->
    value_wf (return_value res) /\ Forall event_wf (r_structured_events res) /\
    0 <= r_gas_used res <= gas).
Proof.
  intros Hr. assert (He : engine_ok e).
  { remember engine_new as e0 eqn:E0. assert (H00 : engine_ok e0) by (subst; apply engine_ok_new).
    clear E0. induction Hr; [done|]. apply IHHr. by eapply engine_step_ok. }
  split; [done|]. split.
  - intros parsed len creator en hl ep id. unfold deploy.
    destruct parsed as [ast|]; simpl; [|done]. destruct (compile_or_err ast) as [bc|]; simpl; [|done].
    destruct (validate_deploy_bytecode bc); simpl; [|done]. intros [= <-].
    destruct (contracts e !! next_id e) eqn:Ec; [|done]. pose proof (eo_fresh _ He _ _ Ec). lia.
  - intros id method args from ep gas res Ha Hf Hep Hg E.
    pose proof (engine_ok_call id method args from ep gas e Ha Hf Hep Hg He) as Hc.
    destruct (call_with_vm_gas _ _ _ _ _ _ _) as [e' r]. simpl in E. subst r. by apply Hc.
Qed.
End safety.

(** ** Upgrades *)

Section upgrades.
Context `{Hex, StrDebug, HashOrder, Blake3}.

Lemma check_schema_Ok fields st schema :
  check_schema fields st schema = Ok tt ->
  forall name, name ∈ fields -> exists f, f ∈ schema /\ sf_name f = name /\
    compatible (default Null (st !! name)) (sf_ty f) = true.
Proof.
  induction fields as [|n fields IH]; simpl; intros Hc name Hn; [by apply elem_of_nil in Hn|].
  destruct (head _) as [f|] eqn:Ef; [|done]. destruct (compatible _ _) eqn:Ec; [|done].
  apply elem_of_cons in Hn as [->|Hn]; [|by apply IH].
  exists f. apply head_Some_elem_of, list_elem_of_filter in Ef as [Hf Hin]. by subst n.
Qed.

(** What the injection of defaults does to every field. *)
Lemma inject_defaults_lookup schema st name :
  (forall v, st !! name = Some v -> inject_defaults schema st !! name = Some v) /\
  (name ∈ sf_name <$> schema -> is_Some (inject_defaults schema st !! name)) /\
  (name ∉ sf_name <$> schema -> inject_defaults schema st !! name = st !! name).
Proof.
  unfold inject_defaults. revert st. induction schema as [|f schema IH]; intros st; simpl.
  { split_and!; [done|by intros ?%elem_of_nil|done]. }
  set (st' := match _ with Some _ => st | None => _ end).
  assert (Hst : (forall v, st !! name = Some v -> st' !! name = Some v) /\
    (name = sf_name f -> is_Some (st' !! name)) /\ (name <> sf_name f -> st' !! name = st !! name)).
  { unfold st'. destruct (st !! sf_name f) eqn:E.
    - split_and!; [done|intros ->; by eexists|done].
    - rewrite lookup_insert. case_decide as En; [|by split_and!; [|intros ->|]].
      subst name. split_and!; [congruence|by eexists|done]. }
  destruct Hst as (H1' & H2' & H3'). destruct (IH st') as (I1 & I2 & I3). split_and!.
  - intros v Hv. by apply I1, H1'.
  - intros [Hn|Hn]%elem_of_cons; [|by apply I2]. destruct (H2' Hn) as [v Hv]. exists v. by apply I1.
  - intros [Hn Hs]%not_elem_of_cons. rewrite I3 by done. by apply H3'.
Qed.

(** An upgrade needs the right to make it and keeps live data: a
    rejected upgrade leaves the engine unchanged; an accepted one is of a
    contract that exists and has not evaporated, asked by its admin or by
    governance (a frozen contract only by governance), and changes nothing of
    it but name, code, interface, state and upgrade count.  Every stored
    field keeps its value and is declared by the new code at a type that
    holds the value, and every field the new code declares is present. *)
Theorem upgrade_preserves_state id parsed auth e :
  let '(e', r) := upgrade_contract id parsed auth e in
  match r with
  | Err _ => e' = e
  | Ok _ => exists c c' ast,
      parsed = Ok ast /\ contracts e !! id = Some c /\ sc_evaporated c = false /\
      (auth = Governance \/ exists caller, auth = Admin caller /\ sc_admin c = Some caller) /\
      e' = set_contracts (<[ id := c' ]> (contracts e)) e /\
      c' = with_code (c_name ast) (sc_bytecode c') (generate_abi ast) (sc_state c')
        (saturating_add (sc_upgrade_count c) 1) c /\
      (forall name v, sc_state c !! name = Some v ->
        sc_state c' !! name = Some v /\
        exists f, f ∈ state_schema (sc_bytecode c') /\ sf_name f = name /\ compatible v (sf_ty f) = true) /\
      (forall name, is_Some (sc_state c' !! name) <-> name ∈ sf_name <$> state_schema (sc_bytecode c'))
  end.
Proof.
  unfold upgrade_contract. destruct (contracts e !! id) as [c|] eqn:Ec; [|done].
  destruct (sc_evaporated c) eqn:Ev; [done|]. destruct (check_auth auth id c) as [[]|] eqn:Ea; simpl; [|done].
  destruct parsed as [ast|]; simpl; [|done].
  destruct (compile_or_err ast) as [bc|] eqn:Eb; simpl; [|done].
  destruct (check_schema _ _ _) as [[]|] eqn:Es; simpl; [|done].
  pose proof (check_schema_Ok _ _ _ Es) as Hs.
  assert (Hkeep : forall name v, sc_state c !! name = Some v ->
    exists f, f ∈ state_schema bc /\ sf_name f = name /\ compatible v (sf_ty f) = true).
  { intros name v Hv. destruct (Hs name) as (f & Hf & Hn & Hc); [apply elem_of_hash_keys; by eexists|].
    exists f. rewrite Hv in Hc. done. }
  eexists c, _, ast. split_and!; [done|done|done| |reflexivity|done| |]; cbn [sc_state sc_bytecode with_code].
  - unfold check_auth in Ea. destruct auth as [caller|]; [right|by left].
    destruct (sc_admin c) as [a|]; [|done]. case_decide; [|done]. exists caller. by subst.
  - intros name v Hv. split; [|by apply Hkeep]. by apply inject_defaults_lookup.
  - intros name. destruct (inject_defaults_lookup (state_schema bc) (sc_state c) name) as (_ & I2 & I3).
    split; [|done]. destruct (decide (name ∈ sf_name <$> state_schema bc)) as [|Hn]; [done|].
    rewrite I3 by done. intros [v (f & Hf & <- & _)%Hkeep]. apply list_elem_of_fmap. by exists f.
Qed.
End upgrades.

(** ** The epoch tick *)

Section ticks.
Context `{Hex, StrDebug, HashOrder, Blake3}.

(** The contracts a tick looks at, and those it evaporates. *)
Definition live (e : ScriptEngine) (id : Z) : Prop :=
  exists c, contracts e !! id = Some c /\ sc_evaporated c = false.

Definition due (ep : Z) (e : ScriptEngine) (id : Z) : Prop :=
  exists c, contracts e !! id = Some c /\ sc_evaporated c = false /\ energy_at c ep = 0.

#[global] Instance live_dec e id : Decision (live e id).
Proof.
  unfold live. destruct (contracts e !! id) as [c|]; [|right; by intros (? & ? & _)].
  destruct (sc_evaporated c) eqn:E; [right; intros (? & [= <-] & ?); congruence|left; by exists c].
Defined.

#[global] Instance due_dec ep e id : Decision (due ep e id).
Proof.
  unfold due. destruct (contracts e !! id) as [c|]; [|right; by intros (? & ? & _)].
  destruct (sc_evaporated c) eqn:E; [right; intros (? & [= <-] & ? & _); congruence|].
  destruct (decide (energy_at c ep = 0)); [left; by exists c|right; by intros (? & [= <-] & _ & ?)].
Defined.

(** A contract after the tick: a due one has run its [on_evaporate] hook, if
    it has one that succeeds, and is marked. *)
Definition ticked (ep : Z) (e : ScriptEngine) (id : Z) : option ScriptContract :=
  c ← contracts e !! id;
  if decide (due ep e id) then
    with_evaporated true <$> contracts (call_lifecycle_hook id "on_evaporate" (sc_creator c) ep e).1 !! id
  else Some c.

(** A hook sees and changes its own contract only. *)
Lemma call_lifecycle_hook_local id hook from ep e :
  let e' := (call_lifecycle_hook id hook from ep e).1 in
  next_id e' = next_id e /\ e_vrf e' = e_vrf e /\
  forall j, j <> id -> contracts e' !! j = contracts e !! j.
Proof.
  unfold call_lifecycle_hook. destruct (contracts e !! id); [|done]. destruct (methods _ !! _); [|done].
  destruct (execute _ _ _ _ _) as [[[]]|]; [|done..]. simpl. split_and!; [done..|].
  intros j Hj. by rewrite lookup_alter_ne by congruence.
Qed.

Lemma call_lifecycle_hook_ext id hook from ep e1 e2 :
  contracts e1 !! id = contracts e2 !! id -> e_vrf e1 = e_vrf e2 ->
  contracts (call_lifecycle_hook id hook from ep e1).1 !! id
  = contracts (call_lifecycle_hook id hook from ep e2).1 !! id.
Proof.
  intros Hc Hv. unfold call_lifecycle_hook. rewrite Hc, Hv.
  destruct (contracts e2 !! id) eqn:Ec; [|simpl; congruence].
  destruct (methods _ !! _); [|simpl; congruence].
  destruct (execute _ _ _ _ _) as [[[]]|]; [|simpl; congruence..]. simpl. by rewrite !lookup_alter_eq, Hc, Ec.
Qed.

Lemma due_ext ep e1 e2 id : contracts e1 !! id = contracts e2 !! id -> due ep e1 id <-> due ep e2 id.
Proof. intros Hc. unfold due. setoid_rewrite Hc. reflexivity. Qed.

Lemma ticked_ext ep e1 e2 id :
  contracts e1 !! id = contracts e2 !! id -> e_vrf e1 = e_vrf e2 -> ticked ep e1 id = ticked ep e2 id.
Proof.
  intros Hc Hv. pose proof (due_ext ep e1 e2 id Hc).
  pose proof (fun from => call_lifecycle_hook_ext id "on_evaporate" from ep e1 e2 Hc Hv) as Hh.
  unfold ticked. rewrite Hc. destruct (contracts e2 !! id) as [c|]; simpl; [|done].
  repeat case_decide; try tauto. by rewrite Hh.
Qed.

Lemma tick_one_spec ep e t id :
  let '(e', t') := tick_one ep (e, t) id in
  next_id e' = next_id e /\ e_vrf e' = e_vrf e /\
  contracts e' !! id = ticked ep e id /\
  (forall j, j <> id -> contracts e' !! j = contracts e !! j) /\
  contracts_ticked t' = contracts_ticked t + (if decide (live e id) then 1 else 0) /\
  contracts_evaporated t' = contracts_evaporated t ++ (if decide (due ep e id) then [id] else []).
Proof.
  assert (Hlive : live e id <-> exists c, contracts e !! id = Some c /\ sc_evaporated c = false) by done.
  assert (Hdue : due ep e id <-> exists c, contracts e !! id = Some c /\ sc_evaporated c = false /\
    energy_at c ep = 0) by done.
  unfold tick_one, ticked. destruct (contracts e !! id) as [c|] eqn:Ec; simpl.
  2:{ rewrite (decide_False (P := live e id)), (decide_False (P := due ep e id)) by naive_solver.
      rewrite app_nil_r, Ec. split_and!; try done. lia. }
  destruct (sc_evaporated c) eqn:Ev.
  { rewrite (decide_False (P := live e id)), !(decide_False (P := due ep e id)) by naive_solver congruence.
    rewrite app_nil_r, Ec. split_and!; try done. lia. }
  rewrite (decide_True (P := live e id)) by naive_solver.
  destruct (Z.eqb_spec (energy_at c ep) 0) as [E0|E0].
  2:{ rewrite !(decide_False (P := due ep e id)) by naive_solver. by rewrite app_nil_r, Ec. }
  rewrite !(decide_True (P := due ep e id)) by naive_solver. clear Hlive Hdue.
  destruct (call_lifecycle_hook_local id "on_evaporate" (sc_creator c) ep e) as (Hn & Hv & Ho).
  assert (Hskip : methods (sc_bytecode c) !! "on_evaporate"%string = None ->
    call_lifecycle_hook id "on_evaporate" (sc_creator c) ep e = (e, Ok empty_result)).
  { intros Hm. unfold call_lifecycle_hook. by rewrite Ec, Hm. }
  destruct (methods (sc_bytecode c) !! "on_evaporate"%string).
  - destruct (call_lifecycle_hook id "on_evaporate" (sc_creator c) ep e) as [e1 [r|err]]; simpl in *;
      (split_and!; [done|done|by rewrite lookup_alter_eq| |done|done]);
      intros j Hj; rewrite lookup_alter_ne by congruence; by apply Ho.
  - rewrite Hskip by done. simpl. split_and!; [done|done|by rewrite lookup_alter_eq| |done|done].
    intros j Hj. by rewrite lookup_alter_ne by congruence.
Qed.

Lemma tick_fold_spec ep ids e t :
  NoDup ids ->
  let '(e', t') := foldl (tick_one ep) (e, t) ids in
  next_id e' = next_id e /\ e_vrf e' = e_vrf e /\
  (forall id, contracts e' !! id = if decide (id ∈ ids) then ticked ep e id else contracts e !! id) /\
  contracts_ticked t' = contracts_ticked t + Z.of_nat (length (filter (live e) ids)) /\
  contracts_evaporated t' = contracts_evaporated t ++ filter (due ep e) ids.
Proof.
  intros Hnd. revert e t. induction Hnd as [|id ids Hid Hnd IH]; intros e t; cbn [foldl].
  { rewrite !filter_nil, app_nil_r. split_and!; try done. simpl. lia. }
  pose proof (tick_one_spec ep e t id) as H1'. destruct (tick_one ep (e, t) id) as [e1 t1].
  destruct H1' as (Hn & Hv & Hsame & Ho & Ht & He). specialize (IH e1 t1).
  destruct (foldl _ _ _) as [e2 t2]. destruct IH as (In & Iv & Ic & It & Ie).
  assert (Hne : forall j, j ∈ ids -> j <> id) by (intros j Hj ->; done).
  split_and!; [congruence|congruence| | |].
  - intros j. rewrite Ic. destruct (decide (j = id)) as [->|Hj].
    + rewrite decide_False by done. rewrite decide_True by left. done.
    + destruct (decide (j ∈ ids)) as [Hin|Hin].
      * rewrite decide_True by (by right). by apply ticked_ext; [apply Ho|].
      * rewrite decide_False by (intros [|]%elem_of_cons; done). by apply Ho.
  - rewrite It, Ht, (filter_ext_in (live e1) (live e)), filter_cons.
    + destruct (decide (live e id)); cbn [length]; lia.
    + intros j Hj. unfold live. by rewrite Ho by auto.
  - rewrite Ie, He, <- app_assoc, (filter_ext_in (due ep e1) (due ep e)), filter_cons.
    + by case_decide.
    + intros j Hj. apply due_ext. auto.
Qed.

(** One epoch tick evaporates exactly the contracts that are still live
    and have no energy left, whatever order the hash map yields them in: each
    of them has run its own [on_evaporate] hook on the state it had before the
    tick, every other contract is untouched, the count is the number of live
    contracts, and a second tick at the same epoch finds nothing to do. *)
Theorem tick_spec ep e :
  let '(e', t) := tick ep e in
  next_id e' = next_id e /\ e_vrf e' = e_vrf e /\
  (forall id, contracts e' !! id = ticked ep e id) /\
  contracts_evaporated t ≡ₚ filter (due ep e) (map_to_list (contracts e)).*1 /\
  contracts_ticked t = Z.of_nat (length (filter (live e) (map_to_list (contracts e)).*1)) /\
  forall id, ~ due ep e' id.
Proof.
  unfold tick. pose proof (tick_fold_spec ep (hash_keys (contracts e)) e
    {| contracts_ticked := 0; contracts_evaporated := []; t_events := []; t_structured_events := [] |}
    (hash_keys_NoDup _)) as Hs.
  destruct (foldl _ _ _) as [e' t]. destruct Hs as (Hn & Hv & Hc & Ht & He). simpl in *.
  assert (Hc' : forall id, contracts e' !! id = ticked ep e id).
  { intros id. rewrite Hc. case_decide as Hid; [done|]. unfold ticked.
    destruct (contracts e !! id) eqn:E; [|done]. destruct Hid. apply elem_of_hash_keys. by eexists. }
  split_and!; [done|done|done| | |].
  - by rewrite He, hash_keys_perm.
  - rewrite Ht. by rewrite hash_keys_perm.
  - intros id (c' & Hc1 & Hev & He0). rewrite Hc' in Hc1. unfold ticked in Hc1.
    destruct (contracts e !! id) as [c|] eqn:E; [|done]. simpl in Hc1. case_decide as Hd.
    + apply fmap_Some in Hc1 as (d & _ & ->). done.
    + injection Hc1 as <-. apply Hd. by exists c.
Qed.
End ticks.

(** ** Repeated nested calls *)

Module ToyEngine.
Export ToyScript ToyCompiler.

Definition alice : bytes := replicate 32 5.

(** [contract Counter { state { n: u64 = 0 }
      fn inc() { state.n = state.n + 1  emit "inc"  return state.n } }] *)
Definition counter_contract : Contract :=
  {| c_name := "Counter";
     state_fields := [{| fld_name := "n"; fld_ty := TU64; fld_default := Some (lit 0) |}];
     functions := [fn "inc" [SAssign (TStateField "n") (BinaryOp (StateAccess "n") BAdd (lit 1));
                             SEmit (Literal (Str "inc")); SReturn (Some (StateAccess "n"))]];
     lifecycle_hooks := [] |}.

(** [contract Caller { fn twice() { call_contract(1, "inc")  return call_contract(1, "inc") } }] *)
Definition call_inc : Expr := FunctionCall "call_contract" [lit 1; Literal (Str "inc")].

Definition caller_contract : Contract :=
  {| c_name := "Caller"; state_fields := [];
     functions := [fn "twice" [SExpr call_inc; SReturn (Some call_inc)]];
     lifecycle_hooks := [] |}.

Definition engine : ScriptEngine :=
  (deploy (Ok caller_contract) 90 alice 1000 100 5
    (deploy (Ok counter_contract) 80 alice 1000 100 5 engine_new).1).1.

(** The counter of contract 1. *)
Definition count (e : ScriptEngine) : option Value := contracts e !! 1 ≫= fun c => sc_state c !! "n"%string.
End ToyEngine.

(** The router runs every nested call on the snapshot taken when the
    outer call started, so a second call to the same contract in one
    transaction does not see the first one's writes and overwrites them.  Two
    separate calls of a counter's [inc] bring it to 2; a contract that calls
    [inc] twice leaves it at 1, and both nested calls return 1.  The events of
    nested calls are also reported twice: once through the machine's log and
    once through the router's. *)
Theorem nested_calls_lose_updates :
  (let '(e1, _) := call 1 "inc" [] ToyEngine.alice 6 ToyEngine.engine in
   let '(e2, _) := call 1 "inc" [] ToyEngine.alice 6 e1 in
   ToyEngine.count e2 = Some (U64 2)) /\
  exists res, (call 2 "twice" [] ToyEngine.alice 6 ToyEngine.engine).2 = Ok res /\
    ToyEngine.count (call 2 "twice" [] ToyEngine.alice 6 ToyEngine.engine).1 = Some (U64 1) /\
    return_value res = U64 1 /\
    length (r_structured_events res) = 4%nat.
Proof.
  split; [vm_compute; reflexivity|]. eexists. split; [vm_compute; reflexivity|].
  split; [vm_compute; reflexivity|]. split; vm_compute; reflexivity.
Qed.

(** ** Concrete instances *)

Lemma toy_contract_wf : contract_wf ToyEngine.counter_contract.
Proof.
  split.
  - intros name body Hin. simpl in Hin. apply list_elem_of_singleton in Hin as [= -> ->].
    simpl. unfold ToyCompiler.lit. repeat (split || constructor || u64_lia).
  - intros f e Hf. apply list_elem_of_singleton in Hf as ->. intros [= <-]. simpl. constructor. u64_lia.
Qed.

Lemma engine_invariant_witness :
  let e := (deploy (Ok ToyEngine.counter_contract) 80 ToyEngine.alice 1000 100 5 engine_new).1 in
  engine_ok e /\ is_Some (contracts e !! 1) /\
  exists res, (call_with_vm_gas 1 "inc" [] ToyEngine.alice 6 1000 e).2 = Ok res /\
    value_wf (return_value res) /\ 0 <= r_gas_used res <= 1000.
Proof.
  intros e. assert (Halice : Forall is_u8 ToyEngine.alice).
  { apply (Forall_replicate is_u8 32 5). unfold is_u8. lia. }
  destruct (engine_invariant e) as (Hok & _ & Hcall).
  { apply rtc_once. apply step_deploy; [|done|u64_lia|u64_lia|simpl; u64_lia].
    intros ast [= <-]. apply toy_contract_wf. }
  split; [exact Hok|]. split; [vm_compute; eauto|].
  destruct (call_with_vm_gas 1 "inc" [] ToyEngine.alice 6 1000 e).2 as [res|err] eqn:E;
    [|vm_compute in E; discriminate E].
  exists res. split; [reflexivity|].
  destruct (Hcall 1 "inc"%string [] ToyEngine.alice 6 1000 res) as (Hv & _ & Hg); [done|done|u64_lia|u64_lia|exact E|].
  split; [exact Hv|exact Hg].
Defined.
