(* ===== verification/ScriptSource.v ===== *)
(** * Contracts from their sources

    The engine of ScriptEngine.v behind the parser of ScriptGrammar.v: deployment and
    upgrade from a source text, as crates/evaporchain-script/src/lib.rs has them.  The
    promise the engine's theorems ask of the parser is kept, so here they hold of any
    text.  The runs at the end are of sources written out. *)

From stdpp Require Import base gmap list sorting strings pretty.
From Stdlib Require Import ZArith Lia.
From S2P Require Import Prelude Energy Trie ScriptValue ScriptVM ScriptCompiler ScriptTokens ScriptGrammar ScriptParses ScriptPrinter ScriptRoundTrip ScriptText ScriptEngine.

Open Scope Z_scope.

Section sources.
Context `{Hex, StrDebug, HashOrder, Blake3, Unicode}.

(** [parser::parse]; it always answers. *)
Definition parsed (source : string) : result Contract ScriptError :=
  match parse source with Some r => r | None => Err (Parse 0 "") end.

Definition deploy_source (source : string) (creator : bytes) (energy half_life current_epoch : Z) (e : ScriptEngine)
  : ScriptEngine * result Z ScriptError :=
  deploy (parsed source) (Z.of_nat (String.length source)) creator energy half_life current_epoch e.

Definition upgrade_source (id : Z) (source : string) (auth : UpgradeAuth) (e : ScriptEngine)
  : ScriptEngine * result unit UpgradeError :=
  upgrade_contract id (parsed source) auth e.

Lemma parsed_wf source c : parsed source = Ok c -> contract_wf c.
Proof. unfold parsed. destruct (parse source) as [r|] eqn:E; [|done]. intros ->. by eapply parse_contract_wf. Qed.

(** Deploying what was printed deploys the contract. *)
Lemma deploy_printed c creator energy half_life epoch e :
  wf_contract c = true -> forallb lexable (print_contract c) = true -> too_large (source c) = false ->
  deploy_source (source c) creator energy half_life epoch e =
  deploy (Ok c) (Z.of_nat (String.length (source c))) creator energy half_life epoch e.
Proof. intros Hw Hl Hs. unfold deploy_source, parsed. by rewrite parse_source. Qed.

(** The public operations, on any source. *)
Inductive source_step : ScriptEngine -> ScriptEngine -> Prop :=
| source_deploy text creator en hl ep e :
    Forall is_u8 creator -> is_u64 en -> is_u64 hl -> 0 <= next_id e < U64_MAX ->
    source_step e (deploy_source text creator en hl ep e).1
| source_upgrade id text auth e : source_step e (upgrade_source id text auth e).1
| source_call id method args from ep gas e :
    Forall value_wf args -> Forall is_u8 from -> is_u64 ep -> is_u64 gas ->
    source_step e (call_with_vm_gas id method args from ep gas e).1
| source_hook id hook from ep e :
    Forall is_u8 from -> is_u64 ep -> source_step e (call_lifecycle_hook id hook from ep e).1
| source_tick ep e : is_u64 ep -> source_step e (tick ep e).1
| source_refresh id deposit ep e : source_step e (refresh_contract id deposit ep e).1
| source_restore c e : contract_ok c -> 0 <= sc_id c < U64_MAX -> source_step e (restore_contract c e).

Lemma source_step_engine e e' : source_step e e' -> engine_step e e'.
Proof.
  destruct 1; unfold deploy_source, upgrade_source; try by constructor.
  - apply step_deploy; try done. apply parsed_wf.
  - apply step_upgrade. apply parsed_wf.
Qed.

Context `{!Blake3Bytes}.

(** C12: the engine keeps its invariant through any sequence of deployments and upgrades from any
    source text, calls (with every call they nest through the router), hooks, ticks, refreshes
    and restores: all code, states, owners and energies stay well formed and identifiers stay
    below the counter, so a deployment never replaces a contract; and whatever a call nests, it
    returns within the gas it was given, with a well-formed value and well-formed events.
    Nothing is assumed of the source: what the parser accepts has well-formed literals. *)
Theorem source_engine_invariant e :
  rtc source_step engine_new e ->
  engine_ok e /\
  (forall text creator en hl ep id, (deploy_source text creator en hl ep e).2 = Ok id -> contracts e !! id = None) /\
  (forall id method args from ep gas res,
    Forall value_wf args -> Forall is_u8 from -> is_u64 ep -> is_u64 gas ->
    (call_with_vm_gas id method args from ep gas e).2 = Ok res ->
    value_wf (return_value res) /\ Forall event_wf (r_structured_events res) /\ 0 <= r_gas_used res <= gas).
Proof.
  intros Hr. assert (He : rtc engine_step engine_new e) by (induction Hr; econstructor; eauto using source_step_engine).
  destruct (engine_invariant e He) as (Hok & Hd & Hc). split_and!; [done| |done]. intros text creator en hl ep id. apply Hd.
Qed.
End sources.

(** ** Sources written out *)

Module Sources.
Export Sample.

(** contracts/evaporscript/bench_object.es, to the letter. *)
Definition bench_object_es : string :=
  "// bench_object.es — minimal decaying state unit for the state-decay
// benchmark (research/BENCH_STATE_DECAY.md).
//
// One deploy = one decaying on-chain object. There is deliberately NO
// business logic: its only job is to occupy state and then either
// evaporate (small energy/half_life) or persist (astronomical
// half_life). The benchmark deploys many of these under two regimes
// and measures whether the aggregate active-object set / data-dir
// size stays bounded by construction (decay) or grows monotonically
// (no-decay control). Grammar mirrors the verified gdpr_vault.es.
contract BenchObject {
    state {
        marker: u64 = 1
        born_at: u64 = 0
    }

    // Optional no-op touch (not required by the benchmark — a bare
    // deploy already creates the decaying object). Present only so the
    // contract has a callable surface consistent with the other .es.
    fn touch() {
        self.born_at = epoch
        emit(" +:+ quote +:+ "bench object touched" +:+ quote +:+ ")
    }
}
".

Definition bench_object : Contract :=
  {| c_name := "BenchObject";
     state_fields := [{| fld_name := "marker"; fld_ty := TU64; fld_default := Some (Literal (U64 1)) |};
                      {| fld_name := "born_at"; fld_ty := TU64; fld_default := Some (Literal (U64 0)) |}];
     functions := [{| fn_name := "touch"; fn_params := []; fn_return_type := None;
                      fn_body := [SAssign (TStateField "born_at") (Var "epoch"); SEmit (Literal (Str "bench object touched"))] |}];
     lifecycle_hooks := [] |}.
End Sources.

(** The benchmark contract of the repository, read, deployed and called. *)
Lemma bench_object_runs :
  parsed Sources.bench_object_es = Ok Sources.bench_object /\
  let e := (deploy_source Sources.bench_object_es ToyEngine.alice 1000 100 5 engine_new).1 in
  let '(e', r) := call 1 "touch" [] ToyEngine.alice 9 e in
  (contracts e' !! 1 ≫= fun c => sc_state c !! "born_at"%string) = Some (U64 9) /\ (exists v, r = Ok v).
Proof. split; [vm_compute; reflexivity|]. vm_compute. split; [reflexivity|]. by eexists. Qed.

(** The parentheses after [while] are taken for the whole condition, so a condition that begins
    with a parenthesis is refused; the same condition after [if] is read. *)
Lemma while_condition_refused :
  parsed "contract C { fn f(a: u64, b: u64) { while (a - b) > 1 { return } } }" = Err (Parse 1 "expected LBrace, got Gt") /\
  exists c, parsed "contract C { fn f(a: u64, b: u64) { if (a - b) > 1 { return } } }" = Ok c.
Proof. split; [vm_compute; reflexivity|]. eexists. vm_compute. reflexivity. Qed.

(** Statements have no terminator: a line that begins with a minus sign goes on with the one
    before, and an expression that begins with a name ends after its first access. *)
Lemma statements_run_together :
  (exists c, parsed "contract C { fn f(a: u64, b: u64) { let x = a
    -b } }" = Ok c /\ fn_body <$> functions c = [[SLet "x" (BinaryOp (Var "a") BSub (Var "b"))]]) /\
  (exists c, parsed "contract C { fn f(a: u64, b: u64) { g(a) - b } }" = Ok c /\
    fn_body <$> functions c = [[SExpr (FunctionCall "g" [Var "a"]); SExpr (Unary UNeg (Var "b"))]]).
Proof. split; eexists; split; vm_compute; reflexivity. Qed.

(** What follows the contract is not looked at, and a second state block is refused only if the
    first has a field. *)
Lemma leniencies :
  (exists c, parsed "contract C { } contract D { ) ] 1" = Ok c) /\
  (exists c, parsed "contract C { state { } state { x: u64 } }" = Ok c) /\
  (exists e, parsed "contract C { state { x: u64 } state { } }" = Err e).
Proof. split_and!; eexists; vm_compute; reflexivity. Qed.

Lemma source_engine_invariant_witness :
  let e := (deploy_source Sources.bench_object_es ToyEngine.alice 1000 100 5 engine_new).1 in
  engine_ok e /\ is_Some (contracts e !! 1) /\
  exists res, (call_with_vm_gas 1 "touch" [] ToyEngine.alice 6 1000 e).2 = Ok res /\ value_wf (return_value res).
Proof.
  intros e. assert (Halice : Forall is_u8 ToyEngine.alice) by (apply (Forall_replicate is_u8 32 5); unfold is_u8; lia).
  destruct (source_engine_invariant e) as (Hok & _ & Hcall).
  { apply rtc_once. apply source_deploy; [done|u64_lia|u64_lia|simpl; u64_lia]. }
  split; [exact Hok|]. split; [vm_compute; eauto|].
  destruct (call_with_vm_gas 1 "touch" [] ToyEngine.alice 6 1000 e).2 as [res|err] eqn:E; [|vm_compute in E; discriminate E].
  exists res. split; [reflexivity|]. apply (Hcall 1 "touch"%string [] ToyEngine.alice 6 1000 res); [done|done|u64_lia|u64_lia|exact E].
Defined.

(** Both [parse_expr] and [parse_unary] count a level: 31 parentheses are read, 32 are not. *)
Lemma parentheses_halved :
  let nested n := "contract C { fn f() { return " +:+ Nat.iter n (String.append "(") "1" +:+ Nat.iter n (String.append ")") "" +:+ " } }" in
  (exists c, parsed (nested 31%nat) = Ok c) /\
  parsed (nested 32%nat) = Err (Parse 1 "expression nesting depth exceeds maximum (64)").
Proof. split; [eexists|]; vm_compute; reflexivity. Qed.
