(* ===== verification/ScriptDepth.v ===== *)
(** * Sources deeper than the guards see

    The depth counters of the parser bound the nesting of parentheses and of blocks.  The
    recursion of [parse_type] has no counter, [else if] recurses into [parse_if] without
    a block of its own, and a chain of operators builds a tree as deep as it is long.
    All three fit in a source of the size the parser allows. *)

From stdpp Require Import base gmap list sorting strings pretty.
From Stdlib Require Import ZArith Lia.
From S2P Require Import Prelude Energy Trie ScriptValue ScriptVM ScriptCompiler ScriptTokens ScriptGrammar ScriptParses ScriptPrinter ScriptRoundTrip ScriptText ScriptEngine ScriptSource.

Open Scope Z_scope.

Section unguarded.
Context `{StrDebug, Unicode}.

Definition contract_of (fields : list StateField) (body : list Stmt) : Contract :=
  {| c_name := "C"; state_fields := fields;
     functions := [{| fn_name := "f"; fn_params := []; fn_return_type := None; fn_body := body |}]; lifecycle_hooks := [] |}.

(** [array[array[... u64 ...]]]. *)
Definition arrays (n : nat) : ScriptType := Nat.iter n TArray TU64.

(** [if true { } else if true { } else ...]. *)
Fixpoint else_ifs (n : nat) : Stmt :=
  match n with
  | O => SIf (Literal (VBool true)) [] None
  | S n => SIf (Literal (VBool true)) [] (Some [else_ifs n])
  end.

(** [1 + 1 + ... + 1]. *)
Definition sum (n : nat) : Expr := Nat.iter n (fun e => BinaryOp e BAdd (Literal (U64 1))) (Literal (U64 1)).

Fixpoint expr_height (e : Expr) : nat :=
  match e with
  | Literal _ | Var _ | StateAccess _ => 0
  | MapAccess _ k => S (expr_height k)
  | BinaryOp l _ r => S (Nat.max (expr_height l) (expr_height r))
  | Unary _ e => S (expr_height e)
  | FunctionCall _ l | ArrayLiteral l => S (list_max (expr_height <$> l))
  | ArrayAccess a i => S (Nat.max (expr_height a) (expr_height i))
  end.

Lemma sum_height n : expr_height (sum n) = n.
Proof. induction n as [|n IH]; [done|]. change (sum (S n)) with (BinaryOp (sum n) BAdd (Literal (U64 1))). cbn [expr_height]. lia. Qed.

Lemma bind_none {A B} (m : parsing A) (f : A -> parsing B) p a q : runs m p a q -> f a q = None -> pbind m f p = None.
Proof. unfold runs, pbind. by intros ->. Qed.

(** Fewer calls than brackets are not enough. *)
Lemma arrays_recursion n ts d s : parse_type_in n (mkParser (lined (print_type (arrays n)) ++ ts) d s) = None.
Proof.
  revert ts. induction n as [|n IH]; intros ts; [done|]. change (arrays (S n)) with (TArray (arrays n)). cbn [print_type parse_type_in].
  spread. cbn [peek rest]. eapply bind_none; [apply runs_skip|]. eapply bind_none; [apply runs_expect|]. unfold pbind. by rewrite IH.
Qed.

Lemma else_ifs_recursion n ts :
  parse_if_in parse_block n (mkParser (lined (print_stmt (else_ifs n)) ++ ts) 0 0) = None.
Proof.
  induction n as [|n IH]; [done|]. cbn [else_ifs]. rewrite print_if. cbn [parse_if_in].
  assert (exists l, print_stmt (else_ifs n) = TkIf :: l) as (l & El) by (destruct n; by eexists).
  assert (Eo : print_else (Some [else_ifs n]) = TkElse :: print_stmt (else_ifs n)) by by destruct n.
  rewrite Eo, El. rewrite El in IH. revert IH. spread. intros IH.
  eapply bind_none; [apply runs_skip|]. eapply bind_none; [by apply top_reads; [|apply stops_lbrace]|].
  eapply bind_none; [by apply (parse_block_print [])|]. spread. cbn [peek rest]. rewrite decide_True by done.
  eapply bind_none; [apply runs_skip|]. cbn [peek rest]. rewrite decide_True by done. unfold pbind. by rewrite IH.
Qed.

(** Tokens in ASCII, and the bytes they take. *)
Definition plain (l : list Token) (n : nat) : Prop :=
  forallb (fun t => lexable t && forallb (fun c => (0 <=? c) && (c <? 128)) (token_chars t)) l = true /\ length (source_chars l) = n.

Lemma plain_app l1 l2 n1 n2 n : plain l1 n1 -> plain l2 n2 -> n = (n1 + n2)%nat -> plain (l1 ++ l2) n.
Proof.
  intros (H1 & <-) (H2 & <-) ->. split; [by rewrite forallb_app, H1, H2|]. unfold source_chars. by rewrite fmap_app, concat_app, length_app.
Qed.

Lemma plain_lexable l n : plain l n -> forallb lexable l = true.
Proof.
  intros (Hl & _). rewrite forallb_forall in *. intros t Ht. specialize (Hl t Ht). by apply andb_true_iff in Hl as (? & _).
Qed.

Lemma encode_ascii l : forallb (fun c => (0 <=? c) && (c <? 128)) l = true -> encode l = l.
Proof.
  induction l as [|c l IH]; [done|]. cbn [forallb]. intros (Hc & Hl)%andb_true_iff. apply andb_true_iff in Hc as (_ & Hc).
  unfold encode in *. cbn [fmap list_fmap concat]. rewrite IH by done. unfold utf8_encode. by rewrite Hc.
Qed.

Lemma plain_length l n : plain l n -> String.length (source_of l) = n.
Proof.
  intros (Hl & <-). unfold source_of. rewrite length_text. f_equal. apply encode_ascii. induction l as [|t l IH]; [done|].
  cbn [forallb] in Hl. apply andb_true_iff in Hl as (Ht & Hl). apply andb_true_iff in Ht as (_ & Ht).
  change (source_chars (t :: l)) with (32 :: token_chars t ++ source_chars l). cbn [forallb]. by rewrite forallb_app, Ht, IH.
Qed.

Lemma plain_arrays n : plain (print_type (arrays n)) (10 * n + 4).
Proof.
  induction n as [|n IH]; [by vm_compute|]. change (arrays (S n)) with (TArray (arrays n)). cbn [print_type].
  apply (plain_app _ _ 8 (10 * n + 6)); [by vm_compute| |lia]. apply (plain_app _ _ (10 * n + 4) 2); [done|by vm_compute|lia].
Qed.

Lemma plain_else_ifs n : plain (print_stmt (else_ifs n)) (17 * n + 12).
Proof.
  induction n as [|n IH]; [by vm_compute|]. cbn [else_ifs]. rewrite print_if.
  assert (print_else (Some [else_ifs n]) = [TkElse] ++ print_stmt (else_ifs n)) as -> by by destruct n.
  apply (plain_app _ _ 3 (17 * n + 26)); [by vm_compute| |lia]. apply (plain_app _ _ 5 (17 * n + 21)); [by vm_compute| |lia].
  apply (plain_app _ _ 4 (17 * n + 17)); [by vm_compute| |lia]. apply (plain_app _ _ 5 (17 * n + 12)); [by vm_compute|done|lia].
Qed.

Lemma plain_sum n : plain (print_expr 5 (sum n)) (4 * n + 2).
Proof.
  induction n as [|n IH]; [by vm_compute|]. change (sum (S n)) with (BinaryOp (sum n) BAdd (Literal (U64 1))). cbn [print_expr level_of Nat.leb].
  apply (plain_app _ _ (4 * n + 2) 4); [done|by vm_compute|lia].
Qed.

(** *** The three contracts *)

Definition deep_type (n : nat) : Contract := contract_of [{| fld_name := "x"; fld_ty := arrays n; fld_default := None |}] [].
Definition deep_else (n : nat) : Contract := contract_of [] [else_ifs n].
Definition deep_sum (n : nat) : Contract := contract_of [] [SReturn (Some (sum n))].

Lemma wf_deep_else n : wf_contract (deep_else n) = true.
Proof.
  assert (Hw : wf_stmt (else_ifs n) = true).
  { induction n as [|n IH]; [done|]. cbn [else_ifs wf_stmt forallb wf_sequence]. by rewrite IH. }
  assert (Hn : block_nesting (else_ifs n) = 1%nat).
  { clear Hw. induction n as [|n IH]; [done|]. cbn [else_ifs]. rewrite nesting_if. assert (else_nesting (Some [else_ifs n]) = block_nesting (else_ifs n)) as -> by by destruct n. by rewrite IH. }
  unfold deep_else, contract_of, wf_contract, wf_function, wf_body, wf_block, fits_blocks. cbn [state_fields functions lifecycle_hooks forallb fn_body wf_sequence].
  rewrite Hw. cbn [fmap list_fmap]. by rewrite Hn.
Qed.

Lemma print_sum n : print_expr 0 (sum n) = print_expr 5 (sum n).
Proof. by destruct n. Qed.

Lemma wf_deep_sum n : wf_contract (deep_sum n) = true.
Proof.
  assert (Hw : wf_expr (sum n) = true).
  { induction n as [|n IH]; [done|]. change (sum (S n)) with (BinaryOp (sum n) BAdd (Literal (U64 1))). cbn [wf_expr]. by rewrite IH. }
  assert (Hn : nesting 5 (sum n) = 1%nat).
  { clear Hw. induction n as [|n IH]; [done|]. change (sum (S n)) with (BinaryOp (sum n) BAdd (Literal (U64 1))). cbn [nesting level_of Nat.leb]. by rewrite IH. }
  assert (Hn0 : nesting 0 (sum n) = 1%nat) by by destruct n.
  unfold deep_sum, contract_of, wf_contract, wf_function, wf_body, wf_block. cbn [state_fields functions lifecycle_hooks forallb fn_body wf_stmt from_option].
  unfold wf_top. by rewrite Hw, Hn0.
Qed.

Lemma plain_deep_type n : plain (print_contract (deep_type n)) (10 * n + 46).
Proof.
  unfold print_contract, deep_type, contract_of, print_state, print_field. cbn [c_name state_fields functions lifecycle_hooks fmap list_fmap concat fld_name fld_ty fld_default from_option].
  rewrite !app_nil_r. apply (plain_app _ _ 13 (10 * n + 33)); [by vm_compute| |lia].
  apply (plain_app _ _ (10 * n + 18) 15); [|by vm_compute|lia]. apply (plain_app _ _ 8 (10 * n + 10)); [by vm_compute| |lia].
  apply (plain_app _ _ (10 * n + 8) 2); [|by vm_compute|lia]. apply (plain_app _ _ 4 (10 * n + 4)); [by vm_compute|apply plain_arrays|lia].
Qed.

(** A body of one statement. *)
Lemma plain_body s n : plain (print_stmt s) n -> plain (print_contract (contract_of [] [s])) (n + 28).
Proof.
  intros Hs. unfold print_contract, contract_of, print_function, print_block.
  cbn [c_name state_fields functions lifecycle_hooks fmap list_fmap concat print_state fn_name fn_params fn_return_type fn_body commas from_option].
  rewrite !app_nil_r. cbn [app]. change (TkContract :: ?a :: ?b :: ?l) with ([TkContract; a; b] ++ l).
  apply (plain_app [TkContract; TkIdent "C"; TkLBrace; TkFn; TkIdent "f"; TkLParen; TkRParen; TkLBrace] _ 24 (n + 4)); [by vm_compute| |lia].
  rewrite <- app_assoc. apply (plain_app _ _ n 4); [done|by vm_compute|lia].
Qed.

Lemma plain_parsed c n : wf_contract c = true -> plain (print_contract c) n -> Z.of_nat n <= MAX_SOURCE_BYTES -> parsed (source c) = Ok c.
Proof.
  intros Hw Hp Hn. unfold parsed. rewrite parse_source; [done|done|by eapply plain_lexable|].
  unfold too_large, source. rewrite (plain_length _ _ Hp). by apply Z.ltb_ge.
Qed.

(** C36: the guards against deep sources miss three of their shapes.  Up to 60000 levels of each fit
    in a source the size check lets through: array types, whose parser then calls itself more
    than [n] times; [else if], which calls [parse_if] more than [n] times without opening a
    block; and a chain of additions, read without recursion into a tree of height [n] that the
    compiler descends.  Each of them is accepted. *)
Theorem nesting_unguarded n :
  Z.of_nat n <= 60000 ->
  (parsed (source (deep_type n)) = Ok (deep_type n) /\
   forall ts, parse_type_in n (mkParser (lined (print_type (arrays n)) ++ ts) 0 0) = None) /\
  (parsed (source (deep_else n)) = Ok (deep_else n) /\
   forall ts, parse_if_in parse_block n (mkParser (lined (print_stmt (else_ifs n)) ++ ts) 0 0) = None) /\
  (parsed (source (deep_sum n)) = Ok (deep_sum n) /\ expr_height (sum n) = n).
Proof.
  intros Hn. split_and!.
  - eapply plain_parsed; [done|apply plain_deep_type|]. unfold MAX_SOURCE_BYTES. lia.
  - intros ts. apply arrays_recursion.
  - eapply plain_parsed; [apply wf_deep_else|apply plain_body, plain_else_ifs|]. unfold MAX_SOURCE_BYTES. lia.
  - intros ts. apply else_ifs_recursion.
  - eapply plain_parsed; [apply wf_deep_sum|apply (plain_body _ (7 + (4 * n + 2)))|unfold MAX_SOURCE_BYTES; lia].
    cbn [print_stmt from_option]. rewrite print_sum. change (TkReturn :: ?l) with ([TkReturn] ++ l).
    apply (plain_app _ _ 7 (4 * n + 2)); [by vm_compute|apply plain_sum|done].
  - apply sum_height.
Qed.
End unguarded.

Lemma nesting_unguarded_witness :
  parsed (source (deep_else 70)) = Ok (deep_else 70) /\ fits_blocks [else_ifs 70] = true.
Proof. split; [|vm_compute; reflexivity]. destruct (nesting_unguarded 70) as (_ & (He & _) & _); [lia|]. exact He. Defined.
