(* ===== verification/Validators.v ===== *)
(** * Validators

    crates/evaporchain-consensus-types/src/lib.rs: validators, the validator
    set, leader selection, slashing and key rotation; and
    crates/evaporchain-consensus/src/validator_set.rs: delegated stake and the
    epoch transition manager.

    [f64] is the binary64 of the Standard Library's executable specification
    of IEEE 754 ([SpecFloat]); a decimal literal is the correctly rounded
    quotient of two integers. *)

From stdpp Require Import base gmap list sorting strings.
From Stdlib Require Import ZArith Lia SpecFloat.
From S2P Require Import Prelude Trie Types StateDB.

Open Scope Z_scope.

(** ** Binary64 *)

Module F64.
Definition f64 : Type := spec_float.

(** [n as f64] of an unsigned integer: round to nearest, ties to even. *)
Definition of_int (n : Z) : f64 := binary_normalize 53 1024 n 0 false.

(** The literal [n / d]. *)
Definition lit (n d : Z) : f64 := SFdiv 53 1024 (of_int n) (of_int d).

Definition zero : f64 := S754_zero false.
Definition add (x y : f64) : f64 := SFadd 53 1024 x y.
Definition sub (x y : f64) : f64 := SFsub 53 1024 x y.
Definition mul (x y : f64) : f64 := SFmul 53 1024 x y.

(** [f64::min] and [f64::max]: a NaN operand is ignored. *)
Definition min (x y : f64) : f64 :=
  match x, y with
  | S754_nan, _ => y
  | _, S754_nan => x
  | _, _ => if SFltb y x then y else x
  end.

Definition max (x y : f64) : f64 :=
  match x, y with
  | S754_nan, _ => y
  | _, S754_nan => x
  | _, _ => if SFltb x y then y else x
  end.

(** The integer a finite value rounds to, by a rule on [m / 2 ^ k]. *)
Definition to_int (down : Z -> Z -> Z) (x : f64) : option Z :=
  match x with
  | S754_zero _ => Some 0
  | S754_finite s m e =>
      let a := if 0 <=? e then Z.pos m * 2 ^ e else down (Z.pos m) (2 ^ (- e)) in
      Some (if s then - a else a)
  | _ => None
  end.

(** A cast to an unsigned integer saturates, and takes NaN to 0. *)
Definition saturate (x : f64) (z : option Z) : Z :=
  match z with
  | Some z => Z.max 0 (Z.min z U64_MAX)
  | None => match x with S754_infinity false => U64_MAX | _ => 0 end
  end.

(** [x as u64], [x.round() as u64] (ties away from zero) and, for the
    non-negative values of the sources, [x.ceil() as usize]. *)
Definition as_int (x : f64) : Z := saturate x (to_int Z.div x).
Definition round_as_int (x : f64) : Z := saturate x (to_int (fun m d => (2 * m + d) / (2 * d)) x).
Definition ceil_as_int (x : f64) : Z := saturate x (to_int (fun m d => (m + d - 1) / d) x).
End F64.

(** ** Constants *)

Definition HEALTH_BONUS_CAP : F64.f64 := F64.lit 2 10.
Definition MAX_HEALTH_SCORE : F64.f64 := F64.lit 1 1.
Definition HEALTH_DECAY_RATE : F64.f64 := F64.lit 1 100.
Definition HEALTH_PER_EVAPORATION : F64.f64 := F64.lit 5 100.
Definition MIN_STAKE : Z := 100.
Definition SLASH_EQUIVOCATION_PCT : F64.f64 := F64.lit 10 100.
Definition SLASH_DOWNTIME_PCT : F64.f64 := F64.lit 1 100.

(** ** Validators *)

Record ValidatorInfo := {
  v_id : Z;
  stake : Z;
  address : bytes;
  bls_public_key : option bytes;
  vrf_public_key : option bytes;
  blocks_produced : Z;
  evaporations_processed : Z;
  health_score : F64.f64;
  jailed : bool;
  total_slashed : Z;
  bls_pop : option bytes;
  pop_verified : bool;
  bls_public_key_prev : option bytes;
  bls_prev_key_expiry_epoch : option Z;
  delegated_stake : Z;
  commission_ppm : Z;
}.

Definition default_commission_ppm : Z := 100000.

Definition validator_new (id st : Z) (addr : bytes) : ValidatorInfo :=
  {| v_id := id; stake := st; address := addr; bls_public_key := None; vrf_public_key := None;
     blocks_produced := 0; evaporations_processed := 0; health_score := F64.zero; jailed := false;
     total_slashed := 0; bls_pop := None; pop_verified := false; bls_public_key_prev := None;
     bls_prev_key_expiry_epoch := None; delegated_stake := 0;
     commission_ppm := default_commission_ppm |}.

(** The fields the operations assign, in groups. *)
Definition set_stake (st slashed : Z) (v : ValidatorInfo) : ValidatorInfo :=
  {| v_id := v_id v; stake := st; address := address v; bls_public_key := bls_public_key v;
     vrf_public_key := vrf_public_key v; blocks_produced := blocks_produced v;
     evaporations_processed := evaporations_processed v; health_score := health_score v;
     jailed := jailed v; total_slashed := slashed; bls_pop := bls_pop v;
     pop_verified := pop_verified v; bls_public_key_prev := bls_public_key_prev v;
     bls_prev_key_expiry_epoch := bls_prev_key_expiry_epoch v;
     delegated_stake := delegated_stake v; commission_ppm := commission_ppm v |}.

Definition set_health (blocks evaps : Z) (h : F64.f64) (v : ValidatorInfo) : ValidatorInfo :=
  {| v_id := v_id v; stake := stake v; address := address v; bls_public_key := bls_public_key v;
     vrf_public_key := vrf_public_key v; blocks_produced := blocks;
     evaporations_processed := evaps; health_score := h;
     jailed := jailed v; total_slashed := total_slashed v; bls_pop := bls_pop v;
     pop_verified := pop_verified v; bls_public_key_prev := bls_public_key_prev v;
     bls_prev_key_expiry_epoch := bls_prev_key_expiry_epoch v;
     delegated_stake := delegated_stake v; commission_ppm := commission_ppm v |}.

Definition set_jailed (b : bool) (h : F64.f64) (v : ValidatorInfo) : ValidatorInfo :=
  {| v_id := v_id v; stake := stake v; address := address v; bls_public_key := bls_public_key v;
     vrf_public_key := vrf_public_key v; blocks_produced := blocks_produced v;
     evaporations_processed := evaporations_processed v; health_score := h;
     jailed := b; total_slashed := total_slashed v; bls_pop := bls_pop v;
     pop_verified := pop_verified v; bls_public_key_prev := bls_public_key_prev v;
     bls_prev_key_expiry_epoch := bls_prev_key_expiry_epoch v;
     delegated_stake := delegated_stake v; commission_ppm := commission_ppm v |}.

Definition set_keys (pk prev : option bytes) (expiry : option Z) (pop : option bytes) (ok : bool)
    (v : ValidatorInfo) : ValidatorInfo :=
  {| v_id := v_id v; stake := stake v; address := address v; bls_public_key := pk;
     vrf_public_key := vrf_public_key v; blocks_produced := blocks_produced v;
     evaporations_processed := evaporations_processed v; health_score := health_score v;
     jailed := jailed v; total_slashed := total_slashed v; bls_pop := pop;
     pop_verified := ok; bls_public_key_prev := prev; bls_prev_key_expiry_epoch := expiry;
     delegated_stake := delegated_stake v; commission_ppm := commission_ppm v |}.

Definition set_delegated (d : Z) (v : ValidatorInfo) : ValidatorInfo :=
  {| v_id := v_id v; stake := stake v; address := address v; bls_public_key := bls_public_key v;
     vrf_public_key := vrf_public_key v; blocks_produced := blocks_produced v;
     evaporations_processed := evaporations_processed v; health_score := health_score v;
     jailed := jailed v; total_slashed := total_slashed v; bls_pop := bls_pop v;
     pop_verified := pop_verified v; bls_public_key_prev := bls_public_key_prev v;
     bls_prev_key_expiry_epoch := bls_prev_key_expiry_epoch v;
     delegated_stake := d; commission_ppm := commission_ppm v |}.

Definition effective_stake (v : ValidatorInfo) : Z := saturating_add (stake v) (delegated_stake v).

Definition effective_weight (v : ValidatorInfo) : Z :=
  let health_capped := F64.min (health_score v) MAX_HEALTH_SCORE in
  let multiplier := F64.add (F64.lit 1 1) (F64.mul health_capped HEALTH_BONUS_CAP) in
  F64.round_as_int (F64.mul (F64.of_int (stake v)) multiplier).

(** ** The validator set *)

Record ValidatorSet := { validators : list ValidatorInfo }.

Definition vset_new : ValidatorSet := {| validators := [] |}.

(** [iter().find(|v| v.id == id)] *)
Definition get (vs : ValidatorSet) (id : Z) : option ValidatorInfo :=
  head (filter (fun v => v_id v = id) (validators vs)).

(** An assignment through [get_mut]: the first match, if there is one. *)
Fixpoint update_first (id : Z) (f : ValidatorInfo -> ValidatorInfo) (l : list ValidatorInfo)
  : list ValidatorInfo :=
  match l with
  | [] => []
  | v :: l' => if decide (v_id v = id) then f v :: l' else v :: update_first id f l'
  end.

Definition with_mut (id : Z) (f : ValidatorInfo -> ValidatorInfo) (vs : ValidatorSet) : ValidatorSet :=
  {| validators := update_first id f (validators vs) |}.

Definition add_validator (info : ValidatorInfo) (vs : ValidatorSet) : ValidatorSet * bool :=
  match get vs (v_id info) with
  | Some _ => (vs, false)
  | None => ({| validators := validators vs ++ [info] |}, true)
  end.

Definition add_validator_with_pop (info : ValidatorInfo) (pop : bytes) (verified : bool)
    (vs : ValidatorSet) : ValidatorSet * bool :=
  add_validator (set_keys (bls_public_key info) (bls_public_key_prev info)
    (bls_prev_key_expiry_epoch info) (Some pop) verified info) vs.

(** The old key is [take]n before it is inspected: an empty one is lost. *)
Definition rotate_validator_key (id : Z) (new_pk new_pop : bytes) (expiry : Z) (vs : ValidatorSet)
  : ValidatorSet * bool :=
  match get vs id with
  | None => (vs, false)
  | Some v =>
      match bls_public_key v with
      | Some (b :: p) =>
          (with_mut id (set_keys (Some new_pk) (Some (b :: p)) (Some expiry) (Some new_pop) true) vs,
           true)
      | _ =>
          (with_mut id (fun v => set_keys None (bls_public_key_prev v) (bls_prev_key_expiry_epoch v)
                          (bls_pop v) (pop_verified v) v) vs, false)
      end
  end.

Definition purge_one (current_epoch : Z) (v : ValidatorInfo) : ValidatorInfo * Z :=
  match bls_prev_key_expiry_epoch v with
  | Some expiry =>
      if expiry <? current_epoch
      then (set_keys (bls_public_key v) None None (bls_pop v) (pop_verified v) v, 1)
      else (v, 0)
  | None => (v, 0)
  end.

Definition purge_expired_prev_keys (current_epoch : Z) (vs : ValidatorSet) : ValidatorSet * Z :=
  let rs := purge_one current_epoch <$> validators vs in
  ({| validators := rs.*1 |}, sumZ rs.*2).

Definition remove_validator (id : Z) (vs : ValidatorSet) : ValidatorSet * bool :=
  let l := filter (fun v => v_id v <> id) (validators vs) in
  ({| validators := l |}, bool_decide (length l < length (validators vs))%nat).

Definition active (vs : ValidatorSet) : list ValidatorInfo :=
  filter (fun v => jailed v = false) (validators vs).

Definition active_count (vs : ValidatorSet) : Z := Z.of_nat (length (active vs)).

(** [.sum()], which wraps in release builds. *)
Definition total_weight (vs : ValidatorSet) : Z := as_u64 (sumZ (effective_weight <$> active vs)).

(** [fold(0, saturating_add)] *)
Definition saturating_sum (l : list Z) : Z := foldl saturating_add 0 l.

Definition total_stake (vs : ValidatorSet) : Z := saturating_sum (effective_stake <$> active vs).
Definition total_self_stake (vs : ValidatorSet) : Z := saturating_sum (stake <$> active vs).

Definition has_bls_keys (vs : ValidatorSet) : bool :=
  negb (bool_decide (validators vs = [])) &&
  forallb (fun v => bool_decide (is_Some (bls_public_key v))) (validators vs).

Definition has_vrf_keys (vs : ValidatorSet) : bool :=
  existsb (fun v => bool_decide (is_Some (vrf_public_key v))) (validators vs).

(** *** Leader selection *)

Section leader.
Context `{Blake3}.

Definition epoch_hash_with_seed (epoch : Z) (seed : bytes) : Z :=
  from_le_bytes (take 8 (blake3 (to_le_bytes 8 epoch ++ bytes_of_string "leader" ++ seed))).

Definition epoch_hash (epoch : Z) : Z := epoch_hash_with_seed epoch (replicate 32 0).

(** The loop over the accumulated stakes. *)
Fixpoint pick (l : list ValidatorInfo) (accumulated weighted_index : Z) : option ValidatorInfo :=
  match l with
  | [] => None
  | v :: l' =>
      let accumulated := saturating_add accumulated (stake v) in
      if weighted_index <? accumulated then Some v else pick l' accumulated weighted_index
  end.

Definition leader_from (vs : ValidatorSet) (epoch hash : Z) : option ValidatorInfo :=
  match active vs with
  | [] => None
  | a =>
      let total := saturating_sum (stake <$> a) in
      if total =? 0 then a !! Z.to_nat (epoch mod Z.of_nat (length a))
      else
        match pick a 0 (hash mod total) with
        | Some v => Some v
        | None => last a
        end
  end.

Definition leader_for_epoch_with_seed (vs : ValidatorSet) (epoch : Z) (seed : bytes)
  : option ValidatorInfo := leader_from vs epoch (epoch_hash_with_seed epoch seed).

Definition leader_for_epoch (vs : ValidatorSet) (epoch : Z) : option ValidatorInfo :=
  leader_from vs epoch (epoch_hash epoch).

Definition is_leader (vs : ValidatorSet) (id epoch : Z) : bool :=
  match leader_for_epoch vs epoch with
  | Some v => v_id v =? id
  | None => false
  end.
End leader.

(** *** Health and slashing *)

Definition update_health_score (id evaporations : Z) (vs : ValidatorSet) : ValidatorSet :=
  with_mut id (fun v =>
    let increase := F64.mul (F64.of_int evaporations) HEALTH_PER_EVAPORATION in
    set_health (wrapping_add (blocks_produced v) 1)
      (wrapping_add (evaporations_processed v) evaporations)
      (F64.min (F64.add (health_score v) increase) MAX_HEALTH_SCORE) v) vs.

Definition decay_health_scores (vs : ValidatorSet) : ValidatorSet :=
  {| validators := (fun v => set_health (blocks_produced v) (evaporations_processed v)
      (F64.max (F64.sub (health_score v) HEALTH_DECAY_RATE) F64.zero) v) <$> validators vs |}.

Definition slash_equivocation (id : Z) (vs : ValidatorSet) : ValidatorSet * Z :=
  match get vs id with
  | None => (vs, 0)
  | Some v =>
      let penalty := F64.round_as_int (F64.mul (F64.of_int (stake v)) SLASH_EQUIVOCATION_PCT) in
      (with_mut id (fun v => set_jailed true F64.zero
         (set_stake (saturating_sub (stake v) penalty) (wrapping_add (total_slashed v) penalty) v)) vs,
       penalty)
  end.

Definition slash_downtime (id missed_blocks : Z) (vs : ValidatorSet) : ValidatorSet * Z :=
  match get vs id with
  | None => (vs, 0)
  | Some v =>
      let per_miss := F64.round_as_int (F64.mul (F64.of_int (stake v)) SLASH_DOWNTIME_PCT) in
      let penalty := saturating_mul per_miss missed_blocks in
      (with_mut id (fun v =>
         let v := set_stake (saturating_sub (stake v) penalty) (wrapping_add (total_slashed v) penalty) v in
         let jail := (3 <=? missed_blocks) || (stake v <? MIN_STAKE) in
         let health := F64.max (F64.sub (health_score v)
           (F64.mul (F64.of_int missed_blocks) (F64.lit 1 10))) F64.zero in
         set_jailed (if jail then true else jailed v) health v) vs, penalty)
  end.

Definition slash_with_amount (id amount : Z) (jail : bool) (vs : ValidatorSet) : ValidatorSet * Z :=
  match get vs id with
  | None => (vs, 0)
  | Some v =>
      let deducted := Z.min amount (stake v) in
      (with_mut id (fun v =>
         let v := set_stake (saturating_sub (stake v) deducted) (wrapping_add (total_slashed v) deducted) v in
         if jail || (stake v <? MIN_STAKE) then set_jailed true F64.zero v else v) vs, deducted)
  end.

Definition jail_tombstoned_by_address (tombstones : list bytes) (vs : ValidatorSet)
  : ValidatorSet * Z :=
  let hit (v : ValidatorInfo) := negb (jailed v) && bool_decide (address v ∈ tombstones) in
  match tombstones with
  | [] => (vs, 0)
  | _ => ({| validators := (fun v => if hit v then set_jailed true F64.zero v else v) <$> validators vs |},
          Z.of_nat (length (filter (fun v => Is_true (hit v)) (validators vs))))
  end.

Definition unjail (id : Z) (vs : ValidatorSet) : ValidatorSet * bool :=
  match get vs id with
  | Some v =>
      if jailed v && (MIN_STAKE <=? stake v)
      then (with_mut id (fun v => set_jailed false (health_score v) v) vs, true)
      else (vs, false)
  | None => (vs, false)
  end.

(** *** Delegated stake *)

Section delegation.
Context `{Blake3, Pallas, HashOrder}.

Definition delegation_totals (ds : list DelegationRecord) : gmap Z Z :=
  foldl (fun totals d =>
    <[ d_validator_id d := saturating_add (default 0 (totals !! d_validator_id d)) (d_amount d) ]> totals)
    ∅ ds.

Definition refresh_delegated_stakes (db : InMemoryStateDB) (vs : ValidatorSet) : ValidatorSet :=
  let totals := delegation_totals (delegation_values db) in
  foldl (fun vs id => with_mut id (fun v => set_delegated (default 0 (totals !! v_id v)) v) vs) vs
    (v_id <$> validators vs).

(** One delegation, slashed: the new record and the amount destroyed. *)
Definition slash_record (pct : F64.f64) (r : DelegationRecord) : DelegationRecord * (Z * Z) :=
  let active_slash := F64.round_as_int (F64.mul (F64.of_int (d_amount r)) pct) in
  let unbonding_slash := F64.round_as_int (F64.mul (F64.of_int (d_unbonding_amount r)) pct) in
  ({| d_delegator := d_delegator r; d_validator_id := d_validator_id r;
      d_amount := saturating_sub (d_amount r) active_slash;
      d_delegated_at_epoch := d_delegated_at_epoch r;
      d_unbonding_amount := saturating_sub (d_unbonding_amount r) unbonding_slash;
      d_unbonding_epoch := d_unbonding_epoch r |}, (active_slash, unbonding_slash)).

Definition slash_one (id : Z) (pct : F64.f64) (acc : InMemoryStateDB * Z) (r : DelegationRecord)
  : InMemoryStateDB * Z :=
  let '(r', (a, u)) := slash_record pct r in
  let total := saturating_add (saturating_add acc.2 a) u in
  if (d_amount r' =? 0) && (d_unbonding_amount r' =? 0)
  then ((remove_delegation (d_delegator r') id acc.1).1, total)
  else (put_delegation r' acc.1, total).

(** [(0.0..=1.0).contains(&pct)] and [pct == 0.0] *)
Definition slash_delegations_for_validator (id : Z) (pct : F64.f64) (db : InMemoryStateDB)
  : InMemoryStateDB * Z :=
  if negb (SFleb F64.zero pct && SFleb pct (F64.lit 1 1)) || SFeqb pct F64.zero then (db, 0)
  else foldl (slash_one id pct) (db, 0) (delegations_for_validator db id).
End delegation.

(** ** Epoch transitions *)

Definition MIN_VALIDATORS : Z := 3.
Definition MAX_CHURN_FRACTION : F64.f64 := F64.lit 33 100.
Definition MAX_STAKE_CHURN_FRACTION : F64.f64 := F64.lit 1 16.
Definition STAKE_UPDATE_DELAY_EPOCHS : Z := 1.
Definition BONDING_PERIOD_EPOCHS : Z := 2.
Definition UNBONDING_PERIOD_EPOCHS : Z := 4.
Definition EPOCH_LENGTH : Z := 100.

Inductive ValidatorSetChange : Type :=
| Join (info : ValidatorInfo)
| Leave (validator_id : Z)
| StakeUpdate (validator_id new_stake : Z).

(** The messages of the result, as data. *)
Inductive Note : Type :=
| NStakeUpdated (id old new : Z)
| NJoined (id : Z)
| NLeft (id : Z)
| NUpdateUntil (id epoch : Z)
| NUpdateBudget (id : Z)
| NJoinUntil (id epoch : Z)
| NJoinChurn (id : Z)
| NJoinBudget (id : Z)
| NLeaveUntil (id epoch : Z)
| NLeaveChurn (id : Z)
| NLeaveBudget (id : Z)
| NUpdateBelowMin (id new : Z)
| NUpdateNotFound (id : Z)
| NJoinExists (id : Z)
| NLeaveBelowMin (id : Z)
| NLeaveNotFound (id : Z).

Record EpochTransitionResult := {
  applied : list Note;
  deferred : list Note;
  rejected : list Note;
}.

Record PendingJoin := { pj_info : ValidatorInfo; pj_ready : Z }.
Record PendingLeave := { pl_id : Z; pl_unlock : Z }.
Record PendingStakeUpdate := { pu_id : Z; pu_stake : Z; pu_ready : Z }.

Record EpochTransitionManager := {
  pending_joins : list PendingJoin;
  pending_leaves : list PendingLeave;
  pending_stake_updates : list PendingStakeUpdate;
  m_current_epoch : Z;
}.

Definition manager_new : EpochTransitionManager :=
  {| pending_joins := []; pending_leaves := []; pending_stake_updates := []; m_current_epoch := 0 |}.

Definition queue_change (change : ValidatorSetChange) (epoch : Z) (m : EpochTransitionManager)
  : EpochTransitionManager :=
  match change with
  | Join info =>
      {| pending_joins := pending_joins m ++
           [{| pj_info := info; pj_ready := wrapping_add epoch BONDING_PERIOD_EPOCHS |}];
         pending_leaves := pending_leaves m; pending_stake_updates := pending_stake_updates m;
         m_current_epoch := m_current_epoch m |}
  | Leave id =>
      {| pending_joins := pending_joins m;
         pending_leaves := pending_leaves m ++
           [{| pl_id := id; pl_unlock := wrapping_add epoch UNBONDING_PERIOD_EPOCHS |}];
         pending_stake_updates := pending_stake_updates m; m_current_epoch := m_current_epoch m |}
  | StakeUpdate id st =>
      {| pending_joins := pending_joins m; pending_leaves := pending_leaves m;
         pending_stake_updates := pending_stake_updates m ++
           [{| pu_id := id; pu_stake := st; pu_ready := wrapping_add epoch STAKE_UPDATE_DELAY_EPOCHS |}];
         m_current_epoch := m_current_epoch m |}
  end.

Definition is_epoch_boundary (height : Z) : bool := (0 <? height) && (height mod EPOCH_LENGTH =? 0).

Definition pending_count (m : EpochTransitionManager) : nat :=
  length (pending_joins m) + length (pending_leaves m) + length (pending_stake_updates m).

(** The variables of [apply_epoch_transition]: the set, the requeued
    changes, the result and the two meters. *)
Record Transition := {
  t_set : ValidatorSet;
  t_joins : list PendingJoin;
  t_leaves : list PendingLeave;
  t_updates : list PendingStakeUpdate;
  t_result : EpochTransitionResult;
  t_changes : Z;
  t_churned : Z;
}.

Definition note_applied (n : Note) (t : Transition) : Transition :=
  {| t_set := t_set t; t_joins := t_joins t; t_leaves := t_leaves t; t_updates := t_updates t;
     t_result := {| applied := applied (t_result t) ++ [n]; deferred := deferred (t_result t);
                    rejected := rejected (t_result t) |};
     t_changes := t_changes t; t_churned := t_churned t |}.

Definition note_deferred (n : Note) (t : Transition) : Transition :=
  {| t_set := t_set t; t_joins := t_joins t; t_leaves := t_leaves t; t_updates := t_updates t;
     t_result := {| applied := applied (t_result t); deferred := deferred (t_result t) ++ [n];
                    rejected := rejected (t_result t) |};
     t_changes := t_changes t; t_churned := t_churned t |}.

Definition note_rejected (n : Note) (t : Transition) : Transition :=
  {| t_set := t_set t; t_joins := t_joins t; t_leaves := t_leaves t; t_updates := t_updates t;
     t_result := {| applied := applied (t_result t); deferred := deferred (t_result t);
                    rejected := rejected (t_result t) ++ [n] |};
     t_changes := t_changes t; t_churned := t_churned t |}.

Definition requeue (js : list PendingJoin) (ls : list PendingLeave) (us : list PendingStakeUpdate)
    (t : Transition) : Transition :=
  {| t_set := t_set t; t_joins := t_joins t ++ js; t_leaves := t_leaves t ++ ls;
     t_updates := t_updates t ++ us; t_result := t_result t; t_changes := t_changes t;
     t_churned := t_churned t |}.

(** A change of the set, with what it adds to the meters. *)
Definition change_set (vs : ValidatorSet) (count churn : Z) (t : Transition) : Transition :=
  {| t_set := vs; t_joins := t_joins t; t_leaves := t_leaves t; t_updates := t_updates t;
     t_result := t_result t; t_changes := t_changes t + count;
     t_churned := wrapping_add (t_churned t) churn |}.

Definition max_churn (vs : ValidatorSet) : Z :=
  Z.max (F64.ceil_as_int (F64.mul (F64.of_int (active_count vs)) MAX_CHURN_FRACTION)) 1.

(** The pre-transition total, jailed validators included. *)
Definition set_stake_sum (vs : ValidatorSet) : Z := as_u64 (sumZ (stake <$> validators vs)).

Definition stake_budget (vs : ValidatorSet) : Z :=
  F64.as_int (F64.mul (F64.of_int (set_stake_sum vs)) MAX_STAKE_CHURN_FRACTION).

Definition stake_of (vs : ValidatorSet) (id : Z) : Z :=
  match get vs id with Some v => stake v | None => 0 end.

Section transition.
Context (epoch : Z) (enforce : bool) (churn_limit budget : Z).

Definition over_budget (amount : Z) (t : Transition) : bool :=
  enforce && (budget <? wrapping_add (t_churned t) amount).

(** The three loop bodies. *)
Definition apply_update (t : Transition) (u : PendingStakeUpdate) : Transition :=
  if pu_stake u <? MIN_STAKE then note_rejected (NUpdateBelowMin (pu_id u) (pu_stake u)) t
  else
    let old := stake_of (t_set t) (pu_id u) in
    match get (t_set t) (pu_id u) with
    | None => note_rejected (NUpdateNotFound (pu_id u)) t
    | Some _ =>
        let delta := Z.abs (old - pu_stake u) in
        if over_budget delta t then
          note_deferred (NUpdateBudget (pu_id u))
            (requeue [] [] [{| pu_id := pu_id u; pu_stake := pu_stake u;
                               pu_ready := wrapping_add epoch 1 |}] t)
        else
          note_applied (NStakeUpdated (pu_id u) old (pu_stake u))
            (change_set (with_mut (pu_id u) (fun v => set_stake (pu_stake u) (total_slashed v) v)
               (t_set t)) 0 delta t)
    end.

Definition apply_join (t : Transition) (p : PendingJoin) : Transition :=
  let info := pj_info p in
  let again := requeue [{| pj_info := info; pj_ready := wrapping_add epoch 1 |}] [] [] t in
  if churn_limit <=? t_changes t then note_deferred (NJoinChurn (v_id info)) again
  else if over_budget (stake info) t then note_deferred (NJoinBudget (v_id info)) again
  else if existsb (fun v => v_id v =? v_id info) (validators (t_set t))
  then note_rejected (NJoinExists (v_id info)) t
  else
    note_applied (NJoined (v_id info))
      (change_set (add_validator info (t_set t)).1 1 (stake info) t).

Definition apply_leave (t : Transition) (p : PendingLeave) : Transition :=
  let again := requeue [] [{| pl_id := pl_id p; pl_unlock := wrapping_add epoch 1 |}] [] t in
  if churn_limit <=? t_changes t then note_deferred (NLeaveChurn (pl_id p)) again
  else
    let leave_stake := stake_of (t_set t) (pl_id p) in
    if over_budget leave_stake t then note_deferred (NLeaveBudget (pl_id p)) again
    else if active_count (t_set t) <=? MIN_VALIDATORS
    then note_rejected (NLeaveBelowMin (pl_id p)) t
    else
      match remove_validator (pl_id p) (t_set t) with
      | (vs, true) => note_applied (NLeft (pl_id p)) (change_set vs 1 leave_stake t)
      | (_, false) => note_rejected (NLeaveNotFound (pl_id p)) t
      end.

Definition ready_update (u : PendingStakeUpdate) : bool := negb enforce || (pu_ready u <=? epoch).
Definition ready_join (p : PendingJoin) : bool := pj_ready p <=? epoch.
Definition ready_leave (p : PendingLeave) : bool := pl_unlock p <=? epoch.

(** [drain(..).partition(ready)]: what is not ready stays queued and is
    noted; the rest goes through the loop. *)
Definition update_phase (us : list PendingStakeUpdate) (t : Transition) : Transition :=
  let waiting := filter (fun u => ready_update u = false) us in
  let t := foldl (fun t u => note_deferred (NUpdateUntil (pu_id u) (pu_ready u)) t)
             (requeue [] [] waiting t) waiting in
  foldl apply_update t (filter (fun u => ready_update u = true) us).

Definition join_phase (js : list PendingJoin) (t : Transition) : Transition :=
  let waiting := filter (fun p => ready_join p = false) js in
  let t := foldl (fun t p => note_deferred (NJoinUntil (v_id (pj_info p)) (pj_ready p)) t)
             (requeue waiting [] [] t) waiting in
  foldl apply_join t (filter (fun p => ready_join p = true) js).

Definition leave_phase (ls : list PendingLeave) (t : Transition) : Transition :=
  let waiting := filter (fun p => ready_leave p = false) ls in
  let t := foldl (fun t p => note_deferred (NLeaveUntil (pl_id p) (pl_unlock p)) t)
             (requeue [] waiting [] t) waiting in
  foldl apply_leave t (filter (fun p => ready_leave p = true) ls).
End transition.

(** The transition as its loops see it, before the manager is rebuilt. *)
Definition run_transition (m : EpochTransitionManager) (vs : ValidatorSet) (epoch : Z) (enforce : bool)
  : Transition :=
  let limit := max_churn vs in
  let budget := stake_budget vs in
  let t := {| t_set := vs; t_joins := []; t_leaves := []; t_updates := [];
              t_result := {| applied := []; deferred := []; rejected := [] |};
              t_changes := 0; t_churned := 0 |} in
  let t := update_phase epoch enforce budget (pending_stake_updates m) t in
  let t := join_phase epoch enforce limit budget (pending_joins m) t in
  leave_phase epoch enforce limit budget (pending_leaves m) t.

Definition apply_epoch_transition (m : EpochTransitionManager) (vs : ValidatorSet) (epoch : Z)
    (enforce : bool) : EpochTransitionManager * ValidatorSet * EpochTransitionResult :=
  let t := run_transition m vs epoch enforce in
  ({| pending_joins := t_joins t; pending_leaves := t_leaves t; pending_stake_updates := t_updates t;
      m_current_epoch := epoch |}, t_set t, t_result t).

Lemma saturating_sum_exact l :
  Forall (fun x => 0 <= x) l -> sumZ l <= U64_MAX -> saturating_sum l = sumZ l.
Proof. intros. unfold saturating_sum. by rewrite saturating_foldl_exact by (done || lia). Qed.

(** A filter that keeps nothing. *)
Lemma filter_none {A} (P : A -> Prop) `{forall x, Decision (P x)} (l : list A) : (forall x, x ∈ l -> ~ P x) -> filter P l = [].
Proof.
  induction l as [|x l IH]; intros Hl; [done|]. rewrite filter_cons_False by (apply Hl; left).
  apply IH. intros y Hy. apply Hl. by right.
Qed.

(** ** Lookup by identifier *)

Definition ids (vs : ValidatorSet) : list Z := v_id <$> validators vs.

Lemma get_Some_in vs id v : get vs id = Some v -> v ∈ validators vs /\ v_id v = id.
Proof. unfold get. intros [Hid Hin]%head_Some_elem_of%list_elem_of_filter. done. Qed.

Lemma get_cons v l id :
  get {| validators := v :: l |} id = if decide (v_id v = id) then Some v else get {| validators := l |} id.
Proof. unfold get. simpl. rewrite filter_cons. by case_decide. Qed.

Lemma get_app l k id :
  get {| validators := l ++ k |} id =
  match get {| validators := l |} id with Some v => Some v | None => get {| validators := k |} id end.
Proof.
  induction l as [|v l IH]; cbn [app]; [done|]. rewrite !get_cons, IH. by case_decide.
Qed.

Lemma get_None vs id : get vs id = None <-> id ∉ ids vs.
Proof.
  destruct vs as [l]. unfold ids. simpl. induction l as [|v l IH]; simpl.
  - split; [by intros _ ?%elem_of_nil|done].
  - rewrite get_cons, not_elem_of_cons. case_decide; [naive_solver|]. rewrite IH. naive_solver.
Qed.

Lemma get_with_mut id f vs j :
  (forall v, v_id (f v) = v_id v) ->
  get (with_mut id f vs) j = if decide (j = id) then f <$> get vs id else get vs j.
Proof.
  intros Hf. destruct vs as [l]. unfold with_mut. cbn [validators].
  induction l as [|v l IH]; cbn [update_first]; [by case_decide|].
  destruct (decide (v_id v = id)) as [Ev|Ev]; rewrite !get_cons, ?IH, ?Hf;
    repeat case_decide; simpl; congruence.
Qed.

Lemma ids_with_mut id f vs : (forall v, v_id (f v) = v_id v) -> ids (with_mut id f vs) = ids vs.
Proof.
  intros Hf. destruct vs as [l]. unfold with_mut, ids. simpl.
  induction l as [|v l IH]; cbn [update_first]; [done|].
  case_decide; csimpl; [by rewrite Hf|by rewrite IH].
Qed.

Lemma get_filter_ne vs id j :
  get (remove_validator id vs).1 j = if decide (j = id) then None else get vs j.
Proof.
  destruct vs as [l]. unfold remove_validator. cbn [validators fst].
  induction l as [|v l IH]; [by case_decide|].
  rewrite filter_cons. destruct (decide (v_id v <> id)) as [Hv|Hv]; rewrite ?get_cons, IH.
  - repeat case_decide; congruence.
  - repeat case_decide; (done || (exfalso; apply Hv; congruence)).
Qed.

(** ** Leaders are chosen in proportion to stake *)

Section leaders.
Context `{Blake3}.

Abbreviation stakes := (fmap (M := list) stake).

(** A residue below the stakes of a prefix selects a member of it; one above
    passes it by. *)
Lemma pick_within l k acc w :
  Forall (fun v => 0 <= stake v) l -> acc + sumZ (stakes l) <= U64_MAX ->
  w < acc + sumZ (stakes l) -> acc <= w -> exists v, v ∈ l /\ pick (l ++ k) acc w = Some v.
Proof.
  intros Hl. revert acc. induction Hl as [|v l Hv Hl IH]; intros acc Hmax Hw Hacc; csimpl in *; [lia|].
  pose proof (sumZ_nonneg (stakes l)) as H0. rewrite Forall_fmap in H0. specialize (H0 Hl).
  rewrite saturating_add_exact by lia. destruct (Z.ltb_spec w (acc + stake v)).
  - exists v. split; [left|done].
  - destruct (IH (acc + stake v)) as (u & Hu & E); [lia..|]. exists u. split; [by right|done].
Qed.

Lemma pick_skip l k acc w :
  Forall (fun v => 0 <= stake v) l -> acc + sumZ (stakes l) <= U64_MAX -> acc + sumZ (stakes l) <= w ->
  pick (l ++ k) acc w = pick k (acc + sumZ (stakes l)) w.
Proof.
  intros Hl. revert acc. induction Hl as [|v l Hv Hl IH]; intros acc Hmax Hw; csimpl in *.
  - by rewrite Z.add_0_r.
  - pose proof (sumZ_nonneg (stakes l)) as H0. rewrite Forall_fmap in H0. specialize (H0 Hl).
    rewrite saturating_add_exact by lia. destruct (Z.ltb_spec w (acc + stake v)); [lia|].
    rewrite IH by lia. f_equal. lia.
Qed.

(** Who leads when the epoch hash leaves residue [w]. *)
Lemma leader_from_pick vs epoch w :
  Forall (fun v => 0 <= stake v) (active vs) -> 0 < sumZ (stakes (active vs)) <= U64_MAX ->
  0 <= w < sumZ (stakes (active vs)) -> leader_from vs epoch w = pick (active vs) 0 w.
Proof.
  intros Hpos Hsum Hw. unfold leader_from.
  assert (Hsat : saturating_sum (stakes (active vs)) = sumZ (stakes (active vs))).
  { apply saturating_sum_exact; [by apply Forall_fmap|lia]. }
  destruct (pick_within (active vs) [] 0 w) as (u & _ & E); [done|lia..|].
  rewrite app_nil_r in E. destruct (active vs) as [|v a] eqn:Ea; [simpl in *; lia|].
  rewrite Hsat. destruct (Z.eqb_spec (sumZ (stakes (v :: a))) 0); [lia|].
  rewrite Z.mod_small by lia. by rewrite E.
Qed.

Lemma leader_from_mod vs epoch h :
  Forall (fun v => 0 <= stake v) (active vs) -> sumZ (stakes (active vs)) <= U64_MAX ->
  leader_from vs epoch (h mod sumZ (stakes (active vs))) = leader_from vs epoch h.
Proof.
  intros Hpos Hsum. unfold leader_from.
  assert (Hsat : saturating_sum (stakes (active vs)) = sumZ (stakes (active vs))).
  { apply saturating_sum_exact; [by apply Forall_fmap|lia]. }
  destruct (active vs); [done|]. rewrite Hsat. by rewrite Zmod_mod.
Qed.

(** Counting the integers of an interval by a property that holds exactly on
    a part of it. *)
Lemma filter_seqZ_interval (P : Z -> Prop) `{forall w, Decision (P w)} p s r :
  0 <= p -> 0 <= s -> 0 <= r -> (forall w, 0 <= w < p + s + r -> P w <-> p <= w < p + s) ->
  length (filter P (seqZ 0 (p + s + r))) = Z.to_nat s.
Proof.
  intros Hp Hs Hr HP. rewrite !seqZ_app, !filter_app, !length_app by lia.
  rewrite (filter_ext_in P (fun _ => False) (seqZ 0 p)),
    (filter_ext_in P (fun _ => True) (seqZ (0 + p) s)),
    (filter_ext_in P (fun _ => False) (seqZ (0 + (p + s)) r))
    by (intros w Hw%elem_of_seqZ; rewrite HP by lia; lia).
  rewrite (filter_none _ (seqZ 0 p)), (filter_none _ (seqZ (0 + (p + s)) r)), filter_all, length_seqZ
    by naive_solver.
  simpl. lia.
Qed.

(** Leader election is proportional to stake: of the residues the epoch
    hash can leave, exactly [stake v] elect the active validator [v], whatever
    the order of the set, so a validator without stake never leads; and the
    leader of an epoch depends on nothing but that residue. *)
Theorem leader_share vs v epoch :
  let total := sumZ (stakes (active vs)) in
  NoDup (ids vs) -> Forall (fun v => 0 <= stake v) (active vs) -> 0 < total <= U64_MAX -> v ∈ active vs ->
  leader_for_epoch vs epoch = leader_from vs epoch (epoch_hash epoch mod total) /\
  length (filter (fun w => v_id <$> leader_from vs epoch w = Some (v_id v)) (seqZ 0 total))
    = Z.to_nat (stake v).
Proof.
  intros total Hnd Hpos Hsum Hv. split.
  { unfold leader_for_epoch, total. by rewrite leader_from_mod by (done || lia). }
  apply list_elem_of_split in Hv as (pre & post & Ea).
  assert (Hnd' : NoDup (v_id <$> active vs)).
  { unfold active. eapply sublist_NoDup; [exact Hnd|]. apply fmap_sublist, sublist_filter. }
  pose proof Hpos as Hpos'. rewrite Ea in Hnd', Hpos'. rewrite fmap_app, fmap_cons in Hnd'.
  apply NoDup_app in Hnd' as (_ & Hdis & [Hpost _]%NoDup_cons).
  apply Forall_app in Hpos' as [Hpre [Hv0 Hpost0]%Forall_cons].
  assert (Htot : total = sumZ (stakes pre) + stake v + sumZ (stakes post)).
  { unfold total. rewrite Ea, fmap_app, sumZ_app. csimpl. lia. }
  pose proof (sumZ_nonneg (stakes pre)) as Hp0. pose proof (sumZ_nonneg (stakes post)) as Hq0.
  rewrite Forall_fmap in Hp0, Hq0. specialize (Hp0 Hpre). specialize (Hq0 Hpost0).
  rewrite Htot. apply filter_seqZ_interval; [done..|]. intros w Hw.
  rewrite leader_from_pick by (try done; unfold total in *; lia). rewrite Ea.
  destruct (decide (w < sumZ (stakes pre))) as [Hlt|Hge].
  { destruct (pick_within pre (v :: post) 0 w) as (u & Hu & ->); [done|lia..|]. simpl.
    split; [intros [= E]|lia]. exfalso. apply (Hdis (v_id v)); [|left].
    rewrite <- E. by apply list_elem_of_fmap_2. }
  rewrite pick_skip by (done || lia). rewrite Z.add_0_l. cbn [pick]. rewrite saturating_add_exact by lia.
  destruct (Z.ltb_spec w (sumZ (stakes pre) + stake v)) as [Hlt|Hge']; [split; [intros _; lia|done]|].
  destruct (pick_within post [] (sumZ (stakes pre) + stake v) w) as (u & Hu & E); [done|lia..|].
  rewrite app_nil_r in E. rewrite E. simpl. split; [intros [= E']|lia].
  exfalso. apply Hpost. rewrite <- E'. by apply list_elem_of_fmap_2.
Qed.
End leaders.

(** ** Safety of epoch transitions *)

Definition id_set (vs : ValidatorSet) : gset Z := list_to_set (ids vs).

Lemma id_set_update id f vs : (forall v, v_id (f v) = v_id v) -> id_set (with_mut id f vs) = id_set vs.
Proof. intros Hf. unfold id_set. by rewrite ids_with_mut. Qed.

Lemma add_fresh info vs :
  get vs (v_id info) = None -> (add_validator info vs).1 = {| validators := validators vs ++ [info] |}.
Proof. intros Hg. unfold add_validator. by rewrite Hg. Qed.

Lemma existsb_id_false vs id :
  existsb (fun v => v_id v =? id) (validators vs) = false -> get vs id = None.
Proof.
  intros He. apply get_None. intros (v & -> & Hv)%list_elem_of_fmap.
  assert (existsb (fun u => v_id u =? v_id v) (validators vs) = true) as Ht; [|congruence].
  apply existsb_exists. exists v. split; [by apply list_elem_of_In|apply Z.eqb_refl].
Qed.

Lemma ids_remove id vs : ids (remove_validator id vs).1 = filter (fun j => j <> id) (ids vs).
Proof.
  destruct vs as [l]. unfold ids, remove_validator. cbn [validators fst].
  induction l as [|v l IH]; [done|]. csimpl. rewrite !filter_cons. csimpl.
  repeat case_decide; csimpl; rewrite ?IH; done.
Qed.

Lemma active_update id f vs :
  (forall v, v_id (f v) = v_id v) -> (forall v, jailed (f v) = jailed v) ->
  active_count (with_mut id f vs) = active_count vs.
Proof.
  intros _ Hj. unfold active_count, active, with_mut. destruct vs as [l]. cbn [validators]. f_equal.
  induction l as [|v l IH]; cbn [update_first]; [done|].
  case_decide; rewrite !filter_cons, ?Hj; repeat case_decide; cbn [length]; lia.
Qed.

Lemma active_add info vs : active_count vs <= active_count (add_validator info vs).1.
Proof.
  unfold add_validator. destruct (get vs (v_id info)); [done|]. unfold active_count, active. simpl.
  rewrite filter_app, length_app. lia.
Qed.

(** Identifiers are unique, so a removal takes out at most one validator. *)
Lemma active_remove id vs :
  NoDup (ids vs) -> active_count vs - 1 <= active_count (remove_validator id vs).1.
Proof.
  destruct vs as [l]. unfold ids, active_count, active, remove_validator. cbn [validators fst].
  induction l as [|v l IH]; [done|]. csimpl. intros [Hv Hnd]%NoDup_cons. specialize (IH Hnd).
  destruct (decide (v_id v = id)) as [<-|Hne].
  - rewrite (filter_cons_False (fun v0 => v_id v0 <> v_id v) v l) by tauto.
    rewrite (filter_all (fun v0 => v_id v0 <> v_id v) l).
    2:{ intros u Hu E. apply Hv. rewrite <- E. by apply list_elem_of_fmap_2. }
    rewrite filter_cons. case_decide; cbn [length]; lia.
  - rewrite (filter_cons_True (fun v0 => v_id v0 <> id) v l) by done.
    rewrite !filter_cons. repeat case_decide; cbn [length] in *; lia.
Qed.

(** Notes and requeued changes do not touch the set or the meters. *)
Definition same_set (t t' : Transition) : Prop :=
  t_set t' = t_set t /\ t_changes t' = t_changes t /\ t_churned t' = t_churned t.

Lemma same_set_waiting {A} (note : A -> Note) l t :
  same_set t (foldl (fun t a => note_deferred (note a) t) t l).
Proof.
  revert t. induction l as [|a l IH]; intros t; simpl; [done|].
  exact (IH (note_deferred (note a) t)).
Qed.

(** An invariant of set and meters that every loop body keeps holds after
    the transition. *)
Section transition_invariant.
Context (m : EpochTransitionManager) (vs : ValidatorSet) (epoch : Z) (enforce : bool).
Context (P : ValidatorSet -> Z -> Z -> Prop).
Context (P_update : forall vs' n c u, u ∈ pending_stake_updates m -> P vs' n c ->
  forall old, get vs' (pu_id u) = Some old ->
  (enforce && (stake_budget vs <? wrapping_add c (Z.abs (stake old - pu_stake u)))) = false ->
  P (with_mut (pu_id u) (fun v => set_stake (pu_stake u) (total_slashed v) v) vs') (n + 0)
    (wrapping_add c (Z.abs (stake old - pu_stake u)))).
Context (P_join : forall vs' n c p, p ∈ pending_joins m -> P vs' n c -> n < max_churn vs ->
  (enforce && (stake_budget vs <? wrapping_add c (stake (pj_info p)))) = false ->
  get vs' (v_id (pj_info p)) = None ->
  P {| validators := validators vs' ++ [pj_info p] |} (n + 1) (wrapping_add c (stake (pj_info p)))).
Context (P_leave : forall vs' n c id, P vs' n c -> n < max_churn vs ->
  (enforce && (stake_budget vs <? wrapping_add c (stake_of vs' id))) = false ->
  MIN_VALIDATORS < active_count vs' ->
  P (remove_validator id vs').1 (n + 1) (wrapping_add c (stake_of vs' id))).

Definition holds (t : Transition) : Prop := P (t_set t) (t_changes t) (t_churned t).

(** Queueing what is not ready changes nothing. *)
Lemma holds_waiting {A} (note : A -> Note) l js ls us t :
  holds t -> holds (foldl (fun t a => note_deferred (note a) t) (requeue js ls us t) l).
Proof.
  intros Ht. destruct (same_set_waiting note l (requeue js ls us t)) as (E1 & E2 & E3).
  unfold holds. rewrite E1, E2, E3. exact Ht.
Qed.

Lemma holds_update t u : u ∈ pending_stake_updates m -> holds t -> holds (apply_update epoch enforce (stake_budget vs) t u).
Proof.
  intros Hu Ht. unfold apply_update. destruct (pu_stake u <? MIN_STAKE); [exact Ht|].
  unfold stake_of. destruct (get (t_set t) (pu_id u)) as [old|] eqn:Eg; [|exact Ht].
  unfold over_budget. destruct (enforce && _) eqn:Eb; [exact Ht|].
  exact (P_update _ _ _ u Hu Ht old Eg Eb).
Qed.

Lemma holds_join t p :
  p ∈ pending_joins m -> holds t -> holds (apply_join epoch enforce (max_churn vs) (stake_budget vs) t p).
Proof.
  intros Hp Ht. unfold apply_join. destruct (Z.leb_spec (max_churn vs) (t_changes t)); [exact Ht|].
  unfold over_budget. destruct (enforce && _) eqn:Eb; [exact Ht|].
  destruct (existsb _ _) eqn:Ee; [exact Ht|]. apply existsb_id_false in Ee.
  rewrite add_fresh by done. exact (P_join _ _ _ p Hp Ht ltac:(lia) Eb Ee).
Qed.

Lemma holds_leave t p : holds t -> holds (apply_leave epoch enforce (max_churn vs) (stake_budget vs) t p).
Proof.
  intros Ht. unfold apply_leave. destruct (Z.leb_spec (max_churn vs) (t_changes t)); [exact Ht|].
  unfold over_budget. destruct (enforce && _) eqn:Eb; [exact Ht|].
  destruct (Z.leb_spec (active_count (t_set t)) MIN_VALIDATORS); [exact Ht|].
  destruct (remove_validator (pl_id p) (t_set t)) as [vs' []] eqn:Er; [|exact Ht].
  unfold holds. cbn [note_applied change_set t_set t_changes t_churned].
  replace vs' with (remove_validator (pl_id p) (t_set t)).1 by (by rewrite Er).
  by apply P_leave.
Qed.

Lemma run_transition_inv : P vs 0 0 -> holds (run_transition m vs epoch enforce).
Proof.
  intros H0. unfold run_transition, leave_phase, join_phase, update_phase. cbv zeta.
  apply foldl_inv; [|intros t p _; apply holds_leave].
  apply (holds_waiting (fun p => NLeaveUntil (pl_id p) (pl_unlock p))).
  apply foldl_inv; [|intros t p [_ Hp]%list_elem_of_filter; by apply holds_join].
  apply (holds_waiting (fun p => NJoinUntil (v_id (pj_info p)) (pj_ready p))).
  apply foldl_inv; [|intros t u [_ Hu]%list_elem_of_filter; by apply holds_update].
  by apply (holds_waiting (fun u => NUpdateUntil (pu_id u) (pu_ready u))).
Qed.
End transition_invariant.

(** Changing one member changes the difference to a fixed set by one. *)
Lemma churn_step (A C C' : gset Z) x :
  C ∖ {[ x ]} = C' ∖ {[ x ]} ->
  Z.of_nat (size (A ∖ C') + size (C' ∖ A)) <= Z.of_nat (size (A ∖ C) + size (C ∖ A)) + 1.
Proof.
  intros Hx. rewrite <- !size_union by set_solver.
  pose proof (subseteq_size ((A ∖ C') ∪ (C' ∖ A)) ((A ∖ C) ∪ (C ∖ A) ∪ {[ x ]})) as Hs.
  rewrite (size_union_alt _ {[ x ]}) in Hs.
  pose proof (subseteq_size ({[ x ]} ∖ ((A ∖ C) ∪ (C ∖ A))) {[ x ]}) as H1. rewrite size_singleton in H1.
  assert (Hsub : (A ∖ C') ∪ (C' ∖ A) ⊆ (A ∖ C) ∪ (C ∖ A) ∪ {[ x ]}).
  { intros y. destruct (decide (y = x)) as [->|Hy]; [set_solver|].
    assert (y ∈ C <-> y ∈ C') by set_solver. set_solver. }
  specialize (Hs Hsub). specialize (H1 ltac:(set_solver)). lia.
Qed.

(** What the comments of the manager promise. *)
Record orderly (vs vs' : ValidatorSet) (n : Z) : Prop := {
  od_unique : NoDup (ids vs');
  od_floor : MIN_VALIDATORS <= active_count vs -> MIN_VALIDATORS <= active_count vs';
  od_churn : Z.of_nat (size (id_set vs ∖ id_set vs') + size (id_set vs' ∖ id_set vs)) <= n;
  od_limit : n <= max_churn vs;
}.

(** The rules that keep the set orderly hold through the three phases. *)
Lemma run_transition_orderly m vs epoch enforce :
  NoDup (ids vs) -> holds (fun vs' n _ => orderly vs vs' n) (run_transition m vs epoch enforce).
Proof.
  intros Hnd. apply run_transition_inv.
  - intros vs' n c u _ [Hu Hf Hc Hl] old _ _. split.
    + by rewrite ids_with_mut.
    + by rewrite active_update.
    + rewrite id_set_update by done. lia.
    + lia.
  - intros vs' n c p _ [Hu Hf Hc Hl] Hn _ Hg. rewrite get_None in Hg. split.
    + unfold ids. cbn [validators]. rewrite fmap_app. apply NoDup_app. split_and!; [done| |apply NoDup_singleton].
      intros x Hx ->%list_elem_of_singleton. done.
    + pose proof (active_add (pj_info p) vs') as Ha. rewrite add_fresh in Ha by (by apply get_None). lia.
    + eapply Z.le_trans; [apply (churn_step _ (id_set vs') _ (v_id (pj_info p)))|lia].
      unfold id_set, ids. cbn [validators]. rewrite fmap_app, list_to_set_app_L. set_solver.
    + lia.
  - intros vs' n c id [Hu Hf Hc Hl] Hn _ Ha. split.
    + rewrite ids_remove. by apply NoDup_filter.
    + intros _. pose proof (active_remove id vs' Hu). lia.
    + eapply Z.le_trans; [apply (churn_step _ (id_set vs') _ id)|lia].
      unfold id_set. rewrite ids_remove. apply set_eq. intros j.
      rewrite !elem_of_difference, !elem_of_list_to_set, list_elem_of_filter, elem_of_singleton. tauto.
    + lia.
  - split; [done|done| |unfold max_churn; lia]. by rewrite difference_diag_L.
Qed.

(** An epoch transition keeps the set safe: identifiers stay unique, a
    set of at least three active validators stays one, and at most
    [max_churn] validators (a third of the active ones, at least one) join or
    leave. *)
Theorem epoch_transition_orderly m vs epoch enforce :
  NoDup (ids vs) ->
  let vs' := (apply_epoch_transition m vs epoch enforce).1.2 in
  NoDup (ids vs') /\
  (MIN_VALIDATORS <= active_count vs -> MIN_VALIDATORS <= active_count vs') /\
  Z.of_nat (size (id_set vs ∖ id_set vs') + size (id_set vs' ∖ id_set vs)) <= max_churn vs.
Proof.
  intros Hnd. cbn zeta. unfold apply_epoch_transition. cbn [fst snd].
  destruct (run_transition_orderly m vs epoch enforce Hnd). split_and!; [done..|lia].
Qed.

(** ** A sixteenth of an integer, in binary64 *)

Section sixteenth.

Lemma digits_log2 p : Z.pos (digits2_pos p) = Z.log2 (Z.pos p) + 1.
Proof.
  induction p as [p IH|p IH|]; cbn [digits2_pos]; [..|done].
  - rewrite Pos2Z.inj_succ, IH, Pos2Z.inj_xI, Z.log2_succ_double by lia. lia.
  - rewrite Pos2Z.inj_succ, IH, Pos2Z.inj_xO, Z.log2_double by lia. lia.
Qed.

(** A 53-bit mantissa needs no rounding. *)
Lemma shr_fexp_exact m e :
  digits2_pos m = 53%positive -> -1074 <= e ->
  shr_fexp 53 1024 (Z.pos m) e loc_Exact = ({| shr_m := Z.pos m; shr_r := false; shr_s := false |}, e).
Proof.
  intros Hd He. unfold shr_fexp, fexp, emin. cbn [Zdigits2 shr_record_of_loc]. rewrite Hd.
  replace (Z.max (53 + e - 53) (3 - 1024 - 53) - e) with 0 by lia. done.
Qed.

Lemma round_exact m e :
  digits2_pos m = 53%positive -> -1074 <= e <= 971 ->
  binary_round_aux 53 1024 false (Z.pos m) e loc_Exact = S754_finite false m e.
Proof.
  intros Hd He. unfold binary_round_aux. rewrite shr_fexp_exact by (done || lia). cbn [shr_m loc_of_shr_record round_nearest_even].
  rewrite shr_fexp_exact by (done || lia). cbn [shr_m]. destruct (Z.leb_spec e (1024 - 53)); [done|lia].
Qed.

Lemma pos_iter_xO n p : Z.pos (Pos.iter xO p n) = Z.pos p * 2 ^ Z.pos n.
Proof.
  induction n as [|n IH] using Pos.peano_ind; [simpl; lia|].
  rewrite Pos.iter_succ, Pos2Z.inj_xO, IH, Pos2Z.inj_succ, Z.pow_succ_r by lia. lia.
Qed.

Lemma of_int_exact p :
  Z.pos p < 2 ^ 53 ->
  exists m e, F64.of_int (Z.pos p) = S754_finite false m e /\ digits2_pos m = 53%positive /\
    -52 <= e <= 0 /\ Z.pos m = Z.pos p * 2 ^ (- e).
Proof.
  intros Hp. unfold F64.of_int, binary_normalize, binary_round, shl_align, fexp, emin.
  pose proof (digits_log2 p) as Hd. pose proof (Z.log2_nonneg (Z.pos p)).
  assert (Hlog : Z.log2 (Z.pos p) < 53) by (apply Z.log2_lt_pow2; lia).
  rewrite Hd. replace (Z.max (Z.log2 (Z.pos p) + 1 + 0 - 53) (3 - 1024 - 53) - 0) with (Z.log2 (Z.pos p) - 52) by lia.
  destruct (Z.log2 (Z.pos p) - 52) as [|q|q] eqn:Eq; [|lia|].
  - assert (digits2_pos p = 53%positive) as Hd' by lia.
    exists p, 0. rewrite round_exact by (done || lia). split_and!; try done; lia.
  - assert (digits2_pos (Pos.iter xO p q) = 53%positive) as Hd'.
    { apply Pos2Z.inj. rewrite digits_log2, pos_iter_xO, Z.log2_mul_pow2 by lia. lia. }
    exists (Pos.iter xO p q), (Z.log2 (Z.pos p) + 1 + 0 - 53).
    replace (Z.max (Z.log2 (Z.pos p) + 1 + 0 - 53) (3 - 1024 - 53)) with (Z.log2 (Z.pos p) + 1 + 0 - 53) by lia.
    rewrite round_exact by (done || lia). split_and!; try done; [lia..|].
    rewrite pos_iter_xO. do 2 f_equal. lia.
Qed.

Lemma mul_sixteenth m e :
  digits2_pos m = 53%positive -> -52 <= e <= 0 ->
  F64.mul (S754_finite false m e) MAX_STAKE_CHURN_FRACTION = S754_finite false m (e - 4).
Proof.
  intros Hd He.
  assert (E : MAX_STAKE_CHURN_FRACTION = S754_finite false (2 ^ 52) (-56)) by (vm_compute; reflexivity).
  rewrite E. unfold F64.mul, SFmul. cbn [xorb]. rewrite Pos.mul_comm. unfold binary_round_aux.
  assert (Hs : shr_fexp 53 1024 (Z.pos (2 ^ 52 * m)) (e + -56) loc_Exact
    = ({| shr_m := Z.pos m; shr_r := false; shr_s := false |}, e - 4)).
  { unfold shr_fexp, fexp, emin. cbn [Zdigits2 shr_record_of_loc].
    assert (Hd2 : digits2_pos (2 ^ 52 * m) = 105%positive).
    { apply Pos2Z.inj. rewrite digits_log2. pose proof (digits_log2 m) as Hm. rewrite Hd in Hm.
      rewrite Pos.mul_comm, Pos2Z.inj_mul, Pos2Z.inj_pow, Z.log2_mul_pow2 by lia. lia. }
    rewrite Hd2. replace (Z.max (105 + (e + -56) - 53) (3 - 1024 - 53) - (e + -56)) with 52 by lia.
    unfold shr. f_equal; lia. }
  rewrite Hs. cbn [shr_m loc_of_shr_record round_nearest_even].
  rewrite shr_fexp_exact by (done || lia). cbn [shr_m]. destruct (Z.leb_spec (e - 4) (1024 - 53)); [done|lia].
Qed.

Lemma as_int_sixteenth t :
  0 <= t < 2 ^ 53 -> F64.as_int (F64.mul (F64.of_int t) MAX_STAKE_CHURN_FRACTION) = t / 16.
Proof.
  intros Ht. destruct t as [|p|p]; [vm_compute; reflexivity| |lia].
  destruct (of_int_exact p) as (m & e & -> & Hd & He & Hm); [lia|]. rewrite mul_sixteenth by done.
  unfold F64.as_int, F64.to_int. destruct (Z.leb_spec 0 (e - 4)); [lia|]. rewrite Hm.
  assert (E : Z.pos p * 2 ^ (- e) / 2 ^ (- (e - 4)) = Z.pos p / 16).
  { replace (- (e - 4)) with (4 + - e) by lia. rewrite Z.pow_add_r by lia.
    rewrite Z.div_mul_cancel_r by (try apply Z.pow_nonzero; lia). done. }
  rewrite E. cbn [F64.saturate]. pose proof (Z.div_le_upper_bound (Z.pos p) 16 (2 ^ 53)).
  pose proof (Z.div_pos (Z.pos p) 16). unfold U64_MAX. lia.
Qed.
End sixteenth.

(** ** Quorums across an epoch boundary *)

(** The stake that moves between two sets, counted over the validators of [S]. *)
Definition stake_moved (vs vs' : ValidatorSet) (S : list Z) : Z :=
  sumZ ((fun id => Z.abs (stake_of vs id - stake_of vs' id)) <$> S).

(** A change at one identifier moves at most its own amount. *)
Lemma stake_moved_step vs a b id d S :
  NoDup S -> (forall j, j <> id -> stake_of a j = stake_of b j) ->
  Z.abs (stake_of a id - stake_of b id) <= d -> 0 <= d -> stake_moved vs b S <= stake_moved vs a S + d.
Proof.
  intros Hnd Hsame Hid Hd. unfold stake_moved. induction Hnd as [|j S Hj Hnd IH]; csimpl; [lia|].
  destruct (decide (j = id)) as [->|Hne].
  - assert (Hrest : sumZ ((fun j => Z.abs (stake_of vs j - stake_of b j)) <$> S)
      = sumZ ((fun j => Z.abs (stake_of vs j - stake_of a j)) <$> S)).
    { apply sumZ_fmap_ext. intros j Hj'. rewrite Hsame; [done|]. intros ->. done. }
    unfold sumZ in *. simpl. lia.
  - rewrite <- (Hsame j Hne). unfold sumZ in *. simpl. lia.
Qed.

Definition small (z : Z) : Prop := 0 <= z < 2 ^ 53.

Lemma stake_of_bounds vs id :
  Forall (fun v => 0 <= stake v) (validators vs) -> sumZ (stake <$> validators vs) < 2 ^ 53 ->
  small (stake_of vs id).
Proof.
  intros Hpos Hsum. unfold stake_of, small. destruct (get vs id) as [v|] eqn:E; [|lia].
  apply get_Some_in in E as [Hin _]. rewrite Forall_forall in Hpos. pose proof (Hpos v Hin).
  split; [done|]. eapply Z.le_lt_trans; [|exact Hsum]. clear -Hin Hpos.
  induction (validators vs) as [|u l IH]; [by apply elem_of_nil in Hin|]. csimpl.
  assert (0 <= sumZ (stake <$> l)).
  { apply sumZ_nonneg, Forall_fmap, Forall_forall. intros w Hw. apply Hpos. by right. }
  assert (0 <= stake u) by (apply Hpos; left).
  apply elem_of_cons in Hin as [->|Hin]; [unfold sumZ in *; simpl; lia|].
  specialize (IH (fun w Hw => Hpos w ltac:(by right)) Hin). unfold sumZ in *. simpl. lia.
Qed.

(** Under enforcement the stake moved is metered and stays in the budget. *)
Record metered (vs vs' : ValidatorSet) (c : Z) : Prop := {
  mt_budget : 0 <= c <= stake_budget vs;
  mt_moved : forall S, NoDup S -> stake_moved vs vs' S <= c;
  mt_small : forall id, small (stake_of vs' id);
}.

Lemma stake_of_update id f vs j :
  (forall v, v_id (f v) = v_id v) ->
  stake_of (with_mut id f vs) j =
    if decide (j = id) then match get vs id with Some v => stake (f v) | None => 0 end else stake_of vs j.
Proof. intros Hf. unfold stake_of. rewrite get_with_mut by done. case_decide; [|done]. by destruct (get vs id). Qed.

Lemma stake_of_join info vs j :
  get vs (v_id info) = None ->
  stake_of {| validators := validators vs ++ [info] |} j =
    if decide (j = v_id info) then stake info else stake_of vs j.
Proof.
  intros Hg. unfold stake_of. rewrite get_app. destruct vs as [l]. cbn [validators].
  case_decide as Hj; [subst j; rewrite Hg, get_cons; by rewrite decide_True|].
  destruct (get {| validators := l |} j); [done|]. rewrite get_cons. by rewrite decide_False by congruence.
Qed.

Lemma stake_of_remove id vs j :
  stake_of (remove_validator id vs).1 j = if decide (j = id) then 0 else stake_of vs j.
Proof. unfold stake_of. rewrite get_filter_ne. by case_decide. Qed.

(** One metered change at [id]. *)
Lemma metered_step vs a b c id d :
  stake_budget vs < 2 ^ 53 -> metered vs a c -> 0 <= d < 2 ^ 53 ->
  true && (stake_budget vs <? wrapping_add c d) = false ->
  (forall j, j <> id -> stake_of a j = stake_of b j) -> Z.abs (stake_of a id - stake_of b id) <= d ->
  small (stake_of b id) -> metered vs b (wrapping_add c d).
Proof.
  intros Hb [Hc Hm Hs] Hd Hover Hsame Hid Hsm.
  assert (Hw : wrapping_add c d = c + d) by (unfold wrapping_add; apply as_u64_small; unfold is_u64, U64_MAX; lia).
  rewrite Hw in *. simpl in Hover. apply Z.ltb_ge in Hover. split; [lia| |].
  - intros S HS. pose proof (stake_moved_step vs a b id d S HS Hsame Hid ltac:(lia)). specialize (Hm S HS). lia.
  - intros j. destruct (decide (j = id)) as [->|Hj]; [done|]. rewrite <- Hsame by done. apply Hs.
Qed.

Lemma epoch_transition_metered m vs epoch :
  Forall (fun v => 0 <= stake v) (validators vs) -> sumZ (stake <$> validators vs) < 2 ^ 53 ->
  Forall (fun u => small (pu_stake u)) (pending_stake_updates m) ->
  Forall (fun p => small (stake (pj_info p))) (pending_joins m) ->
  exists c, metered vs (apply_epoch_transition m vs epoch true).1.2 c.
Proof.
  intros Hpos Hsum Hus Hjs. rewrite Forall_forall in Hus; rewrite Forall_forall in Hjs.
  assert (Htot : 0 <= sumZ (stake <$> validators vs)) by (by apply sumZ_nonneg, Forall_fmap).
  assert (Hb : 0 <= stake_budget vs < 2 ^ 53).
  { unfold stake_budget, set_stake_sum. rewrite as_u64_small by (unfold is_u64, U64_MAX; lia).
    rewrite as_int_sixteenth by lia. pose proof (Z.div_pos (sumZ (stake <$> validators vs)) 16).
    pose proof (Z.div_le_upper_bound (sumZ (stake <$> validators vs)) 16 (2 ^ 52)). lia. }
  exists (t_churned (run_transition m vs epoch true)).
  apply (run_transition_inv m vs epoch true (fun vs' _ c => metered vs vs' c)).
  - intros vs' _ c u Hu Hm old Hg Hover. pose proof (Hus u Hu) as Hsu.
    pose proof (mt_small _ _ _ Hm (pu_id u)) as Hso. unfold stake_of in Hso. rewrite Hg in Hso. unfold small in *.
    eapply (metered_step vs vs' _ c (pu_id u)); [lia|done|lia|done| | |].
    + intros j Hj. rewrite stake_of_update by done. by rewrite decide_False.
    + rewrite stake_of_update, decide_True, Hg by done. unfold stake_of. rewrite Hg. done.
    + rewrite stake_of_update, decide_True, Hg by done. done.
  - intros vs' _ c p Hp Hm _ Hover Hg. pose proof (Hjs p Hp) as Hsp. unfold small in *.
    eapply (metered_step vs vs' _ c (v_id (pj_info p))); [lia|done|lia|done| | |].
    + intros j Hj. rewrite stake_of_join by done. by rewrite decide_False.
    + rewrite stake_of_join, decide_True by done. unfold stake_of. rewrite Hg. lia.
    + by rewrite stake_of_join, decide_True by done.
  - intros vs' _ c id Hm _ Hover _. pose proof (mt_small _ _ _ Hm id) as Hso. unfold small in *.
    eapply (metered_step vs vs' _ c id); [lia|done|lia|done| | |].
    + intros j Hj. rewrite stake_of_remove. by rewrite decide_False.
    + rewrite stake_of_remove, decide_True by done. lia.
    + rewrite stake_of_remove, decide_True by done. unfold small. lia.
  - split; [lia| |by intros; apply stake_of_bounds].
    intros S _. unfold stake_moved. induction S as [|j S IH]; csimpl; [done|]. unfold sumZ in *. simpl. lia.
Qed.

(** The stake of a group of validators. *)
Definition weight (vs : ValidatorSet) (Q : list Z) : Z := sumZ (stake_of vs <$> Q).

(** The weight of a group, as a sum over any larger group. *)
Lemma weight_over vs Q U :
  NoDup Q -> NoDup U -> Q ⊆ U ->
  weight vs Q = sumZ ((fun j => if decide (j ∈ Q) then stake_of vs j else 0) <$> U).
Proof.
  intros HQ HU Hsub. unfold weight. rewrite <- (sumZ_filter (fun j => j ∈ Q)).
  apply sumZ_perm, fmap_Permutation, NoDup_Permutation; [done|by apply NoDup_filter|].
  intros j. rewrite list_elem_of_filter. split; [intros Hj; split; [done|by apply Hsub]|by intros [? _]].
Qed.

Lemma stake_of_outside vs j : j ∉ ids vs -> stake_of vs j = 0.
Proof. intros Hj. unfold stake_of. by rewrite (proj2 (get_None vs j) Hj). Qed.

(** Without repeated identifiers every member is found under its own. *)
Lemma get_member vs v : NoDup (ids vs) -> v ∈ validators vs -> get vs (v_id v) = Some v.
Proof.
  destruct vs as [l]. unfold ids. cbn [validators]. intros Hnd Hv.
  induction l as [|u l IH]; [by apply elem_of_nil in Hv|]. rewrite get_cons.
  csimpl in Hnd. apply NoDup_cons in Hnd as [Hu Hnd]. apply elem_of_cons in Hv as [->|Hv].
  - by rewrite decide_True.
  - rewrite decide_False; [by apply IH|]. intros E. apply Hu. rewrite E. by apply list_elem_of_fmap_2.
Qed.

Lemma weight_all vs : NoDup (ids vs) -> weight vs (ids vs) = sumZ (stake <$> validators vs).
Proof.
  intros Hnd. unfold weight, ids at 1. rewrite <- list_fmap_compose.
  apply sumZ_fmap_ext. intros v Hv. unfold compose, stake_of. by rewrite get_member.
Qed.

Lemma sixteen_budget vs :
  Forall (fun v => 0 <= stake v) (validators vs) -> sumZ (stake <$> validators vs) < 2 ^ 53 ->
  16 * stake_budget vs <= sumZ (stake <$> validators vs).
Proof.
  intros Hpos Hsum. assert (Htot : 0 <= sumZ (stake <$> validators vs)) by (by apply sumZ_nonneg, Forall_fmap).
  unfold stake_budget, set_stake_sum. rewrite as_u64_small by (unfold is_u64, U64_MAX; lia).
  rewrite as_int_sixteenth by lia. apply Z.mul_div_le. lia.
Qed.

(** The whole stake, as a sum over any larger group. *)
Lemma weight_all_over vs U :
  NoDup (ids vs) -> NoDup U -> ids vs ⊆ U -> weight vs (ids vs) = sumZ (stake_of vs <$> U).
Proof.
  intros Hnd HU Hsub. rewrite (weight_over vs (ids vs) U) by done.
  apply sumZ_fmap_ext. intros j _. case_decide; [done|]. symmetry. by apply stake_of_outside.
Qed.


(** ** Accounting of queued changes *)

(** Every change taken from a queue is reported exactly once, and what is
    reported as deferred is what is queued again. *)
Record accounted (n : nat) (t : Transition) : Prop := {
  ac_total : (length (applied (t_result t)) + length (deferred (t_result t))
              + length (rejected (t_result t)) = n)%nat;
  ac_queued : (length (t_joins t) + length (t_leaves t) + length (t_updates t)
               = length (deferred (t_result t)))%nat;
}.

Create HintDb accounting.

Lemma accounted_applied n note vs c d t :
  accounted n t -> accounted (S n) (note_applied note (change_set vs c d t)).
Proof. intros [Ht Hq]. split; cbn in *; rewrite ?length_app; simpl; lia. Qed.

Lemma accounted_rejected n note t : accounted n t -> accounted (S n) (note_rejected note t).
Proof. intros [Ht Hq]. split; cbn in *; rewrite ?length_app; simpl; lia. Qed.

Lemma accounted_deferred n note js ls us t :
  (length js + length ls + length us = 1)%nat ->
  accounted n t -> accounted (S n) (note_deferred note (requeue js ls us t)).
Proof. intros H1 [Ht Hq]. split; cbn in *; rewrite ?length_app; simpl; lia. Qed.

#[export] Hint Resolve accounted_applied accounted_rejected accounted_deferred : accounting.
#[export] Hint Extern 1 (_ = 1%nat) => reflexivity : accounting.

Lemma accounted_foldl {A} (f : Transition -> A -> Transition) l n t :
  (forall n t a, accounted n t -> accounted (S n) (f t a)) ->
  accounted n t -> accounted (n + length l) (foldl f t l).
Proof.
  intros Hf. revert n t. induction l as [|a l IH]; intros n t Ht; simpl; [by rewrite Nat.add_0_r|].
  rewrite <- Nat.add_succ_comm. apply IH, Hf, Ht.
Qed.

(** The changes that wait are queued at once and noted one by one. *)
Lemma accounted_waiting {A} (note : A -> Note) l js ls us n t :
  (length js + length ls + length us = length l)%nat ->
  accounted n t ->
  accounted (n + length l) (foldl (fun t a => note_deferred (note a) t) (requeue js ls us t) l).
Proof.
  intros Hl [Ht Hq].
  assert (Hres : forall (l : list A) t, let t' := foldl (fun t a => note_deferred (note a) t) t l in
    t_joins t' = t_joins t /\ t_leaves t' = t_leaves t /\ t_updates t' = t_updates t
    /\ applied (t_result t') = applied (t_result t) /\ rejected (t_result t') = rejected (t_result t)
    /\ length (deferred (t_result t')) = (length (deferred (t_result t)) + length l)%nat).
  { clear. induction l as [|a l IH]; intros t; cbn -[length]; [split_and!; simpl; (done || lia)|].
    destruct (IH (note_deferred (note a) t)) as (-> & -> & -> & -> & -> & ->).
    cbn. rewrite length_app. simpl. split_and!; (done || lia). }
  destruct (Hres l (requeue js ls us t)) as (Ej & El & Eu & Ea & Er & Ed).
  split; rewrite ?Ej, ?El, ?Eu, ?Ea, ?Er, ?Ed; cbn; rewrite ?length_app; lia.
Qed.

Lemma length_partition {A} (f : A -> bool) (l : list A) :
  (length (filter (fun x => f x = false) l) + length (filter (fun x => f x = true) l) = length l)%nat.
Proof.
  induction l as [|x l IH]; [done|]. rewrite !filter_cons. destruct (f x); simpl; lia.
Qed.

(** No request is lost: each queued change is applied, deferred or
    rejected, exactly once, and the changes that are still queued after the
    transition are exactly as many as were reported deferred. *)
Theorem epoch_transition_accounts m vs epoch enforce :
  let '(m', _, r) := apply_epoch_transition m vs epoch enforce in
  (length (applied r) + length (deferred r) + length (rejected r) = pending_count m)%nat /\
  pending_count m' = length (deferred r).
Proof.
  assert (Ha : accounted (pending_count m) (run_transition m vs epoch enforce)).
  { unfold run_transition, pending_count, update_phase, join_phase, leave_phase.
    rewrite <- (length_partition (ready_update epoch enforce) (pending_stake_updates m)).
    rewrite <- (length_partition (ready_join epoch) (pending_joins m)).
    rewrite <- (length_partition (ready_leave epoch) (pending_leaves m)).
    match goal with |- accounted ?n _ => match goal with |- accounted (?j1 + ?j2 + (?l1 + ?l2) + (?u1 + ?u2)) _ =>
      replace n with (0 + u1 + u2 + j1 + j2 + l1 + l2)%nat by lia end end.
    apply accounted_foldl; [intros; unfold apply_leave; repeat case_match; eauto with accounting|].
    apply accounted_waiting; [simpl; lia|].
    apply accounted_foldl; [intros; unfold apply_join; repeat case_match; eauto with accounting|].
    apply accounted_waiting; [simpl; lia|].
    apply accounted_foldl; [intros; unfold apply_update; repeat case_match; eauto with accounting|].
    apply accounted_waiting; [simpl; lia|]. done. }
  destruct Ha as [Ht Hq]. done.
Qed.

(** ** Examples *)

Module ToySet.
Definition val (id st : Z) : ValidatorInfo := validator_new id st [id].

Definition vs : ValidatorSet :=
  {| validators := [val 1 4000; val 2 3000; set_jailed true F64.zero (val 3 9000); val 4 2000; val 5 1000] |}.

(** A stake update and a join that are ready in epoch 12, a leave that is
    rejected by nothing but the churn limit of two. *)
Definition queue : EpochTransitionManager :=
  queue_change (Leave 5) 7 (queue_change (Leave 4) 7
    (queue_change (Join (val 9 700)) 9 (queue_change (StakeUpdate 1 3800) 10 manager_new))).

Definition after : ValidatorSet := (apply_epoch_transition queue vs 12 true).1.2.

(** The joiner is in, the second leave waits: its stake exceeds the budget. *)
Example after_ids : ids after = [1; 2; 3; 4; 5; 9] /\ stake_of after 1 = 3800.
Proof. by vm_compute. Qed.
End ToySet.

(** The churn cap is only as good as its arithmetic: after a stake update
    of one unit, a validator whose declared stake is the largest 64-bit
    integer joins under enforcement, because the meter wraps to zero. *)
Theorem churn_cap_wraps :
  let m := queue_change (Join (ToySet.val 9 U64_MAX)) 9 (queue_change (StakeUpdate 1 3999) 10 manager_new) in
  let vs' := (apply_epoch_transition m ToySet.vs 12 true).1.2 in
  stake_budget ToySet.vs = 1187 /\ stake_of vs' 9 = U64_MAX.
Proof. by vm_compute. Qed.

Lemma leader_share_witness :
  length (filter (fun w => v_id <$> leader_from ToySet.vs 7 w = Some 4) (seqZ 0 10000)) = Z.to_nat 2000.
Proof.
  apply (leader_share ToySet.vs (ToySet.val 4 2000) 7).
  - by apply (bool_decide_unpack _); vm_compute.
  - by apply (bool_decide_unpack _); vm_compute.
  - vm_compute. by split.
  - apply list_elem_of_In. vm_compute. tauto.
Defined.

Lemma epoch_transition_orderly_witness :
  MIN_VALIDATORS <= active_count ToySet.after /\
  Z.of_nat (size (id_set ToySet.vs ∖ id_set ToySet.after) + size (id_set ToySet.after ∖ id_set ToySet.vs)) <= 2.
Proof.
  destruct (epoch_transition_orderly ToySet.queue ToySet.vs 12 true) as (_ & Hf & Hc).
  - by apply (bool_decide_unpack _); vm_compute.
  - split; [apply Hf; by vm_compute|exact Hc].
Defined.

