(* ===== verification/Anchor.v ===== *)
(** * Rule-based consensus: anchors and lazy state

    crates/evaporchain-consensus/src/anchor.rs: decay rules, state anchors and
    their hash chain, the commitments a block carries, the lazy evaluation of
    objects between anchors and the cache of anchor snapshots; and the step of
    crates/evaporchain-node/src/frontier.rs that takes those snapshots. *)

From stdpp Require Import base gmap list strings sorting.
From Stdlib Require Import ZArith Lia.
From S2P Require Import Prelude Energy DecayCurves Types Trie StateDB Mmr Lifecycle.

Open Scope Z_scope.

Definition zero32 : bytes := replicate 32 0.

(** ** Decay rules *)

Inductive DecayFormula := Exponential.

Definition formula_u8 (f : DecayFormula) : Z := match f with Exponential => 0 end.

Record DecayRules := {
  formula : DecayFormula;
  r_grace_period : Z;
  min_half_life : Z;
  max_initial_energy : Z;
  version : Z;
}.

Definition default_rules : DecayRules :=
  {| formula := Exponential; r_grace_period := 7; min_half_life := 1;
     max_initial_energy := U64_MAX; version := 1 |}.

Definition rules_compute_energy (r : DecayRules) (initial_energy half_life elapsed_epochs : Z) : Z :=
  match formula r with Exponential => energy_at_epoch initial_energy half_life elapsed_epochs end.

(** ** Lazy evaluation *)

Inductive ObjectLifecycleState := LActive | LGrace | LGhost.

#[global] Instance lifecycle_state_dec : EqDecision ObjectLifecycleState.
Proof. solve_decision. Defined.

Record ObjectSnapshot := {
  sn_object_id : bytes;
  energy_at_anchor : Z;
  sn_half_life : Z;
  sn_anchor_epoch : Z;
  sn_state : ObjectLifecycleState;
  sn_grace_epoch : option Z;
}.

Module LazyStateEvaluator.

Definition energy_at (s : ObjectSnapshot) (r : DecayRules) (query_epoch : Z) : Z :=
  if query_epoch <? sn_anchor_epoch s then energy_at_anchor s
  else
    match sn_state s with
    | LGhost | LGrace => 0
    | LActive =>
        rules_compute_energy r (energy_at_anchor s) (sn_half_life s) (query_epoch - sn_anchor_epoch s)
    end.

Definition epoch_of_zero_energy (s : ObjectSnapshot) : Z :=
  if (energy_at_anchor s =? 0) || (sn_half_life s =? 0) then sn_anchor_epoch s
  else
    let log2_energy := 63 - leading_zeros (energy_at_anchor s) in
    let epochs_to_zero := wrapping_mul (log2_energy + 1) (sn_half_life s) in
    wrapping_add (sn_anchor_epoch s) epochs_to_zero.

Definition state_at (s : ObjectSnapshot) (r : DecayRules) (query_epoch : Z) : ObjectLifecycleState :=
  match sn_state s with
  | LGhost => LGhost
  | LGrace =>
      match sn_grace_epoch s with
      | Some grace_start =>
          if wrapping_add grace_start (r_grace_period r) <=? query_epoch then LGhost else LGrace
      | None => LGrace
      end
  | LActive =>
      if energy_at s r query_epoch =? 0 then
        if wrapping_add (epoch_of_zero_energy s) (r_grace_period r) <=? query_epoch then LGhost
        else LGrace
      else LActive
  end.

(** One pass of the loop of [verify_equivalence]: the state comparisons of the
    source only [continue]. *)
Fixpoint equivalence_loop (s : ObjectSnapshot) (r : DecayRules) (epochs : list Z)
    (eager_energy : Z) (eager_state : ObjectLifecycleState) : bool :=
  match epochs with
  | [] => true
  | epoch :: rest =>
      let '(eager_energy, eager_state) :=
        if (sn_anchor_epoch s <? epoch) && bool_decide (eager_state = LActive) then
          let e := rules_compute_energy r (energy_at_anchor s) (sn_half_life s)
                     (epoch - sn_anchor_epoch s) in
          (e, if e =? 0 then LGrace else eager_state)
        else (eager_energy, eager_state) in
      if negb (energy_at s r epoch =? eager_energy) then false
      else equivalence_loop s r rest eager_energy eager_state
  end.

Definition verify_equivalence (s : ObjectSnapshot) (r : DecayRules) (query_epoch : Z) : bool :=
  equivalence_loop s r
    (seqZ (sn_anchor_epoch s) (query_epoch - sn_anchor_epoch s + 1))
    (energy_at_anchor s) (sn_state s).

End LazyStateEvaluator.

(** ** Anchors *)

Record StateAnchor := {
  an_height : Z;
  an_epoch : Z;
  an_state_root : bytes;
  an_decay_rules_hash : bytes;
  an_active_objects : Z;
  an_ghost_count : Z;
  an_mmr_root : bytes;
  parent_anchor_hash : bytes;
}.

Record StateFunctionCommitment := {
  sf_anchor_hash : bytes;
  sf_anchor_epoch : Z;
  sf_decay_rules_hash : bytes;
  sf_tx_root : bytes;
  sf_active_objects : Z;
}.

Record BlockStateCommitment := {
  bc_anchor_hash : bytes;
  bc_anchor_epoch : Z;
  bc_decay_rules_hash : bytes;
  bc_active_objects : Z;
  bc_is_anchor : bool;
  bc_commitment_hash : bytes;
}.

Section anchors.
Context `{Blake3}.

Definition rules_hash (r : DecayRules) : bytes :=
  blake3 (bytes_of_string "decay-rules-v1" ++ [formula_u8 (formula r)]
    ++ to_le_bytes 8 (r_grace_period r) ++ to_le_bytes 8 (min_half_life r)
    ++ to_le_bytes 8 (max_initial_energy r) ++ to_le_bytes 4 (version r)).

Definition anchor_input (a : StateAnchor) : bytes :=
  bytes_of_string "state-anchor-v1" ++ to_le_bytes 8 (an_height a) ++ to_le_bytes 8 (an_epoch a)
    ++ an_state_root a ++ an_decay_rules_hash a ++ to_le_bytes 8 (an_active_objects a)
    ++ to_le_bytes 8 (an_ghost_count a) ++ an_mmr_root a ++ parent_anchor_hash a.

Definition anchor_hash (a : StateAnchor) : bytes := blake3 (anchor_input a).

Definition function_commitment_hash (c : StateFunctionCommitment) : bytes :=
  blake3 (bytes_of_string "state-fn-commit-v1" ++ sf_anchor_hash c ++ to_le_bytes 8 (sf_anchor_epoch c)
    ++ sf_decay_rules_hash c ++ sf_tx_root c ++ to_le_bytes 8 (sf_active_objects c)).

(** The hash that [build_block_commitment] and [verify_block_commitment] both
    compute. *)
Definition block_commitment_hash (hash : bytes) (epoch : Z) (rules : bytes) (active_objects : Z)
    (is_anchor : bool) : bytes :=
  blake3 (bytes_of_string "block-state-commit-v1" ++ hash ++ to_le_bytes 8 epoch ++ rules
    ++ to_le_bytes 8 active_objects ++ [if is_anchor then 1 else 0]).

Record AnchorManager := {
  interval : Z;
  rules : DecayRules;
  anchors : gmap Z StateAnchor;
  latest_anchor_hash : bytes;
}.

Definition manager_new (interval : Z) (rules : DecayRules) : AnchorManager :=
  {| interval := interval; rules := rules; anchors := ∅; latest_anchor_hash := zero32 |}.

Definition is_anchor_height (m : AnchorManager) (height : Z) : bool :=
  (0 <? height) && (height mod interval m =? 0).

Definition MAX_ANCHORS : nat := 100.

Definition create_anchor (height epoch : Z) (state_root : bytes) (active_objects ghost_count : Z)
    (mmr_root : bytes) (m : AnchorManager) : AnchorManager * StateAnchor :=
  let anchor := {| an_height := height; an_epoch := epoch; an_state_root := state_root;
                   an_decay_rules_hash := rules_hash (rules m); an_active_objects := active_objects;
                   an_ghost_count := ghost_count; an_mmr_root := mmr_root;
                   parent_anchor_hash := latest_anchor_hash m |} in
  let as' := <[ height := anchor ]> (anchors m) in
  ({| interval := interval m; rules := rules m; anchors := trim_oldest MAX_ANCHORS (size as') as';
      latest_anchor_hash := anchor_hash anchor |}, anchor).

Definition anchor_list (m : AnchorManager) : list StateAnchor := (btree_iter (anchors m)).*2.

Definition latest_anchor (m : AnchorManager) : option StateAnchor := last (anchor_list m).

Definition get_anchor (m : AnchorManager) (height : Z) : option StateAnchor := anchors m !! height.

Definition reference (a : option StateAnchor) : bytes * Z :=
  match a with Some a => (anchor_hash a, an_epoch a) | None => (zero32, 0) end.

Definition build_commitment (m : AnchorManager) (tx_root : bytes) (active_objects : Z)
  : StateFunctionCommitment :=
  let '(h, e) := reference (latest_anchor m) in
  {| sf_anchor_hash := h; sf_anchor_epoch := e; sf_decay_rules_hash := rules_hash (rules m);
     sf_tx_root := tx_root; sf_active_objects := active_objects |}.

Definition build_block_commitment (m : AnchorManager) (block_height active_objects : Z)
  : BlockStateCommitment :=
  let is_anchor := is_anchor_height m block_height in
  let '(h, e) :=
    reference (if is_anchor
               then match get_anchor m block_height with Some a => Some a | None => latest_anchor m end
               else latest_anchor m) in
  let rh := rules_hash (rules m) in
  {| bc_anchor_hash := h; bc_anchor_epoch := e; bc_decay_rules_hash := rh;
     bc_active_objects := active_objects; bc_is_anchor := is_anchor;
     bc_commitment_hash := block_commitment_hash h e rh active_objects is_anchor |}.

Definition knows (m : AnchorManager) (hash : bytes) : bool :=
  bool_decide (hash = zero32) ||
  existsb (fun a => bool_decide (anchor_hash a = hash)) (anchor_list m).

Definition verify_block_commitment (m : AnchorManager) (c : BlockStateCommitment) : bool :=
  bool_decide (bc_decay_rules_hash c = rules_hash (rules m)) &&
  bool_decide (bc_commitment_hash c = block_commitment_hash (bc_anchor_hash c) (bc_anchor_epoch c)
    (bc_decay_rules_hash c) (bc_active_objects c) (bc_is_anchor c)) &&
  knows m (bc_anchor_hash c).

Definition verify_commitment (m : AnchorManager) (c : StateFunctionCommitment) : bool :=
  bool_decide (sf_decay_rules_hash c = rules_hash (rules m)) && knows m (sf_anchor_hash c).

Definition anchor_count (m : AnchorManager) : nat := size (anchors m).

(** [windows(2)] *)
Fixpoint linked (prev : StateAnchor) (l : list StateAnchor) : bool :=
  match l with
  | [] => true
  | a :: l' => bool_decide (parent_anchor_hash a = anchor_hash prev) && linked a l'
  end.

Definition verify_anchor_chain (m : AnchorManager) : bool :=
  match anchor_list m with
  | [] => true
  | a :: l => bool_decide (parent_anchor_hash a = zero32) && linked a l
  end.
End anchors.

(** ** The snapshot cache *)

Record LazyStateCache := {
  cache_snapshots : gmap Z (gmap bytes ObjectSnapshot);
  cache_rules : DecayRules;
  max_anchors : nat;
}.

Record LazyQueryResult := {
  q_object_id : bytes;
  q_query_epoch : Z;
  q_anchor_epoch : Z;
  q_energy : Z;
  q_state : ObjectLifecycleState;
  q_energy_at_anchor : Z;
  q_half_life : Z;
}.

Definition cache_new (rules : DecayRules) (max_anchors : nat) : LazyStateCache :=
  {| cache_snapshots := ∅; cache_rules := rules; max_anchors := max_anchors |}.

Definition capture_anchor (anchor_epoch : Z) (objects : list ObjectSnapshot) (c : LazyStateCache)
  : LazyStateCache :=
  let snap := foldl (fun m s => <[ sn_object_id s := s ]> m) ∅ objects in
  let all := <[ anchor_epoch := snap ]> (cache_snapshots c) in
  {| cache_snapshots := trim_oldest (max_anchors c) (size all) all;
     cache_rules := cache_rules c; max_anchors := max_anchors c |}.

(** [range(..=query_epoch).next_back()] *)
Definition newest_upto {A} (m : gmap Z A) (query_epoch : Z) : option (Z * A) :=
  last (btree_iter (filter (fun kv => kv.1 <= query_epoch) m)).

Definition evaluate (c : LazyStateCache) (query_epoch anchor_epoch : Z) (id : bytes)
    (s : ObjectSnapshot) : LazyQueryResult :=
  {| q_object_id := id; q_query_epoch := query_epoch; q_anchor_epoch := anchor_epoch;
     q_energy := LazyStateEvaluator.energy_at s (cache_rules c) query_epoch;
     q_state := LazyStateEvaluator.state_at s (cache_rules c) query_epoch;
     q_energy_at_anchor := energy_at_anchor s; q_half_life := sn_half_life s |}.

Definition query (c : LazyStateCache) (object_id : bytes) (query_epoch : Z) : option LazyQueryResult :=
  newest_upto (cache_snapshots c) query_epoch ≫= fun '(anchor_epoch, m) =>
    evaluate c query_epoch anchor_epoch object_id <$> m !! object_id.

Definition query_all `{HashOrder} (c : LazyStateCache) (query_epoch : Z) : list LazyQueryResult :=
  match newest_upto (cache_snapshots c) query_epoch with
  | None => []
  | Some (anchor_epoch, m) =>
      omap (fun id => (fun s => evaluate c query_epoch anchor_epoch (sn_object_id s) s) <$> m !! id)
        (hash_keys m)
  end.

Definition snapshot_count (c : LazyStateCache) : nat := size (cache_snapshots c).

Definition latest_anchor_epoch (c : LazyStateCache) : option Z :=
  fst <$> last (btree_iter (cache_snapshots c)).

(** ** Snapshots of the live state *)

Definition lifecycle_of (s : ObjectState) : ObjectLifecycleState :=
  match s with
  | Active | Resurrected => LActive
  | Grace => LGrace
  | Ghost => LGhost
  end.

Definition object_snapshot (epoch : Z) (id : bytes) (o : StateObject) : ObjectSnapshot :=
  {| sn_object_id := id; energy_at_anchor := Types.energy_at o epoch; sn_half_life := o_half_life o;
     sn_anchor_epoch := epoch; sn_state := lifecycle_of (o_state o); sn_grace_epoch := o_grace_epoch o |}.

Record FrontierState := {
  f_anchors : AnchorManager;
  f_lazy_cache : LazyStateCache;
  last_anchor_height : Z;
}.

Section frontier.
Context `{Blake3} {D : Type} `{StateDB D}.

Definition frontier_new (anchor_interval : Z) : FrontierState :=
  {| f_anchors := manager_new anchor_interval default_rules;
     f_lazy_cache := cache_new default_rules 10; last_anchor_height := 0 |}.

(** The anchor step of [FrontierState::on_block_committed]. *)
Definition anchor_step (block_number epoch : Z) (state_root : bytes) (active_objects ghost_count : Z)
    (mmr_root : bytes) (d : D) (f : FrontierState) : FrontierState :=
  if is_anchor_height (f_anchors f) block_number then
    let snapshots := omap (fun id => object_snapshot epoch id <$> db_objects d !! id) (db_all_object_ids d) in
    {| f_anchors := (create_anchor block_number epoch state_root active_objects ghost_count mmr_root
                       (f_anchors f)).1;
       f_lazy_cache := capture_anchor epoch snapshots (f_lazy_cache f);
       last_anchor_height := block_number |}
  else f.

Definition query_lazy (f : FrontierState) (object_id : bytes) (epoch : Z) : option LazyQueryResult :=
  query (f_lazy_cache f) object_id epoch.
End frontier.

(** ** Lazy evaluation agrees with the epoch sweep *)

Lemma evolve_all_app eng es es' o :
  evolve_all eng (es ++ es') o = evolve_all eng es o ≫= evolve_all eng es'.
Proof.
  revert o. induction es as [|e es IH]; intros o; simpl; [done|].
  destruct (evolve eng e o) as [o'|]; simpl; [apply IH|done].
Qed.

(** The moment the energy of an object runs out, as seen from its last refresh. *)
Definition horizon (o : StateObject) : Z :=
  if (o_energy o =? 0) || (o_half_life o =? 0) then o_last_refreshed o
  else o_last_refreshed o + (Z.log2 (o_energy o) + 1) * o_half_life o.

(** An object under the default curve, with an horizon that fits. *)
Record plain_object (eng : EvaporationEngine) (o : StateObject) : Prop := {
  po_live : o_state o = Active \/ o_state o = Resurrected;
  po_curve : o_decay_curve o = None;
  po_energy : is_u64 (o_energy o);
  po_half_life : 0 <= o_half_life o;
  po_refreshed : 0 <= o_last_refreshed o;
  po_horizon : horizon o + grace_period eng <= U64_MAX;
}.

Section lazy.
Context (eng : EvaporationEngine) (r : DecayRules) (o : StateObject) (id : bytes).
Context (Ho : plain_object eng o) (Hgrace : 0 < grace_period eng)
  (Hr : r_grace_period r = grace_period eng).

Abbreviation a := (o_last_refreshed o).
Abbreviation snap := (object_snapshot a id o).

Lemma horizon_ge : a <= horizon o.
Proof.
  destruct Ho. unfold horizon. case_match; [lia|]. pose proof (Z.log2_nonneg (o_energy o)). nia.
Qed.

Lemma current_energy_zero t : a <= t -> current_energy o t = 0 <-> horizon o <= t.
Proof.
  intros Ht. destruct Ho as [_ Hc He Hh Ha _]. unfold current_energy, Types.energy_at. rewrite Hc.
  rewrite saturating_sub_exact by done. unfold horizon. unfold is_u64 in He.
  destruct (Z.eqb_spec (o_half_life o) 0) as [E|Hh0].
  { rewrite orb_true_r. unfold energy_at_epoch. rewrite E. simpl. lia. }
  destruct (Z.eqb_spec (o_energy o) 0) as [E|He0]; simpl.
  - rewrite E. pose proof (energy_at_epoch_range (o_half_life o) 0 (t - a)). unfold is_u64 in *. lia.
  - rewrite energy_zero_iff_halved by (unfold is_u64; lia). lia.
Qed.

Lemma evolve_live t : a <= t < horizon o -> evolve eng t o = Some o.
Proof.
  intros Ht. pose proof (current_energy_zero t) as Hz. unfold evolve.
  destruct (po_live _ _ Ho) as [-> | ->]; (destruct (Z.eqb_spec (current_energy o t) 0); [lia|done]).
Qed.

Lemma evolve_all_live s n : a <= s -> s + n <= horizon o -> evolve_all eng (seqZ s n) o = Some o.
Proof.
  intros Hs Hn. assert (Hall : Forall (fun t => a <= t < horizon o) (seqZ s n)).
  { apply Forall_forall. intros t Ht%elem_of_seqZ. lia. }
  induction Hall as [|t l Ht _ IH]; simpl; [done|]. rewrite evolve_live by done. exact IH.
Qed.

Lemma evolve_horizon : evolve eng (horizon o) o = Some (enter_grace (horizon o) o).
Proof.
  pose proof horizon_ge. pose proof (proj2 (current_energy_zero (horizon o) ltac:(lia)) ltac:(lia)) as Hz.
  unfold evolve. destruct (po_live _ _ Ho) as [-> | ->]; by rewrite Hz.
Qed.

(** The sweep's view of the object after every epoch up to [q]. *)
Lemma eager_state q :
  a <= q ->
  evolve_all eng (seqZ a (q - a + 1)) o =
    if q <? horizon o then Some o
    else if q <? horizon o + grace_period eng then Some (enter_grace (horizon o) o) else None.
Proof.
  intros Hq. pose proof horizon_ge as Hz. destruct Ho as [_ _ _ _ Ha Hmax].
  destruct (Z.ltb_spec q (horizon o)); [apply evolve_all_live; lia|].
  assert (Hsplit : seqZ a (q - a + 1) = seqZ a (horizon o - a) ++ seqZ (horizon o) (q - horizon o + 1)).
  { replace (q - a + 1) with ((horizon o - a) + (q - horizon o + 1)) by lia.
    rewrite seqZ_app by lia. do 2 f_equal. lia. }
  rewrite Hsplit, evolve_all_app, evolve_all_live by lia. simpl.
  rewrite seqZ_cons by lia. simpl. rewrite evolve_horizon. simpl.
  destruct (Z.ltb_spec q (horizon o + grace_period eng)).
  { apply evolve_grace_stays; [lia..|]. apply Forall_forall. intros t Ht%elem_of_seqZ. lia. }
  replace (Z.pred (q - horizon o + 1)) with ((grace_period eng - 1) + (q - horizon o - grace_period eng + 1)) by lia.
  rewrite seqZ_app, evolve_all_app by lia. rewrite evolve_grace_stays; [|lia..|].
  2:{ apply Forall_forall. intros t Ht%elem_of_seqZ. lia. }
  simpl. rewrite seqZ_cons by lia. simpl. unfold evolve at 1. simpl. unfold wrapping_add.
  rewrite as_u64_small by u64_lia.
  by rewrite (proj2 (Z.leb_le _ _)) by lia.
Qed.

(** The lazy evaluator's view. *)
Lemma lazy_energy q : a <= q -> LazyStateEvaluator.energy_at snap r q = current_energy o q.
Proof.
  intros Hq. destruct Ho as [Hl Hc He Hh Ha _]. unfold LazyStateEvaluator.energy_at. simpl.
  destruct (Z.ltb_spec q a); [lia|].
  assert (Hsn : lifecycle_of (o_state o) = LActive) by (by destruct Hl as [-> | ->]). rewrite Hsn.
  unfold rules_compute_energy, current_energy, Types.energy_at. destruct (formula r). rewrite Hc.
  rewrite !saturating_sub_exact by lia. rewrite Z.sub_diag.
  destruct (decide (o_half_life o = 0)) as [E|]; [unfold energy_at_epoch; by rewrite E|].
  by rewrite energy_at_epoch_0 by (done || lia).
Qed.

Lemma lazy_horizon : LazyStateEvaluator.epoch_of_zero_energy snap = horizon o.
Proof.
  destruct Ho as [_ _ He Hh Ha Hmax]. unfold LazyStateEvaluator.epoch_of_zero_energy, horizon in *. simpl.
  unfold Types.energy_at. rewrite saturating_sub_exact, Z.sub_diag by lia.
  destruct (Z.eqb_spec (o_half_life o) 0) as [E|Hh0]; [by rewrite !orb_true_r|].
  rewrite energy_at_epoch_0 by (done || lia). destruct (Z.eqb_spec (o_energy o) 0) as [E|He0]; [done|]. simpl in *.
  unfold leading_zeros. destruct (Z.eqb_spec (o_energy o) 0); [lia|].
  replace (63 - (63 - Z.log2 (o_energy o)) + 1) with (Z.log2 (o_energy o) + 1) by lia.
  pose proof (Z.log2_nonneg (o_energy o)). unfold wrapping_mul, wrapping_add.
  rewrite !as_u64_small; [done|unfold is_u64; nia|]. rewrite as_u64_small by (unfold is_u64; nia). unfold is_u64; nia.
Qed.

Lemma lazy_state q :
  a <= q ->
  LazyStateEvaluator.state_at snap r q =
    if q <? horizon o then LActive else if q <? horizon o + grace_period eng then LGrace else LGhost.
Proof.
  intros Hq. unfold LazyStateEvaluator.state_at.
  assert (Hsn : sn_state snap = LActive) by (simpl; by destruct (po_live _ _ Ho) as [-> | ->]). rewrite Hsn.
  rewrite lazy_energy, lazy_horizon, Hr by done. pose proof (current_energy_zero q Hq) as Hz.
  destruct Ho as [_ _ _ _ Ha Hmax]. pose proof horizon_ge.
  unfold wrapping_add. rewrite as_u64_small by u64_lia.
  destruct (Z.eqb_spec (current_energy o q) 0), (Z.ltb_spec q (horizon o)); try lia; [|done].
  destruct (Z.leb_spec (horizon o + grace_period eng) q), (Z.ltb_spec q (horizon o + grace_period eng)); lia || done.
Qed.
End lazy.

Section refinement.
Context `{Blake3} {D : Type} `{StateDB D, !StateDBLaws D}.

End refinement.

(** ** The self-check *)

(** The equivalence check of the evaluator accepts every live snapshot: its
    eager side applies the same formula to the same anchor. *)
Lemma equivalence_loop_true s r t n ee es :
  sn_state s = LActive -> 0 < sn_half_life s -> is_u64 (energy_at_anchor s) ->
  sn_anchor_epoch s <= t ->
  (es = LActive /\ (t = sn_anchor_epoch s -> ee = energy_at_anchor s) \/
   es = LGrace /\ ee = 0 /\ sn_anchor_epoch s < t /\ LazyStateEvaluator.energy_at s r t = 0) ->
  LazyStateEvaluator.equivalence_loop s r (seqZ t (Z.of_nat n)) ee es = true.
Proof.
  intros Hs Hh He. revert t ee es. induction n as [|n IH]; intros t ee es Ht Hinv; [done|].
  rewrite seqZ_cons by lia. replace (Z.pred (Z.of_nat (S n))) with (Z.of_nat n) by lia.
  cbn [LazyStateEvaluator.equivalence_loop].
  assert (Hlazy : forall u, sn_anchor_epoch s <= u -> LazyStateEvaluator.energy_at s r u =
    energy_at_epoch (energy_at_anchor s) (sn_half_life s) (u - sn_anchor_epoch s)).
  { intros u Hu. unfold LazyStateEvaluator.energy_at, rules_compute_energy. rewrite Hs.
    destruct (Z.ltb_spec u (sn_anchor_epoch s)); [lia|]. by destruct (formula r). }
  assert (Hanti : energy_at_epoch (energy_at_anchor s) (sn_half_life s) (Z.succ t - sn_anchor_epoch s)
    <= energy_at_epoch (energy_at_anchor s) (sn_half_life s) (t - sn_anchor_epoch s))
    by (apply energy_antitone; (done || lia)).
  pose proof (energy_at_epoch_range (sn_half_life s) (energy_at_anchor s) (Z.succ t - sn_anchor_epoch s)
    He ltac:(lia) ltac:(lia)) as Hrange.
  destruct Hinv as [[-> Hee]|(-> & -> & Hlt & Hz)].
  - destruct (Z.ltb_spec (sn_anchor_epoch s) t) as [Hlt|Hge].
    + rewrite bool_decide_true by done. cbn [andb].
      assert (E : rules_compute_energy r (energy_at_anchor s) (sn_half_life s) (t - sn_anchor_epoch s)
        = LazyStateEvaluator.energy_at s r t).
      { rewrite Hlazy by lia. unfold rules_compute_energy. by destruct (formula r). }
      rewrite E, Z.eqb_refl. cbn [negb]. apply IH; [lia|].
      destruct (Z.eqb_spec (LazyStateEvaluator.energy_at s r t) 0) as [Ez|]; [right|left; split; [done|lia]].
      rewrite !Hlazy in * by lia. split_and!; [done|done|lia|lia].
    + cbn [andb]. assert (t = sn_anchor_epoch s) as Et by lia. rewrite (Hee Et), Hlazy by lia.
      rewrite Et, Z.sub_diag, energy_at_epoch_0, Z.eqb_refl by done. cbn [negb]. apply IH; [lia|].
      left. split; [done|lia].
  - rewrite bool_decide_false, andb_false_r by done. rewrite Hz. cbn [Z.eqb negb]. apply IH; [lia|].
    right. rewrite !Hlazy in * by lia. split_and!; [done|done|lia|lia].
Qed.

Theorem verify_equivalence_live s r q :
  sn_state s = LActive -> 0 < sn_half_life s -> is_u64 (energy_at_anchor s) ->
  LazyStateEvaluator.verify_equivalence s r q = true.
Proof.
  intros Hs Hh He. unfold LazyStateEvaluator.verify_equivalence.
  destruct (decide (0 <= q - sn_anchor_epoch s + 1)).
  - rewrite <- (Z2Nat.id (q - sn_anchor_epoch s + 1)) by done.
    apply equivalence_loop_true; [done..|lia|]. left. split; [done|by intros _].
  - by rewrite seqZ_nil by lia.
Qed.

(** ** The anchor chain *)

Record AnchorRequest := {
  rq_height : Z;
  rq_epoch : Z;
  rq_state_root : bytes;
  rq_active : Z;
  rq_ghosts : Z;
  rq_mmr_root : bytes;
}.

Section chain.
Context `{Blake3}.

Definition serve (m : AnchorManager) (q : AnchorRequest) : AnchorManager :=
  (create_anchor (rq_height q) (rq_epoch q) (rq_state_root q) (rq_active q) (rq_ghosts q)
     (rq_mmr_root q) m).1.

Definition anchor_for (rh prev : bytes) (q : AnchorRequest) : StateAnchor :=
  {| an_height := rq_height q; an_epoch := rq_epoch q; an_state_root := rq_state_root q;
     an_decay_rules_hash := rh; an_active_objects := rq_active q; an_ghost_count := rq_ghosts q;
     an_mmr_root := rq_mmr_root q; parent_anchor_hash := prev |}.

(** The whole chain a list of requests creates, without eviction. *)
Fixpoint chain (rh prev : bytes) (qs : list AnchorRequest) : list StateAnchor :=
  match qs with
  | [] => []
  | q :: qs' => anchor_for rh prev q :: chain rh (anchor_hash (anchor_for rh prev q)) qs'
  end.

Definition tip (rh : bytes) (qs : list AnchorRequest) : bytes :=
  foldl (fun h q => anchor_hash (anchor_for rh h q)) zero32 qs.

Lemma serve_all_tip i r qs :
  let m := foldl serve (manager_new i r) qs in
  rules m = r /\ interval m = i /\ latest_anchor_hash m = tip (rules_hash r) qs.
Proof.
  induction qs as [|q qs IH] using rev_ind; [done|]. rewrite foldl_snoc. cbn zeta.
  destruct IH as (Hr & Hi & Hl). set (m := foldl serve (manager_new i r) qs) in *.
  unfold serve, create_anchor, tip. cbn [fst rules interval latest_anchor_hash]. rewrite foldl_snoc.
  fold (tip (rules_hash r) qs). by rewrite Hr, Hl, Hi.
Qed.

Lemma chain_snoc rh prev qs q :
  chain rh prev (qs ++ [q]) =
  chain rh prev qs ++ [anchor_for rh (foldl (fun h q => anchor_hash (anchor_for rh h q)) prev qs) q].
Proof. revert prev. induction qs as [|p qs IH]; intros prev; simpl; [done|]. by rewrite IH. Qed.

Lemma length_chain rh prev qs : length (chain rh prev qs) = length qs.
Proof. revert prev. induction qs; intros; simpl; [done|]. by f_equal. Qed.

Definition heights (l : list StateAnchor) : list (Z * StateAnchor) := (fun a => (an_height a, a)) <$> l.

(** The manager holds the end of the chain. *)
Lemma serve_all_list i r qs :
  StronglySorted Z.lt (rq_height <$> qs) ->
  let m := foldl serve (manager_new i r) qs in
  btree_iter (anchors m) = heights (drop (length qs - MAX_ANCHORS) (chain (rules_hash r) zero32 qs)).
Proof.
  induction qs as [|q qs IH] using rev_ind; intros Hs; [done|].
  rewrite fmap_app in Hs. apply StronglySorted_app in Hs as (Hlt & Hs & _). specialize (IH Hs).
  cbn zeta in *. rewrite foldl_snoc. destruct (serve_all_tip i r qs) as (Hr & _ & Hl).
  set (m := foldl serve (manager_new i r) qs) in *. unfold serve, create_anchor. cbn [fst anchors].
  rewrite Hr, Hl. fold (anchor_for (rules_hash r) (tip (rules_hash r) qs) q).
  set (a := anchor_for (rules_hash r) (tip (rules_hash r) qs) q).
  set (l := chain (rules_hash r) zero32 qs) in *.
  assert (Hll : length l = length qs) by apply length_chain.
  assert (Hsnoc : btree_iter (<[rq_height q := a]> (anchors m)) = btree_iter (anchors m) ++ [(rq_height q, a)]).
  { apply btree_iter_snoc. intros k [v Hv]. apply elem_of_btree_iter in Hv. rewrite IH in Hv.
    unfold heights in Hv. apply list_elem_of_fmap in Hv as (b & [= -> ->] & Hb).
    apply (subseteq_drop _ _) in Hb. apply (Hlt (an_height b) (rq_height q)); [|set_solver].
    clear -Hb. unfold l in Hb. revert Hb. generalize zero32.
    induction qs as [|p qs IHq]; intros prev Hb; [by apply elem_of_nil in Hb|]. csimpl in *.
    apply elem_of_cons in Hb as [->|Hb]; [left|right]. by eapply IHq. }
  rewrite btree_iter_trim by lia. rewrite <- length_btree_iter, Hsnoc, IH, length_app.
  unfold heights. rewrite length_fmap, length_drop, Hll. rewrite chain_snoc. fold (tip (rules_hash r) qs) a l.
  change [(rq_height q, a)] with ((fun a => (an_height a, a)) <$> [a]).
  rewrite <- fmap_app, <- fmap_drop, length_app. f_equal. simpl.
  rewrite !drop_app, drop_drop, length_drop, Hll. f_equal; f_equal; lia.
Qed.
End chain.

Section chain_properties.
Context `{Blake3}.

Lemma linked_chain rh a qs :
  linked a (chain rh (anchor_hash a) qs) = true.
Proof.
  revert a. induction qs as [|q qs IH]; intros a; simpl; [done|].
  rewrite bool_decide_true by done. apply IH.
Qed.

(** The end of a chain starts with an anchor whose parent is the one before. *)
Lemma drop_chain rh prev qs n :
  (n < length qs)%nat ->
  exists p, drop n (chain rh prev qs) = chain rh p (drop n qs) /\
    p = default prev (anchor_hash <$> last (take n (chain rh prev qs))).
Proof.
  revert prev qs. induction n as [|n IH]; intros prev qs Hn; [by exists prev|].
  destruct qs as [|q qs]; simpl in *; [lia|].
  destruct (IH (anchor_hash (anchor_for rh prev q)) qs) as (p & Hd & Hp); [lia|].
  exists p. split; [done|]. rewrite Hp, last_cons. by destruct (last _).
Qed.

Lemma anchor_list_served i r qs :
  StronglySorted Z.lt (rq_height <$> qs) ->
  anchor_list (foldl serve (manager_new i r) qs)
  = drop (length qs - MAX_ANCHORS) (chain (rules_hash r) zero32 qs).
Proof.
  intros Hs. unfold anchor_list. rewrite (serve_all_list i r qs Hs). unfold heights.
  rewrite <- list_fmap_compose. by rewrite list_fmap_id.
Qed.

(** The chain check against what honest use builds.  A manager that
    created its anchors at increasing heights passes [verify_anchor_chain]
    as long as it created at most 100 of them.  From the 101st on, the check
    compares the parent hash of the oldest retained anchor with the genesis
    value, so it fails unless an evicted anchor hashes to all zeros.  The
    commitments the manager builds always verify. *)
Theorem anchor_chain_verifies i r qs :
  StronglySorted Z.lt (rq_height <$> qs) ->
  let m := foldl serve (manager_new i r) qs in
  ((length qs <= MAX_ANCHORS)%nat -> verify_anchor_chain m = true) /\
  (forall p, (chain (rules_hash r) zero32 qs) !! (length qs - MAX_ANCHORS - 1)%nat = Some p ->
     (MAX_ANCHORS < length qs)%nat -> verify_anchor_chain m = bool_decide (anchor_hash p = zero32)) /\
  (forall height active, verify_block_commitment m (build_block_commitment m height active) = true) /\
  (forall tx_root active, verify_commitment m (build_commitment m tx_root active) = true).
Proof.
  intros Hs m. pose proof (anchor_list_served i r qs Hs) as Hl. fold m in Hl.
  assert (Hk : forall o, (forall a, o = Some a -> a ∈ anchor_list m) -> knows m (reference o).1 = true).
  { intros [a|] Ha; unfold knows; simpl; [|done].
    apply orb_true_iff. right. apply existsb_exists. exists a. split; [|by apply bool_decide_true].
    apply list_elem_of_In. by apply Ha. }
  assert (Hlast : forall a, latest_anchor m = Some a -> a ∈ anchor_list m).
  { intros a Ha. apply last_Some in Ha as [l ->]. set_solver. }
  split_and!.
  - intros Hn. unfold verify_anchor_chain. rewrite Hl. replace (length qs - MAX_ANCHORS)%nat with 0%nat by lia.
    destruct qs as [|q qs]; [done|]. simpl. apply linked_chain.
  - intros p Hp Hn. unfold verify_anchor_chain. rewrite Hl.
    destruct (drop_chain (rules_hash r) zero32 qs (length qs - MAX_ANCHORS)) as (h & -> & Hh); [unfold MAX_ANCHORS in *; lia|].
    assert (Hn' : (length qs - MAX_ANCHORS)%nat = S (length qs - MAX_ANCHORS - 1)) by lia.
    rewrite Hn' in Hh at 1. rewrite (take_S_r _ _ _ Hp), last_snoc in Hh. simpl in Hh. subst h.
    destruct (drop (length qs - MAX_ANCHORS) qs) as [|q qs'] eqn:Ed.
    { apply (f_equal length) in Ed. rewrite length_drop in Ed. unfold MAX_ANCHORS in *. simpl in Ed. lia. }
    simpl. rewrite linked_chain, andb_true_r. done.
  - intros height active. unfold verify_block_commitment, build_block_commitment.
    match goal with |- context [reference ?o] => set (o' := o); assert (Ho : knows m (reference o').1 = true) end.
    { apply Hk. unfold o'. intros a. destruct (is_anchor_height m height); [|apply Hlast].
      destruct (get_anchor m height) as [b|] eqn:Eb; [|apply Hlast]. intros [= ->].
      unfold anchor_list. apply list_elem_of_fmap. exists (height, a). split; [done|]. by apply elem_of_btree_iter. }
    destruct (reference o') as [h e]. cbn. rewrite !bool_decide_true by done. exact Ho.
  - intros tx_root active. unfold verify_commitment, build_commitment.
    pose proof (Hk _ Hlast) as Ho. destruct (reference (latest_anchor m)) as [h e]. cbn.
    rewrite bool_decide_true by done. exact Ho.
Qed.

(** *** What the latest hash commits to *)

Context `{!Blake3Laws}.

Record request_ok (q : AnchorRequest) : Prop := {
  ro_height : is_u64 (rq_height q);
  ro_epoch : is_u64 (rq_epoch q);
  ro_active : is_u64 (rq_active q);
  ro_ghosts : is_u64 (rq_ghosts q);
  ro_root : length (rq_state_root q) = 32%nat;
  ro_mmr : length (rq_mmr_root q) = 32%nat;
}.

Definition collision : Prop := exists x y, x <> y /\ blake3 x = blake3 y.
Definition zero_preimage : Prop := exists x, blake3 x = zero32.

Lemma anchor_input_inj rh rh' h h' q q' :
  request_ok q -> request_ok q' -> length rh = 32%nat -> length rh' = 32%nat ->
  length h = 32%nat -> length h' = 32%nat ->
  anchor_input (anchor_for rh h q) = anchor_input (anchor_for rh' h' q') -> rh = rh' /\ h = h' /\ q = q'.
Proof.
  intros [H1 H2 H3 H4 H5 H6] [H1' H2' H3' H4' H5' H6'] Hr Hr' Hh Hh'. unfold anchor_input. cbn [an_height an_epoch
    an_state_root an_decay_rules_hash an_active_objects an_ghost_count an_mmr_root parent_anchor_hash anchor_for].
  intros E. apply app_inj_1 in E as [_ E]; [|done].
  repeat (apply app_inj_1 in E as [? E]; [|by rewrite ?length_to_le_bytes; congruence]).
  destruct q, q'; cbn in *. split_and!; [done|done|]. f_equal; try done; by eapply to_le_bytes_inj.
Qed.

Lemma length_tip rh qs : length (tip rh qs) = 32%nat.
Proof.
  destruct qs as [|q qs _] using rev_ind; [done|]. unfold tip. rewrite foldl_snoc. apply blake3_length.
Qed.

(** The latest anchor hash commits to the whole history: two managers
    with the same latest hash have served the same requests under the same
    decay rules, unless BLAKE3 collides or hashes something to all zeros. *)
Theorem anchor_history_binding i i' r r' qs qs' :
  Forall request_ok qs -> Forall request_ok qs' ->
  latest_anchor_hash (foldl serve (manager_new i r) qs) = latest_anchor_hash (foldl serve (manager_new i' r') qs') ->
  (qs = qs' /\ (qs <> [] -> rules_hash r = rules_hash r')) \/ collision \/ zero_preimage.
Proof.
  destruct (serve_all_tip i r qs) as (_ & _ & ->). destruct (serve_all_tip i' r' qs') as (_ & _ & ->).
  intros Hq. revert qs'. induction qs as [|q qs IH] using rev_ind; intros qs' Hq'.
  - destruct qs' as [|q' qs' _] using rev_ind; [by left|]. unfold tip at 2. rewrite foldl_snoc.
    intros E. right; right. eexists. symmetry. exact E.
  - destruct qs' as [|q' qs' _] using rev_ind.
    { unfold tip at 1. rewrite foldl_snoc. intros E. right; right. eexists. exact E. }
    apply Forall_app in Hq as [Hqs [Hq _]%Forall_cons]. apply Forall_app in Hq' as [Hqs' [Hq' _]%Forall_cons].
    unfold tip. rewrite !foldl_snoc. fold (tip (rules_hash r) qs) (tip (rules_hash r') qs'). intros E.
    destruct (decide (anchor_input (anchor_for (rules_hash r) (tip (rules_hash r) qs) q)
      = anchor_input (anchor_for (rules_hash r') (tip (rules_hash r') qs') q'))) as [Ei|Hne].
    2:{ right; left. eexists _, _. split; [exact Hne|exact E]. }
    apply anchor_input_inj in Ei as (Er & Et & ->); try done; try apply length_tip; try apply blake3_length.
    destruct (IH Hqs qs' Hqs' Et) as [[-> _]|?]; [left; by split|by right].
Qed.
End chain_properties.

(** ** Concrete anchors *)

Module ToyAnchor.
Definition obj (curve : option DecayCurve) : StateObject :=
  {| o_id := Toy.key 1 1; o_owner := Toy.key 3 3; o_energy := 1000; o_half_life := 10; o_created_at := 0;
     o_last_refreshed := 0; o_state := Active; o_grace_epoch := None; o_data := [7; 7];
     o_decay_curve := curve; o_lad_mode := None |}.

Definition db : InMemoryStateDB := put_object (obj None) db_new.

Definition req (h : Z) : AnchorRequest :=
  {| rq_height := h; rq_epoch := h; rq_state_root := replicate 32 h; rq_active := 1; rq_ghosts := 0;
     rq_mmr_root := replicate 32 0 |}.

(** An anchor at block 100, epoch 5. *)
Definition frontier : FrontierState :=
  anchor_step 100 5 zero32 1 0 zero32 db (frontier_new 100).
End ToyAnchor.

(** Snapshots taken between refreshes drift: an anchor taken half-way
    through the half-life of an object makes the lazy query report 563 units of
    energy where the object in the database has 500. *)
Theorem reanchoring_drifts :
  q_energy <$> query_lazy ToyAnchor.frontier (Toy.key 1 1) 10 = Some 563 /\
  current_energy (ToyAnchor.obj None) 10 = 500.
Proof. by vm_compute. Qed.


Lemma anchor_chain_verifies_witness :
  verify_anchor_chain (foldl serve (Anchor.manager_new 1 default_rules) [ToyAnchor.req 1; ToyAnchor.req 2]) = true.
Proof.
  destruct (anchor_chain_verifies 1 default_rules [ToyAnchor.req 1; ToyAnchor.req 2]) as (Hv & _).
  - repeat constructor.
  - apply Hv. unfold MAX_ANCHORS. simpl. lia.
Defined.

Lemma anchor_history_binding_witness :
  ([ToyAnchor.req 1] = [ToyAnchor.req 1] /\
   ([ToyAnchor.req 1] <> [] -> rules_hash default_rules = rules_hash default_rules)) \/ collision \/ zero_preimage.
Proof.
  apply (anchor_history_binding 1 2); [..|by vm_compute].
  - repeat constructor; by vm_compute.
  - repeat constructor; by vm_compute.
Defined.
