(* ===== verification/LightClient.v ===== *)
(** * Light client

    crates/evaporchain-consensus-types/src/lib.rs: headers with commit
    certificates, the verifier that follows the chain by one header or by a
    skip, and the vote message its signatures cover; and
    crates/evaporchain-consensus/src/light_client.rs: proofs of the state of an
    object at an epoch, built from an anchor's Merkle tree.

    The blst library is a parameter: whether a public key parses, and its
    aggregate verification of a signature. *)

From stdpp Require Import base gmap list strings sorting.
From Stdlib Require Import ZArith Lia.
From S2P Require Import Prelude Energy Types Trie StateDB Lifecycle Validators Anchor.

Open Scope Z_scope.

(** ** Signatures *)

Class Blst := {
  blst_key_ok : bytes -> bool;
  fast_aggregate_verify : bytes -> bytes -> list bytes -> bool;
}.

(** What signing with a secret key gives. *)
Class BlstSigner `{Blst} := {
  public_key : bytes -> bytes;
  sign : bytes -> bytes -> bytes;
  public_key_ok sk : blst_key_ok (public_key sk) = true;
  sign_verifies sk msg : fast_aggregate_verify (sign sk msg) msg [public_key sk] = true;
}.

Definition aggregate_verify `{Blst} (msg agg_sig : bytes) (pks : list bytes) : bool :=
  negb (bool_decide (pks = [])) && forallb blst_key_ok pks && fast_aggregate_verify agg_sig msg pks.

(** ** Headers *)

Record CommitCertificate := {
  c_height : Z;
  c_round : Z;
  c_block_hash : bytes;
  aggregate_signature : bytes;
  signer_ids : list Z;
}.

Record LightBlockHeader := {
  lh_height : Z;
  lh_epoch : Z;
  lh_block_hash : bytes;
  lh_parent_hash : bytes;
  lh_state_root : bytes;
  lh_timestamp : Z;
  lh_validator_set : ValidatorSet;
  commit_certificate : CommitCertificate;
}.

Record TrustedState := { ts_header : LightBlockHeader; trust_expires_at : Z }.

Inductive CertError :=
| CertHeight
| CertBlockHash
| DuplicateSigners
| TooFewSigners
| SignerNoKey (id : Z)
| SignerUnknown (id : Z)
| TooLittleStake
| BadSignature.

Inductive InvalidReason := NoTrustedState | TrustExpired | InvalidCertificate (e : CertError).

Inductive VerificationResult :=
| Valid
| Invalid (why : InvalidReason)
| NeedBisection (trusted_height target_height : Z).

Definition TRUST_PERIOD_SECS : Z := 14 * 24 * 3600.
Definition TRUST_THRESHOLD_NUMERATOR : Z := 1.
Definition TRUST_THRESHOLD_DENOMINATOR : Z := 3.
Definition MAX_SKIP_HEIGHT_GAP : Z := 10000.
Definition MAX_TRUSTED : nat := 100.

Record LightClientVerifier := {
  trusted_states : gmap Z TrustedState;
  trust_period : Z;
  lc_chain_id : string;
}.

Definition with_trust_period (genesis : LightBlockHeader) (current_time period : Z) (chain_id : string)
  : LightClientVerifier :=
  {| trusted_states := {[ lh_height genesis :=
       {| ts_header := genesis; trust_expires_at := wrapping_add current_time period |} ]};
     trust_period := period; lc_chain_id := chain_id |}.

Definition client_new (genesis : LightBlockHeader) (current_time : Z) (chain_id : string)
  : LightClientVerifier := with_trust_period genesis current_time TRUST_PERIOD_SECS chain_id.

Definition latest_trusted_height (v : LightClientVerifier) : option Z :=
  fst <$> last (btree_iter (trusted_states v)).

Definition trusted_state_at (v : LightClientVerifier) (height : Z) : option TrustedState :=
  trusted_states v !! height.

Definition best_trusted_state_for (v : LightClientVerifier) (target_height : Z) : option TrustedState :=
  snd <$> newest_upto (trusted_states v) target_height.

(** The length byte is a cast: only chain identifiers below 256 bytes keep it. *)
Definition bls_vote_message (chain_id : string) (height round : Z) (block_hash : bytes) : bytes :=
  let id := bytes_of_string chain_id in
  [Z.of_nat (length id) mod 256] ++ id ++ bytes_of_string "precommit"
    ++ to_le_bytes 8 height ++ to_le_bytes 4 round ++ block_hash.

(** The loop over the signers: their keys and their stake. *)
Definition add_signer (vs : ValidatorSet) (acc : list bytes * Z) (vid : Z)
  : result (list bytes * Z) CertError :=
  match get vs vid with
  | Some v =>
      match bls_public_key v with
      | Some pk => Ok (acc.1 ++ [pk], saturating_add acc.2 (stake v))
      | None => Err (SignerNoKey vid)
      end
  | None => Err (SignerUnknown vid)
  end.

Fixpoint add_signers (vs : ValidatorSet) (acc : list bytes * Z) (ids : list Z)
  : result (list bytes * Z) CertError :=
  match ids with
  | [] => Ok acc
  | vid :: ids' => let? acc := add_signer vs acc vid in add_signers vs acc ids'
  end.

Section verifier.
Context `{Blst}.

Definition verify_commit_certificate (v : LightClientVerifier) (header : LightBlockHeader)
  : result unit CertError :=
  let cert := commit_certificate header in
  if negb (c_height cert =? lh_height header) then Err CertHeight
  else if bool_decide (c_block_hash cert <> lh_block_hash header) then Err CertBlockHash
  else if bool_decide (size (list_to_set (signer_ids cert) : gset Z) <> length (signer_ids cert))
  then Err DuplicateSigners
  else if Z.of_nat (length (signer_ids cert)) <? active_count (lh_validator_set header) * 2 / 3 + 1
  then Err TooFewSigners
  else
    let? '(pks, signing_stake) := add_signers (lh_validator_set header) ([], 0) (signer_ids cert) in
    if signing_stake * 3 <=? total_stake (lh_validator_set header) * 2 then Err TooLittleStake
    else if negb (aggregate_verify
                    (bls_vote_message (lc_chain_id v) (c_height cert) (c_round cert) (c_block_hash cert))
                    (aggregate_signature cert) pks)
    then Err BadSignature
    else Ok tt.

Definition overlap_stake (trusted : LightBlockHeader) (ids : list Z) : Z :=
  foldl (fun acc id =>
    match get (lh_validator_set trusted) id with
    | Some t => wrapping_add acc (stake t)
    | None => acc
    end) 0 ids.

Definition check_validator_overlap (trusted untrusted : LightBlockHeader) : bool :=
  let threshold := wrapping_mul (total_stake (lh_validator_set trusted)) TRUST_THRESHOLD_NUMERATOR
                     / TRUST_THRESHOLD_DENOMINATOR in
  threshold <=? overlap_stake trusted (signer_ids (commit_certificate untrusted)).

Definition add_trusted (header : LightBlockHeader) (current_time : Z) (v : LightClientVerifier)
  : LightClientVerifier :=
  let m := <[ lh_height header :=
              {| ts_header := header; trust_expires_at := wrapping_add current_time (trust_period v) |} ]>
             (trusted_states v) in
  {| trusted_states := trim_oldest MAX_TRUSTED (size m) m; trust_period := trust_period v;
     lc_chain_id := lc_chain_id v |}.

Definition verify (untrusted : LightBlockHeader) (current_time : Z) (v : LightClientVerifier)
  : LightClientVerifier * VerificationResult :=
  match best_trusted_state_for v (saturating_sub (lh_height untrusted) 1) with
  | None => (v, Invalid NoTrustedState)
  | Some trusted =>
      if trust_expires_at trusted <? current_time then (v, Invalid TrustExpired)
      else
        match verify_commit_certificate v untrusted with
        | Err e => (v, Invalid (InvalidCertificate e))
        | Ok _ =>
            let trusted_height := lh_height (ts_header trusted) in
            let height_gap := saturating_sub (lh_height untrusted) trusted_height in
            if height_gap =? 1 then (add_trusted untrusted current_time v, Valid)
            else if MAX_SKIP_HEIGHT_GAP <? height_gap
            then (v, NeedBisection trusted_height (lh_height untrusted))
            else if check_validator_overlap (ts_header trusted) untrusted
            then (add_trusted untrusted current_time v, Valid)
            else (v, NeedBisection trusted_height (lh_height untrusted))
        end
  end.
End verifier.

Definition bisection_target (trusted_height target_height : Z) : Z :=
  wrapping_add trusted_height target_height / 2.

Definition trusted_count (v : LightClientVerifier) : nat := size (trusted_states v).

Definition prune_expired (current_time : Z) (v : LightClientVerifier) : LightClientVerifier :=
  {| trusted_states := filter (fun kv => current_time < trust_expires_at kv.2) (trusted_states v);
     trust_period := trust_period v; lc_chain_id := lc_chain_id v |}.

(** ** Proofs of an object's state at an epoch *)

Record EpochStateProof := {
  ep_object_id : bytes;
  ep_snapshot : ObjectSnapshot;
  merkle_proof_path : list bytes;
  ep_anchor_state_root : bytes;
  ep_anchor_hash : bytes;
  ep_anchor_epoch : Z;
  ep_decay_rules_hash : bytes;
  ep_decay_rules : DecayRules;
  ep_query_epoch : Z;
  commitment_block_height : Z;
}.

Record EpochProofResult := {
  er_object_id : bytes;
  er_query_epoch : Z;
  er_energy : Z;
  er_state : ObjectLifecycleState;
  er_anchor_epoch : Z;
}.

Inductive EpochProofError :=
| QueryBeforeAnchor
| DecayRulesHashMismatch
| MerkleProofInvalid
| ObjectIdMismatch
| AnchorEpochMismatch
| CommitmentBlockNotTrusted.

Definition lifecycle_u8 (s : ObjectLifecycleState) : Z :=
  match s with LActive => 0 | LGrace => 1 | LGhost => 2 end.

Definition serialize_snapshot (s : ObjectSnapshot) : bytes :=
  bytes_of_string "epoch-proof-leaf-v1" ++ sn_object_id s ++ to_le_bytes 8 (energy_at_anchor s)
    ++ to_le_bytes 8 (sn_half_life s) ++ to_le_bytes 8 (sn_anchor_epoch s) ++ [lifecycle_u8 (sn_state s)]
    ++ match sn_grace_epoch s with Some ge => [1] ++ to_le_bytes 8 ge | None => [0] end.

(** [usize::count_ones] *)
Fixpoint count_ones_pos (p : positive) : nat :=
  match p with
  | xH => 1
  | xO p => count_ones_pos p
  | xI p => S (count_ones_pos p)
  end.

Definition count_ones (n : nat) : nat :=
  match N.of_nat n with N0 => 0 | Npos p => count_ones_pos p end.

(** [while padded.len().count_ones() != 1]: at most as many zeros as leaves,
    and one for none. *)
Fixpoint pad (fuel : nat) (l : list bytes) : list bytes :=
  match fuel with
  | O => l
  | S fuel' => if decide (count_ones (length l) = 1%nat) then l else pad fuel' (l ++ [zero32])
  end.

Section epoch_proofs.
Context `{Blake3}.

(** Two nodes, hashed in order. *)
Definition sorted_pair (a b : bytes) : bytes := if bytes_leb a b then blake3 (a ++ b) else blake3 (b ++ a).

Definition verify_merkle_proof (s : ObjectSnapshot) (path : list bytes) (state_root : bytes) : bool :=
  bool_decide (foldl sorted_pair (blake3 (serialize_snapshot s)) path = state_root).

(** [level.chunks(2)] *)
Fixpoint next_level (level : list bytes) : list bytes :=
  match level with
  | [] => []
  | [a] => [sorted_pair a zero32]
  | a :: b :: rest => sorted_pair a b :: next_level rest
  end.

(** The loop of [build_proof_from_leaves]: each round halves the level. *)
Fixpoint proof_loop (fuel : nat) (level : list bytes) (idx : nat) (proof : list bytes) : list bytes * bytes :=
  match fuel with
  | O => (proof, default zero32 (head level))
  | S fuel' =>
      if decide (1 < length level)%nat then
        let sibling_idx := if Nat.even idx then S idx else pred idx in
        proof_loop fuel' (next_level level) (idx / 2) (proof ++ [default zero32 (level !! sibling_idx)])
      else (proof, default zero32 (head level))
  end.

Definition build_proof_from_leaves (leaves : list bytes) (target_index : nat) : list bytes * bytes :=
  match leaves with
  | [l] => ([], l)
  | _ => let padded := pad (S (length leaves)) leaves in proof_loop (length padded) padded target_index []
  end.

Definition build_merkle_proof (snapshots : list ObjectSnapshot) (target_index : nat) : list bytes * bytes :=
  if decide (snapshots = [] \/ (length snapshots <= target_index)%nat) then ([], zero32)
  else build_proof_from_leaves ((fun s => blake3 (serialize_snapshot s)) <$> snapshots) target_index.

Definition verify_epoch_proof (p : EpochStateProof) : result EpochProofResult EpochProofError :=
  if ep_query_epoch p <? ep_anchor_epoch p then Err QueryBeforeAnchor
  else if bool_decide (sn_object_id (ep_snapshot p) <> ep_object_id p) then Err ObjectIdMismatch
  else if negb (sn_anchor_epoch (ep_snapshot p) =? ep_anchor_epoch p) then Err AnchorEpochMismatch
  else if bool_decide (rules_hash (ep_decay_rules p) <> ep_decay_rules_hash p) then Err DecayRulesHashMismatch
  else if negb (verify_merkle_proof (ep_snapshot p) (merkle_proof_path p) (ep_anchor_state_root p))
  then Err MerkleProofInvalid
  else Ok {| er_object_id := ep_object_id p; er_query_epoch := ep_query_epoch p;
             er_energy := LazyStateEvaluator.energy_at (ep_snapshot p) (ep_decay_rules p) (ep_query_epoch p);
             er_state := LazyStateEvaluator.state_at (ep_snapshot p) (ep_decay_rules p) (ep_query_epoch p);
             er_anchor_epoch := ep_anchor_epoch p |}.

Definition verify_with_trust (p : EpochStateProof) (light_client : LightClientVerifier)
  : result EpochProofResult EpochProofError :=
  match trusted_state_at light_client (commitment_block_height p) with
  | None => Err CommitmentBlockNotTrusted
  | Some _ => verify_epoch_proof p
  end.
End epoch_proofs.

(** ** What acceptance means *)

Section soundness.
Context `{Blst}.

Lemma add_signers_spec vs acc ids pks s :
  add_signers vs acc ids = Ok (pks, s) ->
  Forall (fun id => exists v pk, get vs id = Some v /\ bls_public_key v = Some pk) ids /\
  pks = acc.1 ++ omap (fun id => get vs id ≫= bls_public_key) ids /\
  s = foldl (fun n id => saturating_add n (stake_of vs id)) acc.2 ids.
Proof.
  revert acc. induction ids as [|id ids IH]; intros acc; cbn [add_signers].
  { intros [= ->]. cbn. by rewrite app_nil_r. }
  unfold add_signer. destruct (get vs id) as [v|] eqn:Eg; [|done].
  destruct (bls_public_key v) as [pk|] eqn:Ek; [|done]. simpl.
  intros Hs. apply IH in Hs as (Hall & -> & ->). split_and!.
  - constructor; [by eauto|done].
  - cbn [omap list_omap]. rewrite Eg. simpl. rewrite Ek. simpl. by rewrite <- app_assoc.
  - simpl. do 2 f_equal. unfold stake_of. by rewrite Eg.
Qed.

(** What a certificate has to show. *)
Record certified (v : LightClientVerifier) (h : LightBlockHeader) : Prop := {
  cf_height : c_height (commit_certificate h) = lh_height h;
  cf_hash : c_block_hash (commit_certificate h) = lh_block_hash h;
  cf_unique : NoDup (signer_ids (commit_certificate h));
  cf_known : Forall (fun id => exists w pk, get (lh_validator_set h) id = Some w /\ bls_public_key w = Some pk)
               (signer_ids (commit_certificate h));
  cf_stake : total_stake (lh_validator_set h) * 2 <
    3 * foldl (fun n id => saturating_add n (stake_of (lh_validator_set h) id)) 0
          (signer_ids (commit_certificate h));
  cf_signed : aggregate_verify
    (bls_vote_message (lc_chain_id v) (lh_height h) (c_round (commit_certificate h)) (lh_block_hash h))
    (aggregate_signature (commit_certificate h))
    (omap (fun id => get (lh_validator_set h) id ≫= bls_public_key) (signer_ids (commit_certificate h))) = true;
}.

Lemma size_list_to_set_NoDup (l : list Z) : size (list_to_set l : gset Z) = length l -> NoDup l.
Proof.
  induction l as [|x l IH]; intros Hs; [constructor|]. simpl in Hs.
  assert (Hle : (size (list_to_set l : gset Z) <= length l)%nat).
  { clear. induction l as [|x l IH]; simpl; [done|].
    pose proof (size_union_alt {[x]} (list_to_set l : gset Z)) as Hu. rewrite size_singleton in Hu.
    pose proof (subseteq_size (list_to_set l ∖ {[x]} : gset Z) (list_to_set l) ltac:(set_solver)). lia. }
  destruct (decide (x ∈ l)) as [Hin|Hin].
  - exfalso. assert (E : ({[x]} ∪ list_to_set l : gset Z) = list_to_set l) by set_solver. rewrite E in Hs. lia.
  - constructor; [done|]. apply IH. rewrite size_union in Hs by set_solver. rewrite size_singleton in Hs. lia.
Qed.

Lemma verify_commit_certificate_sound v h : verify_commit_certificate v h = Ok tt -> certified v h.
Proof.
  unfold verify_commit_certificate. destruct (Z.eqb_spec (c_height (commit_certificate h)) (lh_height h)) as [Eh|]; [|done].
  case_bool_decide as Eb; [done|]. case_bool_decide as Eu; [done|]. simpl.
  destruct (Z.ltb_spec (Z.of_nat (length (signer_ids (commit_certificate h))))
    (active_count (lh_validator_set h) * 2 / 3 + 1)); [done|].
  destruct (add_signers _ _ _) as [[pks s]|] eqn:Es; [|done]. simpl.
  destruct (Z.leb_spec (s * 3) (total_stake (lh_validator_set h) * 2)); [done|].
  destruct (aggregate_verify _ _ _) eqn:Ea; [|done]. intros _.
  apply add_signers_spec in Es as (Hall & -> & ->). simpl in *.
  split; try done; [by apply size_list_to_set_NoDup|lia|]. rewrite <- Eh at 1. by rewrite <- Eb at 1.
Qed.
End soundness.

(** ** The trusted states *)

Section client.
Context `{Blst}.

(** Headers are submitted and expired states pruned, in any order. *)
Inductive client_step : LightClientVerifier -> LightClientVerifier -> Prop :=
| step_verify h now v : client_step v (verify h now v).1
| step_prune now v : client_step v (prune_expired now v).

(** Everything trusted is the genesis header or was certified. *)
Record client_ok (g : LightBlockHeader) (c : string) (v : LightClientVerifier) : Prop := {
  co_size : (trusted_count v <= MAX_TRUSTED)%nat;
  co_chain : lc_chain_id v = c;
  co_trusted : forall t ts, trusted_states v !! t = Some ts ->
    lh_height (ts_header ts) = t /\ (ts_header ts = g \/ certified v (ts_header ts));
}.

Lemma certified_chain v w h : lc_chain_id v = lc_chain_id w -> certified v h -> certified w h.
Proof. intros E []. split; try done. by rewrite <- E. Qed.

Lemma client_ok_add g c v h now : client_ok g c v -> certified v h -> client_ok g c (add_trusted h now v).
Proof.
  intros [Hs Hc Ht] Hh. unfold add_trusted.
  set (m := <[lh_height h := _]> (trusted_states v)).
  destruct (trim_oldest_spec MAX_TRUSTED (size m) m) as (Hsz & Hsub & _); [lia|]. split; cbn; [|done|].
  - unfold trusted_count. cbn. lia.
  - intros t ts Hl. apply (lookup_weaken _ _ _ _ Hl) in Hsub. apply lookup_insert_Some in Hsub as [[<- <-]|[_ Hl']].
    + split; [done|right]. by apply (certified_chain v).
    + destruct (Ht t ts Hl') as [? [?|?]]; split; eauto. right. by apply (certified_chain v).
Qed.

Lemma verify_cases h now v :
  (verify h now v).1 = v \/ certified v h /\ verify h now v = (add_trusted h now v, Valid).
Proof.
  unfold verify. destruct (best_trusted_state_for _ _) as [ts|]; [|by left].
  destruct (trust_expires_at ts <? now); [by left|].
  destruct (verify_commit_certificate v h) as [[]|e] eqn:Ec; [|by left].
  apply verify_commit_certificate_sound in Ec. repeat case_match; by auto.
Qed.

Lemma client_ok_step g c v w : client_step v w -> client_ok g c v -> client_ok g c w.
Proof.
  intros [h now u|now u] Hok.
  - destruct (verify_cases h now u) as [->|[Hc ->]]; [done|]. by apply client_ok_add.
  - destruct Hok as [Hs Hc Ht]. split; [|done|].
    + eapply Nat.le_trans; [|exact Hs]. apply map_subseteq_size, map_filter_subseteq.
    + intros t ts [Hl _]%map_lookup_filter_Some. destruct (Ht t ts Hl) as [? [?|?]]; eauto.
      split; [done|right]. by apply (certified_chain u).
Qed.

End client.

(** ** What a certificate does not show *)

Section forgery.
Context `{Blst, !BlstSigner}.

(** A validator set of one, holding the key [sk]. *)
Definition own_set (sk : bytes) : ValidatorSet :=
  {| validators := [set_keys (Some (public_key sk)) None None None false (validator_new 1 1 [])] |}.

Definition forged (chain : string) (sk : bytes) (height : Z) (block_hash state_root : bytes) : LightBlockHeader :=
  {| lh_height := height; lh_epoch := 0; lh_block_hash := block_hash; lh_parent_hash := zero32;
     lh_state_root := state_root; lh_timestamp := 0; lh_validator_set := own_set sk;
     commit_certificate :=
       {| c_height := height; c_round := 0; c_block_hash := block_hash;
          aggregate_signature := sign sk (bls_vote_message chain height 0 block_hash); signer_ids := [1] |} |}.

Lemma forged_certificate v sk height block_hash state_root :
  verify_commit_certificate v (forged (lc_chain_id v) sk height block_hash state_root) = Ok tt.
Proof.
  assert (Ha : active_count (own_set sk) = 1) by done. assert (Ht : total_stake (own_set sk) = 1) by done.
  assert (Hs : add_signers (own_set sk) ([], 0) [1] = Ok ([public_key sk], 1)) by done.
  unfold verify_commit_certificate, forged. cbn [commit_certificate c_height lh_height c_block_hash lh_block_hash
    signer_ids lh_validator_set c_round aggregate_signature]. rewrite Z.eqb_refl, Ha, Ht, Hs.
  rewrite bool_decide_false by naive_solver. rewrite bool_decide_false by (intros Hn; by apply Hn).
  unfold aggregate_verify. cbn -[bls_vote_message]. by rewrite public_key_ok, sign_verifies.
Qed.

(** The newest trusted state is the best one for its own height. *)
Lemma best_latest v h ts :
  latest_trusted_height v = Some h -> trusted_states v !! h = Some ts -> best_trusted_state_for v h = Some ts.
Proof.
  intros Hl Hts. unfold latest_trusted_height, best_trusted_state_for, newest_upto in *.
  assert (Hmax : forall k, is_Some (trusted_states v !! k) -> k <= h).
  { destruct (last (btree_iter (trusted_states v))) as [[k x]|] eqn:E; [|done].
    injection Hl as ->. by apply btree_iter_last in E as [_ ?]. }
  assert (Hf : filter (fun kv => kv.1 <= h) (trusted_states v) = trusted_states v).
  { apply map_filter_id. intros k x Hk. apply Hmax. by eexists. }
  rewrite Hf. destruct (last (btree_iter (trusted_states v))) as [[k x]|] eqn:E; [|done].
  apply btree_iter_last in E as [Hk _]. injection Hl as ->. simpl. congruence.
Qed.

(** Sequential verification does not bind the validator set: whoever holds
    any key of their own can make a client that is up to date trust, as the next
    header, one with a block hash and a state root of their choosing, certified
    by a validator set of their own. *)
Theorem next_header_forgery v h ts now sk block_hash state_root :
  (trusted_count v <= MAX_TRUSTED)%nat ->
  latest_trusted_height v = Some h -> trusted_state_at v h = Some ts -> lh_height (ts_header ts) = h ->
  0 <= h -> now <= trust_expires_at ts ->
  let f := forged (lc_chain_id v) sk (h + 1) block_hash state_root in
  (verify f now v).2 = Valid /\ ts_header <$> trusted_state_at (verify f now v).1 (h + 1) = Some f.
Proof.
  intros Hsz Hl Hts Hh Hh0 Hnow f. unfold verify.
  replace (saturating_sub (lh_height f) 1) with h by (cbn; u64_lia). rewrite (best_latest v h ts Hl Hts).
  destruct (Z.ltb_spec (trust_expires_at ts) now); [lia|].
  unfold f. rewrite forged_certificate. cbn -[add_trusted].
  replace (saturating_sub (h + 1) (lh_height (ts_header ts))) with 1 by u64_lia. cbn -[add_trusted].
  split; [done|]. unfold add_trusted, trusted_state_at. cbn -[trim_oldest].
  set (m := <[h + 1 := _]> (trusted_states v)).
  destruct (trim_oldest_spec MAX_TRUSTED (size m) m) as (Hs & Hsub & Hkeep); [lia|].
  assert (Hmax : forall k, is_Some (m !! k) -> k <= h + 1).
  { intros k [x [[<- _]|[_ Hk]]%lookup_insert_Some]; [lia|]. unfold latest_trusted_height in Hl.
    destruct (last (btree_iter (trusted_states v))) as [[k' x']|] eqn:E; [|done]. injection Hl as ->.
    apply btree_iter_last in E as [_ Hm]. specialize (Hm k (ex_intro _ x Hk)). lia. }
  destruct (trim_oldest MAX_TRUSTED (size m) m !! (h + 1)) as [x|] eqn:Ex.
  { apply (lookup_weaken _ _ _ _ Ex) in Hsub. unfold m in Hsub. rewrite lookup_insert_eq in Hsub.
    by injection Hsub as <-. }
  exfalso. assert (Hne : trim_oldest MAX_TRUSTED (size m) m <> ∅).
  { intros E. rewrite E, map_size_empty in Hs. unfold MAX_TRUSTED in *.
    assert (size m <> 0%nat) by (apply map_size_ne_0_lookup; exists (h + 1); eexists; apply lookup_insert_eq). lia. }
  apply map_choose in Hne as (k & y & Hk).
  assert (h + 1 < k) by (apply Hkeep; [by eexists|unfold m; rewrite lookup_insert_eq; by eexists|done]).
  assert (k <= h + 1) by (apply Hmax; eexists; by eapply lookup_weaken). lia.
Qed.
End forgery.

(** ** Vote messages *)

(** A vote cannot be replayed: the signed message determines the chain, the
    height, the round and the block, for chain identifiers shorter than the
    256 bytes its length prefix can hold. *)
Theorem bls_vote_message_injective c c' h h' r r' b b' :
  (String.length c < 256)%nat -> (String.length c' < 256)%nat ->
  is_u64 h -> is_u64 h' -> 0 <= r < 2 ^ 32 -> 0 <= r' < 2 ^ 32 ->
  bls_vote_message c h r b = bls_vote_message c' h' r' b' -> c = c' /\ h = h' /\ r = r' /\ b = b'.
Proof.
  intros Hc Hc' Hh Hh' Hr Hr' E.
  unfold bls_vote_message in E. rewrite !length_bytes_of_string, !Z.mod_small in E by lia.
  apply app_inj_1 in E as [[= El] E]; [|done]. apply Nat2Z.inj in El.
  apply app_inj_1 in E as [Ec E]; [|by rewrite !length_bytes_of_string]. apply app_inj_1 in E as [_ E]; [|done].
  apply app_inj_1 in E as [Eh E]; [|by rewrite !length_to_le_bytes].
  apply app_inj_1 in E as [Er E]; [|by rewrite !length_to_le_bytes].
  split_and!; [by apply bytes_of_string_inj|by apply to_le_bytes_inj| |done].
  apply (f_equal from_le_bytes) in Er. by rewrite !from_to_le_bytes in Er by (simpl; lia).
Qed.

(** ** Merkle proofs *)

Section merkle.
Context `{Blake3}.

Lemma sorted_pair_comm a b : sorted_pair a b = sorted_pair b a.
Proof.
  unfold sorted_pair. destruct (bytes_leb a b) eqn:Eab, (bytes_leb b a) eqn:Eba; try done.
  - by rewrite (bytes_leb_antisym a b).
  - pose proof (bytes_leb_total a b) as Ht. by rewrite Eab, Eba in Ht.
Qed.

Lemma next_level_spec n level :
  length level = (2 * n)%nat ->
  length (next_level level) = n /\
  forall i a b, level !! (2 * i)%nat = Some a -> level !! S (2 * i) = Some b ->
    next_level level !! i = Some (sorted_pair a b).
Proof.
  revert level. induction n as [|n IH]; intros level Hl.
  { destruct level; [|done]. split; [done|]. intros i a b Ha. by rewrite lookup_nil in Ha. }
  destruct level as [|a0 [|b0 level]]; simpl in Hl; try lia.
  destruct (IH level) as [Hn Hi]; [lia|]. cbn [next_level]. split; [simpl; lia|].
  intros [|i] a b.
  - simpl. by intros [= ->] [= ->].
  - replace (2 * S i)%nat with (S (S (2 * i))) by lia. simpl. intros Ha Hb. by apply Hi.
Qed.

(** Each round of the loop replaces the target by its parent. *)
Lemma next_level_parent n level i x :
  length level = (2 * n)%nat -> level !! i = Some x ->
  exists y, level !! (if Nat.even i then S i else pred i) = Some y /\
    next_level level !! (i / 2)%nat = Some (sorted_pair x y).
Proof.
  intros Hl Hx. destruct (next_level_spec n level Hl) as [_ Hs].
  pose proof (lookup_lt_Some _ _ _ Hx) as Hi. destruct (Nat.even i) eqn:Ee.
  - apply Nat.even_spec in Ee as [j ->]. replace (2 * j / 2)%nat with j by (rewrite Nat.mul_comm, Nat.div_mul; lia).
    destruct (lookup_lt_is_Some_2 level (S (2 * j))) as [y Hy]; [lia|]. exists y. split; [done|]. by apply Hs.
  - assert (Ho : Nat.odd i = true) by (by rewrite <- Nat.negb_even, Ee). apply Nat.odd_spec in Ho as [j ->].
    destruct (lookup_lt_is_Some_2 level (2 * j)) as [y Hy]; [lia|]. exists y.
    rewrite Nat.add_1_r in *. split; [done|]. rewrite sorted_pair_comm.
    replace (S (2 * j) / 2)%nat with j by (apply (Nat.div_unique _ _ _ 1); lia). by apply Hs.
Qed.

Lemma proof_loop_correct k fuel level i x acc :
  length level = (2 ^ k)%nat -> (k <= fuel)%nat -> level !! i = Some x ->
  exists path root, proof_loop fuel level i acc = (acc ++ path, root) /\ foldl sorted_pair x path = root.
Proof.
  revert k level i x acc. induction fuel as [|fuel IH]; intros k level i x acc Hl Hk Hx.
  - assert (k = 0%nat) as -> by lia. destruct level as [|y [|]]; try done.
    destruct i; [|done]. injection Hx as <-. exists [], y. split; [|done]. simpl. by rewrite app_nil_r.
  - cbn [proof_loop]. destruct (decide (1 < length level)%nat) as [Hlt|Hge].
    + destruct k as [|k]; [simpl in Hl; lia|]. rewrite Nat.pow_succ_r' in Hl.
      destruct (next_level_parent _ level i x Hl Hx) as (y & Hy & Hp). rewrite Hy. cbn [from_option id].
      destruct (IH k (next_level level) (i / 2)%nat (sorted_pair x y) (acc ++ [y])) as (path & rt & -> & Hf);
        [by apply next_level_spec|lia|done|].
      exists (y :: path), rt. split; [by rewrite <- app_assoc|done].
    + destruct level as [|y [|]]; simpl in *; [by rewrite lookup_nil in Hx| |lia].
      destruct i; [|done]. injection Hx as <-. exists [], y. split; [by rewrite app_nil_r|done].
Qed.

(** *** Padding *)

Lemma count_ones_pos_pow p : count_ones_pos p = 1%nat <-> exists k, Pos.to_nat p = (2 ^ k)%nat.
Proof.
  assert (Hpos : forall p, (0 < count_ones_pos p)%nat) by (induction p0; simpl; lia).
  induction p as [p IH|p IH|]; simpl.
  - split; [specialize (Hpos p); lia|]. intros [k Hk]. rewrite Pos2Nat.inj_xI in Hk.
    pose proof (Pos2Nat.is_pos p). destruct k as [|k]; [simpl in Hk; lia|]. rewrite Nat.pow_succ_r' in Hk. lia.
  - rewrite IH, Pos2Nat.inj_xO. split; intros [k Hk].
    + exists (S k). rewrite Nat.pow_succ_r'. lia.
    + destruct k as [|k]; [simpl in Hk; lia|]. exists k. rewrite Nat.pow_succ_r' in Hk. lia.
  - split; [by exists 0%nat|done].
Qed.

Lemma count_ones_pow n : count_ones n = 1%nat <-> exists k, n = (2 ^ k)%nat.
Proof.
  unfold count_ones. destruct n as [|n].
  - simpl. split; [done|]. intros [k Hk]. pose proof (Nat.pow_nonzero 2 k). lia.
  - change (N.of_nat (S n)) with (Npos (Pos.of_succ_nat n)). rewrite count_ones_pos_pow, SuccNat2Pos.id_succ. done.
Qed.

Lemma pad_spec fuel l k :
  (length l <= 2 ^ k)%nat -> (2 ^ k <= length l + fuel)%nat ->
  (exists k', length (pad fuel l) = (2 ^ k')%nat) /\ exists z, pad fuel l = l ++ z.
Proof.
  revert l. induction fuel as [|fuel IH]; intros l Hle Hge; cbn [pad].
  { split; [exists k; lia|exists []; by rewrite app_nil_r]. }
  destruct (decide (count_ones (length l) = 1%nat)) as [Hc|Hc].
  { split; [by apply count_ones_pow|exists []; by rewrite app_nil_r]. }
  assert (length l <> (2 ^ k)%nat) by (intros E; apply Hc, count_ones_pow; by exists k).
  destruct (IH (l ++ [zero32])) as [Hk [z Hz]]; [rewrite length_app; simpl; lia..|].
  split; [done|]. exists (zero32 :: z). rewrite Hz, <- app_assoc. done.
Qed.

Lemma build_proof_correct leaves i x :
  leaves !! i = Some x ->
  foldl sorted_pair x (build_proof_from_leaves leaves i).1 = (build_proof_from_leaves leaves i).2.
Proof.
  intros Hx. destruct leaves as [|y [|z leaves]]; [done| |].
  { destruct i; [|done]. by injection Hx as <-. }
  set (l := y :: z :: leaves) in *. assert (Hll : (0 < length l)%nat) by (simpl; lia).
  change (build_proof_from_leaves l i) with
    (let padded := pad (S (length l)) l in proof_loop (length padded) padded i []). cbv zeta.
  assert (Hlog : (2 ^ pred (Nat.log2_up (length l)) < length l <= 2 ^ Nat.log2_up (length l))%nat)
    by (apply Nat.log2_up_spec; simpl; lia).
  assert (Hup : (0 < Nat.log2_up (length l))%nat) by (apply Nat.log2_up_pos; simpl; lia).
  destruct (pad_spec (S (length l)) l (Nat.log2_up (length l))) as [[k Hk] [w Hw]]; [lia| |].
  { replace (Nat.log2_up (length l)) with (S (pred (Nat.log2_up (length l)))) by lia.
    rewrite Nat.pow_succ_r'. lia. }
  destruct (proof_loop_correct k (length (pad (S (length l)) l)) (pad (S (length l)) l) i x [])
    as (path & rt & -> & Hf); [done| | |done].
  - rewrite Hk. pose proof (Nat.pow_gt_lin_r 2 k). lia.
  - rewrite Hw. by apply lookup_app_l_Some.
Qed.

(** Honest proofs of an object's state at an epoch verify: for every set of
    snapshots and every index, the Merkle path and root a full node builds are
    accepted, and the verifier reports the lazily evaluated energy and state of
    that very snapshot. *)
Theorem epoch_proof_roundtrip snapshots i s rules query_epoch height ah :
  snapshots !! i = Some s -> sn_anchor_epoch s <= query_epoch ->
  let '(path, root) := build_merkle_proof snapshots i in
  verify_epoch_proof
    {| ep_object_id := sn_object_id s; ep_snapshot := s; merkle_proof_path := path;
       ep_anchor_state_root := root; ep_anchor_hash := ah; ep_anchor_epoch := sn_anchor_epoch s;
       ep_decay_rules_hash := rules_hash rules; ep_decay_rules := rules; ep_query_epoch := query_epoch;
       commitment_block_height := height |}
  = Ok {| er_object_id := sn_object_id s; er_query_epoch := query_epoch;
          er_energy := LazyStateEvaluator.energy_at s rules query_epoch;
          er_state := LazyStateEvaluator.state_at s rules query_epoch;
          er_anchor_epoch := sn_anchor_epoch s |}.
Proof.
  intros Hs Hq. unfold build_merkle_proof. rewrite decide_False.
  2:{ intros [->|Hle]; [done|]. apply lookup_lt_Some in Hs. lia. }
  pose proof (build_proof_correct ((fun s => blake3 (serialize_snapshot s)) <$> snapshots) i
    (blake3 (serialize_snapshot s))) as Hp. rewrite list_lookup_fmap, Hs in Hp. specialize (Hp eq_refl).
  destruct (build_proof_from_leaves _ i) as [path root]. simpl in Hp.
  unfold verify_epoch_proof, verify_merkle_proof. cbn -[LazyStateEvaluator.energy_at LazyStateEvaluator.state_at].
  destruct (Z.ltb_spec query_epoch (sn_anchor_epoch s)); [lia|].
  rewrite Z.eqb_refl, !bool_decide_false by naive_solver. rewrite bool_decide_true by done. done.
Qed.

(** A trusted block does not make an epoch proof trustworthy: the verifier
    never compares the proof's root with the trusted header, so for every
    trusted height and every snapshot anybody cares to invent there is a
    proof that is accepted. *)
Theorem epoch_proof_unbound (lc : LightClientVerifier) height ts s rules query_epoch :
  trusted_state_at lc height = Some ts -> sn_anchor_epoch s <= query_epoch ->
  exists p, ep_snapshot p = s /\ commitment_block_height p = height /\
    verify_with_trust p lc =
      Ok {| er_object_id := sn_object_id s; er_query_epoch := query_epoch;
            er_energy := LazyStateEvaluator.energy_at s rules query_epoch;
            er_state := LazyStateEvaluator.state_at s rules query_epoch;
            er_anchor_epoch := sn_anchor_epoch s |}.
Proof.
  intros Hts Hq.
  exists {| ep_object_id := sn_object_id s; ep_snapshot := s; merkle_proof_path := [];
     ep_anchor_state_root := blake3 (serialize_snapshot s); ep_anchor_hash := []; ep_anchor_epoch := sn_anchor_epoch s;
     ep_decay_rules_hash := rules_hash rules; ep_decay_rules := rules; ep_query_epoch := query_epoch;
     commitment_block_height := height |}.
  split_and!; [done..|]. unfold verify_with_trust. cbn [commitment_block_height]. rewrite Hts.
  unfold verify_epoch_proof, verify_merkle_proof. cbn -[LazyStateEvaluator.energy_at LazyStateEvaluator.state_at].
  destruct (Z.ltb_spec query_epoch (sn_anchor_epoch s)); [lia|].
  rewrite Z.eqb_refl, !bool_decide_false by naive_solver. rewrite bool_decide_true by done. done.
Qed.
End merkle.

(** ** A concrete client *)

Module ToyClient.
(** Signatures that name their signers. *)
#[global] Instance toy_blst : Blst :=
  {| blst_key_ok _ := true;
     fast_aggregate_verify sig msg pks := bool_decide (sig = concat pks ++ msg) |}.

#[global] Instance toy_signer : BlstSigner.
Proof.
  refine {| public_key sk := sk; sign sk msg := sk ++ msg |}; [done|].
  intros sk msg. apply bool_decide_true. simpl. by rewrite app_nil_r.
Defined.

Definition genesis : LightBlockHeader := forged "evapor" [5] 0 zero32 zero32.
Definition next : LightBlockHeader := forged "evapor" [5] 1 (replicate 32 1) zero32.
Definition client : LightClientVerifier := with_trust_period genesis 0 1000 "evapor".

Definition snap (e : Z) : ObjectSnapshot :=
  {| sn_object_id := Toy.key 1 1; energy_at_anchor := e; sn_half_life := 10; sn_anchor_epoch := 5;
     sn_state := LActive; sn_grace_epoch := None |}.
End ToyClient.


Lemma next_header_forgery_witness :
  (verify (forged "evapor" [66] 1 (replicate 32 9) (replicate 32 9)) 10 ToyClient.client).2 = Valid.
Proof.
  apply (next_header_forgery ToyClient.client 0 {| ts_header := ToyClient.genesis; trust_expires_at := 1000 |} 10 [66]
    (replicate 32 9) (replicate 32 9)).
  all: first [by vm_compute | unfold MAX_TRUSTED; vm_compute; lia].
Defined.

Lemma bls_vote_message_injective_witness :
  "evapor"%string = "evapor"%string /\ 7 = 7 /\ 3 = 3 /\ zero32 = zero32.
Proof.
  apply (bls_vote_message_injective "evapor" "evapor" 7 7 3 3 zero32 zero32);
    first [reflexivity | simpl; lia | unfold is_u64, U64_MAX; lia].
Defined.

Lemma epoch_proof_roundtrip_witness :
  exists r, (let '(path, root) := build_merkle_proof [ToyClient.snap 1; ToyClient.snap 2; ToyClient.snap 3] 1 in
    verify_epoch_proof
      {| ep_object_id := Toy.key 1 1; ep_snapshot := ToyClient.snap 2; merkle_proof_path := path;
         ep_anchor_state_root := root; ep_anchor_hash := []; ep_anchor_epoch := 5;
         ep_decay_rules_hash := rules_hash default_rules; ep_decay_rules := default_rules; ep_query_epoch := 9;
         commitment_block_height := 0 |}) = Ok r.
Proof.
  pose proof (epoch_proof_roundtrip [ToyClient.snap 1; ToyClient.snap 2; ToyClient.snap 3] 1 (ToyClient.snap 2)
    default_rules 9 0 [] eq_refl ltac:(simpl; lia)) as E.
  destruct (build_merkle_proof _ _) as [path root]. simpl in E. rewrite E. by eexists.
Defined.

Lemma epoch_proof_unbound_witness :
  exists p, ep_snapshot p = ToyClient.snap 999999 /\ exists r, verify_with_trust p ToyClient.client = Ok r.
Proof.
  destruct (epoch_proof_unbound ToyClient.client 0 {| ts_header := ToyClient.genesis; trust_expires_at := 1000 |}
    (ToyClient.snap 999999) default_rules 5 eq_refl ltac:(simpl; lia)) as (p & Hs & _ & Hv).
  exists p. split; [exact Hs|]. rewrite Hv. by eexists.
Defined.
