(* ===== verification/Finality.v ===== *)
(** * Finality tracking

    crates/evaporchain-consensus/src/finality.rs: which blocks are irreversibly
    final, back-fill and its guards, pruning and the watermark that keeps pruned
    heights closed, and finality proofs. *)

From stdpp Require Import base gmap list strings.
From Stdlib Require Import ZArith Lia SpecFloat.
From S2P Require Import Prelude Types Trie StateDB Validators Anchor LightClient.

Open Scope Z_scope.

Record FinalityRecord := {
  fr_height : Z;
  fr_block_hash : bytes;
  fr_state_root : bytes;
  fr_epoch : Z;
  finalized_at : Z;
  certificate : CommitCertificate;
  signer_count : Z;
  signing_stake : Z;
  fr_total_stake : Z;
  da_confirmed : bool;
}.

Definition participation_rate (r : FinalityRecord) : F64.f64 :=
  if fr_total_stake r =? 0 then F64.zero else F64.lit (signing_stake r) (fr_total_stake r).

Definition has_supermajority (r : FinalityRecord) : bool := fr_total_stake r * 2 <? signing_stake r * 3.

Record FinalityProof := {
  fp_height : Z;
  fp_block_hash : bytes;
  fp_state_root : bytes;
  fp_certificate : CommitCertificate;
  proof_hash : bytes;
}.

Inductive FinalityStatus := Finalized (confirmations : Z) | PendingFinality | UnknownHeight.

Record FinalityStats := {
  finalized_count : Z;
  avg_participation : F64.f64;
  min_participation : F64.f64;
  max_participation : F64.f64;
  high_participation_count : Z;
}.

(** A [BTreeSet] is a map to [unit]. *)
Record FinalityTracker := {
  records : gmap Z FinalityRecord;
  latest_finalized : Z;
  max_records : nat;
  total_finalized : Z;
  seen_proposals : gmap Z unit;
  max_seen : nat;
  superseded_floor : Z;
}.

Definition tracker_new : FinalityTracker :=
  {| records := ∅; latest_finalized := 0; max_records := Z.to_nat 10000; total_finalized := 0;
     seen_proposals := ∅; max_seen := Z.to_nat 20000; superseded_floor := 0 |}.

Definition with_max_records (n : nat) : FinalityTracker :=
  {| records := ∅; latest_finalized := 0; max_records := n; total_finalized := 0;
     seen_proposals := ∅; max_seen := n * 2; superseded_floor := 0 |}.

Definition observe_proposal (h : Z) (t : FinalityTracker) : FinalityTracker :=
  let fresh := bool_decide (seen_proposals t !! h = None) in
  let s := <[ h := tt ]> (seen_proposals t) in
  let s := if fresh && bool_decide (max_seen t < size s)%nat
           then match oldest s with Some o => base.delete o s | None => s end
           else s in
  {| records := records t; latest_finalized := latest_finalized t; max_records := max_records t;
     total_finalized := total_finalized t; seen_proposals := s; max_seen := max_seen t;
     superseded_floor := superseded_floor t |}.

(** The pruning loop: the record limit, the records and the watermark. *)
Fixpoint prune (cap fuel : nat) (m : gmap Z FinalityRecord) (floor : Z) : gmap Z FinalityRecord * Z :=
  match fuel with
  | O => (m, floor)
  | S fuel' =>
      if decide (cap < size m)%nat then
        match oldest m with
        | Some o => prune cap fuel' (base.delete o m) (if floor <? o then o else floor)
        | None => (m, floor)
        end
      else (m, floor)
  end.

(** The guards, in order. *)
Definition rejects (is_active : option (Z -> bool)) (h : Z) (cert : CommitCertificate) (signing total : Z)
    (t : FinalityTracker) : bool :=
  match is_active with
  | Some pred => negb (bool_decide (filter (fun id => pred id = false) (signer_ids cert) = []))
  | None => false
  end
  || bool_decide (is_Some (records t !! h))
  || ((0 <? h) && (h <=? superseded_floor t))
  || ((0 <? latest_finalized t) && (h <? latest_finalized t) && bool_decide (seen_proposals t !! h = None))
  || bool_decide (signer_ids cert = [])
  || ((0 <? total) && (signing * 3 <=? total * 2)).

Definition on_block_finalized_with_active (h : Z) (hash root : bytes) (epoch : Z) (cert : CommitCertificate)
    (signing total ts : Z) (is_active : option (Z -> bool)) (t : FinalityTracker) : FinalityTracker * bool :=
  if rejects is_active h cert signing total t then (t, false)
  else
    let r := {| fr_height := h; fr_block_hash := hash; fr_state_root := root; fr_epoch := epoch;
                finalized_at := ts; certificate := cert; signer_count := Z.of_nat (length (signer_ids cert));
                signing_stake := signing; fr_total_stake := total; da_confirmed := false |} in
    let m := <[ h := r ]> (records t) in
    let '(m', floor) := prune (max_records t) (size m) m (superseded_floor t) in
    ({| records := m';
        latest_finalized := if latest_finalized t <? h then h else latest_finalized t;
        max_records := max_records t; total_finalized := wrapping_add (total_finalized t) 1;
        seen_proposals := seen_proposals t; max_seen := max_seen t; superseded_floor := floor |}, true).

Definition on_block_finalized (h : Z) (hash root : bytes) (epoch : Z) (cert : CommitCertificate)
    (signing total ts : Z) (t : FinalityTracker) : FinalityTracker * bool :=
  on_block_finalized_with_active h hash root epoch cert signing total ts None t.

(** ** Queries *)

Definition finality_status (h : Z) (t : FinalityTracker) : FinalityStatus :=
  if (h =? 0) || (latest_finalized t <? h) then
    if bool_decide (is_Some (records t !! h)) then Finalized 0 else UnknownHeight
  else Finalized (saturating_sub (latest_finalized t) h).

Definition is_block_finalized (h : Z) (hash : bytes) (t : FinalityTracker) : bool :=
  match records t !! h with
  | Some r => bool_decide (fr_block_hash r = hash)
  | None => false
  end.

Definition get_record (h : Z) (t : FinalityTracker) : option FinalityRecord := records t !! h.

Definition record_count (t : FinalityTracker) : Z := Z.of_nat (size (records t)).

Definition finality_gap (from to : Z) : option Z := if to <? from then None else Some (saturating_sub to from).

Definition records_in_range (from to : Z) (t : FinalityTracker) : list FinalityRecord :=
  snd <$> filter (fun p => from <= p.1 <= to) (btree_iter (records t)).

Definition F64_MAX : F64.f64 := S754_finite false 9007199254740991 971.
Definition F64_MIN : F64.f64 := S754_finite true 9007199254740991 971.

(** One step of the statistics: total, least, greatest, above nine tenths. *)
Definition stat_step (s : F64.f64 * F64.f64 * F64.f64 * Z) (r : FinalityRecord) : F64.f64 * F64.f64 * F64.f64 * Z :=
  let '(total, lo, hi, high) := s in
  let p := participation_rate r in
  (F64.add total p, if SFltb p lo then p else lo, if SFltb hi p then p else hi,
   if SFltb (F64.lit 90 100) p then wrapping_add high 1 else high).

Definition stats (window : nat) (t : FinalityTracker) : FinalityStats :=
  match take window (reverse (snd <$> btree_iter (records t))) with
  | [] => {| finalized_count := 0; avg_participation := F64.zero; min_participation := F64.zero;
             max_participation := F64.zero; high_participation_count := 0 |}
  | rs =>
      let '(total, lo, hi, high) := foldl stat_step (F64.zero, F64_MAX, F64_MIN, 0) rs in
      {| finalized_count := Z.of_nat (length rs);
         avg_participation := SFdiv 53 1024 total (F64.of_int (Z.of_nat (length rs)));
         min_participation := lo; max_participation := hi; high_participation_count := high |}
  end.

(** ** Proofs *)

Section proofs.
Context `{Blake3}.

Definition proof_input (h : Z) (hash root : bytes) (cert : CommitCertificate) : bytes :=
  to_le_bytes 8 h ++ to_le_bytes 4 (c_round cert) ++ hash ++ root
    ++ to_le_bytes 8 (Z.of_nat (length (signer_ids cert)))
    ++ concat (to_le_bytes 8 <$> signer_ids cert) ++ aggregate_signature cert.

Definition compute_proof_hash (h : Z) (hash root : bytes) (cert : CommitCertificate) : bytes :=
  blake3 (proof_input h hash root cert).

Definition generate_proof (h : Z) (t : FinalityTracker) : option FinalityProof :=
  r ← records t !! h;
  Some {| fp_height := fr_height r; fp_block_hash := fr_block_hash r; fp_state_root := fr_state_root r;
          fp_certificate := certificate r;
          proof_hash := compute_proof_hash (fr_height r) (fr_block_hash r) (fr_state_root r) (certificate r) |}.

Definition verify_proof (p : FinalityProof) : bool :=
  let c := fp_certificate p in
  bool_decide (compute_proof_hash (fp_height p) (fp_block_hash p) (fp_state_root p) c = proof_hash p)
  && (c_height c =? fp_height p) && bool_decide (c_block_hash c = fp_block_hash p)
  && negb (bool_decide (signer_ids c = [])).
End proofs.

(** ** Irreversibility *)

Inductive FinalityOp :=
| FObserve (h : Z)
| FFinalize (h : Z) (hash root : bytes) (epoch : Z) (cert : CommitCertificate) (signing total ts : Z)
    (is_active : option (Z -> bool)).

Definition run_fop (t : FinalityTracker) (op : FinalityOp) : FinalityTracker :=
  match op with
  | FObserve h => observe_proposal h t
  | FFinalize h hash root epoch cert signing total ts act =>
      (on_block_finalized_with_active h hash root epoch cert signing total ts act t).1
  end.

Lemma prune_spec cap fuel m floor :
  (size m <= fuel + cap)%nat ->
  let '(m', floor') := prune cap fuel m floor in
  (size m' <= cap)%nat /\ m' ⊆ m /\ floor <= floor' /\
  (forall h, is_Some (m !! h) -> m' !! h = None -> h <= floor') /\
  (forall h, is_Some (m' !! h) -> floor < h -> floor' < h) /\
  (floor' = floor \/ is_Some (m !! floor')).
Proof.
  revert m floor. induction fuel as [|fuel IH]; intros m floor Hsz; cbn [prune].
  { split_and!; [lia|done|lia| |done|by left]. intros h [x Hx] Hn. congruence. }
  destruct (decide (cap < size m)%nat) as [Hlt|Hge].
  2:{ split_and!; [lia|done|lia| |done|by left]. intros h [x Hx] Hn. congruence. }
  destruct (oldest m) as [o|] eqn:Ho.
  2:{ apply oldest_None in Ho as ->. rewrite map_size_empty in Hlt. lia. }
  destruct (oldest_spec m o Ho) as [[x Hx] Hmin].
  assert (Hdel : size (base.delete o m) = pred (size m)) by (rewrite map_size_delete_Some; done || lia).
  specialize (IH (base.delete o m) (if floor <? o then o else floor) ltac:(lia)).
  destruct (prune _ _ _ _) as [m' floor']. destruct IH as (Hs & Hsub & Hf & Hgone & Hkept & Hwhich).
  assert (Hfo : floor <= floor' /\ o <= floor') by (destruct (Z.ltb_spec floor o); lia). split_and!.
  - done.
  - etrans; [exact Hsub|apply delete_subseteq].
  - lia.
  - intros h Hh Hn. destruct (decide (h = o)) as [->|Hne]; [lia|]. apply Hgone; [|done]. by rewrite lookup_delete_ne.
  - intros h [y Hy] Hh. apply Hkept; [by eexists|]. assert (Hd : base.delete o m !! h = Some y) by (by eapply lookup_weaken).
    apply lookup_delete_Some in Hd as [Hne Hm]. specialize (Hmin h (ex_intro _ y Hm)).
    destruct (Z.ltb_spec floor o); lia.
  - destruct Hwhich as [->|[y Hy%lookup_delete_Some]].
    + destruct (floor <? o); [|by left]. right. by eexists.
    + right. naive_solver.
Qed.

(** What every record and the watermarks satisfy. *)
Record tracker_ok (t : FinalityTracker) : Prop := {
  to_size : (size (records t) <= max_records t)%nat;
  to_seen : (size (seen_proposals t) <= max_seen t)%nat;
  to_record : forall h r, records t !! h = Some r ->
    fr_height r = h /\ signer_ids (certificate r) <> [] /\
    (0 < fr_total_stake r -> has_supermajority r = true) /\
    h <= latest_finalized t /\ (0 < h -> superseded_floor t < h);
  to_floor : superseded_floor t <= latest_finalized t;
}.

(** An accepted finalization passed every guard. *)
Lemma rejects_false act h cert signing total t :
  rejects act h cert signing total t = false ->
  records t !! h = None /\ ~ (0 < h <= superseded_floor t) /\ signer_ids cert <> [] /\
  (0 < total -> total * 2 < signing * 3).
Proof.
  unfold rejects. rewrite !orb_false_iff, !andb_false_iff, !bool_decide_eq_false, !Z.ltb_ge, !Z.leb_gt.
  intros (((((_ & Hr) & Hf) & _) & Hs) & Hq). split_and!; [by apply eq_None_not_Some|lia|done|lia].
Qed.

Lemma seen_step h t :
  (size (seen_proposals t) <= max_seen t)%nat ->
  (size (seen_proposals (observe_proposal h t)) <= max_seen t)%nat.
Proof.
  intros Hs. cbn. destruct (seen_proposals t !! h) as [[]|] eqn:E.
  { rewrite bool_decide_eq_false_2 by done. cbn. rewrite map_size_insert, E. done. }
  rewrite bool_decide_eq_true_2 by done. cbn [andb]. set (s := <[ h := tt ]> (seen_proposals t)).
  assert (Hsz : size s = S (size (seen_proposals t))) by (unfold s; rewrite map_size_insert, E; done).
  case_bool_decide as Hc; [|lia]. destruct (oldest s) as [o|] eqn:Ho.
  - destruct (oldest_spec s o Ho) as [[x Hx] _]. rewrite map_size_delete_Some by (by eexists). lia.
  - apply oldest_None in Ho. rewrite Ho, map_size_empty in Hsz. lia.
Qed.

Lemma run_fop_ok t op : tracker_ok t -> tracker_ok (run_fop t op).
Proof.
  intros [Hs Hp Hr Hf]. destruct op as [h|h hash root epoch cert signing total ts act]; cbn [run_fop].
  { split; [done|exact (seen_step h t Hp)|done|done]. }
  unfold on_block_finalized_with_active. destruct (rejects act h cert signing total t) eqn:E; [done|].
  apply rejects_false in E as (Hnone & Hfloor & Hsigned & Hquorum). match goal with |- context [<[ h := ?y ]> _] => set (r := y) end.
  pose proof (prune_spec (max_records t) (size (<[ h := r ]> (records t))) (<[ h := r ]> (records t))
    (superseded_floor t) ltac:(lia)) as Hprune.
  destruct (prune _ _ _ _) as [m' floor]. destruct Hprune as (Hsz & Hsub & Hge & _ & Hkept & Hwhich).
  assert (Hcases : forall k x, <[ h := r ]> (records t) !! k = Some x -> (k = h /\ x = r) \/ records t !! k = Some x).
  { intros k x. rewrite lookup_insert_Some. naive_solver. }
  split; cbn; [done|done| |].
  - intros k x Hk. assert (Hin : <[ h := r ]> (records t) !! k = Some x) by (by eapply lookup_weaken).
    specialize (Hkept k ltac:(by eexists)).
    destruct (Hcases k x Hin) as [[-> ->]|Hold].
    + split_and!; try done; [|destruct (Z.ltb_spec (latest_finalized t) h); lia|lia].
      intros Ht. unfold has_supermajority. cbn. apply Z.ltb_lt. by apply Hquorum.
    + destruct (Hr k x Hold) as (? & ? & ? & ? & ?). split_and!; try done; [destruct (Z.ltb_spec (latest_finalized t) h)|]; lia.
  - destruct Hwhich as [->|[x Hx]]; [destruct (Z.ltb_spec (latest_finalized t) h); lia|].
    destruct (Hcases _ _ Hx) as [[-> _]|Hold]; [destruct (Z.ltb_spec (latest_finalized t) h); lia|].
    destruct (Hr _ _ Hold) as (_ & _ & _ & ? & _). destruct (Z.ltb_spec (latest_finalized t) h); lia.
Qed.

(** Every record of the tracker is signed by strictly more than two thirds of
    the stake it was given, no record lies above the latest finalized height or
    at or below the watermark of pruned heights, and memory stays bounded,
    whatever is observed and finalized in whatever order. *)
Theorem finality_invariant n ops : tracker_ok (foldl run_fop (with_max_records n) ops).
Proof.
  assert (Ht : tracker_ok (with_max_records n)) by (split; cbn; [rewrite map_size_empty; lia|rewrite map_size_empty; lia|done|lia]).
  revert Ht. generalize (with_max_records n). induction ops as [|op ops IH]; intros t Ht; [done|].
  simpl. by apply IH, run_fop_ok.
Qed.

(** C19: finality is irreversible: once a height above 0 has a record, it has that
    record for ever or it is pruned and closed, and no later certificate,
    however signed, can put another block there. *)
Theorem finality_irreversible t h r ops :
  0 < h -> records t !! h = Some r ->
  let t' := foldl run_fop t ops in
  records t' !! h = Some r \/ records t' !! h = None /\ h <= superseded_floor t'.
Proof.
  intros Hh Hr. assert (Hinv : records t !! h = Some r \/ records t !! h = None /\ h <= superseded_floor t) by (by left).
  clear Hr. revert t Hinv. induction ops as [|op ops IH]; intros t Hinv; [done|]. simpl. apply IH. clear IH.
  destruct op as [k|k hash root epoch cert signing total ts act]; [done|]. cbn [run_fop].
  unfold on_block_finalized_with_active. destruct (rejects act k cert signing total t) eqn:E; [done|].
  apply rejects_false in E as (Hnone & Hfloor & _). match goal with |- context [<[ k := ?y ]> _] => set (x := y) end.
  pose proof (prune_spec (max_records t) (size (<[ k := x ]> (records t))) (<[ k := x ]> (records t))
    (superseded_floor t) ltac:(lia)) as Hprune.
  destruct (prune _ _ _ _) as [m' floor]. destruct Hprune as (_ & Hsub & Hge & Hgone & _). cbn.
  assert (Hk : k <> h) by (intros ->; destruct Hinv as [?|[? ?]]; [congruence|lia]).
  destruct (m' !! h) as [y|] eqn:Ey.
  - left. assert (Hy : <[ k := x ]> (records t) !! h = Some y) by (by eapply lookup_weaken).
    rewrite lookup_insert_ne in Hy by done. destruct Hinv as [?|[? ?]]; congruence.
  - right. split; [done|]. destruct Hinv as [Hr|[? ?]]; [|lia]. apply Hgone; [|done].
    rewrite lookup_insert_ne by done. by eexists.
Qed.

(** ** Proofs *)

Section proof_laws.
Context `{Blake3}.

(** A finality proof generated for a record whose certificate is for its block
    verifies. *)
Theorem finality_proof_roundtrip t h r :
  tracker_ok t -> records t !! h = Some r ->
  c_height (certificate r) = h -> c_block_hash (certificate r) = fr_block_hash r ->
  exists p, generate_proof h t = Some p /\ verify_proof p = true /\
    fp_height p = h /\ fp_block_hash p = fr_block_hash r /\ fp_state_root p = fr_state_root r.
Proof.
  intros Ht Hr Hh Hb. destruct (to_record t Ht h r Hr) as (Eh & Hs & _).
  unfold generate_proof. rewrite Hr. simpl. eexists. split_and!; try done. unfold verify_proof. cbn.
  rewrite bool_decide_eq_true_2 by done. rewrite Hh, Eh, Z.eqb_refl, bool_decide_eq_true_2 by done.
  by rewrite bool_decide_eq_false_2.
Qed.

Lemma signers_concat_inj (l k : list Z) r s :
  Forall is_u64 l -> Forall is_u64 k -> length l = length k ->
  concat (to_le_bytes 8 <$> l) ++ r = concat (to_le_bytes 8 <$> k) ++ s -> l = k /\ r = s.
Proof.
  intros Hl. revert k. induction Hl as [|x l Hx Hl IH]; intros [|y k] Hk Hlen E; try done.
  apply Forall_cons in Hk as [Hy Hk]. cbn [fmap list_fmap concat] in E. rewrite <- !app_assoc in E.
  apply app_inj_1 in E as [Ex E]; [|by rewrite !length_to_le_bytes]. apply to_le_bytes_inj in Ex; [|done..].
  injection Hlen as Hlen. apply IH in E as [-> ->]; [|done..]. by subst.
Qed.

(** The widths of a certificate's fields. *)
Definition cert_wf (c : CommitCertificate) : Prop :=
  0 <= c_round c < 2 ^ 32 /\ Forall is_u64 (signer_ids c) /\ is_u64 (Z.of_nat (length (signer_ids c))).

(** The proof hash covers everything: two verified proofs whose hashed bytes are
    the same are the same proof. *)
Theorem finality_proof_binding p q :
  verify_proof p = true -> verify_proof q = true -> cert_wf (fp_certificate p) -> cert_wf (fp_certificate q) ->
  is_u64 (fp_height p) -> is_u64 (fp_height q) ->
  length (fp_block_hash p) = length (fp_block_hash q) -> length (fp_state_root p) = length (fp_state_root q) ->
  proof_input (fp_height p) (fp_block_hash p) (fp_state_root p) (fp_certificate p)
  = proof_input (fp_height q) (fp_block_hash q) (fp_state_root q) (fp_certificate q) -> p = q.
Proof.
  unfold verify_proof, cert_wf, compute_proof_hash, proof_input.
  destruct p as [h b r [ch cr cb ca cs] ph], q as [h' b' r' [ch' cr' cb' ca' cs'] ph'].
  cbn [fp_height fp_block_hash fp_state_root fp_certificate proof_hash c_height c_round c_block_hash aggregate_signature signer_ids].
  rewrite !andb_true_iff, !bool_decide_eq_true, !Z.eqb_eq.
  intros (((Hp & ->) & ->) & _) (((Hq & ->) & ->) & _) (Hcr & Hcs & Hcn) (Hcr' & Hcs' & Hcn') Hh Hh' Lb Lr E.
  apply app_inj_1 in E as [Eh E]; [|by rewrite !length_to_le_bytes].
  apply app_inj_1 in E as [Er E]; [|by rewrite !length_to_le_bytes].
  apply app_inj_1 in E as [-> E]; [|done]. apply app_inj_1 in E as [-> E]; [|done].
  apply app_inj_1 in E as [En E]; [|by rewrite !length_to_le_bytes].
  apply to_le_bytes_inj in Eh; [|done..]. apply u32_le_inj in Er; [|done..]. apply to_le_bytes_inj in En; [|done..].
  apply signers_concat_inj in E as [-> ->]; [|done|done|lia]. by subst.
Qed.
End proof_laws.

(** ** Gaps *)

Module ToyFinality.
Definition cert (h : Z) : CommitCertificate :=
  {| c_height := h; c_round := 0; c_block_hash := Toy.key 1 1; aggregate_signature := [9]; signer_ids := [1; 2; 3] |}.
Definition finalize (h : Z) : FinalityOp := FFinalize h (Toy.key 1 1) (Toy.key 2 2) 1 (cert h) 70 100 5 None.
Definition t : FinalityTracker := foldl run_fop (with_max_records 4) [finalize 10; finalize 11].
End ToyFinality.

(** The status of a height is read off the latest finalized height alone: a
    height that was skipped, never proposed and never certified is reported
    final, while it has no record and its finalization would be refused. *)
Theorem status_reports_unseen_heights :
  finality_status 5 ToyFinality.t = Finalized 6 /\
  records ToyFinality.t !! 5 = None /\ superseded_floor ToyFinality.t = 0 /\
  (on_block_finalized 5 (Toy.key 1 1) (Toy.key 2 2) 1 (ToyFinality.cert 5) 100 100 5 ToyFinality.t).2 = false.
Proof. split_and!; vm_compute; reflexivity. Qed.

Lemma finality_irreversible_witness :
  exists r, let t' := foldl run_fop ToyFinality.t [ToyFinality.finalize 12; ToyFinality.finalize 13] in
    records t' !! 10 = Some r \/ records t' !! 10 = None /\ 10 <= superseded_floor t'.
Proof.
  eexists. refine (finality_irreversible ToyFinality.t 10 _ [ToyFinality.finalize 12; ToyFinality.finalize 13] _ _).
  - lia.
  - vm_compute. reflexivity.
Defined.

Lemma finality_proof_roundtrip_witness :
  exists p, generate_proof 10 ToyFinality.t = Some p /\ verify_proof p = true /\
    fp_height p = 10 /\ fp_block_hash p = Toy.key 1 1 /\ fp_state_root p = Toy.key 2 2.
Proof.
  assert (Hok : tracker_ok ToyFinality.t).
  { unfold ToyFinality.t. cbn [foldl]. do 2 apply run_fop_ok.
    split; cbn; [rewrite map_size_empty; lia|rewrite map_size_empty; lia|done|lia]. }
  refine (finality_proof_roundtrip ToyFinality.t 10 {| fr_height := 10; fr_block_hash := Toy.key 1 1;
    fr_state_root := Toy.key 2 2; fr_epoch := 1; finalized_at := 5; certificate := ToyFinality.cert 10;
    signer_count := 3; signing_stake := 70; fr_total_stake := 100; da_confirmed := false |} Hok _ _ _);
    vm_compute; reflexivity.
Defined.

Lemma finality_proof_binding_witness :
  let c := ToyFinality.cert 10 in
  let p := {| fp_height := 10; fp_block_hash := Toy.key 1 1; fp_state_root := Toy.key 2 2; fp_certificate := c;
              proof_hash := compute_proof_hash 10 (Toy.key 1 1) (Toy.key 2 2) c |} in p = p.
Proof.
  intros c p. assert (Hc : cert_wf (fp_certificate p)).
  { split_and!; [simpl; lia|simpl; lia| |].
    - repeat apply Forall_cons_2; [unfold is_u64, U64_MAX; lia..|apply Forall_nil_2].
    - unfold is_u64, U64_MAX. simpl. lia. }
  apply (finality_proof_binding p p); [vm_compute; reflexivity|vm_compute; reflexivity|exact Hc|exact Hc|..];
    first [reflexivity | unfold is_u64, U64_MAX; simpl; lia].
Defined.
