(* ===== verification/Sanov.v ===== *)
(** * Sanov slashing

    crates/evaporchain-sanov-slashing: empirical distributions in fixed point
    (distribution.rs), the integer Kullback-Leibler divergence (kl.rs) and the
    slash it prices, applied through the energy kernel (slash.rs). *)

From stdpp Require Import base list.
From Stdlib Require Import ZArith Lia.
From S2P Require Import Prelude Energy EnergyKernel.

Open Scope Z_scope.

Definition FIXED_POINT_SCALE : Z := 1000000.

Record Distribution := { pmf : list Z }.

Inductive DistributionError := BadSum (got expected : Z) | Empty.

(** [fold(0, saturating_add)] *)
Definition pmf_sum (l : list Z) : Z := foldl saturating_add 0 l.

Definition dist_new (l : list Z) : result Distribution DistributionError :=
  match l with
  | [] => Err Empty
  | _ =>
      let sum := pmf_sum l in
      if negb (sum =? FIXED_POINT_SCALE) then Err (BadSum sum FIXED_POINT_SCALE) else Ok {| pmf := l |}
  end.

(** [max_by_key] keeps the last of several maxima. *)
Fixpoint max_index (l : list Z) (i : nat) (best : nat * Z) : nat :=
  match l with
  | [] => best.1
  | x :: l' => max_index l' (S i) (if best.2 <=? x then (i, x) else best)
  end.

Definition total_count (counts : list Z) : Z := foldr Z.add 0 counts.

Definition from_counts (counts : list Z) : result Distribution DistributionError :=
  match counts with
  | [] => Err Empty
  | _ =>
      let total := total_count counts in
      if total =? 0 then Err (BadSum 0 FIXED_POINT_SCALE)
      else
        let l := (fun c => as_u64 (c * FIXED_POINT_SCALE / total)) <$> counts in
        let assigned := pmf_sum l in
        let l :=
          if assigned <? FIXED_POINT_SCALE then
            let residual := FIXED_POINT_SCALE - assigned in
            alter (fun v => saturating_add v residual) (max_index l 0 (0%nat, -1)) l
          else l in
        dist_new l
  end.

Definition KL_INFINITY : Z := U64_MAX.

Definition bit_length (n : Z) : Z := if n =? 0 then 0 else 64 - leading_zeros n.

(** The sum is a [u128] that saturates at 0 and the divisions of an [i128]
    truncate; the intermediate products are far from the ends of their types. *)
Fixpoint kl_loop (qs ps : list Z) (total : Z) : Z :=
  match qs, ps with
  | q :: qs', p :: ps' =>
      if q =? 0 then kl_loop qs' ps' total
      else if p =? 0 then KL_INFINITY
      else
        let log2_ratio := (bit_length q - bit_length p) * 1000 in
        let term := Z.quot (q * log2_ratio) FIXED_POINT_SCALE in
        kl_loop qs' ps' (Z.max (total + term) 0)
  | _, _ => Z.min total U64_MAX
  end.

Definition kl_millibits (q p : Distribution) : option Z :=
  if negb (length (pmf q) =? length (pmf p))%nat then None else Some (kl_loop (pmf q) (pmf p) 0).

Definition sanov_slash (stake : Z) (observed honest : Distribution) : option Z :=
  match kl_millibits observed honest with
  | None => None
  | Some kl_mb =>
      if kl_mb =? 0 then Some 0
      else if kl_mb =? KL_INFINITY then Some stake
      else Some (Z.min (stake * kl_mb / 1000) stake)
  end.

Inductive SlashError :=
| Kl
| StakeBelowSlash (available slash : Z)
| RedirectFailed.

Definition apply_slash (stake : Z) (observed honest : Distribution) (acc : Kernel.EnergyAccumulator)
  : Kernel.EnergyAccumulator * result Z SlashError :=
  match sanov_slash stake observed honest with
  | None => (acc, Err Kl)
  | Some slash =>
      if slash =? 0 then (acc, Ok 0)
      else if Kernel.index acc Kernel.Stake <? slash
      then (acc, Err (StakeBelowSlash (Kernel.index acc Kernel.Stake) slash))
      else
        match Kernel.apply {| Kernel.kind := Kernel.Slash; Kernel.amount := slash |} acc with
        | (acc', Ok _) => (acc', Ok slash)
        | (acc', Err _) => (acc', Err RedirectFailed)
        end
  end.

(** ** Distributions are exact *)

Definition sums (l : list Z) : Z := foldr Z.add 0 l.

Lemma pmf_sum_exact l a :
  Forall (fun x => 0 <= x) l -> 0 <= a -> a + sums l <= U64_MAX -> foldl saturating_add a l = a + sums l.
Proof.
  intros Hl. revert a. induction Hl as [|x l Hx Hl IH]; intros a Ha Hm; simpl in *; [lia|].
  assert (0 <= sums l) by (clear -Hl; induction Hl; simpl; lia).
  rewrite saturating_add_exact by lia. rewrite IH by lia. lia.
Qed.

Lemma sums_floor counts t :
  Forall (fun c => 0 <= c) counts -> 0 < t ->
  0 <= sums ((fun c => c * FIXED_POINT_SCALE / t) <$> counts) /\
  sums ((fun c => c * FIXED_POINT_SCALE / t) <$> counts) <= total_count counts * FIXED_POINT_SCALE / t.
Proof.
  intros Hc Ht. unfold FIXED_POINT_SCALE. induction Hc as [|c l Hc Hl IH]; csimpl; [by rewrite Z.div_0_l by lia|].
  rewrite Z.mul_add_distr_r. pose proof (div_add_le (c * 1000000) (total_count l * 1000000) t Ht).
  pose proof (Z.div_pos (c * 1000000) t). unfold total_count in *. simpl in *. lia.
Qed.

Lemma max_index_lt l i best : (best.1 < i + length l)%nat -> (max_index l i best < i + length l)%nat.
Proof.
  revert i best. induction l as [|x l IH]; intros i best Hb; simpl in *; [lia|].
  replace (i + S (length l))%nat with (S i + length l)%nat by lia. apply IH. case_match; simpl; lia.
Qed.

Lemma sums_alter l i d :
  (i < length l)%nat -> Forall (fun x => 0 <= x) l -> sums l + d <= U64_MAX -> 0 <= d ->
  sums (alter (fun v => saturating_add v d) i l) = sums l + d /\
  Forall (fun x => 0 <= x) (alter (fun v => saturating_add v d) i l).
Proof.
  intros Hi Hl. revert i Hi. induction Hl as [|x l Hx Hl IH]; intros i Hi Hm Hd; simpl in *; [lia|].
  assert (0 <= sums l) by (clear -Hl; induction Hl; simpl; lia).
  destruct i as [|i]; simpl.
  - rewrite saturating_add_exact by lia. split; [lia|]. constructor; [lia|done].
  - destruct (IH i) as [Hs Hf]; [lia..|]. split; [|by constructor].
    change (x + sums (alter (fun v => saturating_add v d) i l) = x + sums l + d). lia.
Qed.

(** Counts with a positive total always give a distribution: the parts
    are non-negative and sum to one exactly. *)
Theorem from_counts_exact counts :
  Forall is_u64 counts -> 0 < total_count counts ->
  exists d, from_counts counts = Ok d /\ length (pmf d) = length counts /\
    Forall (fun x => 0 <= x) (pmf d) /\ sums (pmf d) = FIXED_POINT_SCALE.
Proof.
  intros Hu Ht. assert (Hc : Forall (fun c => 0 <= c) counts) by (eapply Forall_impl; [exact Hu|unfold is_u64; lia]).
  destruct (sums_floor counts (total_count counts) Hc Ht) as [H0 Hs].
  rewrite Z.mul_comm, Z.div_mul in Hs by lia.
  assert (Hl : (fun c => as_u64 (c * FIXED_POINT_SCALE / total_count counts)) <$> counts
    = (fun c => c * FIXED_POINT_SCALE / total_count counts) <$> counts).
  { apply list_fmap_ext. intros i c Hi. apply as_u64_small.
    assert (Hc0 : 0 <= c) by (by eapply Forall_lookup_1 in Hc). unfold is_u64, U64_MAX. split.
    - apply Z.div_pos; unfold FIXED_POINT_SCALE; lia.
    - assert (c <= total_count counts).
      { clear -Hi Hc. revert i Hi. induction Hc as [|x l Hx Hl IH]; intros [|i] Hi; simplify_eq/=.
        - assert (0 <= total_count l) by (clear -Hl; induction Hl; simpl; lia). unfold total_count in *. simpl. lia.
        - specialize (IH i Hi). unfold total_count in *. simpl. lia. }
      apply Z.div_le_upper_bound; unfold FIXED_POINT_SCALE; nia. }
  assert (Hn : Forall (fun x => 0 <= x) ((fun c => c * FIXED_POINT_SCALE / total_count counts) <$> counts)).
  { apply Forall_fmap. eapply Forall_impl; [exact Hc|]. intros c Hc0. cbn beta in Hc0. apply Z.div_pos; unfold FIXED_POINT_SCALE; lia. }
  unfold from_counts. destruct counts as [|c0 counts0] eqn:Ec; [simpl in Ht; lia|]. rewrite <- Ec in *.
  destruct (Z.eqb_spec (total_count counts) 0); [lia|]. rewrite Hl.
  set (l := (fun c => c * FIXED_POINT_SCALE / total_count counts) <$> counts) in *.
  assert (Hsum : pmf_sum l = sums l) by (unfold pmf_sum; rewrite pmf_sum_exact by (try done; unfold U64_MAX, FIXED_POINT_SCALE in *; lia); lia).
  rewrite Hsum. set (l' := if sums l <? FIXED_POINT_SCALE then _ else l).
  assert (Hl' : sums l' = FIXED_POINT_SCALE /\ Forall (fun x => 0 <= x) l' /\ length l' = length counts).
  { unfold l'. destruct (Z.ltb_spec (sums l) FIXED_POINT_SCALE).
    - destruct (sums_alter l (max_index l 0 (0%nat, -1)) (FIXED_POINT_SCALE - sums l)) as [Hs' Hf'].
      + apply (max_index_lt l 0 (0%nat, -1)). unfold l. rewrite length_fmap, Ec. simpl. lia.
      + done.
      + unfold U64_MAX, FIXED_POINT_SCALE. lia.
      + lia.
      + rewrite length_alter. split_and!; [lia|done|apply length_fmap].
    - split_and!; [lia|done|]. unfold l. apply length_fmap. }
  destruct Hl' as (Hs' & Hf' & Hlen). exists {| pmf := l' |}. split_and!; try done.
  assert (Hp' : pmf_sum l' = FIXED_POINT_SCALE).
  { unfold pmf_sum. rewrite pmf_sum_exact by (try done; unfold U64_MAX, FIXED_POINT_SCALE in *; lia). lia. }
  unfold dist_new. rewrite Hp'. destruct l'; [rewrite Ec in Hlen; done|]. done.
Qed.

(** ** Slashes *)

Lemma kl_nonneg qs ps t : 0 <= t -> 0 <= kl_loop qs ps t.
Proof.
  revert ps t. induction qs as [|q qs IH]; intros [|p ps] t Ht; simpl; try (unfold U64_MAX; lia).
  repeat case_match; [by apply IH|unfold KL_INFINITY, U64_MAX; lia|]. apply IH. lia.
Qed.

Lemma sanov_slash_bounds stake q p s : 0 <= stake -> sanov_slash stake q p = Some s -> 0 <= s <= stake.
Proof.
  unfold sanov_slash, kl_millibits. intros Hs E. repeat case_match; simplify_eq; try lia.
  pose proof (kl_nonneg (pmf q) (pmf p) 0). pose proof (Z.div_pos (stake * kl_loop (pmf q) (pmf p) 0) 1000). nia.
Qed.

Lemma kl_self l t : 0 <= t <= U64_MAX -> kl_loop l l t = t.
Proof.
  intros Ht. induction l as [|q l IH]; simpl; [lia|]. destruct (q =? 0) eqn:E; [done|].
  rewrite Z.sub_diag, Z.mul_0_l, Z.mul_0_r. rewrite Z.quot_0_l by done. rewrite Z.add_0_r, Z.max_l by lia. done.
Qed.

(** Slashing is a redirect: it takes at most the stake, moves exactly what
    it reports into the slashed pool and never changes the audited total; honest
    behaviour costs nothing. *)
Theorem apply_slash_conserves stake q p acc :
  Kernel.acc_wf acc -> is_u64 stake ->
  let '(acc', r) := apply_slash stake q p acc in
  Kernel.acc_wf acc' /\ Kernel.budget acc' = Kernel.budget acc /\
  match r with
  | Ok s => s <= stake /\ Kernel.index acc' Kernel.Stake = Kernel.index acc Kernel.Stake - s /\
            Kernel.index acc' Kernel.SlashedPool = Kernel.index acc Kernel.SlashedPool + s
  | Err _ => acc' = acc
  end /\ sanov_slash stake q q = Some 0.
Proof.
  intros Hwf Hu. assert (Hself : sanov_slash stake q q = Some 0).
  { unfold sanov_slash, kl_millibits. rewrite Nat.eqb_refl. simpl. by rewrite kl_self by (unfold U64_MAX; lia). }
  unfold apply_slash. destruct (sanov_slash stake q p) as [s|] eqn:Es; [|done].
  pose proof (sanov_slash_bounds stake q p s ltac:(unfold is_u64 in Hu; lia) Es) as Hle.
  destruct (Z.eqb_spec s 0) as [->|Hs0]; [unfold is_u64 in Hu; split_and!; try done; lia|].
  destruct (Z.ltb_spec (Kernel.index acc Kernel.Stake) s) as [|Hge]; [done|].
  rewrite (Kernel.apply_success _ acc Kernel.Stake Kernel.SlashedPool) by done. cbn [Kernel.amount].
  assert (Hne : Kernel.Stake <> Kernel.SlashedPool) by done.
  assert (Hx : 0 <= s <= Kernel.index acc Kernel.Stake) by lia.
  split_and!; [by apply Kernel.moved_wf|by apply Kernel.moved_budget|lia|..|done].
  - rewrite Kernel.moved_index by done. by rewrite decide_False, decide_True.
  - rewrite Kernel.moved_index by done. by rewrite decide_True.
Qed.
