(* ===== verification/Tendermint.v ===== *)
(** * Tendermint voting core

    crates/evaporchain-consensus/src/tendermint.rs: the round state machine of
    one validator: proposals, prevotes and precommits, locking, quorums counted
    by stake, timeouts and round changes, equivocation and downtime slashing,
    key announcements and the data-availability gate before a commit.

    The engine's fields are grouped by what changes them.  What other parts of
    the node decide about a proposal (its size, gas, proofs, certificates) and
    the block they would propose enter as the environment of a step. *)

From stdpp Require Import base gmap list strings sorting.
From Stdlib Require Import ZArith Lia.
From S2P Require Import Prelude Energy Types Trie StateDB Transactions Mempool Validators Anchor LightClient Finality Sanov.

Open Scope Z_scope.

(** ** Constants *)

Definition SANOV_EQUIVOCATION_WINDOW : Z := 100.
Definition SANOV_DOWNTIME_WINDOW : Z := 20.
Definition PROPOSE_TIMEOUT_MS : Z := 8000.
Definition PREVOTE_TIMEOUT_MS : Z := 32000.
Definition PRECOMMIT_TIMEOUT_MS : Z := 32000.
Definition PROPOSE_TIMEOUT_DELTA_MS : Z := 1000.
Definition PREVOTE_TIMEOUT_DELTA_MS : Z := 2000.
Definition PRECOMMIT_TIMEOUT_DELTA_MS : Z := 2000.
Definition MAX_ROUNDS_PER_HEIGHT : Z := 10.
Definition MAX_BLOCK_SIZE_BYTES : Z := 2 * 1024 * 1024.
Definition MAX_TXS_PER_BLOCK : Z := 200.
Definition MAX_FUTURE_SECS : Z := 30.

(** ** Blocks and messages *)

Record Block := {
  number : Z;
  b_epoch : Z;
  b_parent_hash : bytes;
  b_state_root : bytes;
  transactions : list Transaction;
  timestamp : Z;
  b_chain_id : string;
  producer_id : option Z;
  vrf_output : option bytes;
  vrf_proof : option bytes;
  data_root : option bytes;
  da_row_roots : list bytes;
  da_col_roots : list bytes;
  blob_commitments : list bytes;
  da_certificate : option bytes;
  b_commit_certificate : option CommitCertificate;
  nova_proof : option bytes;
  b_anchor_hash : option bytes;
  state_function_commitment : option BlockStateCommitment;
  oracle_state_root : option bytes;
  shard_count : option Z;
  protocol_version : Z;
  state_root_version : Z;
  submit_epoch_hints : list (option Z);
  parents : list bytes;
  post_state_root : option bytes;
}.

(** [block.commit_certificate = c] *)
Definition set_certificate (c : option CommitCertificate) (b : Block) : Block :=
  {| number := number b; b_epoch := b_epoch b; b_parent_hash := b_parent_hash b;
     b_state_root := b_state_root b; transactions := transactions b; timestamp := timestamp b;
     b_chain_id := b_chain_id b; producer_id := producer_id b; vrf_output := vrf_output b;
     vrf_proof := vrf_proof b; data_root := data_root b; da_row_roots := da_row_roots b;
     da_col_roots := da_col_roots b; blob_commitments := blob_commitments b;
     da_certificate := da_certificate b; b_commit_certificate := c; nova_proof := nova_proof b;
     b_anchor_hash := b_anchor_hash b; state_function_commitment := state_function_commitment b;
     oracle_state_root := oracle_state_root b; shard_count := shard_count b;
     protocol_version := protocol_version b; state_root_version := state_root_version b;
     submit_epoch_hints := submit_epoch_hints b; parents := parents b;
     post_state_root := post_state_root b |}.

Record DAAttestation := {
  at_block : Z;
  at_root : bytes;
  at_validator : Z;
  at_samples : Z;
  at_stake : Z;
  at_signature : bytes;
  at_key : bytes;
}.

(** A vote is for a block hash, or nil. *)
Abbreviation Vote := (option bytes).

Inductive ConsensusMessage :=
| Proposal (h r : Z) (block : Block) (proposer : Z) (sig : option bytes)
| Prevote (h r : Z) (v : Vote) (id : Z) (sig : option bytes)
| Precommit (h r : Z) (v : Vote) (id : Z) (sig : option bytes)
| KeyAnnounce (id : Z) (pk pop continuity : bytes)
| Attestation (a : DAAttestation)
| OracleVote.

Definition msg_height (m : ConsensusMessage) : Z :=
  match m with
  | Proposal h _ _ _ _ | Prevote h _ _ _ _ | Precommit h _ _ _ _ => h
  | Attestation a => at_block a
  | KeyAnnounce _ _ _ _ | OracleVote => 0
  end.

Definition msg_round (m : ConsensusMessage) : Z :=
  match m with
  | Proposal _ r _ _ _ | Prevote _ r _ _ _ | Precommit _ r _ _ _ => r
  | _ => 0
  end.

Inductive SlashReason := Equivocation | Downtime (missed_blocks : Z).

Inductive ConsensusAction :=
| BroadcastMessage (m : ConsensusMessage)
| CommitBlock (b : Block)
| RequestSync (from to : Z)
| SlashValidator (validator_id amount : Z) (reason : SlashReason).

(** ** The state of one validator *)

Inductive Phase := PPropose | PPrevote | PPrecommit | PCommit.

#[global] Instance phase_dec : EqDecision Phase.
Proof. solve_decision. Defined.

Record RoundState := {
  round : Z;
  phase : Phase;
  proposed_block : option Block;
  proposed_hash : option bytes;
  prevotes : gmap Z Vote;
  precommits : gmap Z Vote;
  prevote_bls_sigs : gmap Z bytes;
  precommit_bls_sigs : gmap Z bytes;
  phase_start : Z;
  prevoted : bool;
  precommitted : bool;
}.

Definition round_new (r now : Z) : RoundState :=
  {| round := r; phase := PPropose; proposed_block := None; proposed_hash := None; prevotes := ∅;
     precommits := ∅; prevote_bls_sigs := ∅; precommit_bls_sigs := ∅; phase_start := now;
     prevoted := false; precommitted := false |}.

(** What the voting steps read but never change. *)
Record Config := {
  my_id : Z;
  height : Z;
  chain_id : string;
  bls_keypair : option bytes;
  parent_hash : bytes;
  last_block_timestamp : Z;
  current_state_root : bytes;
  block_gas_limit : Z;
  parent_acceptance_mode : option string;
  light_cone_state_branches_enabled : option string;
  da_enforcement_height : Z;
  small_cluster_da_mode : bool;
  draining : bool;
  byzantine_double_precommit : bool;
}.

Record Lock := {
  locked_block : option Block;
  locked_round : option Z;
  valid_block : option Block;
  valid_round : option Z;
}.

Definition unlocked : Lock :=
  {| locked_block := None; locked_round := None; valid_block := None; valid_round := None |}.

(** Evidence of misbehaviour. *)
Record Evidence := {
  proposals_seen : gmap (Z * Z) (list (Z * bytes));
  slashed_equivocator_blocks : gset bytes;
  missed_proposals : gmap Z Z;
  missed_votes : gmap Z Z;
}.

Record DaState := {
  da_attestations : gmap Z (list DAAttestation);
  da_block_proposers : gmap Z Z;
}.

(** What the voting steps keep for other parts of the node. *)
Record Books := {
  mempool : Mempool;
  finality_tracker : FinalityTracker;
  mev_missing_refund_violations : gmap Z Z;
  p2_04_last_warned : option (Z * Z);
  dag_round_states : gmap bytes RoundState;
  cross_fork_equivocations : gmap Z Z;
  current_authoritative_head : option bytes;
}.

Record Timeouts := { propose_timeout : Z; prevote_timeout : Z; precommit_timeout : Z }.

Record TendermintConsensus := {
  cfg : Config;
  validator_set : ValidatorSet;
  round_state : RoundState;
  lock : Lock;
  evidence : Evidence;
  da : DaState;
  books : Books;
  timeouts : Timeouts;
}.

(** Assignments to one group. *)
Definition set_vset (v : ValidatorSet) (n : TendermintConsensus) : TendermintConsensus :=
  {| cfg := cfg n; validator_set := v; round_state := round_state n; lock := lock n;
     evidence := evidence n; da := da n; books := books n; timeouts := timeouts n |}.
Definition set_round (r : RoundState) (n : TendermintConsensus) : TendermintConsensus :=
  {| cfg := cfg n; validator_set := validator_set n; round_state := r; lock := lock n;
     evidence := evidence n; da := da n; books := books n; timeouts := timeouts n |}.
Definition set_lock (l : Lock) (n : TendermintConsensus) : TendermintConsensus :=
  {| cfg := cfg n; validator_set := validator_set n; round_state := round_state n; lock := l;
     evidence := evidence n; da := da n; books := books n; timeouts := timeouts n |}.
Definition set_evidence (e : Evidence) (n : TendermintConsensus) : TendermintConsensus :=
  {| cfg := cfg n; validator_set := validator_set n; round_state := round_state n; lock := lock n;
     evidence := e; da := da n; books := books n; timeouts := timeouts n |}.
Definition set_da (d : DaState) (n : TendermintConsensus) : TendermintConsensus :=
  {| cfg := cfg n; validator_set := validator_set n; round_state := round_state n; lock := lock n;
     evidence := evidence n; da := d; books := books n; timeouts := timeouts n |}.
Definition set_timeouts (t : Timeouts) (n : TendermintConsensus) : TendermintConsensus :=
  {| cfg := cfg n; validator_set := validator_set n; round_state := round_state n; lock := lock n;
     evidence := evidence n; da := da n; books := books n; timeouts := t |}.

Definition set_books (b : Books) (n : TendermintConsensus) : TendermintConsensus :=
  {| cfg := cfg n; validator_set := validator_set n; round_state := round_state n; lock := lock n;
     evidence := evidence n; da := da n; books := b; timeouts := timeouts n |}.

Definition with_mempool (f : Mempool -> Mempool) (n : TendermintConsensus) : TendermintConsensus :=
  let b := books n in
  set_books {| mempool := f (mempool b); finality_tracker := finality_tracker b;
               mev_missing_refund_violations := mev_missing_refund_violations b;
               p2_04_last_warned := p2_04_last_warned b; dag_round_states := dag_round_states b;
               cross_fork_equivocations := cross_fork_equivocations b;
               current_authoritative_head := current_authoritative_head b |} n.

Definition observe (h : Z) (n : TendermintConsensus) : TendermintConsensus :=
  let b := books n in
  set_books {| mempool := mempool b; finality_tracker := observe_proposal h (finality_tracker b);
               mev_missing_refund_violations := mev_missing_refund_violations b;
               p2_04_last_warned := p2_04_last_warned b; dag_round_states := dag_round_states b;
               cross_fork_equivocations := cross_fork_equivocations b;
               current_authoritative_head := current_authoritative_head b |} n.

Definition count_missing_refund (id : Z) (n : TendermintConsensus) : TendermintConsensus :=
  let b := books n in
  let m := mev_missing_refund_violations b in
  set_books {| mempool := mempool b; finality_tracker := finality_tracker b;
               mev_missing_refund_violations := <[ id := wrapping_add (default 0 (m !! id)) 1 ]> m;
               p2_04_last_warned := p2_04_last_warned b; dag_round_states := dag_round_states b;
               cross_fork_equivocations := cross_fork_equivocations b;
               current_authoritative_head := current_authoritative_head b |} n.

Definition warn_da (key : Z * Z) (n : TendermintConsensus) : TendermintConsensus :=
  let b := books n in
  set_books {| mempool := mempool b; finality_tracker := finality_tracker b;
               mev_missing_refund_violations := mev_missing_refund_violations b;
               p2_04_last_warned := Some key; dag_round_states := dag_round_states b;
               cross_fork_equivocations := cross_fork_equivocations b;
               current_authoritative_head := current_authoritative_head b |} n.

Definition set_dag (d : gmap bytes RoundState) (c : gmap Z Z) (n : TendermintConsensus) : TendermintConsensus :=
  let b := books n in
  set_books {| mempool := mempool b; finality_tracker := finality_tracker b;
               mev_missing_refund_violations := mev_missing_refund_violations b;
               p2_04_last_warned := p2_04_last_warned b; dag_round_states := d; cross_fork_equivocations := c;
               current_authoritative_head := current_authoritative_head b |} n.

Definition set_head (h : option bytes) (n : TendermintConsensus) : TendermintConsensus :=
  let b := books n in
  set_books {| mempool := mempool b; finality_tracker := finality_tracker b;
               mev_missing_refund_violations := mev_missing_refund_violations b;
               p2_04_last_warned := p2_04_last_warned b; dag_round_states := dag_round_states b;
               cross_fork_equivocations := cross_fork_equivocations b; current_authoritative_head := h |} n.

Definition with_round (f : RoundState -> RoundState) (n : TendermintConsensus)
  : TendermintConsensus := set_round (f (round_state n)) n.

Definition enter_phase (p : Phase) (now : Z) (r : RoundState) : RoundState :=
  {| round := round r; phase := p; proposed_block := proposed_block r; proposed_hash := proposed_hash r;
     prevotes := prevotes r; precommits := precommits r; prevote_bls_sigs := prevote_bls_sigs r;
     precommit_bls_sigs := precommit_bls_sigs r; phase_start := now; prevoted := prevoted r;
     precommitted := precommitted r |}.

Definition set_proposal (b : option Block) (h : option bytes) (r : RoundState) : RoundState :=
  {| round := round r; phase := phase r; proposed_block := b; proposed_hash := h;
     prevotes := prevotes r; precommits := precommits r; prevote_bls_sigs := prevote_bls_sigs r;
     precommit_bls_sigs := precommit_bls_sigs r; phase_start := phase_start r; prevoted := prevoted r;
     precommitted := precommitted r |}.

Definition insert_sig (id : Z) (sig : option bytes) (m : gmap Z bytes) : gmap Z bytes :=
  match sig with Some s => <[ id := s ]> m | None => m end.

(** A vote of validator [id], and whether it is this node's own. *)
Definition record_prevote (id : Z) (v : Vote) (sig : option bytes) (own : bool) (r : RoundState) : RoundState :=
  {| round := round r; phase := phase r; proposed_block := proposed_block r; proposed_hash := proposed_hash r;
     prevotes := <[ id := v ]> (prevotes r); precommits := precommits r;
     prevote_bls_sigs := insert_sig id sig (prevote_bls_sigs r); precommit_bls_sigs := precommit_bls_sigs r;
     phase_start := phase_start r; prevoted := own || prevoted r; precommitted := precommitted r |}.

Definition record_precommit (id : Z) (v : Vote) (sig : option bytes) (own : bool) (r : RoundState) : RoundState :=
  {| round := round r; phase := phase r; proposed_block := proposed_block r; proposed_hash := proposed_hash r;
     prevotes := prevotes r; precommits := <[ id := v ]> (precommits r);
     prevote_bls_sigs := prevote_bls_sigs r; precommit_bls_sigs := insert_sig id sig (precommit_bls_sigs r);
     phase_start := phase_start r; prevoted := prevoted r; precommitted := own || precommitted r |}.

(** ** Parameters of a step *)

(** The blst library: signing, verification of one signature and of a proof of
    possession, aggregation, and the public parts of a key pair. *)
Class BlsKeys := {
  bls_sign : bytes -> bytes -> bytes;
  bls_verify : bytes -> bytes -> bytes -> bool;
  bls_verify_pop : bytes -> bytes -> bool;
  bls_aggregate : list bytes -> option bytes;
  bls_public_of : bytes -> bytes;
  bls_pop_of : bytes -> bytes;
}.

(** [serde_json] on a transaction. *)
Class TxJson := tx_json : Transaction -> bytes.

(** [validate_block_refunds], by the kinds of error the handler tells apart. *)
Inductive RefundVerdict := RefundsOk | MissingRefund | OtherRefundError.

(** The clock, the block the mempool would give, and what the rest of the
    node says about a proposed block. *)
Record Env := {
  now : Z;
  now_secs : Z;
  fresh_proposal : Mempool -> option Block * Mempool;
  light_cone_contains : bytes -> bool;
  make_da_attestation : Z -> bytes -> option DAAttestation;
  perform_da_sampling : Block -> option DAAttestation;
  block_json_len : Block -> option Z;
  candidate_heads : list bytes;
  heads_by_caliber : list bytes;
  mcc_accepts : bytes -> bytes -> bool;
  nova_ok : Block -> bool;
  vrf_verify : bytes -> bytes -> bytes -> bytes -> bool;
  check_weak_subjectivity : Block -> bool;
  verify_da_certificate : Block -> bool;
  validate_block_refunds : Block -> RefundVerdict;
  da2d_ok : Block -> bool;
}.

Section engine.
Context `{TxJson, CurveJson, Blake3, HybridVerifier, BlsKeys, HashOrder}.

Abbreviation node := TendermintConsensus.
Abbreviation action := ConsensusAction.

(** ** Hashes and signed messages *)

Definition tag (o : option bytes) (enc : bytes -> bytes) : bytes :=
  match o with Some b => [1] ++ enc b | None => [0] end.

Definition block_hash_input (b : Block) : bytes :=
  to_le_bytes 8 (number b) ++ to_le_bytes 8 (b_epoch b) ++ b_parent_hash b ++ b_state_root b
    ++ to_le_bytes 8 (timestamp b)
    ++ tag (to_le_bytes 8 <$> producer_id b) (fun x => x)
    ++ tag (vrf_output b) u32_prefixed ++ tag (vrf_proof b) u32_prefixed
    ++ tag (data_root b) (fun x => x)
    ++ concat ((fun tx => u32_prefixed (tx_json tx)) <$> transactions b)
    ++ match post_state_root b with Some r => [1] ++ r | None => [] end.

Definition block_hash (b : Block) : bytes := blake3 (block_hash_input b).

(** The phases are fixed literals of the callers. *)
Definition vote_message (chain : string) (h r : Z) (v : Vote) (ph : string) : bytes :=
  let id := bytes_of_string chain in
  [Z.of_nat (length id) mod 256] ++ id ++ bytes_of_string ph ++ to_le_bytes 8 h ++ to_le_bytes 4 r
    ++ match v with Some hash => hash | None => [] end.

Definition bls_continuity_message (chain : string) (validator_id : Z) (new_pk : bytes) : bytes :=
  let id := bytes_of_string chain in
  bytes_of_string "EvaporChain_BLS_Rotate_v1" ++ [0] ++ [Z.of_nat (length id) mod 256] ++ id
    ++ to_le_bytes 8 validator_id ++ new_pk.

Definition leader_vrf_input (chain : string) (h r : Z) : bytes :=
  let id := bytes_of_string chain in
  to_le_bytes 8 (Z.of_nat (length id)) ++ id ++ to_le_bytes 8 h ++ to_le_bytes 4 r.

Definition bls_sign_vote (n : node) (v : Vote) (ph : string) : option bytes :=
  (fun sk => bls_sign sk (vote_message (chain_id (cfg n)) (height (cfg n)) (round (round_state n)) v ph))
    <$> bls_keypair (cfg n).

(** ** Quorums *)

Definition stake_quorum_threshold (vs : ValidatorSet) : Z :=
  let total := total_stake vs in
  if total =? 0 then U64_MAX else as_u64 (total * 2 / 3 + 1).

(** The weight of one validator's vote. *)
Definition vote_stake (vs : ValidatorSet) (id : Z) : Z :=
  match get vs id with
  | Some v => if jailed v then 0 else effective_stake v
  | None => 0
  end.

(** [hash_stake]: the stake behind each vote. *)
Definition tally (vs : ValidatorSet) (votes : gmap Z Vote) : gmap Vote Z :=
  foldl (fun m id =>
    match votes !! id with
    | Some v => <[ v := wrapping_add (default 0 (m !! v)) (vote_stake vs id) ]> m
    | None => m
    end) ∅ (hash_keys votes).

(** The first entry of the tally that reaches the threshold, in hash order. *)
Definition check_quorum (vs : ValidatorSet) (votes : gmap Z Vote) : option Vote :=
  let t := tally vs votes in
  head (filter (fun v => stake_quorum_threshold vs <= default 0 (t !! v)) (hash_keys t)).

Definition check_prevote_quorum (n : node) : option Vote :=
  check_quorum (validator_set n) (prevotes (round_state n)).

Definition check_precommit_quorum (n : node) : option Vote :=
  check_quorum (validator_set n) (precommits (round_state n)).

(** ** Proposers *)

Definition proposer_for_round (n : node) (h r : Z) : option ValidatorInfo :=
  leader_for_epoch (validator_set n) (wrapping_add (wrapping_mul h 100) r).

Definition am_i_proposer (n : node) : bool :=
  match proposer_for_round n (height (cfg n)) (round (round_state n)) with
  | Some v => v_id v =? my_id (cfg n)
  | None => false
  end.

(** The rest of [create_proposal] draws from the mempool and builds a block. *)
Definition create_proposal (e : Env) (n : node) : node * option Block :=
  match locked_block (lock n) with
  | Some b => (n, Some b)
  | None => (with_mempool (fun m => (fresh_proposal e m).2) n, (fresh_proposal e (mempool (books n))).1)
  end.

(** ** Slashing *)

Definition sanov_fallback (st : Z) : Z := st * 100000 / 1000000.

(** The early returns on an error report a fallback without slashing. *)
Definition sanov_slash_equivocation (id window : Z) (vs : ValidatorSet) : ValidatorSet * Z :=
  match get vs id with
  | None => (vs, 0)
  | Some v =>
      if stake v =? 0 then (vs, 0)
      else
        let w := Z.max window 2 in
        match from_counts [0; w], from_counts [w - 1; 1] with
        | Ok observed, Ok honest =>
            let amount := default (sanov_fallback (stake v)) (sanov_slash (stake v) observed honest) in
            slash_with_amount id amount true vs
        | _, _ => (vs, sanov_fallback (stake v))
        end
  end.

Definition sanov_slash_downtime (id missed_blocks window : Z) (vs : ValidatorSet) : ValidatorSet * Z :=
  if missed_blocks =? 0 then (vs, 0)
  else
    match get vs id with
    | None => (vs, 0)
    | Some v =>
        let w := Z.max window (wrapping_add missed_blocks 1) in
        match from_counts [w - missed_blocks; missed_blocks], from_counts [w - 1; 1] with
        | Ok observed, Ok honest =>
            match sanov_slash (stake v) observed honest with
            | Some amount =>
                if amount =? 0 then (vs, 0) else slash_with_amount id amount (3 <=? missed_blocks) vs
            | None => (vs, 0)
            end
        | _, _ => (vs, 0)
        end
    end.

Definition slash_equivocator (id : Z) (n : node) : node * Z :=
  let '(vs, amount) := sanov_slash_equivocation id SANOV_EQUIVOCATION_WINDOW (validator_set n) in
  (set_vset vs n, amount).

(** ** Rounds *)

Definition set_timeouts_for_round (r : Z) (n : node) : node :=
  let c := cfg n in
  let seed := wrapping_add (wrapping_mul (wrapping_add (wrapping_mul (height c) 31) r) 17)
                (wrapping_mul (my_id c) 7) in
  let jitter := seed mod 100 in
  let at_round base delta := wrapping_add (saturating_add base (saturating_mul r delta)) jitter in
  set_timeouts
    {| propose_timeout := at_round PROPOSE_TIMEOUT_MS PROPOSE_TIMEOUT_DELTA_MS;
       prevote_timeout := at_round PREVOTE_TIMEOUT_MS PREVOTE_TIMEOUT_DELTA_MS;
       precommit_timeout := at_round PRECOMMIT_TIMEOUT_MS PRECOMMIT_TIMEOUT_DELTA_MS |} n.

Definition set_missed_proposals (m : gmap Z Z) (n : node) : node :=
  let e := evidence n in
  set_evidence {| proposals_seen := proposals_seen e; slashed_equivocator_blocks := slashed_equivocator_blocks e;
                  missed_proposals := m; missed_votes := missed_votes e |} n.

Definition set_missed_votes (m : gmap Z Z) (n : node) : node :=
  let e := evidence n in
  set_evidence {| proposals_seen := proposals_seen e; slashed_equivocator_blocks := slashed_equivocator_blocks e;
                  missed_proposals := missed_proposals e; missed_votes := m |} n.

(** A proposer that sent nothing. *)
Definition count_missed_proposal (n : node) : node :=
  match proposed_block (round_state n) with
  | Some _ => n
  | None =>
      match proposer_for_round n (height (cfg n)) (round (round_state n)) with
      | None => n
      | Some expected =>
          let id := v_id expected in
          let misses := wrapping_add (default 0 (missed_proposals (evidence n) !! id)) 1 in
          if 500 <=? misses then
            let vs := (sanov_slash_downtime id misses SANOV_DOWNTIME_WINDOW (validator_set n)).1 in
            set_missed_proposals (<[ id := 0 ]> (missed_proposals (evidence n))) (set_vset vs n)
          else set_missed_proposals (<[ id := misses ]> (missed_proposals (evidence n))) n
      end
  end.

(** One validator that was active when the round ended. *)
Definition count_missed_vote (n : node) (id : Z) : node :=
  let r := round_state n in
  if bool_decide (is_Some (prevotes r !! id)) || bool_decide (is_Some (precommits r !! id))
  then set_missed_votes (<[ id := 0 ]> (missed_votes (evidence n))) n
  else
    let total := wrapping_add (default 0 (missed_votes (evidence n) !! id)) 1 in
    if 1000 <=? total then
      let vs := (sanov_slash_downtime id total SANOV_DOWNTIME_WINDOW (validator_set n)).1 in
      set_missed_votes (<[ id := 0 ]> (missed_votes (evidence n))) (set_vset vs n)
    else set_missed_votes (<[ id := total ]> (missed_votes (evidence n))) n.

(** The transactions of a proposal that was not committed, last first. *)
Definition resubmit (b : Block) (n : node) : node :=
  with_mempool (fun m => foldl (fun m t => (submit_priority t m).1) m (reverse (transactions b))) n.

Definition advance_round (t : Z) (n : node) : node :=
  let n := count_missed_proposal n in
  let n := foldl count_missed_vote n (v_id <$> active (validator_set n)) in
  let n := match proposed_block (round_state n) with Some b => resubmit b n | None => n end in
  let next := round (round_state n) + 1 in
  let r := if MAX_ROUNDS_PER_HEIGHT <=? next then 0 else next in
  set_timeouts_for_round r (set_round (round_new r t) n).

(** ** Votes of this node *)

Definition cast_prevote (v : Vote) (n : node) : node * list action :=
  let sig := bls_sign_vote n v "prevote" in
  (with_round (record_prevote (my_id (cfg n)) v sig true) n,
   [BroadcastMessage (Prevote (height (cfg n)) (round (round_state n)) v (my_id (cfg n)) sig)]).

(** The test-only second precommit. *)
Definition fake_hash (id : Z) (hash : bytes) : bytes :=
  match hash with
  | a :: b :: rest => Z.lxor a 255 :: Z.lxor b (id mod 256) :: rest
  | _ => hash
  end.

Definition byzantine_precommit (v : Vote) (n : node) : list action :=
  if byzantine_double_precommit (cfg n) then
    match v with
    | Some hash =>
        let fake := Some (fake_hash (my_id (cfg n)) hash) in
        [BroadcastMessage (Precommit (height (cfg n)) (round (round_state n)) fake (my_id (cfg n))
           (bls_sign_vote n fake "precommit"))]
    | None => []
    end
  else [].

Definition cast_precommit (v : Vote) (n : node) : node * list action :=
  let sig := bls_sign_vote n v "precommit" in
  (with_round (record_precommit (my_id (cfg n)) v sig true) n,
   [BroadcastMessage (Precommit (height (cfg n)) (round (round_state n)) v (my_id (cfg n)) sig)]).

(** The lock is taken only when the proposal at hand has the quorum hash. *)
Definition take_lock (v : Vote) (n : node) : node :=
  match v, proposed_block (round_state n) with
  | Some quorum_hash, Some proposed =>
      if decide (block_hash proposed = quorum_hash) then
        set_lock {| locked_block := Some proposed; locked_round := Some (round (round_state n));
                    valid_block := Some proposed; valid_round := Some (round (round_state n)) |} n
      else n
  | _, _ => n
  end.

(** A prevote quorum, from the tick or from a message. *)
Definition on_prevote_quorum (t : Z) (n : node) : node * list action :=
  match check_prevote_quorum n with
  | None => (n, [])
  | Some v =>
      let '(n, acts) :=
        if precommitted (round_state n) then (n, [])
        else
          let '(n', acts) := cast_precommit v (take_lock v n) in
          (n', acts ++ byzantine_precommit v n') in
      (with_round (enter_phase PPrecommit t) n, acts)
  end.

(** ** Committing *)

Fixpoint dedup (l : list Z) : list Z :=
  match l with
  | [] => []
  | x :: l' => x :: filter (fun y => y <> x) (dedup l')
  end.

Definition has_da_supermajority (n : node) (block_number : Z) : bool :=
  let threshold := stake_quorum_threshold (validator_set n) in
  if threshold =? U64_MAX then false
  else
    let exclude_proposer := negb (small_cluster_da_mode (cfg n)) in
    let proposer := da_block_proposers (da n) !! block_number in
    if exclude_proposer && bool_decide (proposer = None) then false
    else
      match da_attestations (da n) !! block_number with
      | None => false
      | Some atts =>
          let attesters :=
            at_validator <$> filter (fun a => exclude_proposer = false \/ Some (at_validator a) <> proposer) atts in
          let weight := foldl (fun w id => saturating_add w (vote_stake (validator_set n) id)) 0 (dedup attesters) in
          threshold <=? weight
      end.

(** The signers of a hash in ascending order, with their signatures. *)
Definition signers (n : node) (hash : bytes) : list (Z * bytes) :=
  omap (fun '(id, v) =>
    if decide (v = Some hash) then (fun s => (id, s)) <$> precommit_bls_sigs (round_state n) !! id else None)
    (btree_iter (precommits (round_state n))).

Definition try_build_commit_certificate (n : node) (hash : bytes) : option CommitCertificate :=
  let entries := signers n hash in
  let signer_stake := as_u64 (sumZ ((fun e => vote_stake (validator_set n) e.1) <$> entries)) in
  if signer_stake <? stake_quorum_threshold (validator_set n) then None
  else
    match bls_aggregate entries.*2 with
    | None => None
    | Some agg =>
        Some {| c_height := height (cfg n); c_round := round (round_state n); c_block_hash := hash;
                aggregate_signature := agg; signer_ids := entries.*1 |}
    end.

Definition starts_with (p s : string) : bool := String.prefix p s.

(** The gate between a precommit quorum and the commit. *)
Definition da_gate (n : node) (b : Block) : bool :=
  let enforce := starts_with "mainnet-" (b_chain_id b) || (da_enforcement_height (cfg n) <=? height (cfg n)) in
  negb (enforce && bool_decide (is_Some (data_root b)) && negb (has_da_supermajority n (number b))).

Definition commit (n : node) (hash : bytes) (b : Block) : node * list action :=
  let b := match b_commit_certificate b with
           | None => set_certificate (try_build_commit_certificate (with_round (set_proposal None (proposed_hash (round_state n))) n) hash) b
           | Some _ => b
           end in
  let n := with_round (set_proposal None (proposed_hash (round_state n))) n in
  (with_round (fun r => enter_phase PCommit (phase_start r) r) n, [CommitBlock b]).

(** A precommit quorum for a block: drop a proposal that is not the quorum's,
    wait for availability, or commit. *)
Definition on_precommit_quorum (n : node) : node * list action :=
  match check_precommit_quorum n with
  | Some (Some hash) =>
      match proposed_block (round_state n) with
      | None => (n, [])
      | Some b =>
          if decide (block_hash b = hash) then
            if da_gate n b then commit n hash b
            else (warn_da (number b, round (round_state n)) n, [])
          else
            (with_round (set_proposal None (proposed_hash (round_state n))) (resubmit b n),
             [RequestSync (height (cfg n)) (wrapping_add (height (cfg n)) 1)])
      end
  | _ => (n, [])
  end.

(** A commit that only waits for attestations ends the tick. *)
Definition waiting_for_da (n : node) : option Block :=
  match check_precommit_quorum n, proposed_block (round_state n) with
  | Some (Some hash), Some b =>
      if bool_decide (block_hash b = hash) && negb (da_gate n b) then Some b else None
  | _, _ => None
  end.

(** ** The tick *)

Definition elapsed (e : Env) (n : node) : Z := now e - phase_start (round_state n).

Definition set_da_proposer (number id : Z) (n : node) : node :=
  set_da {| da_attestations := da_attestations (da n);
            da_block_proposers := <[ number := id ]> (da_block_proposers (da n)) |} n.

Definition attest (a : option DAAttestation) : list action :=
  match a with Some a => [BroadcastMessage (Attestation a)] | None => [] end.

Definition make_key_announce (n : node) : list action :=
  match bls_keypair (cfg n) with
  | Some sk => [BroadcastMessage (KeyAnnounce (my_id (cfg n)) (bls_public_of sk) (bls_pop_of sk) [])]
  | None => []
  end.

(** Propose, prevote for the own proposal and attest its data. *)
Definition propose (e : Env) (p : Block) (n : node) : node * list action :=
  let c := cfg n in
  let hash := block_hash p in
  let msg := Proposal (height c) (round (round_state n)) p (my_id c) (bls_sign_vote n (Some hash) "proposal") in
  let n := observe (height c) (with_round (set_proposal (Some p) (Some hash)) n) in
  let '(n, vote) := cast_prevote (Some hash) n in
  let n := set_da_proposer (number p) (my_id c) n in
  let att := match data_root p with
             | Some root => attest (make_da_attestation e (number p) root)
             | None => []
             end in
  (with_round (enter_phase PPrevote (now e)) n, [BroadcastMessage msg] ++ vote ++ att).

(** The proposer proposes once per round, unless it drains. *)
Definition try_propose (e : Env) (n : node) : node * list action :=
  if negb (draining (cfg n)) && am_i_proposer n && bool_decide (proposed_block (round_state n) = None) then
    match create_proposal e n with
    | (n, Some p) => propose e p n
    | (n, None) => (n, [])
    end
  else (n, []).

Definition update_authoritative_head (e : Env) (n : node) : node :=
  if decide (default "linear"%string (parent_acceptance_mode (cfg n)) = "mcc_full"%string)
  then set_head (head (heads_by_caliber e)) n else set_head None n.

Definition tick_propose (e : Env) (n : node) : node * list action :=
  let n := update_authoritative_head e n in
  let gate := negb (draining (cfg n)) in
  let '(n, acts) := try_propose e n in
  if propose_timeout (timeouts n) <? elapsed e n then
    let '(n, vote) := if gate && negb (prevoted (round_state n)) then cast_prevote None n else (n, []) in
    (with_round (enter_phase PPrevote (now e)) n, acts ++ vote)
  else (n, acts).

Definition tick_prevote (e : Env) (n : node) : node * list action :=
  let '(n, acts) := on_prevote_quorum (now e) n in
  if prevote_timeout (timeouts n) <? elapsed e n then
    let '(n, vote) := if negb (precommitted (round_state n)) then cast_precommit None n else (n, []) in
    (with_round (enter_phase PPrecommit (now e)) n, acts ++ vote)
  else (n, acts).

Definition tick_precommit (e : Env) (n : node) : node * list action :=
  match waiting_for_da n with
  | Some b => (warn_da (number b, round (round_state n)) n, [])
  | None =>
      let '(n, acts) := on_precommit_quorum n in
      let n := match check_precommit_quorum n with
               | Some None => advance_round (now e) n
               | _ => n
               end in
      if precommit_timeout (timeouts n) <? elapsed e n then (advance_round (now e) n, acts) else (n, acts)
  end.

Definition tick `{Pallas} (db : InMemoryStateDB) (e : Env) (n : node) : node * list action :=
  let n := set_vset (refresh_delegated_stakes db (validator_set n)) n in
  let announce :=
    if (0 <? height (cfg n)) && (height (cfg n) mod 50 =? 0)
       && bool_decide (phase (round_state n) = PPropose) && (round (round_state n) =? 0)
    then make_key_announce n else [] in
  let '(n, acts) :=
    match phase (round_state n) with
    | PPropose => tick_propose e n
    | PPrevote => tick_prevote e n
    | PPrecommit => tick_precommit e n
    | PCommit => (with_round (set_proposal None (proposed_hash (round_state n))) n, [])
    end in
  (n, announce ++ acts).

(** ** Messages *)

(** A first key is admitted; another key needs the old one's signature. *)
Definition on_key_announce (id : Z) (pk pop continuity : bytes) (n : node) : node :=
  if negb (Z.of_nat (length pk) =? 48) then n
  else if negb (bool_decide (pop = [])) && negb (bls_verify_pop pk pop) then n
  else
    match get (validator_set n) id with
    | None => n
    | Some v =>
        let admitted :=
          match bls_public_key v with
          | None => true
          | Some registered =>
              bool_decide (registered <> pk) && negb (bool_decide (continuity = []))
                && bls_verify (bls_continuity_message (chain_id (cfg n)) id pk) continuity registered
          end in
        if admitted then
          set_vset (with_mut id (fun v => set_keys (Some pk) (bls_public_key_prev v) (bls_prev_key_expiry_epoch v)
                      (if decide (pop = []) then None else Some pop) (negb (bool_decide (pop = []))) v)
                    (validator_set n)) n
        else n
    end.

Definition DA_ATTESTATION_DST : bytes := bytes_of_string "evaporchain:da-attestation:v1:".

Definition attestation_message (a : DAAttestation) : bytes :=
  DA_ATTESTATION_DST ++ to_le_bytes 8 (at_block a) ++ at_root a ++ to_le_bytes 8 (at_validator a)
    ++ to_le_bytes 4 (at_samples a) ++ to_le_bytes 8 (at_stake a).

(** Commit at once when the attestation was the missing one. *)
Definition on_attestation (a : DAAttestation) (n : node) : node * list action :=
  match get (validator_set n) (at_validator a) ≫= bls_public_key with
  | None => (n, [])
  | Some registered =>
      if bool_decide (registered <> at_key a) then (n, [])
      else if negb (bls_verify (attestation_message a) (at_signature a) (at_key a)) then (n, [])
      else
        let atts := default [] (da_attestations (da n) !! at_block a) in
        let fresh := negb (existsb (fun b => at_validator b =? at_validator a) atts) in
        let atts := if fresh then atts ++ [a] else atts in
        let n := set_da {| da_attestations := <[ at_block a := atts ]> (da_attestations (da n));
                           da_block_proposers := da_block_proposers (da n) |} n in
        if fresh && (at_block a =? height (cfg n)) && bool_decide (phase (round_state n) = PPrecommit) then
          match check_precommit_quorum n, proposed_block (round_state n) with
          | Some (Some hash), Some b =>
              if bool_decide (block_hash b = hash) && da_gate n b then commit n hash b else (n, [])
          | _, _ => (n, [])
          end
        else (n, [])
  end.

Definition parent_accepted (e : Env) (n : node) (b : Block) : bool :=
  let mode := default "linear"%string (parent_acceptance_mode (cfg n)) in
  if decide (mode = "mcc_full"%string) then
    bool_decide (b_parent_hash b ∈ candidate_heads e) || bool_decide (b_parent_hash b = parent_hash (cfg n))
  else if decide (mode = "mcc"%string) then mcc_accepts e (parent_hash (cfg n)) (b_parent_hash b)
  else bool_decide (b_parent_hash b = parent_hash (cfg n)).

(** Whether a signature is what the registered key of [id] requires. *)
Definition signed (n : node) (id : Z) (msg : bytes) (sig : option bytes) : bool :=
  match get (validator_set n) id ≫= bls_public_key with
  | Some pk => match sig with Some s => bls_verify msg s pk | None => false end
  | None => true
  end.

(** The same for a vote: without a key, only a set that has none is tolerant. *)
Definition vote_signed (n : node) (id : Z) (msg : bytes) (sig : option bytes) : bool :=
  match get (validator_set n) id ≫= bls_public_key with
  | Some pk => match sig with Some s => bls_verify msg s pk | None => false end
  | None => negb (has_bls_keys (validator_set n))
  end.

(** The checks between the proposer's and the equivocation record, in order;
    [Some] carries the actions of a rejection. *)
Definition reject_early (e : Env) (n : node) (h r : Z) (b : Block) (proposer : Z) (sig : option bytes)
  : option (list action) :=
  let c := cfg n in
  if match block_json_len e b with Some l => MAX_BLOCK_SIZE_BYTES <? l | None => false end then Some []
  else if MAX_TXS_PER_BLOCK <? Z.of_nat (length (transactions b)) then Some []
  else if (0 <? block_gas_limit c) &&
          (block_gas_limit c <? foldl saturating_add 0 (estimate_gas <$> transactions b)) then Some []
  else if negb (bool_decide (chain_id c = ""%string)) && negb (bool_decide (b_chain_id b = ""%string))
          && bool_decide (b_chain_id b <> chain_id c) then Some []
  else if negb (parent_accepted e n b) then Some [RequestSync (saturating_sub (height c) 5) h]
  else if (0 <? timestamp b) && (0 <? last_block_timestamp c) && (timestamp b <? last_block_timestamp c) then Some []
  else if saturating_add (now_secs e) MAX_FUTURE_SECS <? timestamp b then Some []
  else if protocol_version b <? 0 then Some []
  else if negb (signed n proposer (vote_message (chain_id c) h r (Some (block_hash b)) "proposal") sig) then Some []
  else None.

(** The checks after it, up to the refunds. *)
Definition reject_late (e : Env) (n : node) (h r : Z) (b : Block) (proposer : Z) : bool :=
  negb (nova_ok e b)
  || ((1 <? number b) && bool_decide (b_state_root b = zero32)
      && negb (bool_decide (current_state_root (cfg n) = zero32)))
  || match vrf_output b, vrf_proof b, get (validator_set n) proposer ≫= vrf_public_key with
     | Some out, Some proof, Some pk => negb (vrf_verify e pk (leader_vrf_input (chain_id (cfg n)) h r) out proof)
     | _, _, _ => false
     end
  || negb (check_weak_subjectivity e b) || negb (verify_da_certificate e b).

Definition seen_hash (n : node) (h r proposer : Z) : option bytes :=
  snd <$> head (filter (fun p => p.1 = proposer) (default [] (proposals_seen (evidence n) !! (h, r)))).

Definition record_proposal (h r proposer : Z) (hash : bytes) (n : node) : node :=
  let e := evidence n in
  set_evidence {| proposals_seen := <[ (h, r) := default [] (proposals_seen e !! (h, r)) ++ [(proposer, hash)] ]>
                    (proposals_seen e);
                  slashed_equivocator_blocks := slashed_equivocator_blocks e;
                  missed_proposals := missed_proposals e; missed_votes := missed_votes e |} n.

Definition taint (hs : list bytes) (n : node) : node :=
  let e := evidence n in
  set_evidence {| proposals_seen := proposals_seen e;
                  slashed_equivocator_blocks := list_to_set hs ∪ slashed_equivocator_blocks e;
                  missed_proposals := missed_proposals e; missed_votes := missed_votes e |} n.

(** The lock rule. *)
Definition prevote_for (n : node) (hash : bytes) : Vote :=
  match locked_block (lock n), locked_round (lock n) with
  | Some locked, Some _ => if decide (block_hash locked = hash) then Some hash else None
  | _, _ => Some hash
  end.

(** An accepted proposal: remember it and prevote. *)
Definition accept_proposal (e : Env) (b : Block) (hash : bytes) (n : node) : node * list action :=
  let n := with_round (set_proposal (Some b) (Some hash)) n in
  if prevoted (round_state n) then (n, [])
  else
    let v := prevote_for n hash in
    let '(n, vote) := cast_prevote v n in
    let '(n, sample) :=
      match v with
      | Some _ => (match producer_id b with Some pid => set_da_proposer (number b) pid n | None => n end,
                   attest (perform_da_sampling e b))
      | None => (n, [])
      end in
    (with_round (enter_phase PPrevote (now e)) n, vote ++ sample).

Definition on_proposal (e : Env) (h r : Z) (b : Block) (proposer : Z) (sig : option bytes) (n : node)
  : node * list action :=
  if bool_decide (v_id <$> proposer_for_round n h r <> Some proposer) then (n, [])
  else
  let n := observe h n in
  match reject_early e n h r b proposer sig with
  | Some acts => (n, acts)
  | None =>
      let hash := block_hash b in
      let continue n :=
        if reject_late e n h r b proposer then (n, [])
        else
          match validate_block_refunds e b with
          | RefundsOk => if da2d_ok e b then accept_proposal e b hash n else (n, [])
          | MissingRefund => (count_missing_refund proposer n, [])
          | OtherRefundError => (n, [])
          end in
      match seen_hash n h r proposer with
      | Some prev =>
          if decide (prev = hash) then continue n
          else
            let '(n, amount) := slash_equivocator proposer n in
            (taint [prev; hash] n, [SlashValidator proposer amount Equivocation])
      | None => continue (record_proposal h r proposer hash n)
      end
  end.

(** Votes for blocks of the light-cone DAG, when branches are on. *)
Definition branches_enabled (n : node) : bool :=
  bool_decide (light_cone_state_branches_enabled (cfg n) = Some "true"%string).

Definition dag_entry (t : Z) (tip : bytes) (n : node) : RoundState :=
  default (round_new 0 t) (dag_round_states (books n) !! tip).

(** An empty signature is not stored. *)
Definition nonempty (sig : bytes) : option bytes := match sig with [] => None | _ => Some sig end.

Definition record_dag_prevote (t : Z) (tip : bytes) (id : Z) (v : Vote) (sig : bytes) (n : node) : node :=
  if negb (branches_enabled n) then n
  else
    set_dag (<[ tip := record_prevote id v (nonempty sig) false (dag_entry t tip n) ]> (dag_round_states (books n)))
      (cross_fork_equivocations (books n)) n.

(** A precommit of [id] for another block at another tip of the same round. *)
Definition cross_fork_equivocated (n : node) (tip : bytes) (id : Z) (v : Vote) : bool :=
  let d := dag_round_states (books n) in
  let this_round := match d !! tip with Some rs => round rs | None => 0 end in
  existsb (fun other =>
    match d !! other with
    | Some rs =>
        negb (bool_decide (other = tip)) && (round rs =? this_round) &&
        match precommits rs !! id with Some prior => negb (bool_decide (prior = v)) | None => false end
    | None => false
    end) (hash_keys d).

Definition record_dag_precommit (t : Z) (tip : bytes) (id : Z) (v : Vote) (sig : bytes) (n : node) : node :=
  if negb (branches_enabled n) then n
  else
    let c := cross_fork_equivocations (books n) in
    let c := if cross_fork_equivocated n tip id v then <[ id := wrapping_add (default 0 (c !! id)) 1 ]> c else c in
    set_dag (<[ tip := record_precommit id v (nonempty sig) false (dag_entry t tip n) ]> (dag_round_states (books n))) c n.

(** [record_dag] when the vote is for a block of the DAG. *)
Definition to_dag (e : Env) (record : bytes -> node -> node) (v : Vote) (n : node) : node :=
  match v with
  | Some tip => if light_cone_contains e tip then record tip n else n
  | None => n
  end.

(** An accepted prevote: record it and look for a quorum. *)
Definition store_prevote (e : Env) (id : Z) (v : Vote) (sig : option bytes) (n : node) : node * list action :=
  let n := with_round (record_prevote id v sig false) n in
  let n := to_dag e (fun tip => record_dag_prevote (now e) tip id v (default [] sig)) v n in
  if decide (phase (round_state n) = PPrevote) then on_prevote_quorum (now e) n else (n, []).

Definition on_prevote (e : Env) (h r : Z) (v : Vote) (id : Z) (sig : option bytes) (n : node)
  : node * list action :=
  if negb (h =? height (cfg n)) || negb (r =? round (round_state n)) then (n, [])
  else if bool_decide (get (validator_set n) id = None) then (n, [])
  else if negb (vote_signed n id (vote_message (chain_id (cfg n)) h r v "prevote") sig) then (n, [])
  else
    match prevotes (round_state n) !! id with
    | Some existing =>
        if decide (existing = v) then store_prevote e id v sig n else ((slash_equivocator id n).1, [])
    | None => store_prevote e id v sig n
    end.

Definition store_precommit (e : Env) (id : Z) (v : Vote) (sig : option bytes) (n : node) : node * list action :=
  let n := with_round (record_precommit id v sig false) n in
  on_precommit_quorum (to_dag e (fun tip => record_dag_precommit (now e) tip id v (default [] sig)) v n).

Definition on_precommit (e : Env) (h r : Z) (v : Vote) (id : Z) (sig : option bytes) (n : node)
  : node * list action :=
  if negb (h =? height (cfg n)) || negb (r =? round (round_state n)) then (n, [])
  else if bool_decide (get (validator_set n) id = None) then (n, [])
  else if negb (vote_signed n id (vote_message (chain_id (cfg n)) h r v "precommit") sig) then (n, [])
  else
    match precommits (round_state n) !! id with
    | Some existing =>
        if decide (existing = v) then store_precommit e id v sig n else ((slash_equivocator id n).1, [])
    | None => store_precommit e id v sig n
    end.

Definition on_future_height (h : Z) (n : node) : list action :=
  let mine := height (cfg n) in
  let stuck := (h =? wrapping_add mine 1) && bool_decide (phase (round_state n) = PPrecommit)
                 && bool_decide (is_Some (proposed_block (round_state n))) in
  if (wrapping_add mine 1 <? h) || stuck then [RequestSync mine (Z.max h (wrapping_add mine 1))] else [].

Definition on_message (e : Env) (m : ConsensusMessage) (n : node) : node * list action :=
  match m with
  | KeyAnnounce id pk pop continuity => (on_key_announce id pk pop continuity n, [])
  | Attestation a => on_attestation a n
  | OracleVote => (n, [])
  | _ =>
      if msg_height m <? height (cfg n) then (n, [])
      else if height (cfg n) <? msg_height m then (n, on_future_height (msg_height m) n)
      else if msg_round m <? round (round_state n) then (n, [])
      else
        let n :=
          if round (round_state n) <? msg_round m
          then set_timeouts_for_round (msg_round m) (set_round (round_new (msg_round m) (now e)) n)
          else n in
        match m with
        | Proposal h r b p sig => on_proposal e h r b p sig n
        | Prevote h r v id sig => on_prevote e h r v id sig n
        | Precommit h r v id sig => on_precommit e h r v id sig n
        | _ => (n, [])
        end
  end.
End engine.
