(* ===== verification/TendermintSafety.v ===== *)
(** * Safety of the voting core

    Quorums counted by stake, agreement within a round, what a commit needs,
    locks, one vote per round, and the signed encodings; with the runs that
    show where the guarantees end. *)

From stdpp Require Import base gmap list strings sorting.
From Stdlib Require Import ZArith Lia.
From S2P Require Import Prelude Energy Types Trie StateDB Transactions Mempool Validators Anchor LightClient Finality Sanov Tendermint.

Open Scope Z_scope.

(** ** Sums over identifiers *)

(** Two lists without repetition that cover the support of [f] give the same sum. *)
Lemma sumZ_support (f : Z -> Z) l k :
  NoDup l -> NoDup k -> (forall x, f x <> 0 -> x ∈ l) -> (forall x, f x <> 0 -> x ∈ k) ->
  sumZ (f <$> l) = sumZ (f <$> k).
Proof.
  assert (Hf : forall l, sumZ (f <$> l) = sumZ (f <$> filter (fun x => f x <> 0) l)).
  { intros m. rewrite sumZ_filter. apply sumZ_fmap_ext. intros x _. case_decide; [done|]. lia. }
  intros Hl Hk Hsl Hsk. rewrite (Hf l), (Hf k). apply sumZ_perm, fmap_Permutation, NoDup_Permutation.
  - by apply NoDup_filter.
  - by apply NoDup_filter.
  - intros x. rewrite !list_elem_of_filter. naive_solver.
Qed.

Section quorum.
Context `{HashOrder} (vs : ValidatorSet).

(** A set without repeated identifiers whose stake fits a [u64]. *)
Record countable_set : Prop := {
  cs_unique : NoDup (ids vs);
  cs_stake : Forall (fun v => 0 <= stake v /\ 0 <= delegated_stake v) (validators vs);
  cs_total : 0 < sumZ (vote_stake vs <$> ids vs) <= U64_MAX;
}.
Context (Hvs : countable_set).

Lemma vote_stake_nonneg id : 0 <= vote_stake vs id.
Proof.
  unfold vote_stake. destruct (get vs id) as [v|] eqn:E; [|lia]. destruct (jailed v); [lia|].
  apply get_Some_in in E as [Hin _]. pose proof (cs_stake Hvs) as Hs. rewrite Forall_forall in Hs.
  specialize (Hs v Hin). unfold effective_stake, saturating_add, U64_MAX. lia.
Qed.

Lemma vote_stake_known id : vote_stake vs id <> 0 -> id ∈ ids vs.
Proof.
  unfold vote_stake. destruct (get vs id) as [v|] eqn:E; [|done]. intros _.
  destruct (decide (id ∈ ids vs)) as [|Hn]; [done|]. apply get_None in Hn. congruence.
Qed.

(** What [total_stake] counts. *)
Lemma total_stake_sum : total_stake vs = sumZ (vote_stake vs <$> ids vs).
Proof.
  assert (E : sumZ (vote_stake vs <$> ids vs) = sumZ (effective_stake <$> active vs)).
  { unfold active. rewrite sumZ_filter. unfold ids. rewrite <- list_fmap_compose.
    apply sumZ_fmap_ext. intros v Hv. unfold compose, vote_stake.
    rewrite get_member by (done || apply (cs_unique Hvs)). destruct (jailed v); by case_decide. }
  pose proof (cs_total Hvs). unfold total_stake. rewrite saturating_sum_exact; [done| |lia].
  apply Forall_fmap, Forall_forall. intros v [_ Hv]%list_elem_of_filter.
  pose proof (cs_stake Hvs) as Hs. rewrite Forall_forall in Hs. specialize (Hs v Hv).
  cbn. unfold effective_stake, saturating_add, U64_MAX. lia.
Qed.

(** The stake behind one vote. *)
Definition behind (votes : gmap Z Vote) (v : Vote) (id : Z) : Z :=
  if decide (votes !! id = Some v) then vote_stake vs id else 0.

Definition support (votes : gmap Z Vote) (v : Vote) : Z := sumZ (behind votes v <$> ids vs).

Lemma behind_bounds votes v id : 0 <= behind votes v id <= vote_stake vs id.
Proof. unfold behind. pose proof (vote_stake_nonneg id). case_decide; lia. Qed.

Lemma support_bounds votes v : 0 <= support votes v <= total_stake vs.
Proof.
  rewrite total_stake_sum. unfold support. split.
  - apply sumZ_nonneg, Forall_fmap, Forall_forall. intros id _. apply behind_bounds.
  - apply sumZ_fmap_le. intros id _. apply behind_bounds.
Qed.

(** One step of the tally. *)
Definition tally_one (votes : gmap Z Vote) (m : gmap Vote Z) (id : Z) : gmap Vote Z :=
  match votes !! id with
  | Some v => <[ v := wrapping_add (default 0 (m !! v)) (vote_stake vs id) ]> m
  | None => m
  end.

Lemma tally_one_spec votes m id u :
  (forall v, 0 <= default 0 (m !! v)) -> default 0 (m !! u) + behind votes u id <= U64_MAX ->
  default 0 (tally_one votes m id !! u) = default 0 (m !! u) + behind votes u id.
Proof.
  intros Hpos Hmax. pose proof (vote_stake_nonneg id). specialize (Hpos u). unfold tally_one, behind in *.
  destruct (votes !! id) as [w|]; [|simpl; case_decide; [done|lia]].
  destruct (decide (w = u)) as [<-|Hne].
  - rewrite lookup_insert_eq. rewrite decide_True in * by done. simpl. unfold wrapping_add.
    apply as_u64_small. unfold is_u64. lia.
  - rewrite lookup_insert_ne by done. rewrite decide_False in * by congruence. lia.
Qed.

Lemma tally_spec votes l m :
  (forall v, 0 <= default 0 (m !! v)) ->
  (forall v, default 0 (m !! v) + sumZ (behind votes v <$> l) <= U64_MAX) ->
  forall v, default 0 (foldl (tally_one votes) m l !! v) = default 0 (m !! v) + sumZ (behind votes v <$> l).
Proof.
  revert m. induction l as [|id l IH]; intros m Hpos Hmax v; [simpl; lia|].
  assert (Hrest : forall u, 0 <= sumZ (behind votes u <$> l)).
  { intros u. apply sumZ_nonneg, Forall_fmap, Forall_forall. intros j _. apply behind_bounds. }
  assert (Hc : forall u, sumZ (behind votes u <$> id :: l) = behind votes u id + sumZ (behind votes u <$> l)) by done.
  assert (Hstep : forall u, default 0 (tally_one votes m id !! u) = default 0 (m !! u) + behind votes u id).
  { intros u. apply tally_one_spec; [done|]. specialize (Hmax u). rewrite Hc in Hmax. specialize (Hrest u). lia. }
  cbn [foldl]. rewrite IH, Hstep, Hc; [lia|..]; intros u; rewrite Hstep.
  - pose proof (Hpos u). pose proof (behind_bounds votes u id). lia.
  - specialize (Hmax u). rewrite Hc in Hmax. lia.
Qed.

Lemma support_keys votes v : sumZ (behind votes v <$> hash_keys votes) = support votes v.
Proof.
  apply sumZ_support; [apply hash_keys_NoDup|apply (cs_unique Hvs)|..]; intros id; unfold behind; case_decide as E; try done.
  - intros _. apply elem_of_hash_keys. by eexists.
  - apply vote_stake_known.
Qed.

Lemma tally_support votes v : default 0 (tally vs votes !! v) = support votes v.
Proof.
  change (tally vs votes) with (foldl (tally_one votes) ∅ (hash_keys votes)). rewrite tally_spec.
  - rewrite lookup_empty, support_keys. simpl. lia.
  - intros u. by rewrite lookup_empty.
  - intros u. rewrite lookup_empty, support_keys. pose proof (support_bounds votes u).
    pose proof (cs_total Hvs). rewrite <- total_stake_sum in *. simpl. lia.
Qed.

Lemma threshold_spec s : 0 <= s <= total_stake vs -> stake_quorum_threshold vs <= s <-> 2 * total_stake vs < 3 * s.
Proof.
  intros Hs. pose proof (cs_total Hvs) as Ht. rewrite <- total_stake_sum in Ht. unfold stake_quorum_threshold.
  destruct (Z.eqb_spec (total_stake vs) 0); [lia|].
  pose proof (Z.div_mod (total_stake vs * 2) 3 ltac:(lia)). pose proof (Z.mod_pos_bound (total_stake vs * 2) 3 ltac:(lia)).
  rewrite as_u64_small by (unfold is_u64; lia). lia.
Qed.

Lemma check_quorum_iff votes v :
  check_quorum vs votes = Some v <-> 2 * total_stake vs < 3 * support votes v.
Proof.
  unfold check_quorum. set (t := tally vs votes).
  set (P := fun u => stake_quorum_threshold vs <= default 0 (t !! u)).
  assert (HP : forall u, P u <-> 2 * total_stake vs < 3 * support votes u).
  { intros u. unfold P, t. rewrite tally_support. apply threshold_spec, support_bounds. }
  assert (Hone : forall u w, P u -> P w -> u = w).
  { intros u w Hu%HP Hw%HP. destruct (decide (u = w)) as [|Hne]; [done|]. exfalso.
    assert (Hle : support votes u + support votes w <= total_stake vs).
    { rewrite total_stake_sum. unfold support. rewrite <- sumZ_fmap_add. apply sumZ_fmap_le. intros id _.
      pose proof (vote_stake_nonneg id). unfold behind. repeat case_decide; try lia. congruence. }
    pose proof (support_bounds votes u). lia. }
  split.
  - intros Hh%head_Some_elem_of. apply list_elem_of_filter in Hh as [Hv _]. by apply HP.
  - intros Hv%HP. assert (Hin : v ∈ filter P (hash_keys t)).
    { apply list_elem_of_filter. split; [done|]. apply elem_of_hash_keys.
      pose proof (proj1 (HP v) Hv) as Hs. rewrite <- tally_support in Hs. fold t in Hs.
      destruct (t !! v) as [x|]; [by eexists|]. simpl in Hs.
      pose proof (cs_total Hvs). rewrite <- total_stake_sum in *. lia. }
    destruct (filter P (hash_keys t)) as [|w l] eqn:E; [by apply elem_of_nil in Hin|]. simpl. f_equal.
    assert (Hw : w ∈ filter P (hash_keys t)) by (rewrite E; left). apply list_elem_of_filter in Hw as [Hw _].
    by apply Hone.
Qed.

(** The stake of the faulty validators. *)
Definition faulty_stake (byz : gset Z) : Z :=
  sumZ ((fun id => if decide (id ∈ byz) then vote_stake vs id else 0) <$> ids vs).

(** C8: agreement within a round: two vote counts in which no honest validator
    appears with two votes cannot both find a quorum for different blocks, as long
    as the faulty validators hold at most a third of the active stake. *)
Theorem round_agreement (byz : gset Z) votes votes' v v' :
  3 * faulty_stake byz <= total_stake vs ->
  (forall id u u', id ∉ byz -> votes !! id = Some u -> votes' !! id = Some u' -> u = u') ->
  check_quorum vs votes = Some v -> check_quorum vs votes' = Some v' -> v = v'.
Proof.
  intros Hbyz Hhonest Hq%check_quorum_iff Hq'%check_quorum_iff.
  destruct (decide (v = v')) as [|Hne]; [done|]. exfalso.
  assert (Hle : support votes v + support votes' v' <= total_stake vs + faulty_stake byz).
  { rewrite total_stake_sum. unfold support, faulty_stake. rewrite <- !sumZ_fmap_add. apply sumZ_fmap_le. intros id _.
    pose proof (vote_stake_nonneg id). unfold behind. repeat case_decide; try lia. exfalso. naive_solver. }
  lia.
Qed.
End quorum.

(** Counting votes is exact: a quorum is found if and only if more than two
    thirds of the active stake, delegations included, voted alike, and the
    answer does not depend on the iteration order of the hash maps. *)
Theorem check_quorum_exact (order order' : HashOrder) vs votes v :
  countable_set vs ->
  (@check_quorum order vs votes = Some v <-> 2 * total_stake vs < 3 * support vs votes v) /\
  @check_quorum order vs votes = @check_quorum order' vs votes.
Proof.
  intros Hvs. split; [by apply check_quorum_iff|].
  apply option_eq. intros u. by rewrite !check_quorum_iff.
Qed.

(** ** What a block hash binds *)

Section encodings.
Context `{TxJson}.

(** The widths of the hashed fields, and that a transaction's JSON is longer
    than one byte. *)
Record block_wf (b : Block) : Prop := {
  bw_number : is_u64 (number b);
  bw_epoch : is_u64 (b_epoch b);
  bw_time : is_u64 (timestamp b);
  bw_parent : length (b_parent_hash b) = 32%nat;
  bw_root : length (b_state_root b) = 32%nat;
  bw_producer : forall id, producer_id b = Some id -> is_u64 id;
  bw_vrf : forall o, vrf_output b = Some o -> short o;
  bw_vrf_proof : forall o, vrf_proof b = Some o -> short o;
  bw_data : forall r, data_root b = Some r -> length r = 32%nat;
  bw_post : forall r, post_state_root b = Some r -> length r = 32%nat;
  bw_txs : Forall (fun t => short (tx_json t) /\ length (tx_json t) <> 1%nat) (transactions b);
}.

(** A tagged field separates what follows. *)
Lemma tag_inj (o o' : option bytes) (enc : bytes -> bytes) r r' :
  (forall a a', o = Some a -> o' = Some a' -> enc a ++ r = enc a' ++ r' -> a = a' /\ r = r') ->
  tag o enc ++ r = tag o' enc ++ r' -> o = o' /\ r = r'.
Proof.
  intros Hinj. destruct o as [a|], o' as [a'|]; cbn; intros E; try discriminate E; [|by injection E].
  apply (f_equal tail) in E. cbn in E. destruct (Hinj a a' eq_refl eq_refl E) as [-> ->]. done.
Qed.

Lemma tag_fixed_inj (o o' : option bytes) k r r' :
  (forall a, o = Some a -> length a = k) -> (forall a, o' = Some a -> length a = k) ->
  tag o (fun x => x) ++ r = tag o' (fun x => x) ++ r' -> o = o' /\ r = r'.
Proof.
  intros Ho Ho'. apply tag_inj. intros a a' Ha Ha' E. apply app_inj_1 in E; [done|]. by rewrite (Ho a), (Ho' a').
Qed.

Lemma tag_prefixed_inj (o o' : option bytes) r r' :
  (forall a, o = Some a -> short a) -> (forall a, o' = Some a -> short a) ->
  tag o u32_prefixed ++ r = tag o' u32_prefixed ++ r' -> o = o' /\ r = r'.
Proof. intros Ho Ho'. apply tag_inj. intros a a' Ha Ha'. apply u32_prefixed_inj; [by apply Ho|by apply Ho']. Qed.

(** The state root claimed after execution, at the end without a tag. *)
Definition post_tail (p : option bytes) : bytes := match p with Some r => [1] ++ r | None => [] end.

Lemma frame_not_tail p t rest :
  (forall r, p = Some r -> length r = 32%nat) -> short (tx_json t) -> length (tx_json t) <> 1%nat ->
  post_tail p <> u32_prefixed (tx_json t) ++ rest.
Proof.
  unfold short. intros Hp Hs H1 E. destruct p as [r|]; [|discriminate E]. specialize (Hp r eq_refl).
  assert (Hlen : (length (tx_json t) <= 29)%nat).
  { apply (f_equal length) in E. unfold u32_prefixed in E. cbn in E. rewrite !length_app, Hp in E. simpl in E. lia. }
  unfold u32_prefixed in E. cbn in E. injection E as E _. rewrite Z.mod_small in E by lia. lia.
Qed.

Lemma frames_inj l l' p p' :
  (forall t t', t ∈ l -> t' ∈ l' -> tx_json t = tx_json t' -> t = t') ->
  Forall (fun t => short (tx_json t) /\ length (tx_json t) <> 1%nat) l ->
  Forall (fun t => short (tx_json t) /\ length (tx_json t) <> 1%nat) l' ->
  (forall r, p = Some r -> length r = 32%nat) -> (forall r, p' = Some r -> length r = 32%nat) ->
  concat ((fun tx => u32_prefixed (tx_json tx)) <$> l) ++ post_tail p
  = concat ((fun tx => u32_prefixed (tx_json tx)) <$> l') ++ post_tail p' -> l = l' /\ p = p'.
Proof.
  intros Hinj Hl. revert l' Hinj. induction Hl as [|t l [Ht1 Ht2] Hl IH]; intros [|t' l'] Hinj Hl' Hp Hp' E;
    cbn [fmap list_fmap concat] in E; rewrite <- ?app_assoc in E.
  - split; [done|]. by destruct p, p'; simplify_eq/=.
  - apply Forall_cons in Hl' as [[? ?] _]. by apply frame_not_tail in E.
  - symmetry in E. by apply frame_not_tail in E.
  - apply Forall_cons in Hl' as [[Hs' Hs1'] Hl']. apply u32_prefixed_inj in E as [Et E]; [|done..].
    apply IH in E as [-> ->]; [|set_solver|done..]. split; [|done]. f_equal. apply Hinj; [left|left|done].
Qed.

(** A block hash binds the number, epoch, parent, state roots, time, producer,
    randomness, data root and transactions: blocks with the same hashed bytes
    agree on all of them, when the JSON of their transactions tells these apart. *)
Theorem block_hash_binds b b' :
  (forall t t', t ∈ transactions b -> t' ∈ transactions b' -> tx_json t = tx_json t' -> t = t') -> block_wf b -> block_wf b' ->
  block_hash_input b = block_hash_input b' ->
  number b = number b' /\ b_epoch b = b_epoch b' /\ b_parent_hash b = b_parent_hash b' /\
  b_state_root b = b_state_root b' /\ timestamp b = timestamp b' /\ producer_id b = producer_id b' /\
  vrf_output b = vrf_output b' /\ vrf_proof b = vrf_proof b' /\ data_root b = data_root b' /\
  transactions b = transactions b' /\ post_state_root b = post_state_root b'.
Proof.
  intros Hj [] [] E. unfold block_hash_input in E.
  apply app_inj_1 in E as [En E]; [|by rewrite !length_to_le_bytes].
  apply app_inj_1 in E as [Ee E]; [|by rewrite !length_to_le_bytes].
  apply app_inj_1 in E as [Ep E]; [|congruence]. apply app_inj_1 in E as [Es E]; [|congruence].
  apply app_inj_1 in E as [Et E]; [|by rewrite !length_to_le_bytes].
  apply (tag_fixed_inj _ _ 8) in E as [Eid E]; [|by intros ? (? & _ & ->)%fmap_Some; apply length_to_le_bytes..].
  apply tag_prefixed_inj in E as [Ev E]; [|done..]. apply tag_prefixed_inj in E as [Evp E]; [|done..].
  apply (tag_fixed_inj _ _ 32) in E as [Ed E]; [|done..]. apply frames_inj in E as [El Er]; [|done..].
  split_and!; try done; try (by apply to_le_bytes_inj).
  destruct (producer_id b) as [i|], (producer_id b') as [j|]; try discriminate Eid; [|done].
  apply (f_equal (from_option id [])) in Eid. f_equal. apply to_le_bytes_inj; auto.
Qed.

(** The rest of a block is not hashed: the chain identifier, the parents of a
    multi-parent block, the submission epochs that price the proposer's bonus, the
    certificates and the versions can change without changing the hash that was
    voted on. *)
Lemma block_hash_ignores b chain ps hints cert dac pv sv rows cols :
  block_hash_input
    {| number := number b; b_epoch := b_epoch b; b_parent_hash := b_parent_hash b; b_state_root := b_state_root b;
       transactions := transactions b; timestamp := timestamp b; b_chain_id := chain; producer_id := producer_id b;
       vrf_output := vrf_output b; vrf_proof := vrf_proof b; data_root := data_root b; da_row_roots := rows;
       da_col_roots := cols; blob_commitments := blob_commitments b; da_certificate := dac;
       b_commit_certificate := cert; nova_proof := nova_proof b; b_anchor_hash := b_anchor_hash b;
       state_function_commitment := state_function_commitment b; oracle_state_root := oracle_state_root b;
       shard_count := shard_count b; protocol_version := pv; state_root_version := sv; submit_epoch_hints := hints;
       parents := ps; post_state_root := post_state_root b |} = block_hash_input b.
Proof. done. Qed.
End encodings.

(** ** Commits *)

Section commits.
Context `{TxJson, CurveJson, Blake3, HybridVerifier, BlsKeys, HashOrder}.

Lemma block_hash_set_certificate c b : block_hash (set_certificate c b) = block_hash b.
Proof. done. Qed.

Lemma da_gate_set_certificate n c b : da_gate n (set_certificate c b) = da_gate n b.
Proof. done. Qed.

(** What a committing step establishes, with the votes of [n] still in [n']. *)
Record committed (n n' : TendermintConsensus) (b : Block) : Prop := {
  cm_quorum : check_precommit_quorum n = Some (Some (block_hash b));
  cm_gate : da_gate n b = true;
  cm_votes : precommits (round_state n') = precommits (round_state n);
  cm_set : validator_set n' = validator_set n;
  cm_cfg : cfg n' = cfg n;
  cm_da : da n' = da n;
  cm_phase : phase (round_state n') = PCommit;
  cm_block : proposed_block (round_state n') = None;
}.

Lemma commit_committed n hash p b :
  check_precommit_quorum n = Some (Some hash) -> block_hash p = hash -> da_gate n p = true ->
  CommitBlock b ∈ (commit n hash p).2 -> committed n (commit n hash p).1 b.
Proof.
  intros Hq Hh Hg Hb. unfold commit in Hb. cbn in Hb. apply list_elem_of_singleton in Hb as [= ->].
  destruct (b_commit_certificate p); split; try done; by rewrite ?block_hash_set_certificate, Hh.
Qed.

Lemma on_precommit_quorum_commits n b :
  CommitBlock b ∈ (on_precommit_quorum n).2 -> committed n (on_precommit_quorum n).1 b.
Proof.
  unfold on_precommit_quorum. destruct (check_precommit_quorum n) as [[hash|]|] eqn:Eq; try (by intros ?%elem_of_nil).
  destruct (proposed_block (round_state n)) as [p|]; [|by intros ?%elem_of_nil].
  destruct (decide (block_hash p = hash)) as [Hh|]; [|by intros [=]%list_elem_of_singleton].
  destruct (da_gate n p) eqn:Eg; [|by intros ?%elem_of_nil]. by apply commit_committed.
Qed.

(** The reasons still hold afterwards. *)
Lemma committed_after n n' b :
  committed n n' b ->
  check_precommit_quorum n' = Some (Some (block_hash b)) /\ da_gate n' b = true /\
  phase (round_state n') = PCommit /\ proposed_block (round_state n') = None.
Proof.
  intros [Hq Hg Hv Hs Hc Hd Hp Hb]. unfold check_precommit_quorum, da_gate, has_da_supermajority in *.
  by rewrite Hv, Hs, Hc, Hd.
Qed.

(** Actions that commit nothing. *)
Definition no_commit (acts : list ConsensusAction) : Prop := Forall (fun a => match a with CommitBlock _ => False | _ => True end) acts.

Lemma no_commit_elem acts b : no_commit acts -> CommitBlock b ∈ acts -> False.
Proof. unfold no_commit. rewrite Forall_forall. intros Hn Hb. exact (Hn _ Hb). Qed.

#[local] Hint Constructors Forall : core.
#[local] Hint Resolve Forall_nil_2 : core.

Ltac quiet := repeat first [ done | apply Forall_app; split | apply Forall_cons_2; [exact I|] | apply Forall_nil_2 ].

Lemma attest_quiet a : no_commit (attest a).
Proof. destruct a; unfold attest, no_commit; quiet. Qed.

Lemma on_prevote_quorum_quiet t n : no_commit (on_prevote_quorum t n).2.
Proof.
  unfold on_prevote_quorum, no_commit. destruct (check_prevote_quorum n) as [v|]; [|cbn; quiet].
  destruct (precommitted (round_state n)); cbn; [quiet|]. unfold byzantine_precommit. repeat case_match; quiet.
Qed.

Lemma accept_proposal_quiet e b hash n : no_commit (accept_proposal e b hash n).2.
Proof.
  unfold accept_proposal, no_commit. cbn. destruct (prevoted (round_state n)); [cbn; quiet|].
  destruct (prevote_for _ hash); cbn; quiet. apply attest_quiet.
Qed.

Lemma on_proposal_quiet e h r b p sig n : no_commit (on_proposal e h r b p sig n).2.
Proof.
  assert (Hr : forall acts, reject_early e (observe h n) h r b p sig = Some acts -> no_commit acts).
  { unfold reject_early, no_commit. intros acts. repeat case_match; intros [= <-]; quiet. }
  assert (Hc : forall n, no_commit (if reject_late e n h r b p then (n, [])
    else match validate_block_refunds e b with
         | RefundsOk => if da2d_ok e b then accept_proposal e b (block_hash b) n else (n, [])
         | MissingRefund => (count_missing_refund p n, [])
         | OtherRefundError => (n, []) end).2).
  { intros m. repeat case_match; try apply accept_proposal_quiet; cbn; unfold no_commit; quiet. }
  unfold on_proposal. case_bool_decide; [by apply Forall_nil_2|].
  destruct (reject_early _ _ _ _ _ _ _) as [acts|] eqn:Ee; [by apply Hr|].
  destruct (seen_hash _ _ _ _) as [prev|]; [|apply Hc]. destruct (decide (prev = block_hash b)); [apply Hc|].
  destruct (slash_equivocator p _) as [m amount]. cbn. unfold no_commit. quiet.
Qed.

Lemma tick_propose_quiet e n : no_commit (tick_propose e n).2.
Proof.
  assert (Hp : forall p m, no_commit (propose e p m).2).
  { intros p m. unfold propose, no_commit. cbn. quiet. case_match; [apply attest_quiet|quiet]. }
  assert (Hr : forall n', no_commit (try_propose e n').2).
  { intros n'. unfold try_propose. case_match; [|unfold no_commit; cbn; quiet].
    destruct (create_proposal e n') as [m [p|]]; [apply Hp|]. unfold no_commit; cbn; quiet. }
  unfold tick_propose. set (n' := update_authoritative_head e n). specialize (Hr n').
  destruct (try_propose e n') as [m acts]. cbn in Hr. case_match; [|done].
  destruct (negb (draining (cfg n')) && negb (prevoted (round_state m))); cbn; unfold no_commit in *; quiet.
Qed.

Lemma tick_prevote_quiet e n : no_commit (tick_prevote e n).2.
Proof.
  pose proof (on_prevote_quorum_quiet (now e) n) as Hq. unfold tick_prevote.
  destruct (on_prevote_quorum (now e) n) as [m acts]. cbn in Hq. case_match; [|done].
  destruct (negb (precommitted (round_state m))); cbn; unfold no_commit in *; quiet.
Qed.

(** A handler that commits does so on the state it leaves. *)
Definition commits_soundly (r : TendermintConsensus * list ConsensusAction) : Prop :=
  forall b, CommitBlock b ∈ r.2 -> exists n, committed n r.1 b.

Lemma quiet_sound r : no_commit r.2 -> commits_soundly r.
Proof. intros Hq b Hb. by apply no_commit_elem in Hb. Qed.

Lemma on_precommit_quorum_sound n : commits_soundly (on_precommit_quorum n).
Proof. intros b Hb. exists n. by apply on_precommit_quorum_commits. Qed.

Lemma on_attestation_sound a n : commits_soundly (on_attestation a n).
Proof.
  unfold on_attestation. repeat (case_match; try (apply quiet_sound; by apply Forall_nil_2)).
  all: intros c Hc; eexists; apply commit_committed; try done.
  all: match goal with H : bool_decide _ && da_gate _ _ = true |- _ => apply andb_true_iff in H as [?%bool_decide_eq_true ?] end.
  all: done.
Qed.

Lemma on_message_sound e m n : commits_soundly (on_message e m n).
Proof.
  unfold on_message. destruct m; cbn [msg_height msg_round].
  1-3: case_match; [apply quiet_sound; by apply Forall_nil_2|];
    case_match; [apply quiet_sound; unfold on_future_height; case_match; repeat constructor|];
    case_match; [apply quiet_sound; by apply Forall_nil_2|]; generalize (if round (round_state n) <? r
      then set_timeouts_for_round r (set_round (round_new r (now e)) n) else n); intros k.
  - apply quiet_sound, on_proposal_quiet.
  - apply quiet_sound. unfold on_prevote, store_prevote.
    repeat (case_match; try (by apply Forall_nil_2); try apply on_prevote_quorum_quiet).
  - unfold on_precommit, store_precommit.
    repeat (case_match; try (apply quiet_sound; by apply Forall_nil_2); try apply on_precommit_quorum_sound).
  - apply quiet_sound. by apply Forall_nil_2.
  - apply on_attestation_sound.
  - apply quiet_sound. by apply Forall_nil_2.
Qed.

Lemma tick_precommit_commits e n b :
  CommitBlock b ∈ (tick_precommit e n).2 -> check_precommit_quorum n = Some (Some (block_hash b)) /\ da_gate n b = true.
Proof.
  unfold tick_precommit. destruct (waiting_for_da n); [by intros ?%elem_of_nil|].
  pose proof (on_precommit_quorum_commits n b) as Hc. destruct (on_precommit_quorum n) as [m acts]. cbn in Hc.
  intros Hb. assert (Hin : CommitBlock b ∈ acts) by (revert Hb; case_match; done).
  by destruct (Hc Hin).
Qed.

Lemma after_announce (r : TendermintConsensus * list ConsensusAction) l :
  (let '(n, acts) := r in (n, l ++ acts)).2 = l ++ r.2.
Proof. by destruct r. Qed.

Context `{Pallas}.

(** C7: a block is committed only on a quorum of precommits for its hash and, where
    availability is enforced, a supermajority of attestations: from a message,
    with the votes and the validators it leaves behind; from the clock, with the
    votes it found and the freshly weighted validators. *)
Theorem commit_needs_quorum e n b :
  (forall m, CommitBlock b ∈ (on_message e m n).2 ->
     let n' := (on_message e m n).1 in
     check_precommit_quorum n' = Some (Some (block_hash b)) /\ da_gate n' b = true /\
     phase (round_state n') = PCommit /\ proposed_block (round_state n') = None) /\
  (forall db, CommitBlock b ∈ (tick db e n).2 ->
     let n' := set_vset (refresh_delegated_stakes db (validator_set n)) n in
     phase (round_state n) = PPrecommit /\ check_precommit_quorum n' = Some (Some (block_hash b)) /\
     da_gate n' b = true).
Proof.
  split.
  - intros m Hb. destruct (on_message_sound e m n b Hb) as [k Hk]. by apply (committed_after k).
  - intros db Hb. unfold tick in Hb. set (k := set_vset (refresh_delegated_stakes db (validator_set n)) n) in *.
    change (phase (round_state n)) with (phase (round_state k)). cbv zeta in Hb.
    rewrite after_announce in Hb. apply elem_of_app in Hb as [Hb|Hb].
    { exfalso. revert Hb. unfold make_key_announce. repeat case_match; rewrite ?list_elem_of_singleton; try done; by intros ?%elem_of_nil. }
    destruct (phase (round_state k)) eqn:Ep.
    + exfalso. eapply no_commit_elem; [apply tick_propose_quiet|exact Hb].
    + exfalso. eapply no_commit_elem; [apply tick_prevote_quiet|exact Hb].
    + split; [done|]. by apply (tick_precommit_commits e).
    + by apply elem_of_nil in Hb.
Qed.
End commits.
