(* ===== verification/TendermintVotes.v ===== *)
(** * Votes and locks of one validator

    What any step of the voting core can broadcast: at most one prevote and one
    precommit per round while rounds move forward, prevotes that respect the
    lock, and locks taken only on a quorum. *)

From stdpp Require Import base gmap list strings sorting.
From Stdlib Require Import ZArith Lia.
From S2P Require Import Prelude Energy Types Trie StateDB Transactions Mempool Validators Anchor LightClient Finality Sanov Tendermint.

Open Scope Z_scope.

Section votes.
Context `{TxJson, CurveJson, Blake3, HybridVerifier, BlsKeys, HashOrder}.

Abbreviation node := TendermintConsensus.
Abbreviation action := ConsensusAction.

Definition prevote_rounds (acts : list action) : list Z :=
  omap (fun a => match a with BroadcastMessage (Prevote _ r _ _ _) => Some r | _ => None end) acts.

Definition precommit_rounds (acts : list action) : list Z :=
  omap (fun a => match a with BroadcastMessage (Precommit _ r _ _ _) => Some r | _ => None end) acts.

(** What the lock lets a validator prevote for. *)
Definition lock_allows (n : node) (v : Vote) : Prop :=
  match locked_block (lock n), locked_round (lock n) with
  | Some b, Some _ => v = None \/ v = Some (block_hash b)
  | _, _ => True
  end.

Definition respectful (n : node) (acts : list action) : Prop :=
  forall h r v id sig, BroadcastMessage (Prevote h r v id sig) ∈ acts ->
    h = height (cfg n) /\ id = my_id (cfg n) /\ lock_allows n v.

(** A lock on the block of a prevote quorum of this round. *)
Definition locked_on_quorum (n : node) : Prop :=
  exists b, locked_block (lock n) = Some b /\ locked_round (lock n) = Some (round (round_state n)) /\
    check_prevote_quorum n = Some (Some (block_hash b)).

(** A flag goes up with a vote, and only then. *)
Definition voted (rounds : list Z) (r : Z) (flag flag' : bool) : Prop :=
  rounds = [] /\ flag' = flag \/ rounds = [r] /\ flag = false /\ flag' = true.

(** A step within a round. *)
Record handled (n n' : node) (acts : list action) : Prop := {
  hd_round : round (round_state n') = round (round_state n);
  hd_prevote : voted (prevote_rounds acts) (round (round_state n)) (prevoted (round_state n)) (prevoted (round_state n'));
  hd_precommit :
    voted (precommit_rounds acts) (round (round_state n)) (precommitted (round_state n)) (precommitted (round_state n'));
  hd_phase : phase (round_state n') = PPropose ->
    phase (round_state n) = PPropose /\ prevoted (round_state n') = prevoted (round_state n);
  hd_lock : lock n' = lock n \/ locked_on_quorum n';
  hd_values : respectful n acts;
  hd_cfg : cfg n' = cfg n;
}.

(** A step that votes on nothing. *)
Record silent (n n' : node) : Prop := {
  sl_round : round (round_state n') = round (round_state n);
  sl_prevoted : prevoted (round_state n') = prevoted (round_state n);
  sl_precommitted : precommitted (round_state n') = precommitted (round_state n);
  sl_phase : phase (round_state n') = phase (round_state n);
  sl_lock : lock n' = lock n;
  sl_cfg : cfg n' = cfg n;
}.

#[local] Instance silent_preorder : PreOrder silent.
Proof. split; [by intros n|]. intros a b c [] []. split; congruence. Qed.

Lemma respectful_no_votes n acts : prevote_rounds acts = [] -> respectful n acts.
Proof.
  intros E h r v id sig Hin. assert (Hr : r ∈ prevote_rounds acts).
  { unfold prevote_rounds. apply list_elem_of_omap. by eexists. }
  rewrite E in Hr. by apply elem_of_nil in Hr.
Qed.

Lemma silent_handled n n' acts :
  silent n n' -> prevote_rounds acts = [] -> precommit_rounds acts = [] -> handled n n' acts.
Proof.
  intros [Hr Hp Hc Hph Hl Hcfg] Ep Ec. split; try done.
  - rewrite Ep. by left.
  - rewrite Ec. by left.
  - rewrite Hph. done.
  - by left.
  - by apply respectful_no_votes.
Qed.

Lemma silent_then n m n' acts : silent n m -> handled m n' acts -> handled n n' acts.
Proof.
  intros [Sr Sp Sc Sph Sl Scfg] [Hr Hp Hc Hph Hl Hv Hcfg].
  split; try congruence; rewrite <- ?Sr, <- ?Sp, <- ?Sc, <- ?Sph, <- ?Sl; try done.
  intros h r v id sig Hin. destruct (Hv _ _ _ _ _ Hin) as (? & ? & Hla). unfold lock_allows in *. rewrite Scfg, Sl in *. done.
Qed.

Ltac quiet_step := split; cbn; congruence.

Lemma slash_silent id n : silent n (slash_equivocator id n).1.
Proof. unfold slash_equivocator. destruct (sanov_slash_equivocation _ _ _). done. Qed.

Lemma to_dag_silent e f v n : (forall tip m, silent m (f tip m)) -> silent n (to_dag e f v n).
Proof. intros Hf. unfold to_dag. repeat case_match; done. Qed.

Lemma record_dag_prevote_silent t tip id v sig n : silent n (record_dag_prevote t tip id v sig n).
Proof. unfold record_dag_prevote. case_match; done. Qed.

Lemma record_dag_precommit_silent t tip id v sig n : silent n (record_dag_precommit t tip id v sig n).
Proof. unfold record_dag_precommit. case_match; done. Qed.

(** ** Quorums *)

Lemma on_prevote_quorum_handled t n :
  byzantine_double_precommit (cfg n) = false -> handled n (on_prevote_quorum t n).1 (on_prevote_quorum t n).2.
Proof.
  intros Hb. unfold on_prevote_quorum. destruct (check_prevote_quorum n) as [v|] eqn:Eq; [|by apply silent_handled].
  destruct (precommitted (round_state n)) eqn:Ec.
  { split; cbn; try done; [by left|by left|by left|by apply respectful_no_votes]. }
  assert (Hl : cfg (take_lock v n) = cfg n /\ round_state (take_lock v n) = round_state n /\
    validator_set (take_lock v n) = validator_set n /\
    (lock (take_lock v n) = lock n \/ exists p, v = Some (block_hash p) /\
       locked_block (lock (take_lock v n)) = Some p /\ locked_round (lock (take_lock v n)) = Some (round (round_state n)))).
  { unfold take_lock. repeat case_match; split_and!; try done; try (by left). right. subst. by eexists. }
  destruct Hl as (Hcfg & Hrs & Hvs & Hlock). unfold byzantine_precommit. cbn. rewrite Hcfg, Hb, Hrs. cbn.
  split; cbn; rewrite ?Hrs, ?Hcfg; try done.
  - by left.
  - right. by rewrite Ec.
  - destruct Hlock as [?|(p & Hv & Hbl & Hro)]; [by left|]. right. exists p. cbn. rewrite Hrs. split_and!; [done|done|].
    unfold check_prevote_quorum in *. cbn. rewrite Hrs, Hvs, Eq. by rewrite Hv.
  - apply respectful_no_votes. done.
Qed.

Lemma on_precommit_quorum_handled n : handled n (on_precommit_quorum n).1 (on_precommit_quorum n).2.
Proof.
  unfold on_precommit_quorum. destruct (check_precommit_quorum n) as [[hash|]|]; try (by apply silent_handled).
  destruct (proposed_block (round_state n)) as [p|]; [|by apply silent_handled].
  destruct (decide (block_hash p = hash)); [destruct (da_gate n p)|]; try (by apply silent_handled).
  split; cbn; try done; [by left|by left|by left|by apply respectful_no_votes].
Qed.

(** ** Messages *)

Lemma attest_no_votes a : prevote_rounds (attest a) = [] /\ precommit_rounds (attest a) = [].
Proof. by destruct a. Qed.

Lemma attest_no_prevote a h r v id sig : BroadcastMessage (Prevote h r v id sig) ∈ attest a -> False.
Proof. destruct a; cbn; [by intros [=]%list_elem_of_singleton|by intros ?%elem_of_nil]. Qed.

Lemma prevote_for_allowed n hash : lock_allows n (prevote_for n hash).
Proof.
  unfold lock_allows, prevote_for. destruct (locked_block (lock n)) as [b|], (locked_round (lock n)); try done.
  case_decide as E; [right; by rewrite E|by left].
Qed.

(** The prevote of this node, followed by actions without votes. *)
Lemma own_prevote_respectful n v sig acts :
  lock_allows n v -> (forall h r u id s, BroadcastMessage (Prevote h r u id s) ∈ acts -> False) ->
  respectful n (BroadcastMessage (Prevote (height (cfg n)) (round (round_state n)) v (my_id (cfg n)) sig) :: acts).
Proof.
  intros Hl Hq h r u id s [Hin|Hin]%elem_of_cons; [by simplify_eq|]. by apply Hq in Hin.
Qed.

Lemma accept_proposal_handled e b hash n : handled n (accept_proposal e b hash n).1 (accept_proposal e b hash n).2.
Proof.
  unfold accept_proposal. cbn. destruct (prevoted (round_state n)) eqn:Ep; [by apply silent_handled|].
  set (n0 := with_round (set_proposal (Some b) (Some hash)) n).
  assert (Hall : lock_allows n (prevote_for n0 hash)) by apply (prevote_for_allowed n0).
  destruct (attest_no_votes (perform_da_sampling e b)) as [Hp Hc].
  destruct (prevote_for n0 hash) as [w|] eqn:Ev; cbn.
  - assert (Hn : handled n (with_round (enter_phase PPrevote (now e)) (cast_prevote (Some w) n0).1)
      ((cast_prevote (Some w) n0).2 ++ attest (perform_da_sampling e b))).
    { split; cbn; try done; [right|left|by left|].
      - unfold prevote_rounds in *. cbn. by rewrite Hp, Ep.
      - by split; [exact Hc|].
      - apply own_prevote_respectful; [done|]. intros h r u id s. apply attest_no_prevote. }
    destruct (producer_id b); [destruct Hn; by split|exact Hn].
  - split; cbn; try done; [right; by rewrite Ep|by left|by left|].
    apply own_prevote_respectful; [done|]. by intros h r u id s ?%elem_of_nil.
Qed.

Lemma on_proposal_handled e h r b p sig n : handled n (on_proposal e h r b p sig n).1 (on_proposal e h r b p sig n).2.
Proof.
  assert (Hc : forall m, silent n m -> let res := if reject_late e m h r b p then (m, [])
    else match validate_block_refunds e b with
         | RefundsOk => if da2d_ok e b then accept_proposal e b (block_hash b) m else (m, [])
         | MissingRefund => (count_missing_refund p m, [])
         | OtherRefundError => (m, []) end in handled n res.1 res.2).
  { intros m Hm. apply (silent_then n m); [done|]. repeat case_match; try (by apply silent_handled). apply accept_proposal_handled. }
  unfold on_proposal. case_bool_decide; [by apply silent_handled|].
  destruct (reject_early _ _ _ _ _ _ _) as [acts|] eqn:Ee.
  { assert (Hq : acts = [] \/ exists x y, acts = [RequestSync x y]).
    { unfold reject_early in Ee. repeat case_match; simplify_eq; eauto. }
    destruct Hq as [->|(x & y & ->)]; by apply silent_handled. }
  destruct (seen_hash _ _ _ _) as [prev|]; [|by apply Hc]. destruct (decide (prev = block_hash b)); [by apply Hc|].
  pose proof (slash_silent p (observe h n)) as Hs. destruct (slash_equivocator p (observe h n)) as [m amount].
  apply silent_handled; [|done|done]. transitivity (observe h n); [done|]. destruct Hs. by split.
Qed.

Lemma on_prevote_handled e h r v id sig n :
  byzantine_double_precommit (cfg n) = false ->
  handled n (on_prevote e h r v id sig n).1 (on_prevote e h r v id sig n).2.
Proof.
  intros Hb. assert (Hs : handled n (store_prevote e id v sig n).1 (store_prevote e id v sig n).2).
  { unfold store_prevote. set (m := to_dag _ _ _ _). assert (Hm : silent n m).
    { transitivity (with_round (record_prevote id v sig false) n); [done|].
      apply to_dag_silent. intros. apply record_dag_prevote_silent. }
    apply (silent_then n m); [done|]. case_decide; [|by apply silent_handled].
    apply on_prevote_quorum_handled. by rewrite (sl_cfg _ _ Hm). }
  unfold on_prevote. repeat (case_match; try done); try (by apply silent_handled); apply silent_handled; try done; apply slash_silent.
Qed.

Lemma on_precommit_handled e h r v id sig n :
  handled n (on_precommit e h r v id sig n).1 (on_precommit e h r v id sig n).2.
Proof.
  assert (Hs : handled n (store_precommit e id v sig n).1 (store_precommit e id v sig n).2).
  { unfold store_precommit. set (m := to_dag _ _ _ _). assert (Hm : silent n m).
    { transitivity (with_round (record_precommit id v sig false) n); [done|].
      apply to_dag_silent. intros. apply record_dag_precommit_silent. }
    apply (silent_then n m); [done|]. apply on_precommit_quorum_handled. }
  unfold on_precommit. repeat (case_match; try done); try (by apply silent_handled); apply silent_handled; try done; apply slash_silent.
Qed.

Lemma on_attestation_handled a n : handled n (on_attestation a n).1 (on_attestation a n).2.
Proof.
  unfold on_attestation. repeat (case_match; try (by apply silent_handled)).
  all: split; cbn; try done; [by left|by left|by left|by apply respectful_no_votes].
Qed.

(** ** The clock *)

Lemma prevote_rounds_app a b : prevote_rounds (a ++ b) = prevote_rounds a ++ prevote_rounds b.
Proof. apply omap_app. Qed.

Lemma precommit_rounds_app a b : precommit_rounds (a ++ b) = precommit_rounds a ++ precommit_rounds b.
Proof. apply omap_app. Qed.

Lemma respectful_app n a b : respectful n a -> respectful n b -> respectful n (a ++ b).
Proof. intros Ha Hb h r v id sig [Hin|Hin]%elem_of_app; eauto. Qed.

(** Leaving the proposal phase after a step. *)
Lemma then_phase p t n m acts :
  p <> PPropose -> handled n m acts -> handled n (with_round (enter_phase p t) m) acts.
Proof. intros Hp [Hr Hpv Hpc Hph Hl Hv Hc]. by split. Qed.

(** A nil vote after a step that did not vote. *)
Lemma then_nil_prevote n m acts :
  handled n m acts -> lock m = lock n -> prevoted (round_state m) = false ->
  handled n (with_round (enter_phase PPrevote 0) (cast_prevote None m).1) (acts ++ (cast_prevote None m).2).
Proof.
  intros [Hr Hpv Hpc Hph Hl Hv Hc] El Hm. rewrite Hm in Hpv. destruct Hpv as [[Ep Ef]|(_ & _ & ?)]; [|done].
  split; cbn; try done.
  - right. rewrite prevote_rounds_app, Ep. cbn. by rewrite Hr, <- Ef.
  - rewrite precommit_rounds_app, app_nil_r. done.
  - by left.
  - apply respectful_app; [done|]. rewrite Hc. intros h r v id sig Hin%list_elem_of_singleton. simplify_eq. split_and!; try done.
    unfold lock_allows. repeat case_match; auto.
Qed.

Lemma then_nil_precommit n m acts :
  handled n m acts -> precommitted (round_state m) = false ->
  handled n (with_round (enter_phase PPrecommit 0) (cast_precommit None m).1) (acts ++ (cast_precommit None m).2).
Proof.
  intros [Hr Hpv Hpc Hph Hl Hv Hc] Hm. rewrite Hm in Hpc. destruct Hpc as [[Ep Ef]|(_ & _ & ?)]; [|done].
  split; cbn; try done.
  - rewrite prevote_rounds_app, app_nil_r. done.
  - right. rewrite precommit_rounds_app, Ep. cbn. by rewrite Hr, <- Ef.
  - apply respectful_app; [done|]. by apply respectful_no_votes.
Qed.

(** Times do not matter. *)
Lemma handled_time n m acts p t t' :
  handled n (with_round (enter_phase p t) m) acts -> handled n (with_round (enter_phase p t') m) acts.
Proof. intros [Hr Hpv Hpc Hph Hl Hv Hc]. by split. Qed.

Lemma try_propose_handled e n :
  phase (round_state n) = PPropose -> prevoted (round_state n) = false -> handled n (try_propose e n).1 (try_propose e n).2.
Proof.
  intros Hph Hpv. unfold try_propose. case_match; [|by apply silent_handled].
  destruct (create_proposal e n) as [m o] eqn:Ec.
  assert (Hm : silent n m /\ forall p, o = Some p -> lock_allows n (Some (block_hash p))).
  { unfold create_proposal in Ec. unfold lock_allows. destruct (locked_block (lock n)) as [b|]; simplify_eq; split; try done.
    intros p [= ->]. case_match; auto. }
  destruct Hm as [Hm Hl]. apply (silent_then n m); [done|]. destruct o as [p|]; [|by apply silent_handled].
  specialize (Hl p eq_refl). unfold propose. cbn.
  set (att := match data_root p with Some root => attest (make_da_attestation e (number p) root) | None => [] end).
  assert (Ha : prevote_rounds att = [] /\ precommit_rounds att = [] /\
    forall h r v id sig, BroadcastMessage (Prevote h r v id sig) ∈ att -> False).
  { unfold att. destruct (data_root p) as [root|]; [|split_and!; try done; by intros ? ? ? ? ? ?%elem_of_nil].
    destruct (attest_no_votes (make_da_attestation e (number p) root)). split_and!; try done. intros ? ? ? ? ?. apply attest_no_prevote. }
  destruct Ha as (Hap & Hac & Hav). destruct Hm as [Sr Sp Sc Sph Sl Scfg]. split; cbn; try done; [right|left|by left|].
  - unfold prevote_rounds in *. cbn. rewrite Hap. by rewrite Sp, Hpv.
  - by split; [exact Hac|].
  - intros h r v id sig [Hin|Hin]%elem_of_cons; [done|]. revert h r v id sig Hin. apply own_prevote_respectful; [|done].
    unfold lock_allows in *. by rewrite Sl.
Qed.

Lemma try_propose_lock e n : lock (try_propose e n).1 = lock n.
Proof.
  unfold try_propose, create_proposal. case_match; [|done]. destruct (locked_block (lock n)); [done|].
  by destruct (fresh_proposal e (mempool (books n))) as [[p|] ?].
Qed.

Lemma tick_propose_handled e n :
  phase (round_state n) = PPropose -> prevoted (round_state n) = false -> handled n (tick_propose e n).1 (tick_propose e n).2.
Proof.
  intros Hph Hpv. unfold tick_propose. set (n' := update_authoritative_head e n).
  assert (Hs : silent n n') by (unfold n', update_authoritative_head; by case_decide).
  apply (silent_then n n'); [done|]. destruct Hs as [Sr Sp Sc Sph Sl Scfg].
  pose proof (try_propose_handled e n' ltac:(congruence) ltac:(congruence)) as Hm. pose proof (try_propose_lock e n') as Hl.
  destruct (try_propose e n') as [m acts]. cbn in Hm, Hl. case_match; [|done].
  destruct (negb (draining (cfg n')) && negb (prevoted (round_state m))) eqn:E; cbn [fst snd].
  - apply andb_true_iff in E as [_ E%negb_true_iff]. eapply handled_time. by apply then_nil_prevote.
  - rewrite app_nil_r. by apply then_phase.
Qed.

Lemma tick_prevote_handled e n :
  byzantine_double_precommit (cfg n) = false -> handled n (tick_prevote e n).1 (tick_prevote e n).2.
Proof.
  intros Hb. pose proof (on_prevote_quorum_handled (now e) n Hb) as Hm. unfold tick_prevote.
  destruct (on_prevote_quorum (now e) n) as [m acts]. cbn in Hm. case_match; [|done].
  destruct (negb (precommitted (round_state m))) eqn:E; cbn [fst snd].
  - apply negb_true_iff in E. eapply handled_time. by apply then_nil_precommit.
  - rewrite app_nil_r. by apply then_phase.
Qed.

(** ** Rounds *)

Definition next_round (r : Z) : Z := if MAX_ROUNDS_PER_HEIGHT <=? r + 1 then 0 else r + 1.

(** The bookkeeping of a round change leaves votes, lock and settings alone. *)
Definition same_core (n m : node) : Prop := round_state m = round_state n /\ lock m = lock n /\ cfg m = cfg n.

Lemma count_missed_proposal_core n : same_core n (count_missed_proposal n).
Proof. unfold count_missed_proposal. repeat case_match; done. Qed.

Lemma count_missed_votes_core l n : same_core n (foldl count_missed_vote n l).
Proof.
  revert n. induction l as [|id l IH]; intros n; [done|]. cbn [foldl].
  assert (Hc : same_core n (count_missed_vote n id)) by (unfold count_missed_vote; repeat case_match; done).
  destruct (IH (count_missed_vote n id)) as (? & ? & ?), Hc as (? & ? & ?). split_and!; congruence.
Qed.

Lemma advance_round_new t n :
  round_state (advance_round t n) = round_new (next_round (round (round_state n))) t /\
  lock (advance_round t n) = lock n /\ cfg (advance_round t n) = cfg n.
Proof.
  unfold advance_round. set (a := count_missed_proposal n). set (b := foldl _ a _).
  destruct (count_missed_proposal_core n) as (Ra & La & Ca). fold a in Ra, La, Ca.
  destruct (count_missed_votes_core (v_id <$> active (validator_set a)) a) as (Rb & Lb & Cb). fold b in Rb, Lb, Cb.
  destruct (proposed_block (round_state b)); unfold next_round; cbn; rewrite Rb, Ra; split_and!; congruence.
Qed.

(** Two changes in a row never come back to the same round. *)
Lemma next_round_ne r : next_round r <> r /\ next_round (next_round r) <> r.
Proof. unfold next_round, MAX_ROUNDS_PER_HEIGHT. repeat (case_match; rewrite ?Z.leb_le, ?Z.leb_gt in *); lia. Qed.

(** ** Any step *)

Inductive input := ITick (db : InMemoryStateDB) (e : Env) | IMsg (e : Env) (m : ConsensusMessage).

Definition step `{Pallas} (i : input) (n : node) : node * list action :=
  match i with ITick db e => tick db e n | IMsg e m => on_message e m n end.

(** A vote for the round the step ends in, by a flag that was down. *)
Definition voted_now (rounds : list Z) (n n' : node) (flag : RoundState -> bool) : Prop :=
  rounds = [] /\ (round (round_state n') = round (round_state n) -> flag (round_state n') = flag (round_state n))
  \/ rounds = [round (round_state n')] /\ flag (round_state n') = true /\
     (round (round_state n') = round (round_state n) -> flag (round_state n) = false).

Record stepped (n n' : node) (acts : list action) : Prop := {
  st_prevote : voted_now (prevote_rounds acts) n n' prevoted;
  st_precommit : voted_now (precommit_rounds acts) n n' precommitted;
  st_phase : phase (round_state n') = PPropose -> prevoted (round_state n') = false;
  st_lock : lock n' = lock n \/ locked_on_quorum n';
  st_values : respectful n acts;
  st_cfg : cfg n' = cfg n;
}.

(** What holds between steps. *)
Definition unvoted_in_propose (n : node) : Prop :=
  phase (round_state n) = PPropose -> prevoted (round_state n) = false.

Lemma voted_voted_now rounds n n' flag :
  round (round_state n') = round (round_state n) ->
  voted rounds (round (round_state n)) (flag (round_state n)) (flag (round_state n')) -> voted_now rounds n n' flag.
Proof. unfold voted, voted_now. intros -> [[-> ->]|(-> & -> & ->)]; [by left|by right]. Qed.

Lemma handled_stepped n n' acts : unvoted_in_propose n -> handled n n' acts -> stepped n n' acts.
Proof.
  intros Hu [Hr Hp Hc Hph Hl Hv Hcfg]. split; try done; try by apply voted_voted_now.
  intros [Hn ->]%Hph. by apply Hu.
Qed.

(** A step after jumping to a later round. *)
Lemma skipped_stepped r t n n' acts :
  round (round_state n) < r ->
  handled (set_timeouts_for_round r (set_round (round_new r t) n)) n' acts -> stepped n n' acts.
Proof.
  intros Hlt [Hr Hp Hc Hph Hl Hv Hcfg]. cbn in *. split; try done.
  - destruct Hp as [[-> _]|(-> & _ & Hf)]; [left; split; [done|lia]|right; split_and!; [by rewrite Hr|done|lia]].
  - destruct Hc as [[-> _]|(-> & _ & Hf)]; [left; split; [done|lia]|right; split_and!; [by rewrite Hr|done|lia]].
  - by intros [_ ?]%Hph.
Qed.

Lemma on_message_stepped e m n :
  unvoted_in_propose n -> byzantine_double_precommit (cfg n) = false ->
  stepped n (on_message e m n).1 (on_message e m n).2.
Proof.
  intros Hu Hb. assert (Hs : forall acts, prevote_rounds acts = [] -> precommit_rounds acts = [] -> stepped n n acts).
  { intros acts Hp Hc. by apply handled_stepped, silent_handled. }
  assert (Hf : forall h, stepped n n (on_future_height h n)).
  { intros h. unfold on_future_height. case_match; by apply Hs. }
  unfold on_message. destruct m as [h r b p sig|h r v id sig|h r v id sig|id pk pop c|a|]; cbn [msg_height msg_round].
  1-3: case_match; [by apply Hs|]; case_match; [apply Hf|]; case_match; [by apply Hs|].
  - destruct (Z.ltb_spec (round (round_state n)) r).
    + eapply skipped_stepped; [done|]. apply on_proposal_handled.
    + apply handled_stepped; [done|]. apply on_proposal_handled.
  - destruct (Z.ltb_spec (round (round_state n)) r).
    + eapply skipped_stepped; [done|]. by apply on_prevote_handled.
    + apply handled_stepped; [done|]. by apply on_prevote_handled.
  - destruct (Z.ltb_spec (round (round_state n)) r).
    + eapply skipped_stepped; [done|]. apply on_precommit_handled.
    + apply handled_stepped; [done|]. apply on_precommit_handled.
  - apply handled_stepped; [done|]. apply silent_handled; [|done|done].
    unfold on_key_announce. repeat case_match; done.
  - apply handled_stepped; [done|]. apply on_attestation_handled.
  - by apply Hs.
Qed.

Lemma on_precommit_quorum_no_votes n :
  prevote_rounds (on_precommit_quorum n).2 = [] /\ precommit_rounds (on_precommit_quorum n).2 = [] /\
  lock (on_precommit_quorum n).1 = lock n.
Proof. unfold on_precommit_quorum. repeat case_match; done. Qed.

Lemma advanced_stepped r t n n' acts :
  round_state n' = round_new r t -> r <> round (round_state n) -> lock n' = lock n -> cfg n' = cfg n ->
  prevote_rounds acts = [] -> precommit_rounds acts = [] -> stepped n n' acts.
Proof.
  intros Hr Hne Hl Hc Hp Hq. split; rewrite ?Hr, ?Hp, ?Hq; try done.
  - left. by rewrite Hr.
  - left. by rewrite Hr.
  - by left.
  - by apply respectful_no_votes.
Qed.

Lemma tick_precommit_stepped e n :
  unvoted_in_propose n -> stepped n (tick_precommit e n).1 (tick_precommit e n).2.
Proof.
  intros Hu. unfold tick_precommit. destruct (waiting_for_da n); [by apply handled_stepped, silent_handled|].
  pose proof (on_precommit_quorum_handled n) as Hm. destruct (on_precommit_quorum_no_votes n) as (Hp & Hc & Hl).
  destruct (on_precommit_quorum n) as [m acts]. cbn in *. pose proof (hd_round _ _ _ Hm) as Hr. pose proof (hd_cfg _ _ _ Hm) as Hcfg.
  destruct (next_round_ne (round (round_state n))) as [N1 N2].
  destruct (advance_round_new (now e) m) as (A1 & A2 & A3). rewrite Hr in A1.
  destruct (advance_round_new (now e) (advance_round (now e) m)) as (B1 & B2 & B3). rewrite A1 in B1. cbn [round round_new] in B1.
  assert (One : stepped n (advance_round (now e) m) acts) by (eapply (advanced_stepped _ _ _ _ _ A1); [done|by rewrite A2|by rewrite A3|done|done]).
  assert (Two : stepped n (advance_round (now e) (advance_round (now e) m)) acts)
    by (eapply (advanced_stepped _ _ _ _ _ B1); [done|by rewrite B2, A2|by rewrite B3, A3|done|done]).
  assert (Zero : stepped n m acts) by (by apply handled_stepped).
  destruct (check_precommit_quorum m) as [[|]|]; case_match; done.
Qed.

Lemma announced_stepped n n' l acts :
  prevote_rounds l = [] -> precommit_rounds l = [] -> stepped n n' acts -> stepped n n' (l ++ acts).
Proof.
  intros Hp Hc []. split; try done; rewrite ?prevote_rounds_app, ?precommit_rounds_app, ?Hp, ?Hc; try done.
  apply respectful_app; [by apply respectful_no_votes|done].
Qed.

Lemma tick_stepped `{Pallas} db e n :
  unvoted_in_propose n -> byzantine_double_precommit (cfg n) = false -> stepped n (tick db e n).1 (tick db e n).2.
Proof.
  intros Hu Hb. unfold tick. set (k := set_vset (refresh_delegated_stakes db (validator_set n)) n).
  match goal with |- context [if ?c then make_key_announce k else []] => set (l := if c then make_key_announce k else []) end.
  assert (Hl : prevote_rounds l = [] /\ precommit_rounds l = []).
  { unfold l, make_key_announce. repeat case_match; done. }
  assert (Hk : forall n' acts, stepped k n' acts -> stepped n n' (l ++ acts)).
  { intros n' acts Hs. apply announced_stepped; [apply Hl|apply Hl|]. by destruct Hs. }
  assert (Hres : forall r : node * list action, stepped k r.1 r.2 ->
    stepped n (let '(m, acts) := r in (m, l ++ acts)).1 (let '(m, acts) := r in (m, l ++ acts)).2).
  { intros [m acts] Hr. by apply Hk. }
  apply Hres. destruct (phase (round_state k)) eqn:Ep.
  - apply handled_stepped; [done|]. apply tick_propose_handled; [done|]. by apply Hu.
  - apply handled_stepped; [done|]. by apply tick_prevote_handled.
  - by apply tick_precommit_stepped.
  - by apply handled_stepped, silent_handled.
Qed.

Lemma step_stepped `{Pallas} i n :
  unvoted_in_propose n -> byzantine_double_precommit (cfg n) = false -> stepped n (step i n).1 (step i n).2.
Proof. destruct i; [apply tick_stepped|apply on_message_stepped]. Qed.

(** ** Runs *)

Section runs.
Context `{Pallas}.

Fixpoint run (ins : list input) (n : node) : node * list action :=
  match ins with
  | [] => (n, [])
  | i :: ins' => let '(n', acts) := step i n in let '(n'', acts') := run ins' n' in (n'', acts ++ acts')
  end.

(** No step goes back to an earlier round. *)
Fixpoint forward (ins : list input) (n : node) : Prop :=
  match ins with
  | [] => True
  | i :: ins' => round (round_state n) <= round (round_state (step i n).1) /\ forward ins' (step i n).1
  end.

(** The rounds voted in so far. *)
Definition accounted (sent : list Z) (n : node) (flag : RoundState -> bool) : Prop :=
  NoDup sent /\ forall r, r ∈ sent -> r <= round (round_state n) /\ (r = round (round_state n) -> flag (round_state n) = true).

Lemma accounted_step sent rounds n n' flag :
  round (round_state n) <= round (round_state n') -> voted_now rounds n n' flag -> accounted sent n flag ->
  accounted (sent ++ rounds) n' flag.
Proof.
  intros Hle Hv [Hnd Hs]. destruct Hv as [[-> Hsame]|(-> & Hf & Hwas)].
  - rewrite app_nil_r. split; [done|]. intros r Hr. destruct (Hs r Hr) as [Hr1 Hr2]. split; [lia|]. intros ->.
    assert (E : round (round_state n') = round (round_state n)) by lia. rewrite (Hsame E). by apply Hr2.
  - split.
    + apply NoDup_app. split_and!; [done| |by apply NoDup_singleton]. intros r Hr ->%list_elem_of_singleton.
      destruct (Hs _ Hr) as [Hr1 Hr2]. assert (E : round (round_state n') = round (round_state n)) by lia.
      specialize (Hr2 E). specialize (Hwas E). congruence.
    + intros r [Hr| ->%list_elem_of_singleton]%elem_of_app; [|done]. destruct (Hs r Hr) as [Hr1 _]. split; [lia|].
      intros ->. destruct (decide (round (round_state n') = round (round_state n))) as [E|]; [|lia]. done.
Qed.

Lemma run_accounted ins n sp sc :
  unvoted_in_propose n -> byzantine_double_precommit (cfg n) = false -> forward ins n ->
  accounted sp n prevoted -> accounted sc n precommitted ->
  accounted (sp ++ prevote_rounds (run ins n).2) (run ins n).1 prevoted /\
  accounted (sc ++ precommit_rounds (run ins n).2) (run ins n).1 precommitted.
Proof.
  revert n sp sc. induction ins as [|i ins IH]; intros n sp sc Hu Hb Hf Hp Hc; [cbn; by rewrite !app_nil_r|].
  destruct Hf as [Hle Hf]. pose proof (step_stepped i n Hu Hb) as [Sp Sc Sph _ _ Scfg]. cbn [run].
  destruct (step i n) as [n' acts]. cbn in *. specialize (IH n' (sp ++ prevote_rounds acts) (sc ++ precommit_rounds acts)).
  destruct (run ins n') as [n'' acts']. cbn in *. rewrite prevote_rounds_app, precommit_rounds_app, !app_assoc.
  apply IH; [done|congruence|done|by eapply accounted_step|by eapply accounted_step].
Qed.

(** C9: one vote per round: from the start of a round on, whatever arrives and
    whenever the clock ticks, as long as rounds do not go back a validator broadcasts
    at most one prevote and at most one precommit for each round. *)
Theorem votes_once ins n :
  prevoted (round_state n) = false -> precommitted (round_state n) = false ->
  byzantine_double_precommit (cfg n) = false -> forward ins n ->
  NoDup (prevote_rounds (run ins n).2) /\ NoDup (precommit_rounds (run ins n).2).
Proof.
  intros Hp Hc Hb Hf. destruct (run_accounted ins n [] []) as [[Hn _] [Hn' _]]; try done.
  - by intros _.
  - split; [constructor|]. by intros r ?%elem_of_nil.
  - split; [constructor|]. by intros r ?%elem_of_nil.
Qed.

(** C10: the lock: a locked validator prevotes for its locked block or for nil, under
    its own identity and at its height, and a lock is only ever replaced by one on a
    block that has a quorum of prevotes in the current round. *)
Theorem lock_respected i n :
  (phase (round_state n) = PPropose -> prevoted (round_state n) = false) ->
  byzantine_double_precommit (cfg n) = false ->
  let '(n', acts) := step i n in
  (forall h r v id sig, BroadcastMessage (Prevote h r v id sig) ∈ acts ->
     h = height (cfg n) /\ id = my_id (cfg n) /\ lock_allows n v) /\
  (lock n' = lock n \/ locked_on_quorum n') /\
  (phase (round_state n') = PPropose -> prevoted (round_state n') = false).
Proof.
  intros Hu Hb. pose proof (step_stepped i n Hu Hb) as [_ _ Hph Hl Hv _]. destruct (step i n) as [n' acts]. done.
Qed.
End runs.
End votes.
