(* ===== verification/TendermintRuns.v ===== *)
(** * Runs of the voting core

    Several validators on one network, with concrete cryptography: the
    guarantees of the voting core at work, and the runs where they end. *)

From stdpp Require Import base gmap list strings sorting.
From Stdlib Require Import ZArith Lia.
From S2P Require Import Prelude Energy Types Trie StateDB Transactions Mempool Validators Anchor LightClient Finality Sanov Tendermint TendermintSafety TendermintVotes.

Open Scope Z_scope.

(** ** Networks *)

Section network.
Context `{TxJson, CurveJson, Blake3, HybridVerifier, BlsKeys, HashOrder, Pallas}.

Definition sender (m : ConsensusMessage) : option Z :=
  match m with
  | Proposal _ _ _ id _ | Prevote _ _ _ id _ | Precommit _ _ _ id _ | KeyAnnounce id _ _ _ => Some id
  | Attestation a => Some (at_validator a)
  | OracleVote => None
  end.

(** The honest validators, every message ever sent, and what was decided. *)
Record Net := {
  nodes : gmap Z TendermintConsensus;
  wire : list ConsensusMessage;
  decided : list (Z * Block);
}.

Inductive event :=
| ETick (i : Z) (db : InMemoryStateDB) (e : Env)
| EDeliver (i : Z) (k : nat) (e : Env)
| EFaulty (m : ConsensusMessage).

Definition broadcasts (acts : list ConsensusAction) : list ConsensusMessage :=
  omap (fun a => match a with BroadcastMessage m => Some m | _ => None end) acts.

Definition commits (i : Z) (acts : list ConsensusAction) : list (Z * Block) :=
  omap (fun a => match a with CommitBlock b => Some (i, b) | _ => None end) acts.

Definition node_step (i : Z) (inp : input) (w : Net) : Net :=
  match nodes w !! i with
  | Some n =>
      let '(n', acts) := step inp n in
      {| nodes := <[ i := n' ]> (nodes w); wire := wire w ++ broadcasts acts; decided := decided w ++ commits i acts |}
  | None => w
  end.

(** A validator ticks or receives any message of the wire; a faulty one sends
    anything under its own identity. *)
Definition net_step (faulty : gset Z) (w : Net) (ev : event) : Net :=
  match ev with
  | ETick i db e => node_step i (ITick db e) w
  | EDeliver i k e => match wire w !! k with Some m => node_step i (IMsg e m) w | None => w end
  | EFaulty m =>
      match sender m with
      | Some id =>
          if decide (id ∈ faulty)
          then {| nodes := nodes w; wire := wire w ++ [m]; decided := decided w |}
          else w
      | None => w
      end
  end.
End network.

(** ** Four validators *)

#[global] Instance toy_tx_json : TxJson := fun _ => [123; 125].

(** Signatures that name their key. *)
#[global] Instance toy_bls_keys : BlsKeys :=
  {| bls_sign sk msg := sk ++ msg; bls_verify msg sig pk := bool_decide (sig = pk ++ msg);
     bls_verify_pop _ _ := true; bls_aggregate l := Some (concat l); bls_public_of sk := sk; bls_pop_of _ := [] |}.

Module Four.

Definition validator (i : Z) : ValidatorInfo :=
  {| v_id := i; stake := 100; address := []; bls_public_key := Some [i]; vrf_public_key := None;
     blocks_produced := 0; evaporations_processed := 0; health_score := F64.zero; jailed := false;
     total_slashed := 0; bls_pop := None; pop_verified := true; bls_public_key_prev := None;
     bls_prev_key_expiry_epoch := None; delegated_stake := 0; commission_ppm := default_commission_ppm |}.

Definition set4 : ValidatorSet := {| validators := validator <$> [1; 2; 3; 4] |}.

Definition block (ts : Z) : Block :=
  {| number := 2; b_epoch := 1; b_parent_hash := zero32; b_state_root := zero32; transactions := []; timestamp := ts;
     b_chain_id := "evapor"; producer_id := None; vrf_output := None; vrf_proof := None; data_root := None;
     da_row_roots := []; da_col_roots := []; blob_commitments := []; da_certificate := None;
     b_commit_certificate := None; nova_proof := None; b_anchor_hash := None; state_function_commitment := None;
     oracle_state_root := None; shard_count := None; protocol_version := 0; state_root_version := 0;
     submit_epoch_hints := []; parents := []; post_state_root := None |}.

(** At time [t], with [p] to propose, and every other check passing. *)
Definition env (t : Z) (p : Block) : Env :=
  {| now := t; now_secs := 1000; fresh_proposal m := (Some p, m); light_cone_contains _ := false;
     make_da_attestation _ _ := None; perform_da_sampling _ := None; block_json_len _ := Some 100;
     candidate_heads := []; heads_by_caliber := []; mcc_accepts _ _ := true; nova_ok _ := true; vrf_verify _ _ _ _ := true;
     check_weak_subjectivity _ := true; verify_da_certificate _ := true; validate_block_refunds _ := RefundsOk;
     da2d_ok _ := true |}.

Definition settings (i : Z) (drain : bool) : Config :=
  {| my_id := i; height := 2; chain_id := "evapor"; bls_keypair := Some [i]; parent_hash := zero32;
     last_block_timestamp := 0; current_state_root := zero32; block_gas_limit := 0; parent_acceptance_mode := None;
     light_cone_state_branches_enabled := None; da_enforcement_height := U64_MAX; small_cluster_da_mode := false;
     draining := drain; byzantine_double_precommit := false |}.

(** A validator at the start of height 2. *)
Definition start (i : Z) (drain : bool) : TendermintConsensus :=
  set_timeouts_for_round 0
    {| cfg := settings i drain; validator_set := set4; round_state := round_new 0 0; lock := unlocked;
       evidence := {| proposals_seen := ∅; slashed_equivocator_blocks := ∅; missed_proposals := ∅; missed_votes := ∅ |};
       da := {| da_attestations := ∅; da_block_proposers := ∅ |};
       books := {| mempool := mempool_new; finality_tracker := with_max_records 10;
                   mev_missing_refund_violations := ∅; p2_04_last_warned := None; dag_round_states := ∅;
                   cross_fork_equivocations := ∅; current_authoritative_head := None |};
       timeouts := {| propose_timeout := 0; prevote_timeout := 0; precommit_timeout := 0 |} |}.

Definition honest (l : list Z) : Net :=
  {| nodes := list_to_map ((fun i => (i, start i false)) <$> l); wire := []; decided := [] |}.

Definition prevote (i r : Z) (b : Block) : ConsensusMessage :=
  let v := Some (block_hash b) in Prevote 2 r v i (Some ([i] ++ vote_message "evapor" 2 r v "prevote")).
Definition precommit (i r : Z) (b : Block) : ConsensusMessage :=
  let v := Some (block_hash b) in Precommit 2 r v i (Some ([i] ++ vote_message "evapor" 2 r v "precommit")).

Definition B : Block := block 10.
Definition B' : Block := block 20.
Definition tick_at (i t : Z) (p : Block) : event := ETick i db_new (env t p).
Definition deliver (i : Z) (k : nat) : event := EDeliver i k (env 0 B).

(** Validator 4 is faulty.  It votes for [B] in round 0, but its votes reach
    only 1 and 3; 3 misses the proposal. *)
Definition split : list event :=
  [ tick_at 1 0 B;                              (* 0: proposal of B; 1: prevote of 1 *)
    deliver 2 0;                                (* 2: prevote of 2 *)
    tick_at 3 9000 B;                           (* 3: nil prevote of 3 *)
    EFaulty (prevote 4 0 B);                    (* 4 *)
    deliver 1 2; deliver 1 4;                   (* 5: precommit of 1, locked on B *)
    deliver 3 1; deliver 3 2; deliver 3 4;      (* 6: precommit of 3, not locked *)
    EFaulty (precommit 4 0 B);                  (* 7 *)
    tick_at 2 40000 B;                          (* 8: nil precommit of 2 *)
    deliver 1 6; deliver 1 7;                   (* 1 decides B *)
    tick_at 2 80000 B; tick_at 2 80001 B';      (* round 1; 9: proposal of B'; 10: prevote of 2 *)
    deliver 3 9;                                (* 11: prevote of 3 *)
    EFaulty (prevote 4 1 B');                   (* 12 *)
    deliver 2 11; deliver 2 12;                 (* 13: precommit of 2 *)
    deliver 3 10; deliver 3 12;                 (* 14: precommit of 3 *)
    EFaulty (precommit 4 1 B');                 (* 15 *)
    deliver 2 14; deliver 2 15 ].               (* 2 decides B' *)

(** Validator 1 alone on its clock until the round counter starts over: every
    phase of the ten rounds times out, and at round 0 it has another block. *)
Definition start_over : list event :=
  tick_at 1 0 B :: ((fun k => tick_at 1 (Z.of_nat k * 100000) B) <$> seq 1 29) ++ [tick_at 1 3000000 B'].

(** The same block with other submission epochs. *)
Definition with_hints (h : list (option Z)) : Block :=
  {| number := 2; b_epoch := 1; b_parent_hash := zero32; b_state_root := zero32; transactions := []; timestamp := 10;
     b_chain_id := "evapor"; producer_id := None; vrf_output := None; vrf_proof := None; data_root := None;
     da_row_roots := []; da_col_roots := []; blob_commitments := []; da_certificate := None;
     b_commit_certificate := None; nova_proof := None; b_anchor_hash := None; state_function_commitment := None;
     oracle_state_root := None; shard_count := None; protocol_version := 0; state_root_version := 0;
     submit_epoch_hints := h; parents := []; post_state_root := None |}.
Definition proposal (b : Block) : ConsensusMessage :=
  Proposal 2 0 b 1 (Some ([1] ++ vote_message "evapor" 2 0 (Some (block_hash b)) "proposal")).

(** Validator 1 sends two versions of one block. *)
Definition two_versions : list event :=
  [ EFaulty (proposal (with_hints [Some 1])); EFaulty (proposal (with_hints [Some 2]));
    deliver 2 0; deliver 3 0; deliver 4 1;        (* 2, 3, 4: prevotes *)
    deliver 2 3; deliver 2 4; deliver 3 2; deliver 3 4; deliver 4 2; deliver 4 3;   (* 5, 6, 7: precommits *)
    deliver 2 6; deliver 2 7; deliver 4 5; deliver 4 6 ].

(** Everybody honest and connected. *)
Definition good : list event :=
  [ tick_at 1 0 B; deliver 2 0; deliver 3 0; deliver 4 0;   (* 1 to 4: prevotes *)
    deliver 1 2; deliver 1 3; deliver 2 1; deliver 2 3; deliver 3 1; deliver 3 2; deliver 4 1; deliver 4 2;
    deliver 1 6; deliver 1 7; deliver 2 5; deliver 2 7; deliver 3 5; deliver 3 6; deliver 4 5; deliver 4 6 ].
End Four.

(** ** Where the guarantees end *)

Import Four.


(** With everybody honest and connected, the four validators commit the
    proposal in round 0. *)
Theorem good_round_commits :
  exists bs, decided (foldl (net_step ∅) (honest [1; 2; 3; 4]) good) = zip [1; 2; 3; 4] bs /\
    Forall (fun b => block_hash b = block_hash B /\ is_Some (b_commit_certificate b)) bs.
Proof.
  eexists [_; _; _; _]. split; [vm_compute; reflexivity|].
  repeat constructor; by eexists.
Qed.

(** An honest proposer is slashed: after ten rounds the round counter starts over
    at 0 while the record of proposals seen at height and round persists, so that its
    second proposal at round 0 is taken for equivocation, with no faulty validator. *)
Theorem honest_proposer_slashed :
  let w := foldl (net_step ∅) (honest [1; 2]) (start_over ++ [deliver 2 0; deliver 2 22]) in
  exists n v, nodes w !! 2 = Some n /\ get (validator_set n) 1 = Some v /\
    jailed v = true /\ stake v = 0 /\ total_slashed v = 100.
Proof. eexists _, _. split; [vm_compute; reflexivity|]. split; [vm_compute; reflexivity|done]. Qed.

(** Validators that committed under one hash can hold different blocks: the
    submission epochs, which price the proposer's bonus, are not hashed. *)
Theorem hints_diverge :
  exists b b', decided (foldl (net_step {[1]}) (honest [2; 3; 4]) two_versions) = [(2, b); (4, b')] /\
    block_hash b = block_hash b' /\ submit_epoch_hints b <> submit_epoch_hints b'.
Proof. eexists _, _. split; [vm_compute; reflexivity|]. split; by vm_compute. Qed.

(** A draining validator still votes: it prevotes for a proposal it receives. *)
Theorem draining_still_votes :
  let v := Some (block_hash B) in
  broadcasts (on_message (env 0 B) (proposal B) (start 2 true)).2
  = [Prevote 2 0 v 2 (Some ([2] ++ vote_message "evapor" 2 0 v "prevote"))].
Proof. vm_compute. reflexivity. Qed.

Section skips.
Context `{TxJson, CurveJson, Blake3, HybridVerifier, BlsKeys, HashOrder}.

(** Round skips are not authenticated: a prevote that names no validator of the
    set, with any signature, moves a validator to any later round, discards the
    proposal and the votes it has collected, and sets timeouts that grow with the
    round without bound but its width. *)
Theorem round_skip_unauthenticated e n r v id sig :
  0 <= round (round_state n) < r -> r < 2 ^ 32 -> get (validator_set n) id = None ->
  let '(n', acts) := on_message e (Prevote (height (cfg n)) r v id sig) n in
  acts = [] /\ round_state n' = round_new r (now e) /\ 8000 + 1000 * r <= propose_timeout (timeouts n').
Proof.
  intros Hr Hr' Hid. cbn [on_message msg_height msg_round]. rewrite Z.ltb_irrefl.
  rewrite (proj2 (Z.ltb_ge r _)), (proj2 (Z.ltb_lt _ r)) by lia. unfold on_prevote.
  cbn [cfg set_timeouts_for_round set_timeouts set_round validator_set round_state round round_new].
  rewrite !Z.eqb_refl. cbn [negb orb]. rewrite bool_decide_eq_true_2 by done. split_and!; [done..|].
  cbn -[wrapping_add saturating_add saturating_mul wrapping_mul Z.modulo].
  match goal with |- context [?x mod 100] => pose proof (Z.mod_pos_bound x 100 ltac:(lia)); generalize dependent (x mod 100) end.
  intros j Hj. unfold wrapping_add, saturating_add, saturating_mul, PROPOSE_TIMEOUT_MS, PROPOSE_TIMEOUT_DELTA_MS.
  unfold as_u64, U64_MAX in *. rewrite Z.mod_small by lia. lia.
Qed.
End skips.

(** ** Instances *)

Lemma round_skip_unauthenticated_witness :
  let '(n', acts) := on_message (env 5 B) (Prevote 2 (2 ^ 32 - 1) None 9 None) (start 1 false) in
  acts = [] /\ round_state n' = round_new (2 ^ 32 - 1) 5 /\ 8000 + 1000 * (2 ^ 32 - 1) <= propose_timeout (timeouts n').
Proof. apply (round_skip_unauthenticated (env 5 B) (start 1 false) (2 ^ 32 - 1) None 9 None); [split; [|vm_compute]; done|lia|done]. Defined.

Definition votes4 : gmap Z Vote := {[1 := Some [7]; 2 := Some [7]; 3 := Some [7]; 4 := None]}.

Lemma set4_countable : countable_set set4.
Proof. split; [apply (bool_decide_unpack _); by vm_compute|by repeat constructor|done]. Qed.

(** The other way around. *)
Definition reversed_order : HashOrder :=
  {| hash_keys K A _ _ m := reverse (map_to_list m).*1; hash_keys_perm K A _ _ m := reverse_Permutation _ |}.

Lemma check_quorum_exact_witness :
  (@check_quorum reversed_order set4 votes4 = Some (Some [7]) <-> 2 * 400 < 3 * support set4 votes4 (Some [7])) /\
  @check_quorum reversed_order set4 votes4 = @check_quorum ToyDB.toy_order set4 votes4.
Proof. apply (check_quorum_exact reversed_order ToyDB.toy_order set4 votes4 (Some [7])), set4_countable. Defined.

(** The faulty validator 4 votes for two blocks. *)
Lemma round_agreement_witness :
  check_quorum set4 votes4 = Some (Some [7]) /\
  check_quorum set4 (<[ 4 := Some [8] ]> votes4) = Some (Some [7]) /\ Some [7] = Some [7].
Proof.
  split; [by vm_compute|]. split; [by vm_compute|].
  apply (round_agreement set4 set4_countable {[4]} votes4 (<[ 4 := Some [8] ]> votes4)); [by vm_compute| |by vm_compute..].
  intros id u u' Hid Hu Hu'. rewrite lookup_insert_ne in Hu' by set_solver. congruence.
Defined.

Lemma votes_once_witness :
  let ins := [ITick db_new (env 0 B); IMsg (env 0 B) (prevote 2 0 B); IMsg (env 0 B) (prevote 3 0 B)] in
  NoDup (prevote_rounds (run ins (start 1 false)).2) /\ NoDup (precommit_rounds (run ins (start 1 false)).2) /\
  precommit_rounds (run ins (start 1 false)).2 = [0].
Proof.
  intros ins. destruct (votes_once ins (start 1 false)) as [Hp Hc]; [done..| |split_and!; [done..|by vm_compute]].
  cbn [forward ins]. repeat split; by vm_compute.
Defined.

(** Locked on [B], and offered [B']. *)
Definition locked3 : TendermintConsensus :=
  set_lock {| locked_block := Some B; locked_round := Some 0; valid_block := Some B; valid_round := Some 0 |} (start 3 false).

Lemma lock_respected_witness :
  broadcasts (step (IMsg (env 0 B) (proposal B')) locked3).2
  = [Prevote 2 0 None 3 (Some ([3] ++ vote_message "evapor" 2 0 None "prevote"))] /\
  let '(n', acts) := step (IMsg (env 0 B) (proposal B')) locked3 in
  (forall h r v id sig, BroadcastMessage (Prevote h r v id sig) ∈ acts -> h = 2 /\ id = 3 /\ lock_allows locked3 v) /\
  (lock n' = lock locked3 \/ locked_on_quorum n') /\
  (phase (round_state n') = PPropose -> prevoted (round_state n') = false).
Proof. split; [by vm_compute|]. apply (lock_respected (IMsg (env 0 B) (proposal B')) locked3); by intros. Defined.

Lemma with_hints_wf h : block_wf (with_hints h).
Proof. by split. Qed.

Lemma block_hash_binds_witness :
  block_hash_input (with_hints [Some 1]) = block_hash_input (with_hints [Some 2]) /\
  number (with_hints [Some 1]) = number (with_hints [Some 2]) /\
  transactions (with_hints [Some 1]) = transactions (with_hints [Some 2]).
Proof.
  split; [done|]. destruct (block_hash_binds (with_hints [Some 1]) (with_hints [Some 2])) as (? & _ & _ & _ & _ & _ & _ & _ & _ & ? & _);
    [by intros t t' ?%elem_of_nil|apply with_hints_wf..|done|done].
Defined.
