(* ===== verification/Fees.v ===== *)
(** * Fees

    crates/evaporchain-execution/src/fees.rs: the controller that moves the
    base fee towards a target utilisation (proportional, integral and
    derivative terms in binary64), and the fees it quotes. *)

From stdpp Require Import base list.
From Stdlib Require Import ZArith Lia SpecFloat.
From S2P Require Import Prelude Types Validators.

Open Scope Z_scope.

Definition CREATION_DEPOSIT_PER_BYTE : Z := 100.
Definition REFRESH_FEE_RATIO : F64.f64 := F64.lit 20 100.
Definition RESURRECTION_FEE_RATIO : F64.f64 := F64.lit 60 100.
Definition MIN_CREATION_DEPOSIT : Z := 1000.
Definition MIN_REFRESH_FEE : Z := 100.
Definition MIN_RESURRECTION_FEE : Z := 500.
Definition INTEGRAL_CLAMP : F64.f64 := F64.lit 10 1.

Record PidFeeController := {
  base_fee : Z;
  target_utilization : F64.f64;
  kp : F64.f64;
  ki : F64.f64;
  kd : F64.f64;
  integral_error : F64.f64;
  last_error : F64.f64;
  min_base_fee : Z;
  max_base_fee : Z;
}.

(** [f64::clamp]: NaN stays NaN. *)
Definition f64_clamp (lo hi x : F64.f64) : F64.f64 :=
  if SFltb x lo then lo else if SFltb hi x then hi else x.

(** [u64::clamp], which panics when the bounds are crossed. *)
Definition u64_clamp (lo hi x : Z) : option Z :=
  if hi <? lo then None else Some (if x <? lo then lo else if hi <? x then hi else x).

Definition controller_new (target p i d : F64.f64) (initial lo hi : Z) : PidFeeController :=
  {| base_fee := initial; target_utilization := f64_clamp (F64.lit 1 100) (F64.lit 99 100) target;
     kp := p; ki := i; kd := d; integral_error := F64.zero; last_error := F64.zero;
     min_base_fee := lo; max_base_fee := hi |}.

Definition default_config : PidFeeController :=
  controller_new (F64.lit 5 10) (F64.lit 125 1000) (F64.lit 1 100) (F64.lit 5 100) 1000 100 1000000.

Definition testnet_config : PidFeeController :=
  controller_new (F64.lit 5 10) (F64.lit 125 1000) (F64.lit 1 100) (F64.lit 5 100) 1 1 1000.

Definition set_base (fee : Z) (integral last : F64.f64) (c : PidFeeController) : PidFeeController :=
  {| base_fee := fee; target_utilization := target_utilization c; kp := kp c; ki := ki c; kd := kd c;
     integral_error := integral; last_error := last; min_base_fee := min_base_fee c;
     max_base_fee := max_base_fee c |}.

(** [None] is the panic of the final clamp. *)
Definition update (block_gas_used gas_limit : Z) (c : PidFeeController) : option PidFeeController :=
  if gas_limit =? 0 then Some c
  else
    let utilization := SFdiv 53 1024 (F64.of_int block_gas_used) (F64.of_int gas_limit) in
    let error := F64.sub utilization (target_utilization c) in
    let integral := f64_clamp (SFopp INTEGRAL_CLAMP) INTEGRAL_CLAMP (F64.add (integral_error c) error) in
    let derivative := F64.sub error (last_error c) in
    let adjustment := F64.add (F64.add (F64.mul (kp c) error) (F64.mul (ki c) integral)) (F64.mul (kd c) derivative) in
    let new_fee := F64.mul (F64.of_int (base_fee c)) (F64.add (F64.lit 1 1) adjustment) in
    fee ← u64_clamp (min_base_fee c) (max_base_fee c) (F64.round_as_int new_fee);
    Some (set_base fee integral error c).

Definition compute_gas_fee (c : PidFeeController) (gas_used priority_tip : Z) : Z :=
  saturating_add (saturating_mul (base_fee c) gas_used) priority_tip.

Definition compute_creation_deposit (data_size : Z) : Z :=
  Z.max (saturating_mul CREATION_DEPOSIT_PER_BYTE data_size) MIN_CREATION_DEPOSIT.

Definition compute_refresh_fee (energy_deposited : Z) : Z :=
  Z.max (F64.round_as_int (F64.mul (F64.of_int energy_deposited) REFRESH_FEE_RATIO)) MIN_REFRESH_FEE.

Definition compute_resurrection_fee (data_size : Z) : Z :=
  Z.max (F64.round_as_int (F64.mul (F64.of_int (compute_creation_deposit data_size)) RESURRECTION_FEE_RATIO))
    MIN_RESURRECTION_FEE.

(** ** The controller is bounded *)

(** The value a clamp leaves is not outside its bounds. *)
Lemma f64_clamp_bounds lo hi x :
  SFltb lo lo = false -> SFltb hi hi = false -> SFltb hi lo = false ->
  SFltb (f64_clamp lo hi x) lo = false /\ SFltb hi (f64_clamp lo hi x) = false.
Proof.
  intros Hl Hh Hhl. unfold f64_clamp. destruct (SFltb x lo) eqn:E1; [done|]. destruct (SFltb hi x) eqn:E2; [|done].
  split; [done|done].
Qed.

(** One block after another. *)
Fixpoint updates (blocks : list (Z * Z)) (c : PidFeeController) : option PidFeeController :=
  match blocks with
  | [] => Some c
  | (used, limit) :: blocks' => c' ← update used limit c; updates blocks' c'
  end.

Record controller_ok (c : PidFeeController) : Prop := {
  co_fee : min_base_fee c <= base_fee c <= max_base_fee c;
  co_integral_low : SFltb (integral_error c) (SFopp INTEGRAL_CLAMP) = false;
  co_integral_high : SFltb INTEGRAL_CLAMP (integral_error c) = false;
}.

Lemma update_ok used limit c :
  controller_ok c ->
  exists c', update used limit c = Some c' /\ controller_ok c' /\
    min_base_fee c' = min_base_fee c /\ max_base_fee c' = max_base_fee c.
Proof.
  intros [Hf Hl Hh]. unfold update. destruct (limit =? 0); [by eexists|]. unfold u64_clamp.
  destruct (Z.ltb_spec (max_base_fee c) (min_base_fee c)); [lia|]. eexists. split; [reflexivity|]. split; [|done].
  destruct (f64_clamp_bounds (SFopp INTEGRAL_CLAMP) INTEGRAL_CLAMP
    (F64.add (integral_error c) (F64.sub (SFdiv 53 1024 (F64.of_int used) (F64.of_int limit)) (target_utilization c))))
    as [H1 H2]; [by vm_compute..|].
  split; [cbn; zcase; lia|exact H1|exact H2].
Qed.

(** The controller never panics, whatever the blocks used: from consistent
    bounds the base fee stays within them and the integral term within its clamp,
    for every sequence of blocks. *)
Theorem controller_bounded blocks c :
  controller_ok c ->
  exists c', updates blocks c = Some c' /\ controller_ok c' /\
    min_base_fee c <= base_fee c' <= max_base_fee c.
Proof.
  revert c. induction blocks as [|[used limit] blocks IH]; intros c Hc; simpl.
  - exists c. split_and!; [done|done|apply Hc..].
  - destruct (update_ok used limit c Hc) as (c1 & -> & H1 & Hlo & Hhi). simpl.
    destruct (IH c1 H1) as (c' & E & H' & Hb). exists c'. rewrite <- Hlo, <- Hhi. done.
Qed.

Lemma controller_bounded_witness :
  exists c', updates [(30000000, 30000000); (0, 30000000); (5, 0)] default_config = Some c' /\ controller_ok c' /\
    100 <= base_fee c' <= 1000000.
Proof. apply (controller_bounded [(30000000, 30000000); (0, 30000000); (5, 0)] default_config). split; [cbn; lia|by vm_compute..]. Defined.
