(* ===== verification/Fractions.v ===== *)
(** * Fractions of integers in binary64

    The token economics multiply an integer by a rate between 0 and 1 in
    binary64 and round the product back to an integer.  Below 2^53 the result
    never exceeds the integer it is a fraction of. *)

From stdpp Require Import base list.
From Stdlib Require Import ZArith Lia SpecFloat.
From S2P Require Import Prelude Validators.

Open Scope Z_scope.

(** A rate: a canonical binary64 value between 0 and 1. *)
Definition rate_ok (r : F64.f64) : bool :=
  valid_binary 53 1024 r && SFleb F64.zero r && SFleb r (F64.lit 1 1).

Section rounding.

Lemma iter_pos_nat {A} (f : A -> A) p x : iter_pos f p x = Nat.iter (Pos.to_nat p) f x.
Proof.
  revert x. induction p as [p IH|p IH|]; intros x; cbn [iter_pos]; [..|done].
  - rewrite !IH, Pos2Nat.inj_xI, <- !Nat.iter_add. rewrite Nat.iter_succ_r. f_equal. lia.
  - rewrite !IH, Pos2Nat.inj_xO, <- !Nat.iter_add. f_equal. lia.
Qed.

(** What [k] shifts leave of a mantissa [m]; the lost bits are remembered. *)
Definition shifted (m : Z) (k : nat) (s : shr_record) : Prop :=
  shr_m s = m / 2 ^ Z.of_nat k /\ (shr_r s || shr_s s = true -> m mod 2 ^ Z.of_nat k <> 0).

Lemma shr_1_fields s : 0 <= shr_m s -> shr_1 s = {| shr_m := shr_m s / 2; shr_r := Z.odd (shr_m s); shr_s := shr_r s || shr_s s |}.
Proof.
  destruct s as [m r t]. cbn. intros Hm. destruct m as [|[p|p|]|p]; [done|..|lia]; cbn; f_equal.
  - by rewrite (Pos2Z.inj_xI p), Z.mul_comm, Z.div_add_l, Z.add_0_r by done.
  - by rewrite (Pos2Z.inj_xO p), Z.mul_comm, Z.div_mul.
Qed.

Lemma shifted_step m k s : 0 <= m -> shifted m k s -> shifted m (S k) (shr_1 s).
Proof.
  intros Hm [E Hlost]. assert (Hp : 0 < 2 ^ Z.of_nat k) by (apply Z.pow_pos_nonneg; lia).
  assert (0 <= shr_m s) by (rewrite E; apply Z.div_pos; lia).
  rewrite shr_1_fields by done. unfold shifted. cbn. rewrite Nat2Z.inj_succ, Z.pow_succ_r, (Z.mul_comm 2) by lia.
  split; [by rewrite E, Z.div_div by lia|]. rewrite Z.rem_mul_r by lia. rewrite E in *.
  pose proof (Z.mod_pos_bound m (2 ^ Z.of_nat k)) as Hb. pose proof (Z.mod_pos_bound (m / 2 ^ Z.of_nat k) 2) as H2.
  intros [Ho|Hs]%orb_true_iff.
  - rewrite Zmod_odd, Ho. lia.
  - apply Hlost in Hs. nia.
Qed.

Lemma shifted_iter m k : 0 <= m -> shifted m k (Nat.iter k shr_1 {| shr_m := m; shr_r := false; shr_s := false |}).
Proof.
  intros Hm. induction k as [|k IH]; [split; [by rewrite Z.div_1_r|done]|]. by apply shifted_step.
Qed.

Lemma shr_shifted m e k :
  0 <= m -> exists s, shr {| shr_m := m; shr_r := false; shr_s := false |} e k = (s, e + Z.max 0 k)
    /\ shifted m (Z.to_nat k) s.
Proof.
  intros Hm. destruct k as [|p|p]; cbn [shr]; [| |].
  - eexists. split; [f_equal; lia|]. by apply shifted_iter.
  - eexists. split; [f_equal; lia|]. rewrite iter_pos_nat. by apply (shifted_iter m (Pos.to_nat p)).
  - eexists. split; [f_equal; lia|]. by apply shifted_iter.
Qed.

Lemma digits_bound m e n : 0 <= m -> e <= 0 -> m <= n * 2 ^ (- e) -> n < 2 ^ 53 -> Zdigits2 m + e <= 53.
Proof.
  intros Hm He Hle Hn. destruct m as [|p|p]; cbn [Zdigits2]; [lia| |lia]. rewrite digits_log2.
  assert (Z.log2 (Z.pos p) < 53 - e); [|lia]. apply Z.log2_lt_pow2; [lia|].
  assert (0 < 2 ^ (- e)) by (apply Z.pow_pos_nonneg; lia).
  replace (53 - e) with (53 + - e) by lia. rewrite Z.pow_add_r by lia. nia.
Qed.

(** Shifting and rounding to nearest does not pass an integer below 2^53. *)
Lemma shr_le m e n :
  0 <= m -> e <= 0 -> m <= n * 2 ^ (- e) -> 0 < n < 2 ^ 53 ->
  exists s e', shr_fexp 53 1024 m e loc_Exact = (s, e') /\ e' <= 0 /\ 0 <= shr_m s /\
    shr_m s <= round_nearest_even (shr_m s) (loc_of_shr_record s) <= n * 2 ^ (- e').
Proof.
  intros Hm He Hle Hn. pose proof (digits_bound m e n Hm He Hle ltac:(lia)) as Hd.
  unfold shr_fexp. cbn [shr_record_of_loc]. set (k := fexp 53 1024 (Zdigits2 m + e) - e).
  destruct (shr_shifted m e k Hm) as (s & -> & Es & Hlost). exists s, (e + Z.max 0 k).
  assert (Hk : e + Z.max 0 k <= 0) by (subst k; unfold fexp, emin; lia).
  assert (Hq : 0 <= shr_m s) by (rewrite Es; apply Z.div_pos; [lia|apply Z.pow_pos_nonneg; lia]).
  split_and!; [done..| |].
  - destruct s as [q [|] [|]]; cbn in *; [lia|destruct (Z.even q); lia|lia..].
  - replace (- e) with (- (e + Z.max 0 k) + Z.of_nat (Z.to_nat k)) in Hle by lia.
    rewrite Z.pow_add_r in Hle by lia. revert Es Hlost Hle.
    assert (0 < 2 ^ Z.of_nat (Z.to_nat k)) by (apply Z.pow_pos_nonneg; lia).
    generalize (2 ^ Z.of_nat (Z.to_nat k)) (2 ^ (- (e + Z.max 0 k))) H. clear -Hm. intros P Q HP Es Hlost Hle.
    pose proof (Z.div_mod m P ltac:(lia)) as Hdm. rewrite <- Es in Hdm. pose proof (Z.mod_pos_bound m P HP).
    destruct s as [q [|] [|]]; cbn in *; [specialize (Hlost eq_refl); nia|destruct (Z.even q)|specialize (Hlost eq_refl)|];
      try (specialize (Hlost eq_refl)); nia.
Qed.

(** What a non-negative value is worth, against an integer. *)
Definition at_most (x : F64.f64) (n : Z) : Prop :=
  x = S754_zero false \/ exists m e, x = S754_finite false m e /\ e <= 0 /\ Z.pos m <= n * 2 ^ (- e).

Lemma round_le m e n :
  0 <= m -> e <= 0 -> m <= n * 2 ^ (- e) -> 0 < n < 2 ^ 53 -> at_most (binary_round_aux 53 1024 false m e loc_Exact) n.
Proof.
  intros Hm He Hle Hn. unfold binary_round_aux.
  destruct (shr_le m e n Hm He Hle Hn) as (s & e1 & -> & He1 & Hs & Hlo & Hhi).
  destruct (shr_le (round_nearest_even (shr_m s) (loc_of_shr_record s)) e1 n) as (s2 & e2 & -> & He2 & Hs2 & Hlo2 & Hhi2);
    [lia|done..|]. destruct (shr_m s2) as [|p|p] eqn:E; [by left| |lia].
  destruct (Z.leb_spec e2 (1024 - 53)); [|lia]. right. exists p, e2. split_and!; [done|lia|lia].
Qed.

Lemma at_most_int x n : at_most x n -> 0 <= n <= U64_MAX -> 0 <= F64.round_as_int x <= n /\ 0 <= F64.as_int x <= n.
Proof.
  intros [->|(m & e & -> & He & Hle)] Hn.
  { change (0 <= 0 <= n /\ 0 <= 0 <= n). lia. }
  unfold F64.round_as_int, F64.as_int, F64.to_int.
  destruct (Z.leb_spec 0 e).
  { assert (e = 0) as -> by lia. cbn [F64.saturate]. unfold U64_MAX in *. lia. }
  assert (HP : 0 < 2 ^ (- e)) by (apply Z.pow_pos_nonneg; lia). revert Hle HP. generalize (2 ^ (- e)). intros P Hle HP.
  assert (0 <= (2 * Z.pos m + P) / (2 * P) <= n).
  { split; [apply Z.div_pos; lia|]. apply Z.lt_succ_r, Z.div_lt_upper_bound; nia. }
  assert (0 <= Z.pos m / P <= n) by (split; [apply Z.div_pos; lia|]; apply Z.div_le_upper_bound; nia).
  cbn [F64.saturate]. unfold U64_MAX in *. lia.
Qed.

Lemma rate_value r : rate_ok r -> (exists s, r = S754_zero s) \/ exists m e, r = S754_finite false m e /\ e <= 0 /\ Z.pos m <= 2 ^ (- e).
Proof.
  intros [[Hv H0]%andb_prop H1]%Is_true_true%andb_prop. destruct r as [s|[|]| |[|] m e]; try done; [by eauto|]. right.
  exists m, e.
  assert (exists one, F64.lit 1 1 = S754_finite false one (-52) /\ Z.pos one = 2 ^ 52) as (one & E1 & Eone)
    by (exists 4503599627370496%positive; by vm_compute).
  rewrite E1 in H1.
  unfold SFleb, SFcompare in H1. cbn [valid_binary] in Hv. unfold bounded, canonical_mantissa, fexp, emin in Hv.
  rewrite digits_log2 in Hv. apply andb_prop in Hv as [Hv _]. apply Z.eqb_eq in Hv.
  assert (Hm : Z.pos m < 2 ^ 53).
  { apply Z.log2_lt_pow2; [lia|]. lia. }
  destruct (Z.compare_spec e (-52)) as [->|Hlt|Hgt]; [| |done].
  - split_and!; [done|lia|]. change (- (-52)) with 52. rewrite <- Eone. fold (Pos.compare m one) in H1.
    destruct (Pos.compare_spec m one); [subst; lia|lia|done].
  - clear H1 E1 Hv H0. split_and!; [done|lia|]. pose proof (Z.pow_le_mono_r 2 53 (- e)) as Hp. lia.
Qed.
End rounding.

Lemma mul_rate_at_most r n : rate_ok r -> 0 < n < 2 ^ 53 -> at_most (F64.mul (F64.of_int n) r) n \/ F64.mul (F64.of_int n) r = S754_zero true.
Proof.
  intros Hr Hn. destruct n as [|p|p]; [lia| |lia]. destruct (of_int_exact p) as (m & e & -> & _ & He & Hm); [lia|].
  destruct (rate_value r Hr) as [[[|] ->]|(mr & er & -> & Her & Hle)]; cbn [F64.mul SFmul xorb]; [by right|by left; left|].
  left. apply round_le; [lia..| |done]. rewrite Pos2Z.inj_mul, Hm. replace (- (e + er)) with (- e + - er) by lia.
  rewrite Z.pow_add_r by lia. assert (0 < 2 ^ (- e)) by (apply Z.pow_pos_nonneg; lia). nia.
Qed.

(** A rate of an integer below 2^53 is at most the integer, rounded or cut. *)
Lemma fraction_le r n :
  rate_ok r -> 0 <= n < 2 ^ 53 ->
  0 <= F64.round_as_int (F64.mul (F64.of_int n) r) <= n /\ 0 <= F64.as_int (F64.mul (F64.of_int n) r) <= n.
Proof.
  intros Hr Hn. destruct (decide (n = 0)) as [->|Hz].
  { destruct (rate_value r Hr) as [[[|] ->]|(mr & er & -> & _)]; change (0 <= 0 <= 0 /\ 0 <= 0 <= 0); lia. }
  destruct (mul_rate_at_most r n Hr ltac:(lia)) as [Hle| ->]; [|change (0 <= 0 <= n /\ 0 <= 0 <= n); lia].
  apply at_most_int; [done|]. unfold U64_MAX. lia.
Qed.
