(* ===== verification/Temporal.v ===== *)
(** * Deferred transactions and energy watchers

    crates/evaporchain-execution/src/temporal.rs: transactions that wait for
    epochs, energies, evaporations or contract phases, and callbacks that fire
    when the energy of an object crosses a threshold.

    The binary heap is a list; a pop takes its least entry by earliest epoch
    and sequence number, so draining it visits the sorted list. *)

From stdpp Require Import base gmap list strings sorting.
From Stdlib Require Import ZArith Lia.
From S2P Require Import Prelude Energy DecayCurves Types Trie StateDB Transactions.

Open Scope Z_scope.

Definition MIN_DEFERRED_DEPOSIT : Z := 10000.
Definition GAS_DEFERRED_SUBMIT : Z := 75000.
Definition GAS_PER_GUARD : Z := 5000.
Definition MAX_QUEUE_SIZE : Z := 10000.
Definition QUEUE_STORAGE_FEE : Z := 1000.
Definition MAX_WATCHERS : Z := 5000.

Inductive TemporalError :=
| InsufficientDeposit (needed got : Z)
| NoGuards
| EmptyInnerTx
| QueueFull (max : Z)
| TooManyWatchers (max : Z).

(** ** The queue *)

Record DeferredEntry := {
  de_tx : DeferredTx;
  earliest_epoch : Z;
  expiry_epoch : Z;
  remaining_deposit : Z;
  seq_no : Z;
}.

Record DeferredQueue := { queue : list DeferredEntry; next_seq : Z }.

Definition queue_new : DeferredQueue := {| queue := []; next_seq := 0 |}.

(** Popped before: an earlier epoch, then an earlier submission. *)
Definition entry_leb (a b : DeferredEntry) : bool :=
  (earliest_epoch a <? earliest_epoch b) || ((earliest_epoch a =? earliest_epoch b) && (seq_no a <=? seq_no b)).

Definition pop_order (l : list DeferredEntry) : list DeferredEntry :=
  merge_sort (fun a b => Is_true (entry_leb a b)) l.

(** The hints of the guards. *)
Definition earliest_of (guards : list TemporalGuard) : Z :=
  foldl (fun acc g => match g with AfterEpoch e => if acc <? e then e else acc | _ => acc end) 0 guards.
Definition expiry_of (guards : list TemporalGuard) : Z :=
  foldl (fun acc g => match g with BeforeEpoch e => if e <? acc then e else acc | _ => acc end) U64_MAX guards.

Definition submit (tx : DeferredTx) (q : DeferredQueue) : DeferredQueue * result Z TemporalError :=
  if bool_decide (df_guards tx = []) then (q, Err NoGuards)
  else if bool_decide (df_inner_tx_bytes tx = []) then (q, Err EmptyInnerTx)
  else if df_deposit tx <? MIN_DEFERRED_DEPOSIT then (q, Err (InsufficientDeposit MIN_DEFERRED_DEPOSIT (df_deposit tx)))
  else if MAX_QUEUE_SIZE <=? Z.of_nat (length (queue q)) then (q, Err (QueueFull MAX_QUEUE_SIZE))
  else
    let entry := {| de_tx := tx; earliest_epoch := earliest_of (df_guards tx); expiry_epoch := expiry_of (df_guards tx);
                    remaining_deposit := saturating_sub (df_deposit tx) QUEUE_STORAGE_FEE; seq_no := next_seq q |} in
    ({| queue := queue q ++ [entry]; next_seq := wrapping_add (next_seq q) 1 |}, Ok (next_seq q)).

(** ** Guards *)

Section guards.
Context (db : InMemoryStateDB) (in_phase : Z -> string -> bool) (epoch : Z).

Definition energy_now (o : StateObject) : Z :=
  energy_at_epoch (o_energy o) (o_half_life o) (saturating_sub epoch (o_last_refreshed o)).

(** [in_phase] asks the contract engine for the phase of a temporal contract. *)
Definition guard_holds (g : TemporalGuard) : bool :=
  match g with
  | AfterEpoch e => e <=? epoch
  | BeforeEpoch e => epoch <? e
  | EnergyBelow id threshold =>
      match get_object db id with Some o => energy_now o <? threshold | None => true end
  | EnergyAbove id threshold =>
      match get_object db id with Some o => threshold <? energy_now o | None => false end
  | ObjectEvaporated id =>
      match get_object db id with Some o => bool_decide (o_state o = Ghost) | None => true end
  | ContractInPhase id phase => in_phase id phase
  end.

Definition evaluate_guards (guards : list TemporalGuard) : bool := forallb guard_holds guards.

Record DeferredQueueResult := {
  matured_txs : list (bytes * bytes * Z);
  refunds : list (bytes * Z);
  left_over : list DeferredEntry;
}.

(** One popped entry: expired, too early, due or still waiting. *)
Definition process_entry (r : DeferredQueueResult) (entry : DeferredEntry) : DeferredQueueResult :=
  let tx := de_tx entry in
  if expiry_epoch entry <=? epoch
  then {| matured_txs := matured_txs r; refunds := refunds r ++ [(df_submitter tx, remaining_deposit entry)];
          left_over := left_over r |}
  else if negb (epoch <? earliest_epoch entry) && evaluate_guards (df_guards tx)
  then {| matured_txs := matured_txs r ++ [(df_submitter tx, df_inner_tx_bytes tx, df_gas_limit tx)];
          refunds := refunds r; left_over := left_over r |}
  else {| matured_txs := matured_txs r; refunds := refunds r; left_over := left_over r ++ [entry] |}.

Definition process_epoch (q : DeferredQueue) : DeferredQueue * DeferredQueueResult :=
  let r := foldl process_entry {| matured_txs := []; refunds := []; left_over := [] |} (pop_order (queue q)) in
  ({| queue := left_over r; next_seq := next_seq q |}, r).
End guards.

(** ** Watchers *)

Record EnergyWatcher := {
  w_id : Z;
  w_object_id : bytes;
  w_threshold : Z;
  w_fire_below : bool;
  w_contract_id : Z;
  w_method : string;
  w_args : string;
  w_registered_epoch : Z;
}.

(** Fired watchers are collected at once, so [fired] is never kept. *)
Record DecayWatcherEngine := { watchers : list EnergyWatcher; next_watcher : Z }.

Definition watchers_new : DecayWatcherEngine := {| watchers := []; next_watcher := 1 |}.

Definition register (object_id : bytes) (threshold : Z) (fire_below : bool) (contract_id : Z) (method args : string)
    (current_epoch : Z) (w : DecayWatcherEngine) : DecayWatcherEngine * result Z TemporalError :=
  if MAX_WATCHERS <=? Z.of_nat (length (watchers w)) then (w, Err (TooManyWatchers MAX_WATCHERS))
  else
    let id := next_watcher w in
    ({| watchers := watchers w ++ [{| w_id := id; w_object_id := object_id; w_threshold := threshold;
                                      w_fire_below := fire_below; w_contract_id := contract_id; w_method := method;
                                      w_args := args; w_registered_epoch := current_epoch |}];
        next_watcher := wrapping_add id 1 |}, Ok id).

Definition unregister (id : Z) (w : DecayWatcherEngine) : DecayWatcherEngine * bool :=
  let kept := filter (fun x => w_id x <> id) (watchers w) in
  ({| watchers := kept; next_watcher := next_watcher w |}, (length kept <? length (watchers w))%nat).

Definition fires (db : InMemoryStateDB) (epoch : Z) (w : EnergyWatcher) : bool :=
  let energy := match get_object db (w_object_id w) with Some o => energy_now epoch o | None => 0 end in
  if w_fire_below w then energy <? w_threshold w else w_threshold w <? energy.

Definition process_watchers (db : InMemoryStateDB) (epoch : Z) (w : DecayWatcherEngine)
  : DecayWatcherEngine * list (Z * string * string) :=
  ({| watchers := filter (fun x => fires db epoch x = false) (watchers w); next_watcher := next_watcher w |},
   (fun x => (w_contract_id x, w_method x, w_args x)) <$> filter (fun x => fires db epoch x = true) (watchers w)).

(** ** The queue loses nothing *)

(** Three tests of which exactly one succeeds split a list. *)
Lemma filter_three {A} (p d w : A -> bool) l :
  (forall x, p x = true /\ d x = false /\ w x = false \/ p x = false /\ d x = true /\ w x = false \/
             p x = false /\ d x = false /\ w x = true) ->
  filter (fun x => p x = true) l ++ filter (fun x => d x = true) l ++ filter (fun x => w x = true) l ≡ₚ l.
Proof.
  intros H. induction l as [|x l IH]; [done|]. rewrite !filter_cons. apply (perm_skip x) in IH.
  destruct (H x) as [(-> & -> & ->)|[(-> & -> & ->)|(-> & -> & ->)]]; (etrans; [|exact IH]);
    rewrite ?decide_True, ?decide_False by done.
  - done.
  - symmetry. apply Permutation_middle.
  - rewrite !app_assoc. symmetry. apply Permutation_middle.
Qed.

Section queue.
Context (db : InMemoryStateDB) (in_phase : Z -> string -> bool) (epoch : Z).

Definition expired (entry : DeferredEntry) : bool := expiry_epoch entry <=? epoch.
Definition due (entry : DeferredEntry) : bool :=
  negb (expired entry) && (negb (epoch <? earliest_epoch entry) && evaluate_guards db in_phase epoch (df_guards (de_tx entry))).
Definition waiting (entry : DeferredEntry) : bool := negb (expired entry) && negb (due entry).

Definition matured_of (entry : DeferredEntry) : bytes * bytes * Z :=
  (df_submitter (de_tx entry), df_inner_tx_bytes (de_tx entry), df_gas_limit (de_tx entry)).
Definition refund_of (entry : DeferredEntry) : bytes * Z := (df_submitter (de_tx entry), remaining_deposit entry).

Lemma process_entries l r :
  let r' := foldl (process_entry db in_phase epoch) r l in
  matured_txs r' = matured_txs r ++ (matured_of <$> filter (fun x => due x = true) l) /\
  refunds r' = refunds r ++ (refund_of <$> filter (fun x => expired x = true) l) /\
  left_over r' = left_over r ++ filter (fun x => waiting x = true) l.
Proof.
  revert r. induction l as [|x l IH]; intros r; cbn [foldl]; [by rewrite !app_nil_r|].
  destruct (IH (process_entry db in_phase epoch r x)) as (-> & -> & ->).
  rewrite !filter_cons. unfold process_entry, waiting, due, expired.
  destruct (expiry_epoch x <=? epoch); cbn; [by rewrite <- app_assoc|].
  destruct (negb (epoch <? earliest_epoch x) && evaluate_guards db in_phase epoch (df_guards (de_tx x))) eqn:E; cbn;
    by rewrite <- ?app_assoc.
Qed.

(** The entry a submission makes. *)
Definition entry_for (tx : DeferredTx) (entry : DeferredEntry) : Prop :=
  de_tx entry = tx /\ earliest_epoch entry = earliest_of (df_guards tx) /\ expiry_epoch entry = expiry_of (df_guards tx).

Lemma earliest_of_le guards acc :
  foldl (fun acc g => match g with AfterEpoch e => if acc <? e then e else acc | _ => acc end) acc guards <= epoch <->
  acc <= epoch /\ forall e, AfterEpoch e ∈ guards -> e <= epoch.
Proof.
  revert acc. induction guards as [|g guards IH]; intros acc; cbn [foldl].
  - split; [|tauto]. intros H. split; [done|]. by intros e ?%elem_of_nil.
  - rewrite IH. setoid_rewrite elem_of_cons. destruct g as [e0| | | | |]; try naive_solver.
    split.
    + intros [H1 H2]. destruct (Z.ltb_spec acc e0); split; try lia; intros e [[= ->]|He]; try lia; by apply H2.
    + intros [H1 H2]. split; [|intros e He; apply H2; by right].
      destruct (acc <? e0); [apply H2; by left|done].
Qed.

Lemma expiry_of_le guards acc :
  foldl (fun acc g => match g with BeforeEpoch e => if e <? acc then e else acc | _ => acc end) acc guards <= epoch <->
  acc <= epoch \/ exists e, BeforeEpoch e ∈ guards /\ e <= epoch.
Proof.
  revert acc. induction guards as [|g guards IH]; intros acc; cbn [foldl].
  - split; [tauto|]. intros [H|(e & ?%elem_of_nil & _)]; done.
  - rewrite IH. setoid_rewrite elem_of_cons. destruct g as [|e0| | | |]; try naive_solver.
    destruct (Z.ltb_spec e0 acc); split.
    + intros [H1|(e & He & Hle)]; [right; exists e0; auto|right; eauto].
    + intros [H1|(e & [[= ->]|He] & Hle)]; [left; lia|left; lia|right; eauto].
    + intros [H1|(e & He & Hle)]; [by left|right; eauto].
    + intros [H1|(e & [[= ->]|He] & Hle)]; [by left|left; lia|right; eauto].
Qed.

(** The hints neither delay nor rush an entry. *)
Lemma due_iff tx entry :
  entry_for tx entry -> 0 <= epoch < U64_MAX ->
  (due entry = true <-> evaluate_guards db in_phase epoch (df_guards tx) = true) /\
  (expired entry = true <-> exists e, BeforeEpoch e ∈ df_guards tx /\ e <= epoch).
Proof.
  intros (Et & Ee & Ex) Hep. unfold due, expired. rewrite Et, Ee, Ex.
  assert (Hx : (expiry_of (df_guards tx) <=? epoch) = true <-> exists e, BeforeEpoch e ∈ df_guards tx /\ e <= epoch).
  { rewrite Z.leb_le. unfold expiry_of. rewrite expiry_of_le. split; [intros [?|?]; [lia|done]|by right]. }
  split; [|done]. rewrite !andb_true_iff. split; [tauto|]. intros He. split_and!; [| |done].
  - rewrite negb_true_iff. apply not_true_iff_false. rewrite Hx. intros (e & Hin & Hle).
    unfold evaluate_guards in He. rewrite forallb_forall in He. specialize (He _ (proj1 (list_elem_of_In _ _) Hin)).
    cbn in He. zbool. lia.
  - rewrite negb_true_iff. apply Z.ltb_ge. unfold earliest_of. apply earliest_of_le. split; [lia|].
    intros e Hin. unfold evaluate_guards in He. rewrite forallb_forall in He.
    specialize (He _ (proj1 (list_elem_of_In _ _) Hin)). cbn in He. by zbool.
Qed.
End queue.

(** Processing the queue loses and repeats nothing: every entry is refunded,
    matured or kept, exactly one of them; it is refunded exactly when one of its
    deadlines has passed, and matures exactly when all its guards hold, the
    scheduling hints notwithstanding. *)
Theorem deferred_exact db in_phase epoch q :
  0 <= epoch < U64_MAX -> Forall (fun x => entry_for (de_tx x) x) (queue q) ->
  let '(q', r) := process_epoch db in_phase epoch q in
  let out := filter (fun x => expired epoch x = true) (pop_order (queue q)) in
  let run := filter (fun x => due db in_phase epoch x = true) (pop_order (queue q)) in
  refunds r = refund_of <$> out /\ matured_txs r = matured_of <$> run /\ out ++ run ++ queue q' ≡ₚ queue q /\
  Forall (fun x => (exists e, BeforeEpoch e ∈ df_guards (de_tx x) /\ e <= epoch)) out /\
  Forall (fun x => evaluate_guards db in_phase epoch (df_guards (de_tx x)) = true) run /\
  Forall (fun x => evaluate_guards db in_phase epoch (df_guards (de_tx x)) = false) (queue q').
Proof.
  intros Hep Hq. unfold process_epoch.
  destruct (process_entries db in_phase epoch (pop_order (queue q)) {| matured_txs := []; refunds := []; left_over := [] |})
    as (Em & Er & El). cbn [queue]. rewrite Em, Er, El. cbn [matured_txs refunds left_over]. rewrite !app_nil_l.
  assert (Hp : pop_order (queue q) ≡ₚ queue q) by apply merge_sort_Permutation.
  rewrite <- Hp in Hq. revert Hp Hq. generalize (pop_order (queue q)). intros l Hp Hq.
  split_and!; [done|done| | | |].
  - rewrite <- Hp. apply filter_three. intros x. unfold waiting, due.
    destruct (expired epoch x), (negb (epoch <? earliest_epoch x) && _); cbn; auto.
  - apply Forall_forall. intros x [Hx Hin]%list_elem_of_filter. rewrite Forall_forall in Hq. by apply (due_iff db in_phase _ _ _ (Hq _ Hin) Hep).
  - apply Forall_forall. intros x [Hx Hin]%list_elem_of_filter. rewrite Forall_forall in Hq. by apply (due_iff db in_phase _ _ _ (Hq _ Hin) Hep).
  - apply Forall_forall. intros x [Hx Hin]%list_elem_of_filter. rewrite Forall_forall in Hq. unfold waiting in Hx.
    apply andb_true_iff in Hx as [_ Hx%negb_true_iff]. apply not_true_iff_false. intros He.
    apply (due_iff db in_phase _ _ _ (Hq _ Hin) Hep) in He. congruence.
Qed.

(** ** A concrete queue *)

Module ToyQueue.
Definition wait (id : Z) (guards : list TemporalGuard) : DeferredTx :=
  {| df_submitter := [id]; df_nonce := 0; df_deposit := 20000; df_guards := guards; df_inner_tx_bytes := [id]; df_gas_limit := 0;
     df_signature := None; df_public_key := None |}.
Definition q : DeferredQueue :=
  foldl (fun q tx => (submit tx q).1) queue_new
    [wait 1 [AfterEpoch 3]; wait 2 [BeforeEpoch 5]; wait 3 [AfterEpoch 9]; wait 4 [AfterEpoch 2; BeforeEpoch 8]].
End ToyQueue.

Lemma deferred_exact_witness :
  0 <= 6 < U64_MAX /\ Forall (fun x => entry_for (de_tx x) x) (queue ToyQueue.q) /\
  let '(q', r) := process_epoch db_new (fun _ _ => false) 6 ToyQueue.q in
  refunds r = [([2], 19000)] /\ matured_txs r = [([4], [4], 0); ([1], [1], 0)] /\ length (queue q') = 1%nat /\
  Forall (fun x => evaluate_guards db_new (fun _ _ => false) 6 (df_guards (de_tx x)) = false) (queue q').
Proof.
  assert (He : 0 <= 6 < U64_MAX) by u64_lia.
  assert (Hq : Forall (fun x => entry_for (de_tx x) x) (queue ToyQueue.q)) by by repeat constructor.
  split; [exact He|]. split; [exact Hq|].
  pose proof (deferred_exact db_new (fun _ _ => false) 6 ToyQueue.q He Hq) as H.
  destruct (process_epoch db_new (fun _ _ => false) 6 ToyQueue.q) as [q' r] eqn:E.
  split_and!; [..|apply H]; vm_compute in E; injection E as <- <-; reflexivity.
Defined.
