(* ===== verification/Executor.v ===== *)
(** * The transaction executor

    crates/evaporchain-execution/src/lib.rs, [SimpleExecutor]: what every kind
    of transaction does to the state, signature checks, gas, fees, the partial
    revert of a failed transaction, the loop over the transactions of a block,
    and the deferred transactions that mature after it.

    The contract templates (crates/evaporchain-contracts), the application
    templates, the EvaporScript parser and [serde_json] enter as classes; the
    script engine, the deferred queue and the fee controller are the modelled
    ones.  Messages that the source formats into a string are the constructors
    of [Reason]. *)

From stdpp Require Import base gmap list strings sorting.
From Stdlib Require Import ZArith Lia.
From S2P Require Import Prelude Energy DecayCurves Trie Mmr Validators Anchor LightClient Finality Sanov Mempool Tendermint ScriptValue ScriptVM ScriptCompiler ScriptEngine Transactions Types StateDB Lifecycle Fees Temporal.

Open Scope Z_scope.

(** ** Constants *)

Definition GAS_TRANSFER : Z := 21000.
Definition GAS_REFRESH : Z := 30000.
Definition GAS_DEPLOY_CONTRACT : Z := 100000.
Definition GAS_CALL_CONTRACT : Z := 40000.
Definition GAS_DEPLOY_SCRIPT : Z := 150000.
Definition GAS_CALL_SCRIPT : Z := 50000.
Definition SCRIPT_VM_GAS_TX_RATIO : Z := 20.
Definition SCRIPT_VM_GAS_PER_CALL_SCRIPT : Z := GAS_CALL_SCRIPT * SCRIPT_VM_GAS_TX_RATIO.
Definition GAS_VALIDATOR_STAKE : Z := 50000.
Definition GAS_VALIDATOR_EXIT : Z := 30000.
Definition GAS_VALIDATOR_CLAIM_STAKE : Z := 30000.
Definition GAS_GOVERNANCE : Z := 25000.
Definition GAS_MULTISIG : Z := 50000.
Definition GAS_DELEGATE : Z := 40000.
Definition GAS_UNDELEGATE : Z := 40000.
Definition GAS_CLAIM_DELEGATION : Z := 30000.
Definition GAS_ROTATE_VALIDATOR_KEY : Z := 80000.
Definition GAS_SHIELD : Z := 60000.
Definition GAS_UNSHIELD : Z := 80000.
Definition UNBONDING_PERIOD_EPOCHS : Z := 256.
Definition KEY_ROTATION_GRACE_EPOCHS : Z := 8.
Definition MIN_STORAGE_DEPOSIT : Z := 1000.
Definition EXEC_MAX_CALL_DEPTH : Z := 64.
Definition MAX_BLOB_SIZE : Z := 128 * 1024.

(** ** Errors *)

Inductive Reason :=
| UnknownTemplate
| InvalidJson
| EngineRefused
| ArgsTooLarge
| ScriptFailed (e : ScriptError)
| UpgradeFailed (e : UpgradeError)
| NoValidatorStake (id : Z)
| NoDelegation (id : Z)
| DelegationTooSmall (have want : Z)
| NothingUnbonding
| UnbondingUnset
| UnbondingUntil (epoch : Z)
| AlreadyExiting
| NotExited
| GovernanceRefused
| ProposalNotFound (id : Z)
| ProposalClosed
| VotingEnded
| DuplicateVote
| TooFewSignatures
| DuplicateSigner
| UnknownSigner
| PaymasterNonceMissing
| PaymasterSignatureMissing
| PaymasterKeyMissing
| PaymasterKeyMismatch
| PaymasterSignatureInvalid
| InnerUndecodable
| Impersonation
| InnerNotAllowed
| HashMismatch
| ContractUnknown (id : Z)
| AdminKeyMissing
| ContractFrozen
| AdminKeyMismatch
| AdminSignatureInvalid
| QuorumNotMet
| ZeroQuorum
| NotUtf8
| ShieldedDisabled
| TemporalRefused (e : TemporalError)
| BlobEmpty
| BlobTooLarge
| ReservedNamespace
| RotationInPast
| RotationKeyLength
| RotationAddress
| RotationNonce (expected got : Z)
| RotationPop.

Inductive ExecutionError :=
| InsufficientBalance (account : bytes) (available required : Z)
| InvalidNonce (expected got : Z)
| ObjectAlreadyExists (id : bytes)
| ObjectNotFound (id : bytes)
| StakeNotFound (id : Z)
| SelfTransfer
| ZeroAmount
| RefreshError (e : ExecRefreshError)
| InvalidSignature
| MissingSignature
| InsufficientGas (account : bytes) (available required : Z)
| ContractError (why : Reason)
| ScriptFailure (why : Reason)
| CallDepthExceeded.

(** ** What the executor calls *)

(** The engine of the contract templates: deploy, call, tick, and the phase of
    a temporal contract. *)
Class ContractTemplates (C : Type) := {
  template_deploy : DeployContractTx -> Z -> C -> C * bool;
  template_call : Z -> string -> string -> bytes -> Z -> C -> C * bool;
  template_tick : Z -> C -> C;
  template_phase : C -> Z -> string -> bool;
}.

(** [serde_json]: whether a text is JSON, or the JSON of rules; script
    arguments; and the transaction in some bytes. *)
Class Json := {
  json_valid : string -> bool;
  rules_valid : string -> bool;
  script_args : string -> option (list Value);
  tx_of_json : bytes -> option Transaction;
}.

(** crates/evaporchain-script/src/parser.rs. *)
Class ScriptParser := parse_script : string -> result Contract ScriptError.

(** The application-template pipeline: whether a request is well formed. *)
Class AppTemplates := app_template_ok : DeployTemplateTx -> bool.

(** The post-quantum signature scheme. *)
Class MlDsa := ml_dsa_verify : bytes -> bytes -> bytes -> bool.

(** ** UTF-8 *)

Definition cont_byte (b : Z) : bool := (128 <=? b) && (b <? 192).

(** [str::from_utf8] on bytes: no overlong forms, surrogates or values above
    U+10FFFF. *)
Fixpoint utf8_valid (b : bytes) : bool :=
  match b with
  | [] => true
  | x :: r =>
      if x <? 128 then utf8_valid r
      else
        match r with
        | y :: r2 =>
            if (194 <=? x) && (x <=? 223) then cont_byte y && utf8_valid r2
            else
              match r2 with
              | z :: r3 =>
                  if (224 <=? x) && (x <=? 239) then
                    cont_byte y && cont_byte z && (if x =? 224 then 160 <=? y else true)
                      && (if x =? 237 then y <? 160 else true) && utf8_valid r3
                  else
                    match r3 with
                    | w :: r4 =>
                        (240 <=? x) && (x <=? 244) && cont_byte y && cont_byte z && cont_byte w
                          && (if x =? 240 then 144 <=? y else true) && (if x =? 244 then y <? 144 else true)
                          && utf8_valid r4
                    | [] => false
                    end
              | [] => false
              end
        | [] => false
        end
  end.

Definition string_of_bytes (b : bytes) : string :=
  String.string_of_list_ascii ((fun x => Ascii.ascii_of_nat (Z.to_nat x)) <$> b).

(** ** Account updates *)

(** [balance], [nonce] and the demurrage anchor. *)
Definition with_funds (balance nonce touched : Z) (a : Account) : Account :=
  {| a_address := a_address a; a_balance := balance; a_nonce := nonce; a_storage_deposit := a_storage_deposit a;
     a_storage_bytes := a_storage_bytes a; a_last_touched_epoch := touched; a_vesting := a_vesting a |}.

(** A storage deposit and the bytes it anchors. *)
Definition with_deposit (balance deposit n touched : Z) (a : Account) : Account :=
  {| a_address := a_address a; a_balance := balance; a_nonce := a_nonce a; a_storage_deposit := deposit;
     a_storage_bytes := n; a_last_touched_epoch := touched; a_vesting := a_vesting a |}.

Definition debit (amount epoch : Z) (a : Account) : Account := with_funds (a_balance a - amount) (a_nonce a) epoch a.
Definition credit (amount epoch : Z) (a : Account) : Account :=
  with_funds (saturating_add (a_balance a) amount) (a_nonce a) epoch a.
Definition bump (epoch : Z) (a : Account) : Account := with_funds (a_balance a) (wrapping_add (a_nonce a) 1) epoch a.
Definition bump_saturating (epoch : Z) (a : Account) : Account :=
  with_funds (a_balance a) (saturating_add (a_nonce a) 1) epoch a.
Definition touch (epoch : Z) (a : Account) : Account := with_funds (a_balance a) (a_nonce a) epoch a.

Section executor.
Context `{CurveJson, Blake3, Pallas, HybridVerifier, BlsKeys, HashOrder, Hex, StrDebug}.
Context `{!Json, !ScriptParser, !AppTemplates, !MlDsa}.
Context {C : Type} `{!ContractTemplates C}.

Abbreviation db_t := InMemoryStateDB.
Abbreviation outcome := (result unit ExecutionError).

(** [db.get_or_create_account(addr)], to read it. *)
Definition open_account (addr : bytes) (db : db_t) : db_t * Account :=
  let db := get_or_create_account db addr in (db, default (new_account addr) (accounts db !! addr)).

(** ** Transfers *)

Definition ZERO_ADDRESS : bytes := zero32.

Definition execute_transfer (tx : TransferTx) (epoch : Z) (db : db_t) : db_t * outcome :=
  if bool_decide (tr_from tx = tr_to tx) then (db, Err SelfTransfer)
  else if tr_amount tx =? 0 then (db, Err ZeroAmount)
  else
    let mint := bool_decide (tr_from tx = ZERO_ADDRESS) in
    let '(db, sender) := open_account (tr_from tx) db in
    if negb mint && negb (a_nonce sender =? tr_nonce tx) then (db, Err (InvalidNonce (a_nonce sender) (tr_nonce tx)))
    else
      let available := if mint then a_balance sender else transferable_balance sender epoch in
      if available <? tr_amount tx then (db, Err (InsufficientBalance (tr_from tx) available (tr_amount tx)))
      else
        let db := upsert_account (debit (tr_amount tx) epoch) (tr_from tx) db in
        let db := if mint then db else upsert_account (bump epoch) (tr_from tx) db in
        (upsert_account (credit (tr_amount tx) epoch) (tr_to tx) db, Ok tt).

Definition execute_refund (tx : RefundTx) (epoch : Z) (db : db_t) : db_t * outcome :=
  if bool_decide (re_attacker tx = re_victim tx) then (db, Err SelfTransfer)
  else if re_amount tx =? 0 then (db, Err ZeroAmount)
  else
    let '(db, attacker) := open_account (re_attacker tx) db in
    if a_balance attacker <? re_amount tx
    then (db, Err (InsufficientBalance (re_attacker tx) (a_balance attacker) (re_amount tx)))
    else
      let db := upsert_account (debit (re_amount tx) epoch) (re_attacker tx) db in
      (upsert_account (credit (re_amount tx) epoch) (re_victim tx) db, Ok tt).

(** The transfer inside a user operation. *)
Definition execute_inner_transfer (tx : TransferTx) (user_op_sender : bytes) (epoch : Z) (db : db_t) : db_t * outcome :=
  if bool_decide (tr_from tx <> user_op_sender) then (db, Err (ContractError Impersonation))
  else if bool_decide (tr_from tx = tr_to tx) then (db, Err SelfTransfer)
  else if tr_amount tx =? 0 then (db, Err ZeroAmount)
  else
    let '(db, sender) := open_account (tr_from tx) db in
    let available := transferable_balance sender epoch in
    if available <? tr_amount tx then (db, Err (InsufficientBalance (tr_from tx) available (tr_amount tx)))
    else
      let db := upsert_account (debit (tr_amount tx) epoch) (tr_from tx) db in
      (upsert_account (credit (tr_amount tx) epoch) (tr_to tx) db, Ok tt).

(** ** Objects and deployments *)

(** The storage deposit of an object, contract or script of [n] bytes. *)
Definition anchor_storage (n epoch : Z) (a : Account) : Account :=
  with_deposit (a_balance a - MIN_STORAGE_DEPOSIT) (saturating_add (a_storage_deposit a) MIN_STORAGE_DEPOSIT)
    (saturating_add (a_storage_bytes a) n) epoch a.

Definition charge_deposit (addr : bytes) (n epoch : Z) (db : db_t) : db_t * outcome :=
  let '(db, a) := open_account addr db in
  let available := transferable_balance a epoch in
  if available <? MIN_STORAGE_DEPOSIT then (db, Err (InsufficientBalance addr available MIN_STORAGE_DEPOSIT))
  else (upsert_account (anchor_storage n epoch) addr db, Ok tt).

Definition BASE_OBJECT_BYTES : Z := 97.
Definition BASE_CONTRACT_BYTES : Z := 256.
Definition BASE_SCRIPT_BYTES : Z := 128.

Definition execute_create_object (tx : CreateObjectTx) (epoch : Z) (db : db_t) : db_t * outcome :=
  match get_object db (co_object_id tx) with
  | Some _ => (db, Err (ObjectAlreadyExists (co_object_id tx)))
  | None =>
      match charge_deposit (co_creator tx) (saturating_add BASE_OBJECT_BYTES (Mempool.size (co_data tx))) epoch db with
      | (db, Err e) => (db, Err e)
      | (db, Ok _) =>
          (put_object {| o_id := co_object_id tx; o_owner := co_creator tx; o_energy := co_energy tx;
                         o_half_life := co_half_life tx; o_created_at := epoch; o_last_refreshed := epoch;
                         o_state := Active; o_grace_epoch := None; o_data := co_data tx;
                         o_decay_curve := co_decay_curve tx; o_lad_mode := co_lad_mode tx |} db, Ok tt)
      end
  end.

Definition execute_refresh_tx (tx : RefreshTx) (epoch : Z) (db : db_t) : db_t * outcome :=
  match execute_refresh db (rf_object_id tx) (rf_energy_deposit tx) (address_from_pubkey <$> rf_public_key tx) epoch with
  | (db, Ok _) => (db, Ok tt)
  | (db, Err e) => (db, Err (RefreshError e))
  end.

(** ** Staking *)

Definition execute_validator_stake (tx : ValidatorStakeTx) (epoch : Z) (db : db_t) : db_t * outcome :=
  if vs_stake_amount tx =? 0 then (db, Err ZeroAmount)
  else
    let '(db, sender) := open_account (vs_validator_address tx) db in
    if negb (a_nonce sender =? vs_nonce tx) then (db, Err (InvalidNonce (a_nonce sender) (vs_nonce tx)))
    else
      let available := transferable_balance sender epoch in
      if available <? vs_stake_amount tx
      then (db, Err (InsufficientBalance (vs_validator_address tx) available (vs_stake_amount tx)))
      else
        let db := upsert_account (bump epoch) (vs_validator_address tx)
                    (upsert_account (debit (vs_stake_amount tx) epoch) (vs_validator_address tx) db) in
        let existing := from_option s_staked_amount 0 (stakes db !! vs_validator_id tx) in
        (put_stake {| s_validator_id := vs_validator_id tx; s_validator_address := vs_validator_address tx;
                      s_staked_amount := wrapping_add existing (vs_stake_amount tx); s_staked_at_epoch := epoch;
                      s_unbonding_epoch := None; s_slashed_amount := 0 |} db, Ok tt).

Definition set_unbonding (e : option Z) (r : StakeRecord) : StakeRecord :=
  {| s_validator_id := s_validator_id r; s_validator_address := s_validator_address r;
     s_staked_amount := s_staked_amount r; s_staked_at_epoch := s_staked_at_epoch r; s_unbonding_epoch := e;
     s_slashed_amount := s_slashed_amount r |}.

Definition execute_validator_exit (tx : ValidatorExitTx) (epoch : Z) (db : db_t) : db_t * outcome :=
  let '(db, sender) := open_account (ve_validator_address tx) db in
  if negb (a_nonce sender =? ve_nonce tx) then (db, Err (InvalidNonce (a_nonce sender) (ve_nonce tx)))
  else
    let db := upsert_account (bump epoch) (ve_validator_address tx) db in
    match stakes db !! ve_validator_id tx with
    | None => (db, Err (StakeNotFound (ve_validator_id tx)))
    | Some r =>
        if bool_decide (s_validator_address r <> ve_validator_address tx) then (db, Err InvalidSignature)
        else if bool_decide (is_Some (s_unbonding_epoch r)) then (db, Err (ContractError AlreadyExiting))
        else (put_stake (set_unbonding (Some (wrapping_add epoch UNBONDING_PERIOD_EPOCHS)) r) db, Ok tt)
    end.

(** [balance += claimable; nonce += 1], not saturating. *)
Definition pay_out (amount epoch : Z) (a : Account) : Account :=
  with_funds (wrapping_add (a_balance a) amount) (wrapping_add (a_nonce a) 1) epoch a.

Definition execute_validator_claim_stake (tx : ValidatorClaimStakeTx) (epoch : Z) (db : db_t) : db_t * outcome :=
  match stakes db !! vc_validator_id tx with
  | None => (db, Err (StakeNotFound (vc_validator_id tx)))
  | Some r =>
      if bool_decide (s_validator_address r <> vc_validator_address tx) then (db, Err InvalidSignature)
      else
        match s_unbonding_epoch r with
        | None => (db, Err (ContractError NotExited))
        | Some unbonding =>
            if epoch <? unbonding then (db, Err (ContractError (UnbondingUntil unbonding)))
            else
              let '(db, sender) := open_account (vc_validator_address tx) db in
              if negb (a_nonce sender =? vc_nonce tx) then (db, Err (InvalidNonce (a_nonce sender) (vc_nonce tx)))
              else
                let claimable := saturating_sub (s_staked_amount r) (s_slashed_amount r) in
                let db := upsert_account (pay_out claimable epoch) (vc_validator_address tx) db in
                ((remove_stake (vc_validator_id tx) db).1, Ok tt)
        end
  end.

(** ** Delegation *)

Definition set_delegation (amount at_epoch unbonding : Z) (since : option Z) (r : DelegationRecord) : DelegationRecord :=
  {| d_delegator := d_delegator r; d_validator_id := d_validator_id r; d_amount := amount;
     d_delegated_at_epoch := at_epoch; d_unbonding_amount := unbonding; d_unbonding_epoch := since |}.

Definition execute_delegate (tx : DelegateTx) (epoch : Z) (db : db_t) : db_t * outcome :=
  if dl_amount tx =? 0 then (db, Err ZeroAmount)
  else if bool_decide (stakes db !! dl_validator_id tx = None)
  then (db, Err (ContractError (NoValidatorStake (dl_validator_id tx))))
  else
    let '(db, a) := open_account (dl_delegator tx) db in
    if negb (a_nonce a =? dl_nonce tx) then (db, Err (InvalidNonce (a_nonce a) (dl_nonce tx)))
    else
      let available := transferable_balance a epoch in
      if available <? dl_amount tx then (db, Err (InsufficientBalance (dl_delegator tx) available (dl_amount tx)))
      else
        let db := upsert_account (bump epoch) (dl_delegator tx)
                    (upsert_account (debit (dl_amount tx) epoch) (dl_delegator tx) db) in
        let r :=
          match get_delegation db (dl_delegator tx) (dl_validator_id tx) with
          | Some r => set_delegation (saturating_add (d_amount r) (dl_amount tx)) epoch (d_unbonding_amount r) (d_unbonding_epoch r) r
          | None => {| d_delegator := dl_delegator tx; d_validator_id := dl_validator_id tx; d_amount := dl_amount tx;
                       d_delegated_at_epoch := epoch; d_unbonding_amount := 0; d_unbonding_epoch := None |}
          end in
        (put_delegation r db, Ok tt).

Definition execute_undelegate (tx : UndelegateTx) (epoch : Z) (db : db_t) : db_t * outcome :=
  if ud_amount tx =? 0 then (db, Err ZeroAmount)
  else
    let '(db, a) := open_account (ud_delegator tx) db in
    if negb (a_nonce a =? ud_nonce tx) then (db, Err (InvalidNonce (a_nonce a) (ud_nonce tx)))
    else
      let db := upsert_account (bump epoch) (ud_delegator tx) db in
      match get_delegation db (ud_delegator tx) (ud_validator_id tx) with
      | None => (db, Err (ContractError (NoDelegation (ud_validator_id tx))))
      | Some r =>
          if d_amount r <? ud_amount tx then (db, Err (ContractError (DelegationTooSmall (d_amount r) (ud_amount tx))))
          else
            (put_delegation (set_delegation (saturating_sub (d_amount r) (ud_amount tx)) (d_delegated_at_epoch r)
               (saturating_add (d_unbonding_amount r) (ud_amount tx)) (Some epoch) r) db, Ok tt)
      end.

Definition execute_claim_delegation (tx : ClaimDelegationTx) (epoch : Z) (db : db_t) : db_t * outcome :=
  let '(db, a) := open_account (cd_delegator tx) db in
  if negb (a_nonce a =? cd_nonce tx) then (db, Err (InvalidNonce (a_nonce a) (cd_nonce tx)))
  else
    let db := upsert_account (bump epoch) (cd_delegator tx) db in
    match get_delegation db (cd_delegator tx) (cd_validator_id tx) with
    | None => (db, Err (ContractError (NoDelegation (cd_validator_id tx))))
    | Some r =>
        if d_unbonding_amount r =? 0 then (db, Err (ContractError NothingUnbonding))
        else
          match d_unbonding_epoch r with
          | None => (db, Err (ContractError UnbondingUnset))
          | Some started =>
              let ready := saturating_add started UNBONDING_PERIOD_EPOCHS in
              if epoch <? ready then (db, Err (ContractError (UnbondingUntil ready)))
              else
                let db := modify_account (credit (d_unbonding_amount r) epoch) (cd_delegator tx) db in
                if d_amount r =? 0 then ((remove_delegation (cd_delegator tx) (cd_validator_id tx) db).1, Ok tt)
                else (put_delegation (set_delegation (d_amount r) (d_delegated_at_epoch r) 0 None r) db, Ok tt)
          end
    end.

(** ** Multi-signatures *)

Fixpoint check_signers (signers : list bytes) (seen : gset bytes) (l : list (bytes * bytes)) : outcome :=
  match l with
  | [] => Ok tt
  | (a, _) :: l' =>
      if decide (a ∈ seen) then Err (ContractError DuplicateSigner)
      else if bool_decide (a ∈ signers) then check_signers signers ({[ a ]} ∪ seen) l'
      else Err (ContractError UnknownSigner)
  end.

(** [signatures.len() as u8] wraps. *)
Definition execute_multisig (tx : MultiSigTx) (epoch : Z) (db : db_t) : db_t * outcome :=
  if Z.of_nat (length (ms_signatures tx)) mod 256 <? ms_threshold tx then (db, Err (ContractError TooFewSignatures))
  else
    match check_signers (ms_signers tx) ∅ (ms_signatures tx) with
    | Err e => (db, Err e)
    | Ok _ =>
        let '(db, sender) := open_account (ms_multisig_address tx) db in
        if negb (a_nonce sender =? ms_nonce tx) then (db, Err (InvalidNonce (a_nonce sender) (ms_nonce tx)))
        else (upsert_account (bump epoch) (ms_multisig_address tx) db, Ok tt)
    end.
End executor.

(** ** Account lemmas *)

Section frame.
Context `{Blake3, Pallas, HashOrder}.

Lemma accounts_opened db addr :
  accounts (get_or_create_account db addr) = <[ addr := default (new_account addr) (accounts db !! addr) ]> (accounts db).
Proof.
  unfold get_or_create_account. destruct (accounts db !! addr) as [a|] eqn:E; cbn; [|done]. by rewrite insert_id.
Qed.

Lemma open_account_value addr db :
  (open_account addr db).2 = default (new_account addr) (accounts db !! addr).
Proof. unfold open_account. cbn [snd]. by rewrite accounts_opened, lookup_insert_eq. Qed.

Lemma accounts_upsert f addr db :
  accounts (upsert_account f addr db) = <[ addr := f (default (new_account addr) (accounts db !! addr)) ]> (accounts db).
Proof.
  unfold upsert_account. cbn [set_accounts accounts]. rewrite accounts_opened.
  apply map_eq. intros k. destruct (decide (k = addr)) as [->|Hk].
  - by rewrite lookup_alter_eq, !lookup_insert_eq.
  - by rewrite lookup_alter_ne, !lookup_insert_ne.
Qed.

Lemma accounts_modify f addr db : accounts (modify_account f addr db) = alter f addr (accounts db).
Proof.
  unfold modify_account, get_account_mut. destruct (decide (is_Some (accounts db !! addr))) as [[a E]|E];
    apply map_eq; intros k.
  - rewrite E. cbn. destruct (decide (k = addr)) as [->|Hk];
      [by rewrite lookup_insert_eq, lookup_alter_eq, E|by rewrite lookup_insert_ne, lookup_alter_ne].
  - apply eq_None_not_Some in E. rewrite E. destruct (decide (k = addr)) as [->|Hk];
      [by rewrite lookup_alter_eq, E|by rewrite lookup_alter_ne].
Qed.

(** What account operations leave alone. *)
Record same_books (db db' : InMemoryStateDB) : Prop := {
  sb_stakes : stakes db' = stakes db;
  sb_delegations : delegations db' = delegations db;
  sb_proposals : proposals db' = proposals db;
  sb_params : governance_params db' = governance_params db;
}.

#[export] Instance same_books_preorder : PreOrder same_books.
Proof. split; [done|]. intros ? ? ? [] []. split; congruence. Qed.

Lemma opened_books addr db : same_books db (get_or_create_account db addr).
Proof. unfold get_or_create_account. destruct (accounts db !! addr); by split. Qed.

Lemma upsert_books f addr db : same_books db (upsert_account f addr db).
Proof. unfold upsert_account. destruct (opened_books addr db). by split. Qed.

Lemma modify_books f addr db : same_books db (modify_account f addr db).
Proof. unfold modify_account, get_account_mut. destruct (decide _), (accounts db !! addr); by split. Qed.
End frame.

Create HintDb books.
#[export] Hint Resolve opened_books upsert_books modify_books : books.
