(* ===== verification/Governance.v ===== *)
(** * On-chain governance

    crates/evaporchain-execution/src/lib.rs: proposals that change a chain
    parameter, their bounds, balance-weighted votes, the outcome of a closed
    vote, the timelock before a parameter takes effect, and what the executor
    reads back from the parameters. *)

From stdpp Require Import base gmap list strings.
From Stdlib Require Import ZArith Lia SpecFloat.
From S2P Require Import Prelude Energy DecayCurves Trie Validators Mempool Transactions Types StateDB Fees Executor.

Open Scope Z_scope.

Definition MAX_VOTE_WEIGHT : Z := 10000000.
Definition QUORUM_MIN_TOTAL_WEIGHT : Z := 30000000.
Definition QUORUM_MIN_VOTERS : nat := 3.
Definition PASS_THRESHOLD_MULTIPLIER : Z := 2.
Definition MIN_VOTING_EPOCHS : Z := 10.
Definition MAX_VOTING_EPOCHS : Z := 100000.
Definition MAX_PROPOSAL_TITLE_BYTES : Z := 200.
Definition MAX_PARAM_KEY_BYTES : Z := 64.
Definition MAX_PARAM_VALUE_BYTES : Z := 256.
Definition GOVERNANCE_TIMELOCK_EPOCHS : Z := 5.

Definition GOVERNABLE_PARAM_KEYS : list string :=
  ["block_gas_limit"; "base_fee_floor"; "base_fee_ceiling"; "target_gas_utilization"; "chain_lambda_half_life"]%string.

Definition UPGRADE_PREFIX : string := "upgrade_contract:".

Definition is_governable_param_key (key : string) : bool :=
  bool_decide (key ∈ GOVERNABLE_PARAM_KEYS) || String.prefix UPGRADE_PREFIX key.

(** ** Reading numbers *)

(** [str::parse::<u64>]: an optional plus sign, then digits, within range. *)
Fixpoint parse_digits (b : bytes) (acc : Z) : option Z :=
  match b with
  | [] => Some acc
  | c :: b' =>
      if (48 <=? c) && (c <=? 57) then
        let acc := acc * 10 + (c - 48) in if U64_MAX <? acc then None else parse_digits b' acc
      else None
  end.

Definition parse_u64 (s : string) : option Z :=
  let digits := match bytes_of_string s with 43 :: b => b | b => b end in
  if bool_decide (digits = []) then None else parse_digits digits 0.

(** [str::parse::<f64>]. *)
Class F64Parse := parse_f64 : string -> option F64.f64.

(** [c.is_ascii_hexdigit()]. *)
Definition hex_digit (c : Z) : bool :=
  ((48 <=? c) && (c <=? 57)) || ((65 <=? c) && (c <=? 70)) || ((97 <=? c) && (c <=? 102)).

(** [(lo..=hi).contains(&v)]. *)
Definition in_range (lo hi v : Z) : bool := (lo <=? v) && (v <=? hi).

Definition unit_interval (v : F64.f64) : bool := SFleb F64.zero v && SFleb v (F64.lit 1 1).

Definition validate_param_value `{F64Parse} (key value : string) : bool :=
  if decide (key = "block_gas_limit"%string) then from_option (in_range 1000 10000000000) false (parse_u64 value)
  else if decide (key = "base_fee_floor"%string \/ key = "base_fee_ceiling"%string)
  then from_option (fun v => v <=? 1000000000000) false (parse_u64 value)
  else if decide (key = "target_gas_utilization"%string) then from_option unit_interval false (parse_f64 value)
  else if decide (key = "chain_lambda_half_life"%string) then from_option (in_range 1 1000000000) false (parse_u64 value)
  else if String.prefix UPGRADE_PREFIX key
  then (ssize value =? 64) && forallb hex_digit (bytes_of_string value)
  else false.

(** ** Proposals *)

Definition decide_proposal_outcome (p : GovernanceProposal) : ProposalStatus :=
  let total_weight := saturating_add (p_votes_for p) (p_votes_against p) in
  if (total_weight <? QUORUM_MIN_TOTAL_WEIGHT) || (base.size (p_voters p) <? QUORUM_MIN_VOTERS)%nat then Rejected
  else if saturating_mul (p_votes_against p) PASS_THRESHOLD_MULTIPLIER <? p_votes_for p then Passed
  else Rejected.

Definition with_status (s : ProposalStatus) (p : GovernanceProposal) : GovernanceProposal :=
  {| p_proposal_id := p_proposal_id p; p_proposer := p_proposer p; p_title := p_title p; p_param_key := p_param_key p;
     p_param_value := p_param_value p; p_start_epoch := p_start_epoch p; p_end_epoch := p_end_epoch p;
     p_votes_for := p_votes_for p; p_votes_against := p_votes_against p; p_status := s; p_created_at := p_created_at p;
     p_voters := p_voters p |}.

(** One vote, weighed by the balance of the voter up to the cap. *)
Definition with_vote (voter : bytes) (weight : Z) (vote : bool) (p : GovernanceProposal) : GovernanceProposal :=
  {| p_proposal_id := p_proposal_id p; p_proposer := p_proposer p; p_title := p_title p; p_param_key := p_param_key p;
     p_param_value := p_param_value p; p_start_epoch := p_start_epoch p; p_end_epoch := p_end_epoch p;
     p_votes_for := if vote then saturating_add (p_votes_for p) weight else p_votes_for p;
     p_votes_against := if vote then p_votes_against p else saturating_add (p_votes_against p) weight;
     p_status := p_status p; p_created_at := p_created_at p; p_voters := {[ voter ]} ∪ p_voters p |}.

#[export] Instance ProposalStatus_eq : EqDecision ProposalStatus.
Proof. solve_decision. Defined.

Section governance.
Context `{Blake3, Pallas, HashOrder, F64Parse}.

Abbreviation db_t := InMemoryStateDB.
Abbreviation outcome := (result unit ExecutionError).

Definition create_proposal (sender : bytes) (title key value : string) (voting_epochs epoch : Z) (db : db_t) : db_t * outcome :=
  if (MAX_PROPOSAL_TITLE_BYTES <? ssize title) || (MAX_PARAM_KEY_BYTES <? ssize key) || (MAX_PARAM_VALUE_BYTES <? ssize value)
     || negb (in_range MIN_VOTING_EPOCHS MAX_VOTING_EPOCHS voting_epochs) || negb (is_governable_param_key key)
     || negb (validate_param_value key value)
  then (db, Err (ContractError GovernanceRefused))
  else
    let id := Z.of_nat (base.size (proposals db)) in
    (put_proposal {| p_proposal_id := id; p_proposer := sender; p_title := title; p_param_key := key;
                     p_param_value := value; p_start_epoch := epoch; p_end_epoch := wrapping_add epoch voting_epochs;
                     p_votes_for := 0; p_votes_against := 0; p_status := ActiveProposal; p_created_at := epoch;
                     p_voters := ∅ |} db, Ok tt).

Definition cast_vote (sender : bytes) (proposal_id : Z) (vote : bool) (epoch : Z) (db : db_t) : db_t * outcome :=
  match proposals db !! proposal_id with
  | None => (db, Err (ContractError (ProposalNotFound proposal_id)))
  | Some p =>
      if negb (bool_decide (p_status p = ActiveProposal)) then (db, Err (ContractError ProposalClosed))
      else if p_end_epoch p <? epoch
      then (put_proposal (with_status (decide_proposal_outcome p) p) db, Err (ContractError VotingEnded))
      else if bool_decide (sender ∈ p_voters p) then (db, Err (ContractError DuplicateVote))
      else
        let weight := Z.min (from_option a_balance 0 (accounts db !! sender)) MAX_VOTE_WEIGHT in
        (put_proposal (with_vote sender weight vote p) db, Ok tt)
  end.

Definition execute_governance (tx : GovernanceTx) (epoch : Z) (db : db_t) : db_t * outcome :=
  let '(db, sender) := open_account (gv_sender tx) db in
  if negb (a_nonce sender =? gv_nonce tx) then (db, Err (InvalidNonce (a_nonce sender) (gv_nonce tx)))
  else
    let db := upsert_account (bump epoch) (gv_sender tx) db in
    match gv_action tx with
    | CreateProposal title key value voting_epochs => create_proposal (gv_sender tx) title key value voting_epochs epoch db
    | CastVote proposal_id vote => cast_vote (gv_sender tx) proposal_id vote epoch db
    end.

(** [db.all_proposals()], in the order of the map. *)
Definition all_proposals (db : db_t) : list GovernanceProposal :=
  omap (fun k => proposals db !! k) (hash_keys (proposals db)).

Definition expired_active (epoch : Z) (p : GovernanceProposal) : Prop :=
  p_status p = ActiveProposal /\ p_end_epoch p < epoch.

Definition timelock_due (epoch : Z) (p : GovernanceProposal) : Prop :=
  p_status p = Passed /\ saturating_add (p_end_epoch p) GOVERNANCE_TIMELOCK_EPOCHS <= epoch.

Definition close_vote (db : db_t) (p : GovernanceProposal) : db_t :=
  put_proposal (with_status (decide_proposal_outcome p) p) db.

Definition activate (db : db_t) (p : GovernanceProposal) : db_t :=
  put_proposal (with_status Executed p) (put_governance_param (p_param_key p) (p_param_value p) db).

Definition finalize_expired_proposals (epoch : Z) (db : db_t) : db_t :=
  let db := foldl close_vote db (filter (expired_active epoch) (all_proposals db)) in
  foldl activate db (filter (timelock_due epoch) (all_proposals db)).

(** ** What the executor reads back *)

Definition set_fee_bounds (lo hi : Z) (c : PidFeeController) : PidFeeController :=
  {| base_fee := base_fee c; target_utilization := target_utilization c; kp := kp c; ki := ki c; kd := kd c;
     integral_error := integral_error c; last_error := last_error c; min_base_fee := lo; max_base_fee := hi |}.

Definition set_target (t : F64.f64) (c : PidFeeController) : PidFeeController :=
  {| base_fee := base_fee c; target_utilization := t; kp := kp c; ki := ki c; kd := kd c;
     integral_error := integral_error c; last_error := last_error c; min_base_fee := min_base_fee c;
     max_base_fee := max_base_fee c |}.

Definition param_u64 (key : string) (old : Z) (db : db_t) : Z :=
  default old (governance_params db !! key ≫= parse_u64).

(** The fee controller; crossed bounds are replaced by the defaults. *)
Definition apply_fee_params (db : db_t) (c : PidFeeController) : PidFeeController :=
  let lo := param_u64 "base_fee_floor" (min_base_fee c) db in
  let hi := param_u64 "base_fee_ceiling" (max_base_fee c) db in
  let c := if hi <? lo then set_fee_bounds 100 1000000 c else set_fee_bounds lo hi c in
  match governance_params db !! "target_gas_utilization"%string ≫= parse_f64 with
  | Some t => if unit_interval t then set_target t c else c
  | None => c
  end.

Definition apply_block_gas_limit (db : db_t) (limit : Z) : Z := param_u64 "block_gas_limit" limit db.
End governance.

(** ** Parameters come from votes *)

(** A vote the outcome rule accepts. *)
Definition carried (p : GovernanceProposal) : Prop :=
  QUORUM_MIN_TOTAL_WEIGHT <= p_votes_for p + p_votes_against p /\ (QUORUM_MIN_VOTERS <= base.size (p_voters p))%nat /\
  PASS_THRESHOLD_MULTIPLIER * p_votes_against p < p_votes_for p.

Record proposal_ok `{F64Parse} (p : GovernanceProposal) : Prop := {
  po_for : is_u64 (p_votes_for p);
  po_against : is_u64 (p_votes_against p);
  po_end : is_u64 (p_end_epoch p);
  po_capped : p_votes_for p + p_votes_against p <= MAX_VOTE_WEIGHT * Z.of_nat (base.size (p_voters p));
  po_key : is_governable_param_key (p_param_key p) = true;
  po_value : validate_param_value (p_param_key p) (p_param_value p) = true;
  po_passed : p_status p = Passed \/ p_status p = Executed -> carried p;
}.

Record gov_ok `{F64Parse} (epoch : Z) (db : InMemoryStateDB) : Prop := {
  go_ids : forall id, is_Some (proposals db !! id) <-> 0 <= id < Z.of_nat (base.size (proposals db));
  go_keyed : forall id p, proposals db !! id = Some p -> p_proposal_id p = id /\ proposal_ok p;
  go_params : forall k v, governance_params db !! k = Some v ->
    exists id p, proposals db !! id = Some p /\ p_status p = Executed /\ p_param_key p = k /\ p_param_value p = v /\
      p_end_epoch p + GOVERNANCE_TIMELOCK_EPOCHS <= epoch;
}.

Definition balances_ok (db : InMemoryStateDB) : Prop := map_Forall (fun _ acc => is_u64 (a_balance acc)) (accounts db).

#[export] Instance balances_ok_dec db : Decision (balances_ok db).
Proof. unfold balances_ok, is_u64. apply _. Defined.

Section votes.
Context `{Blake3, Pallas, HashOrder, F64Parse}.

Lemma outcome_carried p : proposal_ok p -> decide_proposal_outcome p = Passed -> carried p.
Proof.
  intros [Hf Ha _ _ _ _ _]. unfold decide_proposal_outcome, carried.
  destruct (_ || _) eqn:E; [done|]. apply orb_false_iff in E as [E1%Z.ltb_ge E2%Nat.ltb_ge].
  destruct (Z.ltb_spec (saturating_mul (p_votes_against p) PASS_THRESHOLD_MULTIPLIER) (p_votes_for p)); [|done].
  intros _. unfold PASS_THRESHOLD_MULTIPLIER in *. u64_unfold. split_and!; [lia|done|lia].
Qed.

Lemma outcome_final p : decide_proposal_outcome p = Passed \/ decide_proposal_outcome p = Rejected.
Proof. unfold decide_proposal_outcome. destruct (_ || _); [by right|]. destruct (_ <? _); auto. Qed.

Lemma with_status_ok s p : proposal_ok p -> (s = Passed \/ s = Executed -> carried p) -> proposal_ok (with_status s p).
Proof. intros [] Hs. by split. Qed.

Lemma closed_ok p : proposal_ok p -> proposal_ok (with_status (decide_proposal_outcome p) p).
Proof.
  intros Hp. apply with_status_ok; [done|]. intros [?|E]; [by apply outcome_carried|].
  destruct (outcome_final p); congruence.
Qed.

Lemma with_vote_ok voter weight vote p :
  proposal_ok p -> p_status p = ActiveProposal -> voter ∉ p_voters p -> 0 <= weight <= MAX_VOTE_WEIGHT ->
  proposal_ok (with_vote voter weight vote p).
Proof.
  intros [Hf Ha He Hc Hk Hv _] Hs Hn Hw. unfold MAX_VOTE_WEIGHT, with_vote in *.
  split; cbn [p_votes_for p_votes_against p_end_epoch p_voters p_param_key p_param_value p_status];
    [destruct vote; u64_lia|destruct vote; u64_lia|done| |done|done|rewrite Hs; by intros [?|?]].
  rewrite size_union, size_singleton by set_solver. unfold MAX_VOTE_WEIGHT. destruct vote; u64_lia.
Qed.

(** A proposal overwritten in place. *)
Lemma gov_ok_put epoch db id p :
  gov_ok epoch db -> proposals db !! id = Some p ->
  forall p', p_proposal_id p' = id -> proposal_ok p' -> p_status p <> Executed ->
  gov_ok epoch (put_proposal p' db).
Proof.
  intros [Hi Hk Hp] Hid p' E' Hok Hne. unfold put_proposal. rewrite E'. split; cbn.
  - intros j. rewrite map_size_insert_Some by (by eexists). rewrite <- Hi.
    destruct (decide (j = id)) as [->|Hj]; [rewrite lookup_insert_eq, Hid; split; by eexists|by rewrite lookup_insert_ne].
  - intros j q. destruct (decide (j = id)) as [->|Hj]; [rewrite lookup_insert_eq; by intros [= <-]|rewrite lookup_insert_ne by done; apply Hk].
  - intros k v (j & q & Hj & Hs & Hrest)%Hp. exists j, q. rewrite lookup_insert_ne; [done|]. intros <-. congruence.
Qed.

Lemma gov_ok_frame epoch epoch' db db' :
  gov_ok epoch db -> epoch <= epoch' -> proposals db' = proposals db -> governance_params db' = governance_params db ->
  gov_ok epoch' db'.
Proof.
  intros [Hi Hk Hp] He Ep Eg. split; rewrite ?Ep, ?Eg; [done|done|].
  intros k v (id & p & ? & ? & ? & ? & ?)%Hp. exists id, p. split_and!; [done..|lia].
Qed.

Lemma create_proposal_ok sender title key value voting epoch db :
  gov_ok epoch db -> gov_ok epoch (create_proposal sender title key value voting epoch db).1.
Proof.
  intros Hg. unfold create_proposal. destruct (_ || _) eqn:E; [done|]. cbn.
  repeat (apply orb_false_iff in E as [E ?]). destruct Hg as [Hi Hk Hp].
  set (id := Z.of_nat (base.size (proposals db))) in *.
  assert (Hfresh : proposals db !! id = None). { apply eq_None_not_Some. rewrite Hi. lia. }
  unfold put_proposal. split; cbn.
  - intros j. rewrite map_size_insert_None by done. destruct (decide (j = id)) as [->|Hj].
    + rewrite lookup_insert_eq. split; [intros _; lia|by eexists].
    + rewrite lookup_insert_ne, Hi by done. fold id. lia.
  - intros j q. destruct (decide (j = id)) as [->|Hj]; [|rewrite lookup_insert_ne by done; apply Hk].
    rewrite lookup_insert_eq. intros [= <-]. split; [done|]. unfold MAX_VOTE_WEIGHT.
    split; cbn; rewrite ?size_empty; [u64_lia|u64_lia|apply as_u64_range|lia|by destruct (is_governable_param_key key)|by destruct (validate_param_value key value)|by intros [?|?]].
  - intros k v (j & q & Hj & Hrest)%Hp. exists j, q. rewrite lookup_insert_ne; [done|]. intros <-. congruence.
Qed.

Lemma cast_vote_ok sender pid vote epoch db :
  gov_ok epoch db -> balances_ok db -> gov_ok epoch (cast_vote sender pid vote epoch db).1.
Proof.
  intros Hg Hb. unfold cast_vote. destruct (proposals db !! pid) as [p|] eqn:E; [|done].
  destruct (go_keyed _ _ Hg _ _ E) as [Hid Hok].
  case_bool_decide as Hs; [|done]. cbn [negb].
  destruct (p_end_epoch p <? epoch); [|case_bool_decide as Hv; [done|]]; cbn [fst].
  - eapply gov_ok_put; [done|done|done|by apply closed_ok|congruence].
  - eapply gov_ok_put; [done|done|done| |congruence]. apply with_vote_ok; [done..|].
    destruct (accounts db !! sender) as [a|] eqn:Ea; cbn; unfold MAX_VOTE_WEIGHT; [|lia]. apply Hb in Ea. u64_lia.
Qed.
End votes.

Section finalization.
Context `{Blake3, Pallas, HashOrder, F64Parse}.

Lemma all_proposals_ids db :
  (forall id p, proposals db !! id = Some p -> p_proposal_id p = id) ->
  p_proposal_id <$> all_proposals db = hash_keys (proposals db).
Proof.
  intros Hk. unfold all_proposals.
  assert (Hs : Forall (fun k => is_Some (proposals db !! k)) (hash_keys (proposals db))).
  { apply Forall_forall. intros k. apply elem_of_hash_keys. }
  induction Hs as [|k l [p E] _ IH]; [done|]. cbn. rewrite E. cbn. by rewrite (Hk _ _ E), IH.
Qed.

Lemma elem_of_all_proposals db p : p ∈ all_proposals db <-> exists id, proposals db !! id = Some p.
Proof.
  unfold all_proposals. rewrite list_elem_of_omap. setoid_rewrite elem_of_hash_keys. naive_solver.
Qed.

(** One pass over some of the proposals. *)
Lemma fold_proposals epoch (P : GovernanceProposal -> Prop) `{!forall p, Decision (P p)} f db :
  (forall db p, gov_ok epoch db -> proposals db !! p_proposal_id p = Some p -> P p ->
     gov_ok epoch (f db p) /\ forall j, j <> p_proposal_id p -> proposals (f db p) !! j = proposals db !! j) ->
  gov_ok epoch db -> gov_ok epoch (foldl f db (filter P (all_proposals db))).
Proof.
  intros Hf Hg.
  assert (Hl : Forall (fun p => proposals db !! p_proposal_id p = Some p) (all_proposals db)).
  { apply Forall_forall. intros p [id E]%elem_of_all_proposals. by rewrite (proj1 (go_keyed _ _ Hg _ _ E)). }
  assert (Hn : NoDup (p_proposal_id <$> all_proposals db)).
  { rewrite all_proposals_ids; [apply hash_keys_NoDup|]. intros id p E. apply (go_keyed _ _ Hg _ _ E). }
  revert Hl Hn. generalize (all_proposals db). intros l. revert db Hg. induction l as [|p l IH]; intros db Hg Hl Hn; [done|].
  apply Forall_cons in Hl as [Hp Hl]. cbn in Hn. apply NoDup_cons in Hn as [Hni Hn].
  rewrite filter_cons. case_decide as HP; [|by apply IH]. cbn. destruct (Hf db p Hg Hp HP) as [Hg' Hfr].
  apply IH; [done| |done]. rewrite Forall_forall in Hl |- *. intros q Hq. rewrite Hfr; [by apply Hl|].
  intros Eid. apply Hni. rewrite <- Eid. apply list_elem_of_fmap. by exists q.
Qed.

Lemma finalize_ok epoch db :
  is_u64 epoch -> epoch < U64_MAX -> gov_ok epoch db -> gov_ok epoch (finalize_expired_proposals epoch db).
Proof.
  intros He Hlt Hg. unfold finalize_expired_proposals.
  apply fold_proposals; [|apply fold_proposals; [|done]]; clear db Hg; intros db p Hg Hp HP;
    destruct (go_keyed _ _ Hg _ _ Hp) as [_ Hok].
  - destruct HP as [Hs Hdue]. split; [|intros j Hj; cbn; by rewrite lookup_insert_ne].
    assert (Hend : p_end_epoch p + GOVERNANCE_TIMELOCK_EPOCHS <= epoch).
    { destruct Hok. unfold GOVERNANCE_TIMELOCK_EPOCHS in *. u64_lia. }
    assert (Hg1 : gov_ok epoch (put_proposal (with_status Executed p) db)).
    { eapply gov_ok_put; [done|done|done| |congruence]. apply with_status_ok; [done|]. intros _. apply Hok. by left. }
    destruct Hg1 as [Hi Hk Hpar]. split; [done|done|]. unfold activate. cbn. intros k v.
    destruct (decide (k = p_param_key p)) as [->|Hne].
    + rewrite lookup_insert_eq. intros [= <-]. exists (p_proposal_id p), (with_status Executed p).
      by rewrite lookup_insert_eq.
    + rewrite lookup_insert_ne by done. apply Hpar.
  - destruct HP as [Hs _]. split; [|intros j Hj; cbn; by rewrite lookup_insert_ne].
    eapply gov_ok_put; [done|done|done|by apply closed_ok|congruence].
Qed.

Lemma execute_governance_ok tx epoch db :
  gov_ok epoch db -> balances_ok db -> gov_ok epoch (execute_governance tx epoch db).1.
Proof.
  intros Hg Hb. unfold execute_governance.
  destruct (open_account (gv_sender tx) db) as [db1 a] eqn:E. injection E as E1 E2.
  assert (Hg1 : gov_ok epoch db1).
  { destruct (opened_books (gv_sender tx) db) as [_ _ Hp Hq]. subst db1. by eapply gov_ok_frame. }
  assert (Hb1 : balances_ok (upsert_account (bump epoch) (gv_sender tx) db1)).
  { subst db1. intros x acc. rewrite accounts_upsert, accounts_opened, lookup_insert_eq.
    destruct (decide (x = gv_sender tx)) as [->|Hx]; [|rewrite !lookup_insert_ne by done; apply Hb].
    rewrite lookup_insert_eq. intros [= <-]. cbn. destruct (accounts db !! gv_sender tx) eqn:Ea; cbn; [by eapply Hb|u64_lia]. }
  destruct (negb _); [done|].
  assert (Hg2 : gov_ok epoch (upsert_account (bump epoch) (gv_sender tx) db1)).
  { destruct (upsert_books (bump epoch) (gv_sender tx) db1) as [_ _ Hp Hq]. by eapply gov_ok_frame. }
  destruct (gv_action tx); [by apply create_proposal_ok|by apply cast_vote_ok].
Qed.
End finalization.

(** Governance transactions and the work at the start of blocks, between
    anything else that leaves proposals and parameters alone. *)
Inductive gov_run `{Blake3, Pallas, HashOrder, F64Parse} (e0 : Z) (db0 : InMemoryStateDB) : Z -> InMemoryStateDB -> Prop :=
| gr_start : gov_run e0 db0 e0 db0
| gr_tx e db tx : gov_run e0 db0 e db -> balances_ok db -> gov_run e0 db0 e (execute_governance tx e db).1
| gr_finalize e db :
    gov_run e0 db0 e db -> 0 <= e < U64_MAX -> gov_run e0 db0 e (finalize_expired_proposals e db)
| gr_other e db e' db' :
    gov_run e0 db0 e db -> e <= e' -> proposals db' = proposals db -> governance_params db' = governance_params db ->
    gov_run e0 db0 e' db'.

Section soundness.
Context `{Blake3, Pallas, HashOrder, F64Parse}.

Lemma gov_run_ok e0 db0 e db :
  proposals db0 = ∅ -> governance_params db0 = ∅ -> gov_run e0 db0 e db -> gov_ok e db.
Proof.
  intros Ep Eg. induction 1 as [|e db tx _ IH Hb|e db _ IH He|e db e' db' _ IH He E1 E2].
  - split; rewrite ?Ep, ?Eg.
    + intros id. rewrite lookup_empty, map_size_empty. split; [by intros [? ?]|lia].
    + intros id p. by rewrite lookup_empty.
    + intros k v. by rewrite lookup_empty.
  - by apply execute_governance_ok.
  - apply finalize_ok; [u64_lia|lia|done].
  - by eapply gov_ok_frame.
Qed.

(** C22: a parameter of the chain changes only through a vote: whatever is set was
    proposed under a governable key with a value in range, carried by at least
    three accounts with the quorum of weight, each capped, more than two thirds
    in favour, and took effect no sooner than the timelock after the vote
    ended. *)
Theorem params_voted e0 db0 e db k v :
  proposals db0 = ∅ -> governance_params db0 = ∅ -> gov_run e0 db0 e db -> governance_params db !! k = Some v ->
  is_governable_param_key k = true /\ validate_param_value k v = true /\
  exists id p, proposals db !! id = Some p /\ p_param_key p = k /\ p_param_value p = v /\
    p_end_epoch p + GOVERNANCE_TIMELOCK_EPOCHS <= e /\
    QUORUM_MIN_TOTAL_WEIGHT <= p_votes_for p + p_votes_against p <= MAX_VOTE_WEIGHT * Z.of_nat (base.size (p_voters p)) /\
    (3 <= base.size (p_voters p))%nat /\ 2 * p_votes_against p < p_votes_for p.
Proof.
  intros Ep Eg Hr Hk. destruct (gov_run_ok _ _ _ _ Ep Eg Hr) as [_ Hkey Hpar].
  destruct (Hpar _ _ Hk) as (id & p & Hp & Hs & <- & <- & Hend). destruct (Hkey _ _ Hp) as [_ Hok].
  destruct (po_passed _ Hok) as (Hq & Hn & Hm); [by right|].
  split; [apply Hok|]. split; [apply Hok|]. exists id, p. split_and!; try done; apply Hok.
Qed.
End soundness.

(** C23: governance cannot crash the fee controller: whatever parameters were voted,
    together or one by one, the bounds the controller works with are never
    crossed, so its next update does not panic and leaves the base fee within
    them. *)
Theorem governed_fees_safe `{F64Parse} db c used limit :
  limit <> 0 ->
  exists c', update used limit (apply_fee_params db c) = Some c' /\
    min_base_fee (apply_fee_params db c) <= base_fee c' <= max_base_fee (apply_fee_params db c).
Proof.
  intros Hl.
  assert (Hb : min_base_fee (apply_fee_params db c) <= max_base_fee (apply_fee_params db c)).
  { unfold apply_fee_params. cbv zeta. generalize (param_u64 "base_fee_floor" (min_base_fee c) db) as lo.
    generalize (param_u64 "base_fee_ceiling" (max_base_fee c) db) as hi. intros hi lo.
    destruct (Z.ltb_spec hi lo); (destruct (_ ≫= parse_f64) as [t|]; [destruct (unit_interval t)|]); cbn; lia. }
  revert Hb. generalize (apply_fee_params db c). intros k Hb. unfold update, u64_clamp.
  destruct (Z.eqb_spec limit 0); [done|]. destruct (Z.ltb_spec (max_base_fee k) (min_base_fee k)); [lia|].
  eexists. split; [reflexivity|]. cbn. zcase; lia.
Qed.

Module ToyGov.
#[global] Instance no_floats : F64Parse := fun _ => None.

Definition voter (n : Z) : bytes := Toy.key n n.
Definition rich (n : Z) : Account := with_funds 20000000 0 0 (new_account (voter n)).
Definition db : InMemoryStateDB :=
  set_accounts (list_to_map [(voter 1, rich 1); (voter 2, rich 2); (voter 3, rich 3)]) db_new.

Definition act (n nonce : Z) (a : GovernanceAction) : GovernanceTx :=
  {| gv_action := a; gv_sender := voter n; gv_nonce := nonce; gv_signature := None; gv_public_key := None |}.

Definition votes : list GovernanceTx :=
  [act 1 0 (CreateProposal "gas" "block_gas_limit" "60000000" 10); act 1 1 (CastVote 0 true); act 2 0 (CastVote 0 true);
   act 3 0 (CastVote 0 true)].

Definition voted : InMemoryStateDB := foldl (fun db tx => (execute_governance tx 7 db).1) db votes.
Definition closed : InMemoryStateDB := finalize_expired_proposals 18 voted.
Definition final : InMemoryStateDB := finalize_expired_proposals 22 closed.
End ToyGov.

Lemma voted_run : gov_run 7 ToyGov.db 22 ToyGov.final.
Proof.
  unfold ToyGov.final, ToyGov.closed, ToyGov.voted, ToyGov.votes. cbn [foldl].
  apply gr_finalize; [|u64_unfold; lia]. eapply (gr_other _ _ 18); [|lia|done|done].
  apply gr_finalize; [|u64_unfold; lia]. eapply (gr_other _ _ 7); [|lia|done|done].
  repeat (apply gr_tx; [|apply (bool_decide_unpack _); by vm_compute]). apply gr_start.
Qed.

Lemma params_voted_witness :
  proposals ToyGov.db = ∅ /\ governance_params ToyGov.db = ∅ /\ gov_run 7 ToyGov.db 22 ToyGov.final /\
  governance_params ToyGov.final !! "block_gas_limit"%string = Some "60000000"%string /\
  governance_params ToyGov.closed !! "block_gas_limit"%string = None /\
  validate_param_value "block_gas_limit" "60000000" = true.
Proof.
  pose proof voted_run as Hr.
  assert (Hv : governance_params ToyGov.final !! "block_gas_limit"%string = Some "60000000"%string) by by vm_compute.
  split_and!; [done|done|exact Hr|exact Hv|by vm_compute|].
  exact (proj1 (proj2 (params_voted 7 ToyGov.db 22 ToyGov.final _ _ eq_refl eq_refl Hr Hv))).
Defined.

(** A floor above the ceiling. *)
Definition crossed_params : InMemoryStateDB :=
  put_governance_param "base_fee_ceiling" "50" (put_governance_param "base_fee_floor" "900" db_new).

Lemma governed_fees_safe_witness :
  (forall x, update 5 10 (set_fee_bounds 900 50 default_config) <> Some x) /\
  exists c', update 5 10 (apply_fee_params crossed_params default_config) = Some c' /\ 100 <= base_fee c' <= 1000000.
Proof.
  split; [by vm_compute|]. exact (governed_fees_safe crossed_params default_config 5 10 ltac:(done)).
Defined.
