(* ===== verification/BlockExecutor.v ===== *)
(** * Block execution

    crates/evaporchain-execution/src/lib.rs, [SimpleExecutor]: contract and
    script transactions, user operations, upgrades and key rotations, the
    dispatch of a transaction, the loop over the transactions of a block
    (signature, gas limit, fee, execution, revert), and the work of the block
    up to the deferred transactions.

    Rewards, rent, demurrage, releases and the audit of the block follow in
    Block.v. *)

From stdpp Require Import base gmap list strings sorting.
From Stdlib Require Import ZArith Lia.
From S2P Require Import Prelude Energy DecayCurves Trie Mmr Validators Mempool Tendermint ScriptValue ScriptVM ScriptCompiler ScriptEngine Transactions Types StateDB Lifecycle Fees Temporal Executor Governance.

Open Scope Z_scope.

(** ** State *)

Record SimpleExecutor (C : Type) := mkExecutor {
  evaporation_engine : EvaporationEngine;
  mmr : MerkleMountainRange;
  verify_signatures : bool;
  fee_controller : option PidFeeController;
  block_gas_limit : Z;
  contract_engine : C;
  script_engine : ScriptEngine;
  deferred_queue : DeferredQueue;
  decay_watchers : DecayWatcherEngine;
  pending_events : list (Z * ContractEvent);
  chain_id : string;
  call_depth : Z;
}.
Arguments mkExecutor {C}.
Arguments evaporation_engine {C}.
Arguments mmr {C}.
Arguments verify_signatures {C}.
Arguments fee_controller {C}.
Arguments block_gas_limit {C}.
Arguments contract_engine {C}.
Arguments script_engine {C}.
Arguments deferred_queue {C}.
Arguments decay_watchers {C}.
Arguments pending_events {C}.
Arguments chain_id {C}.
Arguments call_depth {C}.

Record ValidatorKeyRotation := {
  kr_validator_id : Z;
  kr_new_bls_public_key : bytes;
  kr_bls_pop_old : bytes;
  kr_new_bls_pop : bytes;
  kr_prev_key_expiry_epoch : Z;
}.

(** The executor, the state it works on, and the rotations of the block. *)
Record Machine (C : Type) := mkMachine {
  ex : SimpleExecutor C;
  db : InMemoryStateDB;
  rotations : list ValidatorKeyRotation;
}.
Arguments mkMachine {C}.
Arguments ex {C}.
Arguments db {C}.
Arguments rotations {C}.

Section updates.
Context {C : Type}.

Definition with_contracts (c : C) (x : SimpleExecutor C) : SimpleExecutor C :=
  mkExecutor (evaporation_engine x) (mmr x) (verify_signatures x) (fee_controller x) (block_gas_limit x) c
    (script_engine x) (deferred_queue x) (decay_watchers x) (pending_events x) (chain_id x) (call_depth x).
Definition with_scripts (s : ScriptEngine) (x : SimpleExecutor C) : SimpleExecutor C :=
  mkExecutor (evaporation_engine x) (mmr x) (verify_signatures x) (fee_controller x) (block_gas_limit x)
    (contract_engine x) s (deferred_queue x) (decay_watchers x) (pending_events x) (chain_id x) (call_depth x).
Definition with_queue (q : DeferredQueue) (x : SimpleExecutor C) : SimpleExecutor C :=
  mkExecutor (evaporation_engine x) (mmr x) (verify_signatures x) (fee_controller x) (block_gas_limit x)
    (contract_engine x) (script_engine x) q (decay_watchers x) (pending_events x) (chain_id x) (call_depth x).
Definition with_watchers (w : DecayWatcherEngine) (x : SimpleExecutor C) : SimpleExecutor C :=
  mkExecutor (evaporation_engine x) (mmr x) (verify_signatures x) (fee_controller x) (block_gas_limit x)
    (contract_engine x) (script_engine x) (deferred_queue x) w (pending_events x) (chain_id x) (call_depth x).
Definition with_events (l : list (Z * ContractEvent)) (x : SimpleExecutor C) : SimpleExecutor C :=
  mkExecutor (evaporation_engine x) (mmr x) (verify_signatures x) (fee_controller x) (block_gas_limit x)
    (contract_engine x) (script_engine x) (deferred_queue x) (decay_watchers x) l (chain_id x) (call_depth x).
Definition with_depth (d : Z) (x : SimpleExecutor C) : SimpleExecutor C :=
  mkExecutor (evaporation_engine x) (mmr x) (verify_signatures x) (fee_controller x) (block_gas_limit x)
    (contract_engine x) (script_engine x) (deferred_queue x) (decay_watchers x) (pending_events x) (chain_id x) d.
Definition with_limits (fc : option PidFeeController) (limit : Z) (x : SimpleExecutor C) : SimpleExecutor C :=
  mkExecutor (evaporation_engine x) (mmr x) (verify_signatures x) fc limit
    (contract_engine x) (script_engine x) (deferred_queue x) (decay_watchers x) (pending_events x) (chain_id x) (call_depth x).
Definition with_mmr (r : MerkleMountainRange) (x : SimpleExecutor C) : SimpleExecutor C :=
  mkExecutor (evaporation_engine x) r (verify_signatures x) (fee_controller x) (block_gas_limit x)
    (contract_engine x) (script_engine x) (deferred_queue x) (decay_watchers x) (pending_events x) (chain_id x) (call_depth x).

Definition with_db (d : InMemoryStateDB) (m : Machine C) : Machine C := mkMachine (ex m) d (rotations m).
Definition with_ex (x : SimpleExecutor C) (m : Machine C) : Machine C := mkMachine x (db m) (rotations m).
Definition add_rotation (r : ValidatorKeyRotation) (m : Machine C) : Machine C :=
  mkMachine (ex m) (db m) (rotations m ++ [r]).
End updates.

Section executor.
Context `{CurveJson, Blake3, Pallas, HybridVerifier, BlsKeys, HashOrder, Hex, StrDebug, F64Parse}.
Context `{!Json, !ScriptParser, !AppTemplates, !MlDsa}.
Context {C : Type} `{!ContractTemplates C}.

Abbreviation machine := (Machine C).
Abbreviation outcome := (result unit ExecutionError).

(** An operation on the state alone. *)
Definition on_db (f : InMemoryStateDB -> InMemoryStateDB * outcome) (m : machine) : machine * outcome :=
  let '(d, r) := f (db m) in (with_db d m, r).

(** ** Contracts and scripts *)

Definition TEMPLATES : list string :=
  ["DecayingToken"; "MortalNFT"; "ThermodynamicEscrow"; "DecayingAuction"; "StakingPool"; "DAOVote"; "TemporalContract"]%string.

Definition execute_deploy_contract (tx : DeployContractTx) (epoch : Z) (m : machine) : machine * outcome :=
  if negb (bool_decide (dc_template tx ∈ TEMPLATES)) then (m, Err (ContractError UnknownTemplate))
  else if negb (json_valid (dc_init_args tx)) then (m, Err (ContractError InvalidJson))
  else if negb (from_option rules_valid true (dc_rules tx)) then (m, Err (ContractError InvalidJson))
  else
    let contract_bytes :=
      saturating_add (saturating_add BASE_CONTRACT_BYTES (ssize (dc_init_args tx))) (from_option ssize 0 (dc_rules tx)) in
    match charge_deposit (dc_deployer tx) contract_bytes epoch (db m) with
    | (d, Err e) => (with_db d m, Err e)
    | (d, Ok _) =>
        let '(c, ok) := template_deploy tx epoch (contract_engine (ex m)) in
        let m := with_ex (with_contracts c (ex m)) (with_db d m) in
        if ok then (m, Ok tt) else (m, Err (ContractError EngineRefused))
    end.

Definition MAX_ARGS : Z := 1000000.

(** The depth while a call runs, and after it. *)
Definition enter (x : SimpleExecutor C) : SimpleExecutor C := with_depth (saturating_add (call_depth x) 1) x.
Definition leave (x : SimpleExecutor C) : SimpleExecutor C := with_depth (saturating_sub (call_depth x) 1) x.

Definition execute_call_contract (tx : CallContractTx) (m : machine) : machine * outcome :=
  if EXEC_MAX_CALL_DEPTH <=? call_depth (ex m) then (m, Err CallDepthExceeded)
  else if MAX_ARGS <? ssize (cc_args tx) then (m, Err (ContractError ArgsTooLarge))
  else if negb (json_valid (cc_args tx)) then (m, Err (ContractError InvalidJson))
  else
    let x := enter (ex m) in
    let '(c, ok) := template_call (cc_contract_id tx) (cc_method tx) (cc_args tx) (cc_caller tx) (cc_epoch tx) (contract_engine x) in
    let m := with_ex (leave (with_contracts c x)) m in
    if ok then (m, Ok tt) else (m, Err (ContractError EngineRefused)).

Definition execute_deploy_script (tx : DeployScriptTx) (epoch : Z) (m : machine) : machine * outcome :=
  match charge_deposit (ds_deployer tx) (saturating_add BASE_SCRIPT_BYTES (ssize (ds_source_code tx))) epoch (db m) with
  | (d, Err e) => (with_db d m, Err e)
  | (d, Ok _) =>
      let m := with_db d m in
      let gate :=
        if bool_decide (governance_params d !! "script_vm_mode"%string = Some "total"%string)
        then let? ast := parse_script (ds_source_code tx) in check_total_contract ast
        else Ok tt in
      match gate with
      | Err e => (m, Err (ScriptFailure (ScriptFailed e)))
      | Ok _ =>
          match ScriptEngine.deploy (parse_script (ds_source_code tx)) (ssize (ds_source_code tx)) (ds_deployer tx)
                  (ds_energy tx) (ds_half_life tx) epoch (script_engine (ex m)) with
          | (s, Ok _) => (with_ex (with_scripts s (ex m)) m, Ok tt)
          | (s, Err e) => (with_ex (with_scripts s (ex m)) m, Err (ScriptFailure (ScriptFailed e)))
          end
      end
  end.

Definition execute_deploy_template (tx : DeployTemplateTx) (epoch : Z) (m : machine) : machine * outcome :=
  if app_template_ok tx then (with_db (modify_account (touch epoch) (dt_deployer tx) (db m)) m, Ok tt)
  else (m, Err (ContractError EngineRefused)).

Definition call_args (s : string) : option (list Value) :=
  if bool_decide (s = ""%string \/ s = "[]"%string) then Some [] else script_args s.

Definition execute_call_script (tx : CallScriptTx) (m : machine) : machine * outcome :=
  if EXEC_MAX_CALL_DEPTH <=? call_depth (ex m) then (m, Err CallDepthExceeded)
  else if MAX_ARGS <? ssize (cs_args tx) then (m, Err (ScriptFailure ArgsTooLarge))
  else
    match call_args (cs_args tx) with
    | None => (m, Err (ScriptFailure InvalidJson))
    | Some args =>
        let x := enter (ex m) in
        match call_with_vm_gas (cs_contract_id tx) (cs_method tx) args (cs_caller tx) (cs_epoch tx)
                SCRIPT_VM_GAS_PER_CALL_SCRIPT (script_engine x) with
        | (s, Err e) => (with_ex (leave (with_scripts s x)) m, Err (ScriptFailure (ScriptFailed e)))
        | (s, Ok r) =>
            let x := with_scripts s x in
            let x := with_events (pending_events x ++ ((fun ev => (cs_contract_id tx, ev)) <$> r_structured_events r)) x in
            (with_ex (leave x) m, Ok tt)
        end
    end.

(** A call stamps the caller, when it succeeds. *)
Definition stamp_caller (caller : bytes) (epoch : Z) (r : machine * outcome) : machine * outcome :=
  match r with
  | (m, Ok _) => (with_db (modify_account (touch epoch) caller (db m)) m, Ok tt)
  | (m, Err e) => (m, Err e)
  end.

(** ** User operations *)

(** The paymaster's consent and means; it pays [total_gas_cost]. *)
Definition total_gas_cost (tx : UserOpTx) : Z := saturating_add (uo_call_gas_limit tx) GAS_USER_OP.

Definition check_paymaster (chain : string) (tx : UserOpTx) (paymaster : bytes) (d : InMemoryStateDB)
  : InMemoryStateDB * result unit ExecutionError :=
  match uo_paymaster_nonce tx, uo_paymaster_signature tx, uo_paymaster_public_key tx with
  | None, _, _ => (d, Err (ContractError PaymasterNonceMissing))
  | Some _, None, _ => (d, Err (ContractError PaymasterSignatureMissing))
  | Some _, Some _, None => (d, Err (ContractError PaymasterKeyMissing))
  | Some pm_nonce, Some pm_sig, Some pm_pk =>
      if bool_decide (address_from_pubkey pm_pk <> paymaster) then (d, Err (ContractError PaymasterKeyMismatch))
      else if negb (hybrid_verify (default [] (paymaster_sponsorship_payload chain tx)) pm_sig pm_pk)
      then (d, Err (ContractError PaymasterSignatureInvalid))
      else
        let '(d, pm) := open_account paymaster d in
        if negb (a_nonce pm =? pm_nonce) then (d, Err (InvalidNonce (a_nonce pm) pm_nonce))
        else if a_balance pm <? total_gas_cost tx
        then (d, Err (InsufficientGas paymaster (a_balance pm) (total_gas_cost tx)))
        else (d, Ok tt)
  end.

(** The paymaster's gas and nonce. *)
Definition pay_sponsorship (cost epoch : Z) (a : Account) : Account :=
  with_funds (saturating_sub (a_balance a) cost) (saturating_add (a_nonce a) 1) epoch a.

(** The intent inside: a transfer or a call of the sender, nothing else. *)
Definition execute_inner (tx : UserOpTx) (epoch : Z) (m : machine) : machine * outcome :=
  match tx_of_json (uo_call_data tx) with
  | None => (m, Err (ContractError InnerUndecodable))
  | Some (Transfer t) => on_db (execute_inner_transfer t (uo_sender tx) epoch) m
  | Some (CallScript t) =>
      if bool_decide (cs_caller t <> uo_sender tx) then (m, Err (ContractError Impersonation)) else execute_call_script t m
  | Some (CallContract t) =>
      if bool_decide (cc_caller t <> uo_sender tx) then (m, Err (ContractError Impersonation)) else execute_call_contract t m
  | Some _ => (m, Err (ContractError InnerNotAllowed))
  end.

Definition execute_user_op (tx : UserOpTx) (epoch : Z) (m : machine) : machine * outcome :=
  let '(d, sender) := open_account (uo_sender tx) (db m) in
  if negb (a_nonce sender =? uo_nonce tx) then (with_db d m, Err (InvalidNonce (a_nonce sender) (uo_nonce tx)))
  else
    let '(d, checked) :=
      match uo_paymaster tx with
      | Some paymaster => check_paymaster (chain_id (ex m)) tx paymaster d
      | None => (d, Ok tt)
      end in
    match checked with
    | Err e => (with_db d m, Err e)
    | Ok _ =>
        let d := upsert_account (bump_saturating epoch) (uo_sender tx) d in
        let d :=
          match uo_paymaster tx with
          | Some paymaster => upsert_account (pay_sponsorship (total_gas_cost tx) epoch) paymaster d
          | None => d
          end in
        if bool_decide (uo_call_data tx = []) then (with_db d m, Ok tt) else execute_inner tx epoch (with_db d m)
    end.

(** ** Upgrades *)

(** The bytes an administrator signs. *)
Definition quoted (s : string) : string := String.append (String (Ascii.ascii_of_nat 34) s) (String (Ascii.ascii_of_nat 34) "").
Definition upgrade_payload (tx : UpgradeContractTx) : bytes :=
  bytes_of_string ("{" +:+ quoted "type" +:+ ":" +:+ quoted "upgrade_contract" +:+ "," +:+ quoted "contract_id" +:+ ":"
    +:+ show_u64 (uc_contract_id tx) +:+ "," +:+ quoted "new_bytecode_hash_hex" +:+ ":"
    +:+ quoted (hex_encode (uc_new_bytecode_hash tx)) +:+ "," +:+ quoted "nonce" +:+ ":" +:+ show_u64 (uc_nonce tx) +:+ "}").

(** The administrator's signature, or the stakes the transaction declares. *)
Definition upgrade_auth (tx : UpgradeContractTx) (admin : option bytes) : result UpgradeAuth ExecutionError :=
  match uc_admin_signature tx with
  | Some sig =>
      match uc_admin_public_key tx, admin with
      | None, _ => Err (ContractError AdminKeyMissing)
      | Some _, None => Err (ContractError ContractFrozen)
      | Some pk, Some admin_addr =>
          if bool_decide (address_from_pubkey pk <> admin_addr) then Err (ContractError AdminKeyMismatch)
          else if negb (ml_dsa_verify (upgrade_payload tx) sig pk) then Err (ContractError AdminSignatureInvalid)
          else Ok (ScriptEngine.Admin admin_addr)
      end
  | None =>
      let total := foldl saturating_add 0 (uc_endorser_stakes tx) in
      if total <? uc_required_stake tx then Err (ContractError QuorumNotMet)
      else if uc_required_stake tx =? 0 then Err (ContractError ZeroQuorum)
      else Ok ScriptEngine.Governance
  end.

Definition execute_upgrade_contract (tx : UpgradeContractTx) (epoch : Z) (m : machine) : machine * outcome :=
  let '(d, sender) := open_account (uc_owner tx) (db m) in
  if negb (a_nonce sender =? uc_nonce tx) then (with_db d m, Err (InvalidNonce (a_nonce sender) (uc_nonce tx)))
  else
    let m := with_db (upsert_account (bump_saturating epoch) (uc_owner tx) d) m in
    if bool_decide (blake3 (uc_new_bytecode tx) <> uc_new_bytecode_hash tx) then (m, Err (ContractError HashMismatch))
    else
      match get_contract (script_engine (ex m)) (uc_contract_id tx) with
      | None => (m, Err (ContractError (ContractUnknown (uc_contract_id tx))))
      | Some contract =>
          match upgrade_auth tx (sc_admin contract) with
          | Err e => (m, Err e)
          | Ok auth =>
              if negb (utf8_valid (uc_new_bytecode tx)) then (m, Err (ContractError NotUtf8))
              else
                match upgrade_contract (uc_contract_id tx) (parse_script (string_of_bytes (uc_new_bytecode tx))) auth
                        (script_engine (ex m)) with
                | (s, Err e) => (with_ex (with_scripts s (ex m)) m, Err (ContractError (UpgradeFailed e)))
                | (s, Ok _) =>
                    let m := with_ex (with_scripts s (ex m)) m in
                    (with_db (upsert_account (touch epoch) (uc_owner tx) (db m)) m, Ok tt)
                end
          end
      end.

(** ** Key rotation *)

Definition execute_rotation (rot : RotateValidatorKeyTx) (epoch : Z) (m : machine) : machine * outcome :=
  if rk_effective_epoch rot <? epoch then (m, Err (ContractError RotationInPast))
  else if negb (Mempool.size (rk_new_bls_public_key rot) =? 48) then (m, Err (ContractError RotationKeyLength))
  else
    match stakes (db m) !! rk_validator_id rot with
    | None => (m, Err (ContractError (NoValidatorStake (rk_validator_id rot))))
    | Some s =>
        if bool_decide (s_validator_address s <> rk_validator_address rot) then (m, Err (ContractError RotationAddress))
        else
          let expected := from_option a_nonce 0 (accounts (db m) !! rk_validator_address rot) in
          if negb (rk_nonce rot =? expected) then (m, Err (ContractError (RotationNonce expected (rk_nonce rot))))
          else if negb (bls_verify_pop (rk_new_bls_public_key rot) (rk_bls_pop_new rot)) then (m, Err (ContractError RotationPop))
          else
            let m := with_db (modify_account (bump_saturating epoch) (rk_validator_address rot) (db m)) m in
            (add_rotation {| kr_validator_id := rk_validator_id rot; kr_new_bls_public_key := rk_new_bls_public_key rot;
                             kr_bls_pop_old := rk_bls_pop_old rot; kr_new_bls_pop := rk_bls_pop_new rot;
                             kr_prev_key_expiry_epoch := saturating_add (rk_effective_epoch rot) KEY_ROTATION_GRACE_EPOCHS |} m,
             Ok tt)
    end.

(** ** One transaction *)

Definition submit_deferred (tx : DeferredTx) (m : machine) : machine * outcome :=
  match Temporal.submit tx (deferred_queue (ex m)) with
  | (q, Ok _) => (with_ex (with_queue q (ex m)) m, Ok tt)
  | (q, Err e) => (with_ex (with_queue q (ex m)) m, Err (ContractError (TemporalRefused e)))
  end.

Definition check_blob (tx : BlobTx) : outcome :=
  if bool_decide (bl_data tx = []) then Err (ContractError BlobEmpty)
  else if MAX_BLOB_SIZE <? Mempool.size (bl_data tx) then Err (ContractError BlobTooLarge)
  else if bl_namespace_id tx =? 0 then Err (ContractError ReservedNamespace)
  else Ok tt.

(** Shielded transactions are refused: the constant [SHIELDED_TX_DISABLED_V1]
    is true. *)
Definition dispatch (t : Transaction) (epoch : Z) (m : machine) : machine * outcome :=
  match t with
  | Transfer tx => on_db (execute_transfer tx epoch) m
  | CreateObject tx => on_db (execute_create_object tx epoch) m
  | Refresh tx => on_db (execute_refresh_tx tx epoch) m
  | DeployContract tx => execute_deploy_contract tx epoch m
  | CallContract tx => stamp_caller (cc_caller tx) epoch (execute_call_contract tx m)
  | DeployScript tx => execute_deploy_script tx epoch m
  | CallScript tx => stamp_caller (cs_caller tx) epoch (execute_call_script tx m)
  | ValidatorStake tx => on_db (execute_validator_stake tx epoch) m
  | ValidatorExit tx => on_db (execute_validator_exit tx epoch) m
  | ValidatorClaimStake tx => on_db (execute_validator_claim_stake tx epoch) m
  | Shield _ | Unshield _ | PrivateTransfer _ => (m, Err (ContractError ShieldedDisabled))
  | Deferred tx => submit_deferred tx m
  | Blob tx => (m, check_blob tx)
  | Transactions.Governance tx => on_db (execute_governance tx epoch) m
  | MultiSig tx => on_db (execute_multisig tx epoch) m
  | UserOp tx => execute_user_op tx epoch m
  | UpgradeContract tx => execute_upgrade_contract tx epoch m
  | Delegate tx => on_db (execute_delegate tx epoch) m
  | Undelegate tx => on_db (execute_undelegate tx epoch) m
  | RotateValidatorKey tx => execute_rotation tx epoch m
  | ClaimDelegation tx => on_db (execute_claim_delegation tx epoch) m
  | Refund tx => on_db (execute_refund tx epoch) m
  | DeployTemplate tx => execute_deploy_template tx epoch m
  end.

(** ** Before execution *)

Definition GAS_DEPLOY_TEMPLATE_BASE : Z := 50000.
Definition GAS_DEPLOY_TEMPLATE_PER_BYTE : Z := 50.

Definition exec_gas (t : Transaction) : Z :=
  match t with
  | Transfer _ => GAS_TRANSFER
  | CreateObject tx => saturating_add GAS_CREATE_OBJECT_BASE (saturating_mul GAS_CREATE_OBJECT_PER_BYTE (Mempool.size (co_data tx)))
  | Refresh _ => GAS_REFRESH
  | DeployContract _ => GAS_DEPLOY_CONTRACT
  | CallContract _ => GAS_CALL_CONTRACT
  | DeployScript tx => saturating_add GAS_DEPLOY_SCRIPT (saturating_mul GAS_CREATE_OBJECT_PER_BYTE (ssize (ds_source_code tx)))
  | CallScript _ => GAS_CALL_SCRIPT
  | ValidatorStake _ => GAS_VALIDATOR_STAKE
  | ValidatorExit _ => GAS_VALIDATOR_EXIT
  | ValidatorClaimStake _ => GAS_VALIDATOR_CLAIM_STAKE
  | Shield _ => GAS_SHIELD
  | Unshield _ => GAS_UNSHIELD
  | PrivateTransfer tx => estimate_private_transfer_gas tx
  | Deferred tx => saturating_add GAS_DEFERRED_SUBMIT (saturating_mul GAS_PER_GUARD (count (df_guards tx)))
  | Blob tx => saturating_add GAS_CREATE_OBJECT_BASE (saturating_mul GAS_CREATE_OBJECT_PER_BYTE (Mempool.size (bl_data tx)))
  | Transactions.Governance _ => GAS_GOVERNANCE
  | MultiSig _ => GAS_MULTISIG
  | UserOp tx => saturating_add GAS_USER_OP (wrapping_mul (Mempool.size (uo_call_data tx)) 16)
  | UpgradeContract tx => saturating_add GAS_UPGRADE_CONTRACT (wrapping_mul (Mempool.size (uc_new_bytecode tx)) 200)
  | Delegate _ => GAS_DELEGATE
  | Undelegate _ => GAS_UNDELEGATE
  | RotateValidatorKey _ => GAS_ROTATE_VALIDATOR_KEY
  | ClaimDelegation _ => GAS_CLAIM_DELEGATION
  | Refund _ => GAS_REFUND
  | DeployTemplate tx => saturating_add GAS_DEPLOY_TEMPLATE_BASE (saturating_mul GAS_DEPLOY_TEMPLATE_PER_BYTE (Mempool.size (dt_params tx)))
  end.

(** The address a key must derive to. *)
Definition binding_addr (t : Transaction) : option bytes :=
  match t with
  | MultiSig _ => None
  | UserOp tx => Some (uo_sender tx)
  | _ => tx_sender t
  end.

Definition zk_authenticated (t : Transaction) : bool :=
  match t with Unshield _ | PrivateTransfer _ => true | _ => false end.

Definition verify_tx_signature (x : SimpleExecutor C) (t : Transaction) : outcome :=
  if negb (verify_signatures x) || zk_authenticated t then Ok tt
  else
    match tx_signature t, tx_public_key t with
    | Some sig, Some pk =>
        if negb (hybrid_verify (signing_message (chain_id x) t) sig pk) then Err InvalidSignature
        else if from_option (fun claimed => bool_decide (address_from_pubkey pk <> claimed)) false (binding_addr t)
        then Err InvalidSignature
        else Ok tt
    | _, _ => Err MissingSignature
    end.

(** [gas_used.checked_add(tx_gas)] against the limit; zero is no limit. *)
Definition exceeds_block_gas (limit used gas : Z) : bool :=
  (0 <? limit) && match checked_add used gas with Some p => limit <? p | None => true end.

Definition total_tx_fee (fc : PidFeeController) (t : Transaction) : Z :=
  let gas_fee := compute_gas_fee fc (exec_gas t) 0 in
  let extra_fee :=
    match t with
    | CreateObject tx => compute_creation_deposit (Mempool.size (co_data tx))
    | Refresh tx => compute_refresh_fee (rf_energy_deposit tx)
    | _ => 0
    end in
  wrapping_add gas_fee extra_fee.

(** The fee and the state it is taken from; [None] when the sender cannot pay. *)
Definition charge_fee (t : Transaction) (epoch : Z) (m : machine) : machine * option Z :=
  match fee_controller (ex m) with
  | None => (m, Some 0)
  | Some fc =>
      let fee := total_tx_fee fc t in
      match tx_sender t with
      | None => (m, Some fee)
      | Some addr =>
          let '(d, sender) := open_account addr (db m) in
          if a_balance sender <? fee then (with_db d m, None)
          else (with_db (upsert_account (debit fee epoch) addr d) m, Some fee)
      end
  end.

(** ** The loop *)

Inductive TxError :=
| SignatureError (e : ExecutionError)
| BlockGasExceeded
| FeeUnpaid
| ExecError (e : ExecutionError).

Record TxOutcome := {
  to_hash : bytes;
  to_error : option TxError;
  to_gas : Z;
}.

Record BlockRun := {
  machine_of : machine;
  txs_executed : Z;
  txs_failed : Z;
  gas_used : Z;
  total_fees : Z;
  tx_outcomes : list TxOutcome;
}.

(** The balance and nonce put back after a failure; nothing else is. *)
Definition sender_snapshot (t : Transaction) (d : InMemoryStateDB) : option (bytes * Z * Z) :=
  addr ← tx_sender t; a ← accounts d !! addr; Some (addr, a_balance a, a_nonce a).

Definition restore (balance nonce : Z) (a : Account) : Account := with_funds balance nonce (a_last_touched_epoch a) a.

Definition revert (snapshot : option (bytes * Z * Z)) (d : InMemoryStateDB) : InMemoryStateDB :=
  match snapshot with
  | Some (addr, balance, nonce) => modify_account (restore balance nonce) addr d
  | None => d
  end.

Definition skipped (r : BlockRun) (m : machine) (t : Transaction) (e : TxError) : BlockRun :=
  {| machine_of := m; txs_executed := txs_executed r; txs_failed := txs_failed r + 1; gas_used := gas_used r;
     total_fees := total_fees r;
     tx_outcomes := tx_outcomes r ++ [{| to_hash := tx_hash t; to_error := Some e; to_gas := 0 |}] |}.

Definition run_tx (epoch : Z) (r : BlockRun) (t : Transaction) : BlockRun :=
  let m := machine_of r in
  match verify_tx_signature (ex m) t with
  | Err e => skipped r m t (SignatureError e)
  | Ok _ =>
      let gas := exec_gas t in
      if exceeds_block_gas (block_gas_limit (ex m)) (gas_used r) gas then skipped r m t BlockGasExceeded
      else
        match charge_fee t epoch m with
        | (m, None) => skipped r m t FeeUnpaid
        | (m, Some fee) =>
            let snapshot := sender_snapshot t (db m) in
            match dispatch t epoch m with
            | (m, Ok _) =>
                {| machine_of := m; txs_executed := txs_executed r + 1; txs_failed := txs_failed r;
                   gas_used := wrapping_add (gas_used r) gas; total_fees := wrapping_add (total_fees r) fee;
                   tx_outcomes := tx_outcomes r ++ [{| to_hash := tx_hash t; to_error := None; to_gas := gas |}] |}
            | (m, Err e) =>
                {| machine_of := with_db (revert snapshot (db m)) m; txs_executed := txs_executed r;
                   txs_failed := txs_failed r + 1; gas_used := gas_used r;
                   total_fees := wrapping_add (total_fees r) fee;
                   tx_outcomes := tx_outcomes r ++ [{| to_hash := tx_hash t; to_error := Some (ExecError e); to_gas := gas |}] |}
            end
        end
  end.

Definition run_start (m : machine) : BlockRun :=
  {| machine_of := m; txs_executed := 0; txs_failed := 0; gas_used := 0; total_fees := 0; tx_outcomes := [] |}.

Definition run_txs (epoch : Z) (txs : list Transaction) (m : machine) : BlockRun :=
  foldl (run_tx epoch) (run_start m) txs.

(** ** The rest of the block *)

Definition apply_governance_params (m : machine) : machine :=
  with_ex (with_limits (apply_fee_params (db m) <$> fee_controller (ex m))
             (apply_block_gas_limit (db m) (block_gas_limit (ex m))) (ex m)) m.

(** The evaporation sweep; [None] is a panic of the accumulator. *)
Definition sweep_objects (epoch : Z) (m : machine) : option (machine * EvaporationResult) :=
  match process_epoch_inner (evaporation_engine (ex m)) (db m) epoch (Some (mmr (ex m))) with
  | Some (d, Some r, evap) => Some (with_ex (with_mmr r (ex m)) (with_db d m), evap)
  | Some (d, None, evap) => Some (with_db d m, evap)
  | None => None
  end.

Definition tick_engines (epoch : Z) (m : machine) : machine :=
  let x := with_contracts (template_tick epoch (contract_engine (ex m))) (ex m) in
  with_ex (with_scripts (ScriptEngine.tick epoch (script_engine x)).1 x) m.

(** [serde_json::from_str(args).unwrap_or(Null)]; the outcome is ignored. *)
Definition fire_watchers (epoch : Z) (m : machine) : machine :=
  let '(w, callbacks) := process_watchers (db m) epoch (decay_watchers (ex m)) in
  foldl (fun m '(id, method, args) =>
           let args := if json_valid args then args else "null"%string in
           with_ex (with_contracts (template_call id method args ZERO_ADDRESS epoch (contract_engine (ex m))).1 (ex m)) m)
    (with_ex (with_watchers w (ex m)) m) callbacks.

(** A matured transaction is run as it is. *)
Definition run_matured (epoch : Z) (m : machine) (inner : bytes) : machine * outcome :=
  match tx_of_json inner with
  | None => (m, Err (ContractError InnerUndecodable))
  | Some (Transfer t) => on_db (execute_transfer t epoch) m
  | Some (CreateObject t) => on_db (execute_create_object t epoch) m
  | Some (CallContract t) => execute_call_contract t m
  | Some (CallScript t) => execute_call_script t m
  | Some _ => (m, Err (ContractError InnerNotAllowed))
  end.

Definition refund_deposit (epoch : Z) (m : machine) (r : bytes * Z) : machine :=
  with_db (modify_account (credit r.2 epoch) r.1 (db m)) m.

(** The matured transactions with their counts. *)
Definition count_matured (epoch : Z) (acc : machine * Z * Z) (tx : bytes * bytes * Z) : machine * Z * Z :=
  let '(m, executed, failed) := acc in
  match run_matured epoch m tx.1.2 with
  | (m, Ok _) => (m, executed + 1, failed)
  | (m, Err _) => (m, executed, failed + 1)
  end.

Definition process_deferred (epoch : Z) (m : machine) : machine * Z * Z :=
  let '(q, r) := process_epoch (db m) (template_phase (contract_engine (ex m))) epoch (deferred_queue (ex m)) in
  let '(m, executed, failed) := foldl (count_matured epoch) (with_ex (with_queue q (ex m)) m, 0, 0) (matured_txs r) in
  (foldl (refund_deposit epoch) m (refunds r), executed, failed).

(** A block up to the refunds of expired deferred transactions, with the
    outcome of the sweep and the state right after it. *)
Definition execute_block_front (epoch : Z) (txs : list Transaction) (m : machine)
  : option (BlockRun * EvaporationResult * InMemoryStateDB) :=
  let m := apply_governance_params (mkMachine (ex m) (db m) []) in
  let m := with_db (finalize_expired_proposals epoch (db m)) m in
  let r := run_txs epoch txs m in
  '(m, evap) ← sweep_objects epoch (machine_of r);
  let swept := db m in
  let '(m, executed, failed) := process_deferred epoch (fire_watchers epoch (tick_engines epoch m)) in
  Some ({| machine_of := m; txs_executed := txs_executed r + executed; txs_failed := txs_failed r + failed;
           gas_used := gas_used r; total_fees := total_fees r; tx_outcomes := tx_outcomes r |}, evap, swept).
End executor.
