(* ===== verification/Ledger.v ===== *)
(** * The ledger

    What the executor does to the money: the tokens in accounts, stakes and
    delegations, and the nonces of accounts, under the transactions of
    BlockExecutor.v. *)

From stdpp Require Import base gmap list strings sorting.
From Stdlib Require Import ZArith Lia.
From S2P Require Import Prelude Energy DecayCurves Trie Mmr Validators Mempool Tendermint ScriptValue ScriptVM ScriptCompiler ScriptEngine Transactions Types StateDB Lifecycle Fees Temporal Executor Governance BlockExecutor.

Open Scope Z_scope.

(** ** Sums over maps *)

Section total.
Context {K A : Type} `{Countable K} (f : A -> Z).

Definition total (m : gmap K A) : Z := map_fold (fun _ x acc => f x + acc) 0 m.

Definition at_key (m : gmap K A) (k : K) : Z := from_option f 0 (m !! k).

Lemma total_insert_new m k x : m !! k = None -> total (<[ k := x ]> m) = f x + total m.
Proof. intros Hk. unfold total. rewrite map_fold_insert_L; [done|intros; lia|done]. Qed.

Lemma total_delete m k : total (base.delete k m) = total m - at_key m k.
Proof.
  unfold at_key. destruct (m !! k) as [x|] eqn:E; cbn.
  - rewrite <- (insert_delete_id m k x E) at 2. rewrite total_insert_new by apply lookup_delete_eq. lia.
  - rewrite delete_id by done. lia.
Qed.

Lemma total_insert m k x : total (<[ k := x ]> m) = total m - at_key m k + f x.
Proof.
  rewrite <- insert_delete_eq, total_insert_new by apply lookup_delete_eq. rewrite total_delete. lia.
Qed.

Lemma total_empty : total ∅ = 0.
Proof. apply map_fold_empty. Qed.

(** Absent entries count for nothing. *)
Lemma total_ext m m' : (forall k, at_key m k = at_key m' k) -> total m = total m'.
Proof.
  revert m'. induction m as [|k x m Hk IH] using map_ind; intros m' Hm.
  - rewrite total_empty. assert (Hz : forall k, at_key m' k = 0).
    { intros k. rewrite <- Hm. unfold at_key. by rewrite lookup_empty. }
    clear Hm. induction m' as [|k x m' Hk IH] using map_ind; [by rewrite total_empty|].
    rewrite total_insert_new, <- IH by
      (done || (intros j; destruct (decide (j = k)) as [->|Hj]; [unfold at_key; by rewrite Hk|
        rewrite <- (Hz j); unfold at_key; by rewrite lookup_insert_ne])).
    specialize (Hz k). unfold at_key in Hz. rewrite lookup_insert_eq in Hz. cbn in Hz. lia.
  - rewrite total_insert_new by done. rewrite (IH (base.delete k m')).
    + rewrite total_delete, <- Hm. unfold at_key. rewrite lookup_insert_eq. cbn. lia.
    + intros j. destruct (decide (j = k)) as [->|Hj]; unfold at_key.
      * by rewrite Hk, lookup_delete_eq.
      * rewrite lookup_delete_ne by done. specialize (Hm j). unfold at_key in Hm. by rewrite lookup_insert_ne in Hm.
Qed.

Lemma total_nonneg m : map_Forall (fun _ x => 0 <= f x) m -> 0 <= total m.
Proof.
  induction m as [|k x m Hk IH] using map_ind; [by rewrite total_empty|].
  rewrite map_Forall_insert by done. intros [Hx Hm]. rewrite total_insert_new by done. specialize (IH Hm). lia.
Qed.

Lemma total_le m k : map_Forall (fun _ x => 0 <= f x) m -> 0 <= at_key m k <= total m.
Proof.
  intros Hm. unfold at_key. destruct (m !! k) as [x|] eqn:E; cbn; [|split; [done|by apply total_nonneg]].
  split; [by eapply Hm|]. pose proof (total_delete m k) as Hd. unfold at_key in Hd. rewrite E in Hd. cbn in Hd.
  assert (0 <= total (base.delete k m)) by (by apply total_nonneg, map_Forall_delete). lia.
Qed.
End total.

(** ** The money *)

Definition locked_in (d : DelegationRecord) : Z := d_amount d + d_unbonding_amount d.

(** Tokens in accounts, in stakes (the slashed part too, until it is claimed)
    and in delegations. *)
Definition supply (db : InMemoryStateDB) : Z :=
  total a_balance (accounts db) + total s_staked_amount (stakes db) + total locked_in (delegations db).

Definition balance_of (db : InMemoryStateDB) (a : bytes) : Z := at_key a_balance (accounts db) a.
Definition nonce_of (db : InMemoryStateDB) (a : bytes) : Z := at_key a_nonce (accounts db) a.

Record account_ok (a : Account) : Prop := {
  ao_balance : is_u64 (a_balance a);
  ao_nonce : is_u64 (a_nonce a);
  ao_vesting : forall v e, a_vesting a = Some v -> 0 <= locked_at v e;
  ao_storage : 0 <= a_storage_bytes a;
}.

Definition stake_ok (id : Z) (s : StakeRecord) : Prop :=
  s_validator_id s = id /\ is_u64 (s_staked_amount s) /\ is_u64 (s_slashed_amount s).

Definition delegation_ok (k : bytes * Z) (d : DelegationRecord) : Prop :=
  (d_delegator d, d_validator_id d) = k /\ is_u64 (d_amount d) /\ is_u64 (d_unbonding_amount d).

Record books_ok (db : InMemoryStateDB) : Prop := {
  bo_accounts : map_Forall (fun _ => account_ok) (accounts db);
  bo_stakes : map_Forall stake_ok (stakes db);
  bo_delegations : map_Forall delegation_ok (delegations db);
  bo_supply : supply db <= U64_MAX;
}.

Lemma new_account_ok a : account_ok (new_account a).
Proof. split; cbn; [u64_lia|u64_lia|done|done]. Qed.

(** The account at an address, or the one that would be made for it. *)
Definition found (db : InMemoryStateDB) (a : bytes) : Account := default (new_account a) (accounts db !! a).

Lemma found_ok db a : books_ok db -> account_ok (found db a).
Proof. intros Hb. unfold found. destruct (accounts db !! a) eqn:E; [by apply (bo_accounts _ Hb a)|apply new_account_ok]. Qed.

Lemma balance_found db a : balance_of db a = a_balance (found db a).
Proof. unfold balance_of, at_key, found. by destruct (accounts db !! a). Qed.

Lemma nonce_found db a : nonce_of db a = a_nonce (found db a).
Proof. unfold nonce_of, at_key, found. by destruct (accounts db !! a). Qed.

(** The three parts of the supply. *)
Lemma parts_nonneg db : books_ok db ->
  0 <= total a_balance (accounts db) /\ 0 <= total s_staked_amount (stakes db) /\ 0 <= total locked_in (delegations db).
Proof.
  intros [Ha Hs Hd _]. split_and!; apply total_nonneg.
  - intros k x E. apply Ha in E. destruct E. u64_lia.
  - intros k x E. apply Hs in E. destruct E as (_ & ? & _). u64_lia.
  - intros k x E. apply Hd in E. destruct E as (_ & ? & ?). unfold locked_in. u64_lia.
Qed.

Lemma balance_le_accounts db a : books_ok db -> 0 <= balance_of db a <= total a_balance (accounts db).
Proof. intros Hb. apply total_le. intros k x E. apply (bo_accounts _ Hb) in E. destruct E. u64_lia. Qed.

Lemma stake_le db id s : books_ok db -> stakes db !! id = Some s -> 0 <= s_staked_amount s <= total s_staked_amount (stakes db).
Proof.
  intros Hb E. pose proof (total_le s_staked_amount (stakes db) id) as Ht. unfold at_key in Ht. rewrite E in Ht. apply Ht.
  intros k x Ek. apply (bo_stakes _ Hb) in Ek. destruct Ek as (_ & ? & _). u64_lia.
Qed.

Lemma delegation_le db k d : books_ok db -> delegations db !! k = Some d -> 0 <= locked_in d <= total locked_in (delegations db).
Proof.
  intros Hb E. pose proof (total_le locked_in (delegations db) k) as Ht. unfold at_key in Ht. rewrite E in Ht. apply Ht.
  intros j x Ek. apply (bo_delegations _ Hb) in Ek. destruct Ek as (_ & ? & ?). unfold locked_in. u64_lia.
Qed.

(** ** Steps of the ledger *)

(** Books in order, and the supply moved by [delta]. *)
Definition ledger (delta : Z) (db db' : InMemoryStateDB) : Prop := books_ok db' /\ supply db' = supply db + delta.

(** No balance, stake or delegation changed, and no account went away. *)
Record idle (db db' : InMemoryStateDB) : Prop := {
  id_kept : forall a, is_Some (accounts db !! a) -> is_Some (accounts db' !! a);
  id_balances : forall a, balance_of db' a = balance_of db a;
  id_stakes : stakes db' = stakes db;
  id_delegations : delegations db' = delegations db;
}.

#[export] Instance idle_preorder : PreOrder idle.
Proof.
  split; [done|]. intros ? ? ? [H0 H1 H2 H3] [H0' H1' H2' H3'].
  split; [auto|intros a; by rewrite H1', H1|congruence|congruence].
Qed.

Lemma idle_supply db db' : idle db db' -> supply db' = supply db.
Proof.
  intros [_ Hb Hs Hd]. unfold supply. rewrite Hs, Hd. f_equal. f_equal. apply total_ext. exact Hb.
Qed.

Lemma ledger_refl db : books_ok db -> ledger 0 db db.
Proof. intros. split; [done|lia]. Qed.

Lemma ledger_then d1 d2 db db1 db2 :
  ledger d1 db db1 -> (books_ok db1 -> supply db1 = supply db + d1 -> ledger d2 db1 db2) -> ledger (d1 + d2) db db2.
Proof. intros [H1 E1] H. destruct (H H1 E1) as [H2 E2]. split; [done|lia]. Qed.

Lemma ledger_seq delta d1 d2 db db1 db2 :
  d1 + d2 = delta -> ledger d1 db db1 -> (books_ok db1 -> supply db1 = supply db + d1 -> ledger d2 db1 db2) ->
  ledger delta db db2.
Proof. intros <-. apply ledger_then. Qed.

Section steps.
Context `{Blake3, Pallas, HashOrder}.

Lemma open_account_eq a db : open_account a db = (get_or_create_account db a, found db a).
Proof. unfold open_account, found. f_equal. by rewrite accounts_opened, lookup_insert_eq. Qed.

Lemma opened_found a db : found (get_or_create_account db a) a = found db a.
Proof. unfold found. by rewrite accounts_opened, lookup_insert_eq. Qed.

Lemma upsert_found f a db : found (upsert_account f a db) a = f (found db a).
Proof. unfold found. by rewrite accounts_upsert, lookup_insert_eq. Qed.

Lemma upsert_found_ne f a b db : a <> b -> found (upsert_account f a db) b = found db b.
Proof. intros. unfold found. by rewrite accounts_upsert, lookup_insert_ne. Qed.

Lemma upsert_ledger f a db delta :
  books_ok db -> account_ok (f (found db a)) -> a_balance (f (found db a)) = a_balance (found db a) + delta ->
  supply db + delta <= U64_MAX -> ledger delta db (upsert_account f a db).
Proof.
  intros Hb Hf Hd Hle.
  assert (Hs : supply (upsert_account f a db) = supply db + delta).
  { unfold supply. destruct (upsert_books f a db) as [-> -> _ _]. rewrite accounts_upsert, total_insert.
    fold (balance_of db a). rewrite balance_found. fold (found db a). lia. }
  split; [|done]. destruct (upsert_books f a db) as [Es Ed _ _]. split; rewrite ?Es, ?Ed; [|apply Hb|apply Hb|lia].
  rewrite accounts_upsert. apply map_Forall_insert_2; [done|apply Hb].
Qed.

Lemma upsert_kept f a b db : is_Some (accounts db !! b) -> is_Some (accounts (upsert_account f a db) !! b).
Proof. rewrite accounts_upsert, lookup_insert_is_Some'. by right. Qed.

Lemma opened_kept a b db : is_Some (accounts db !! b) -> is_Some (accounts (get_or_create_account db a) !! b).
Proof. rewrite accounts_opened, lookup_insert_is_Some'. by right. Qed.

Lemma upsert_idle f a db : a_balance (f (found db a)) = a_balance (found db a) -> idle db (upsert_account f a db).
Proof.
  intros Hf. destruct (upsert_books f a db) as [Es Ed _ _]. split; [intros b; apply upsert_kept| |done|done]. intros b.
  rewrite !balance_found. destruct (decide (a = b)) as [<-|Hn]; [by rewrite upsert_found|by rewrite upsert_found_ne].
Qed.

Lemma opened_idle a db : idle db (get_or_create_account db a).
Proof.
  destruct (opened_books a db) as [Es Ed _ _]. split; [intros b; apply opened_kept| |done|done]. intros b. rewrite !balance_found. unfold found. rewrite accounts_opened.
  destruct (decide (a = b)) as [<-|Hn]; [by rewrite lookup_insert_eq|by rewrite lookup_insert_ne].
Qed.

Lemma opened_ledger a db : books_ok db -> ledger 0 db (get_or_create_account db a).
Proof.
  intros Hb. pose proof (idle_supply _ _ (opened_idle a db)) as Hs. split; [|lia].
  destruct (opened_books a db) as [Es Ed _ _]. split; rewrite ?Es, ?Ed; [|apply Hb|apply Hb|destruct Hb; lia].
  rewrite accounts_opened. apply map_Forall_insert_2; [by apply (found_ok db)|apply Hb].
Qed.

Lemma debit_ledger amount e a db :
  books_ok db -> 0 <= amount <= a_balance (found db a) -> ledger (- amount) db (upsert_account (debit amount e) a db).
Proof.
  intros Hb Ha. destruct (found_ok db a Hb) as [Hbal Hn Hv Hsb]. apply upsert_ledger; [done| |cbn; lia|destruct Hb; lia].
  split; cbn; [u64_lia|done|done|done].
Qed.

Lemma credit_ledger amount e a db :
  books_ok db -> 0 <= amount -> supply db + amount <= U64_MAX -> ledger amount db (upsert_account (credit amount e) a db).
Proof.
  intros Hb Ha Hs. destruct (found_ok db a Hb) as [Hbal Hn Hv Hsb].
  pose proof (balance_le_accounts db a Hb) as Hle. rewrite balance_found in Hle. pose proof (parts_nonneg db Hb).
  unfold supply in Hs. apply upsert_ledger; [done| | |done]; cbn; rewrite ?saturating_add_exact by lia; [|done].
  split; cbn; rewrite ?saturating_add_exact by lia; [u64_lia|done|done|done].
Qed.

Lemma pay_out_ledger amount e a db :
  books_ok db -> 0 <= amount -> supply db + amount <= U64_MAX -> ledger amount db (upsert_account (pay_out amount e) a db).
Proof.
  intros Hb Ha Hs. destruct (found_ok db a Hb) as [Hbal Hn Hv Hsb].
  pose proof (balance_le_accounts db a Hb) as Hle. rewrite balance_found in Hle. pose proof (parts_nonneg db Hb).
  unfold supply in Hs. assert (E : wrapping_add (a_balance (found db a)) amount = a_balance (found db a) + amount).
  { unfold wrapping_add. apply as_u64_small. u64_lia. }
  apply upsert_ledger; [done| |cbn; lia|done]. split; cbn; [rewrite E; u64_lia|apply as_u64_range|done|done].
Qed.

Lemma anchor_ledger n e a db :
  books_ok db -> 0 <= n -> MIN_STORAGE_DEPOSIT <= a_balance (found db a) ->
  ledger (- MIN_STORAGE_DEPOSIT) db (upsert_account (anchor_storage n e) a db).
Proof.
  intros Hb Hn0 Ha. destruct (found_ok db a Hb) as [Hbal Hn Hv Hsb]. unfold MIN_STORAGE_DEPOSIT in *.
  apply upsert_ledger; [done| |cbn; unfold MIN_STORAGE_DEPOSIT; lia|destruct Hb; lia].
  split; cbn; [unfold MIN_STORAGE_DEPOSIT; u64_lia|done|done|unfold saturating_add, U64_MAX; lia].
Qed.

(** An update that leaves the balance alone. *)
Lemma quiet_ledger f a db :
  books_ok db -> a_balance (f (found db a)) = a_balance (found db a) -> is_u64 (a_nonce (f (found db a))) ->
  a_vesting (f (found db a)) = a_vesting (found db a) -> a_storage_bytes (f (found db a)) = a_storage_bytes (found db a) ->
  ledger 0 db (upsert_account f a db).
Proof.
  intros Hb Hf Hn Hv Hsb. destruct (found_ok db a Hb) as [Hbal _ Hv' Hsb']. apply upsert_ledger; [done| |lia|destruct Hb; lia].
  split; [by rewrite Hf|done|by rewrite Hv|by rewrite Hsb].
Qed.

Lemma bump_ledger e a db : books_ok db -> ledger 0 db (upsert_account (bump e) a db).
Proof. intros Hb. apply quiet_ledger; [done|done|apply as_u64_range|done|done]. Qed.

Lemma bump_saturating_ledger e a db : books_ok db -> ledger 0 db (upsert_account (bump_saturating e) a db).
Proof.
  intros Hb. apply quiet_ledger; [done|done| |done|done]. destruct (found_ok db a Hb). cbn. u64_lia.
Qed.

Lemma touch_ledger e a db : books_ok db -> ledger 0 db (upsert_account (touch e) a db).
Proof. intros Hb. apply quiet_ledger; [done|done| |done|done]. destruct (found_ok db a Hb). done. Qed.

(** A modification is an update when the account exists, and nothing otherwise. *)
Lemma modify_upsert f a db : is_Some (accounts db !! a) -> modify_account f a db = upsert_account f a db.
Proof.
  intros [x E]. unfold modify_account, get_account_mut, upsert_account, get_or_create_account.
  rewrite decide_True, E by (rewrite E; by eexists). unfold set_accounts. cbn. by rewrite (insert_alter_Some f _ _ _ E).
Qed.
End steps.

(** ** Operations on the state *)

(** A success moves the supply by [delta]; a failure moves nothing. *)
Definition settles (delta : Z) (db : InMemoryStateDB) (r : InMemoryStateDB * result unit ExecutionError) : Prop :=
  match r with
  | (db', Ok _) => ledger delta db db'
  | (db', Err _) => ledger 0 db db' /\ idle db db'
  end.

Section operations.
Context `{Blake3, Pallas, HashOrder}.

Lemma fails_here delta db e : books_ok db -> settles delta db (db, Err e).
Proof. intros Hb. split; [by apply ledger_refl|done]. Qed.

Lemma fails_opened delta a db e : books_ok db -> settles delta db (get_or_create_account db a, Err e).
Proof. intros Hb. split; [by apply opened_ledger|apply opened_idle]. Qed.

Lemma opened_bumped a e db : books_ok db -> ledger 0 db (upsert_account (bump e) a (get_or_create_account db a)).
Proof. intros Hb. apply (ledger_then 0 0 _ _ _ (opened_ledger a db Hb)). intros. by apply bump_ledger. Qed.

Lemma fails_bumped delta a ep db e :
  books_ok db -> settles delta db (upsert_account (bump ep) a (get_or_create_account db a), Err e).
Proof.
  intros Hb. split; [by apply opened_bumped|]. etrans; [apply (opened_idle a)|]. by apply upsert_idle.
Qed.

(** The spendable part of an account is part of its balance. *)
Lemma spendable_le db a e : books_ok db -> transferable_balance (found db a) e <= a_balance (found db a).
Proof. intros Hb. destruct (found_ok db a Hb) as [Hbal _ Hv _]. apply transferable_le_balance; [u64_lia|auto]. Qed.

(** A payment from one account to another. *)
Lemma pay_ledger amount e a b db :
  books_ok db -> 0 <= amount <= a_balance (found db a) ->
  ledger 0 db (upsert_account (credit amount e) b (upsert_account (debit amount e) a db)).
Proof.
  intros Hb Ha. replace 0 with (- amount + amount) by lia. eapply ledger_then; [by apply debit_ledger|].
  intros Hk1 E1. apply credit_ledger; [done|lia|]. destruct Hb. lia.
Qed.

Lemma transfer_settles tx e db : books_ok db -> 0 <= tr_amount tx -> settles 0 db (execute_transfer tx e db).
Proof.
  intros Hb Ha. unfold execute_transfer. case_bool_decide; [by apply fails_here|].
  destruct (tr_amount tx =? 0); [by apply fails_here|]. rewrite open_account_eq.
  set (mint := bool_decide (tr_from tx = ZERO_ADDRESS)). destruct (_ && _); [by apply fails_opened|].
  destruct (Z.ltb_spec (if mint then a_balance (found db (tr_from tx)) else transferable_balance (found db (tr_from tx)) e) (tr_amount tx));
    [by apply fails_opened|]. cbn [settles].
  pose proof (spendable_le db (tr_from tx) e Hb).
  assert (Hle : 0 <= tr_amount tx <= a_balance (found (get_or_create_account db (tr_from tx)) (tr_from tx)))
    by (rewrite opened_found; destruct mint; lia).
  destruct (opened_ledger (tr_from tx) db Hb) as [Hk1 E1]. set (db1 := get_or_create_account db (tr_from tx)) in *.
  destruct mint.
  - apply (ledger_then 0 0 _ db1); [by split|]. intros. by apply pay_ledger.
  - apply (ledger_then 0 0 _ db1); [by split|]. intros _ _.
    replace 0 with (- tr_amount tx + (0 + tr_amount tx)) by lia.
    eapply ledger_then; [by apply debit_ledger|]. intros Hk2 E2. eapply ledger_then; [by apply bump_ledger|].
    intros Hk3 E3. apply credit_ledger; [done|lia|]. destruct Hb. lia.
Qed.

Lemma refund_settles tx e db : books_ok db -> 0 <= re_amount tx -> settles 0 db (execute_refund tx e db).
Proof.
  intros Hb Ha. unfold execute_refund. case_bool_decide; [by apply fails_here|].
  destruct (re_amount tx =? 0); [by apply fails_here|]. rewrite open_account_eq.
  destruct (Z.ltb_spec (a_balance (found db (re_attacker tx))) (re_amount tx)); [by apply fails_opened|]. cbn [settles].
  eapply (ledger_then 0 0); [by apply opened_ledger|]. intros. apply pay_ledger; [done|]. rewrite opened_found. lia.
Qed.

Lemma inner_transfer_settles tx s e db : books_ok db -> 0 <= tr_amount tx -> settles 0 db (execute_inner_transfer tx s e db).
Proof.
  intros Hb Ha. unfold execute_inner_transfer. do 2 (case_bool_decide; [by apply fails_here|]).
  destruct (tr_amount tx =? 0); [by apply fails_here|]. rewrite open_account_eq.
  destruct (Z.ltb_spec (transferable_balance (found db (tr_from tx)) e) (tr_amount tx)); [by apply fails_opened|]. cbn [settles].
  pose proof (spendable_le db (tr_from tx) e Hb).
  eapply (ledger_then 0 0); [by apply opened_ledger|]. intros. apply pay_ledger; [done|]. rewrite opened_found. lia.
Qed.

(** Lengths are not negative. *)
Lemma anchored_nonneg a b : 0 <= a -> 0 <= b -> 0 <= saturating_add a b.
Proof. unfold saturating_add, U64_MAX. lia. Qed.

Lemma size_nonneg b : 0 <= Mempool.size b.
Proof. unfold Mempool.size. lia. Qed.

Lemma deposit_settles a n e db : books_ok db -> 0 <= n -> settles (- MIN_STORAGE_DEPOSIT) db (charge_deposit a n e db).
Proof.
  intros Hb Hn. unfold charge_deposit. rewrite open_account_eq.
  destruct (Z.ltb_spec (transferable_balance (found db a) e) MIN_STORAGE_DEPOSIT); [by apply fails_opened|]. cbn [settles].
  pose proof (spendable_le db a e Hb). change (- MIN_STORAGE_DEPOSIT) with (0 + - MIN_STORAGE_DEPOSIT).
  eapply ledger_then; [by apply opened_ledger|]. intros. apply anchor_ledger; [done|done|]. rewrite opened_found. lia.
Qed.

(** Objects are not money. *)
Lemma object_ledger o db : books_ok db -> ledger 0 db (put_object o db).
Proof. intros [Ha Hs Hd Hle]. split; [by split|]. unfold supply. cbn. lia. Qed.

Lemma create_object_settles tx e db : books_ok db -> settles (- MIN_STORAGE_DEPOSIT) db (execute_create_object tx e db).
Proof.
  intros Hb. unfold execute_create_object. destruct (get_object db _); [by apply fails_here|].
  pose proof (deposit_settles (co_creator tx) (saturating_add BASE_OBJECT_BYTES (Mempool.size (co_data tx))) e db Hb (anchored_nonneg BASE_OBJECT_BYTES (Mempool.size (co_data tx)) ltac:(done) (size_nonneg _))) as Hs.
  destruct (charge_deposit _ _ _ _) as [db1 [u|err]]; [|done]. cbn [settles] in *.
  replace (- MIN_STORAGE_DEPOSIT) with (- MIN_STORAGE_DEPOSIT + 0) by lia.
  eapply ledger_then; [exact Hs|]. intros. by apply object_ledger.
Qed.

(** The same accounts, stakes and delegations. *)
Lemma view_ledger db db' :
  books_ok db -> accounts db' = accounts db -> stakes db' = stakes db -> delegations db' = delegations db ->
  ledger 0 db db' /\ idle db db'.
Proof.
  intros [Ha Hs Hd Hle] Ea Es Ed. assert (E : supply db' = supply db) by (unfold supply; by rewrite Ea, Es, Ed).
  split; [split; [split; rewrite ?Ea, ?Es, ?Ed; try done; lia|lia]|]. split; [intros a; by rewrite Ea| |done|done].
  intros a. unfold balance_of. by rewrite Ea.
Qed.
End operations.

Section staking.
Context `{Blake3, Pallas, HashOrder}.

(** The same books another way. *)
Lemma ledger_view delta db db1 db2 :
  ledger delta db db1 -> accounts db2 = accounts db1 -> stakes db2 = stakes db1 -> delegations db2 = delegations db1 ->
  ledger delta db db2.
Proof. intros [Hb E] ? ? ?. destruct (view_ledger db1 db2) as [[Hb2 E2] _]; [done..|]. split; [done|lia]. Qed.

Lemma put_stake_ledger r db delta :
  books_ok db -> stake_ok (s_validator_id r) r ->
  s_staked_amount r = at_key s_staked_amount (stakes db) (s_validator_id r) + delta -> supply db + delta <= U64_MAX ->
  ledger delta db (put_stake r db).
Proof.
  intros Hb Hr Hd Hle. assert (E : supply (put_stake r db) = supply db + delta).
  { unfold supply. cbn. rewrite total_insert. lia. }
  split; [|done]. destruct Hb as [Ha Hs Hdl _]. split; [done| |done|lia]. by apply map_Forall_insert_2.
Qed.

Lemma remove_stake_ledger id db :
  books_ok db -> ledger (- at_key s_staked_amount (stakes db) id) db (remove_stake id db).1.
Proof.
  intros Hb. assert (E : supply (remove_stake id db).1 = supply db - at_key s_staked_amount (stakes db) id).
  { unfold supply. cbn. rewrite total_delete. lia. }
  assert (0 <= at_key s_staked_amount (stakes db) id).
  { unfold at_key. destruct (stakes db !! id) eqn:Es; cbn; [by eapply (stake_le db)|done]. }
  split; [|lia]. destruct Hb as [Ha Hs Hdl Hle]. split; [done| |done|lia]. by apply map_Forall_delete.
Qed.

Lemma put_delegation_ledger r db delta :
  books_ok db -> is_u64 (d_amount r) -> is_u64 (d_unbonding_amount r) ->
  locked_in r = at_key locked_in (delegations db) (d_delegator r, d_validator_id r) + delta -> supply db + delta <= U64_MAX ->
  ledger delta db (put_delegation r db).
Proof.
  intros Hb Hr1 Hr2 Hd Hle. assert (E : supply (put_delegation r db) = supply db + delta).
  { unfold supply. cbn. rewrite total_insert. lia. }
  split; [|done]. destruct Hb as [Ha Hs Hdl _]. split; [done|done| |lia]. by apply map_Forall_insert_2.
Qed.

Lemma remove_delegation_ledger a id db :
  books_ok db -> ledger (- at_key locked_in (delegations db) (a, id)) db (remove_delegation a id db).1.
Proof.
  intros Hb. assert (E : supply (remove_delegation a id db).1 = supply db - at_key locked_in (delegations db) (a, id)).
  { unfold supply. cbn. rewrite total_delete. lia. }
  assert (0 <= at_key locked_in (delegations db) (a, id)).
  { unfold at_key. destruct (delegations db !! (a, id)) eqn:Es; cbn; [by eapply (delegation_le db)|done]. }
  split; [|lia]. destruct Hb as [Ha Hs Hdl Hle]. split; [done|done| |lia]. by apply map_Forall_delete.
Qed.

(** Money taken out of an account, its nonce advanced. *)
Lemma locked_away amount e a db :
  books_ok db -> 0 <= amount -> (transferable_balance (found db a) e <? amount) = false ->
  ledger (- amount) db (upsert_account (bump e) a (upsert_account (debit amount e) a (get_or_create_account db a))) /\
  amount <= total a_balance (accounts db).
Proof.
  intros Hb Ha Hlt. zbool. pose proof (spendable_le db a e Hb). pose proof (balance_le_accounts db a Hb) as Hle.
  rewrite balance_found in Hle. split; [|lia].
  replace (- amount) with (0 + (- amount + 0)) by lia. eapply ledger_then; [by apply opened_ledger|]. intros Hb1 _.
  eapply ledger_then; [apply (debit_ledger amount e a); [done|rewrite opened_found; lia]|]. intros. by apply bump_ledger.
Qed.

Lemma stake_settles tx e db : books_ok db -> 0 <= vs_stake_amount tx -> settles 0 db (execute_validator_stake tx e db).
Proof.
  intros Hb Ha. unfold execute_validator_stake. destruct (vs_stake_amount tx =? 0); [by apply fails_here|].
  rewrite open_account_eq. destruct (negb _); [by apply fails_opened|].
  destruct (_ <? _) eqn:Hlt; [by apply fails_opened|]. cbn [settles]. cbv zeta.
  destruct (locked_away _ _ _ _ Hb Ha Hlt) as [Hl Hle].
  eapply (ledger_seq _ _ (vs_stake_amount tx)); [|exact Hl|]; [lia|]. intros Hb1 E1.
  set (db1 := upsert_account _ _ (upsert_account _ _ _)) in *.
  assert (Es : stakes db1 = stakes db).
  { unfold db1. rewrite !(sb_stakes _ _ (upsert_books _ _ _)). apply opened_books. }
  set (old := from_option s_staked_amount 0 (stakes db1 !! vs_validator_id tx)).
  assert (Hold : 0 <= old <= total s_staked_amount (stakes db)).
  { unfold old. rewrite Es. destruct (stakes db !! _) eqn:Eo; cbn; [by eapply stake_le|]. split; [done|by apply parts_nonneg]. }
  pose proof (parts_nonneg db Hb). destruct Hb as [_ _ _ Hs]. unfold supply in Hs.
  assert (Ew : wrapping_add old (vs_stake_amount tx) = old + vs_stake_amount tx).
  { unfold wrapping_add. apply as_u64_small. u64_lia. }
  rewrite Ew. apply put_stake_ledger; [done|split; [done|split; cbn; u64_lia]|done|]. unfold supply in *. lia.
Qed.

Lemma exit_settles tx e db : books_ok db -> settles 0 db (execute_validator_exit tx e db).
Proof.
  intros Hb. unfold execute_validator_exit. rewrite open_account_eq. destruct (negb _); [by apply fails_opened|].
  destruct (opened_bumped (ve_validator_address tx) e db Hb) as [Hb1 E1].
  destruct (stakes _ !! _) as [r|] eqn:Er; [|by apply fails_bumped].
  do 2 (case_bool_decide; [by apply fails_bumped|]). cbn [settles].
  change 0 with (0 + 0). eapply ledger_then; [by split|]. intros _ _.
  destruct (bo_stakes _ Hb1 _ _ Er) as (Eid & Hst & Hsl).
  apply put_stake_ledger; [done|by split| |destruct Hb1; lia].
  unfold at_key, set_unbonding. cbn [s_validator_id s_staked_amount]. rewrite Eid, Er. cbn. lia.
Qed.

Lemma claim_stake_settles tx e db :
  books_ok db ->
  settles (- from_option (fun r => Z.min (s_staked_amount r) (s_slashed_amount r)) 0 (stakes db !! vc_validator_id tx)) db
    (execute_validator_claim_stake tx e db).
Proof.
  intros Hb. unfold execute_validator_claim_stake. destruct (stakes db !! _) as [r|] eqn:Er; [|by apply fails_here].
  case_bool_decide; [by apply fails_here|]. destruct (s_unbonding_epoch r); [|by apply fails_here].
  destruct (e <? _); [by apply fails_here|]. rewrite open_account_eq. destruct (negb _); [by apply fails_opened|].
  cbn [settles from_option]. destruct (bo_stakes _ Hb _ _ Er) as (Eid & Hst & Hsl).
  set (a := vc_validator_address tx). set (claimable := saturating_sub (s_staked_amount r) (s_slashed_amount r)).
  eapply (ledger_view _ _ (upsert_account (pay_out claimable e) a (remove_stake (vc_validator_id tx) (get_or_create_account db a)).1)).
  - replace (- Z.min (s_staked_amount r) (s_slashed_amount r)) with (0 + (- s_staked_amount r + claimable)) by (unfold claimable; u64_lia).
    eapply ledger_then; [by apply opened_ledger|]. intros Hb1 E1.
    pose proof (remove_stake_ledger (vc_validator_id tx) _ Hb1) as Hrm.
    assert (Es : stakes (get_or_create_account db a) = stakes db) by apply opened_books.
    unfold at_key in Hrm. rewrite Es, Er in Hrm. cbn [from_option] in Hrm.
    eapply ledger_then; [exact Hrm|]. intros Hb2 E2. apply pay_out_ledger; [done|unfold claimable; u64_lia|].
    destruct Hb. unfold claimable. u64_lia.
  - change (accounts (remove_stake ?i ?d).1) with (accounts d). by rewrite !accounts_upsert.
  - change (stakes (remove_stake ?i ?d).1) with (base.delete i (stakes d)). by rewrite !(sb_stakes _ _ (upsert_books _ _ _)).
  - change (delegations (remove_stake ?i ?d).1) with (delegations d). by rewrite !(sb_delegations _ _ (upsert_books _ _ _)).
Qed.
End staking.

Section delegating.
Context `{Blake3, Pallas, HashOrder}.

Lemma delegate_settles tx e db : books_ok db -> 0 <= dl_amount tx -> settles 0 db (execute_delegate tx e db).
Proof.
  intros Hb Ha. unfold execute_delegate. destruct (dl_amount tx =? 0); [by apply fails_here|].
  case_bool_decide; [by apply fails_here|]. rewrite open_account_eq. destruct (negb _); [by apply fails_opened|].
  destruct (_ <? _) eqn:Hlt; [by apply fails_opened|]. cbn [settles]. cbv zeta.
  destruct (locked_away _ _ _ _ Hb Ha Hlt) as [Hl Hle].
  eapply (ledger_seq _ _ (dl_amount tx)); [|exact Hl|]; [lia|]. intros Hb1 E1.
  set (db1 := upsert_account _ _ (upsert_account _ _ _)) in *.
  assert (Ed : delegations db1 = delegations db).
  { unfold db1. rewrite !(sb_delegations _ _ (upsert_books _ _ _)). apply opened_books. }
  pose proof (parts_nonneg db Hb). pose proof (bo_supply _ Hb) as Hs.
  assert (Hs' : supply db1 + dl_amount tx <= U64_MAX) by lia. unfold supply in Hs.
  unfold get_delegation. rewrite Ed. destruct (delegations db !! _) as [r|] eqn:Er.
  - destruct (bo_delegations _ Hb _ _ Er) as ([= Ek1 Ek2] & Hr1 & Hr2). destruct (delegation_le db _ _ Hb Er) as [Hl0 Hl1].
    assert (Hbig : is_u64 (d_amount r + dl_amount tx)) by (change (locked_in r) with (d_amount r + d_unbonding_amount r) in Hl1; u64_lia).
    rewrite saturating_add_exact by u64_lia. apply put_delegation_ledger; [done|exact Hbig|done| |done].
    unfold at_key, locked_in, set_delegation. cbn [d_amount d_unbonding_amount d_delegator d_validator_id].
    rewrite Ed, Ek1, Ek2, Er. cbn. lia.
  - apply put_delegation_ledger; [done|cbn; u64_lia|cbn; u64_lia| |done].
    unfold at_key, locked_in. cbn [d_amount d_unbonding_amount d_delegator d_validator_id]. rewrite Ed, Er. cbn. lia.
Qed.

Lemma undelegate_settles tx e db : books_ok db -> 0 <= ud_amount tx -> settles 0 db (execute_undelegate tx e db).
Proof.
  intros Hb Ha. unfold execute_undelegate. destruct (ud_amount tx =? 0); [by apply fails_here|].
  rewrite open_account_eq. destruct (negb _); [by apply fails_opened|]. cbv zeta.
  destruct (opened_bumped (ud_delegator tx) e db Hb) as [Hb1 E1].
  set (db1 := upsert_account _ _ _) in *. unfold get_delegation.
  destruct (delegations db1 !! _) as [r|] eqn:Er; [|by apply fails_bumped].
  destruct (Z.ltb_spec (d_amount r) (ud_amount tx)); [by apply fails_bumped|]. cbn [settles].
  eapply (ledger_seq _ 0 0); [lia|by split|]. intros _ _.
  destruct (bo_delegations _ Hb1 _ _ Er) as ([= Ek1 Ek2] & Hr1 & Hr2). destruct (delegation_le _ _ _ Hb1 Er) as [Hl0 Hl1].
  pose proof (parts_nonneg _ Hb1). pose proof (bo_supply _ Hb1) as Hs. unfold supply in Hs.
  change (locked_in r) with (d_amount r + d_unbonding_amount r) in Hl1.
  apply put_delegation_ledger; [done|cbn; u64_lia|cbn; u64_lia| |destruct Hb1; lia].
  unfold at_key, locked_in, set_delegation. cbn [d_amount d_unbonding_amount d_delegator d_validator_id].
  rewrite Ek1, Ek2, Er, saturating_add_exact, saturating_sub_exact by (cbn; lia). cbn. lia.
Qed.

(** The claim pays first and then clears the record; the books are the same
    the other way round. *)
Lemma claim_delegation_settles tx e db : books_ok db -> settles 0 db (execute_claim_delegation tx e db).
Proof.
  intros Hb. unfold execute_claim_delegation. rewrite open_account_eq. destruct (negb _); [by apply fails_opened|]. cbv zeta.
  destruct (opened_bumped (cd_delegator tx) e db Hb) as [Hb1 E1].
  assert (Hex : is_Some (accounts (upsert_account (bump e) (cd_delegator tx) (get_or_create_account db (cd_delegator tx))) !! cd_delegator tx)).
  { rewrite accounts_upsert, lookup_insert_eq. by eexists. }
  assert (Hfail : forall err, settles 0 db (upsert_account (bump e) (cd_delegator tx) (get_or_create_account db (cd_delegator tx)), Err err)).
  { intros. by apply fails_bumped. }
  set (db1 := upsert_account _ _ _) in *. unfold get_delegation.
  destruct (delegations db1 !! _) as [r|] eqn:Er; [|done]. destruct (_ =? 0); [done|].
  destruct (d_unbonding_epoch r); [|done]. destruct (e <? _); [done|].
  rewrite modify_upsert by done. set (pay := credit (d_unbonding_amount r) e).
  destruct (bo_delegations _ Hb1 _ _ Er) as ([= Ek1 Ek2] & Hr1 & Hr2).
  assert (Hlock : at_key locked_in (delegations db1) (cd_delegator tx, cd_validator_id tx) = d_amount r + d_unbonding_amount r).
  { unfold at_key. by rewrite Er. }
  destruct (Z.eqb_spec (d_amount r) 0) as [Hz|Hz]; cbn [settles]; eapply (ledger_seq _ 0 0); [lia|by split| |lia|by split|]; intros _ _.
  - eapply (ledger_view _ _ (upsert_account pay (cd_delegator tx) (remove_delegation (cd_delegator tx) (cd_validator_id tx) db1).1)).
    + eapply ledger_seq; [|by apply remove_delegation_ledger|]; rewrite Hlock.
      * instantiate (1 := d_unbonding_amount r). lia.
      * intros Hb2 E2. apply credit_ledger; [done|u64_lia|]. destruct Hb1. lia.
    + change (accounts (remove_delegation ?i ?j ?d).1) with (accounts d). by rewrite !accounts_upsert.
    + change (stakes (remove_delegation ?i ?j ?d).1) with (stakes d). by rewrite !(sb_stakes _ _ (upsert_books _ _ _)).
    + change (delegations (remove_delegation ?i ?j ?d).1) with (base.delete (i, j) (delegations d)).
      by rewrite !(sb_delegations _ _ (upsert_books _ _ _)).
  - set (r' := set_delegation (d_amount r) (d_delegated_at_epoch r) 0 None r).
    eapply (ledger_view _ _ (upsert_account pay (cd_delegator tx) (put_delegation r' db1))).
    + eapply ledger_seq; [|eapply (put_delegation_ledger r' db1 (- d_unbonding_amount r))|].
      * instantiate (1 := d_unbonding_amount r). lia.
      * done.
      * done.
      * cbn. u64_lia.
      * change (d_delegator r', d_validator_id r') with (d_delegator r, d_validator_id r). rewrite Ek1, Ek2, Hlock.
        change (locked_in r') with (d_amount r + 0). lia.
      * destruct Hb1. u64_lia.
      * intros Hb2 E2. apply credit_ledger; [done|u64_lia|]. destruct Hb1. lia.
    + change (accounts (put_delegation ?i ?d)) with (accounts d). by rewrite !accounts_upsert.
    + change (stakes (put_delegation ?i ?d)) with (stakes d). by rewrite !(sb_stakes _ _ (upsert_books _ _ _)).
    + change (delegations (put_delegation ?i ?d)) with (<[ (d_delegator i, d_validator_id i) := i ]> (delegations d)).
      by rewrite !(sb_delegations _ _ (upsert_books _ _ _)).
Qed.
End delegating.

Section rest.
Context `{Blake3, Pallas, HashOrder, F64Parse}.

Lemma same_books_settles delta db db' e : books_ok db -> accounts db' = accounts db -> same_books db db' -> settles delta db (db', Err e).
Proof. intros Hb Ea [Es Ed _ _]. by apply view_ledger. Qed.

Lemma modify_object_view f id db :
  accounts (modify_object f id db) = accounts db /\ same_books db (modify_object f id db).
Proof. unfold modify_object, get_object_mut. destruct (decide _), (objects db !! id); done. Qed.

Lemma refresh_view db id dep e :
  accounts (refresh db id dep e).1 = accounts db /\ same_books db (refresh db id dep e).1.
Proof.
  unfold refresh. destruct (dep =? 0); [done|]. destruct (db_objects db !! id) as [o|]; [|done].
  destruct (o_state o); apply modify_object_view.
Qed.

Lemma resurrect_view db id dep e :
  accounts (resurrect db id dep e).1 = accounts db /\ same_books db (resurrect db id dep e).1.
Proof.
  unfold resurrect. destruct (dep =? 0); [done|]. destruct (db_ghosts db !! id) as [g|]; [|done].
  by destruct (g_original_data g).
Qed.

(** Refreshing an object touches no account. *)
Lemma refresh_tx_view tx e db :
  accounts (execute_refresh_tx tx e db).1 = accounts db /\ same_books db (execute_refresh_tx tx e db).1.
Proof.
  unfold execute_refresh_tx. generalize (address_from_pubkey <$> rf_public_key tx). intros s.
  assert (Hv : accounts (execute_refresh db (rf_object_id tx) (rf_energy_deposit tx) s e).1 = accounts db /\
    same_books db (execute_refresh db (rf_object_id tx) (rf_energy_deposit tx) s e).1).
  { unfold execute_refresh.
    pose proof (refresh_view db (rf_object_id tx) (rf_energy_deposit tx) e) as Hr.
    pose proof (resurrect_view db (rf_object_id tx) (rf_energy_deposit tx) e) as Hu.
    destruct (db_objects db !! rf_object_id tx), s, (db_ghosts db !! rf_object_id tx); repeat case_decide;
      rewrite ?lift_refresh_fst; done. }
  by destruct (execute_refresh _ _ _ _ _) as [db' [u|err]].
Qed.

Lemma refresh_settles tx e db : books_ok db -> settles 0 db (execute_refresh_tx tx e db).
Proof.
  intros Hb. destruct (refresh_tx_view tx e db) as [Ea [Es Ed _ _]].
  destruct (execute_refresh_tx tx e db) as [db' [u|err]]; by apply view_ledger.
Qed.

Lemma multisig_settles tx e db : books_ok db -> settles 0 db (execute_multisig tx e db).
Proof.
  intros Hb. unfold execute_multisig. destruct (_ <? _); [by apply fails_here|].
  destruct (check_signers _ _ _); [|by apply fails_here]. rewrite open_account_eq.
  destruct (negb _); [by apply fails_opened|]. by apply opened_bumped.
Qed.

Lemma governance_settles tx e db : books_ok db -> settles 0 db (execute_governance tx e db).
Proof.
  intros Hb. unfold execute_governance. rewrite open_account_eq. destruct (negb _); [by apply fails_opened|]. cbv zeta.
  destruct (opened_bumped (gv_sender tx) e db Hb) as [Hb1 E1].
  assert (Hi : idle db (upsert_account (bump e) (gv_sender tx) (get_or_create_account db (gv_sender tx)))).
  { etrans; [apply (opened_idle (gv_sender tx))|]. by apply upsert_idle. }
  set (db1 := upsert_account _ _ _) in *.
  assert (Hput : forall p err, settles 0 db (put_proposal p db1, err)).
  { intros p err. destruct (view_ledger db1 (put_proposal p db1)) as [[Hb2 E2] Hi2]; [done..|].
    assert (Hl : ledger 0 db (put_proposal p db1)) by (split; [done|lia]).
    destruct err; [done|]. split; [done|by etrans]. }
  assert (Hfail : forall err, settles 0 db (db1, Err err)) by (intros err; split; [by split|done]).
  destruct (gv_action tx) as [title key value ve|pid vote].
  - unfold create_proposal. destruct (_ || _); [apply Hfail|apply Hput].
  - unfold cast_vote. destruct (proposals db1 !! pid); [|apply Hfail]. destruct (negb _); [apply Hfail|].
    destruct (_ <? _); [apply Hput|]. case_bool_decide; [apply Hfail|apply Hput].
Qed.
End rest.

(** ** One transaction *)

(** The amounts are 64-bit integers. *)
Definition amounts_ok (t : Transaction) : Prop :=
  match t with
  | Transfer tx => is_u64 (tr_amount tx)
  | Refund tx => is_u64 (re_amount tx)
  | ValidatorStake tx => is_u64 (vs_stake_amount tx)
  | Delegate tx => is_u64 (dl_amount tx)
  | Undelegate tx => is_u64 (ud_amount tx)
  | UserOp tx => is_u64 (uo_call_gas_limit tx)
  | _ => True
  end.

(** A transaction read from JSON has fields of its types. *)
Class JsonTyped `{Json} := tx_of_json_typed b t : tx_of_json b = Some t -> amounts_ok t.

(** What a successful transaction takes out of the supply: a storage deposit,
    the gas of a sponsored operation, the slashed part of a claimed stake. *)
Definition sunk (t : Transaction) (db : InMemoryStateDB) : Z :=
  match t with
  | CreateObject _ | DeployContract _ | DeployScript _ => MIN_STORAGE_DEPOSIT
  | UserOp tx => match uo_paymaster tx with Some _ => total_gas_cost tx | None => 0 end
  | ValidatorClaimStake tx =>
      from_option (fun r => Z.min (s_staked_amount r) (s_slashed_amount r)) 0 (stakes db !! vc_validator_id tx)
  | _ => 0
  end.

(** After a failure the books are in order and only the balance of a sender
    that existed may have changed. *)
Record failed (t : Transaction) (db db' : InMemoryStateDB) : Prop := {
  fa_books : books_ok db';
  fa_kept : forall a, is_Some (accounts db !! a) -> is_Some (accounts db' !! a);
  fa_stakes : stakes db' = stakes db;
  fa_delegations : delegations db' = delegations db;
  fa_others : forall a, tx_sender t <> Some a -> balance_of db' a = balance_of db a;
  fa_sender : forall a, accounts db !! a = None -> balance_of db' a = 0;
}.

Lemma idle_failed t db db' : books_ok db' -> idle db db' -> failed t db db'.
Proof.
  intros Hb [Hk Hbal Hs Hd]. split; [done..| |]; intros a Ha; rewrite Hbal; [done|].
  unfold balance_of, at_key. by rewrite Ha.
Qed.

Section transactions.
Context `{CurveJson, Blake3, Pallas, HybridVerifier, BlsKeys, HashOrder, Hex, StrDebug, F64Parse}.
Context `{!Json, !JsonTyped, !ScriptParser, !AppTemplates, !MlDsa}.
Context {C : Type} `{!ContractTemplates C}.

Implicit Types m : Machine C.

Definition concludes (t : Transaction) (m : Machine C) (r : Machine C * result unit ExecutionError) : Prop :=
  match r with
  | (m', Ok _) => ledger (- sunk t (db m)) (db m) (db m')
  | (m', Err _) => failed t (db m) (db m')
  end.

Lemma on_db_concludes f delta t m :
  settles delta (db m) (f (db m)) -> delta = - sunk t (db m) -> concludes t m (on_db f m).
Proof.
  intros Hs ->. unfold on_db. destruct (f (db m)) as [d [u|e]]; cbn in *; [done|]. destruct Hs as [[Hb _] Hi].
  by apply idle_failed.
Qed.

Lemma stays t m m' e : books_ok (db m) -> db m' = db m -> concludes t m (m', Err e).
Proof. intros Hb E. cbn. rewrite E. by apply idle_failed. Qed.

Lemma stays_ok t m m' : books_ok (db m) -> sunk t (db m) = 0 -> db m' = db m -> concludes t m (m', Ok tt).
Proof. intros Hb Hz E. cbn. rewrite E, Hz. by apply ledger_refl. Qed.

(** A deployment: the deposit is charged, then the engine decides. *)
Lemma deployed t a n e m m' o :
  books_ok (db m) -> 0 <= n -> tx_sender t = Some a -> sunk t (db m) = MIN_STORAGE_DEPOSIT ->
  db m' = (charge_deposit a n e (db m)).1 -> (forall err, (charge_deposit a n e (db m)).2 = Err err -> o = Err err) ->
  concludes t m (m', o).
Proof.
  intros Hb Hn Hs Hz E Ho. pose proof (deposit_settles a n e (db m) Hb Hn) as Hd.
  destruct (charge_deposit a n e (db m)) as [d [u|err]] eqn:Ec; cbn [fst snd settles] in *.
  - destruct o as [[]|err]; cbn; rewrite E, ?Hz; [done|].
    destruct Hd as [Hbd _]. unfold charge_deposit in Ec. rewrite open_account_eq in Ec.
    destruct (Z.ltb_spec (transferable_balance (found (db m) a) e) MIN_STORAGE_DEPOSIT); [done|]. injection Ec as <- <-.
    destruct (upsert_books (anchor_storage n e) a (get_or_create_account (db m) a)) as [Es Ed _ _].
    destruct (opened_books a (db m)) as [Es' Ed' _ _].
    split; [done|intros b Hk; by apply upsert_kept, opened_kept|congruence|congruence| |].
    + intros b Hne. rewrite !balance_found, upsert_found_ne by congruence. rewrite <- !balance_found. apply opened_idle.
    + intros b Hnone. assert (b <> a).
      { intros ->. unfold found in *. rewrite Hnone in *. cbn in *. unfold MIN_STORAGE_DEPOSIT in *. lia. }
      rewrite balance_found, upsert_found_ne, <- balance_found by done.
      rewrite (id_balances _ _ (opened_idle a (db m))). unfold balance_of, at_key. by rewrite Hnone.
  - rewrite (Ho err eq_refl). cbn. rewrite E. destruct Hd as [[Hbd _] Hi]. by apply idle_failed.
Qed.

Lemma deploy_contract_concludes tx e m :
  books_ok (db m) -> concludes (DeployContract tx) m (execute_deploy_contract tx e m).
Proof.
  intros Hb. unfold execute_deploy_contract. do 3 (destruct (negb _); [by apply stays|]). cbv zeta.
  set (n := saturating_add _ (from_option _ _ _)).
  assert (Hn : 0 <= n) by (repeat apply anchored_nonneg; [done|unfold ssize; lia|destruct (dc_rules tx); cbn; unfold ssize; lia]).
  destruct (charge_deposit (dc_deployer tx) n e (db m)) as [d [u|err]] eqn:Ec.
  - destruct (template_deploy tx e _) as [c []]; (eapply (deployed _ (dc_deployer tx) n e); [done|done|done|done|by rewrite Ec|by rewrite Ec]).
  - eapply (deployed _ (dc_deployer tx) n e); [done|done|done|done|by rewrite Ec|]. rewrite Ec. by intros ? [= ->].
Qed.

Lemma deploy_script_concludes tx e m :
  books_ok (db m) -> concludes (DeployScript tx) m (execute_deploy_script tx e m).
Proof.
  intros Hb. unfold execute_deploy_script. set (n := saturating_add _ _). assert (Hn : 0 <= n) by (apply anchored_nonneg; [done|unfold ssize; lia]).
  destruct (charge_deposit (ds_deployer tx) n e (db m)) as [d [u|err]] eqn:Ec.
  - cbv zeta. destruct (if bool_decide _ then _ else _); [destruct (ScriptEngine.deploy _ _ _ _ _ _ _) as [s []]|];
      (eapply (deployed _ (ds_deployer tx) n e); [done|done|done|done|by rewrite Ec|by rewrite Ec]).
  - eapply (deployed _ (ds_deployer tx) n e); [done|done|done|done|by rewrite Ec|]. rewrite Ec. by intros ? [= ->].
Qed.
(** Calls do not touch the state. *)
Lemma call_contract_db tx m : db (execute_call_contract tx m).1 = db m.
Proof.
  unfold execute_call_contract. destruct (_ <=? _); [done|]. destruct (_ <? _); [done|]. destruct (negb _); [done|]. cbv zeta.
  by destruct (template_call _ _ _ _ _ _) as [c []].
Qed.

Lemma call_script_db tx m : db (execute_call_script tx m).1 = db m.
Proof.
  unfold execute_call_script. destruct (_ <=? _); [done|]. destruct (_ <? _); [done|]. destruct (call_args _); [|done].
  cbv zeta. by destruct (call_with_vm_gas _ _ _ _ _ _ _) as [s []].
Qed.

(** An update of an existing account that keeps its balance. *)
Lemma modify_quiet f a d :
  books_ok d -> (forall x, a_balance (f x) = a_balance x) -> (forall x, account_ok x -> account_ok (f x)) ->
  ledger 0 d (modify_account f a d).
Proof.
  intros Hb Hf Hk. destruct (accounts d !! a) as [x|] eqn:E.
  - rewrite modify_upsert by (rewrite E; by eexists). apply upsert_ledger; [done|by apply Hk, found_ok|rewrite Hf; lia|destruct Hb; lia].
  - apply view_ledger; [done| |apply modify_books..]. rewrite accounts_modify. symmetry. by apply alter_None.
Qed.

Lemma touched_ok e x : account_ok x -> account_ok (touch e x).
Proof. intros []. by split. Qed.

Lemma bumped_ok e x : account_ok x -> account_ok (bump_saturating e x).
Proof. intros [H1' H2' H3' H4']. split; cbn; [done|u64_lia|done|done]. Qed.

Lemma stamp_concludes t caller e m r :
  books_ok (db m) -> sunk t (db m) = 0 -> db r.1 = db m -> concludes t m (stamp_caller caller e r).
Proof.
  intros Hb Hz E. destruct r as [m' [u|err]]; cbn [stamp_caller fst] in *; [|by apply stays].
  cbn. rewrite E, Hz. apply modify_quiet; [done|done|apply touched_ok].
Qed.

Lemma check_paymaster_spec chain tx pm d :
  books_ok d ->
  match check_paymaster chain tx pm d with
  | (d', Ok _) => ledger 0 d d' /\ idle d d' /\ total_gas_cost tx <= balance_of d pm
  | (d', Err _) => ledger 0 d d' /\ idle d d'
  end.
Proof.
  intros Hb. unfold check_paymaster.
  destruct (uo_paymaster_nonce tx), (uo_paymaster_signature tx), (uo_paymaster_public_key tx); try (split; [by apply ledger_refl|done]).
  case_bool_decide; [split; [by apply ledger_refl|done]|]. destruct (negb _); [split; [by apply ledger_refl|done]|].
  rewrite open_account_eq. destruct (negb _); [split; [by apply opened_ledger|apply opened_idle]|].
  destruct (Z.ltb_spec (a_balance (found d pm)) (total_gas_cost tx)); [split; [by apply opened_ledger|apply opened_idle]|].
  split_and!; [by apply opened_ledger|apply opened_idle|by rewrite balance_found].
Qed.

Lemma cost_pos tx : 0 <= uo_call_gas_limit tx -> 30000 <= total_gas_cost tx.
Proof. intros. unfold total_gas_cost, GAS_USER_OP. u64_lia. Qed.

Lemma sponsorship_ledger cost e a d :
  books_ok d -> 0 <= cost <= balance_of d a -> ledger (- cost) d (upsert_account (pay_sponsorship cost e) a d).
Proof.
  intros Hb Hc. rewrite balance_found in Hc. destruct (found_ok d a Hb) as [Hbal Hn Hv Hsb].
  apply upsert_ledger; [done| |cbn; u64_lia|destruct Hb; lia]. split; cbn; [u64_lia|u64_lia|done|done].
Qed.

(** The intent inside a user operation moves money but keeps the supply. *)
Lemma inner_settles tx e m :
  books_ok (db m) -> settles 0 (db m) (db (execute_inner tx e m).1, (execute_inner tx e m).2).
Proof.
  intros Hb. unfold execute_inner. destruct (tx_of_json (uo_call_data tx)) as [t|] eqn:E; [|by apply fails_here].
  destruct t; try by apply fails_here.
  - pose proof (tx_of_json_typed _ _ E) as Ht. cbn in Ht. unfold on_db.
    pose proof (inner_transfer_settles tx0 (uo_sender tx) e (db m) Hb) as Hi.
    destruct (execute_inner_transfer tx0 _ e (db m)) as [d o]. apply Hi. u64_lia.
  - case_bool_decide; [by apply fails_here|]. rewrite call_contract_db.
    destruct (execute_call_contract tx0 m).2; [by apply ledger_refl|by apply fails_here].
  - case_bool_decide; [by apply fails_here|]. rewrite call_script_db.
    destruct (execute_call_script tx0 m).2; [by apply ledger_refl|by apply fails_here].
Qed.
(** The operation of a user who pays for itself. *)
Lemma self_paid_concludes tx e m d1 :
  uo_paymaster tx = None -> ledger 0 (db m) d1 -> idle (db m) d1 ->
  concludes (UserOp tx) m (if bool_decide (uo_call_data tx = []) then (with_db d1 m, Ok tt) else execute_inner tx e (with_db d1 m)).
Proof.
  intros Hpm Hl Hi. case_bool_decide; [cbn; by rewrite Hpm|]. destruct Hl as [Hb1 E1].
  pose proof (inner_settles tx e (with_db d1 m) Hb1) as Hs. destruct (execute_inner _ _ _) as [m' [u|err]]; cbn in *.
  - rewrite Hpm. destruct Hs as [Hb2 E2]. split; [done|lia].
  - destruct Hs as [[Hb2 _] Hi2]. apply idle_failed; [done|by etrans].
Qed.

(** A sponsored operation: the paymaster pays, or is put back. *)
Lemma sponsored_concludes tx pm e m d1 :
  uo_paymaster tx = Some pm -> 0 <= uo_call_gas_limit tx -> ledger 0 (db m) d1 -> idle (db m) d1 ->
  total_gas_cost tx <= balance_of (db m) pm ->
  let d2 := upsert_account (pay_sponsorship (total_gas_cost tx) e) pm d1 in
  concludes (UserOp tx) m (if bool_decide (uo_call_data tx = []) then (with_db d2 m, Ok tt) else execute_inner tx e (with_db d2 m)).
Proof.
  intros Hpm Hg [Hb1 E1] Hi Hc d2. pose proof (cost_pos tx Hg).
  assert (Hl2 : ledger (- total_gas_cost tx) d1 d2).
  { apply sponsorship_ledger; [done|]. rewrite (id_balances _ _ Hi). lia. }
  destruct Hl2 as [Hb2 E2].
  assert (Ho : forall a, a <> pm -> balance_of d2 a = balance_of (db m) a).
  { intros a Ha. unfold d2. rewrite balance_found, upsert_found_ne, <- balance_found by done. apply Hi. }
  case_bool_decide; [cbn; rewrite Hpm; split; [done|lia]|].
  pose proof (inner_settles tx e (with_db d2 m) Hb2) as Hs. destruct (execute_inner _ _ _) as [m' [u|err]]; cbn in *.
  - rewrite Hpm. destruct Hs as [Hb3 E3]. split; [done|lia].
  - destruct Hs as [[Hb3 _] Hi3]. destruct (upsert_books (pay_sponsorship (total_gas_cost tx) e) pm d1) as [Es Ed _ _].
    split; [done|intros a Hk; by apply Hi3, upsert_kept, Hi|rewrite (id_stakes _ _ Hi3); unfold d2; rewrite Es; apply Hi
           |rewrite (id_delegations _ _ Hi3); unfold d2; rewrite Ed; apply Hi| |]; intros a Ha; rewrite (id_balances _ _ Hi3).
    + apply Ho. cbn in Ha. rewrite Hpm in Ha. congruence.
    + assert (Hz : balance_of (db m) a = 0) by (unfold balance_of, at_key; by rewrite Ha).
      rewrite Ho; [done|]. intros ->. lia.
Qed.

Lemma user_op_concludes tx e m :
  books_ok (db m) -> 0 <= uo_call_gas_limit tx -> concludes (UserOp tx) m (execute_user_op tx e m).
Proof.
  intros Hb Hg. unfold execute_user_op. rewrite open_account_eq.
  pose proof (opened_idle (uo_sender tx) (db m)) as Hi0. pose proof (opened_ledger (uo_sender tx) _ Hb) as [Hb0 E0].
  destruct (negb _); [by apply idle_failed|].
  assert (Hbump : forall d, ledger 0 (db m) d -> idle (db m) d ->
    ledger 0 (db m) (upsert_account (bump_saturating e) (uo_sender tx) d) /\
    idle (db m) (upsert_account (bump_saturating e) (uo_sender tx) d)).
  { intros d [Hbd Ed] Hid. split; [apply (ledger_seq _ 0 0 _ d); [lia|by split|intros; by apply bump_saturating_ledger]|].
    etrans; [exact Hid|]. by apply upsert_idle. }
  destruct (uo_paymaster tx) as [pm|] eqn:Hpm.
  - pose proof (check_paymaster_spec (chain_id (ex m)) tx pm _ Hb0) as Hc.
    destruct (check_paymaster _ _ _ _) as [d [u|err]].
    + destruct Hc as ([Hbd Ed] & Hid & Hcost). rewrite (id_balances _ _ Hi0) in Hcost.
      destruct (Hbump d) as [Hl Hi]; [split; [done|lia]|by etrans|]. cbv zeta. by apply sponsored_concludes.
    + destruct Hc as [[Hbd _] Hid]. apply idle_failed; [done|by etrans].
  - destruct (Hbump (get_or_create_account (db m) (uo_sender tx))) as [Hl Hi]; [split; [done|lia]|done|].
    by apply self_paid_concludes.
Qed.

Lemma upgrade_concludes tx e m : books_ok (db m) -> concludes (UpgradeContract tx) m (execute_upgrade_contract tx e m).
Proof.
  intros Hb. unfold execute_upgrade_contract. rewrite open_account_eq.
  pose proof (opened_idle (uc_owner tx) (db m)) as Hi0. pose proof (opened_ledger (uc_owner tx) _ Hb) as [Hb0 E0].
  destruct (negb _); [by apply idle_failed|]. cbv zeta.
  set (d1 := upsert_account _ _ _).
  assert (Hl : ledger 0 (db m) d1) by (apply (ledger_seq _ 0 0 _ _ _ eq_refl (conj Hb0 E0)); intros; by apply bump_saturating_ledger).
  assert (Hi : idle (db m) d1) by (etrans; [exact Hi0|by apply upsert_idle]).
  assert (Hf : forall x err, concludes (UpgradeContract tx) m (with_ex x (with_db d1 m), Err err)).
  { intros x err. apply idle_failed; [apply Hl|done]. }
  case_bool_decide; [apply (Hf (ex m))|]. destruct (get_contract _ _); [|apply (Hf (ex m))].
  destruct (upgrade_auth _ _); [|apply (Hf (ex m))]. destruct (negb _); [apply (Hf (ex m))|].
  destruct (upgrade_contract _ _ _ _) as [s' [u|err]]; [|apply Hf]. cbn.
  apply (ledger_seq _ 0 0 _ d1); [lia|done|]. intros. by apply touch_ledger.
Qed.

Lemma rotation_concludes tx e m : books_ok (db m) -> concludes (RotateValidatorKey tx) m (execute_rotation tx e m).
Proof.
  intros Hb. unfold execute_rotation. destruct (_ <? _); [by apply stays|]. destruct (negb _); [by apply stays|].
  destruct (stakes (db m) !! _); [|by apply stays]. case_bool_decide; [by apply stays|]. cbv zeta.
  do 2 (destruct (negb _); [by apply stays|]). cbn. apply modify_quiet; [done|done|apply bumped_ok].
Qed.

(** Every kind of transaction keeps the books. *)
Lemma dispatch_concludes t e m : books_ok (db m) -> amounts_ok t -> concludes t m (dispatch t e m).
Proof.
  intros Hb Ha. destruct t as [tx|tx|tx|tx|tx|tx|tx|tx|tx|tx|tx|tx|tx|tx|tx|tx|tx|tx|tx|tx|tx|tx|tx|tx|tx]; cbn [dispatch amounts_ok] in *;
    try (by apply stays).
  - eapply on_db_concludes; [apply transfer_settles; [done|u64_lia]|done].
  - eapply on_db_concludes; [by apply refresh_settles|done].
  - eapply on_db_concludes; [by apply create_object_settles|done].
  - by apply deploy_contract_concludes.
  - apply stamp_concludes; [done|done|apply call_contract_db].
  - by apply deploy_script_concludes.
  - apply stamp_concludes; [done|done|apply call_script_db].
  - eapply on_db_concludes; [apply stake_settles; [done|u64_lia]|done].
  - eapply on_db_concludes; [by apply exit_settles|done].
  - eapply on_db_concludes; [by apply claim_stake_settles|done].
  - unfold submit_deferred. destruct (Temporal.submit _ _) as [q [u|err]]; [by apply stays_ok|by apply stays].
  - destruct (check_blob tx) as [[]|]; [by apply stays_ok|by apply stays].
  - eapply on_db_concludes; [by apply governance_settles|done].
  - eapply on_db_concludes; [by apply multisig_settles|done].
  - apply user_op_concludes; [done|u64_lia].
  - by apply upgrade_concludes.
  - eapply on_db_concludes; [apply delegate_settles; [done|u64_lia]|done].
  - eapply on_db_concludes; [apply undelegate_settles; [done|u64_lia]|done].
  - by apply rotation_concludes.
  - eapply on_db_concludes; [by apply claim_delegation_settles|done].
  - eapply on_db_concludes; [apply refund_settles; [done|u64_lia]|done].
  - unfold execute_deploy_template. destruct (app_template_ok tx); [|by apply stays]. cbn.
    apply modify_quiet; [done|done|apply touched_ok].
Qed.
(** ** Fees and failures *)

(** A fee counts when there is a sender to take it from. *)
Definition fee_from (t : Transaction) (fee : Z) : Z := match tx_sender t with Some _ => fee | None => 0 end.

(** After the revert no balance has moved. *)
Lemma revert_idle t d d' :
  books_ok d -> failed t d d' -> ledger 0 d (revert (sender_snapshot t d) d') /\ idle d (revert (sender_snapshot t d) d').
Proof.
  intros Hb [Hb' Hk Hs Hd Ho Hz].
  assert (Hi : idle d (revert (sender_snapshot t d) d') /\ map_Forall (fun _ => account_ok) (accounts (revert (sender_snapshot t d) d'))).
  { unfold revert, sender_snapshot. destruct (tx_sender t) as [a|] eqn:Et; cbn [mbind option_bind].
    2: { split; [split; [done|intros b; by apply Ho|done|done]|apply Hb']. }
    destruct (accounts d !! a) as [x|] eqn:Ex; cbn [mbind option_bind].
    - destruct (Hk a) as [y Ey]; [by eexists|]. destruct (bo_accounts _ Hb _ _ Ex) as [Hx1 Hx2 _].
      destruct (bo_accounts _ Hb' _ _ Ey) as [_ _ Hy3].
      rewrite modify_upsert by (rewrite Ey; by eexists).
      set (d2 := upsert_account _ a d'). destruct (upsert_books (restore (a_balance x) (a_nonce x)) a d') as [Es Ed _ _].
      split; [split; [intros b Hb2; by apply upsert_kept, Hk| |by unfold d2; rewrite Es|by unfold d2; rewrite Ed]|].
      + intros b. unfold d2. rewrite !balance_found. destruct (decide (a = b)) as [<-|Hn].
        * rewrite upsert_found. cbn. unfold found. by rewrite Ex.
        * rewrite upsert_found_ne by done. rewrite <- !balance_found. apply Ho. congruence.
      + unfold d2. rewrite accounts_upsert. apply map_Forall_insert_2; [|apply Hb']. rewrite Ey. by split.
    - split; [|apply Hb']. split; [done| |done|done]. intros b. destruct (decide (a = b)) as [<-|Hn]; [|apply Ho; congruence].
      rewrite Hz by done. unfold balance_of, at_key. by rewrite Ex. }
  destruct Hi as [Hi Ha]. split; [|done]. pose proof (idle_supply _ _ Hi) as E. split; [|lia].
  split; [done|rewrite (id_stakes _ _ Hi); apply Hb|rewrite (id_delegations _ _ Hi); apply Hb|destruct Hb; lia].
Qed.

Lemma charge_fee_ledger t e m :
  books_ok (db m) ->
  match charge_fee t e m with
  | (m', Some fee) => 0 <= fee /\ ledger (- fee_from t fee) (db m) (db m')
  | (m', None) => ledger 0 (db m) (db m')
  end.
Proof.
  intros Hb. unfold charge_fee, fee_from. destruct (fee_controller (ex m)) as [fc|].
  2: { split; [done|]. destruct (tx_sender t); by apply ledger_refl. }
  cbv zeta. assert (Hf : 0 <= total_tx_fee fc t) by apply as_u64_range.
  destruct (tx_sender t) as [a|]; [|split; [done|by apply ledger_refl]]. rewrite open_account_eq.
  destruct (Z.ltb_spec (a_balance (found (db m) a)) (total_tx_fee fc t)); [by apply opened_ledger|].
  split; [done|]. cbn. apply (ledger_seq _ 0 (- total_tx_fee fc t) _ (get_or_create_account (db m) a)); [lia|by apply opened_ledger|].
  intros. apply debit_ledger; [done|]. rewrite opened_found. lia.
Qed.

(** What running a transaction takes out of the supply: its fee, when somebody
    pays it, and what it sinks when it succeeds. *)
Definition taken (e : Z) (r : BlockRun) (t : Transaction) : Z :=
  match verify_tx_signature (ex (machine_of r)) t with
  | Err _ => 0
  | Ok _ =>
      if exceeds_block_gas (block_gas_limit (ex (machine_of r))) (gas_used r) (exec_gas t) then 0
      else
        match charge_fee t e (machine_of r) with
        | (_, None) => 0
        | (m, Some fee) =>
            fee_from t fee + match (dispatch t e m).2 with Ok _ => sunk t (db m) | Err _ => 0 end
        end
  end.

Fixpoint taken_by (e : Z) (txs : list Transaction) (r : BlockRun) : Z :=
  match txs with
  | [] => 0
  | t :: txs' => taken e r t + taken_by e txs' (run_tx e r t)
  end.

Lemma sunk_nonneg t d : books_ok d -> amounts_ok t -> 0 <= sunk t d.
Proof.
  intros Hb Ha. destruct t as [tx|tx|tx|tx|tx|tx|tx|tx|tx|tx|tx|tx|tx|tx|tx|tx|tx|tx|tx|tx|tx|tx|tx|tx|tx]; cbn; try done.
  - destruct (stakes d !! _) as [s|] eqn:E; cbn; [|done]. destruct (bo_stakes _ Hb _ _ E) as (_ & ? & ?). u64_lia.
  - destruct (uo_paymaster tx); [|done]. cbn in Ha. pose proof (cost_pos tx). u64_lia.
Qed.

Lemma run_tx_ledger e r t :
  books_ok (db (machine_of r)) -> amounts_ok t ->
  ledger (- taken e r t) (db (machine_of r)) (db (machine_of (run_tx e r t))) /\ 0 <= taken e r t.
Proof.
  intros Hb Ha. unfold run_tx, taken. destruct (verify_tx_signature _ t); [|split; [by apply ledger_refl|done]].
  cbv zeta. destruct (exceeds_block_gas _ _ _); [split; [by apply ledger_refl|done]|].
  pose proof (charge_fee_ledger t e (machine_of r) Hb) as Hc.
  destruct (charge_fee t e (machine_of r)) as [m [fee|]]; [|split; [exact Hc|done]]. destruct Hc as [Hf [Hbm Em]].
  pose proof (dispatch_concludes t e m Hbm Ha) as Hd. pose proof (sunk_nonneg t (db m) Hbm Ha).
  assert (0 <= fee_from t fee) by (unfold fee_from; by destruct (tx_sender t)).
  destruct (dispatch t e m) as [m' [u|err]]; cbn in *.
  - destruct Hd as [Hb' E']. split; [split; [done|lia]|lia].
  - destruct (revert_idle t (db m) (db m') Hbm Hd) as [[Hb' E'] _]. split; [split; [done|lia]|lia].
Qed.
Lemma run_ledger e txs r :
  books_ok (db (machine_of r)) -> Forall amounts_ok txs ->
  ledger (- taken_by e txs r) (db (machine_of r)) (db (machine_of (foldl (run_tx e) r txs))) /\ 0 <= taken_by e txs r.
Proof.
  intros Hb Hall. revert r Hb. induction Hall as [|t txs Ht _ IH]; intros r Hb; cbn [foldl taken_by].
  - split; [by apply ledger_refl|lia].
  - destruct (run_tx_ledger e r t Hb Ht) as [[Hb1 E1] H1']. destruct (IH _ Hb1) as [[Hb2 E2] H2'].
    split; [split; [done|lia]|lia].
Qed.

(** C3: money is conserved exactly.  Over any list of transactions, valid or not,
    signed or not, the tokens in accounts, stakes and delegations change only by
    what the transactions take out: the fees of those that run, and, for those
    that succeed, storage deposits, sponsored gas and the slashed part of claimed
    stakes.  Failed transactions, whatever they did before failing, cost their
    fee and nothing else; no transaction creates money, and every balance, stake
    and delegation stays a 64-bit number without wrapping or saturating. *)
Theorem supply_conserved e txs m :
  books_ok (db m) -> Forall amounts_ok txs ->
  books_ok (db (machine_of (run_txs e txs m))) /\
  supply (db (machine_of (run_txs e txs m))) = supply (db m) - taken_by e txs (run_start m) /\
  0 <= taken_by e txs (run_start m).
Proof.
  intros Hb Ht. destruct (run_ledger e txs (run_start m) Hb Ht) as [[Hb' E] Hn]. cbn in *. unfold run_txs.
  split_and!; [done|lia|done].
Qed.
End transactions.
