(* ===== verification/Nonces.v ===== *)
(** * Nonces

    A transaction that carries a nonce the executor checks runs at most once:
    nonces never go back, whatever runs in between. *)

From stdpp Require Import base gmap list strings sorting.
From Stdlib Require Import ZArith Lia.
From S2P Require Import Prelude Energy DecayCurves Trie Mmr Validators Mempool Tendermint ScriptValue ScriptVM ScriptCompiler ScriptEngine Transactions Types StateDB Lifecycle Fees Temporal Executor Governance BlockExecutor Ledger.

Open Scope Z_scope.

(** The account and nonce a transaction uses up.  The other kinds have no nonce
    (or, for deferred, blob and template transactions, one that is never read),
    and a key rotation uses its nonce only when the account exists. *)
Definition consumes (t : Transaction) : option (bytes * Z) :=
  match t with
  | Transfer tx => if bool_decide (tr_from tx = ZERO_ADDRESS) then None else Some (tr_from tx, tr_nonce tx)
  | ValidatorStake tx => Some (vs_validator_address tx, vs_nonce tx)
  | ValidatorExit tx => Some (ve_validator_address tx, ve_nonce tx)
  | ValidatorClaimStake tx => Some (vc_validator_address tx, vc_nonce tx)
  | Transactions.Governance tx => Some (gv_sender tx, gv_nonce tx)
  | MultiSig tx => Some (ms_multisig_address tx, ms_nonce tx)
  | UserOp tx => Some (uo_sender tx, uo_nonce tx)
  | UpgradeContract tx => Some (uc_owner tx, uc_nonce tx)
  | Delegate tx => Some (dl_delegator tx, dl_nonce tx)
  | Undelegate tx => Some (ud_delegator tx, ud_nonce tx)
  | ClaimDelegation tx => Some (cd_delegator tx, cd_nonce tx)
  | _ => None
  end.

(** Nonces grow by two at most, and never go back. *)
Definition ages (db db' : InMemoryStateDB) : Prop :=
  forall a, 0 <= nonce_of db a -> nonce_of db a + 2 <= U64_MAX -> nonce_of db a <= nonce_of db' a <= nonce_of db a + 2.

(** What a result did to the nonces; a success used up [who]. *)
Definition advances (who : option (bytes * Z)) (db : InMemoryStateDB) (r : InMemoryStateDB * result unit ExecutionError) : Prop :=
  let '(db', o) := r in
  ages db db' /\
  (o = Ok tt -> forall a n, who = Some (a, n) ->
     nonce_of db a = n /\ (0 <= n -> n + 2 <= U64_MAX -> n + 1 <= nonce_of db' a)).

Lemma ages_refl db : ages db db.
Proof. intros a H1 H2. lia. Qed.

Lemma wrapping_succ n : 0 <= n -> n + 2 <= U64_MAX -> wrapping_add n 1 = n + 1.
Proof. intros. unfold wrapping_add. apply as_u64_small. u64_lia. Qed.

Section rules.
Context `{Blake3, Pallas, HashOrder}.

Lemma nonce_upsert f a b d :
  nonce_of (upsert_account f a d) b = if decide (a = b) then a_nonce (f (found d a)) else nonce_of d b.
Proof.
  rewrite !nonce_found. case_decide as E; [subst b; by rewrite upsert_found|by rewrite upsert_found_ne].
Qed.

Lemma nonce_upsert_quiet f a b d : (forall x, a_nonce (f x) = a_nonce x) -> nonce_of (upsert_account f a d) b = nonce_of d b.
Proof. intros Hf. rewrite nonce_upsert. case_decide as E; [subst b; by rewrite Hf, nonce_found|done]. Qed.

Lemma nonce_modify_quiet f a b d : (forall x, a_nonce (f x) = a_nonce x) -> nonce_of (modify_account f a d) b = nonce_of d b.
Proof.
  intros Hf. unfold nonce_of, at_key. rewrite accounts_modify. destruct (decide (a = b)) as [<-|Hn].
  - rewrite lookup_alter_eq. destruct (accounts d !! a); cbn; [apply Hf|done].
  - by rewrite lookup_alter_ne.
Qed.

Lemma nonce_opened a b d : nonce_of (get_or_create_account d a) b = nonce_of d b.
Proof.
  rewrite !nonce_found. unfold found. rewrite accounts_opened. destruct (decide (a = b)) as [<-|Hn];
    [by rewrite lookup_insert_eq|by rewrite lookup_insert_ne].
Qed.

Lemma nonce_debit x e a b d : nonce_of (upsert_account (debit x e) a d) b = nonce_of d b.
Proof. by apply nonce_upsert_quiet. Qed.
Lemma nonce_credit x e a b d : nonce_of (upsert_account (credit x e) a d) b = nonce_of d b.
Proof. by apply nonce_upsert_quiet. Qed.
Lemma nonce_touch e a b d : nonce_of (upsert_account (touch e) a d) b = nonce_of d b.
Proof. by apply nonce_upsert_quiet. Qed.
Lemma nonce_anchor n e a b d : nonce_of (upsert_account (anchor_storage n e) a d) b = nonce_of d b.
Proof. by apply nonce_upsert_quiet. Qed.
Lemma nonce_modify_touch e a b d : nonce_of (modify_account (touch e) a d) b = nonce_of d b.
Proof. by apply nonce_modify_quiet. Qed.
Lemma nonce_modify_credit x e a b d : nonce_of (modify_account (credit x e) a d) b = nonce_of d b.
Proof. by apply nonce_modify_quiet. Qed.

Lemma nonce_bump e a b d :
  nonce_of (upsert_account (bump e) a d) b = if decide (a = b) then wrapping_add (nonce_of d a) 1 else nonce_of d b.
Proof. rewrite nonce_upsert, (nonce_found d a). done. Qed.
Lemma nonce_bump_saturating e a b d :
  nonce_of (upsert_account (bump_saturating e) a d) b = if decide (a = b) then saturating_add (nonce_of d a) 1 else nonce_of d b.
Proof. rewrite nonce_upsert, (nonce_found d a). done. Qed.
Lemma nonce_pay_out x e a b d :
  nonce_of (upsert_account (pay_out x e) a d) b = if decide (a = b) then wrapping_add (nonce_of d a) 1 else nonce_of d b.
Proof. rewrite nonce_upsert, (nonce_found d a). done. Qed.
Lemma nonce_sponsorship x e a b d :
  nonce_of (upsert_account (pay_sponsorship x e) a d) b = if decide (a = b) then saturating_add (nonce_of d a) 1 else nonce_of d b.
Proof. rewrite nonce_upsert, (nonce_found d a). done. Qed.

Lemma nonce_put_stake r d b : nonce_of (put_stake r d) b = nonce_of d b.
Proof. done. Qed.
Lemma nonce_remove_stake i d b : nonce_of (remove_stake i d).1 b = nonce_of d b.
Proof. done. Qed.
Lemma nonce_put_delegation r d b : nonce_of (put_delegation r d) b = nonce_of d b.
Proof. done. Qed.
Lemma nonce_remove_delegation i j d b : nonce_of (remove_delegation i j d).1 b = nonce_of d b.
Proof. done. Qed.
Lemma nonce_put_proposal p d b : nonce_of (put_proposal p d) b = nonce_of d b.
Proof. done. Qed.
Lemma nonce_put_object o d b : nonce_of (put_object o d) b = nonce_of d b.
Proof. done. Qed.
End rules.

Create Rewrite HintDb nonces.
#[export] Hint Rewrite @nonce_opened @nonce_debit @nonce_credit @nonce_touch @nonce_anchor @nonce_modify_touch
  @nonce_modify_credit @nonce_bump @nonce_bump_saturating @nonce_pay_out @nonce_sponsorship @nonce_put_stake
  @nonce_remove_stake @nonce_put_delegation @nonce_remove_delegation @nonce_put_proposal @nonce_put_object : nonces.

(** Evaluate nonces through the updates of a state. *)
Ltac nonce_arith :=
  autorewrite with nonces; repeat case_decide; try congruence; try subst; rewrite ?wrapping_succ by lia; try (u64_unfold; lia).

(** A failure, or a success whose checks are in the context. *)
Ltac nonce_leaf :=
  cbn [advances]; split; [intros ? ? ?; nonce_arith|
    first
      [ discriminate
      | intros _ ? ? ?; discriminate
      | intros _ ? ? [= <- <-];
        match goal with
        | |- ?P /\ _ => let E := fresh in assert (E : P) by (rewrite nonce_found; zbool; done); split; [exact E|intros ? ?; nonce_arith]
        end ]].

Ltac nonce_cases :=
  repeat first
    [ rewrite open_account_eq | case_bool_decide
    | match goal with |- context [if negb (?a =? ?b) then _ else _] => destruct (Z.eqb_spec a b); cbn [negb] end
    | match goal with |- context [if ?c then _ else _] => destruct c eqn:? end
    | match goal with |- context [match ?x with _ => _ end] => destruct x eqn:? end ].

Section operations.
Context `{Blake3, Pallas, HashOrder, F64Parse}.

Lemma transfer_advances tx e d : advances (consumes (Transfer tx)) d (execute_transfer tx e d).
Proof.
  unfold execute_transfer. cbv zeta. cbn [consumes]. case_bool_decide as Hm; cbn [negb andb]; nonce_cases; try done; nonce_leaf.
Qed.

Lemma refund_advances tx e d : advances (consumes (Refund tx)) d (execute_refund tx e d).
Proof. unfold execute_refund. cbv zeta. nonce_cases; nonce_leaf. Qed.

Lemma create_advances tx e d : advances (consumes (CreateObject tx)) d (execute_create_object tx e d).
Proof. unfold execute_create_object, charge_deposit. cbv zeta. nonce_cases; nonce_leaf. Qed.

Lemma stake_advances tx e d : advances (consumes (ValidatorStake tx)) d (execute_validator_stake tx e d).
Proof. unfold execute_validator_stake. cbv zeta. nonce_cases; nonce_leaf. Qed.

Lemma exit_advances tx e d : advances (consumes (ValidatorExit tx)) d (execute_validator_exit tx e d).
Proof. unfold execute_validator_exit. cbv zeta. nonce_cases; nonce_leaf. Qed.

Lemma claim_stake_advances tx e d : advances (consumes (ValidatorClaimStake tx)) d (execute_validator_claim_stake tx e d).
Proof. unfold execute_validator_claim_stake. cbv zeta. nonce_cases; nonce_leaf. Qed.

Lemma delegate_advances tx e d : advances (consumes (Delegate tx)) d (execute_delegate tx e d).
Proof. unfold execute_delegate. cbv zeta. nonce_cases; nonce_leaf. Qed.

Lemma undelegate_advances tx e d : advances (consumes (Undelegate tx)) d (execute_undelegate tx e d).
Proof. unfold execute_undelegate. cbv zeta. nonce_cases; nonce_leaf. Qed.

Lemma claim_delegation_advances tx e d : advances (consumes (ClaimDelegation tx)) d (execute_claim_delegation tx e d).
Proof. unfold execute_claim_delegation. cbv zeta. nonce_cases; nonce_leaf. Qed.

Lemma multisig_advances tx e d : advances (consumes (MultiSig tx)) d (execute_multisig tx e d).
Proof. unfold execute_multisig. cbv zeta. nonce_cases; nonce_leaf. Qed.

Lemma governance_advances tx e d : advances (consumes (Transactions.Governance tx)) d (execute_governance tx e d).
Proof. unfold execute_governance, create_proposal, cast_vote. cbv zeta. nonce_cases; nonce_leaf. Qed.
End operations.

Section transactions.
Context `{CurveJson, Blake3, Pallas, HybridVerifier, BlsKeys, HashOrder, Hex, StrDebug, F64Parse}.
Context `{!Json, !JsonTyped, !ScriptParser, !AppTemplates, !MlDsa}.
Context {C : Type} `{!ContractTemplates C}.

Implicit Types m : Machine C.

(** The same for the whole machine. *)
Definition advances_m (who : option (bytes * Z)) m (r : Machine C * result unit ExecutionError) : Prop :=
  let '(m', o) := r in advances who (db m) (db m', o).

Lemma on_db_advances who f m : advances who (db m) (f (db m)) -> advances_m who m (on_db f m).
Proof. unfold on_db. by destruct (f (db m)). Qed.

(** Nonces as they were, and nothing to use up. *)
Lemma same_nonces m m' o : (forall a, nonce_of (db m') a = nonce_of (db m) a) -> advances_m None m (m', o).
Proof. intros E. split; [intros a ? ?; rewrite E; lia|done]. Qed.

Lemma accounts_nonces d d' : accounts d' = accounts d -> forall a, nonce_of d' a = nonce_of d a.
Proof. intros E a. unfold nonce_of. by rewrite E. Qed.

Lemma charge_deposit_nonces a n e d b : nonce_of (charge_deposit a n e d).1 b = nonce_of d b.
Proof. unfold charge_deposit. rewrite open_account_eq. destruct (_ <? _); cbn [fst]; by autorewrite with nonces. Qed.

Lemma refresh_advances tx e m : advances_m None m (on_db (execute_refresh_tx tx e) m).
Proof.
  unfold on_db. destruct (refresh_tx_view tx e (db m)) as [Ea _].
  destruct (execute_refresh_tx tx e (db m)) as [d o]. by apply same_nonces, accounts_nonces.
Qed.

Lemma deploy_contract_advances tx e m : advances_m None m (execute_deploy_contract tx e m).
Proof.
  unfold execute_deploy_contract. do 3 (destruct (negb _); [by apply same_nonces|]). cbv zeta. set (n := saturating_add _ (from_option _ _ _)).
  pose proof (charge_deposit_nonces (dc_deployer tx) n e (db m)) as Hn.
  destruct (charge_deposit _ _ _ _) as [d [u|err]]; [destruct (template_deploy _ _ _) as [c []]|]; by apply same_nonces.
Qed.

Lemma deploy_script_advances tx e m : advances_m None m (execute_deploy_script tx e m).
Proof.
  unfold execute_deploy_script. set (n := saturating_add _ _).
  pose proof (charge_deposit_nonces (ds_deployer tx) n e (db m)) as Hn.
  destruct (charge_deposit _ _ _ _) as [d [u|err]]; [|by apply same_nonces]. cbv zeta.
  destruct (if bool_decide _ then _ else _); [|by apply same_nonces].
  destruct (ScriptEngine.deploy _ _ _ _ _ _ _) as [s []]; by apply same_nonces.
Qed.

Lemma stamp_advances caller e m r : db r.1 = db m -> advances_m None m (stamp_caller caller e r).
Proof.
  intros E. destruct r as [m' [u|err]]; cbn [stamp_caller fst] in *; apply same_nonces; intros a; [|by rewrite E].
  cbn [with_db db]. by rewrite nonce_modify_touch, E.
Qed.

Lemma inner_nonces tx e m a : nonce_of (db (execute_inner tx e m).1) a = nonce_of (db m) a.
Proof.
  unfold execute_inner. destruct (tx_of_json _) as [[]|]; try done.
  - unfold on_db, execute_inner_transfer. nonce_cases; cbn [fst with_db db]; by autorewrite with nonces.
  - case_bool_decide; [done|]. by rewrite call_contract_db.
  - case_bool_decide; [done|]. by rewrite call_script_db.
Qed.

Lemma check_paymaster_nonces chain tx pm d a : nonce_of (check_paymaster chain tx pm d).1 a = nonce_of d a.
Proof. unfold check_paymaster. nonce_cases; cbn [fst]; by autorewrite with nonces. Qed.

Lemma user_op_advances tx e m : advances_m (consumes (UserOp tx)) m (execute_user_op tx e m).
Proof.
  unfold execute_user_op. rewrite open_account_eq.
  destruct (Z.eqb_spec (a_nonce (found (db m) (uo_sender tx))) (uo_nonce tx)) as [En|En]; cbn [negb]; [|cbn [advances_m with_db db]; nonce_leaf].
  set (r := match uo_paymaster tx with Some _ => _ | None => _ end).
  assert (Hr : forall a, nonce_of r.1 a = nonce_of (db m) a).
  { intros a. unfold r. destruct (uo_paymaster tx); [rewrite check_paymaster_nonces|cbn [fst]]; apply nonce_opened. }
  clearbody r. destruct r as [d [u|err]]; cbn [fst] in Hr; [|split; [intros a ? ?; cbn; rewrite Hr; lia|done]]. cbv zeta.
  set (d2 := match uo_paymaster tx with Some _ => _ | None => _ end).
  assert (Hd : advances (consumes (UserOp tx)) (db m) (d2, Ok tt)).
  { rewrite <- nonce_found in En. unfold d2. destruct (uo_paymaster tx); cbn [advances];
      (split; [intros ? ? ?|intros _ a n [= <- <-]; split; [done|intros ? ?]]); autorewrite with nonces; rewrite ?Hr; repeat case_decide; try congruence; subst; u64_unfold; lia. }
  clearbody d2. case_bool_decide; [exact Hd|].
  pose proof (inner_nonces tx e (with_db d2 m)) as Hin. destruct (execute_inner _ _ _) as [m' o]. destruct Hd as [Hd1 Hd2].
  cbn [advances_m fst with_db db] in *. split; [intros a ? ?; rewrite Hin; by apply Hd1|].
  intros _ a n E. destruct (Hd2 eq_refl a n E) as [Ha Hb]. split; [done|]. by rewrite Hin.
Qed.
Lemma upgrade_advances tx e m : advances_m (consumes (UpgradeContract tx)) m (execute_upgrade_contract tx e m).
Proof.
  unfold execute_upgrade_contract. rewrite open_account_eq.
  destruct (Z.eqb_spec (a_nonce (found (db m) (uc_owner tx))) (uc_nonce tx)) as [En|En]; cbn [negb]; [|cbn [advances_m with_db db]; nonce_leaf].
  cbv zeta. set (d1 := upsert_account _ _ _).
  assert (Hd : forall d o, (forall a, nonce_of d a = nonce_of d1 a) -> advances (consumes (UpgradeContract tx)) (db m) (d, o)).
  { rewrite <- nonce_found in En. intros d o E. unfold d1 in E. split.
    - intros a ? ?. rewrite E. nonce_arith.
    - intros _ a n [= <- <-]. split; [done|]. intros ? ?. rewrite E. nonce_arith. }
  clearbody d1. case_bool_decide; [by apply Hd|]. destruct (get_contract _ _); [|by apply Hd].
  destruct (upgrade_auth _ _); [|by apply Hd]. destruct (negb _); [by apply Hd|].
  destruct (upgrade_contract _ _ _ _) as [s' [u|err]]; apply Hd; [|done]. intros b. cbn [with_db with_ex db]. by rewrite nonce_touch.
Qed.

Lemma rotation_advances tx e m : advances_m None m (execute_rotation tx e m).
Proof.
  assert (Hf : forall err, advances_m None m (m, Err err)) by (intros; by apply same_nonces).
  unfold execute_rotation. destruct (_ <? _); [done|]. destruct (negb _); [done|].
  destruct (stakes (db m) !! _); [|done]. case_bool_decide; [done|]. cbv zeta.
  do 2 (destruct (negb _); [done|]). cbn [advances_m add_rotation with_db db]. split; [|done].
  intros a. unfold nonce_of, at_key. rewrite accounts_modify. destruct (decide (rk_validator_address tx = a)) as [<-|Hn].
  - rewrite lookup_alter_eq. destruct (accounts (db m) !! _); cbn; [u64_lia|lia].
  - rewrite lookup_alter_ne by done. lia.
Qed.

(** No transaction sets a nonce back, and a success uses up its own. *)
Lemma dispatch_advances t e m : advances_m (consumes t) m (dispatch t e m).
Proof.
  assert (Hf : forall err, advances_m (consumes t) m (m, Err err)) by (intros; split; [apply ages_refl|done]).
  destruct t as [tx|tx|tx|tx|tx|tx|tx|tx|tx|tx|tx|tx|tx|tx|tx|tx|tx|tx|tx|tx|tx|tx|tx|tx|tx]; cbn [dispatch] in *; try exact (Hf _).
  - apply on_db_advances, transfer_advances.
  - apply refresh_advances.
  - apply on_db_advances, create_advances.
  - apply deploy_contract_advances.
  - apply stamp_advances, call_contract_db.
  - apply deploy_script_advances.
  - apply stamp_advances, call_script_db.
  - apply on_db_advances, stake_advances.
  - apply on_db_advances, exit_advances.
  - apply on_db_advances, claim_stake_advances.
  - unfold submit_deferred. destruct (Temporal.submit _ _) as [q []]; by apply same_nonces.
  - by apply same_nonces.
  - apply on_db_advances, governance_advances.
  - apply on_db_advances, multisig_advances.
  - apply user_op_advances.
  - apply upgrade_advances.
  - apply on_db_advances, delegate_advances.
  - apply on_db_advances, undelegate_advances.
  - apply rotation_advances.
  - apply on_db_advances, claim_delegation_advances.
  - apply on_db_advances, refund_advances.
  - unfold execute_deploy_template. destruct (app_template_ok tx); [|done]. apply same_nonces. intros a.
    cbn [with_db db]. apply nonce_modify_touch.
Qed.

Lemma charge_fee_nonces t e m a : nonce_of (db (charge_fee t e m).1) a = nonce_of (db m) a.
Proof.
  unfold charge_fee. destruct (fee_controller (ex m)); [|done]. cbv zeta. destruct (tx_sender t); [|done].
  rewrite open_account_eq. destruct (_ <? _); cbn [fst with_db db]; by autorewrite with nonces.
Qed.

(** The revert puts back one nonce, to where it was. *)
Lemma revert_ages t d d' : failed t d d' -> ages d d' -> ages d (revert (sender_snapshot t d) d').
Proof.
  intros Hf Ha a H0' H2'. unfold revert, sender_snapshot. destruct (tx_sender t) as [s|]; cbn [mbind option_bind]; [|by apply Ha].
  destruct (accounts d !! s) as [x|] eqn:Ex; cbn [mbind option_bind]; [|by apply Ha].
  destruct (fa_kept _ _ _ Hf s) as [y Ey]; [by eexists|]. rewrite modify_upsert by (rewrite Ey; by eexists).
  rewrite nonce_upsert. case_decide as Es; [|by apply Ha]. subst s. cbn.
  assert (E : nonce_of d a = a_nonce x) by (unfold nonce_of, at_key; by rewrite Ex). rewrite E in *. lia.
Qed.

(** Whether the transaction of a step went through. *)
Definition executed (e : Z) (r : BlockRun) (t : Transaction) : bool := txs_executed r <? txs_executed (run_tx e r t).

Lemma run_tx_advances e r t :
  books_ok (db (machine_of r)) -> amounts_ok t ->
  ages (db (machine_of r)) (db (machine_of (run_tx e r t))) /\
  (executed e r t = true -> forall a n, consumes t = Some (a, n) ->
     nonce_of (db (machine_of r)) a = n /\ (0 <= n -> n + 2 <= U64_MAX -> n + 1 <= nonce_of (db (machine_of (run_tx e r t))) a)).
Proof.
  intros Hb Ha. unfold executed, run_tx. destruct (verify_tx_signature _ t) as [u0|e0]; [|split; [apply ages_refl|cbn; rewrite Z.ltb_irrefl; done]].
  cbv zeta. destruct (exceeds_block_gas _ _ _); [split; [apply ages_refl|cbn; rewrite Z.ltb_irrefl; done]|].
  pose proof (charge_fee_nonces t e (machine_of r)) as Hn. pose proof (charge_fee_ledger t e (machine_of r) Hb) as Hc.
  destruct (charge_fee t e (machine_of r)) as [m [fee|]]; cbn [fst] in Hn.
  2: { split; [intros a ? ?; cbn; rewrite Hn; lia|cbn; rewrite Z.ltb_irrefl; done]. }
  destruct Hc as [_ [Hbm _]]. pose proof (dispatch_concludes t e m Hbm Ha) as Hd. pose proof (dispatch_advances t e m) as Hadv.
  destruct (dispatch t e m) as [m' [u|err]]; cbn [concludes advances_m] in *; destruct Hadv as [H1' H2']; cbn [machine_of txs_executed].
  - destruct u. split; [intros a ? ?; rewrite <- Hn in *; by apply H1'|]. intros _ a n E. destruct (H2' eq_refl a n E) as [E1 E2].
    by rewrite <- Hn.
  - split; [|rewrite Z.ltb_irrefl; done]. intros a ? ?. cbn [with_db db]. rewrite <- Hn in *.
    by apply (revert_ages t (db m) (db m') Hd H1').
Qed.

(** Nonces over many transactions. *)
Lemma run_ages e txs r a :
  books_ok (db (machine_of r)) -> Forall amounts_ok txs -> nonce_of (db (machine_of r)) a + 2 * Z.of_nat (length txs) <= U64_MAX ->
  nonce_of (db (machine_of r)) a <= nonce_of (db (machine_of (foldl (run_tx e) r txs))) a.
Proof.
  intros Hb Hall. revert r Hb. induction Hall as [|t txs Ht _ IH]; intros r Hb Hle; cbn [foldl]; [lia|].
  cbn [length] in Hle. destruct (run_tx_ledger e r t Hb Ht) as [[Hb1 _] _].
  destruct (run_tx_advances e r t Hb Ht) as [Hag _].
  assert (Hn : 0 <= nonce_of (db (machine_of r)) a).
  { rewrite nonce_found. destruct (found_ok (db (machine_of r)) a Hb) as [_ Hx _ _]. u64_lia. }
  specialize (Hag a Hn ltac:(lia)). etrans; [apply Hag|]. apply IH; [done|lia].
Qed.

End transactions.
