(* ===== verification/Authorisation.v ===== *)
(** * Who can take money out of an account

    With signatures on, a transaction takes money only from the account whose
    key signed it, or from the paymaster it names. *)

From stdpp Require Import base gmap list strings sorting.
From Stdlib Require Import ZArith Lia.
From S2P Require Import Prelude Energy DecayCurves Trie Mmr Validators Mempool Tendermint ScriptValue ScriptVM ScriptCompiler ScriptEngine Transactions Types StateDB Lifecycle Fees Temporal Executor Governance BlockExecutor Ledger Nonces.

Open Scope Z_scope.

Section rules.
Context `{Blake3, Pallas, HashOrder}.

Lemma balance_upsert f a b d :
  balance_of (upsert_account f a d) b = if decide (a = b) then a_balance (f (found d a)) else balance_of d b.
Proof.
  rewrite !balance_found. case_decide as E; [subst b; by rewrite upsert_found|by rewrite upsert_found_ne].
Qed.

Lemma balance_upsert_quiet f a b d : (forall x, a_balance (f x) = a_balance x) -> balance_of (upsert_account f a d) b = balance_of d b.
Proof. intros Hf. rewrite balance_upsert. case_decide as E; [subst b; by rewrite Hf, balance_found|done]. Qed.

Lemma balance_modify f a b d : a <> b -> balance_of (modify_account f a d) b = balance_of d b.
Proof. intros Hn. unfold balance_of, at_key. by rewrite accounts_modify, lookup_alter_ne. Qed.

Lemma balance_modify_quiet f a b d : (forall x, a_balance (f x) = a_balance x) -> balance_of (modify_account f a d) b = balance_of d b.
Proof.
  intros Hf. destruct (decide (a = b)) as [<-|Hn]; [|by apply balance_modify].
  unfold balance_of, at_key. rewrite accounts_modify, lookup_alter_eq. destruct (accounts d !! a); cbn; [apply Hf|done].
Qed.

Lemma balance_opened a b d : balance_of (get_or_create_account d a) b = balance_of d b.
Proof. apply opened_idle. Qed.

Lemma balance_debit x e a b d :
  balance_of (upsert_account (debit x e) a d) b = if decide (a = b) then balance_of d a - x else balance_of d b.
Proof. rewrite balance_upsert, (balance_found d a). done. Qed.
Lemma balance_credit x e a b d :
  balance_of (upsert_account (credit x e) a d) b = if decide (a = b) then saturating_add (balance_of d a) x else balance_of d b.
Proof. rewrite balance_upsert, (balance_found d a). done. Qed.
Lemma balance_anchor n e a b d :
  balance_of (upsert_account (anchor_storage n e) a d) b = if decide (a = b) then balance_of d a - MIN_STORAGE_DEPOSIT else balance_of d b.
Proof. rewrite balance_upsert, (balance_found d a). done. Qed.
Lemma balance_pay_out x e a b d :
  balance_of (upsert_account (pay_out x e) a d) b = if decide (a = b) then wrapping_add (balance_of d a) x else balance_of d b.
Proof. rewrite balance_upsert, (balance_found d a). done. Qed.
Lemma balance_sponsorship x e a b d :
  balance_of (upsert_account (pay_sponsorship x e) a d) b = if decide (a = b) then saturating_sub (balance_of d a) x else balance_of d b.
Proof. rewrite balance_upsert, (balance_found d a). done. Qed.
Lemma balance_bump e a b d : balance_of (upsert_account (bump e) a d) b = balance_of d b.
Proof. by apply balance_upsert_quiet. Qed.
Lemma balance_bump_saturating e a b d : balance_of (upsert_account (bump_saturating e) a d) b = balance_of d b.
Proof. by apply balance_upsert_quiet. Qed.
Lemma balance_touch e a b d : balance_of (upsert_account (touch e) a d) b = balance_of d b.
Proof. by apply balance_upsert_quiet. Qed.
Lemma balance_modify_touch e a b d : balance_of (modify_account (touch e) a d) b = balance_of d b.
Proof. by apply balance_modify_quiet. Qed.
Lemma balance_modify_bump e a b d : balance_of (modify_account (bump_saturating e) a d) b = balance_of d b.
Proof. by apply balance_modify_quiet. Qed.

Lemma balance_put_stake r d b : balance_of (put_stake r d) b = balance_of d b.
Proof. done. Qed.
Lemma balance_remove_stake i d b : balance_of (remove_stake i d).1 b = balance_of d b.
Proof. done. Qed.
Lemma balance_put_delegation r d b : balance_of (put_delegation r d) b = balance_of d b.
Proof. done. Qed.
Lemma balance_remove_delegation i j d b : balance_of (remove_delegation i j d).1 b = balance_of d b.
Proof. done. Qed.
Lemma balance_put_proposal p d b : balance_of (put_proposal p d) b = balance_of d b.
Proof. done. Qed.
Lemma balance_put_object o d b : balance_of (put_object o d) b = balance_of d b.
Proof. done. Qed.
End rules.

Create Rewrite HintDb balances.
#[export] Hint Rewrite @balance_opened @balance_debit @balance_credit @balance_anchor @balance_pay_out @balance_sponsorship
  @balance_bump @balance_bump_saturating @balance_touch @balance_modify_touch @balance_modify_bump @balance_put_stake
  @balance_remove_stake @balance_put_delegation @balance_remove_delegation @balance_put_proposal @balance_put_object : balances.

(** The accounts that may pay for a transaction. *)
Definition operator (t : Transaction) : option bytes := match t with UserOp tx => Some (uo_sender tx) | _ => None end.
Definition payers (t : Transaction) (a : bytes) : Prop := tx_sender t = Some a \/ operator t = Some a.

(** Nobody else has less than before. *)
Definition spares (t : Transaction) (d d' : InMemoryStateDB) : Prop :=
  forall a, ~ payers t a -> balance_of d a <= balance_of d' a.

Lemma not_payer t a s : tx_sender t = Some s -> ~ payers t a -> s <> a.
Proof. intros E Hn <-. apply Hn. by left. Qed.

Ltac sparing t :=
  let a := fresh "a" in let Ha := fresh "Ha" in
  intros a Ha; apply (not_payer t a _ eq_refl) in Ha;
  match goal with Hr : forall _, is_u64 _ |- _ => pose proof (Hr a) end;
  autorewrite with balances; repeat case_decide; try congruence; try (rewrite balance_modify by done); autorewrite with balances;
  repeat case_decide; try congruence; u64_unfold; subst; lia.

Ltac branches :=
  repeat first
    [ rewrite open_account_eq
    | match goal with |- context [if ?c then _ else _] => destruct c end
    | match goal with |- context [match ?x with _ => _ end] => destruct x end ].

Section operations.
Context `{Blake3, Pallas, HashOrder, F64Parse}.
Context (d : InMemoryStateDB) (e : Z) (range : forall a, is_u64 (balance_of d a)).

Definition spares_r (t : Transaction) (r : InMemoryStateDB * result unit ExecutionError) : Prop := let '(d', _) := r in spares t d d'.

Lemma transfer_spares tx : 0 <= tr_amount tx -> spares_r (Transfer tx) (execute_transfer tx e d).
Proof. intros. unfold execute_transfer. cbv zeta. branches; cbn [spares_r]; sparing (Transfer tx). Qed.

Lemma refund_spares tx : 0 <= re_amount tx -> spares_r (Refund tx) (execute_refund tx e d).
Proof. intros. unfold execute_refund. cbv zeta. branches; cbn [spares_r]; sparing (Refund tx). Qed.

Lemma create_spares tx : spares_r (CreateObject tx) (execute_create_object tx e d).
Proof. unfold execute_create_object, charge_deposit. cbv zeta. branches; cbn [spares_r]; sparing (CreateObject tx). Qed.

Lemma stake_spares tx : spares_r (ValidatorStake tx) (execute_validator_stake tx e d).
Proof. unfold execute_validator_stake. cbv zeta. branches; cbn [spares_r]; sparing (ValidatorStake tx). Qed.

Lemma exit_spares tx : spares_r (ValidatorExit tx) (execute_validator_exit tx e d).
Proof. unfold execute_validator_exit. cbv zeta. branches; cbn [spares_r]; sparing (ValidatorExit tx). Qed.

Lemma claim_stake_spares tx : spares_r (ValidatorClaimStake tx) (execute_validator_claim_stake tx e d).
Proof. unfold execute_validator_claim_stake. cbv zeta. branches; cbn [spares_r]; sparing (ValidatorClaimStake tx). Qed.

Lemma delegate_spares tx : spares_r (Delegate tx) (execute_delegate tx e d).
Proof. unfold execute_delegate. cbv zeta. branches; cbn [spares_r]; sparing (Delegate tx). Qed.

Lemma undelegate_spares tx : spares_r (Undelegate tx) (execute_undelegate tx e d).
Proof. unfold execute_undelegate. cbv zeta. branches; cbn [spares_r]; sparing (Undelegate tx). Qed.

Lemma claim_delegation_spares tx : spares_r (ClaimDelegation tx) (execute_claim_delegation tx e d).
Proof. unfold execute_claim_delegation. cbv zeta. branches; cbn [spares_r]; sparing (ClaimDelegation tx). Qed.

Lemma multisig_spares tx : spares_r (MultiSig tx) (execute_multisig tx e d).
Proof. unfold execute_multisig. cbv zeta. branches; cbn [spares_r]; sparing (MultiSig tx). Qed.

Lemma governance_spares tx : spares_r (Transactions.Governance tx) (execute_governance tx e d).
Proof. unfold execute_governance, create_proposal, cast_vote. cbv zeta. branches; cbn [spares_r]; sparing (Transactions.Governance tx). Qed.
End operations.

Section transactions.
Context `{CurveJson, Blake3, Pallas, HybridVerifier, BlsKeys, HashOrder, Hex, StrDebug, F64Parse}.
Context `{!Json, !JsonTyped, !ScriptParser, !AppTemplates, !MlDsa}.
Context {C : Type} `{!ContractTemplates C}.

Implicit Types m : Machine C.

Definition spares_m (t : Transaction) m (r : Machine C * result unit ExecutionError) : Prop :=
  let '(m', _) := r in spares t (db m) (db m').

Lemma on_db_spares t f m : spares_r (db m) t (f (db m)) -> spares_m t m (on_db f m).
Proof. unfold on_db. by destruct (f (db m)). Qed.

Lemma same_balances t m m' o : (forall a, balance_of (db m') a = balance_of (db m) a) -> spares_m t m (m', o).
Proof. intros E a _. rewrite E. lia. Qed.

Lemma idle_spares t m m' o : idle (db m) (db m') -> spares_m t m (m', o).
Proof. intros Hi. apply same_balances, Hi. Qed.

Lemma charge_deposit_others a n e d b : a <> b -> balance_of (charge_deposit a n e d).1 b = balance_of d b.
Proof.
  intros Hn. unfold charge_deposit. rewrite open_account_eq. destruct (_ <? _); cbn [fst]; autorewrite with balances; [done|].
  by case_decide.
Qed.

Lemma deploy_contract_spares tx e m : spares_m (DeployContract tx) m (execute_deploy_contract tx e m).
Proof.
  unfold execute_deploy_contract. do 3 (destruct (negb _); [by apply same_balances|]). cbv zeta. set (n := saturating_add _ (from_option _ _ _)).
  pose proof (fun b => charge_deposit_others (dc_deployer tx) n e (db m) b) as Hc.
  destruct (charge_deposit _ _ _ _) as [d [u|err]]; [destruct (template_deploy _ _ _) as [c []]|];
    (intros a Ha; apply (not_payer (DeployContract tx) a _ eq_refl), Hc in Ha; cbn in *; lia).
Qed.

Lemma deploy_script_spares tx e m : spares_m (DeployScript tx) m (execute_deploy_script tx e m).
Proof.
  unfold execute_deploy_script. set (n := saturating_add _ _).
  pose proof (fun b => charge_deposit_others (ds_deployer tx) n e (db m) b) as Hc.
  destruct (charge_deposit _ _ _ _) as [d [u|err]]; cbv zeta;
    [destruct (if bool_decide _ then _ else _); [destruct (ScriptEngine.deploy _ _ _ _ _ _ _) as [s []]|]|];
    (intros b Ha; apply (not_payer (DeployScript tx) b _ eq_refl), Hc in Ha; cbn in *; lia).
Qed.

Lemma stamp_spares t caller e m r : db r.1 = db m -> spares_m t m (stamp_caller caller e r).
Proof.
  intros E. destruct r as [m' [u|err]]; cbn [stamp_caller fst] in *; apply same_balances; intros a; [|by rewrite E].
  cbn [with_db db]. by rewrite balance_modify_touch, E.
Qed.

Lemma check_paymaster_balances chain tx pm d a : balance_of (check_paymaster chain tx pm d).1 a = balance_of d a.
Proof. unfold check_paymaster. branches; cbn [fst]; by autorewrite with balances. Qed.

(** The intent inside takes from the sender only. *)
Lemma inner_spares tx e m :
  (forall a, is_u64 (balance_of (db m) a)) -> forall a, uo_sender tx <> a ->
  balance_of (db m) a <= balance_of (db (execute_inner tx e m).1) a.
Proof.
  intros Hr a Ha. unfold execute_inner. destruct (tx_of_json _) as [t|] eqn:E; [|cbn; lia].
  destruct t; try (cbn; lia).
  - pose proof (tx_of_json_typed _ _ E) as Ht. cbn in Ht. pose proof (Hr a). unfold on_db, execute_inner_transfer.
    case_bool_decide; [cbn; lia|]. branches; cbn [fst with_db db]; autorewrite with balances; repeat case_decide; try congruence;
      u64_unfold; subst; try lia.
  - case_bool_decide; [cbn; lia|]. rewrite call_contract_db. lia.
  - case_bool_decide; [cbn; lia|]. rewrite call_script_db. lia.
Qed.

Lemma user_op_spares tx e m : books_ok (db m) -> 0 <= uo_call_gas_limit tx -> spares_m (UserOp tx) m (execute_user_op tx e m).
Proof.
  intros Hb Hg. unfold execute_user_op. rewrite open_account_eq.
  destruct (negb _); [apply same_balances; intros; apply balance_opened|].
  set (r := match uo_paymaster tx with Some _ => _ | None => _ end).
  assert (Hr : forall a, balance_of r.1 a = balance_of (db m) a).
  { intros a. unfold r. destruct (uo_paymaster tx); [rewrite check_paymaster_balances|cbn [fst]]; apply balance_opened. }
  clearbody r. destruct r as [d [u|err]]; cbn [fst] in Hr; [|by apply same_balances]. cbv zeta.
  set (d2 := match uo_paymaster tx with Some _ => _ | None => _ end).
  assert (Hd : forall a, ~ payers (UserOp tx) a -> balance_of d2 a = balance_of (db m) a).
  { intros a Hn. unfold d2. destruct (uo_paymaster tx) as [pm|] eqn:Hpm; autorewrite with balances; rewrite ?Hr; [|done].
    case_decide as E; [|done]. subst pm. destruct Hn. left. cbn. by rewrite Hpm. }
  assert (Hrange : forall a, is_u64 (balance_of d2 a)).
  { intros a. unfold d2. assert (Hx : is_u64 (balance_of (db m) a)) by (rewrite balance_found; apply found_ok, Hb).
    destruct (uo_paymaster tx); autorewrite with balances; rewrite ?Hr; [|done]. case_decide; [subst|done]. u64_unfold.
    pose proof (cost_pos tx Hg). lia. }
  clearbody d2. case_bool_decide; [intros a Hn; cbn; rewrite Hd by done; lia|].
  pose proof (inner_spares tx e (with_db d2 m) Hrange) as Hin. destruct (execute_inner _ _ _) as [m' o]. cbn [fst with_db db] in *.
  intros a Hn. rewrite <- (Hd a Hn). apply Hin. intros <-. apply Hn. by right.
Qed.

Lemma upgrade_spares tx e m : spares_m (UpgradeContract tx) m (execute_upgrade_contract tx e m).
Proof.
  unfold execute_upgrade_contract. rewrite open_account_eq. destruct (negb _); [apply same_balances; intros; apply balance_opened|].
  cbv zeta. branches; apply same_balances; intros; cbn [with_db with_ex db]; by autorewrite with balances.
Qed.

Lemma rotation_spares tx e m : spares_m (RotateValidatorKey tx) m (execute_rotation tx e m).
Proof.
  unfold execute_rotation. cbv zeta. branches; apply same_balances; intros; cbn [add_rotation with_db db]; by autorewrite with balances.
Qed.

(** Executing a transaction takes from its payers only. *)
Lemma dispatch_spares t e m : books_ok (db m) -> amounts_ok t -> spares_m t m (dispatch t e m).
Proof.
  intros Hb Ha. assert (Hr : forall a, is_u64 (balance_of (db m) a)) by (intros a; rewrite balance_found; apply found_ok, Hb).
  destruct t as [tx|tx|tx|tx|tx|tx|tx|tx|tx|tx|tx|tx|tx|tx|tx|tx|tx|tx|tx|tx|tx|tx|tx|tx|tx]; cbn [dispatch amounts_ok] in *;
    try (by apply same_balances).
  - apply on_db_spares, transfer_spares; [done|u64_lia].
  - unfold on_db. destruct (refresh_tx_view tx e (db m)) as [Ea _]. destruct (execute_refresh_tx tx e (db m)) as [d o].
    apply same_balances. intros a. unfold balance_of. cbn [with_db db fst] in *. by rewrite Ea.
  - by apply on_db_spares, create_spares.
  - apply deploy_contract_spares.
  - apply stamp_spares, call_contract_db.
  - apply deploy_script_spares.
  - apply stamp_spares, call_script_db.
  - by apply on_db_spares, stake_spares.
  - by apply on_db_spares, exit_spares.
  - by apply on_db_spares, claim_stake_spares.
  - unfold submit_deferred. destruct (Temporal.submit _ _) as [q []]; by apply same_balances.
  - by apply on_db_spares, governance_spares.
  - by apply on_db_spares, multisig_spares.
  - apply user_op_spares; [done|u64_lia].
  - apply upgrade_spares.
  - by apply on_db_spares, delegate_spares.
  - by apply on_db_spares, undelegate_spares.
  - apply rotation_spares.
  - by apply on_db_spares, claim_delegation_spares.
  - apply on_db_spares, refund_spares; [done|u64_lia].
  - unfold execute_deploy_template. destruct (app_template_ok tx); apply same_balances; [|done]. intros a.
    cbn [with_db db]. apply balance_modify_touch.
Qed.
Lemma charge_fee_others t e m a : tx_sender t <> Some a -> balance_of (db (charge_fee t e m).1) a = balance_of (db m) a.
Proof.
  intros Hn. unfold charge_fee. destruct (fee_controller (ex m)); [|done]. cbv zeta. destruct (tx_sender t) as [s|]; [|done].
  rewrite open_account_eq. destruct (_ <? _); cbn [fst with_db db]; autorewrite with balances; [done|].
  case_decide; [congruence|done].
Qed.

(** The fee, to the token. *)
Lemma charge_fee_exact t e m :
  let '(m', o) := charge_fee t e m in
  stakes (db m') = stakes (db m) /\ delegations (db m') = delegations (db m) /\
  match o with
  | Some fee => (fee = 0 \/ exists fc, fee_controller (ex m) = Some fc /\ fee = total_tx_fee fc t) /\
      forall a, balance_of (db m') a = balance_of (db m) a - (if decide (tx_sender t = Some a) then fee else 0)
  | None => True /\ forall a, balance_of (db m') a = balance_of (db m) a
  end.
Proof.
  unfold charge_fee. destruct (fee_controller (ex m)) as [fc|].
  2: { split_and!; [done|done|by left|]. intros a. destruct (decide _); lia. }
  cbv zeta. destruct (tx_sender t) as [s|].
  2: { split_and!; [done|done|right; by exists fc|]. intros a. rewrite decide_False by done. lia. }
  rewrite open_account_eq. destruct (opened_books s (db m)) as [Es Ed _ _].
  destruct (upsert_books (debit (total_tx_fee fc t) e) s (get_or_create_account (db m) s)) as [Es' Ed' _ _].
  destruct (_ <? _); cbn [with_db db].
  - split_and!; [done|done|done|]. intros a. apply balance_opened.
  - split_and!; [congruence|congruence|right; by exists fc|]. intros a. autorewrite with balances.
    destruct (decide (s = a)) as [->|Hn]; [by rewrite decide_True|rewrite decide_False by congruence; lia].
Qed.

(** The whole step takes from the payers only. *)
Lemma run_tx_spares e r t :
  books_ok (db (machine_of r)) -> amounts_ok t -> spares t (db (machine_of r)) (db (machine_of (run_tx e r t))).
Proof.
  intros Hb Ht a Hn. unfold run_tx. destruct (verify_tx_signature _ t) as [u0|e0]; [|cbn; lia]. cbv zeta.
  destruct (exceeds_block_gas _ _ _); [cbn; lia|].
  assert (Hs : tx_sender t <> Some a) by (intros E; apply Hn; by left).
  pose proof (charge_fee_others t e (machine_of r) a Hs) as Hc. pose proof (charge_fee_ledger t e (machine_of r) Hb) as Hl.
  destruct (charge_fee t e (machine_of r)) as [m [fee|]]; cbn [fst] in Hc; [|cbn; lia]. destruct Hl as [_ [Hbm _]].
  pose proof (dispatch_spares t e m Hbm Ht) as Hd. pose proof (dispatch_concludes t e m Hbm Ht) as Hk.
  destruct (dispatch t e m) as [m' [u|err]]; cbn [spares_m concludes] in *; cbn [machine_of].
  - specialize (Hd a Hn). lia.
  - cbn [with_db db]. destruct (revert_idle t (db m) (db m') Hbm Hk) as [_ Hi]. rewrite (id_balances _ _ Hi). lia.
Qed.

(** ** The configuration stays *)

Definition config (x : SimpleExecutor C) : bool * string * Z * option PidFeeController :=
  (verify_signatures x, chain_id x, block_gas_limit x, fee_controller x).

Lemma call_contract_config tx m : config (ex (execute_call_contract tx m).1) = config (ex m).
Proof. unfold execute_call_contract. cbv zeta. branches; done. Qed.

Lemma call_script_config tx m : config (ex (execute_call_script tx m).1) = config (ex m).
Proof. unfold execute_call_script. cbv zeta. branches; done. Qed.

Lemma on_db_config f m : config (ex (on_db f m).1) = config (ex m).
Proof. unfold on_db. by destruct (f (db m)). Qed.

Lemma stamp_config caller e m r : config (ex r.1) = config (ex m) -> config (ex (stamp_caller caller e r).1) = config (ex m).
Proof. by destruct r as [m' []]. Qed.

Lemma inner_config tx e m : config (ex (execute_inner tx e m).1) = config (ex m).
Proof.
  unfold execute_inner. destruct (tx_of_json _) as [[]|]; try done.
  - apply on_db_config.
  - case_bool_decide; [done|]. apply call_contract_config.
  - case_bool_decide; [done|]. apply call_script_config.
Qed.

Lemma user_op_config tx e m : config (ex (execute_user_op tx e m).1) = config (ex m).
Proof.
  unfold execute_user_op. rewrite open_account_eq. destruct (negb _); [done|].
  destruct (match uo_paymaster tx with Some _ => _ | None => _ end) as [d [u|err]]; [|done]. cbv zeta.
  case_bool_decide; [done|]. by rewrite inner_config.
Qed.

(** No transaction changes what the executor checks. *)
Lemma dispatch_config t e m : config (ex (dispatch t e m).1) = config (ex m).
Proof.
  destruct t as [tx|tx|tx|tx|tx|tx|tx|tx|tx|tx|tx|tx|tx|tx|tx|tx|tx|tx|tx|tx|tx|tx|tx|tx|tx]; cbn [dispatch];
    try done; try apply on_db_config.
  - unfold execute_deploy_contract. cbv zeta. branches; done.
  - apply stamp_config, call_contract_config.
  - unfold execute_deploy_script. cbv zeta. branches; done.
  - apply stamp_config, call_script_config.
  - unfold submit_deferred. branches; done.
  - apply user_op_config.
  - unfold execute_upgrade_contract. cbv zeta. branches; done.
  - unfold execute_rotation. cbv zeta. branches; done.
  - unfold execute_deploy_template. by destruct (app_template_ok tx).
Qed.

Lemma charge_fee_config t e m : config (ex (charge_fee t e m).1) = config (ex m).
Proof. unfold charge_fee. cbv zeta. branches; done. Qed.

Lemma run_tx_config e r t : config (ex (machine_of (run_tx e r t))) = config (ex (machine_of r)).
Proof.
  unfold run_tx. destruct (verify_tx_signature _ t); [|done]. cbv zeta. destruct (exceeds_block_gas _ _ _); [done|].
  pose proof (charge_fee_config t e (machine_of r)) as Hc. destruct (charge_fee t e (machine_of r)) as [m [fee|]]; [|done].
  pose proof (dispatch_config t e m) as Hd. destruct (dispatch t e m) as [m' []]; cbn in *; congruence.
Qed.

Lemma saturating_nonneg a b : 0 <= a -> 0 <= b -> 0 <= saturating_add a b /\ 0 <= saturating_mul a b.
Proof. intros. u64_unfold. split; nia. Qed.

Lemma exec_gas_nonneg t : 0 <= exec_gas t.
Proof.
  assert (Hl : forall {A} (l : list A), 0 <= count l) by (intros; unfold count; lia).
  assert (Hs : forall x, 0 <= ssize x) by (intros; unfold ssize; lia).
  assert (Hb : forall x, 0 <= Mempool.size x) by (intros; unfold Mempool.size; lia).
  assert (Hw : forall x y, 0 <= wrapping_mul x y) by (intros; apply as_u64_range).
  destruct t; cbn [exec_gas]; try done; try (apply saturating_nonneg; [done|]); try apply Hw;
    try (apply saturating_nonneg; [done|]); auto.
  unfold estimate_private_transfer_gas. do 2 (apply saturating_nonneg; [|apply saturating_nonneg; auto; done]); done.
Qed.

(** A block never uses more gas than its limit, by the transactions that go
    through; the sum does not wrap. *)
Theorem gas_within_limit e txs m :
  0 < block_gas_limit (ex m) <= U64_MAX ->
  let r := run_txs e txs m in 0 <= gas_used r <= block_gas_limit (ex m).
Proof.
  intros Hl. unfold run_txs. cbv zeta.
  assert (Hinv : forall r, config (ex (machine_of r)) = config (ex m) -> 0 <= gas_used r <= block_gas_limit (ex m) ->
    0 <= gas_used (foldl (run_tx e) r txs) <= block_gas_limit (ex m)).
  2: { apply Hinv; cbn; [done|lia]. }
  induction txs as [|t txs IH]; intros r Hc Hg; cbn [foldl]; [done|].
  apply IH; [by rewrite run_tx_config|]. unfold run_tx. destruct (verify_tx_signature _ t); [|done]. cbv zeta.
  injection Hc as _ _ Hlim _. rewrite Hlim. destruct (exceeds_block_gas _ _ _) eqn:Ex; [done|].
  destruct (charge_fee t e (machine_of r)) as [m1 [fee|]]; [|done]. destruct (dispatch t e m1) as [m' []]; cbn; [|done].
  unfold exceeds_block_gas, checked_add in Ex. destruct (Z.ltb_spec 0 (block_gas_limit (ex m))); [|lia]. cbn [andb] in Ex.
  pose proof (exec_gas_nonneg t).
  destruct (_ <=? _) eqn:Ele in Ex; [|done]. zbool. unfold wrapping_add. rewrite as_u64_small; u64_unfold; lia.
Qed.

Definition signed_for (chain : string) (a : bytes) (t : Transaction) : Prop :=
  exists sig pk, tx_signature t = Some sig /\ tx_public_key t = Some pk /\
    hybrid_verify (signing_message chain t) sig pk = true /\
    (address_from_pubkey pk = a \/ exists tx, t = UserOp tx /\ uo_paymaster tx = Some a).

Lemma debit_signed e r t a :
  books_ok (db (machine_of r)) -> amounts_ok t -> verify_signatures (ex (machine_of r)) = true ->
  balance_of (db (machine_of (run_tx e r t))) a < balance_of (db (machine_of r)) a ->
  signed_for (chain_id (ex (machine_of r))) a t.
Proof.
  intros Hb Ht Hv Hlt.
  destruct (decide (tx_sender t = Some a)) as [Hs|Hs].
  2: destruct (decide (operator t = Some a)) as [Hu|Hu].
  3: { pose proof (run_tx_spares e r t Hb Ht a) as Hsp. specialize (Hsp ltac:(by intros [?|?])). lia. }
  all: revert Hlt; unfold run_tx; destruct (verify_tx_signature (ex (machine_of r)) t) as [u0|e0] eqn:Ev; [intros _|cbn; lia].
  all: unfold verify_tx_signature in Ev; rewrite Hv in Ev; cbn [negb orb] in Ev.
  all: destruct (zk_authenticated t) eqn:Ez; [by destruct t|].
  all: destruct (tx_signature t) as [sig|] eqn:Es; [|done]; destruct (tx_public_key t) as [pk|] eqn:Ep; [|done].
  all: destruct (hybrid_verify _ sig pk) eqn:Eh; [|done]; cbn [negb] in Ev.
  all: exists sig, pk; split_and!; [done|done|done|].
  - destruct t as [tx|tx|tx|tx|tx|tx|tx|tx|tx|tx|tx|tx|tx|tx|tx|tx|tx|tx|tx|tx|tx|tx|tx|tx|tx]; cbn [tx_sender binding_addr from_option] in *;
      try (injection Hs as Hs); try discriminate; try (left; rewrite <- Hs; by case_bool_decide).
    destruct (uo_paymaster tx) as [pm|] eqn:Epm; injection Hs as <-; [right; by exists tx|left; by case_bool_decide].
  - destruct t; try done. injection Hu as <-. cbn [binding_addr from_option] in Ev. left. by case_bool_decide.
Qed.


(** C21: a transaction that does not go through costs at most its fee.  Whatever it
    did before it failed, every balance is back where it was, less the fee for
    its sender; stakes and delegations are untouched, and nothing is charged when
    the signature, the gas limit or the balance refused it. *)
Theorem failure_costs_fee e r t :
  books_ok (db (machine_of r)) -> amounts_ok t -> executed e r t = false ->
  let d := db (machine_of r) in let d' := db (machine_of (run_tx e r t)) in
  stakes d' = stakes d /\ delegations d' = delegations d /\
  exists fee, (fee = 0 \/ exists fc, fee_controller (ex (machine_of r)) = Some fc /\ fee = total_tx_fee fc t) /\
    forall a, balance_of d' a = balance_of d a - (if decide (tx_sender t = Some a) then fee else 0).
Proof.
  intros Hb Ht Hx. cbv zeta. revert Hx. unfold executed, run_tx.
  assert (Hskip : exists fee, (fee = 0 \/ exists fc, fee_controller (ex (machine_of r)) = Some fc /\ fee = total_tx_fee fc t) /\
    forall a, balance_of (db (machine_of r)) a = balance_of (db (machine_of r)) a - (if decide (tx_sender t = Some a) then fee else 0)).
  { exists 0. split; [by left|]. intros a. destruct (decide _); lia. }
  destruct (verify_tx_signature _ t) as [u0|e0]; [|done]. cbv zeta. destruct (exceeds_block_gas _ _ _); [done|].
  pose proof (charge_fee_exact t e (machine_of r)) as Hc. pose proof (charge_fee_ledger t e (machine_of r) Hb) as Hl.
  destruct (charge_fee t e (machine_of r)) as [m [fee|]]; destruct Hc as (Es & Ed & Hfee & Hbal).
  2: { intros _. split_and!; [done|done|]. exists 0. split; [by left|]. intros a. cbn [machine_of skipped]. rewrite Hbal. destruct (decide _); lia. }
  destruct Hl as [_ [Hbm _]]. pose proof (dispatch_concludes t e m Hbm Ht) as Hk.
  destruct (dispatch t e m) as [m' [u|err]]; cbn [machine_of txs_executed concludes with_db db] in *.
  { rewrite Z.ltb_ge. lia. }
  intros _. destruct (revert_idle t (db m) (db m') Hbm Hk) as [_ [_ Hib His Hid]].
  split_and!; [congruence|congruence|]. exists fee. split; [done|]. intros a. by rewrite Hib, Hbal.
Qed.

(** The exception: the fee of a user operation is taken from the paymaster it
    names before the sponsorship is looked at, and stays taken when the
    operation is refused.  Anybody can make an account pay for an operation it
    never signed. *)
Theorem forged_paymaster_pays e r tx victim fc :
  books_ok (db (machine_of r)) -> 0 <= uo_call_gas_limit tx -> fee_controller (ex (machine_of r)) = Some fc ->
  uo_paymaster tx = Some victim -> uo_paymaster_signature tx = None ->
  verify_tx_signature (ex (machine_of r)) (UserOp tx) = Ok tt ->
  exceeds_block_gas (block_gas_limit (ex (machine_of r))) (gas_used r) (exec_gas (UserOp tx)) = false ->
  total_tx_fee fc (UserOp tx) <= balance_of (db (machine_of r)) victim ->
  balance_of (db (machine_of (run_tx e r (UserOp tx)))) victim =
    balance_of (db (machine_of r)) victim - total_tx_fee fc (UserOp tx).
Proof.
  intros Hb Hg Hfc Hpm Hsig Hv Hx Hle. unfold run_tx. rewrite Hv. cbv zeta. rewrite Hx.
  assert (Hc : charge_fee (UserOp tx) e (machine_of r) =
    (with_db (upsert_account (debit (total_tx_fee fc (UserOp tx)) e) victim (get_or_create_account (db (machine_of r)) victim)) (machine_of r),
     Some (total_tx_fee fc (UserOp tx)))).
  { unfold charge_fee. rewrite Hfc. cbn [tx_sender]. rewrite Hpm, open_account_eq. rewrite balance_found in Hle.
    destruct (Z.ltb_spec (a_balance (found (db (machine_of r)) victim)) (total_tx_fee fc (UserOp tx))); [lia|done]. }
  pose proof (charge_fee_ledger (UserOp tx) e (machine_of r) Hb) as Hl. rewrite Hc in *. destruct Hl as [_ [Hbm _]].
  set (m := with_db _ (machine_of r)) in *.
  assert (Hbal : balance_of (db m) victim = balance_of (db (machine_of r)) victim - total_tx_fee fc (UserOp tx)).
  { unfold m. cbn [with_db db]. autorewrite with balances. by rewrite decide_True. }
  clearbody m. pose proof (user_op_concludes tx e m Hbm Hg) as Hk. cbn [dispatch].
  assert (Herr : exists m' err, execute_user_op tx e m = (m', Err err)).
  { unfold execute_user_op. rewrite open_account_eq. destruct (negb _); [by do 2 eexists|]. rewrite Hpm. unfold check_paymaster.
    rewrite Hsig. destruct (uo_paymaster_nonce tx); by do 2 eexists. }
  destruct Herr as (m' & err & E). rewrite E in *. cbn [concludes] in Hk. cbn [machine_of with_db db].
  destruct (revert_idle (UserOp tx) (db m) (db m') Hbm Hk) as [_ Hi]. by rewrite (id_balances _ _ Hi).
Qed.
End transactions.
