(* ===== verification/ExecutorRuns.v ===== *)
(** * Runs of the executor

    Concrete blocks that show the theorems at work, and the runs in which the
    executor does what it means to prevent: taking over the stake of another
    validator, spending for somebody else through a deferred transaction,
    refunding a deposit nobody paid, voting several times with the same money,
    counting fees nobody paid. *)

From stdpp Require Import base gmap list strings sorting.
From Stdlib Require Import ZArith Lia.
From S2P Require Import Prelude Energy DecayCurves Trie Mmr Validators Mempool Tendermint TendermintRuns ScriptValue ScriptVM ScriptCompiler ScriptTokens ScriptText ScriptEngine ScriptSource Transactions Types StateDB Lifecycle Fees Temporal Executor Governance BlockExecutor Ledger Nonces Authorisation.

Open Scope Z_scope.

(** ** Taking over a stake *)

Definition stake_tx (a : bytes) (amount id nonce : Z) : ValidatorStakeTx :=
  {| vs_validator_address := a; vs_stake_amount := amount; vs_validator_id := id; vs_nonce := nonce;
     vs_bls_public_key := None; vs_vrf_public_key := None; vs_signature := None; vs_public_key := None |}.
Definition exit_tx (a : bytes) (id nonce : Z) : ValidatorExitTx :=
  {| ve_validator_address := a; ve_validator_id := id; ve_nonce := nonce; ve_signature := None; ve_public_key := None |}.
Definition claim_tx (a : bytes) (id nonce : Z) : ValidatorClaimStakeTx :=
  {| vc_validator_address := a; vc_validator_id := id; vc_nonce := nonce; vc_signature := None; vc_public_key := None |}.

Section takeover.
Context `{Blake3, Pallas, HashOrder}.

(** Staking on an identifier that is taken, as the executor does it. *)
Lemma restake d a amount id n e :
  0 < amount -> n = nonce_of d a -> amount <= transferable_balance (found d a) e ->
  execute_validator_stake (stake_tx a amount id n) e d =
    (put_stake {| s_validator_id := id; s_validator_address := a;
                  s_staked_amount := wrapping_add (at_key s_staked_amount (stakes d) id) amount;
                  s_staked_at_epoch := e; s_unbonding_epoch := None; s_slashed_amount := 0 |}
       (upsert_account (bump e) a (upsert_account (debit amount e) a (get_or_create_account d a))), Ok tt).
Proof.
  intros Ha -> Hle. unfold execute_validator_stake. cbn [stake_tx vs_stake_amount vs_validator_address vs_nonce vs_validator_id].
  destruct (Z.eqb_spec amount 0); [lia|]. rewrite open_account_eq, nonce_found, Z.eqb_refl. cbn [negb].
  destruct (Z.ltb_spec (transferable_balance (found d a) e) amount); [lia|]. cbv zeta.
  unfold at_key. rewrite !(sb_stakes _ _ (upsert_books _ _ _)), (sb_stakes _ _ (opened_books _ _)). done.
Qed.

Lemma exit_ok d a id n e r :
  n = nonce_of d a -> stakes d !! id = Some r -> s_validator_address r = a -> s_unbonding_epoch r = None ->
  execute_validator_exit (exit_tx a id n) e d =
    (put_stake (set_unbonding (Some (wrapping_add e UNBONDING_PERIOD_EPOCHS)) r)
       (upsert_account (bump e) a (get_or_create_account d a)), Ok tt).
Proof.
  intros -> Hr Ha Hu. unfold execute_validator_exit. cbn [exit_tx ve_validator_address ve_nonce ve_validator_id].
  rewrite open_account_eq, nonce_found, Z.eqb_refl. cbn [negb]. cbv zeta.
  rewrite (sb_stakes _ _ (upsert_books _ _ _)), (sb_stakes _ _ (opened_books _ _)), Hr.
  rewrite bool_decide_eq_false_2 by congruence. rewrite Hu, bool_decide_eq_false_2; [done|]. by intros [].
Qed.

Lemma claim_ok d a id n e r since :
  n = nonce_of d a -> stakes d !! id = Some r -> s_validator_address r = a -> s_unbonding_epoch r = Some since -> since <= e ->
  execute_validator_claim_stake (claim_tx a id n) e d =
    ((remove_stake id (upsert_account (pay_out (saturating_sub (s_staked_amount r) (s_slashed_amount r)) e) a
                         (get_or_create_account d a))).1, Ok tt).
Proof.
  intros -> Hr Ha Hu Hle. unfold execute_validator_claim_stake. cbn [claim_tx vc_validator_address vc_nonce vc_validator_id].
  rewrite Hr, bool_decide_eq_false_2, Hu by congruence. destruct (Z.ltb_spec e since); [lia|].
  by rewrite open_account_eq, nonce_found, Z.eqb_refl.
Qed.

(** C38: a stake can be taken over.  Whoever stakes one token on the identifier of
    another validator becomes the owner of the whole record, clean of slashes
    and of an exit under way; 256 epochs later everything the other validator
    staked, slashed or not, is paid to the newcomer. *)
Theorem stake_takeover d id r a e n :
  books_ok d -> stakes d !! id = Some r -> s_validator_address r <> a ->
  1 <= transferable_balance (found d a) e -> n = nonce_of d a -> n + 4 <= U64_MAX -> 0 <= e -> e + 256 <= U64_MAX ->
  exists d1 d2 d3,
    execute_validator_stake (stake_tx a 1 id n) e d = (d1, Ok tt) /\
    execute_validator_exit (exit_tx a id (n + 1)) e d1 = (d2, Ok tt) /\
    execute_validator_claim_stake (claim_tx a id (n + 2)) (e + 256) d2 = (d3, Ok tt) /\
    balance_of d3 a = balance_of d a + s_staked_amount r /\ stakes d3 !! id = None.
Proof.
  intros Hb Hr Hne Hle Hn Hmax He Hmax'.
  assert (Hn0 : 0 <= n). { rewrite Hn, nonce_found. destruct (found_ok d a Hb) as [_ Hk _ _]. u64_lia. }
  destruct (stake_le d id r Hb Hr) as [Hs0 Hs1]. pose proof (parts_nonneg d Hb). pose proof (bo_supply _ Hb) as Hs. unfold supply in Hs.
  pose proof (balance_le_accounts d a Hb) as [Hbal0 Hbal]. pose proof (spendable_le d a e Hb) as Hsp. rewrite <- balance_found in Hsp.
  assert (Hat : at_key s_staked_amount (stakes d) id = s_staked_amount r) by (unfold at_key; by rewrite Hr).
  rewrite restake by (lia || done). rewrite Hat. unfold wrapping_add at 1. rewrite as_u64_small by u64_lia.
  set (d1 := put_stake _ _). set (r1 := {| s_validator_id := id |}) in *.
  assert (Hn1 : nonce_of d1 a = n + 1).
  { unfold d1. autorewrite with nonces. rewrite decide_True by done. rewrite <- Hn. apply wrapping_succ; lia. }
  assert (Hb1 : balance_of d1 a = balance_of d a - 1).
  { unfold d1. autorewrite with balances. by rewrite decide_True. }
  assert (Hr1 : stakes d1 !! id = Some r1) by (unfold d1, put_stake; cbn [set_stakes stakes]; apply lookup_insert_eq).
  eexists d1, _, _. split; [done|]. split; [by eapply exit_ok|].
  set (d2 := put_stake _ _). set (r2 := set_unbonding _ r1) in *.
  assert (Hn2 : nonce_of d2 a = n + 2).
  { unfold d2. autorewrite with nonces. rewrite decide_True by done. rewrite Hn1, wrapping_succ by lia. lia. }
  assert (Hr2 : stakes d2 !! id = Some r2) by (unfold d2, put_stake; cbn [set_stakes stakes]; apply lookup_insert_eq).
  split; [eapply claim_ok; [done|exact Hr2|done|reflexivity|unfold wrapping_add, UNBONDING_PERIOD_EPOCHS; rewrite as_u64_small by u64_lia; lia]|].
  cbn [r2 r1 set_unbonding s_staked_amount s_slashed_amount]. rewrite saturating_sub_0_r by lia.
  split; [|apply lookup_delete_eq]. autorewrite with balances. rewrite decide_True by done. rewrite Hb1. unfold wrapping_add.
  rewrite as_u64_small by u64_lia. lia.
Qed.
End takeover.

(** ** Deferred transactions *)

Section deferred.
Context `{CurveJson, Blake3, Pallas, HybridVerifier, BlsKeys, HashOrder, Hex, StrDebug, F64Parse}.
Context `{!Json, !ScriptParser, !AppTemplates, !MlDsa}.
Context {C : Type} `{!ContractTemplates C}.

Lemma pop_one x : pop_order [x] = [x].
Proof. apply Permutation_singleton_r, merge_sort_Permutation. Qed.

(** A deposit nobody paid is refunded.  Submitting a deferred transaction takes
    its deposit from nowhere; when its deadline passes, the deposit less the
    storage fee is credited to the submitter. *)
Theorem deferred_deposit_minted (m : Machine C) tx deadline e e' :
  books_ok (db m) -> queue (deferred_queue (ex m)) = [] -> df_guards tx = [BeforeEpoch deadline] ->
  df_inner_tx_bytes tx <> [] -> MIN_DEFERRED_DEPOSIT <= df_deposit tx -> deadline <= U64_MAX -> deadline <= e' ->
  is_Some (accounts (db m) !! df_submitter tx) -> supply (db m) + df_deposit tx <= U64_MAX ->
  exists m1, dispatch (Deferred tx) e m = (m1, Ok tt) /\ db m1 = db m /\
    let m2 := (process_deferred e' m1).1.1 in
    balance_of (db m2) (df_submitter tx) = balance_of (db m) (df_submitter tx) + (df_deposit tx - QUEUE_STORAGE_FEE) /\
    supply (db m2) = supply (db m) + (df_deposit tx - QUEUE_STORAGE_FEE).
Proof.
  intros Hb Hq Hg Hin Hdep Hdl He' Hex Hsup. unfold MIN_DEFERRED_DEPOSIT, QUEUE_STORAGE_FEE in *.
  cbn [dispatch]. unfold submit_deferred, Temporal.submit. rewrite Hg, Hq.
  rewrite bool_decide_eq_false_2 by done. rewrite bool_decide_eq_false_2 by done.
  destruct (Z.ltb_spec (df_deposit tx) MIN_DEFERRED_DEPOSIT) as [Hc|_]; [unfold MIN_DEFERRED_DEPOSIT in Hc; lia|].
  change (MAX_QUEUE_SIZE <=? Z.of_nat (length (@nil DeferredEntry))) with false. cbv iota.
  eexists. split; [reflexivity|]. split; [reflexivity|]. cbv zeta.
  assert (Hexp : (expiry_of [BeforeEpoch deadline] <=? e') = true).
  { apply Z.leb_le. unfold expiry_of. cbn. destruct (Z.ltb_spec deadline U64_MAX); lia. }
  unfold process_deferred, process_epoch. cbn [with_ex with_queue ex deferred_queue queue db app].
  rewrite (pop_one _ : pop_order [_] = _). cbn [foldl]. unfold process_entry. cbn [expiry_epoch de_tx]. rewrite Hexp.
  cbn [refunds matured_txs foldl app refund_deposit fst snd with_db db with_ex remaining_deposit].
  rewrite modify_upsert by done. unfold QUEUE_STORAGE_FEE. rewrite saturating_sub_exact by lia.
  destruct (credit_ledger (df_deposit tx - 1000) e' (df_submitter tx) (db m) Hb) as [_ Es]; [lia|lia|].
  split; [|exact Es]. pose proof (balance_le_accounts (db m) (df_submitter tx) Hb). pose proof (parts_nonneg (db m) Hb).
  rewrite balance_credit, decide_True by done. apply saturating_add_exact. unfold supply in Hsup. lia.
Qed.
End deferred.

(** ** Concrete blocks *)

Module ToyExec.

(** A signature is the key itself. *)
#[global] Instance key_verifier : HybridVerifier := fun _ sig pk => bool_decide (sig = pk).

Definition alice : bytes := address_from_pubkey [1].
Definition bob : bytes := address_from_pubkey [2].
Definition mallory : bytes := address_from_pubkey [3].

Definition pay (from to : bytes) (amount nonce : Z) (key : option bytes) : Transaction :=
  Transfer {| tr_from := from; tr_to := to; tr_amount := amount; tr_nonce := nonce; tr_signature := key;
              tr_public_key := key; tr_mev_refund_eligible := None |}.

(** One inner transaction: money from Alice to Mallory that Alice never signed. *)
#[global] Instance toy_json : Json :=
  {| json_valid _ := true; rules_valid _ := true; script_args _ := None;
     tx_of_json b := if bool_decide (b = [7]) then Some (pay alice mallory 400000 0 None) else None |}.
#[global] Instance toy_json_typed : JsonTyped.
Proof. intros b t E. unfold tx_of_json in E. cbn in E. case_bool_decide; [|done]. injection E as <-. cbn. u64_lia. Qed.

(** The parser of ScriptGrammar.v. *)
#[global] Instance script_parser : ScriptParser := parsed.
#[global] Instance toy_templates : AppTemplates := fun _ => true.
#[global] Instance toy_ml_dsa : MlDsa := fun _ _ _ => false.
#[global] Instance toy_contracts : ContractTemplates unit :=
  {| template_deploy _ _ c := (c, true); template_call _ _ _ _ _ c := (c, true); template_tick _ c := c;
     template_phase _ _ _ := false |}.

Definition executor : SimpleExecutor unit :=
  mkExecutor (Lifecycle.engine_new 7) mmr_new true (Some testnet_config) 30000000 tt ScriptEngine.engine_new queue_new
    watchers_new [] "toy" 0.

Definition funded (a : bytes) (balance : Z) : bytes * Account := (a, with_funds balance 0 0 (new_account a)).

Definition state : InMemoryStateDB :=
  set_accounts (list_to_map [funded alice 1000000; funded bob 1000000; funded mallory 1000000]) db_new.

Definition start : Machine unit := mkMachine executor state [].

Definition books_of (d : InMemoryStateDB) : list Z := balance_of d <$> [alice; bob; mallory].

Definition plain (a : Account) : Prop :=
  0 <= a_balance a <= U64_MAX /\ 0 <= a_nonce a <= U64_MAX /\ from_option (fun _ => false) true (a_vesting a) = true /\ 0 <= a_storage_bytes a.

Lemma plain_books d :
  bool_decide (map_Forall (fun _ => plain) (accounts d)) = true -> stakes d = ∅ -> delegations d = ∅ ->
  (supply d <=? U64_MAX) = true -> books_ok d.
Proof.
  intros Ha%bool_decide_eq_true Es Ed Hs%Z.leb_le. split; [|rewrite Es; apply map_Forall_empty|rewrite Ed; apply map_Forall_empty|done].
  intros k a E. destruct (Ha k a E) as (H1 & H2 & H3 & H4). split; [done|done| |done]. intros v e Ev. by rewrite Ev in H3.
Qed.

Lemma state_ok : books_ok state.
Proof. apply plain_books; by vm_compute. Qed.

(** A payment, a replay of it, an unsigned one, one over the balance, and the
    deployment of a script that does not parse. *)
Definition block : list Transaction :=
  [pay alice bob 1000 0 (Some [1]); pay alice bob 1000 0 (Some [1]); pay alice bob 1000 1 None; pay bob alice 5000000 0 (Some [2]);
   DeployScript {| ds_deployer := bob; ds_source_code := "junk"; ds_energy := 5; ds_half_life := 5; ds_signature := Some [2];
                   ds_public_key := Some [2] |}].

Lemma block_ok : Forall amounts_ok block.
Proof. unfold block. repeat (apply Forall_cons_2; [cbn; first [done|u64_lia]|]). apply Forall_nil_2. Qed.
End ToyExec.

Lemma supply_conserved_witness :
  books_ok (db ToyExec.start) /\ Forall amounts_ok ToyExec.block /\
  supply (db (machine_of (run_txs 1 ToyExec.block ToyExec.start))) = 3000000 - taken_by 1 ToyExec.block (run_start ToyExec.start) /\
  ToyExec.books_of (db (machine_of (run_txs 1 ToyExec.block ToyExec.start))) = [957000; 829200; 1000000].
Proof.
  destruct (supply_conserved 1 ToyExec.block ToyExec.start ToyExec.state_ok ToyExec.block_ok) as (_ & Hs & _).
  split_and!; [exact ToyExec.state_ok|exact ToyExec.block_ok|exact Hs|by vm_compute].
Defined.



(** Bob's script does not parse; the deposit comes back, the fee does not. *)
Lemma failure_costs_fee_witness :
  let t := DeployScript {| ds_deployer := ToyExec.bob; ds_source_code := "junk"; ds_energy := 5; ds_half_life := 5;
                           ds_signature := Some [2]; ds_public_key := Some [2] |} in
  executed 1 (run_start ToyExec.start) t = false /\
  exists fee, (fee = 0 \/ exists fc, fee_controller ToyExec.executor = Some fc /\ fee = total_tx_fee fc t) /\
    forall a, balance_of (db (machine_of (run_tx 1 (run_start ToyExec.start) t))) a =
      balance_of ToyExec.state a - (if decide (tx_sender t = Some a) then fee else 0).
Proof.
  cbv zeta. set (t := DeployScript _).
  assert (Hx : executed 1 (run_start ToyExec.start) t = false) by by vm_compute.
  split; [exact Hx|]. exact (proj2 (proj2 (failure_costs_fee 1 (run_start ToyExec.start) t ToyExec.state_ok I Hx))).
Defined.

Lemma gas_within_limit_witness :
  0 < block_gas_limit ToyExec.executor <= U64_MAX /\ 0 <= gas_used (run_txs 1 ToyExec.block ToyExec.start) <= 30000000 /\
  gas_used (run_txs 1 ToyExec.block ToyExec.start) = 21000.
Proof.
  split; [cbn; u64_lia|]. split; [apply (gas_within_limit 1 ToyExec.block ToyExec.start); cbn; u64_lia|by vm_compute].
Defined.

(** Mallory names Alice as the paymaster of an operation. *)
Definition forged : UserOpTx :=
  {| uo_sender := ToyExec.mallory; uo_nonce := 0; uo_call_data := []; uo_call_gas_limit := 0; uo_paymaster := Some ToyExec.alice;
     uo_paymaster_nonce := None; uo_paymaster_data := None; uo_paymaster_signature := None; uo_paymaster_public_key := None;
     uo_signature := Some [3]; uo_public_key := Some [3] |}.

Lemma forged_paymaster_pays_witness :
  verify_tx_signature ToyExec.executor (UserOp forged) = Ok tt /\
  balance_of (db (machine_of (run_tx 1 (run_start ToyExec.start) (UserOp forged)))) ToyExec.alice = 1000000 - 30000.
Proof.
  split; [by vm_compute|].
  apply (forged_paymaster_pays 1 (run_start ToyExec.start) forged ToyExec.alice testnet_config);
    [exact ToyExec.state_ok|cbn; lia|reflexivity|reflexivity|reflexivity|by vm_compute|by vm_compute|by vm_compute].
Defined.

(** Bob's stake, taken by Mallory. *)
Definition staked_state : InMemoryStateDB :=
  (execute_validator_stake (stake_tx ToyExec.bob 600000 9 0) 3 ToyExec.state).1.

Lemma staked_state_ok : books_ok staked_state.
Proof.
  pose proof (stake_settles (stake_tx ToyExec.bob 600000 9 0) 3 ToyExec.state ToyExec.state_ok) as Hs. unfold staked_state.
  destruct (execute_validator_stake _ _ _) as [d [u|err]]; apply Hs; cbn; lia.
Qed.

Lemma stake_takeover_witness :
  exists d1 d2 d3,
    execute_validator_stake (stake_tx ToyExec.mallory 1 9 0) 10 staked_state = (d1, Ok tt) /\
    execute_validator_exit (exit_tx ToyExec.mallory 9 (0 + 1)) 10 d1 = (d2, Ok tt) /\
    execute_validator_claim_stake (claim_tx ToyExec.mallory 9 (0 + 2)) (10 + 256) d2 = (d3, Ok tt) /\
    balance_of d3 ToyExec.mallory = balance_of staked_state ToyExec.mallory + 600000 /\ stakes d3 !! 9 = None.
Proof.
  apply (stake_takeover staked_state 9
    {| s_validator_id := 9; s_validator_address := ToyExec.bob; s_staked_amount := 600000; s_staked_at_epoch := 3;
       s_unbonding_epoch := None; s_slashed_amount := 0 |} ToyExec.mallory 10 0);
    [exact staked_state_ok|by vm_compute|by vm_compute|by vm_compute|by vm_compute|by vm_compute|lia|by vm_compute].
Defined.

Definition idle_deferred : DeferredTx :=
  {| df_submitter := ToyExec.mallory; df_nonce := 0; df_deposit := 500000; df_guards := [BeforeEpoch 4]; df_inner_tx_bytes := [0];
     df_gas_limit := 0; df_signature := Some [3]; df_public_key := Some [3] |}.

Lemma deferred_deposit_minted_witness :
  exists m1, dispatch (Deferred idle_deferred) 1 ToyExec.start = (m1, Ok tt) /\ db m1 = db ToyExec.start /\
    let m2 := (process_deferred 4 m1).1.1 in
    balance_of (db m2) ToyExec.mallory = balance_of (db ToyExec.start) ToyExec.mallory + (500000 - QUEUE_STORAGE_FEE) /\
    supply (db m2) = supply (db ToyExec.start) + (500000 - QUEUE_STORAGE_FEE).
Proof.
  exact (deferred_deposit_minted ToyExec.start idle_deferred 4 1 4 ToyExec.state_ok eq_refl eq_refl ltac:(done) ltac:(done) ltac:(done)
    ltac:(done) ltac:(apply (bool_decide_unpack _); by vm_compute) ltac:(by vm_compute)).
Defined.

(** ** Spending for somebody else *)

Definition theft : DeferredTx :=
  {| df_submitter := ToyExec.mallory; df_nonce := 0; df_deposit := 10000; df_guards := [AfterEpoch 0]; df_inner_tx_bytes := [7];
     df_gas_limit := 0; df_signature := Some [3]; df_public_key := Some [3] |}.

(** A deferred transaction runs what it carries without a signature, for
    whatever account the inner transaction names.  In one block, with signatures
    on and a single transaction, signed by Mallory, 400000 of Alice's tokens go
    to Mallory. *)
Theorem deferred_theft :
  verify_signatures ToyExec.executor = true /\
  (fun r => ToyExec.books_of (db (machine_of r.1.1))) <$> execute_block_front 1 [Deferred theft] ToyExec.start =
    Some [1000000 - 400000; 1000000; 1000000 + 400000 - 80000].
Proof. split; by vm_compute. Qed.

(** ** Transactions that do not pay, or cannot run *)

Section unpaid.
Context `{CurveJson, Blake3, Pallas, HybridVerifier, BlsKeys, HashOrder, Hex, StrDebug, F64Parse}.
Context `{!Json, !JsonTyped, !ScriptParser, !AppTemplates, !MlDsa}.
Context {C : Type} `{!ContractTemplates C}.

(** A refresh adds its fee to the fees of the block, which the rewards are paid
    from, but nobody pays it: the supply is what it was. *)
Theorem refresh_fee_unpaid e (r : BlockRun (C := C)) tx fc :
  books_ok (db (machine_of r)) -> fee_controller (ex (machine_of r)) = Some fc ->
  verify_tx_signature (ex (machine_of r)) (Refresh tx) = Ok tt ->
  exceeds_block_gas (block_gas_limit (ex (machine_of r))) (gas_used r) (exec_gas (Refresh tx)) = false ->
  total_fees (run_tx e r (Refresh tx)) = wrapping_add (total_fees r) (total_tx_fee fc (Refresh tx)) /\
  supply (db (machine_of (run_tx e r (Refresh tx)))) = supply (db (machine_of r)).
Proof.
  intros Hb Hfc Hv Hx. destruct (run_tx_ledger e r (Refresh tx) Hb I) as [[_ Es] _].
  assert (Hc : charge_fee (Refresh tx) e (machine_of r) = (machine_of r, Some (total_tx_fee fc (Refresh tx)))).
  { unfold charge_fee. by rewrite Hfc. }
  split.
  - unfold run_tx. rewrite Hv. cbv zeta. rewrite Hx, Hc. by destruct (dispatch (Refresh tx) e (machine_of r)) as [m' []].
  - rewrite Es. unfold taken. rewrite Hv, Hx, Hc. cbn [fee_from tx_sender sunk].
    destruct (dispatch (Refresh tx) e (machine_of r)).2; lia.
Qed.

(** Multi-signature and refund transactions carry no signature of their own:
    with signatures on, none is ever run. *)
Theorem unsigned_kinds_refused e (r : BlockRun (C := C)) t :
  verify_signatures (ex (machine_of r)) = true -> match t with MultiSig _ | Refund _ => True | _ => False end ->
  executed e r t = false /\ machine_of (run_tx e r t) = machine_of r.
Proof.
  intros Hv Ht. unfold executed, run_tx, verify_tx_signature. rewrite Hv.
  destruct t; try done; cbn; by rewrite Z.ltb_irrefl.
Qed.

(** The governance path of an upgrade believes the stakes the transaction
    declares: anybody's transaction that endorses itself with the stake it
    requires is authorised, for any contract, frozen ones included. *)
Theorem upgrade_self_endorsed tx admin :
  uc_admin_signature tx = None -> uc_endorser_stakes tx = [uc_required_stake tx] -> 0 < uc_required_stake tx <= U64_MAX ->
  upgrade_auth tx admin = Ok ScriptEngine.Governance.
Proof.
  intros Hs He Hr. unfold upgrade_auth. rewrite Hs, He. cbn [foldl]. rewrite saturating_add_exact by lia. rewrite Z.add_0_l, Z.ltb_irrefl.
  destruct (Z.eqb_spec (uc_required_stake tx) 0); [lia|done].
Qed.
End unpaid.

(** ** Replays *)

(** A call Alice signed once. *)
Definition one_call : Transaction :=
  CallContract {| cc_caller := ToyExec.alice; cc_contract_id := 1; cc_method := "buy"; cc_args := "[]"; cc_epoch := 1;
                  cc_signature := Some [1]; cc_public_key := Some [1] |}.

(** Calls, deployments, blobs and deferred transactions have no nonce that is
    checked: the same signed call runs as often as somebody includes it, and the
    caller pays each time. *)
Theorem call_replayed :
  let r := run_txs 1 [one_call; one_call; one_call] ToyExec.start in
  txs_executed r = 3 /\ txs_failed r = 0 /\ balance_of (db (machine_of r)) ToyExec.alice = 1000000 - 3 * 40000.
Proof. cbv zeta. split_and!; by vm_compute. Qed.

(** ** Votes *)

(** Alice owns every token there is, ten million of them. *)
Definition holder_state : InMemoryStateDB := set_accounts (list_to_map [ToyExec.funded ToyExec.alice 10000000]) db_new.
Definition free_executor : SimpleExecutor unit := with_limits None 0 ToyExec.executor.

Definition gov (sender : bytes) (key : bytes) (nonce : Z) (a : GovernanceAction) : Transaction :=
  Transactions.Governance {| gv_action := a; gv_sender := sender; gv_nonce := nonce; gv_signature := Some key; gv_public_key := Some key |}.

(** The same tokens vote from three accounts. *)
Definition recycled_votes : list Transaction :=
  [gov ToyExec.alice [1] 0 (CreateProposal "less" "block_gas_limit" "1000" 10);
   gov ToyExec.alice [1] 1 (CastVote 0 true); ToyExec.pay ToyExec.alice ToyExec.bob 10000000 2 (Some [1]);
   gov ToyExec.bob [2] 0 (CastVote 0 true); ToyExec.pay ToyExec.bob ToyExec.mallory 10000000 1 (Some [2]);
   gov ToyExec.mallory [3] 0 (CastVote 0 true)].

(** A vote weighs the balance at the moment it is cast and locks nothing: one
    holder of ten million, a third of the quorum and within the cap of a single
    voter, carries a proposal alone by moving the tokens between votes. *)
Theorem vote_recycled :
  let m := mkMachine free_executor holder_state [] in
  let d := db (machine_of (run_txs 1 recycled_votes m)) in
  supply holder_state = 10000000 /\ QUORUM_MIN_TOTAL_WEIGHT = 3 * supply holder_state /\
  governance_params (finalize_expired_proposals 16 (finalize_expired_proposals 12 d)) !! "block_gas_limit"%string = Some "1000"%string.
Proof. cbv zeta. split_and!; by vm_compute. Qed.

(** ** Activation order *)

(** The same keys, listed backwards. *)
Definition backwards : HashOrder :=
  {| hash_keys _ _ _ _ m := reverse ((map_to_list m).*1);
     hash_keys_perm _ _ _ _ m := reverse_Permutation _ |}.

Definition rival_votes : list GovernanceTx :=
  [ToyGov.act 1 0 (CreateProposal "gas" "block_gas_limit" "60000000" 10); ToyGov.act 1 1 (CreateProposal "gas" "block_gas_limit" "1000" 10);
   ToyGov.act 1 2 (CastVote 0 true); ToyGov.act 2 0 (CastVote 0 true); ToyGov.act 3 0 (CastVote 0 true);
   ToyGov.act 1 3 (CastVote 1 true); ToyGov.act 2 1 (CastVote 1 true); ToyGov.act 3 1 (CastVote 1 true)].

(** Two proposals for one parameter that fall due together are applied in the
    order of a hash map: two nodes with the same state set different values. *)
Theorem activation_order :
  let d := finalize_expired_proposals 18 (foldl (fun d tx => (execute_governance tx 7 d).1) ToyGov.db rival_votes) in
  governance_params (finalize_expired_proposals 22 d) !! "block_gas_limit"%string <>
  governance_params (finalize_expired_proposals (H1 := backwards) 22 d) !! "block_gas_limit"%string.
Proof. cbv zeta. intros E. vm_compute in E. discriminate. Qed.

(** ** A script from source to state *)

(** Bob deploys the benchmark contract of the repository from its source, Alice calls it. *)
Definition touch_block : list Transaction :=
  [DeployScript {| ds_deployer := ToyExec.bob; ds_source_code := Sources.bench_object_es; ds_energy := 1000; ds_half_life := 100;
                   ds_signature := Some [2]; ds_public_key := Some [2] |};
   CallScript {| cs_caller := ToyExec.alice; cs_contract_id := 1; cs_method := "touch"; cs_args := "[]"; cs_epoch := 9;
                 cs_signature := Some [1]; cs_public_key := Some [1] |}].

Lemma script_deployed_and_called :
  let m := machine_of (run_txs 9 touch_block ToyExec.start) in
  (contracts (script_engine (ex m)) !! 1 ≫= fun c => sc_state c !! "born_at"%string) = Some (U64 9).
Proof. vm_compute. reflexivity. Qed.
