(* ===== verification/Rewards.v ===== *)
(** * Token economics and block rewards

    crates/evaporchain-types/src/emission.rs (the schedule of new tokens),
    crates/evaporchain-types/src/genesis.rs ([Tokenomics]: reward, yield cap
    and the split of fees) and crates/evaporchain-execution/src/rewards.rs
    ([RewardAccumulator]).  A [Purse] holds what a reward moves: the
    accumulator, the books and the refresh pool.  The theorems say that every
    token a block pays out is newly minted or was collected as a fee, and that
    the schedule respects its cap. *)

From stdpp Require Import base gmap list sorting strings.
From Stdlib Require Import ZArith Lia SpecFloat.
From S2P Require Import Prelude Energy EnergyKernel Types Trie StateDB Validators Fractions Fees Temporal Executor Governance BlockExecutor Ledger Nonces Authorisation.

Open Scope Z_scope.

(** ** The emission schedule *)

Inductive EmissionSchedule :=
| Constant
| Halving (epochs_per_halving : Z)
| LinearDecay (decay_epochs : Z).

Record EmissionParams := {
  initial_reward : Z;
  schedule : EmissionSchedule;
  max_supply : option Z;
}.

Inductive EmissionError := ZeroHalvingPeriod | ZeroDecayWindow | ZeroInitialReward.

Definition emission_new (reward : Z) (s : EmissionSchedule) (cap : option Z) : result EmissionParams EmissionError :=
  if reward =? 0 then Err ZeroInitialReward
  else
    match s with
    | Halving 0 => Err ZeroHalvingPeriod
    | LinearDecay 0 => Err ZeroDecayWindow
    | _ => Ok {| initial_reward := reward; schedule := s; max_supply := cap |}
    end.

Definition provisional_default : EmissionParams :=
  {| initial_reward := 100; schedule := Constant; max_supply := None |}.

Definition U128_MAX : Z := 2 ^ 128 - 1.

(** [emission_new] refuses a zero period, for which the division panics. *)
Definition scheduled (p : EmissionParams) (epoch : Z) : Z :=
  match schedule p with
  | Constant => initial_reward p
  | Halving n => let halvings := epoch / n in if 64 <=? halvings then 0 else Z.shiftr (initial_reward p) halvings
  | LinearDecay n =>
      if n <=? epoch then 0 else as_u64 (Z.min (initial_reward p * (n - epoch)) U128_MAX / n)
  end.

Definition block_reward_at (p : EmissionParams) (epoch emitted : Z) : Z :=
  match max_supply p with
  | Some cap =>
      if cap <=? emitted then 0
      else
        let headroom := Z.max 0 (cap - emitted) in
        if headroom <? scheduled p epoch then as_u64 headroom else scheduled p epoch
  | None => scheduled p epoch
  end.

(** ** Token economics *)

Record Tokenomics := {
  total_supply : Z;
  block_reward : Z;
  reward_half_life : Z;
  fee_burn_rate : F64.f64;
  staker_fee_share : F64.f64;
  target_staking_apy : F64.f64;
  validator_commission_default : F64.f64;
  blocks_per_year : Z;
  max_supply_cap : option Z;
  emission : option EmissionParams;
}.

Definition default_blocks_per_year : Z := 15768000.
Definition default_commission : F64.f64 := F64.lit 10 100.

Definition tokenomics_default : Tokenomics :=
  {| total_supply := 1000000000; block_reward := 100; reward_half_life := 1000000;
     fee_burn_rate := F64.lit 50 100; staker_fee_share := F64.lit 50 100; target_staking_apy := F64.lit 5 100;
     validator_commission_default := default_commission; blocks_per_year := default_blocks_per_year;
     max_supply_cap := None; emission := None |}.

Definition with_block_reward (r : Z) (t : Tokenomics) : Tokenomics :=
  {| total_supply := total_supply t; block_reward := r; reward_half_life := reward_half_life t;
     fee_burn_rate := fee_burn_rate t; staker_fee_share := staker_fee_share t; target_staking_apy := target_staking_apy t;
     validator_commission_default := validator_commission_default t; blocks_per_year := blocks_per_year t;
     max_supply_cap := max_supply_cap t; emission := emission t |}.

(** The part of the delegators and the commission of the validator. *)
Definition split_staker_pool (t : Tokenomics) (staker_pool : Z) : Z * Z :=
  if staker_pool =? 0 then (0, 0)
  else
    let rate := f64_clamp F64.zero (F64.lit 1 1) (validator_commission_default t) in
    let commission := Z.min (F64.round_as_int (F64.mul (F64.of_int staker_pool) rate)) staker_pool in
    (saturating_sub staker_pool commission, commission).

Definition apy_capped_reward (t : Tokenomics) (raw_reward total_staked : Z) : Z :=
  if SFleb (target_staking_apy t) F64.zero || (total_staked =? 0) then raw_reward
  else
    let bpy := Z.max (blocks_per_year t) 1 in
    let annual_budget := F64.as_int (F64.mul (F64.of_int total_staked) (target_staking_apy t)) in
    Z.min raw_reward (Z.max (annual_budget / bpy) 1).

Definition reward_at_epoch (t : Tokenomics) (epoch : Z) : Z :=
  if (block_reward t =? 0) || (reward_half_life t =? 0) then block_reward t
  else energy_at_epoch (block_reward t) (reward_half_life t) epoch.

Definition reward_at_epoch_capped (t : Tokenomics) (epoch minted : Z) : Z :=
  let raw := reward_at_epoch t epoch in
  match max_supply_cap t with
  | None => raw
  | Some cap => if cap <=? minted then 0 else Z.min raw (cap - minted)
  end.

(** [Tokenomics::block_reward]. *)
Definition reward_due (t : Tokenomics) (epoch minted : Z) : Z :=
  match emission t with
  | Some p => block_reward_at p epoch minted
  | None => reward_at_epoch_capped t epoch minted
  end.

Record FeeDistribution := { burned : Z; to_producer : Z; to_stakers : Z }.

Definition distribute_fees (t : Tokenomics) (fees : Z) : FeeDistribution :=
  let burned := F64.round_as_int (F64.mul (F64.of_int fees) (fee_burn_rate t)) in
  let remaining := saturating_sub fees burned in
  let to_stakers := F64.round_as_int (F64.mul (F64.of_int remaining) (staker_fee_share t)) in
  {| burned := burned; to_producer := saturating_sub remaining to_stakers; to_stakers := to_stakers |}.

(** ** The accumulator *)

Record RewardAccumulator := {
  tokenomics : Tokenomics;
  total_minted : Z;
  total_burned : Z;
  total_to_producers : Z;
  total_to_stakers : Z;
  pending_staker_rewards : Z;
}.

Definition accumulator_new (t : Tokenomics) : RewardAccumulator :=
  {| tokenomics := t; total_minted := 0; total_burned := 0; total_to_producers := 0; total_to_stakers := 0;
     pending_staker_rewards := 0 |}.

Definition add_minted (n : Z) (a : RewardAccumulator) : RewardAccumulator :=
  {| tokenomics := tokenomics a; total_minted := saturating_add (total_minted a) n; total_burned := total_burned a;
     total_to_producers := total_to_producers a; total_to_stakers := total_to_stakers a;
     pending_staker_rewards := pending_staker_rewards a |}.

Definition add_burned (n : Z) (a : RewardAccumulator) : RewardAccumulator :=
  {| tokenomics := tokenomics a; total_minted := total_minted a; total_burned := saturating_add (total_burned a) n;
     total_to_producers := total_to_producers a; total_to_stakers := total_to_stakers a;
     pending_staker_rewards := pending_staker_rewards a |}.

Definition add_to_producers (n : Z) (a : RewardAccumulator) : RewardAccumulator :=
  {| tokenomics := tokenomics a; total_minted := total_minted a; total_burned := total_burned a;
     total_to_producers := saturating_add (total_to_producers a) n; total_to_stakers := total_to_stakers a;
     pending_staker_rewards := pending_staker_rewards a |}.

Definition add_pending (n : Z) (a : RewardAccumulator) : RewardAccumulator :=
  {| tokenomics := tokenomics a; total_minted := total_minted a; total_burned := total_burned a;
     total_to_producers := total_to_producers a; total_to_stakers := saturating_add (total_to_stakers a) n;
     pending_staker_rewards := saturating_add (pending_staker_rewards a) n |}.

Definition take_pending (n : Z) (a : RewardAccumulator) : RewardAccumulator :=
  {| tokenomics := tokenomics a; total_minted := total_minted a; total_burned := total_burned a;
     total_to_producers := total_to_producers a; total_to_stakers := total_to_stakers a;
     pending_staker_rewards := saturating_sub (pending_staker_rewards a) n |}.

Definition DEAD_PRODUCER_REFRESH_NAMESPACE : bytes := bytes_of_string "evaporchain-dead-producer-refresh"%string.

(** What a reward moves: [&mut self], [&mut db] and the optional refresh pool. *)
Record Purse := {
  acc : RewardAccumulator;
  books : InMemoryStateDB;
  pool : option Pool.RefreshPool;
}.

Definition with_acc (a : RewardAccumulator) (p : Purse) : Purse := {| acc := a; books := books p; pool := pool p |}.
Definition with_books (d : InMemoryStateDB) (p : Purse) : Purse := {| acc := acc p; books := d; pool := pool p |}.
Definition with_pool (q : option Pool.RefreshPool) (p : Purse) : Purse := {| acc := acc p; books := books p; pool := q |}.

Section rewards.
Context `{Blake3, Pallas, HashOrder}.

(** An amount due to the producer: to its account, to the refresh pool when
    the producer has a tombstone; the second component is what it received. *)
Definition reward_producer (producer : bytes) (alive : bool) (epoch amount : Z) (p : Purse) : Purse * Z :=
  if alive then (with_books (upsert_account (credit amount epoch) producer (books p)) p, amount)
  else
    (with_pool ((fun q => Pool.accrue q DEAD_PRODUCER_REFRESH_NAMESPACE amount epoch) <$> pool p) p, 0).

Definition apply_priority_bonus (producer : bytes) (epoch priority_sum scale_per_unit : Z) (alive : bool) (p : Purse)
  : Purse * Z :=
  if (scale_per_unit =? 0) || (priority_sum =? 0) then (p, 0)
  else
    let bonus := priority_sum / scale_per_unit in
    if bonus =? 0 then (p, 0)
    else reward_producer producer alive epoch bonus (with_acc (add_minted bonus (acc p)) p).

Definition process_block_rewards (producer : bytes) (epoch fees : Z) (alive : bool) (p : Purse) : Purse * Z :=
  let reward := reward_due (tokenomics (acc p)) epoch (total_minted (acc p)) in
  let '(p, credit) :=
    if 0 <? reward then reward_producer producer alive epoch reward (with_acc (add_minted reward (acc p)) p) else (p, 0) in
  if 0 <? fees then
    let dist := distribute_fees (tokenomics (acc p)) fees in
    let p := with_acc (add_burned (burned dist) (acc p)) p in
    let '(p, more) :=
      if 0 <? to_producer dist
      then reward_producer producer alive epoch (to_producer dist) (with_acc (add_to_producers (to_producer dist) (acc p)) p)
      else (p, 0) in
    let p := if 0 <? to_stakers dist then with_acc (add_pending (to_stakers dist) (acc p)) p else p in
    (p, wrapping_add credit more)
  else (p, credit).

(** The yield cap, by way of a patched base reward. *)
Definition patched (t : Tokenomics) (epoch minted total_staked : Z) : Tokenomics :=
  let raw := reward_due t epoch minted in
  let capped := apy_capped_reward t raw total_staked in
  match emission t with
  | None =>
      if 0 <? raw
      then with_block_reward (if raw =? 0 then capped else saturating_mul capped (block_reward t) / raw) t
      else t
  | Some _ => t
  end.

(** The attesters' part, in equal shares, the remainder to the first. *)
Fixpoint pay_attesters (per_attester dust epoch : Z) (attesters : list bytes) (d : InMemoryStateDB) : InMemoryStateDB :=
  match attesters with
  | [] => d
  | a :: rest =>
      let share := wrapping_add per_attester dust in
      pay_attesters per_attester 0 epoch rest (if 0 <? share then upsert_account (credit share epoch) a d else d)
  end.

Definition mint_reward (producer : bytes) (epoch : Z) (alive : bool) (attesters : list bytes) (reward : Z) (p : Purse)
  : Purse * Z :=
  if 0 <? reward then
    let proposer_share := match attesters with [] => reward | _ => wrapping_mul reward 60 / 100 end in
    let attester_total := match attesters with [] => 0 | _ => saturating_sub reward proposer_share end in
    let p := with_acc (add_minted reward (acc p)) p in
    let '(p, credit) :=
      if 0 <? proposer_share then reward_producer producer alive epoch proposer_share p else (p, 0) in
    let n := Z.of_nat (length attesters) in
    if (0 <? attester_total) && negb (n =? 0) then
      let per_attester := attester_total / n in
      let dust := saturating_sub attester_total (wrapping_mul per_attester n) in
      (with_books (pay_attesters per_attester dust epoch attesters (books p)) p, credit)
    else (p, credit)
  else (p, 0).

Definition share_fees (producer : bytes) (epoch fees : Z) (alive : bool) (p : Purse) : Purse * Z :=
  if 0 <? fees then
    let dist := distribute_fees (tokenomics (acc p)) fees in
    let p := with_acc (add_burned (burned dist) (acc p)) p in
    let '(p, c1) :=
      if 0 <? to_producer dist
      then reward_producer producer alive epoch (to_producer dist) (with_acc (add_to_producers (to_producer dist) (acc p)) p)
      else (p, 0) in
    if 0 <? to_stakers dist then
      let '(net_staker, commission) := split_staker_pool (tokenomics (acc p)) (to_stakers dist) in
      let '(p, c2) :=
        if 0 <? commission then
          let '(p, c) := reward_producer producer alive epoch commission p in
          (with_acc (add_to_producers commission (acc p)) p, c)
        else (p, 0) in
      (if 0 <? net_staker then with_acc (add_pending net_staker (acc p)) p else p, wrapping_add c1 c2)
    else (p, c1)
  else (p, 0).

Definition with_tokenomics (t : Tokenomics) (a : RewardAccumulator) : RewardAccumulator :=
  {| tokenomics := t; total_minted := total_minted a; total_burned := total_burned a;
     total_to_producers := total_to_producers a; total_to_stakers := total_to_stakers a;
     pending_staker_rewards := pending_staker_rewards a |}.

Definition process_block_rewards_v2 (producer : bytes) (epoch fees : Z) (alive : bool) (attesters : list bytes)
    (total_staked : Z) (p : Purse) : Purse * Z :=
  let t := tokenomics (acc p) in
  let t' := patched t epoch (total_minted (acc p)) total_staked in
  let p := with_acc (with_tokenomics t' (acc p)) p in
  let reward := reward_due t' epoch (total_minted (acc p)) in
  let '(p, c1) := mint_reward producer epoch alive attesters reward p in
  let '(p, c2) := share_fees producer epoch fees alive p in
  (with_acc (with_tokenomics (with_block_reward (block_reward t) (tokenomics (acc p))) (acc p)) p, wrapping_add c1 c2).

(** ** Rewards of the stakers *)

(** [sort_by_key] by falling stake; the sort is stable. *)
Definition stake_ge (x y : bytes * Z) : Prop := y.2 <= x.2.
#[global] Instance stake_ge_dec : RelDecision stake_ge := fun x y => Z_le_dec y.2 x.2.

Definition pay_share (pool_amount total_stake epoch : Z) (st : InMemoryStateDB * Z) (s : bytes * Z) : InMemoryStateDB * Z :=
  let share := as_u64 (pool_amount * s.2 / total_stake) in
  if 0 <? share then (upsert_account (credit share epoch) s.1 st.1, saturating_add st.2 share) else st.

Fixpoint pay_dust (remainder epoch : Z) (l : list (bytes * Z)) (st : InMemoryStateDB * Z) : InMemoryStateDB * Z :=
  match l with
  | [] => st
  | s :: rest =>
      if remainder =? 0 then st
      else pay_dust (saturating_sub remainder 1) epoch rest (upsert_account (credit 1 epoch) s.1 st.1, saturating_add st.2 1)
  end.

Definition distribute_staker_rewards (stakers : list (bytes * Z)) (epoch : Z) (p : Purse) : Purse * Z :=
  let pending := pending_staker_rewards (acc p) in
  if (pending =? 0) || bool_decide (stakers = []) then (p, 0)
  else
    let total_stake := foldl saturating_add 0 stakers.*2 in
    if total_stake =? 0 then (p, 0)
    else
      let '(d, distributed) := foldl (pay_share pending total_stake epoch) (books p, 0) stakers in
      let remainder := saturating_sub pending distributed in
      let '(d, distributed) :=
        if 0 <? remainder then pay_dust remainder epoch (merge_sort stake_ge stakers) (d, distributed)
        else (d, distributed) in
      (with_acc (take_pending distributed (acc p)) (with_books d p), distributed).
End rewards.

(** ** Nothing is lost and nothing is invented *)

Definition claims_of (q : option Pool.RefreshPool) : Z := from_option (fun q => Pool.claims (Pool.credits q)) 0 q.

(** The tokens in the books, in the refresh pool and owed to the stakers. *)
Definition wealth (p : Purse) : Z := supply (books p) + claims_of (pool p) + pending_staker_rewards (acc p).

Record purse_ok (p : Purse) : Prop := {
  po_books : books_ok (books p);
  po_pool : exists q, pool p = Some q /\ Pool.pool_wf q;
  po_pending : 0 <= pending_staker_rewards (acc p);
  po_wealth : wealth p <= U64_MAX;
}.

(** [p'] is [p] with [delta] more tokens, and the accumulator [a]. *)
Definition paid (delta : Z) (p p' : Purse) : Prop := purse_ok p' /\ wealth p' = wealth p + delta.

Lemma paid_refl p : purse_ok p -> paid 0 p p.
Proof. intros. split; [done|lia]. Qed.

Lemma paid_then d1 d2 delta p p1 p2 : paid d1 p p1 -> paid d2 p1 p2 -> d1 + d2 = delta -> paid delta p p2.
Proof. intros [_ E1] [H2 E2] Hd. split; [done|lia]. Qed.

Lemma supply_nonneg d : books_ok d -> 0 <= supply d.
Proof. intros Hb. pose proof (parts_nonneg d Hb). unfold supply. lia. Qed.

Lemma accrued_le_claims q ns : Pool.pool_wf q -> 0 <= Pool.accrued_for q ns <= Pool.claims (Pool.credits q).
Proof.
  intros Hwf. pose proof (Pool.claims_delete (Pool.credits q) ns) as Hd. unfold Pool.accrued_for.
  destruct (Pool.credits q !! ns) as [c|] eqn:E; cbn.
  - specialize (Hd c eq_refl). assert (0 <= Pool.claims (base.delete ns (Pool.credits q))).
    { apply Pool.claims_nonneg. apply map_Forall_delete, Pool.pool_wf_nonneg, Hwf. }
    pose proof (Pool.pool_wf_nonneg q Hwf ns c E) as Hc. cbn in Hc. lia.
  - pose proof (Pool.claims_nonneg _ (Pool.pool_wf_nonneg q Hwf)). lia.
Qed.

Lemma purse_parts p : purse_ok p -> 0 <= supply (books p) /\ 0 <= claims_of (pool p) /\ 0 <= pending_staker_rewards (acc p).
Proof.
  intros [Hb (q & Eq & Hq) Hp _]. rewrite Eq. cbn. pose proof (supply_nonneg _ Hb).
  pose proof (Pool.claims_nonneg _ (Pool.pool_wf_nonneg q Hq)). lia.
Qed.

(** The accumulator's other counters are not money. *)
Lemma with_acc_paid delta a p :
  purse_ok p -> pending_staker_rewards a = pending_staker_rewards (acc p) + delta -> 0 <= delta ->
  wealth p + delta <= U64_MAX -> paid delta p (with_acc a p).
Proof.
  intros [Hb Hq Hp Hw] Ha Hd Hle. assert (E : wealth (with_acc a p) = wealth p + delta).
  { unfold wealth. cbn [books pool acc with_acc]. lia. }
  split; [|done]. split; [done|done|cbn; lia|lia].
Qed.

Lemma with_books_paid delta d p :
  purse_ok p -> ledger delta (books p) d -> wealth p + delta <= U64_MAX -> paid delta p (with_books d p).
Proof.
  intros [Hb Hq Hp Hw] [Hd E] Hle. assert (Ew : wealth (with_books d p) = wealth p + delta) by (unfold wealth; cbn [books pool acc with_books]; lia).
  split; [|done]. split; [done..|lia].
Qed.

(** The three parts of the fees are the fees. *)
Lemma round_nonneg x : 0 <= F64.round_as_int x.
Proof. unfold F64.round_as_int, F64.saturate. destruct (F64.to_int _ x); [lia|]. by destruct x as [|[]| |]. Qed.

Lemma distribute_exact t fees :
  rate_ok (fee_burn_rate t) -> rate_ok (staker_fee_share t) -> 0 <= fees < 2 ^ 53 ->
  let d := distribute_fees t fees in
  0 <= burned d /\ 0 <= to_producer d /\ 0 <= to_stakers d /\ burned d + to_producer d + to_stakers d = fees.
Proof.
  intros Hb Hs Hf. cbv zeta. unfold distribute_fees. cbn [burned to_producer to_stakers].
  pose proof (fraction_le (fee_burn_rate t) fees Hb Hf) as [Hburn _].
  set (b := F64.round_as_int _) in *. clearbody b. rewrite (saturating_sub_exact fees b) by lia.
  pose proof (fraction_le (staker_fee_share t) (fees - b) Hs ltac:(lia)) as [Hst _].
  set (x := F64.round_as_int _) in *. clearbody x. rewrite saturating_sub_exact by lia. lia.
Qed.

Lemma split_exact t n :
  0 <= n -> let '(net, commission) := split_staker_pool t n in 0 <= net /\ 0 <= commission /\ net + commission = n.
Proof.
  intros Hn. unfold split_staker_pool. destruct (Z.eqb_spec n 0); [lia|].
  pose proof (round_nonneg (F64.mul (F64.of_int n) (f64_clamp F64.zero (F64.lit 1 1) (validator_commission_default t)))).
  set (x := F64.round_as_int _) in *. rewrite saturating_sub_exact by lia. lia.
Qed.

Section conservation.
Context `{Blake3, Pallas, HashOrder}.

Lemma credit_paid amount e a p :
  purse_ok p -> 0 <= amount -> wealth p + amount <= U64_MAX ->
  paid amount p (with_books (upsert_account (credit amount e) a (books p)) p).
Proof.
  intros Hp Ha Hw. pose proof (purse_parts p Hp). apply with_books_paid; [done| |done].
  apply credit_ledger; [by destruct Hp|done|unfold wealth in *; lia].
Qed.

Lemma reward_producer_paid producer alive e amount p :
  purse_ok p -> 0 <= amount -> wealth p + amount <= U64_MAX ->
  paid amount p (reward_producer producer alive e amount p).1 /\ acc (reward_producer producer alive e amount p).1 = acc p.
Proof.
  intros Hp Ha Hw. unfold reward_producer. destruct alive; [split; [by apply credit_paid|done]|]. split; [|done].
  pose proof (purse_parts p Hp) as (Hs0 & Hc0 & Hp0). destruct Hp as [Hb (q & Eq & Hq) Hpend Hle].
  cbn [fst]. rewrite Eq. cbn [fmap option_fmap option_map]. unfold wealth in *. rewrite Eq in *. cbn [claims_of from_option] in *.
  pose proof (accrued_le_claims q DEAD_PRODUCER_REFRESH_NAMESPACE Hq).
  destruct (Pool.accrue_cases q DEAD_PRODUCER_REFRESH_NAMESPACE amount e Hq) as (Hwf & Hc & _); [u64_lia|u64_lia|].
  assert (E : wealth (with_pool (Some (Pool.accrue q DEAD_PRODUCER_REFRESH_NAMESPACE amount e)) p)
    = supply (books p) + (Pool.claims (Pool.credits q) + amount) + pending_staker_rewards (acc p)).
  { unfold wealth. cbn [books pool acc with_pool claims_of from_option]. lia. }
  split; [|rewrite E; unfold wealth; rewrite Eq; cbn [claims_of from_option]; lia]. split; [done|by eexists|done|lia].
Qed.

(** A due that is paid when it is positive, and counted. *)
Lemma due_paid producer e alive amount p :
  purse_ok p -> 0 <= amount -> wealth p + amount <= U64_MAX ->
  let p' := (if 0 <? amount
             then reward_producer producer alive e amount (with_acc (add_to_producers amount (acc p)) p) else (p, 0)).1 in
  paid amount p p' /\ total_burned (acc p') = total_burned (acc p) /\ tokenomics (acc p') = tokenomics (acc p) /\
  total_minted (acc p') = total_minted (acc p).
Proof.
  intros Hp Ha Hw. cbv zeta. destruct (Z.ltb_spec 0 amount).
  2:{ replace amount with 0 by lia. split; [by apply paid_refl|done]. }
  destruct (with_acc_paid 0 (add_to_producers amount (acc p)) p) as [Hok1 E1]; [done|cbn; lia|lia|lia|].
  destruct (reward_producer_paid producer alive e amount _ Hok1) as [[Hok2 E2] ->]; [lia|lia|].
  split; [split; [done|lia]|done].
Qed.

Lemma commission_paid producer e alive amount p :
  purse_ok p -> 0 <= amount -> wealth p + amount <= U64_MAX ->
  let p' := (if 0 <? amount
             then let '(p, c) := reward_producer producer alive e amount p in
                  (with_acc (add_to_producers amount (acc p)) p, c)
             else (p, 0)).1 in
  paid amount p p' /\ total_burned (acc p') = total_burned (acc p) /\ tokenomics (acc p') = tokenomics (acc p) /\
  total_minted (acc p') = total_minted (acc p).
Proof.
  intros Hp Ha Hw. cbv zeta. destruct (Z.ltb_spec 0 amount).
  2:{ replace amount with 0 by lia. split; [by apply paid_refl|done]. }
  destruct (reward_producer_paid producer alive e amount p Hp) as [[Hok1 E1] Ha1]; [lia|lia|].
  destruct (reward_producer _ _ _ _ p) as [p1 c]. cbn [fst] in *.
  destruct (with_acc_paid 0 (add_to_producers amount (acc p1)) p1) as [Hok2 E2]; [done|cbn; lia|lia|destruct Hok1; lia|].
  cbn [acc with_acc add_to_producers total_burned tokenomics total_minted]. rewrite Ha1 in *. split; [split; [done|lia]|done].
Qed.

Lemma pay_attesters_ledger per dust e l d :
  books_ok d -> 0 <= per -> 0 <= dust -> per + dust <= U64_MAX ->
  (l = [] -> dust = 0) -> supply d + per * Z.of_nat (length l) + dust <= U64_MAX ->
  ledger (per * Z.of_nat (length l) + dust) d (pay_attesters per dust e l d).
Proof.
  revert dust d. induction l as [|a l IH]; intros dust d Hb Hp Hd Hfit Hnil Hs; cbn [pay_attesters length] in *.
  { rewrite Hnil by done. rewrite Z.mul_0_r. by apply ledger_refl. }
  rewrite Nat2Z.inj_succ in *. pose proof (Z.mul_nonneg_nonneg per (Z.of_nat (length l)) Hp ltac:(lia)).
  unfold wrapping_add. rewrite as_u64_small by u64_lia.
  assert (Hstep : ledger (per + dust) d (if 0 <? per + dust then upsert_account (credit (per + dust) e) a d else d)).
  { destruct (Z.ltb_spec 0 (per + dust)); [apply credit_ledger; [done|lia|lia]|].
    replace (per + dust) with 0 by lia. by apply ledger_refl. }
  eapply (ledger_seq _ (per + dust) (per * Z.of_nat (length l) + 0)); [lia|exact Hstep|].
  intros Hb1 E1. apply IH; [done|lia|lia|lia|done|lia].
Qed.

Lemma attesters_paid amount e l p :
  purse_ok p -> 0 < Z.of_nat (length l) -> 0 < amount -> wealth p + amount <= U64_MAX ->
  let n := Z.of_nat (length l) in
  paid amount p
    (with_books (pay_attesters (amount / n) (saturating_sub amount (as_u64 (amount / n * n))) e l (books p)) p).
Proof.
  intros Hp Hn Ha Hw. cbv zeta. pose proof (purse_parts p Hp) as Hparts. unfold wealth in Hw.
  assert (Hper : 0 <= amount / Z.of_nat (length l)) by (apply Z.div_pos; lia).
  pose proof (Z.mul_div_le amount (Z.of_nat (length l)) ltac:(lia)) as Hmul.
  rewrite as_u64_small by u64_lia. rewrite saturating_sub_exact by lia.
  replace amount with (amount / Z.of_nat (length l) * Z.of_nat (length l)
    + (amount - amount / Z.of_nat (length l) * Z.of_nat (length l))) at 1 by lia.
  apply with_books_paid; [done| |unfold wealth; lia].
  apply pay_attesters_ledger; [by destruct Hp|done|lia|nia|intros ->; cbn in *; lia|lia].
Qed.

Lemma mint_reward_paid producer e alive attesters reward p :
  purse_ok p -> 60 * reward <= U64_MAX -> wealth p + Z.max 0 reward <= U64_MAX ->
  total_minted (acc p) + Z.max 0 reward <= U64_MAX ->
  paid (Z.max 0 reward) p (mint_reward producer e alive attesters reward p).1 /\
  acc (mint_reward producer e alive attesters reward p).1 =
    if 0 <? reward then add_minted reward (acc p) else acc p.
Proof.
  intros Hp H60 Hw Hm. unfold mint_reward. destruct (Z.ltb_spec 0 reward) as [Hr|Hr].
  2:{ rewrite Z.max_l by lia. split; [by apply paid_refl|done]. }
  rewrite Z.max_r in * by lia. pose proof (purse_parts p Hp) as Hparts.
  set (p1 := with_acc (add_minted reward (acc p)) p).
  assert (Hm1 : paid 0 p p1) by (apply with_acc_paid; [done|cbn; lia|lia|lia]). destruct Hm1 as [Hok1 E1].
  destruct attesters as [|a rest].
  - destruct (Z.ltb_spec 0 reward); [|lia]. cbn [length Z.of_nat andb Z.ltb].
    destruct (reward_producer_paid producer alive e reward p1 Hok1) as [[Hok2 E2] Hacc]; [lia..|].
    destruct (reward_producer producer alive e reward p1) as [p2 c]. cbn [fst] in *. cbn.
    split; [split; [done|lia]|done].
  - set (l := a :: rest). set (n := Z.of_nat (length l)). assert (Hn : 0 < n) by (subst n l; cbn; lia).
    unfold wrapping_mul. rewrite (as_u64_small (reward * 60)) by u64_lia. set (share := reward * 60 / 100).
    assert (Hshare : 0 <= share <= reward).
    { subst share. split; [apply Z.div_pos; lia|apply Z.div_le_upper_bound; lia]. }
    rewrite saturating_sub_exact by lia.
    assert (Hm2 : paid share p1 (if 0 <? share then reward_producer producer alive e share p1 else (p1, 0)).1
      /\ acc (if 0 <? share then reward_producer producer alive e share p1 else (p1, 0)).1 = acc p1).
    { destruct (Z.ltb_spec 0 share); [apply reward_producer_paid; [done|lia..]|].
      cbn. replace share with 0 by lia. split; [by apply paid_refl|done]. }
    destruct (if 0 <? share then _ else _) as [p2 c]. cbn [fst] in Hm2. destruct Hm2 as [[Hok2 E2] Hacc2].
    generalize dependent share. intros share Hshare E2. destruct (Z.ltb_spec 0 (reward - share)) as [Hrest|Hrest].
    2:{ cbn [andb fst]. split; [split; [done|lia]|done]. }
    destruct (Z.eqb_spec n 0); [lia|]. cbn [andb negb fst]. split; [|done].
    apply (paid_then share (reward - share) _ p p2); [split; [done|lia]| |lia]. apply attesters_paid; [done|lia|lia|lia].
Qed.

Lemma share_fees_paid producer e fees alive p :
  purse_ok p -> rate_ok (fee_burn_rate (tokenomics (acc p))) -> rate_ok (staker_fee_share (tokenomics (acc p))) ->
  0 <= fees < 2 ^ 53 -> wealth p + fees <= U64_MAX -> total_burned (acc p) + fees <= U64_MAX ->
  let p' := (share_fees producer e fees alive p).1 in
  total_burned (acc p) <= total_burned (acc p') <= total_burned (acc p) + fees /\
  paid (fees - (total_burned (acc p') - total_burned (acc p))) p p' /\
  tokenomics (acc p') = tokenomics (acc p) /\ total_minted (acc p') = total_minted (acc p).
Proof.
  intros Hp Hb Hs Hf Hw Hfit. unfold share_fees. destruct (Z.ltb_spec 0 fees).
  2:{ cbn. replace fees with 0 by lia. rewrite Z.sub_diag. split_and!; [lia|lia|by apply paid_refl|done|done]. }
  pose proof (distribute_exact (tokenomics (acc p)) fees Hb Hs Hf) as (Hd1 & Hd2 & Hd3 & Hsum).
  set (dist := distribute_fees _ fees) in *. clearbody dist.
  set (p1 := with_acc (add_burned (burned dist) (acc p)) p).
  assert (Hm1 : paid 0 p p1) by (apply with_acc_paid; [done|cbn; lia|lia|lia]). destruct Hm1 as [Hok1 E1].
  assert (Eb : total_burned (acc p1) = total_burned (acc p) + burned dist) by (cbn; apply saturating_add_exact; lia).
  assert (Ht1 : tokenomics (acc p1) = tokenomics (acc p)) by done. assert (Hn1 : total_minted (acc p1) = total_minted (acc p)) by done.
  clearbody p1.
  destruct (due_paid producer e alive (to_producer dist) p1 Hok1) as ([Hok2 E2] & Eb2 & Ht2 & Hn2); [lia|lia|].
  destruct (if 0 <? to_producer dist then _ else _) as [p2 c1]. cbn [fst] in *. cbv zeta.
  destruct (Z.ltb_spec 0 (to_stakers dist)); cbn [fst].
  2:{ rewrite Eb2, Eb. split_and!; [lia|lia|split; [done|lia]|congruence|congruence]. }
  pose proof (split_exact (tokenomics (acc p2)) (to_stakers dist) ltac:(lia)) as Hsplit.
  destruct (split_staker_pool _ _) as [net commission]. destruct Hsplit as (Hnet & Hcom & Hsplit).
  destruct (commission_paid producer e alive commission p2 Hok2) as ([Hok3 E3] & Eb3 & Ht3 & Hn3); [lia|lia|].
  destruct (if 0 <? commission then _ else _) as [p3 c2]. cbn [fst] in *.
  destruct (Z.ltb_spec 0 net); cbn [fst].
  2:{ rewrite Eb3, Eb2, Eb. split_and!; [lia|lia|split; [done|lia]|congruence|congruence]. }
  pose proof (purse_parts p3 Hok3). destruct (with_acc_paid net (add_pending net (acc p3)) p3) as [Hok4 E4];
    [done|cbn; apply saturating_add_exact; unfold wealth in *; lia|lia|lia|].
  cbn [acc with_acc add_pending total_burned tokenomics total_minted]. rewrite Eb3, Eb2, Eb.
  split_and!; [lia|lia|split; [done|lia]|congruence|congruence].
Qed.

(** The tokens a block may still mint. *)
Definition supply_limit (t : Tokenomics) : option Z :=
  match emission t with Some e => max_supply e | None => max_supply_cap t end.

Lemma reward_within_limit t e minted cap :
  supply_limit t = Some cap -> minted <= cap -> minted + Z.max 0 (reward_due t e minted) <= cap.
Proof.
  unfold supply_limit, reward_due, block_reward_at, reward_at_epoch_capped. intros Hcap Hle.
  destruct (emission t) as [em|]; rewrite Hcap; destruct (Z.leb_spec cap minted); [lia| |lia|lia].
  destruct (Z.ltb_spec (Z.max 0 (cap - minted)) (scheduled em e)); [|lia].
  unfold as_u64. pose proof (Z.mod_le (Z.max 0 (cap - minted)) (2 ^ 64)). lia.
Qed.

Lemma patched_limit t e minted staked : supply_limit (patched t e minted staked) = supply_limit t.
Proof. unfold patched. destruct (emission t) eqn:E; [done|]. destruct (0 <? _); [|done]. unfold supply_limit. cbn. by rewrite E. Qed.

Lemma patched_rates t e minted staked :
  fee_burn_rate (patched t e minted staked) = fee_burn_rate t /\
  staker_fee_share (patched t e minted staked) = staker_fee_share t /\
  with_block_reward (block_reward t) (patched t e minted staked) = t.
Proof. unfold patched. destruct t, emission0; cbn; [done|]. destruct (0 <? _); done. Qed.

(** The rewards of a block, in full. *)
Lemma rewards_paid producer e fees alive attesters staked p :
  let t := tokenomics (acc p) in
  let reward := reward_due (patched t e (total_minted (acc p)) staked) e (total_minted (acc p)) in
  let p' := (process_block_rewards_v2 producer e fees alive attesters staked p).1 in
  purse_ok p -> rate_ok (fee_burn_rate t) -> rate_ok (staker_fee_share t) -> 0 <= fees < 2 ^ 53 ->
  60 * reward <= U64_MAX -> wealth p + Z.max 0 reward + fees <= U64_MAX ->
  total_minted (acc p) + Z.max 0 reward <= U64_MAX -> total_burned (acc p) + fees <= U64_MAX ->
  purse_ok p' /\ tokenomics (acc p') = t /\
  total_minted (acc p') = total_minted (acc p) + Z.max 0 reward /\
  total_burned (acc p) <= total_burned (acc p') <= total_burned (acc p) + fees /\
  wealth p' = wealth p + (total_minted (acc p') - total_minted (acc p)) + (fees - (total_burned (acc p') - total_burned (acc p))) /\
  (forall cap, supply_limit t = Some cap -> total_minted (acc p) <= cap -> total_minted (acc p') <= cap).
Proof.
  cbv zeta. intros Hp Hb Hs Hf H60 Hw Hm Hbu. unfold process_block_rewards_v2. set (t := tokenomics (acc p)) in *.
  destruct (patched_rates t e (total_minted (acc p)) staked) as (Er1 & Er2 & Er3).
  pose proof (fun cap => reward_within_limit (patched t e (total_minted (acc p)) staked) e (total_minted (acc p)) cap) as Hcap.
  rewrite patched_limit in Hcap.
  set (t' := patched _ _ _ _) in *. set (p0 := with_acc (with_tokenomics t' (acc p)) p).
  assert (Hm0 : paid 0 p p0) by (apply with_acc_paid; [done|cbn; lia|lia|lia]). destruct Hm0 as [Hok0 E0].
  change (total_minted (acc p0)) with (total_minted (acc p)). set (reward := reward_due t' e (total_minted (acc p))) in *.
  destruct (mint_reward_paid producer e alive attesters reward p0 Hok0) as [[Hok1 E1] Ha1]; [lia|lia|cbn; lia|].
  destruct (mint_reward _ _ _ _ _ p0) as [p1 c1]. cbn [fst] in *.
  assert (Hfields : tokenomics (acc p1) = t' /\ total_burned (acc p1) = total_burned (acc p) /\
    total_minted (acc p1) = total_minted (acc p) + Z.max 0 reward).
  { rewrite Ha1. destruct (Z.ltb_spec 0 reward); cbn; [rewrite saturating_add_exact by lia|]; split_and!; done || lia. }
  destruct Hfields as (Ht1 & Hb1 & Hm1).
  destruct (share_fees_paid producer e fees alive p1 Hok1) as (Hr2 & [Hok2 E2] & Ht2 & Hm2);
    [by rewrite Ht1, Er1|by rewrite Ht1, Er2|done|lia|lia|].
  destruct (share_fees _ _ _ _ p1) as [p2 c2]. cbn [fst] in *.
  destruct (with_acc_paid 0 (with_tokenomics (with_block_reward (block_reward t) (tokenomics (acc p2))) (acc p2)) p2) as [Hok3 E3];
    [done|cbn; lia|lia|destruct Hok2; lia|].
  cbn [acc with_acc with_tokenomics tokenomics total_minted total_burned]. rewrite Ht2, Ht1, Er3.
  rewrite Ht2, Ht1, Er3 in Hok3, E3.
  split_and!; [done|done|lia|lia|lia|lia|]. intros cap Hc Hle. specialize (Hcap cap Hc Hle). lia.
Qed.

(** C24: the rewards of a block come from somewhere.  Whatever the producer and
    the attesters are, alive or with a tombstone, the tokens in the books, in
    the refresh pool and owed to the stakers grow by exactly what is newly
    minted plus the collected fees less the burned ones; the mint counter
    advances by the reward of the schedule, a cap on it is respected, and the
    economics the yield cap patches for the time of the call are restored. *)
Theorem block_rewards_exact producer e fees alive attesters staked p :
  let t := tokenomics (acc p) in
  let reward := reward_due (patched t e (total_minted (acc p)) staked) e (total_minted (acc p)) in
  let p' := (process_block_rewards_v2 producer e fees alive attesters staked p).1 in
  purse_ok p -> rate_ok (fee_burn_rate t) -> rate_ok (staker_fee_share t) -> 0 <= fees < 2 ^ 53 ->
  60 * reward <= U64_MAX -> wealth p + Z.max 0 reward + fees <= U64_MAX ->
  total_minted (acc p) + Z.max 0 reward <= U64_MAX -> total_burned (acc p) + fees <= U64_MAX ->
  purse_ok p' /\ tokenomics (acc p') = t /\
  total_minted (acc p') = total_minted (acc p) + Z.max 0 reward /\
  total_burned (acc p) <= total_burned (acc p') <= total_burned (acc p) + fees /\
  wealth p' = wealth p + (total_minted (acc p') - total_minted (acc p)) + (fees - (total_burned (acc p') - total_burned (acc p))) /\
  (forall cap, supply_limit t = Some cap -> total_minted (acc p) <= cap -> total_minted (acc p') <= cap).
Proof. exact (rewards_paid producer e fees alive attesters staked p). Qed.
End conservation.

(** ** The stakers' part *)

Section stakers.
Context (P T : Z).
Context (HP : 0 <= P <= U64_MAX) (HT : 0 < T).

(** What the entries of [a] are worth, rounded down, and their number. *)
Definition floor_share (s : bytes * Z) : Z := P * s.2 / T.
Definition shares_of (a : bytes) (l : list (bytes * Z)) : Z :=
  sumZ ((fun s => if decide (s.1 = a) then floor_share s else 0) <$> l).
Definition entries_of (a : bytes) (l : list (bytes * Z)) : Z := sumZ ((fun s => if decide (s.1 = a) then 1 else 0) <$> l).

Lemma floor_bounds s : 0 <= s.2 -> 0 <= floor_share s /\ T * floor_share s <= P * s.2 <= T * floor_share s + (T - 1).
Proof.
  intros Hs. unfold floor_share. pose proof (Z.mul_div_le (P * s.2) T HT). pose proof (Z.mul_succ_div_gt (P * s.2) T HT).
  split; [apply Z.div_pos; nia|]. nia.
Qed.

Lemma floors_bounds l :
  Forall (fun s => 0 <= s.2) l ->
  0 <= sumZ (floor_share <$> l) /\ T * sumZ (floor_share <$> l) <= P * sumZ l.*2 /\
  P * sumZ l.*2 <= T * sumZ (floor_share <$> l) + (T - 1) * Z.of_nat (length l).
Proof.
  induction 1 as [|s l Hs _ IH]; [cbn; lia|]. pose proof (floor_bounds s Hs). unfold sumZ in *. csimpl.
  rewrite Nat2Z.inj_succ. nia.
Qed.

Lemma entries_nonneg a l : 0 <= entries_of a l.
Proof. apply sumZ_nonneg, Forall_fmap, Forall_true. intros s. cbn. case_decide; lia. Qed.
End stakers.

(** Nothing owed, nothing shared. *)
Lemma shares_of_zero T a l : shares_of 0 T a l = 0.
Proof.
  unfold shares_of, sumZ. induction l as [|s l IH]; csimpl; [done|]. rewrite IH. case_decide; [|done]. done.
Qed.

(** No stake exceeds the total. *)
Lemma stakes_le_total l :
  Forall (fun s : bytes * Z => 0 <= s.2) l -> Forall (fun s => 0 <= s.2 <= sumZ l.*2) l.
Proof.
  intros Hl. rewrite Forall_forall. intros s Hs. split; [rewrite Forall_forall in Hl; auto|].
  apply elem_of_Permutation in Hs as [k Hk]. rewrite Hk. rewrite Hk in Hl. inversion Hl as [|? ? _ Hk']; subst.
  assert (0 <= sumZ k.*2) by by apply sumZ_nonneg, Forall_fmap. change (s.2 <= s.2 + sumZ k.*2). lia.
Qed.

Section staker_rewards.
Context `{Blake3, Pallas, HashOrder}.

Lemma balance_credited amount e a b d :
  books_ok d -> 0 <= amount -> supply d + amount <= U64_MAX ->
  balance_of (upsert_account (credit amount e) a d) b = balance_of d b + (if decide (a = b) then amount else 0).
Proof.
  intros Hb Ha Hs. rewrite balance_upsert. case_decide as E; [|lia]. subst b. cbn. rewrite balance_found.
  pose proof (balance_le_accounts d a Hb) as Hle. rewrite balance_found in Hle. pose proof (parts_nonneg d Hb).
  apply saturating_add_exact. unfold supply in Hs. lia.
Qed.

Lemma pay_shares_ledger P T e l d n :
  0 <= P <= U64_MAX -> 0 < T -> Forall (fun s => 0 <= s.2 <= T) l -> books_ok d -> 0 <= n ->
  supply d + sumZ (floor_share P T <$> l) <= U64_MAX -> n + sumZ (floor_share P T <$> l) <= U64_MAX ->
  let '(d', n') := foldl (pay_share P T e) (d, n) l in
  ledger (sumZ (floor_share P T <$> l)) d d' /\ n' = n + sumZ (floor_share P T <$> l) /\
  forall a, balance_of d' a = balance_of d a + shares_of P T a l.
Proof.
  intros HP HT Hl. revert d n. induction Hl as [|s l Hs Hl IH]; intros d n Hb Hn Hd Hfit.
  { cbn. split_and!; [by apply ledger_refl|lia|intros; lia]. }
  pose proof (floor_bounds P T HP HT s ltac:(lia)) as [Hf0 Hf].
  assert (Hrest : 0 <= sumZ (floor_share P T <$> l)).
  { apply floors_bounds; [done..|]. eapply Forall_impl; [exact Hl|]. cbn. intros x Hx. lia. }
  assert (HfP : floor_share P T s <= P) by nia.
  assert (Esum : sumZ (floor_share P T <$> s :: l) = floor_share P T s + sumZ (floor_share P T <$> l)) by done.
  rewrite Esum in *. clear Esum. cbn [foldl].
  assert (Hstep : exists d1, pay_share P T e (d, n) s = (d1, n + floor_share P T s) /\ ledger (floor_share P T s) d d1 /\
    forall a, balance_of d1 a = balance_of d a + (if decide (s.1 = a) then floor_share P T s else 0)).
  { unfold pay_share. cbn [fst snd]. fold (floor_share P T s). rewrite as_u64_small by u64_lia.
    destruct (Z.ltb_spec 0 (floor_share P T s)).
    - eexists. rewrite saturating_add_exact by lia. split; [done|]. split; [apply credit_ledger; [done|lia|lia]|].
      intros a. apply balance_credited; [done|lia|lia].
    - replace (floor_share P T s) with 0 by lia. exists d. rewrite Z.add_0_r. split; [done|]. split; [by apply ledger_refl|].
      intros a. case_decide; lia. }
  destruct Hstep as (d1 & -> & [Hb1 E1] & Hbal). specialize (IH d1 (n + floor_share P T s) Hb1 ltac:(lia) ltac:(lia) ltac:(lia)).
  destruct (foldl _ _ l) as [d' n']. destruct IH as ([Hb2 E2] & -> & Hbal2).
  split_and!; [split; [done|lia]|lia|]. intros a. rewrite Hbal2, Hbal. unfold shares_of, sumZ. csimpl. lia.
Qed.

Lemma pay_dust_ledger r e l d n :
  0 <= r <= Z.of_nat (length l) -> books_ok d -> supply d + r <= U64_MAX -> 0 <= n -> n + r <= U64_MAX ->
  let '(d', n') := pay_dust r e l (d, n) in
  ledger r d d' /\ n' = n + r /\
  forall a, balance_of d a <= balance_of d' a <= balance_of d a + entries_of a l.
Proof.
  revert r d n. induction l as [|s l IH]; intros r d n Hr Hb Hs Hn Hfit; cbn [pay_dust].
  { cbn in Hr. replace r with 0 by lia. split_and!; [by apply ledger_refl|lia|]. intros a. cbn. lia. }
  assert (Hent : forall a, entries_of a (s :: l) = (if decide (s.1 = a) then 1 else 0) + entries_of a l) by done.
  destruct (Z.eqb_spec r 0) as [->|Hr0].
  { split_and!; [by apply ledger_refl|lia|]. intros a. pose proof (entries_nonneg a (s :: l)). lia. }
  cbn [fst snd]. rewrite saturating_sub_exact, saturating_add_exact by lia. cbn [length] in Hr.
  destruct (credit_ledger 1 e s.1 d Hb) as [Hb1 E1]; [lia|lia|].
  specialize (IH (r - 1) _ (n + 1) ltac:(lia) Hb1 ltac:(lia) ltac:(lia) ltac:(lia)).
  destruct (pay_dust _ _ l _) as [d' n']. destruct IH as ([Hb2 E2] & -> & Hbal).
  split_and!; [split; [done|lia]|lia|]. intros a. specialize (Hbal a). rewrite balance_credited in Hbal by (done || lia).
  rewrite Hent. case_decide; lia.
Qed.

(** A distribution, in full. *)
Lemma distribution_paid stakers e p :
  let pending := pending_staker_rewards (acc p) in
  let total := sumZ stakers.*2 in
  let p' := (distribute_staker_rewards stakers e p).1 in
  purse_ok p -> Forall (fun s => 0 <= s.2) stakers -> 0 < total <= U64_MAX ->
  purse_ok p' /\ wealth p' = wealth p /\ pending_staker_rewards (acc p') = 0 /\
  forall a, shares_of pending total a stakers <= balance_of (books p') a - balance_of (books p) a
    <= shares_of pending total a stakers + entries_of a stakers.
Proof.
  cbv zeta. intros Hp Hl HT. set (P := pending_staker_rewards (acc p)) in *. set (T := sumZ stakers.*2) in *.
  pose proof (purse_parts p Hp) as (Hs0 & Hc0 & Hp0). fold P in Hp0. pose proof (po_wealth p Hp) as Hw. unfold wealth in Hw. fold P in Hw.
  unfold distribute_staker_rewards. fold P. destruct (Z.eqb_spec P 0) as [HP0|HP0]; cbn [orb].
  { cbn [fst]. split_and!; [done|done|done|]. intros a.
    rewrite HP0, shares_of_zero.
    pose proof (entries_nonneg a stakers). lia. }
  case_bool_decide as Hnil; [subst stakers; cbn in HT; lia|]. cbn [orb].
  rewrite saturating_foldl_exact; [|by apply Forall_fmap|fold T; lia]. rewrite Z.add_0_l. fold T.
  destruct (Z.eqb_spec T 0); [lia|].
  pose proof (stakes_le_total stakers Hl) as Hin. fold T in Hin.
  destruct (floors_bounds P T ltac:(lia) ltac:(lia) stakers Hl) as (Hf0 & Hf1 & Hf2). fold T in Hf1, Hf2.
  assert (Hlen : 0 < Z.of_nat (length stakers)) by (destruct stakers; [done|cbn; lia]).
  assert (Hfl : sumZ (floor_share P T <$> stakers) <= P) by nia.
  assert (Hrem : P - sumZ (floor_share P T <$> stakers) <= Z.of_nat (length stakers)) by nia.
  pose proof (pay_shares_ledger P T e stakers (books p) 0 ltac:(lia) ltac:(lia) Hin (po_books p Hp) ltac:(lia) ltac:(lia) ltac:(lia)) as Hshare.
  destruct (foldl _ _ stakers) as [d paid_out]. destruct Hshare as ([Hb1 E1] & -> & Hbal1). rewrite Z.add_0_l in *.
  rewrite saturating_sub_exact by lia. set (F := sumZ (floor_share P T <$> stakers)) in *.
  pose proof (pay_dust_ledger (P - F) e (merge_sort stake_ge stakers) d F) as Hdust.
  rewrite (Permutation_length (merge_sort_Permutation stake_ge stakers)) in Hdust.
  specialize (Hdust ltac:(lia) Hb1 ltac:(lia) ltac:(lia) ltac:(lia)).
  assert (Hperm : forall a, entries_of a (merge_sort stake_ge stakers) = entries_of a stakers).
  { intros a. unfold entries_of. by rewrite merge_sort_Permutation. }
  assert (Hfinal : exists d2, (if 0 <? P - F then pay_dust (P - F) e (merge_sort stake_ge stakers) (d, F) else (d, F)) = (d2, P) /\
    ledger (P - F) d d2 /\ forall a, balance_of d a <= balance_of d2 a <= balance_of d a + entries_of a stakers).
  { destruct (Z.ltb_spec 0 (P - F)).
    - destruct (pay_dust _ _ _ _) as [d2 n2]. destruct Hdust as (Hd & -> & Hb2). exists d2. split; [f_equal; lia|].
      split; [done|]. intros a. rewrite <- Hperm. apply Hb2.
    - exists d. split; [f_equal; lia|]. replace (P - F) with 0 by lia. split; [by apply ledger_refl|].
      intros a. pose proof (entries_nonneg a stakers). lia. }
  destruct Hfinal as (d2 & -> & [Hb2 E2] & Hbal2). cbn [fst].
  assert (Ew : wealth (with_acc (take_pending P (acc p)) (with_books d2 p)) = wealth p).
  { unfold wealth. cbn [books pool acc with_acc with_books take_pending pending_staker_rewards]. fold P.
    rewrite saturating_sub_exact by lia. lia. }
  assert (Epend : pending_staker_rewards (take_pending P (acc p)) = 0).
  { cbn. fold P. rewrite saturating_sub_exact by lia. lia. }
  split_and!; [|done|done|].
  - split; [done|apply Hp|cbn [acc with_acc]; lia|rewrite Ew; apply Hp].
  - intros a. cbn [books with_acc with_books]. specialize (Hbal2 a). rewrite Hbal1 in Hbal2. lia.
Qed.

(** The stakers share exactly.  A distribution moves everything that is owed
    to the stakers into their accounts: nothing stays behind, nothing is added,
    and every account receives its proportional part rounded down, plus at most
    one token of the remainder for each of its entries. *)
Theorem staker_rewards_exact stakers e p :
  let pending := pending_staker_rewards (acc p) in
  let total := sumZ stakers.*2 in
  let p' := (distribute_staker_rewards stakers e p).1 in
  purse_ok p -> Forall (fun s => 0 <= s.2) stakers -> 0 < total <= U64_MAX ->
  purse_ok p' /\ wealth p' = wealth p /\ pending_staker_rewards (acc p') = 0 /\
  forall a, shares_of pending total a stakers <= balance_of (books p') a - balance_of (books p) a
    <= shares_of pending total a stakers + entries_of a stakers.
Proof. exact (distribution_paid stakers e p). Qed.
End staker_rewards.
