(* ===== verification/Upkeep.v ===== *)
(** * Upkeep at the end of an epoch

    What the executor does to the books besides transactions: storage rent
    and the tombstones of exhausted accounts ([collect_storage_rent] of
    crates/evaporchain-execution/src/lib.rs, crates/evaporchain-tombstone),
    demurrage (crates/evaporchain-demurrage and demurrage_integration.rs), the
    release of vesting schedules ([tick_vesting]) and the logical clock
    (crates/evaporchain-decay-lamport).  Rent and demurrage move tokens into
    the refresh pool and lose none. *)

From stdpp Require Import base gmap list strings.
From Stdlib Require Import ZArith Lia.
From S2P Require Import Prelude Energy EnergyKernel Types Trie StateDB Validators Fees Temporal Executor Governance BlockExecutor Ledger Nonces Authorisation Rewards Lifecycle.

Open Scope Z_scope.

(** ** Tombstones *)

Inductive CauseOfDeath :=
| Evaporated
| ForgottenViaDecayProof
| SlashedToZero
| RentExhausted
| OtherCause (n : Z).

Definition discriminant (c : CauseOfDeath) : Z :=
  match c with
  | Evaporated => 1
  | ForgottenViaDecayProof => 2
  | SlashedToZero => 3
  | RentExhausted => 4
  | OtherCause n => (1000 + n) mod 2 ^ 32
  end.

Definition TOMBSTONE_TAG : bytes := bytes_of_string "evaporchain-tombstone".
Definition ROOT_TAG : bytes := bytes_of_string "evaporchain-eulogy-trie".

Definition mint_input (addr : bytes) (final_balance final_epoch : Z) (c : CauseOfDeath) : bytes :=
  TOMBSTONE_TAG ++ addr ++ to_le_bytes 8 final_balance ++ to_le_bytes 8 final_epoch ++ to_le_bytes 4 (discriminant c).

Definition mint `{Blake3} (addr : bytes) (final_balance final_epoch : Z) (c : CauseOfDeath) : bytes :=
  blake3 (mint_input addr final_balance final_epoch c).

(** Address to tombstone. *)
Abbreviation EulogyTrie := (gmap bytes bytes).

Inductive EulogyError := AlreadyMemorialised (addr : bytes).

Definition eulogy_insert (addr tombstone : bytes) (t : EulogyTrie) : EulogyTrie * result unit EulogyError :=
  match t !! addr with
  | Some _ => (t, Err (AlreadyMemorialised addr))
  | None => (<[ addr := tombstone ]> t, Ok tt)
  end.

Definition eulogy_contains (t : EulogyTrie) (addr : bytes) : bool := bool_decide (is_Some (t !! addr)).

Definition eulogy_root_input (t : EulogyTrie) : bytes :=
  ROOT_TAG ++ to_le_bytes 8 (Z.of_nat (base.size t)) ++
  concat ((fun a => a ++ default [] (t !! a)) <$> sort_bytes (map_to_list t).*1).

Definition eulogy_root `{Blake3} (t : EulogyTrie) : bytes := blake3 (eulogy_root_input t).

(** ** Demurrage *)

Definition MAX_LOG2_RATIO : Z := 64.

Record DemurrageParams := { lambda_base_ppm : Z; threshold : Z }.

Definition demurrage_default : DemurrageParams := {| lambda_base_ppm := 1; threshold := 250000 |}.
Definition mainnet_calibration : DemurrageParams := {| lambda_base_ppm := 1; threshold := 100000000 |}.
Definition disabled : DemurrageParams := {| lambda_base_ppm := 0; threshold := U64_MAX |}.
Definition is_disabled (p : DemurrageParams) : bool := lambda_base_ppm p =? 0.

Definition bit_length (n : Z) : Z := if n =? 0 then 0 else 64 - leading_zeros n.

Definition rate_ppm (balance : Z) (p : DemurrageParams) : Z :=
  if is_disabled p then 0
  else if balance <=? threshold p then 0
  else
    let log_ratio := Z.min (saturating_sub (bit_length balance) (bit_length (threshold p))) MAX_LOG2_RATIO in
    saturating_mul (lambda_base_ppm p) log_ratio.

(** The product saturates at 128 bits. *)
Definition demurrage_owed (balance last_touched_epoch current_epoch : Z) (p : DemurrageParams) : Z :=
  if balance =? 0 then 0
  else if current_epoch <=? last_touched_epoch then 0
  else
    let elapsed := current_epoch - last_touched_epoch in
    let rate := rate_ppm balance p in
    if rate =? 0 then 0
    else
      let scaled := saturating_mul_u128 (saturating_mul_u128 balance rate) elapsed in
      Z.min (scaled / 1000000) balance.

Record ApplyOutcome := { demurrage : Z; new_last_touched_epoch : Z }.
Inductive ApplyError := AccountsBelowOwed (available owed : Z) | RedirectFailed (e : Kernel.RedirectError).

(** The version that goes through a kernel redirect. *)
Definition apply_demurrage (account_balance last_touched_epoch current_epoch : Z) (p : DemurrageParams) (ns : bytes)
    (st : Kernel.EnergyAccumulator * Pool.RefreshPool)
  : (Kernel.EnergyAccumulator * Pool.RefreshPool) * result ApplyOutcome ApplyError :=
  let owed := demurrage_owed account_balance last_touched_epoch current_epoch p in
  if owed =? 0 then (st, Ok {| demurrage := 0; new_last_touched_epoch := current_epoch |})
  else if Kernel.index st.1 Kernel.Accounts <? owed
  then (st, Err (AccountsBelowOwed (Kernel.index st.1 Kernel.Accounts) owed))
  else
    match Kernel.apply {| Kernel.kind := Kernel.Demurrage; Kernel.amount := owed |} st.1 with
    | (a, Err e) => ((a, st.2), Err (RedirectFailed e))
    | (a, Ok _) =>
        ((a, Pool.accrue st.2 ns owed current_epoch), Ok {| demurrage := owed; new_last_touched_epoch := current_epoch |})
    end.

(** What rent and demurrage move. *)
Record Vault := {
  v_db : InMemoryStateDB;
  v_pool : Pool.RefreshPool;
  v_eulogy : EulogyTrie;
}.

Record DemurrageOutcome := { dm_total : Z; dm_charges : gmap bytes Z }.

(** [acct.balance = balance.saturating_sub(x)], with a new anchor. *)
Definition charge (amount epoch : Z) (a : Account) : Account :=
  with_funds (saturating_sub (a_balance a) amount) (a_nonce a) epoch a.

Definition STORAGE_RENT_PER_BYTE_PER_EPOCH : Z := 1.
Definition SYSTEM_REFRESH_NAMESPACE : bytes := bytes_of_string "evaporchain-system-refresh".

Definition pay_rent (rent : Z) (a : Account) : Account :=
  with_funds (a_balance a - rent) (a_nonce a) (a_last_touched_epoch a) a.

(** An account whose balance does not cover its rent. *)
Definition wiped (a : Account) : Account :=
  {| a_address := a_address a; a_balance := 0; a_nonce := a_nonce a; a_storage_deposit := 0; a_storage_bytes := 0;
     a_last_touched_epoch := a_last_touched_epoch a; a_vesting := a_vesting a |}.

Section upkeep.
Context `{Blake3, Pallas, HashOrder}.

Definition charge_rent (epoch : Z) (v : Vault) (addr : bytes) : Vault :=
  match get_account (v_db v) addr with
  | None => v
  | Some acct =>
      if a_storage_bytes acct =? 0 then v
      else
        let rent := saturating_mul (a_storage_bytes acct) STORAGE_RENT_PER_BYTE_PER_EPOCH in
        let '(d, eulogy, debited) :=
          if rent <=? a_balance acct
          then (upsert_account (pay_rent rent) addr (v_db v), v_eulogy v, rent)
          else (upsert_account wiped addr (v_db v),
                (eulogy_insert addr (mint addr (a_balance acct) epoch RentExhausted) (v_eulogy v)).1, a_balance acct) in
        {| v_db := d;
           v_pool := if 0 <? debited then Pool.accrue (v_pool v) SYSTEM_REFRESH_NAMESPACE debited epoch else v_pool v;
           v_eulogy := eulogy |}
  end.

Definition collect_storage_rent (epoch : Z) (v : Vault) : Vault :=
  foldl (charge_rent epoch) v (all_account_addresses (v_db v)).

Definition charge_demurrage (params : DemurrageParams) (last_epoch current_epoch : Z) (st : Vault * DemurrageOutcome) (addr : bytes)
  : Vault * DemurrageOutcome :=
  let '(v, out) := st in
  match get_account (v_db v) addr with
  | None => st
  | Some acct =>
      let anchor := Z.max (a_last_touched_epoch acct) last_epoch in
      let owed := demurrage_owed (a_balance acct) anchor current_epoch params in
      if owed =? 0 then st
      else
        let actual := Z.min owed (a_balance acct) in
        if actual =? 0 then st
        else
          ({| v_db := modify_account (charge actual current_epoch) addr (v_db v);
              v_pool := Pool.accrue (v_pool v) addr actual current_epoch; v_eulogy := v_eulogy v |},
           {| dm_total := saturating_add (dm_total out) actual; dm_charges := <[ addr := actual ]> (dm_charges out) |})
  end.

Definition collect_demurrage (params : DemurrageParams) (last_epoch current_epoch : Z) (v : Vault) : Vault * DemurrageOutcome :=
  let out := {| dm_total := 0; dm_charges := ∅ |} in
  if current_epoch <=? last_epoch then (v, out)
  else foldl (charge_demurrage params last_epoch current_epoch) (v, out) (all_account_addresses (v_db v)).

(** ** Vesting *)

Definition released (amount : Z) (s : VestingSchedule) : VestingSchedule :=
  {| vs_id := vs_id s; beneficiary := beneficiary s; total_amount := total_amount s; start_epoch := start_epoch s;
     cliff_epochs := cliff_epochs s; vesting_epochs := vesting_epochs s;
     released_amount := saturating_add (released_amount s) amount |}.

Definition all_vesting_schedules (db : InMemoryStateDB) : list VestingSchedule :=
  omap (fun k => vesting_schedules db !! k) (hash_keys (vesting_schedules db)).

Definition release_one (epoch : Z) (d : InMemoryStateDB) (s : VestingSchedule) : InMemoryStateDB :=
  let pending := pending_release_at s epoch in
  if (pending =? 0) && negb (is_fully_vested s) then d
  else
    let d := if 0 <? pending then upsert_account (credit pending epoch) (beneficiary s) d else d in
    let s := released pending s in
    if is_fully_vested s then (remove_vesting_schedule (vs_id s) d).1 else put_vesting_schedule s d.

Definition tick_vesting (epoch : Z) (d : InMemoryStateDB) : InMemoryStateDB :=
  foldl (release_one epoch) d (all_vesting_schedules d).
End upkeep.

(** ** The logical clock *)

Record LamportClock := { current_tick : Z; accumulated_energy : Z; tick_quantum : Z }.

Inductive TickError := ZeroQuantum.
Inductive Ordering := Less | Equal | Greater.

Definition clock_new (quantum : Z) : LamportClock := {| current_tick := 0; accumulated_energy := 0; tick_quantum := quantum |}.

Definition tick (c : LamportClock) (energy_spent : Z) : result LamportClock TickError :=
  if tick_quantum c =? 0 then Err ZeroQuantum
  else
    let total := accumulated_energy c + energy_spent in
    Ok {| current_tick := saturating_add (current_tick c) (as_u64 (total / tick_quantum c));
          accumulated_energy := as_u64 (total mod tick_quantum c); tick_quantum := tick_quantum c |}.

Definition merge (c other : LamportClock) : LamportClock :=
  {| current_tick := Z.max (current_tick c) (current_tick other); accumulated_energy := 0; tick_quantum := tick_quantum c |}.

Definition precedes (c other : LamportClock) : Ordering :=
  if current_tick c <? current_tick other then Less else if current_tick c =? current_tick other then Equal else Greater.

Definition DEFAULT_TICK_QUANTUM : Z := 21000.
Definition genesis_clock : LamportClock := clock_new DEFAULT_TICK_QUANTUM.

Definition tick_block (c : LamportClock) (energy_spent : Z) : LamportClock :=
  match tick c energy_spent with Ok c' => c' | Err _ => c end.

(** ** Sweeps over the accounts

    A sweep visits the accounts in the order of a hash table.  Each visit
    touches its own account only, so the order does not matter. *)

Lemma foldl_alter_lookup {A} (f : A -> A) (l : list bytes) (m : gmap bytes A) (k : bytes) :
  NoDup l -> foldl (fun m k => alter f k m) m l !! k = if decide (k ∈ l) then f <$> m !! k else m !! k.
Proof.
  intros Hnd. revert m. induction Hnd as [|x l Hx Hnd IH]; intros m; cbn [foldl].
  { by rewrite decide_False by apply not_elem_of_nil. }
  rewrite IH. destruct (decide (k = x)) as [->|Hk].
  - rewrite decide_False by done. rewrite decide_True by left. by rewrite lookup_alter_eq.
  - rewrite lookup_alter_ne by done. destruct (decide (k ∈ l)) as [Hin|Hin].
    + by rewrite decide_True by by right.
    + rewrite decide_False; [done|]. by rewrite elem_of_cons; intros [?|?].
Qed.

Lemma foldl_alter_all `{HashOrder} {A} (f : A -> A) (m : gmap bytes A) :
  foldl (fun m k => alter f k m) m (hash_keys m) = f <$> m.
Proof.
  apply map_eq. intros k. rewrite foldl_alter_lookup by apply hash_keys_NoDup. rewrite lookup_fmap.
  case_decide as Hin; [done|]. rewrite elem_of_hash_keys in Hin. apply eq_None_not_Some in Hin. by rewrite Hin.
Qed.

Definition vault_wealth (v : Vault) : Z := supply (v_db v) + Pool.claims (Pool.credits (v_pool v)).

Record vault_ok (v : Vault) : Prop := {
  vo_books : books_ok (v_db v);
  vo_pool : Pool.pool_wf (v_pool v);
  vo_wealth : vault_wealth v <= U64_MAX;
}.

(** What a sweep leaves alone. *)
Record swept (v v' : Vault) : Prop := {
  sw_ok : vault_ok v';
  sw_wealth : vault_wealth v' = vault_wealth v;
  sw_stakes : stakes (v_db v') = stakes (v_db v);
  sw_delegations : delegations (v_db v') = delegations (v_db v);
  sw_schedules : vesting_schedules (v_db v') = vesting_schedules (v_db v);
  sw_rent_epoch : last_rent_epoch (v_db v') = last_rent_epoch (v_db v);
}.

Lemma swept_refl v : vault_ok v -> swept v v.
Proof. by split. Qed.

Lemma swept_trans v1 v2 v3 : swept v1 v2 -> swept v2 v3 -> swept v1 v3.
Proof. intros [] []. split; [done|congruence..]. Qed.

(** Money from an account into the pool. *)
Lemma accrue_swept v d amount ns e eul :
  vault_ok v -> 0 <= amount -> ledger (- amount) (v_db v) d -> stakes d = stakes (v_db v) ->
  delegations d = delegations (v_db v) -> vesting_schedules d = vesting_schedules (v_db v) ->
  last_rent_epoch d = last_rent_epoch (v_db v) ->
  swept v {| v_db := d; v_pool := Pool.accrue (v_pool v) ns amount e; v_eulogy := eul |}.
Proof.
  intros [Hb Hp Hw] Ha [Hd Es] H1 H2 H3 H4. pose proof (accrued_le_claims (v_pool v) ns Hp).
  pose proof (supply_nonneg _ Hd). unfold vault_wealth in *.
  destruct (Pool.accrue_cases (v_pool v) ns amount e Hp) as (Hwf & Hc & _); [u64_lia|lia|].
  split; cbn; [|unfold vault_wealth; cbn; lia|done..]. split; cbn; [done|done|unfold vault_wealth; cbn; lia].
Qed.

Section sweeps.
Context `{Blake3, Pallas, HashOrder}.

Lemma upsert_frame f a d :
  vesting_schedules (upsert_account f a d) = vesting_schedules d /\ last_rent_epoch (upsert_account f a d) = last_rent_epoch d.
Proof. unfold upsert_account, get_or_create_account. by destruct (accounts d !! a). Qed.

Lemma modify_frame f a d :
  vesting_schedules (modify_account f a d) = vesting_schedules d /\ last_rent_epoch (modify_account f a d) = last_rent_epoch d.
Proof. unfold modify_account, get_account_mut. by destruct (decide _), (accounts d !! a). Qed.

Lemma accounts_upsert_alter f a d x : accounts d !! a = Some x -> accounts (upsert_account f a d) = alter f a (accounts d).
Proof.
  intros E. rewrite accounts_upsert, E. cbn. apply map_eq. intros k. destruct (decide (k = a)) as [->|Hk].
  - by rewrite lookup_insert_eq, lookup_alter_eq, E.
  - by rewrite lookup_insert_ne, lookup_alter_ne.
Qed.

(** *** Rent *)

Definition rent_of (a : Account) : Z := saturating_mul (a_storage_bytes a) STORAGE_RENT_PER_BYTE_PER_EPOCH.
Definition exhausted (a : Account) : bool := negb (a_storage_bytes a =? 0) && (a_balance a <? rent_of a).

(** An account after the rent of an epoch. *)
Definition rented (a : Account) : Account :=
  if a_storage_bytes a =? 0 then a else if rent_of a <=? a_balance a then pay_rent (rent_of a) a else wiped a.

Definition memorial (e : Z) (addr : bytes) (a : Account) : option bytes :=
  if exhausted a then Some (mint addr (a_balance a) e RentExhausted) else None.

Lemma pay_rent_ledger r a d :
  books_ok d -> 0 <= r <= a_balance (found d a) -> ledger (- r) d (upsert_account (pay_rent r) a d).
Proof.
  intros Hb Hr. destruct (found_ok d a Hb) as [Hbal Hn Hv Hsb]. apply upsert_ledger; [done| |cbn; lia|destruct Hb; lia].
  split; cbn; [u64_lia|done|done|done].
Qed.

Lemma wiped_ledger a d : books_ok d -> ledger (- a_balance (found d a)) d (upsert_account wiped a d).
Proof.
  intros Hb. destruct (found_ok d a Hb) as [Hbal Hn Hv Hsb]. apply upsert_ledger; [done| |cbn; lia|destruct Hb; u64_lia].
  split; cbn; [u64_lia|done|done|done].
Qed.

Lemma charge_rent_step e v a :
  vault_ok v ->
  swept v (charge_rent e v a) /\ accounts (v_db (charge_rent e v a)) = alter rented a (accounts (v_db v)) /\
  v_eulogy (charge_rent e v a) =
    v_eulogy v ∪ from_option (fun x => from_option (fun t => {[ a := t ]}) ∅ (memorial e a x)) ∅ (accounts (v_db v) !! a).
Proof.
  intros Hv. unfold charge_rent, get_account. destruct (accounts (v_db v) !! a) as [x|] eqn:E; cbn [from_option].
  2:{ split; [by apply swept_refl|]. split; [|by rewrite (right_id_L ∅ (∪))]. by apply alter_None. }
  assert (Hf : found (v_db v) a = x) by (unfold found; by rewrite E).
  unfold memorial, exhausted. unfold rented at 1. assert (Hpos : 0 <= a_storage_bytes x) by (rewrite <- Hf; apply found_ok, Hv).
  destruct (Z.eqb_spec (a_storage_bytes x) 0) as [Ez|Ez]; cbn [negb andb from_option].
  { split; [by apply swept_refl|]. split; [|by rewrite (right_id_L ∅ (∪))]. symmetry. apply alter_id.
    intros y Ey. rewrite E in Ey. injection Ey as <-. unfold rented. by rewrite Ez. }
  fold (rent_of x). assert (Hr : 0 <= rent_of x) by (unfold rent_of, saturating_mul, STORAGE_RENT_PER_BYTE_PER_EPOCH, U64_MAX; lia).
  destruct (found_ok (v_db v) a (vo_books v Hv)) as [Hbal _ _ _]. rewrite Hf in Hbal.
  assert (Hacc : forall amount, 0 <= amount -> (if 0 <? amount then Pool.accrue (v_pool v) SYSTEM_REFRESH_NAMESPACE amount e else v_pool v)
    = Pool.accrue (v_pool v) SYSTEM_REFRESH_NAMESPACE amount e).
  { intros amount Ha. destruct (Z.ltb_spec 0 amount); [done|]. unfold Pool.accrue. by replace amount with 0 by lia. }
  assert (Hcase : accounts (upsert_account (if rent_of x <=? a_balance x then pay_rent (rent_of x) else wiped) a (v_db v))
    = alter rented a (accounts (v_db v))).
  { rewrite (accounts_upsert_alter _ _ _ x E). apply alter_ext. intros y Ey. rewrite E in Ey. injection Ey as <-.
    unfold rented. destruct (Z.eqb_spec (a_storage_bytes x) 0); [done|]. by destruct (rent_of x <=? a_balance x). }
  destruct (Z.leb_spec (rent_of x) (a_balance x)) as [Hle|Hlt].
  - rewrite Hacc by done. destruct (upsert_books (pay_rent (rent_of x)) a (v_db v)) as [? ? _ _].
    destruct (upsert_frame (pay_rent (rent_of x)) a (v_db v)) as [? ?]. cbn [v_db v_eulogy].
    destruct (Z.ltb_spec (a_balance x) (rent_of x)); [lia|]. cbn [from_option]. rewrite (right_id_L ∅ (∪)).
    split; [|done]. apply accrue_swept; [done|done| |done..]. apply pay_rent_ledger; [apply Hv|by rewrite Hf].
  - rewrite Hacc by u64_lia. destruct (upsert_books wiped a (v_db v)) as [? ? _ _].
    destruct (upsert_frame wiped a (v_db v)) as [? ?]. cbn [v_db v_eulogy].
    destruct (Z.ltb_spec (a_balance x) (rent_of x)); [|lia]. cbn [from_option].
    split; [|split; [done|]].
    + apply accrue_swept; [done|u64_lia| |done..]. rewrite <- Hf. apply wiped_ledger, Hv.
    + unfold eulogy_insert. apply map_eq. intros k. destruct (v_eulogy v !! a) as [t|] eqn:Et; cbn [fst].
      * rewrite lookup_union. destruct (decide (k = a)) as [->|Hk]; [by rewrite Et, lookup_singleton_eq|].
        rewrite lookup_singleton_ne by done. by destruct (v_eulogy v !! k).
      * destruct (decide (k = a)) as [->|Hk].
        -- by rewrite lookup_insert_eq, lookup_union, Et, lookup_singleton_eq.
        -- rewrite lookup_insert_ne, lookup_union, lookup_singleton_ne by done. by destruct (v_eulogy v !! k).
Qed.

Lemma rent_sweep e l v :
  NoDup l -> vault_ok v ->
  let v' := foldl (charge_rent e) v l in
  swept v v' /\ accounts (v_db v') = foldl (fun m k => alter rented k m) (accounts (v_db v)) l /\
  forall k, v_eulogy v' !! k =
    match v_eulogy v !! k with
    | Some t => Some t
    | None => if decide (k ∈ l) then accounts (v_db v) !! k ≫= memorial e k else None
    end.
Proof.
  intros Hnd. revert v. induction Hnd as [|a l Ha Hnd IH]; intros v Hv; cbn [foldl]; cbv zeta.
  { split; [by apply swept_refl|]. split; [done|]. intros k. rewrite decide_False by apply not_elem_of_nil.
    by destruct (v_eulogy v !! k). }
  destruct (charge_rent_step e v a Hv) as (Hs1 & Ea1 & Ee1).
  destruct (IH (charge_rent e v a) (sw_ok _ _ Hs1)) as (Hs2 & Ea2 & Ee2).
  split; [by eapply swept_trans|]. split; [by rewrite Ea2, Ea1|]. intros k. rewrite Ee2, Ee1, Ea1, lookup_union.
  destruct (v_eulogy v !! k) as [t|] eqn:Et.
  { destruct (from_option _ ∅ (accounts (v_db v) !! a) !! k); done. }
  destruct (decide (k = a)) as [->|Hk].
  - rewrite (decide_False (P := a ∈ l)) by done. rewrite decide_True by left.
    destruct (accounts (v_db v) !! a) as [x|]; cbn; [|by rewrite lookup_empty].
    destruct (memorial e a x) as [t|]; cbn; [by rewrite lookup_singleton_eq|by rewrite lookup_empty].
  - assert (Hno : (from_option (fun x => from_option (fun t => {[ a := t ]}) ∅ (memorial e a x)) ∅ (accounts (v_db v) !! a) : gmap bytes bytes) !! k = None).
    { destruct (accounts (v_db v) !! a) as [x|]; cbn; [|by rewrite lookup_empty].
      destruct (memorial e a x); cbn; [by rewrite lookup_singleton_ne|by rewrite lookup_empty]. }
    rewrite Hno. cbn. rewrite lookup_alter_ne by done. destruct (decide (k ∈ l)) as [Hin|Hin].
    + by rewrite decide_True by by right.
    + rewrite decide_False; [done|]. by rewrite elem_of_cons; intros [?|?].
Qed.

(** Rent is collected exactly, in whatever order the accounts are visited:
    every account pays one token per stored byte, or what it has when that is
    not enough, in which case its storage is wiped and it gets a tombstone
    (unless it has one); accounts without storage keep everything.  What the
    accounts lose the refresh pool gains. *)
Theorem storage_rent_exact e v :
  vault_ok v ->
  let v' := collect_storage_rent e v in
  swept v v' /\ accounts (v_db v') = rented <$> accounts (v_db v) /\
  v_eulogy v' = v_eulogy v ∪ map_imap (memorial e) (accounts (v_db v)).
Proof.
  intros Hv. cbv zeta. unfold collect_storage_rent, all_account_addresses.
  destruct (rent_sweep e (hash_keys (accounts (v_db v))) v (hash_keys_NoDup _) Hv) as (Hs & Ea & Ee).
  split; [done|]. split; [by rewrite Ea, foldl_alter_all|]. apply map_eq. intros k. rewrite Ee, lookup_union, map_lookup_imap.
  destruct (v_eulogy v !! k); [by destruct (accounts (v_db v) !! k ≫= _)|]. cbn.
  case_decide as Hin; [by destruct (accounts (v_db v) !! k ≫= _)|]. rewrite elem_of_hash_keys in Hin.
  apply eq_None_not_Some in Hin. by rewrite Hin.
Qed.

(** *** Demurrage *)

Definition demurrage_due (p : DemurrageParams) (last current : Z) (a : Account) : Z :=
  demurrage_owed (a_balance a) (Z.max (a_last_touched_epoch a) last) current p.

Definition demurred (p : DemurrageParams) (last current : Z) (a : Account) : Account :=
  if demurrage_due p last current a =? 0 then a else charge (demurrage_due p last current a) current a.

Definition params_ok (p : DemurrageParams) : Prop := 0 <= lambda_base_ppm p.

Lemma rate_nonneg b p : params_ok p -> 0 <= rate_ppm b p.
Proof.
  intros Hp. unfold rate_ppm. destruct (is_disabled p); [lia|]. destruct (_ <=? _); [lia|].
  unfold saturating_mul, saturating_sub, MAX_LOG2_RATIO, U64_MAX, params_ok in *. nia.
Qed.

(** An account owes at most its balance, and nothing below the threshold. *)
Lemma owed_bounds b last current p : params_ok p -> 0 <= b -> 0 <= demurrage_owed b last current p <= b.
Proof.
  intros Hp Hb. unfold demurrage_owed. destruct (Z.eqb_spec b 0); [lia|]. destruct (Z.leb_spec current last); [lia|].
  pose proof (rate_nonneg b p Hp). destruct (Z.eqb_spec (rate_ppm b p) 0); [lia|].
  assert (0 <= saturating_mul_u128 (saturating_mul_u128 b (rate_ppm b p)) (current - last) / 1000000); [|lia].
  apply Z.div_pos; [|lia]. unfold saturating_mul_u128. nia.
Qed.

Lemma owed_small b last current p : b <= threshold p -> demurrage_owed b last current p = 0.
Proof.
  intros Hb. unfold demurrage_owed, rate_ppm. destruct (b =? 0); [done|]. destruct (current <=? last); [done|].
  destruct (is_disabled p); [done|]. destruct (Z.leb_spec b (threshold p)); [done|lia].
Qed.

Lemma charge_ledger amount e a d :
  books_ok d -> 0 <= amount <= a_balance (found d a) -> ledger (- amount) d (upsert_account (charge amount e) a d).
Proof.
  intros Hb Hr. destruct (found_ok d a Hb) as [Hbal Hn Hv Hsb]. apply upsert_ledger; [done| |cbn|destruct Hb; lia].
  - split; cbn; [u64_lia|done|done|done].
  - rewrite saturating_sub_exact by lia. lia.
Qed.

Lemma charge_demurrage_step p last current v out a :
  params_ok p -> vault_ok v ->
  let '(v', out') := charge_demurrage p last current (v, out) a in
  swept v v' /\ accounts (v_db v') = alter (demurred p last current) a (accounts (v_db v)) /\ v_eulogy v' = v_eulogy v /\
  (0 <= dm_total out -> dm_total out + Pool.claims (Pool.credits (v_pool v')) - Pool.claims (Pool.credits (v_pool v)) <= U64_MAX ->
   dm_total out' = dm_total out + (Pool.claims (Pool.credits (v_pool v')) - Pool.claims (Pool.credits (v_pool v)))) /\
  Pool.claims (Pool.credits (v_pool v)) <= Pool.claims (Pool.credits (v_pool v')).
Proof.
  intros Hp Hv. unfold charge_demurrage, get_account. destruct (accounts (v_db v) !! a) as [x|] eqn:E.
  2:{ split; [by apply swept_refl|]. split; [by apply alter_None|]. split; [done|]. lia. }
  fold (demurrage_due p last current x). assert (Hf : found (v_db v) a = x) by (unfold found; by rewrite E).
  destruct (found_ok (v_db v) a (vo_books v Hv)) as [Hbal _ _ _]. rewrite Hf in Hbal.
  pose proof (owed_bounds (a_balance x) (Z.max (a_last_touched_epoch x) last) current p Hp ltac:(u64_lia)) as Ho.
  fold (demurrage_due p last current x) in Ho. rewrite Z.min_l by lia.
  destruct (Z.eqb_spec (demurrage_due p last current x) 0) as [Ez|Ez].
  { split; [by apply swept_refl|]. split_and!; [|done|lia|lia]. symmetry. apply alter_id.
    intros y Ey. rewrite E in Ey. injection Ey as <-. unfold demurred. by rewrite Ez. }
  set (x' := demurrage_due p last current x) in *.
  assert (Hs : swept v {| v_db := modify_account (charge x' current) a (v_db v);
    v_pool := Pool.accrue (v_pool v) a x' current; v_eulogy := v_eulogy v |}).
  { destruct (modify_books (charge x' current) a (v_db v)) as [? ? _ _]. destruct (modify_frame (charge x' current) a (v_db v)).
    apply accrue_swept; [done|lia| |done..]. rewrite modify_upsert by (rewrite E; by eexists).
    apply charge_ledger; [apply Hv|rewrite Hf; lia]. }
  pose proof (sw_wealth _ _ Hs) as Hw. unfold vault_wealth in Hw. cbn [v_db v_pool] in Hw |- *.
  assert (Hc : Pool.claims (Pool.credits (Pool.accrue (v_pool v) a x' current)) = Pool.claims (Pool.credits (v_pool v)) + x').
  { pose proof (accrued_le_claims (v_pool v) a (vo_pool v Hv)). pose proof (vo_wealth v Hv) as Hvw. unfold vault_wealth in Hvw.
    pose proof (balance_le_accounts (v_db v) a (vo_books v Hv)) as Hble. rewrite balance_found, Hf in Hble.
    pose proof (parts_nonneg (v_db v) (vo_books v Hv)). unfold supply in Hvw.
    destruct (Pool.accrue_cases (v_pool v) a x' current (vo_pool v Hv)) as (_ & Hc & _); [u64_lia|lia|done]. }
  rewrite Hc. split; [done|]. split_and!; [|done| |lia].
  - rewrite accounts_modify. apply alter_ext. intros y Ey. rewrite E in Ey. injection Ey as <-.
    unfold demurred. subst x'. by destruct (Z.eqb_spec (demurrage_due p last current x) 0).
  - intros H0' Hfit. cbn. rewrite saturating_add_exact by lia. lia.
Qed.

Lemma demurrage_sweep p last current l v out :
  params_ok p -> vault_ok v -> 0 <= dm_total out ->
  dm_total out + vault_wealth v - Pool.claims (Pool.credits (v_pool v)) <= U64_MAX ->
  let '(v', out') := foldl (charge_demurrage p last current) (v, out) l in
  swept v v' /\ accounts (v_db v') = foldl (fun m k => alter (demurred p last current) k m) (accounts (v_db v)) l /\
  v_eulogy v' = v_eulogy v /\
  dm_total out' = dm_total out + (Pool.claims (Pool.credits (v_pool v')) - Pool.claims (Pool.credits (v_pool v))) /\
  Pool.claims (Pool.credits (v_pool v)) <= Pool.claims (Pool.credits (v_pool v')).
Proof.
  intros Hp. revert v out. induction l as [|a l IH]; intros v out Hv H0' Hfit; cbn [foldl].
  { split; [by apply swept_refl|]. split_and!; [done|done|lia|lia]. }
  pose proof (charge_demurrage_step p last current v out a Hp Hv) as Hstep.
  destruct (charge_demurrage p last current (v, out) a) as [v1 out1]. destruct Hstep as (Hs1 & Ea1 & Ee1 & Ht1 & Hle1).
  pose proof (supply_nonneg _ (vo_books _ (sw_ok _ _ Hs1))) as Hs0. pose proof (sw_wealth _ _ Hs1) as Hw1.
  unfold vault_wealth in Hw1, Hfit. specialize (Ht1 H0' ltac:(lia)).
  specialize (IH v1 out1 (sw_ok _ _ Hs1) ltac:(lia) ltac:(unfold vault_wealth; lia)).
  destruct (foldl _ _ l) as [v2 out2]. destruct IH as (Hs2 & Ea2 & Ee2 & Ht2 & Hle2).
  split; [by eapply swept_trans|]. split_and!; [by rewrite Ea2, Ea1|congruence|lia|lia].
Qed.

(** Nothing is owed at the epoch of the anchor. *)
Lemma settled_due p last current x a : demurrage_due p last current (charge x current a) = 0.
Proof.
  unfold demurrage_due, demurrage_owed. cbn [charge with_funds a_balance a_last_touched_epoch].
  destruct (saturating_sub (a_balance a) x =? 0); [done|]. destruct (Z.leb_spec current (Z.max current last)); [done|lia].
Qed.

(** Demurrage is swept into the pool. *)
Lemma collect_demurrage_swept p last current v :
  params_ok p -> vault_ok v -> swept v (collect_demurrage p last current v).1.
Proof.
  intros Hp Hv. unfold collect_demurrage. destruct (current <=? last); [by apply swept_refl|].
  pose proof (vo_wealth v Hv) as Hw. pose proof (Pool.claims_nonneg _ (Pool.pool_wf_nonneg _ (vo_pool v Hv))).
  pose proof (demurrage_sweep p last current (all_account_addresses (v_db v)) v {| dm_total := 0; dm_charges := ∅ |} Hp Hv) as Hsw.
  specialize (Hsw ltac:(cbn; lia) ltac:(cbn; lia)). destruct (foldl _ _ _) as [v' out']. by destruct Hsw.
Qed.

(** C25: demurrage is collected exactly, in whatever order the accounts are
    visited: every account is charged what its balance owes since it was last
    touched or last swept, at most its balance and nothing up to the threshold;
    a second sweep of the same epoch charges nothing; the pool gains, and the
    outcome reports, the sum of the charges. *)
Theorem demurrage_exact p last current v :
  params_ok p -> vault_ok v ->
  let '(v', out) := collect_demurrage p last current v in
  swept v v' /\ accounts (v_db v') = demurred p last current <$> accounts (v_db v) /\ v_eulogy v' = v_eulogy v /\
  dm_total out = Pool.claims (Pool.credits (v_pool v')) - Pool.claims (Pool.credits (v_pool v)) /\
  forall a, 0 <= a_balance a ->
    0 <= a_balance (demurred p last current a) <= a_balance a /\
    (a_balance a <= threshold p -> demurred p last current a = a) /\
    demurred p last current (demurred p last current a) = demurred p last current a.
Proof.
  intros Hp Hv. unfold collect_demurrage.
  assert (Hacc : forall a, 0 <= a_balance a ->
    0 <= a_balance (demurred p last current a) <= a_balance a /\
    (a_balance a <= threshold p -> demurred p last current a = a) /\
    demurred p last current (demurred p last current a) = demurred p last current a).
  { intros a Ha. pose proof (owed_bounds (a_balance a) (Z.max (a_last_touched_epoch a) last) current p Hp Ha) as Ho.
    split; [|split].
    - unfold demurred, demurrage_due in *. destruct (_ =? 0); [lia|]. cbn. rewrite saturating_sub_exact by lia. lia.
    - intros Hle. unfold demurred, demurrage_due. by rewrite (owed_small _ _ _ _ Hle).
    - unfold demurred at 2 3. destruct (Z.eqb_spec (demurrage_due p last current a) 0) as [Ez|Ez].
      + unfold demurred. by rewrite Ez.
      + unfold demurred. by rewrite settled_due. }
  destruct (Z.leb_spec current last) as [Hle|Hlt].
  - split; [by apply swept_refl|]. split_and!; [|done|cbn; lia|done]. symmetry. rewrite <- (map_fmap_id (accounts (v_db v))) at 2.
    apply map_fmap_ext. intros k a Ha. cbn. unfold demurred, demurrage_due, demurrage_owed.
    destruct (a_balance a =? 0); [done|]. destruct (Z.leb_spec current (Z.max (a_last_touched_epoch a) last)); [done|lia].
  - pose proof (vo_wealth v Hv) as Hw. pose proof (supply_nonneg _ (vo_books v Hv)).
    pose proof (Pool.claims_nonneg _ (Pool.pool_wf_nonneg _ (vo_pool v Hv))).
    pose proof (demurrage_sweep p last current (all_account_addresses (v_db v)) v {| dm_total := 0; dm_charges := ∅ |} Hp Hv) as Hsw.
    specialize (Hsw ltac:(cbn; lia) ltac:(cbn; lia)). destruct (foldl _ _ _) as [v' out'].
    destruct Hsw as (Hs & Ea & Ee & Ht & _). cbn in Ht. split; [done|]. split_and!; [|done|lia|done].
    rewrite Ea. apply foldl_alter_all.
Qed.
End sweeps.

(** ** Releases *)

Lemma hash_values_perm `{HashOrder} {K A} `{Countable K} (m : gmap K A) :
  omap (fun k => m !! k) (hash_keys m) ≡ₚ (map_to_list m).*2.
Proof.
  rewrite hash_keys_perm. assert (Hall : forall k x, (k, x) ∈ map_to_list m -> m !! k = Some x) by (intros; by apply elem_of_map_to_list).
  revert Hall. generalize (map_to_list m). intros l Hall. induction l as [|[k x] l IH]; [done|]. csimpl.
  rewrite (Hall k x) by left. constructor. apply IH. intros. apply Hall. by right.
Qed.

Lemma total_list {K A} `{Countable K} (f : A -> Z) (m : gmap K A) : Ledger.total f m = sumZ (f <$> (map_to_list m).*2).
Proof.
  unfold Ledger.total. rewrite map_fold_foldr. unfold sumZ. induction (map_to_list m) as [|[k x] l IH]; [done|]. csimpl. by rewrite IH.
Qed.

Record schedules_ok (m : gmap Z VestingSchedule) : Prop := {
  so_keys : map_Forall (fun k s => vs_id s = k) m;
  so_released : map_Forall (fun _ s => is_u64 (released_amount s)) m;
}.

(** A schedule after its release at an epoch; a completed one is dropped. *)
Definition settled (e : Z) (s : VestingSchedule) : option VestingSchedule :=
  let s' := released (pending_release_at s e) s in if is_fully_vested s' then None else Some s'.

Section vesting.
Context `{Blake3, Pallas, HashOrder}.

Lemma released_nothing s : is_u64 (released_amount s) -> released 0 s = s.
Proof. intros Hs. unfold released. rewrite saturating_add_exact by u64_lia. rewrite Z.add_0_r. by destruct s. Qed.

Lemma pending_nonneg s e : 0 <= pending_release_at s e.
Proof. unfold pending_release_at, saturating_sub. lia. Qed.

Lemma release_one_step e d s :
  books_ok d -> is_u64 (released_amount s) -> supply d + pending_release_at s e <= U64_MAX ->
  vesting_schedules d !! vs_id s = Some s ->
  ledger (pending_release_at s e) d (release_one e d s) /\
  vesting_schedules (release_one e d s) = partial_alter (fun _ => settled e s) (vs_id s) (vesting_schedules d).
Proof.
  intros Hb Hs Hfit Hin. unfold release_one, settled. pose proof (pending_nonneg s e) as Hp.
  set (x := pending_release_at s e) in *.
  destruct (Z.eqb_spec x 0) as [Ex|Ex]; destruct (is_fully_vested s) eqn:Ef; cbn [andb negb].
  2:{ rewrite Ex, released_nothing, Ef by done. split; [by apply ledger_refl|]. symmetry. by apply partial_alter_id. }
  all: set (d1 := if 0 <? x then upsert_account (credit x e) (beneficiary s) d else d).
  all: assert (Hd1 : ledger x d d1) by (subst d1; destruct (Z.ltb_spec 0 x);
    [apply credit_ledger; [done|lia|lia]|replace x with 0 by lia; by apply ledger_refl]).
  all: assert (Hv1 : vesting_schedules d1 = vesting_schedules d) by (subst d1; destruct (0 <? x); [apply upsert_frame|done]).
  all: clearbody d1; change (vs_id (released x s)) with (vs_id s);
    destruct (is_fully_vested (released x s)); split;
    first [by eapply ledger_view|by rewrite <- Hv1].
Qed.

Lemma release_all e l d :
  books_ok d -> NoDup (vs_id <$> l) -> Forall (fun s => is_u64 (released_amount s) /\ vesting_schedules d !! vs_id s = Some s) l ->
  supply d + sumZ ((fun s => pending_release_at s e) <$> l) <= U64_MAX ->
  let d' := foldl (release_one e) d l in
  ledger (sumZ ((fun s => pending_release_at s e) <$> l)) d d' /\
  (forall k, k ∉ vs_id <$> l -> vesting_schedules d' !! k = vesting_schedules d !! k) /\
  (forall s, s ∈ l -> vesting_schedules d' !! vs_id s = settled e s).
Proof.
  revert d. induction l as [|s l IH]; intros d Hb Hnd Hall Hfit; cbv zeta; cbn [foldl].
  { split; [by apply ledger_refl|]. split; [done|]. intros s Hs. by apply elem_of_nil in Hs. }
  rewrite fmap_cons in *. apply NoDup_cons in Hnd as [Hs Hnd]. apply Forall_cons in Hall as [[Hrel Hin] Hall].
  assert (Hrest : 0 <= sumZ ((fun s => pending_release_at s e) <$> l)).
  { apply sumZ_nonneg, Forall_fmap, Forall_true. intros. apply pending_nonneg. }
  change (sumZ (pending_release_at s e :: ((fun s => pending_release_at s e) <$> l)))
    with (pending_release_at s e + sumZ ((fun s => pending_release_at s e) <$> l)) in *.
  destruct (release_one_step e d s Hb Hrel ltac:(lia) Hin) as [[Hb1 E1] Hv1].
  assert (Hall1 : Forall (fun s' => is_u64 (released_amount s') /\ vesting_schedules (release_one e d s) !! vs_id s' = Some s') l).
  { rewrite Forall_forall in Hall |- *. intros s' Hs'. destruct (Hall s' Hs') as [? ?]. split; [done|].
    rewrite Hv1, lookup_partial_alter_ne; [done|]. intros E. apply Hs. rewrite E. by apply list_elem_of_fmap_2. }
  destruct (IH (release_one e d s) Hb1 Hnd Hall1 ltac:(lia)) as ([Hb2 E2] & Hout & Hins).
  split; [split; [done|lia]|]. split.
  - intros k Hk. rewrite ?fmap_cons, not_elem_of_cons in Hk. destruct Hk as [Hk1 Hk2]. rewrite Hout, Hv1, lookup_partial_alter_ne by done. done.
  - intros s' [->|Hs']%elem_of_cons; [|by apply Hins]. by rewrite Hout, Hv1, lookup_partial_alter_eq.
Qed.

(** The releases of a block, in full. *)
Lemma vesting_released e d :
  books_ok d -> schedules_ok (vesting_schedules d) ->
  supply d + Ledger.total (fun s => pending_release_at s e) (vesting_schedules d) <= U64_MAX ->
  ledger (Ledger.total (fun s => pending_release_at s e) (vesting_schedules d)) d (tick_vesting e d) /\
  vesting_schedules (tick_vesting e d) = omap (settled e) (vesting_schedules d).
Proof.
  intros Hb [Hkeys Hrel] Hfit. unfold tick_vesting, all_vesting_schedules. set (m := vesting_schedules d) in *.
  rewrite total_list in *. pose proof (hash_values_perm m) as Hperm. set (l := omap (fun k => m !! k) (hash_keys m)) in *.
  rewrite <- Hperm in *.
  assert (Hids : vs_id <$> (map_to_list m).*2 = (map_to_list m).*1).
  { rewrite <- list_fmap_compose. apply list_fmap_ext. intros i [k s] Hi. cbn.
    apply (Hkeys k s). apply elem_of_map_to_list. by apply list_elem_of_lookup_2 in Hi. }
  assert (Hmem : forall s, s ∈ l <-> m !! vs_id s = Some s).
  { intros s. rewrite Hperm, list_elem_of_fmap. split.
    - intros ([k s'] & -> & Hin%elem_of_map_to_list). cbn. by rewrite (Hkeys k s' Hin).
    - intros Hs. exists (vs_id s, s). split; [done|]. by apply elem_of_map_to_list. }
  destruct (release_all e l d Hb) as (Hled & Hout & Hins); [| |done|].
  - rewrite Hperm, Hids. apply NoDup_fst_map_to_list.
  - rewrite Forall_forall. intros s Hs%Hmem. split; [by apply (Hrel _ _ Hs)|done].
  - split; [done|]. apply map_eq. intros k. rewrite lookup_omap. destruct (m !! k) as [s|] eqn:E; cbn.
    + pose proof (Hkeys k s E) as <-. by apply Hins, Hmem.
    + rewrite Hout; [done|]. rewrite list_elem_of_fmap. intros (s & -> & Hs%Hmem). congruence.
Qed.

(** Releases are exact: at the end of a block every schedule has released
    what is vested at its epoch, the beneficiaries are credited exactly the
    difference, completed schedules are dropped, and the supply grows by the
    sum of the releases, in whatever order the schedules are visited. *)
Theorem vesting_exact e d :
  books_ok d -> schedules_ok (vesting_schedules d) ->
  supply d + Ledger.total (fun s => pending_release_at s e) (vesting_schedules d) <= U64_MAX ->
  ledger (Ledger.total (fun s => pending_release_at s e) (vesting_schedules d)) d (tick_vesting e d) /\
  vesting_schedules (tick_vesting e d) = omap (settled e) (vesting_schedules d).
Proof. exact (vesting_released e d). Qed.

(** After a release nothing is pending at the same epoch. *)
Lemma settled_pending e s s' : is_u64 (released_amount s) -> schedule_wf s -> 0 <= e -> settled e s = Some s' -> pending_release_at s' e = 0.
Proof.
  intros Hr Hwf He. unfold settled. destruct (is_fully_vested _); [done|]. intros [= <-].
  assert (Hv : vested_at (released (pending_release_at s e) s) e = vested_at s e) by done.
  unfold pending_release_at at 1. rewrite Hv. cbn [released released_amount]. unfold pending_release_at.
  destruct (vested_at_schedule s e e Hwf ltac:(lia)) as (Hv0 & Hv1 & _). destruct Hwf as [Ht _]. unfold saturating_sub, saturating_add, U64_MAX. u64_lia.
Qed.
End vesting.
