(* ===== verification/Lyapunov.v ===== *)
(** * The fee state with leak

    crates/evaporchain-fee-controller and [tick_lyapunov_fee_state] of
    crates/evaporchain-execution/src/lib.rs: an energy pulled towards its
    target by decay and pushed by the difference between used and target gas,
    the quadratic value it reports, and the base fee read off it.  The value
    falls on blocks at the gas target and at most quadruples otherwise; a state
    at the target, which is where every chain starts, never moves. *)

From stdpp Require Import base list.
From Stdlib Require Import ZArith Lia.
From S2P Require Import Prelude Energy EnergyKernel.

Open Scope Z_scope.

Module Lyapunov.

Record FeeControllerParams := {
  target_energy : Z;
  target_gas : Z;
  chain_lambda : Kernel.ChainLambda;
  fee_response_ppm : Z;
  base_fee_floor : Z;
}.

Definition params_default : FeeControllerParams :=
  {| target_energy := 1000000; target_gas := 30000000; chain_lambda := {| Kernel.lambda := Kernel.DEFAULT_LAMBDA |};
     fee_response_ppm := 125000; base_fee_floor := 1000 |}.

Record FeeState := { energy : Z }.

Definition at_equilibrium (target : Z) : FeeState := {| energy := target |}.

Definition signed_diff (energy target : Z) : Z := energy - target.

(** The square saturates at 128 bits. *)
Definition lyapunov_value (energy target : Z) : Z :=
  let diff := Z.abs (signed_diff energy target) in saturating_mul_u128 diff diff / 2.

Record Drift := { v_before : Z; v_after : Z; delta : Z }.

Inductive FeeControllerError := NoTimeElapsed.

(** [i128::clamp]; the bounds are never crossed here. *)
Definition i128_clamp (lo hi x : Z) : Z := if x <? lo then lo else if hi <? x then hi else x.

Definition step (p : FeeControllerParams) (s : FeeState) (gas_used epochs_elapsed : Z)
  : result (FeeState * Drift) FeeControllerError :=
  if epochs_elapsed =? 0 then Err NoTimeElapsed
  else
    let v_before := lyapunov_value (energy s) (target_energy p) in
    let diff_before := signed_diff (energy s) (target_energy p) in
    let abs_diff := as_u64 (Z.abs diff_before) in
    let decayed_abs := energy_at_epoch abs_diff (Kernel.half_life (chain_lambda p)) epochs_elapsed in
    let decayed_diff := if 0 <=? diff_before then decayed_abs else - decayed_abs in
    let raw_perturbation := gas_used - target_gas p in
    let perturbation := i128_clamp (- decayed_abs) decayed_abs raw_perturbation in
    let new_diff := decayed_diff + perturbation in
    let new_energy := as_u64 (Z.max (target_energy p + new_diff) 0) in
    let v_after := lyapunov_value new_energy (target_energy p) in
    Ok ({| energy := new_energy |}, {| v_before := v_before; v_after := v_after; delta := v_after - v_before |}).

Definition base_fee (s : FeeState) (p : FeeControllerParams) : Z :=
  let diff := signed_diff (energy s) (target_energy p) in
  if diff <=? 0 then base_fee_floor p
  else
    let response := fee_response_ppm p * diff / 1000000 in
    let total := base_fee_floor p + response in
    if total <? 0 then 0 else if U64_MAX <? total then U64_MAX else total.

(** [SimpleExecutor::tick_lyapunov_fee_state]: the state after a block; an
    error leaves it as it is. *)
Definition tick_fee_state (p : FeeControllerParams) (s : FeeState) (gas_used epochs_elapsed : Z) : FeeState :=
  match step p s gas_used epochs_elapsed with Ok (s', _) => s' | Err _ => s end.

(** ** Drift *)

Definition distance (s : FeeState) (p : FeeControllerParams) : Z := Z.abs (energy s - target_energy p).

Lemma lyapunov_mono a b t : Z.abs (a - t) <= Z.abs (b - t) -> lyapunov_value a t <= lyapunov_value b t.
Proof.
  intros Hle. unfold lyapunov_value, signed_diff. apply Z.div_le_mono; [lia|]. unfold saturating_mul_u128. nia.
Qed.

(** The shape of a step whose energies fit in 64 bits. *)
Lemma step_shape p s gas n :
  is_u64 (energy s) -> is_u64 (target_energy p) -> 0 <= Kernel.half_life (chain_lambda p) -> 0 < n ->
  target_energy p + 2 * distance s p <= U64_MAX ->
  exists s' d k, step p s gas n = Ok (s', d) /\ 0 <= k <= distance s p /\
    v_before d = lyapunov_value (energy s) (target_energy p) /\ v_after d = lyapunov_value (energy s') (target_energy p) /\
    delta d = v_after d - v_before d /\
    energy s' = Z.max 0 (target_energy p + (if target_energy p <=? energy s then k else - k) + i128_clamp (- k) k (gas - target_gas p)).
Proof.
  intros He Ht Hh Hn Hfit. unfold step. destruct (Z.eqb_spec n 0); [lia|]. unfold signed_diff, distance in *.
  rewrite (as_u64_small (Z.abs _)) by u64_lia.
  set (k := energy_at_epoch (Z.abs (energy s - target_energy p)) (Kernel.half_life (chain_lambda p)) n).
  assert (Hk : 0 <= k <= Z.abs (energy s - target_energy p)) by (apply energy_at_epoch_range; [u64_lia|done|lia]).
  do 2 eexists. exists k. split; [done|]. cbn [v_before v_after delta energy]. split_and!; [lia|lia|done|done|done|].
  assert (Hc : - k <= i128_clamp (- k) k (gas - target_gas p) <= k) by (unfold i128_clamp; zcase; lia).
  replace (0 <=? energy s - target_energy p) with (target_energy p <=? energy s) by (apply eq_true_iff_eq; rewrite !Z.leb_le; lia).
  rewrite as_u64_small; [destruct (target_energy p <=? energy s); lia|].
  destruct (target_energy p <=? energy s); u64_lia.
Qed.

(** A block at the gas target brings the energy closer to its target and lowers
    the value; any block at most doubles the distance; and at the target the
    state does not move, whatever gas the block uses. *)
Theorem fee_state_drift p s gas n :
  is_u64 (energy s) -> is_u64 (target_energy p) -> 0 <= Kernel.half_life (chain_lambda p) -> 0 < n ->
  target_energy p + 2 * distance s p <= U64_MAX ->
  exists s' d, step p s gas n = Ok (s', d) /\ distance s' p <= 2 * distance s p /\
    (gas = target_gas p -> distance s' p <= distance s p /\ delta d <= 0) /\
    (distance s p = 0 -> s' = s /\ delta d = 0).
Proof.
  intros He Ht Hh Hn Hfit. destruct (step_shape p s gas n He Ht Hh Hn Hfit) as (s' & d & k & Hs & Hk & Eb & Ea & Ed & Ee).
  exists s', d. split; [done|]. assert (Hc : - k <= i128_clamp (- k) k (gas - target_gas p) <= k) by (unfold i128_clamp; zcase; lia).
  unfold distance in *. split; [destruct (target_energy p <=? energy s); u64_lia|]. split.
  - intros Eg. assert (Hd : Z.abs (energy s' - target_energy p) <= Z.abs (energy s - target_energy p)).
    { rewrite Ee, Eg, Z.sub_diag. unfold i128_clamp. destruct (target_energy p <=? energy s); zcase; u64_lia. }
    split; [done|]. pose proof (lyapunov_mono _ _ _ Hd). lia.
  - intros E0. assert (Es : energy s' = energy s) by (destruct (target_energy p <=? energy s); u64_lia).
    split; [clear -Es; destruct s, s'; cbn in Es; by rewrite Es|]. rewrite Ed, Ea, Eb, Es. lia.
Qed.

(** Blocks one after the other, with the gas each used. *)
Definition run_blocks (p : FeeControllerParams) (s : FeeState) (gas : list Z) : FeeState :=
  foldl (fun s g => tick_fee_state p s g 1) s gas.

Lemma tick_fixed p gas :
  is_u64 (target_energy p) -> 0 <= Kernel.half_life (chain_lambda p) ->
  tick_fee_state p (at_equilibrium (target_energy p)) gas 1 = at_equilibrium (target_energy p).
Proof.
  intros Ht Hh. set (s := at_equilibrium (target_energy p)). assert (E : distance s p = 0) by (unfold distance; cbn; lia).
  destruct (step_shape p s gas 1) as (s' & d & k & Hs & Hk & _ & _ & _ & Ee); [done|done|done|lia|u64_lia|].
  unfold tick_fee_state. rewrite Hs. assert (k = 0) by lia. subst k. destruct s' as [e']. cbn in *. f_equal.
  rewrite Ee. unfold i128_clamp. destruct (target_energy p <=? target_energy p); zcase; u64_lia.
Qed.

(** The fee never reacts.  A chain starts with its fee state at the target;
    there the push of a block is clipped to nothing, so after any blocks, empty
    or full, the state is the same and the fee is the floor. *)
Theorem fee_state_frozen p gas :
  is_u64 (target_energy p) -> 0 <= Kernel.half_life (chain_lambda p) ->
  run_blocks p (at_equilibrium (target_energy p)) gas = at_equilibrium (target_energy p) /\
  base_fee (run_blocks p (at_equilibrium (target_energy p)) gas) p = base_fee_floor p.
Proof.
  intros Ht Hh. assert (E : run_blocks p (at_equilibrium (target_energy p)) gas = at_equilibrium (target_energy p)).
  { unfold run_blocks. induction gas as [|g gas IH]; [done|]. cbn [foldl]. by rewrite tick_fixed. }
  split; [done|]. rewrite E. unfold base_fee, signed_diff. cbn. by rewrite Z.sub_diag.
Qed.

Lemma fee_state_frozen_witness :
  let full := repeat 60000000 500 in
  run_blocks params_default (at_equilibrium 1000000) full = at_equilibrium 1000000 /\
  base_fee (run_blocks params_default (at_equilibrium 1000000) full) params_default = 1000.
Proof. cbv zeta. apply (fee_state_frozen params_default (repeat 60000000 500)); [cbn; u64_lia|done]. Defined.

(** One block away from the target the value can grow: a full block above the
    target nearly doubles the distance, an empty one below it too. *)
Lemma drift_grows :
  (exists s d, step params_default {| energy := 1100000 |} 60000000 1 = Ok (s, d) /\ energy s = 1199976 /\ 0 < delta d) /\
  (exists s d, step params_default {| energy := 900000 |} 0 1 = Ok (s, d) /\ energy s = 800024 /\ 0 < delta d).
Proof. split; do 2 eexists; (split; [vm_compute; reflexivity|]); by vm_compute. Qed.

End Lyapunov.
