(* ===== verification/EvapProof.v ===== *)
(** * Evaporation proofs

    crates/evaporchain-proving/src/evaporation_proof.rs: the transcript proof of
    the objects a block evaporated, its prover and its verifier, and the claims
    [execute_block] of crates/evaporchain-execution/src/lib.rs makes from the
    ghosts of a sweep. *)

From stdpp Require Import base gmap list strings.
From Stdlib Require Import ZArith Lia.
From S2P Require Import Prelude Energy Trie Types.

Open Scope Z_scope.

Module EvapProof.

(** ** The transcript *)

(** The hasher of a transcript is the bytes it has been fed. *)
Definition transcript_new (domain : bytes) : bytes := bytes_of_string "evaporchain-evaporation-proof-v1:" ++ domain.

Definition append (label : string) (data : bytes) (t : bytes) : bytes :=
  t ++ bytes_of_string label ++ u32_prefixed data.

Definition append_u64 (label : string) (val : Z) (t : bytes) : bytes := append label (to_le_bytes 8 val) t.

Definition challenge `{Blake3} (t : bytes) : bytes := blake3 t.

(** ** Statements *)

Record EnergyDecayStatement := {
  ds_object_id : bytes;
  ds_initial_energy : Z;
  ds_half_life : Z;
  ds_creation_epoch : Z;
  ds_current_epoch : Z;
  ds_claimed_energy : Z;
}.

Record EvaporationClaim := {
  ec_object_id : bytes;
  ec_initial_energy : Z;
  ec_half_life : Z;
  ec_creation_epoch : Z;
  ec_evaporation_epoch : Z;
  ec_nullifier : bytes;
}.

Record EvaporationProof := {
  ep_block_number : Z;
  ep_decay_statements : list EnergyDecayStatement;
  ep_evaporation_claims : list EvaporationClaim;
  ep_mmr_root : bytes;
  ep_transcript_hash : bytes;
  ep_batch_commitment : bytes;
}.

Inductive ProofError :=
| EnergyMismatch
| StillHasEnergy
| TranscriptMismatch
| RootMismatch
| CommitmentMismatch.

Definition expected_energy (s : EnergyDecayStatement) : Z :=
  energy_at_epoch (ds_initial_energy s) (ds_half_life s) (saturating_sub (ds_current_epoch s) (ds_creation_epoch s)).

Definition final_energy (c : EvaporationClaim) : Z :=
  energy_at_epoch (ec_initial_energy c) (ec_half_life c) (saturating_sub (ec_evaporation_epoch c) (ec_creation_epoch c)).

Definition append_statement (t : bytes) (s : EnergyDecayStatement) : bytes :=
  append_u64 "E" (ds_claimed_energy s) (append_u64 "now" (ds_current_epoch s) (append_u64 "ce" (ds_creation_epoch s)
    (append_u64 "hl" (ds_half_life s) (append_u64 "E0" (ds_initial_energy s) (append "obj" (ds_object_id s) t))))).

Definition append_claim (t : bytes) (c : EvaporationClaim) : bytes :=
  append "null" (ec_nullifier c) (append_u64 "evap-ee" (ec_evaporation_epoch c) (append_u64 "evap-ce" (ec_creation_epoch c)
    (append_u64 "evap-hl" (ec_half_life c) (append_u64 "evap-E0" (ec_initial_energy c) (append "evap-obj" (ec_object_id c) t))))).

(** The bytes that are hashed for a batch. *)
Definition transcript_of (number : Z) (stmts : list EnergyDecayStatement) (claims : list EvaporationClaim) : bytes :=
  foldl append_claim
    (foldl append_statement (append_u64 "block" number (transcript_new (bytes_of_string "batch-evaporation"))) stmts) claims.

(** ** The root of the nullifiers *)

Section proofs.
Context `{Blake3}.

(** One level: chunks of two, the odd one with itself. *)
Fixpoint pair_level (l : list bytes) : list bytes :=
  match l with
  | [] => []
  | [a] => [blake3 (a ++ a)]
  | a :: b :: l => blake3 (a ++ b) :: pair_level l
  end.

Fixpoint merkle (fuel : nat) (l : list bytes) : bytes :=
  match l, fuel with
  | [], _ => repeat 0 32
  | [a], _ => a
  | a :: _, O => a
  | _, S fuel => merkle fuel (pair_level l)
  end.

Definition compute_mmr_root (leaves : list bytes) : bytes := merkle (length leaves) leaves.

(** ** The prover *)

Record EvaporationProver := {
  ev_block_number : Z;
  ev_decay_statements : list EnergyDecayStatement;
  ev_evaporation_claims : list EvaporationClaim;
  ev_mmr_leaves : list bytes;
}.

Definition prover_new (number : Z) : EvaporationProver :=
  {| ev_block_number := number; ev_decay_statements := []; ev_evaporation_claims := []; ev_mmr_leaves := [] |}.

Definition add_decay (s : EnergyDecayStatement) (p : EvaporationProver) : EvaporationProver * result unit ProofError :=
  if negb (ds_claimed_energy s =? expected_energy s) then (p, Err EnergyMismatch)
  else ({| ev_block_number := ev_block_number p; ev_decay_statements := ev_decay_statements p ++ [s];
           ev_evaporation_claims := ev_evaporation_claims p; ev_mmr_leaves := ev_mmr_leaves p |}, Ok tt).

Definition add_evaporation (c : EvaporationClaim) (p : EvaporationProver) : EvaporationProver * result unit ProofError :=
  if negb (final_energy c =? 0) then (p, Err StillHasEnergy)
  else ({| ev_block_number := ev_block_number p; ev_decay_statements := ev_decay_statements p;
           ev_evaporation_claims := ev_evaporation_claims p ++ [c]; ev_mmr_leaves := ev_mmr_leaves p ++ [ec_nullifier c] |}, Ok tt).

Definition batch_commitment (transcript_hash root : bytes) (number : Z) : bytes :=
  blake3 (transcript_hash ++ root ++ to_le_bytes 8 number).

Definition prove (p : EvaporationProver) : EvaporationProof :=
  let hash := challenge (transcript_of (ev_block_number p) (ev_decay_statements p) (ev_evaporation_claims p)) in
  let root := compute_mmr_root (ev_mmr_leaves p) in
  {| ep_block_number := ev_block_number p; ep_decay_statements := ev_decay_statements p;
     ep_evaporation_claims := ev_evaporation_claims p; ep_mmr_root := root; ep_transcript_hash := hash;
     ep_batch_commitment := batch_commitment hash root (ev_block_number p) |}.

(** ** The verifier *)

Definition verify_proof (p : EvaporationProof) : result bool ProofError :=
  if existsb (fun s => negb (ds_claimed_energy s =? expected_energy s)) (ep_decay_statements p) then Err EnergyMismatch
  else if existsb (fun c => negb (final_energy c =? 0)) (ep_evaporation_claims p) then Err StillHasEnergy
  else if negb (bool_decide (challenge (transcript_of (ep_block_number p) (ep_decay_statements p) (ep_evaporation_claims p))
                             = ep_transcript_hash p)) then Err TranscriptMismatch
  else if negb (bool_decide (compute_mmr_root (ec_nullifier <$> ep_evaporation_claims p) = ep_mmr_root p)) then Err RootMismatch
  else if negb (bool_decide (batch_commitment (ep_transcript_hash p) (ep_mmr_root p) (ep_block_number p) = ep_batch_commitment p))
  then Err CommitmentMismatch
  else Ok true.

(** ** The proof of a block *)

Definition claim_of (id : bytes) (g : GhostRecord) : EvaporationClaim :=
  let half_life := default 10 (g_original_half_life g) in
  {| ec_object_id := take 20 id; ec_initial_energy := 1000; ec_half_life := half_life;
     ec_creation_epoch := saturating_sub (g_evaporated_at g) (wrapping_mul half_life 64);
     ec_evaporation_epoch := g_evaporated_at g; ec_nullifier := g_data_hash g |}.

(** A claim that the prover refuses is dropped. *)
Definition claim_ghost (ghosts : bytes -> option GhostRecord) (p : EvaporationProver) (id : bytes) : EvaporationProver :=
  match ghosts id with Some g => (add_evaporation (claim_of id g) p).1 | None => p end.

Definition block_proof (number : Z) (ghosts : bytes -> option GhostRecord) (evaporated : list bytes) : option EvaporationProof :=
  match evaporated with [] => None | _ => Some (prove (foldl (claim_ghost ghosts) (prover_new number) evaporated)) end.
End proofs.

(** ** What the prover builds, the verifier accepts *)

Section soundness.
Context `{Blake3}.

(** A level with more than one node is shorter than the one below it, so the
    fuel is enough, and the root is the root of the next level. *)
Lemma pair_level_length l : (length (pair_level l) <= length l /\ (1 < length l -> length (pair_level l) < length l) /\
  (0 < length l -> 0 < length (pair_level l)))%nat.
Proof.
  assert (Hind : forall n l, (length l <= n)%nat -> (length (pair_level l) <= length l /\
    (1 < length l -> length (pair_level l) < length l) /\ (0 < length l -> 0 < length (pair_level l)))%nat); [|by apply (Hind (length l))].
  clear l. induction n as [|n IH]; intros [|a [|b l]] Hl; cbn in *; try lia. destruct (IH l ltac:(lia)) as (Hle & _). lia.
Qed.

Lemma merkle_enough n l : (length l <= n)%nat -> merkle n l = merkle (length l) l.
Proof.
  assert (Hind : forall k n l, (length l <= k)%nat -> (length l <= n)%nat -> merkle n l = merkle (length l) l); [|intros ?; by apply (Hind n)].
  clear. induction k as [|k IH]; intros n [|a [|b l]] Hk Hn; try (cbn in Hk; lia); try by destruct n.
  destruct n as [|n]; [cbn in Hn; lia|]. pose proof (pair_level_length (a :: b :: l)) as (_ & Hlt & _).
  specialize (Hlt ltac:(cbn; lia)). change (merkle (S n) (a :: b :: l)) with (merkle n (pair_level (a :: b :: l))).
  change (merkle (length (a :: b :: l)) (a :: b :: l)) with (merkle (length (b :: l)) (pair_level (a :: b :: l))).
  set (m := pair_level (a :: b :: l)) in *. cbn [length] in *.
  rewrite (IH n m), (IH (S (length l)) m) by lia. done.
Qed.

Lemma compute_mmr_root_unfold l :
  (1 < length l)%nat -> compute_mmr_root l = compute_mmr_root (pair_level l).
Proof.
  destruct l as [|a [|b l]]; cbn [length]; intros Hl; try lia. unfold compute_mmr_root.
  pose proof (pair_level_length (a :: b :: l)) as (_ & Hlt & _). specialize (Hlt ltac:(cbn; lia)).
  change (merkle (length (a :: b :: l)) (a :: b :: l)) with (merkle (length (b :: l)) (pair_level (a :: b :: l))).
  apply merkle_enough. cbn [length] in *. lia.
Qed.

Inductive request := Decay (s : EnergyDecayStatement) | Evaporation (c : EvaporationClaim).

Definition submit (p : EvaporationProver) (r : request) : EvaporationProver :=
  match r with Decay s => (add_decay s p).1 | Evaporation c => (add_evaporation c p).1 end.

Record prover_ok (p : EvaporationProver) : Prop := {
  pv_decay : Forall (fun s => ds_claimed_energy s = expected_energy s) (ev_decay_statements p);
  pv_claims : Forall (fun c => final_energy c = 0) (ev_evaporation_claims p);
  pv_leaves : ev_mmr_leaves p = ec_nullifier <$> ev_evaporation_claims p;
}.

Lemma new_ok n : prover_ok (prover_new n).
Proof. by split; constructor. Qed.

Lemma submit_ok r p : prover_ok p -> prover_ok (submit p r).
Proof.
  intros [Hd Hc Hl]. destruct r as [s|c]; cbn [submit]; unfold add_decay, add_evaporation.
  - destruct (Z.eqb_spec (ds_claimed_energy s) (expected_energy s)); cbn [negb fst]; split; cbn; try done.
    apply Forall_app. split; [done|]. by constructor.
  - destruct (Z.eqb_spec (final_energy c) 0); cbn [negb fst]; split; cbn; try done.
    + apply Forall_app. split; [done|]. by constructor.
    + by rewrite fmap_app, Hl.
Qed.

Lemma none_fails {A} (f : A -> bool) l : Forall (fun x => f x = true) l -> existsb (fun x => negb (f x)) l = false.
Proof. induction 1 as [|x l Hx _ IH]; [done|]. cbn. by rewrite Hx, IH. Qed.

Lemma verify_ok p : prover_ok p -> verify_proof (prove p) = Ok true.
Proof.
  intros [Hd Hc Hl]. unfold verify_proof. cbn [prove ep_decay_statements ep_evaporation_claims ep_block_number ep_transcript_hash ep_mmr_root ep_batch_commitment].
  rewrite none_fails by (eapply Forall_impl; [exact Hd|]; cbn; intros s ->; apply Z.eqb_refl).
  rewrite none_fails by (eapply Forall_impl; [exact Hc|]; cbn; by intros c ->).
  rewrite Hl. by rewrite !bool_decide_eq_true_2.
Qed.

(** A proof that verifies exists for every batch: whatever statements and claims
    are offered to the prover, true or false, in any order, the proof it then
    builds is accepted by the verifier, and contains exactly the true ones. *)
Theorem proof_complete n l :
  let p := foldl submit (prover_new n) l in
  verify_proof (prove p) = Ok true /\ ep_block_number (prove p) = n /\
  ep_decay_statements (prove p) =
    omap (fun r => match r with Decay s => if ds_claimed_energy s =? expected_energy s then Some s else None | _ => None end) l /\
  ep_evaporation_claims (prove p) =
    omap (fun r => match r with Evaporation c => if final_energy c =? 0 then Some c else None | _ => None end) l.
Proof.
  cbv zeta. assert (Hok : forall p, prover_ok p -> prover_ok (foldl submit p l)).
  { induction l as [|r l IH]; intros p Hp; cbn [foldl]; [done|]. by apply IH, submit_ok. }
  split; [by apply verify_ok, Hok, new_ok|]. cbn [prove ep_block_number ep_decay_statements ep_evaporation_claims].
  assert (Hgen : forall p, let p' := foldl submit p l in
    ev_block_number p' = ev_block_number p /\
    ev_decay_statements p' = ev_decay_statements p ++
      omap (fun r => match r with Decay s => if ds_claimed_energy s =? expected_energy s then Some s else None | _ => None end) l /\
    ev_evaporation_claims p' = ev_evaporation_claims p ++
      omap (fun r => match r with Evaporation c => if final_energy c =? 0 then Some c else None | _ => None end) l).
  { clear. induction l as [|r l IH]; intros p; cbn [foldl]; [by rewrite !app_nil_r|].
    destruct (IH (submit p r)) as (-> & -> & ->). destruct r as [s|c]; cbn [submit]; unfold add_decay, add_evaporation; csimpl.
    - destruct (_ =? _); cbn; by rewrite <- ?app_assoc.
    - destruct (_ =? _); cbn; by rewrite <- ?app_assoc. }
  exact (Hgen (prover_new n)).
Qed.
End soundness.

(** ** What a transcript binds *)

Record statement_wf (s : EnergyDecayStatement) : Prop := {
  sw_id : length (ds_object_id s) = 20%nat;
  sw_energy : is_u64 (ds_initial_energy s);
  sw_half_life : is_u64 (ds_half_life s);
  sw_creation : is_u64 (ds_creation_epoch s);
  sw_current : is_u64 (ds_current_epoch s);
  sw_claimed : is_u64 (ds_claimed_energy s);
}.

Record claim_wf (c : EvaporationClaim) : Prop := {
  cw_id : length (ec_object_id c) = 20%nat;
  cw_energy : is_u64 (ec_initial_energy c);
  cw_half_life : is_u64 (ec_half_life c);
  cw_creation : is_u64 (ec_creation_epoch c);
  cw_evaporation : is_u64 (ec_evaporation_epoch c);
  cw_nullifier : length (ec_nullifier c) = 32%nat;
}.

Definition frame (label : string) (data : bytes) : bytes := bytes_of_string label ++ u32_prefixed data.

Lemma frame_inj label d d' r r' :
  length d = length d' -> frame label d ++ r = frame label d' ++ r' -> d = d' /\ r = r'.
Proof.
  intros Hl E. unfold frame, u32_prefixed in E. rewrite Hl, <- !app_assoc in E. apply app_inv_head, app_inv_head in E.
  by apply app_inj_1 in E.
Qed.

Lemma frame_u64_inj label a b r r' :
  is_u64 a -> is_u64 b -> frame label (to_le_bytes 8 a) ++ r = frame label (to_le_bytes 8 b) ++ r' -> a = b /\ r = r'.
Proof.
  intros Ha Hb E. apply frame_inj in E as [E ->]; [|by rewrite !length_to_le_bytes]. by apply to_le_bytes_inj in E.
Qed.

Definition statement_bytes (s : EnergyDecayStatement) : bytes :=
  frame "obj" (ds_object_id s) ++ frame "E0" (to_le_bytes 8 (ds_initial_energy s)) ++ frame "hl" (to_le_bytes 8 (ds_half_life s)) ++
  frame "ce" (to_le_bytes 8 (ds_creation_epoch s)) ++ frame "now" (to_le_bytes 8 (ds_current_epoch s)) ++
  frame "E" (to_le_bytes 8 (ds_claimed_energy s)).

Definition claim_bytes (c : EvaporationClaim) : bytes :=
  frame "evap-obj" (ec_object_id c) ++ frame "evap-E0" (to_le_bytes 8 (ec_initial_energy c)) ++
  frame "evap-hl" (to_le_bytes 8 (ec_half_life c)) ++ frame "evap-ce" (to_le_bytes 8 (ec_creation_epoch c)) ++
  frame "evap-ee" (to_le_bytes 8 (ec_evaporation_epoch c)) ++ frame "null" (ec_nullifier c).

Lemma append_statements ss t : foldl append_statement t ss = t ++ concat (statement_bytes <$> ss).
Proof.
  revert t. induction ss as [|s ss IH]; intros t; cbn [foldl]; [by rewrite app_nil_r|]. rewrite IH. csimpl.
  unfold append_statement, append_u64, append, statement_bytes, frame. by rewrite <- !app_assoc.
Qed.

Lemma append_claims cs t : foldl append_claim t cs = t ++ concat (claim_bytes <$> cs).
Proof.
  revert t. induction cs as [|c cs IH]; intros t; cbn [foldl]; [by rewrite app_nil_r|]. rewrite IH. csimpl.
  unfold append_claim, append_u64, append, claim_bytes, frame. by rewrite <- !app_assoc.
Qed.

Lemma statement_inj s s' r r' :
  statement_wf s -> statement_wf s' -> statement_bytes s ++ r = statement_bytes s' ++ r' -> s = s' /\ r = r'.
Proof.
  intros [] [] E. unfold statement_bytes in E. rewrite <- !app_assoc in E. destruct s, s'. cbn [ds_object_id ds_initial_energy ds_half_life ds_creation_epoch ds_current_epoch ds_claimed_energy] in *.
  apply frame_inj in E as [<- E]; [|congruence]. do 4 (apply frame_u64_inj in E as [<- E]; [|done..]).
  by apply frame_u64_inj in E as [<- <-].
Qed.

Lemma claim_inj c c' r r' : claim_wf c -> claim_wf c' -> claim_bytes c ++ r = claim_bytes c' ++ r' -> c = c' /\ r = r'.
Proof.
  intros [] [] E. unfold claim_bytes in E. rewrite <- !app_assoc in E. destruct c, c'. cbn [ec_object_id ec_initial_energy ec_half_life ec_creation_epoch ec_evaporation_epoch ec_nullifier] in *.
  apply frame_inj in E as [<- E]; [|congruence]. do 4 (apply frame_u64_inj in E as [<- E]; [|done..]).
  apply frame_inj in E as [<- <-]; [done|congruence].
Qed.

Lemma claims_inj cs cs' :
  Forall claim_wf cs -> Forall claim_wf cs' -> concat (claim_bytes <$> cs) = concat (claim_bytes <$> cs') -> cs = cs'.
Proof.
  intros Hc. revert cs'. induction Hc as [|c cs Hw Hc IH]; intros cs' Hc' E.
  - by destruct Hc'.
  - destruct Hc' as [|c' cs' Hw' Hc']; [done|]. rewrite !fmap_cons in E. cbn [concat] in E. apply claim_inj in E as [<- E]; [|done..]. f_equal. by apply IH.
Qed.

Lemma batch_inj ss ss' cs cs' :
  Forall statement_wf ss -> Forall statement_wf ss' -> Forall claim_wf cs -> Forall claim_wf cs' ->
  concat (statement_bytes <$> ss) ++ concat (claim_bytes <$> cs) = concat (statement_bytes <$> ss') ++ concat (claim_bytes <$> cs') ->
  ss = ss' /\ cs = cs'.
Proof.
  intros Hs Hs' Hc Hc'. revert ss' Hs'. induction Hs as [|s ss Hw Hs IH]; intros ss' Hs' E.
  - destruct Hs' as [|s' ss' Hw' Hs']; [split; [done|by apply claims_inj]|]. destruct Hc; discriminate E.
  - destruct Hs' as [|s' ss' Hw' Hs']; [destruct Hc'; discriminate E|]. rewrite !fmap_cons in E. cbn [concat] in E. rewrite <- !app_assoc in E.
    apply statement_inj in E as [<- E]; [|done..]. destruct (IH ss' Hs' E) as [-> ->]. done.
Qed.

(** C35: a transcript binds its batch: two batches of well-formed statements and
    claims that hash the same bytes are the same batch of the same block. *)
Theorem transcript_binds n n' ss ss' cs cs' :
  is_u64 n -> is_u64 n' -> Forall statement_wf ss -> Forall statement_wf ss' -> Forall claim_wf cs -> Forall claim_wf cs' ->
  transcript_of n ss cs = transcript_of n' ss' cs' -> n = n' /\ ss = ss' /\ cs = cs'.
Proof.
  intros Hn Hn' Hs Hs' Hc Hc' E. unfold transcript_of in E. rewrite !append_claims, !append_statements in E.
  unfold append_u64, append in E. rewrite <- !app_assoc in E. apply app_inv_head in E.
  rewrite !(app_assoc (bytes_of_string "block")) in E. apply (frame_u64_inj "block") in E as [<- E]; [|done..].
  split; [done|]. by apply batch_inj.
Qed.

(** ** Objects without a proof *)

(** An object that evaporates before one of its half-lives has passed since the
    first epoch, or whose half-life times 64 wraps to little, is missing from the
    proof of its block: the invented creation epoch leaves the invented energy
    above zero, and the refusal of the prover is ignored. *)
Theorem young_object_unproved `{Blake3} id g p h :
  g_original_half_life g = Some h -> 0 < h <= U64_MAX -> is_u64 (g_evaporated_at g) ->
  g_evaporated_at g < h \/ wrapping_mul h 64 < h ->
  add_evaporation (claim_of id g) p = (p, Err StillHasEnergy).
Proof.
  intros Hh Hpos Hu Hcase. unfold add_evaporation, final_energy, claim_of. rewrite Hh.
  change (default 10 (Some h)) with h. cbv zeta. cbn [ec_initial_energy ec_half_life ec_creation_epoch ec_evaporation_epoch].
  assert (Hw : 0 <= wrapping_mul h 64) by (unfold wrapping_mul, as_u64; apply Z.mod_pos_bound; lia).
  set (w := wrapping_mul h 64) in *. clearbody w. set (t := saturating_sub (g_evaporated_at g) (saturating_sub (g_evaporated_at g) w)).
  assert (Ht : 0 <= t < h) by (subst t; unfold saturating_sub; u64_lia). clearbody t.
  rewrite (energy_at_epoch_small h 1000 t) by (u64_lia || lia). unfold decay_frac.
  assert (Hq : 1000 * t / (2 * h) <= 500) by (apply Z.div_le_upper_bound; nia).
  destruct (Z.eqb_spec (1000 - 1000 * t / (2 * h)) 0); [lia|]. done.
Qed.
End EvapProof.
