(* ===== verification/Block.v ===== *)
(** * A whole block

    [execute_block] of crates/evaporchain-execution/src/lib.rs from end to
    end: the transactions and deferred transactions of BlockExecutor.v, then
    the tombstones of evaporated objects, the rewards, rent and demurrage once
    an epoch, the clock and the fee state, the releases of vesting schedules,
    the state root, and the audit of the block (energy_audit.rs).  A [Node]
    pairs the state a transaction can touch with the rest of the executor's
    fields.

    The phases of the privacy executor and the monitors that only observe
    (mortis, complexity and liveness verdicts) are not modelled. *)

From stdpp Require Import base gmap list strings.
From Stdlib Require Import ZArith Lia.
From S2P Require Import Prelude Energy EnergyKernel DecayCurves Trie Mmr Validators Mempool LightClient Tendermint ScriptValue ScriptVM ScriptCompiler ScriptEngine Transactions Types StateDB Lifecycle Fees Fractions Temporal Executor Governance BlockExecutor Ledger Nonces Authorisation Rewards Upkeep Lyapunov EvapProof.

Open Scope Z_scope.

(** ** The rest of the executor *)

Record Keeper := {
  reward_accumulator : option RewardAccumulator;
  eulogy_trie : EulogyTrie;
  refresh_pool : Pool.RefreshPool;
  lyapunov_fee_state : Lyapunov.FeeState;
  lyapunov_fee_params : Lyapunov.FeeControllerParams;
  last_conservation_audit : option (result unit Kernel.ConservationViolation);
  last_audit_epoch : option Z;
  consecutive_clean_audits : Z;
  demurrage_params : DemurrageParams;
  lamport_clock : LamportClock;
}.

Definition keeper_new : Keeper :=
  {| reward_accumulator := None; eulogy_trie := ∅; refresh_pool := Pool.new;
     lyapunov_fee_state := Lyapunov.at_equilibrium (Lyapunov.target_energy Lyapunov.params_default);
     lyapunov_fee_params := Lyapunov.params_default; last_conservation_audit := None; last_audit_epoch := None;
     consecutive_clean_audits := 0; demurrage_params := demurrage_default; lamport_clock := genesis_clock |}.

Definition enable_rewards (t : Tokenomics) (k : Keeper) : Keeper :=
  {| reward_accumulator := Some (accumulator_new t); eulogy_trie := eulogy_trie k; refresh_pool := refresh_pool k;
     lyapunov_fee_state := lyapunov_fee_state k; lyapunov_fee_params := lyapunov_fee_params k;
     last_conservation_audit := last_conservation_audit k; last_audit_epoch := last_audit_epoch k;
     consecutive_clean_audits := consecutive_clean_audits k; demurrage_params := demurrage_params k;
     lamport_clock := lamport_clock k |}.

Definition with_money (ra : option RewardAccumulator) (e : EulogyTrie) (q : Pool.RefreshPool) (k : Keeper) : Keeper :=
  {| reward_accumulator := ra; eulogy_trie := e; refresh_pool := q; lyapunov_fee_state := lyapunov_fee_state k;
     lyapunov_fee_params := lyapunov_fee_params k; last_conservation_audit := last_conservation_audit k;
     last_audit_epoch := last_audit_epoch k; consecutive_clean_audits := consecutive_clean_audits k;
     demurrage_params := demurrage_params k; lamport_clock := lamport_clock k |}.

Definition with_clocks (gas : Z) (k : Keeper) : Keeper :=
  {| reward_accumulator := reward_accumulator k; eulogy_trie := eulogy_trie k; refresh_pool := refresh_pool k;
     lyapunov_fee_state := Lyapunov.tick_fee_state (lyapunov_fee_params k) (lyapunov_fee_state k) gas 1;
     lyapunov_fee_params := lyapunov_fee_params k; last_conservation_audit := last_conservation_audit k;
     last_audit_epoch := last_audit_epoch k; consecutive_clean_audits := consecutive_clean_audits k;
     demurrage_params := demurrage_params k; lamport_clock := tick_block (lamport_clock k) gas |}.

Definition with_audit (verdict : result unit Kernel.ConservationViolation) (epoch : Z) (k : Keeper) : Keeper :=
  {| reward_accumulator := reward_accumulator k; eulogy_trie := eulogy_trie k; refresh_pool := refresh_pool k;
     lyapunov_fee_state := lyapunov_fee_state k; lyapunov_fee_params := lyapunov_fee_params k;
     last_conservation_audit := Some verdict; last_audit_epoch := Some epoch;
     consecutive_clean_audits := match verdict with Ok _ => saturating_add (consecutive_clean_audits k) 1 | Err _ => 0 end;
     demurrage_params := demurrage_params k; lamport_clock := lamport_clock k |}.

(** ** The audit *)

Definition all_stakes `{HashOrder} (d : InMemoryStateDB) : list StakeRecord :=
  omap (fun k => stakes d !! k) (hash_keys (stakes d)).

Definition compartment_snapshot_with_pool `{HashOrder} (d : InMemoryStateDB) (refresh_pool_total : Z) : Kernel.EnergyAccumulator :=
  let balances := omap (fun a => a_balance <$> get_account d a) (all_account_addresses d) in
  let add '(s, sl) r :=
    (saturating_add s (saturating_sub (s_staked_amount r) (s_slashed_amount r)), saturating_add sl (s_slashed_amount r)) in
  let '(live, slashed) := foldl add (0, 0) (all_stakes d) in
  {| Kernel.accounts := foldl saturating_add 0 balances; Kernel.stake := live; Kernel.refresh_pool := refresh_pool_total;
     Kernel.slashed_pool := slashed |}.

Definition audit_block_step (before after : Kernel.EnergyAccumulator) (epochs_elapsed : Z) (l : Kernel.ChainLambda)
  : result unit Kernel.ConservationViolation := Kernel.block_step before after epochs_elapsed l.

Definition governance_chain_lambda (d : InMemoryStateDB) : Kernel.ChainLambda :=
  match governance_params d !! "chain_lambda_half_life"%string ≫= parse_u64 with
  | Some hl => if 0 <? hl then {| Kernel.lambda := hl |} else {| Kernel.lambda := Kernel.DEFAULT_LAMBDA |}
  | None => {| Kernel.lambda := Kernel.DEFAULT_LAMBDA |}
  end.

Definition evaluate_conservation_gate (verdict : result unit Kernel.ConservationViolation) (must_enforce : bool)
  : result (result unit Kernel.ConservationViolation) Kernel.ConservationViolation :=
  match verdict with
  | Ok _ => Ok (Ok tt)
  | Err v => if must_enforce then Err v else Ok (Err v)
  end.

Definition must_enforce (d : InMemoryStateDB) : bool :=
  bool_decide (governance_params d !! "conservation_enforcement"%string = Some "enforce"%string).

(** ** The block *)

Record BlockExecutionResult := {
  r_state_root : bytes;
  r_mmr_root : bytes;
  r_txs_executed : Z;
  r_txs_failed : Z;
  r_entered_grace : Z;
  r_evaporated : Z;
  r_gas_used : Z;
  r_base_fee : Z;
  r_contract_events : list (Z * ContractEvent);
  r_total_fees : Z;
  r_evaporation_proof : option EvapProof.EvaporationProof;
  r_rotations : list ValidatorKeyRotation;
  r_demurrage_collected : Z;
  r_tx_outcomes : list TxOutcome;
}.

Record Node (C : Type) := mkNode { machine_part : Machine C; keeper : Keeper }.
Arguments mkNode {C}.
Arguments machine_part {C}.
Arguments keeper {C}.

Definition SNAPSHOT_RETAIN_BLOCKS : Z := 256.

Section block.
Context `{CurveJson, Blake3, Pallas, HybridVerifier, BlsKeys, HashOrder, Hex, StrDebug, F64Parse}.
Context `{!Json, !ScriptParser, !AppTemplates, !MlDsa}.
Context {C : Type} `{!ContractTemplates C}.

(** The tombstones of the objects a sweep evaporated, under their identifiers. *)
Definition memorialise (d : InMemoryStateDB) (t : EulogyTrie) (id : bytes) : EulogyTrie :=
  match get_ghost d id with
  | Some g => (eulogy_insert id (mint id 0 (g_evaporated_at g) Evaporated) t).1
  | None => t
  end.

Definition producer_address (producer : option Z) (d : InMemoryStateDB) : bytes :=
  match producer with
  | Some pid => from_option s_validator_address (to_le_bytes 8 pid ++ repeat 0 24) (stakes d !! pid)
  | None => ZERO_ADDRESS
  end.

Definition bonded (r : StakeRecord) : bool := bool_decide (s_unbonding_epoch r = None).

Definition total_staked (d : InMemoryStateDB) : Z :=
  foldl saturating_add 0 (s_staked_amount <$> filter (fun r => bonded r = true) (all_stakes d)).

Definition attesters_of (cert : option CommitCertificate) (d : InMemoryStateDB) : list bytes :=
  match cert with
  | None => []
  | Some c =>
      omap (fun vid => s_validator_address <$> List.find (fun r => s_validator_id r =? vid) (all_stakes d)) (signer_ids c)
  end.

Definition priority_sum (number : Z) (hints : list (option Z)) : Z :=
  foldl saturating_add 0
    ((fun submit => energy_at_epoch BASE_INCLUSION_ENERGY MEV_INCLUSION_HALF_LIFE_BLOCKS (saturating_sub number submit))
       <$> omap id hints).

Definition stakers_of (d : InMemoryStateDB) : list (bytes * Z) :=
  (fun r => (s_validator_address r, s_staked_amount r)) <$> filter (fun r => bonded r = true) (all_stakes d).

Definition pay_rewards (b : Block) (fees : Z) (eulogy : EulogyTrie) (p : Purse) : Purse :=
  let producer := producer_address (producer_id b) (books p) in
  let alive := negb (eulogy_contains eulogy producer) in
  let attesters := attesters_of (b_commit_certificate b) (books p) in
  let staked := total_staked (books p) in
  let p := (process_block_rewards_v2 producer (b_epoch b) fees alive attesters staked p).1 in
  let p :=
    if bool_decide (submit_epoch_hints b = []) then p
    else (apply_priority_bonus producer (b_epoch b) (priority_sum (number b) (submit_epoch_hints b)) BASE_INCLUSION_ENERGY alive p).1 in
  if (number b mod 100 =? 0) && (0 <? pending_staker_rewards (acc p))
  then (distribute_staker_rewards (stakers_of (books p)) (b_epoch b) p).1 else p.

(** The rewards of a block, when the executor has an accumulator. *)
Definition reward_block (b : Block) (fees : Z) (d : InMemoryStateDB) (k : Keeper) : InMemoryStateDB * Keeper :=
  match reward_accumulator k with
  | None => (d, k)
  | Some ra =>
      let p := pay_rewards b fees (eulogy_trie k) {| acc := ra; books := d; pool := Some (refresh_pool k) |} in
      (books p, with_money (Some (acc p)) (eulogy_trie k) (default (refresh_pool k) (pool p)) k)
  end.

(** Rent and demurrage, once an epoch. *)
Definition sweep_accounts (epoch : Z) (d : InMemoryStateDB) (k : Keeper) : InMemoryStateDB * Keeper * Z :=
  if last_rent_epoch d <? epoch then
    let v := collect_storage_rent epoch {| v_db := d; v_pool := refresh_pool k; v_eulogy := eulogy_trie k |} in
    let '(v, out) := collect_demurrage (demurrage_params k) (last_rent_epoch (v_db v)) epoch v in
    (set_last_rent_epoch epoch (v_db v), with_money (reward_accumulator k) (v_eulogy v) (v_pool v) k, dm_total out)
  else (d, k, 0).

Definition minted_so_far (k : Keeper) : Z := from_option total_minted 0 (reward_accumulator k).

(** Everything after the deferred transactions, up to the state root;
    [memorial] is the trie with the objects that evaporated. *)
Definition close_block (b : Block) (fees gas : Z) (memorial : EulogyTrie) (d : InMemoryStateDB) (k : Keeper)
  : InMemoryStateDB * Keeper * Z :=
  let k := with_money (reward_accumulator k) memorial (refresh_pool k) k in
  let '(d, k) := reward_block b fees d k in
  let '(d, k, collected) := sweep_accounts (b_epoch b) d k in
  (tick_vesting (b_epoch b) d, with_clocks gas k, collected).

(** The state root and the snapshot of the block. *)
Definition seal_state (b : Block) (d : InMemoryStateDB) : InMemoryStateDB * bytes :=
  let d := if 1 <=? state_root_version b then (compress_cold_subtrees d).1 else d in
  let '(d, root) := compute_state_root d in
  let d := commit_state_snapshot (number b) d in
  (if SNAPSHOT_RETAIN_BLOCKS <? number b then prune_snapshots_before (number b - SNAPSHOT_RETAIN_BLOCKS) d else d, root).

(** [None] is a panic of the nullifier accumulator; an error is a block the
    audit refuses, with the state it was executed on. *)
Definition execute_block (b : Block) (n : Node C)
  : option (Node C * result BlockExecutionResult Kernel.ConservationViolation) :=
  let k0 := keeper n in
  let before := compartment_snapshot_with_pool (db (machine_part n)) (Pool.total_accrued (refresh_pool k0)) in
  '(r, evap, swept) ← execute_block_front (b_epoch b) (transactions b) (machine_part n);
  let m := machine_of r in
  let memorial := foldl (memorialise swept) (eulogy_trie k0) (evaporated evap) in
  let '(d, k, collected) := close_block b (total_fees r) (gas_used r) memorial (db m) k0 in
  let minted := saturating_sub (minted_so_far k) (minted_so_far k0) in
  let '(d, root) := seal_state b d in
  let events := pending_events (ex m) in
  let m := mkMachine (with_events [] (ex m)) d (rotations m) in
  let after := compartment_snapshot_with_pool d (Pool.total_accrued (refresh_pool k)) in
  let elapsed := from_option (saturating_sub (b_epoch b)) 0 (last_audit_epoch k0) in
  let before := if 0 <? minted then (Kernel.credit before Kernel.Accounts minted).1 else before in
  let verdict := audit_block_step before after elapsed (governance_chain_lambda d) in
  match evaluate_conservation_gate verdict (must_enforce d) with
  | Err v => Some (mkNode m k, Err v)
  | Ok stored =>
      nullifiers ← mmr_root (mmr (ex m));
      Some (mkNode m (with_audit stored (b_epoch b) k),
            Ok {| r_state_root := root; r_mmr_root := nullifiers; r_txs_executed := txs_executed r;
                  r_txs_failed := txs_failed r; r_entered_grace := Z.of_nat (length (entered_grace evap));
                  r_evaporated := Z.of_nat (length (evaporated evap)); r_gas_used := gas_used r;
                  r_base_fee := from_option base_fee 0 (fee_controller (ex m)); r_contract_events := events;
                  r_total_fees := total_fees r;
                  r_evaporation_proof := EvapProof.block_proof (number b) (get_ghost swept) (evaporated evap);
                  r_rotations := rotations m; r_demurrage_collected := collected;
                  r_tx_outcomes := tx_outcomes r |})
  end.
End block.
