(* ===== verification/BlockMoney.v ===== *)
(** * The money of a block

    Composition of the ledgers of the transactions, of the deferred
    transactions, of the rewards, of rent and demurrage and of the vesting
    releases: what a whole block does to the tokens of the chain. *)

From stdpp Require Import base gmap list strings sorting.
From Stdlib Require Import ZArith Lia.
From S2P Require Import Prelude Energy EnergyKernel DecayCurves Trie Mmr Validators Mempool LightClient Tendermint ScriptValue ScriptVM ScriptCompiler ScriptEngine Transactions Types StateDB Lifecycle Fees Fractions Temporal Executor Governance BlockExecutor Ledger Nonces Authorisation Rewards Upkeep Lyapunov Block.

Open Scope Z_scope.

(** ** The sweep and the votes are not money *)

Section quiet.
Context `{Blake3, Pallas, HashOrder}.

Lemma released_ok n a : account_ok a -> account_ok (release_bytes n a).
Proof. intros [? ? ? ?]. split; cbn; [done|done|done|]. unfold saturating_sub. lia. Qed.

Lemma same_view_ledger d d' :
  books_ok d -> accounts d' = accounts d -> stakes d' = stakes d -> delegations d' = delegations d -> ledger 0 d d'.
Proof. intros. by apply view_ledger. Qed.

Lemma ledger_0_trans d d1 d2 : ledger 0 d d1 -> (books_ok d1 -> ledger 0 d1 d2) -> ledger 0 d d2.
Proof. intros H1' H2'. apply (ledger_then 0 0 _ _ _ H1'). auto. Qed.

Lemma modify_object_ledger f id d : books_ok d -> ledger 0 d (modify_object f id d).
Proof. intros Hb. destruct (modify_object_view f id d) as (? & [? ? _ _]). by apply same_view_ledger. Qed.

Lemma evaporate_ledger d o e mm d' mm' :
  books_ok d -> evaporate_object d o e mm = Some (d', mm') -> ledger 0 d d'.
Proof.
  intros Hb Hev.
  assert (Hfin : forall pos, ledger 0 d (db_put_ghost (ghost_of o e pos)
    (db_delete_object (o_id o) (db_modify_account (release_bytes (Z.of_nat (length (o_data o)))) (o_owner o) d)))).
  { intros pos. eapply ledger_0_trans; [apply (modify_quiet (release_bytes (Z.of_nat (length (o_data o)))) (o_owner o) d); [done|done|intros; by apply released_ok]|].
    intros Hb1. by apply same_view_ledger. }
  unfold evaporate_object in Hev. destruct mm as [m|]; [destruct (append _ _) as [[m' pos]|]|]; try done; injection Hev as <- <-; apply Hfin.
Qed.

Lemma process_object_ledger eng e st st' id :
  books_ok st.1.1 -> process_object eng e st id = Some st' -> ledger 0 st.1.1 st'.1.1.
Proof.
  destruct st as [[d mm] r]. cbn [fst]. intros Hb Hp. unfold process_object in Hp.
  destruct (db_objects d !! id) as [o|]; [|injection Hp as <-; by apply ledger_refl].
  assert (Hgrace : forall d1 g, books_ok d1 -> ledger 0 d d1 ->
    (if wrapping_add g (grace_period eng) <=? e then
       match evaporate_object d1 o e mm with
       | None => None
       | Some (d2, mm2) => Some (d2, mm2, {| entered_grace := entered_grace r; evaporated := evaporated r ++ [id]; decayed := decayed r;
             already_ghost := already_ghost r; compressed_subtrees := compressed_subtrees r |})
       end
     else Some (d1, mm, r)) = Some st' -> ledger 0 d st'.1.1).
  { intros d1 g Hb1 Hl Hq. destruct (_ <=? e); [|by injection Hq as <-].
    destruct (evaporate_object d1 o e mm) as [[d2 mm2]|] eqn:Ev; [|done]. injection Hq as <-. cbn.
    eapply ledger_0_trans; [exact Hl|]. intros _. by eapply evaporate_ledger. }
  destruct (o_state o).
  - destruct (_ =? 0); injection Hp as <-; [by apply modify_object_ledger|by apply ledger_refl].
  - destruct (o_grace_epoch o) as [g|]; eapply Hgrace; try exact Hp; [done|by apply ledger_refl| |].
    + by apply (modify_object_ledger (set_grace_epoch e) id d Hb).
    + by apply (modify_object_ledger (set_grace_epoch e) id d Hb).
  - injection Hp as <-. by apply ledger_refl.
  - destruct (_ =? 0); injection Hp as <-; [by apply modify_object_ledger|by apply ledger_refl].
Qed.

Lemma sweep_ledger eng e st ids st' : books_ok st.1.1 -> sweep eng e st ids = Some st' -> ledger 0 st.1.1 st'.1.1.
Proof.
  revert st. induction ids as [|id ids IH]; intros st Hb Hs; cbn [sweep] in Hs; [injection Hs as <-; by apply ledger_refl|].
  destruct (process_object eng e st id) as [st1|] eqn:E; [|done].
  eapply ledger_0_trans; [by eapply process_object_ledger|]. intros Hb1. by apply IH.
Qed.

Lemma process_epoch_ledger eng d e mm d' mm' r :
  books_ok d -> process_epoch_inner eng d e mm = Some (d', mm', r) -> ledger 0 d d'.
Proof.
  intros Hb Hp. unfold process_epoch_inner in Hp. destruct (sweep _ _ _ _) as [[[d1 mm1] r1]|] eqn:E; [|done].
  apply sweep_ledger in E; [|done]. cbn [fst] in E. destruct (evaporated r1); [by simplify_eq|].
  destruct (db_compress_cold_subtrees d1) as [d2 n2] eqn:Ec. simplify_eq.
  cbn in Ec. unfold compress_cold_subtrees in Ec. destruct (compress_cold _); simplify_eq.
  eapply ledger_0_trans; [exact E|]. intros. by apply same_view_ledger.
Qed.

Lemma foldl_ledger {A} (f : InMemoryStateDB -> A -> InMemoryStateDB) l d :
  books_ok d -> (forall d x, books_ok d -> ledger 0 d (f d x)) -> ledger 0 d (foldl f d l).
Proof.
  intros Hb Hf. revert d Hb. induction l as [|x l IH]; intros d Hb; cbn [foldl]; [by apply ledger_refl|].
  eapply ledger_0_trans; [by apply Hf|]. apply IH.
Qed.

Lemma finalize_ledger e d : books_ok d -> ledger 0 d (finalize_expired_proposals e d).
Proof.
  intros Hb. unfold finalize_expired_proposals. eapply ledger_0_trans.
  - apply (foldl_ledger close_vote); [done|]. intros d1 p Hb1. by apply same_view_ledger.
  - intros Hb1. apply (foldl_ledger activate); [done|]. intros d1 p Hb2. by apply same_view_ledger.
Qed.
End quiet.

(** ** Deferred transactions *)

Section deferred.
Context `{CurveJson, Blake3, Pallas, HybridVerifier, BlsKeys, HashOrder, Hex, StrDebug, F64Parse}.
Context `{!Json, !JsonTyped, !ScriptParser, !AppTemplates, !MlDsa}.
Context {C : Type} `{!ContractTemplates C}.

(** A matured creation pays its storage deposit. *)
Definition matured_deposit (e : Z) (m : Machine C) (inner : bytes) : Z :=
  match tx_of_json inner, (run_matured e m inner).2 with
  | Some (CreateObject _), Ok _ => MIN_STORAGE_DEPOSIT
  | _, _ => 0
  end.

Fixpoint matured_deposits (e : Z) (l : list (bytes * bytes * Z)) (m : Machine C) : Z :=
  match l with
  | [] => 0
  | tx :: l => matured_deposit e m tx.1.2 + matured_deposits e l (run_matured e m tx.1.2).1
  end.

(** Refunds reach the accounts that exist. *)
Definition refunds_paid (l : list (bytes * Z)) (d : InMemoryStateDB) : Z :=
  sumZ ((fun r => if decide (is_Some (accounts d !! r.1)) then r.2 else 0) <$> l).

Lemma run_matured_ledger e m inner :
  books_ok (db m) -> ledger (- matured_deposit e m inner) (db m) (db (run_matured e m inner).1).
Proof.
  intros Hb. unfold matured_deposit, run_matured. destruct (tx_of_json inner) as [t|] eqn:Et; [|by apply ledger_refl].
  pose proof (tx_of_json_typed inner t Et) as Ht.
  destruct t as [t| |t| |t| |t| | | | | | | | | | | | | | | | | |]; try (cbn; by apply ledger_refl).
  - cbn in Ht. unfold on_db. pose proof (transfer_settles t e (db m) Hb ltac:(u64_lia)) as Hs.
    destruct (execute_transfer t e (db m)) as [d [u|err]]; cbn in *; [done|by destruct Hs].
  - unfold on_db. pose proof (create_object_settles t e (db m) Hb) as Hs.
    destruct (execute_create_object t e (db m)) as [d [u|err]]; cbn in *; [done|by destruct Hs].
  - rewrite call_contract_db. by apply ledger_refl.
  - rewrite call_script_db. by apply ledger_refl.
Qed.
Lemma matured_ledger e l acc :
  books_ok (db acc.1.1) ->
  ledger (- matured_deposits e l acc.1.1) (db acc.1.1) (db (foldl (count_matured e) acc l).1.1).
Proof.
  revert acc. induction l as [|tx l IH]; intros [[m x] f] Hb; cbn [foldl matured_deposits fst] in *; [by apply ledger_refl|].
  destruct (run_matured_ledger e m tx.1.2 Hb) as [Hb1 E1]. unfold count_matured at 2.
  destruct (run_matured e m tx.1.2) as [m1 o]. cbn [fst] in *.
  destruct o; (eapply ledger_seq; [|split; [exact Hb1|exact E1]|intros Hb2 _; eapply (IH (_, _, _)); exact Hb2]); cbn [fst]; lia.
Qed.

Lemma refund_absent e r d :
  books_ok d -> ~ is_Some (accounts d !! r.1) -> ledger 0 d (modify_account (credit r.2 e) r.1 d).
Proof.
  intros Hb E. apply eq_None_not_Some in E. destruct (modify_books (credit r.2 e) r.1 d) as [? ? _ _].
  apply same_view_ledger; [done| |done|done]. rewrite accounts_modify. symmetry. by apply alter_None.
Qed.

Lemma refunds_ledger e l (m : Machine C) :
  books_ok (db m) -> Forall (fun r => 0 <= r.2) l -> supply (db m) + refunds_paid l (db m) <= U64_MAX ->
  ledger (refunds_paid l (db m)) (db m) (db (foldl (refund_deposit e) m l)).
Proof.
  intros Hb Hl. revert m Hb. induction Hl as [|r l Hr Hl IH]; intros m Hb Hs; cbn [foldl]; [by apply ledger_refl|].
  assert (Hrest : forall d, 0 <= refunds_paid l d).
  { intros d. apply sumZ_nonneg, Forall_fmap. eapply Forall_impl; [exact Hl|]. cbn. intros x Hx. case_decide; lia. }
  assert (Hcons : refunds_paid (r :: l) (db m) = (if decide (is_Some (accounts (db m) !! r.1)) then r.2 else 0) + refunds_paid l (db m)) by done.
  rewrite Hcons in *. pose proof (Hrest (db m)).
  assert (Hsame : refunds_paid l (db (refund_deposit e m r)) = refunds_paid l (db m)).
  { unfold refunds_paid. f_equal. apply list_fmap_ext. intros i x _. cbn [refund_deposit with_db db]. rewrite accounts_modify.
    apply decide_ext. by rewrite lookup_alter_is_Some. }
  assert (Hstep : ledger (if decide (is_Some (accounts (db m) !! r.1)) then r.2 else 0) (db m) (db (refund_deposit e m r))).
  { cbn [refund_deposit with_db db]. case_decide; [|by apply refund_absent].
    rewrite modify_upsert by done. apply credit_ledger; [done|done|lia]. }
  eapply ledger_seq; [|exact Hstep|]; [done|]. intros Hb1 E1. rewrite <- Hsame. apply IH; [done|]. rewrite Hsame, E1. lia.
Qed.
(** What the deferred transactions of an epoch do to the money. *)
Definition due (e : Z) (m : Machine C) : DeferredQueue * DeferredQueueResult :=
  process_epoch (db m) (template_phase (contract_engine (ex m))) e (deferred_queue (ex m)).
Definition dequeued (e : Z) (m : Machine C) : Machine C := with_ex (with_queue (due e m).1 (ex m)) m.
Definition deferred_deposits (e : Z) (m : Machine C) : Z := matured_deposits e (matured_txs (due e m).2) (dequeued e m).
Definition deferred_refunds (e : Z) (m : Machine C) : Z :=
  refunds_paid (refunds (due e m).2) (db (foldl (count_matured e) (dequeued e m, 0, 0) (matured_txs (due e m).2)).1.1).
Definition queue_ok (m : Machine C) : Prop := Forall (fun x => 0 <= remaining_deposit x) (queue (deferred_queue (ex m))).

Lemma due_refunds e m : queue_ok m -> Forall (fun r => 0 <= r.2) (refunds (due e m).2).
Proof.
  unfold queue_ok, due, process_epoch. cbn [snd]. intros Hq.
  assert (Hq' : Forall (fun x => 0 <= remaining_deposit x) (pop_order (queue (deferred_queue (ex m))))) by (unfold pop_order; by rewrite merge_sort_Permutation).
  revert Hq'. generalize (pop_order (queue (deferred_queue (ex m)))). intros l Hl.
  assert (Hr : Forall (fun r : bytes * Z => 0 <= r.2) (refunds {| matured_txs := []; refunds := []; left_over := [] |})) by constructor.
  revert Hr. generalize {| matured_txs := []; refunds := []; left_over := [] |}.
  induction Hl as [|x l Hx _ IH]; intros r Hr; cbn [foldl]; [done|]. apply IH. unfold process_entry.
  destruct (_ <=? e); [apply Forall_app; by repeat constructor|]. by destruct (_ && _).
Qed.

Lemma process_deferred_ledger e m :
  books_ok (db m) -> queue_ok m -> 0 <= deferred_deposits e m ->
  supply (db m) + deferred_refunds e m <= U64_MAX ->
  ledger (deferred_refunds e m - deferred_deposits e m) (db m) (db (process_deferred e m).1.1).
Proof.
  intros Hb Hq Hd Hs. unfold process_deferred. pose proof (due_refunds e m Hq) as Hr.
  unfold deferred_deposits, deferred_refunds, dequeued, due in *.
  destruct (process_epoch (db m) _ e _) as [q r]. cbn [fst snd] in *. set (m0 := with_ex (with_queue q (ex m)) m) in *.
  destruct (matured_ledger e (matured_txs r) (m0, 0, 0) Hb) as [Hb1 E1]. cbn [fst] in *.
  destruct (foldl (count_matured e) (m0, 0, 0) (matured_txs r)) as [[m1 x] f]. cbn [fst] in *.
  change (supply (db m0)) with (supply (db m)) in E1.
  destruct (refunds_ledger e (refunds r) m1 Hb1 Hr ltac:(lia)) as [Hb2 E2]. split; [done|lia].
Qed.

Lemma matured_nonneg e l m : 0 <= matured_deposits e l m.
Proof.
  revert m. induction l as [|tx l IH]; intros m; cbn [matured_deposits]; [lia|]. specialize (IH (run_matured e m tx.1.2).1).
  assert (0 <= matured_deposit e m tx.1.2); [|lia]. unfold matured_deposit, MIN_STORAGE_DEPOSIT.
  destruct (tx_of_json _) as [[]|]; try lia. destruct (run_matured _ _ _).2; lia.
Qed.

(** *** Up to the rewards *)

Definition block_start (e : Z) (m : Machine C) : Machine C :=
  let m := apply_governance_params (mkMachine (ex m) (db m) []) in with_db (finalize_expired_proposals e (db m)) m.

(** The machine when the deferred transactions are processed. *)
Definition deferred_start (e : Z) (txs : list Transaction) (m : Machine C) : option (Machine C) :=
  (fun s => fire_watchers e (tick_engines e s.1)) <$> sweep_objects e (machine_of (run_txs e txs (block_start e m))).

Lemma fire_watchers_db e (m : Machine C) : db (fire_watchers e m) = db m.
Proof.
  unfold fire_watchers. destruct (process_watchers _ _ _) as [w l]. transitivity (db (with_ex (with_watchers w (ex m)) m)); [|done].
  generalize (with_ex (with_watchers w (ex m)) m). induction l as [|[[id method] args] l IH]; intros m0; cbn [foldl]; [done|].
  by rewrite IH.
Qed.

Lemma front_ledger e txs (m m' : Machine C) :
  books_ok (db m) -> Forall amounts_ok txs -> deferred_start e txs m = Some m' -> queue_ok m' ->
  supply (db m') + deferred_refunds e m' <= U64_MAX ->
  exists r evap, execute_block_front e txs m = Some (r, evap, db m') /\
    ledger (- taken_by e txs (run_start (block_start e m)) - deferred_deposits e m' + deferred_refunds e m') (db m) (db (machine_of r)) /\
    total_fees r = total_fees (run_txs e txs (block_start e m)) /\ gas_used r = gas_used (run_txs e txs (block_start e m)).
Proof.
  intros Hb Htx Hm Hq Hs. unfold deferred_start in Hm.
  assert (Hstart : ledger 0 (db m) (db (block_start e m))) by by apply finalize_ledger.
  destruct (run_ledger e txs (run_start (block_start e m)) (proj1 Hstart) Htx) as [[Hb1 E1] _].
  unfold execute_block_front. fold (block_start e m).
  change (foldl (run_tx e) (run_start (block_start e m)) txs) with (run_txs e txs (block_start e m)) in *.
  change (with_db (finalize_expired_proposals e (db (apply_governance_params (mkMachine (ex m) (db m) []))))
    (apply_governance_params (mkMachine (ex m) (db m) []))) with (block_start e m).
  set (r := run_txs e txs (block_start e m)) in *. clearbody r.
  destruct (sweep_objects e (machine_of r)) as [[m2 evap]|] eqn:Esw; [|done].
  change (Some (fire_watchers e (tick_engines e m2)) = Some m') in Hm. injection Hm as Hm.
  assert (Hsw : ledger 0 (db (machine_of r)) (db m2)).
  { unfold sweep_objects in Esw. destruct (process_epoch_inner _ _ _ _) as [[[d [rm|]] ev]|] eqn:Ep; [| |done];
      injection Esw as <- <-; by eapply process_epoch_ledger. }
  assert (Hdb : db m' = db m2) by (rewrite <- Hm; exact (fire_watchers_db e (tick_engines e m2))).
  cbn [mbind option_bind]. rewrite Hm. destruct Hsw as [Hb2 E2]. destruct Hstart as [Hb0 E0].
  destruct (process_deferred_ledger e m') as [Hb3 E3]; [by rewrite Hdb|done|apply matured_nonneg|done|].
  destruct (process_deferred e m') as [[m3 x] f]. cbn [fst] in *. rewrite Hdb in *. cbn [machine_of run_start] in *.
  do 2 eexists. split; [done|]. cbn [machine_of total_fees gas_used]. split; [split; [done|lia]|done].
Qed.
End deferred.

(** ** The close of a block *)

Definition same_frame (d d' : InMemoryStateDB) : Prop :=
  vesting_schedules d' = vesting_schedules d /\ last_rent_epoch d' = last_rent_epoch d.

Lemma same_frame_trans d d1 d2 : same_frame d d1 -> same_frame d1 d2 -> same_frame d d2.
Proof. intros [? ?] [? ?]. split; congruence. Qed.

Section close.
Context `{Blake3, Pallas, HashOrder}.

Lemma reward_producer_frame producer alive e amount p :
  same_frame (books p) (books (reward_producer producer alive e amount p).1).
Proof. unfold reward_producer. destruct alive; [apply upsert_frame|done]. Qed.

Lemma due_frame producer alive e amount a p :
  same_frame (books p) (books (if 0 <? amount then reward_producer producer alive e amount (with_acc a p) else (p, 0)).1).
Proof. destruct (0 <? amount); [apply (reward_producer_frame _ _ _ _ (with_acc a p))|done]. Qed.

Lemma pay_attesters_frame per dust e l d : same_frame d (pay_attesters per dust e l d).
Proof.
  revert dust d. induction l as [|a l IH]; intros dust d; cbn [pay_attesters]; [done|]. eapply same_frame_trans; [|apply IH].
  destruct (0 <? _); [apply upsert_frame|done].
Qed.

Lemma mint_reward_frame producer e alive attesters reward p :
  same_frame (books p) (books (mint_reward producer e alive attesters reward p).1).
Proof.
  unfold mint_reward. destruct (0 <? reward); [|done]. cbv zeta. set (share := match attesters with [] => reward | _ => _ end).
  pose proof (due_frame producer alive e share (add_minted reward (acc p)) p) as Hf.
  set (q := with_acc (add_minted reward (acc p)) p) in *. change (books p) with (books q) in *.
  assert (Hf' : same_frame (books q) (books (if 0 <? share then reward_producer producer alive e share q else (q, 0)).1)) by (by destruct (0 <? share)).
  destruct (if 0 <? share then _ else (q, 0)) as [p1 c]. destruct (_ && _); [|done].
  eapply same_frame_trans; [exact Hf'|apply pay_attesters_frame].
Qed.

Lemma share_fees_frame producer e fees alive p :
  same_frame (books p) (books (share_fees producer e fees alive p).1).
Proof.
  unfold share_fees. destruct (0 <? fees); [|done]. cbv zeta. set (dist := distribute_fees _ _). set (q := with_acc (add_burned _ _) p).
  pose proof (due_frame producer alive e (to_producer dist) (add_to_producers (to_producer dist) (acc q)) q) as Hf.
  destruct (if 0 <? to_producer dist then _ else _) as [p1 c]. cbn [fst] in Hf. change (books q) with (books p) in Hf.
  destruct (0 <? to_stakers dist); [|done]. destruct (split_staker_pool _ _) as [net commission].
  pose proof (reward_producer_frame producer alive e commission p1) as Hc.
  destruct (0 <? commission), (reward_producer producer alive e commission p1) as [p2 c2], (0 <? net);
    cbn [fst books with_acc] in *; by eapply same_frame_trans.
Qed.

Lemma rewards_frame producer e fees alive attesters staked p :
  same_frame (books p) (books (process_block_rewards_v2 producer e fees alive attesters staked p).1).
Proof.
  unfold process_block_rewards_v2. cbv zeta. set (t := patched _ _ _ _). set (q := with_acc (with_tokenomics t (acc p)) p).
  pose proof (mint_reward_frame producer e alive attesters (reward_due t e (total_minted (acc q))) q) as Hm.
  destruct (mint_reward _ _ _ _ _ q) as [p1 c1]. pose proof (share_fees_frame producer e fees alive p1) as Hs.
  destruct (share_fees _ _ _ _ p1) as [p2 c2]. by eapply same_frame_trans.
Qed.

Lemma pay_shares_frame P T e l st : same_frame st.1 (foldl (pay_share P T e) st l).1.
Proof.
  revert st. induction l as [|s l IH]; intros st; cbn [foldl]; [done|]. eapply same_frame_trans; [|apply IH].
  unfold pay_share. destruct (0 <? _); [apply upsert_frame|done].
Qed.

Lemma pay_dust_frame r e l st : same_frame st.1 (pay_dust r e l st).1.
Proof.
  revert r st. induction l as [|s l IH]; intros r st; cbn [pay_dust]; [done|]. destruct (r =? 0); [done|].
  eapply same_frame_trans; [|apply IH]. apply upsert_frame.
Qed.

Lemma distribution_frame stakers e p : same_frame (books p) (books (distribute_staker_rewards stakers e p).1).
Proof.
  unfold distribute_staker_rewards. destruct (_ || _); [done|]. destruct (_ =? 0); [done|].
  pose proof (pay_shares_frame (pending_staker_rewards (acc p)) (foldl saturating_add 0 stakers.*2) e stakers (books p, 0)) as Hs.
  destruct (foldl (pay_share _ _ _) _ _) as [d n]. destruct (0 <? _); [|done].
  pose proof (pay_dust_frame (saturating_sub (pending_staker_rewards (acc p)) n) e (merge_sort stake_ge stakers) (d, n)) as Hd.
  destruct (pay_dust _ _ _ _) as [d2 n2]. by eapply same_frame_trans.
Qed.

(** The stakers of the books, and their stakes. *)
Lemma filter_sum_le {A} (P : A -> Prop) `{forall x, Decision (P x)} (f : A -> Z) l :
  Forall (fun x => 0 <= f x) l -> sumZ (f <$> filter P l) <= sumZ (f <$> l).
Proof.
  induction 1 as [|x l Hx _ IH]; [done|]. rewrite filter_cons. unfold sumZ in *. case_decide; csimpl; lia.
Qed.

Lemma stakers_ok d :
  books_ok d -> Forall (fun s => 0 <= s.2) (stakers_of d) /\ sumZ (stakers_of d).*2 <= U64_MAX.
Proof.
  intros Hb. assert (Hall : Forall (fun r => 0 <= s_staked_amount r) (all_stakes d)).
  { unfold all_stakes. rewrite hash_values_perm, Forall_fmap, Forall_forall. intros [k r] Hin%elem_of_map_to_list.
    apply (bo_stakes _ Hb) in Hin. destruct Hin as (_ & ? & _). cbn. u64_lia. }
  unfold stakers_of. split.
  - apply Forall_fmap, Forall_forall. intros r [_ Hr]%list_elem_of_filter. rewrite Forall_forall in Hall. by apply Hall.
  - rewrite <- list_fmap_compose. change (snd ∘ _) with s_staked_amount.
    pose proof (filter_sum_le (fun r => bonded r = true) s_staked_amount (all_stakes d) Hall) as Hle.
    assert (Htot : sumZ (s_staked_amount <$> all_stakes d) = Ledger.total s_staked_amount (stakes d)).
    { unfold all_stakes. rewrite hash_values_perm. symmetry. apply total_list. }
    pose proof (parts_nonneg d Hb). destruct Hb as [_ _ _ Hs]. unfold supply in Hs. lia.
Qed.

(** Sharing out what the stakers are owed neither creates nor loses a token. *)
Lemma distribution_neutral stakers e p :
  purse_ok p -> Forall (fun s => 0 <= s.2) stakers -> sumZ stakers.*2 <= U64_MAX ->
  let p' := (distribute_staker_rewards stakers e p).1 in
  paid 0 p p' /\ total_minted (acc p') = total_minted (acc p) /\ total_burned (acc p') = total_burned (acc p).
Proof.
  intros Hp Hl Hs. cbv zeta. assert (Hsum : 0 <= sumZ stakers.*2) by by apply sumZ_nonneg, Forall_fmap.
  split.
  - destruct (decide (sumZ stakers.*2 = 0)) as [Hz|Hz].
    + unfold distribute_staker_rewards. destruct (_ || _); [by apply paid_refl|].
      rewrite saturating_foldl_exact by (by apply Forall_fmap || lia). rewrite Z.add_0_l, Hz. cbn [Z.eqb fst]. by apply paid_refl.
    + destruct (distribution_paid stakers e p Hp Hl ltac:(lia)) as (Hok & Hw & _). split; [done|lia].
  - unfold distribute_staker_rewards. destruct (_ || _); [done|]. destruct (_ =? 0); [done|].
    destruct (foldl (pay_share _ _ _) _ _) as [d n]. destruct (0 <? _); [|done]. by destruct (pay_dust _ _ _ _) as [d2 n2].
Qed.

(** *** The rewards of a block *)

Definition bonus_of (b : Block) : Z :=
  if bool_decide (submit_epoch_hints b = []) then 0 else priority_sum (number b) (submit_epoch_hints b) / BASE_INCLUSION_ENERGY.

Lemma foldl_saturating_nonneg l a : 0 <= a -> Forall (fun x => 0 <= x) l -> 0 <= foldl saturating_add a l.
Proof.
  intros Ha Hl. revert a Ha. induction Hl as [|x l Hx _ IH]; intros a Ha; cbn [foldl]; [done|]. apply IH. unfold saturating_add, U64_MAX. lia.
Qed.

Lemma bonus_nonneg b : 0 <= bonus_of b.
Proof.
  unfold bonus_of. case_bool_decide; [lia|]. apply Z.div_pos; [|done]. apply foldl_saturating_nonneg; [lia|].
  apply Forall_fmap, Forall_true. intros s.
  pose proof (energy_at_epoch_range MEV_INCLUSION_HALF_LIFE_BLOCKS BASE_INCLUSION_ENERGY (saturating_sub (number b) s)) as Hr.
  apply Hr; [done|done|]. unfold saturating_sub. lia.
Qed.

Lemma bonus_paid b producer alive p :
  purse_ok p -> wealth p + bonus_of b <= U64_MAX -> total_minted (acc p) + bonus_of b <= U64_MAX ->
  let p' := if bool_decide (submit_epoch_hints b = []) then p
    else (apply_priority_bonus producer (b_epoch b) (priority_sum (number b) (submit_epoch_hints b)) BASE_INCLUSION_ENERGY alive p).1 in
  paid (bonus_of b) p p' /\ total_minted (acc p') = total_minted (acc p) + bonus_of b /\
  total_burned (acc p') = total_burned (acc p) /\ same_frame (books p) (books p').
Proof.
  intros Hp Hw Hm. pose proof (bonus_nonneg b) as Hb. cbv zeta. unfold bonus_of in *.
  case_bool_decide; [split_and!; [by apply paid_refl|cbn [fst]; lia|done|done]|]. unfold apply_priority_bonus.
  set (s := priority_sum _ _) in *. change (BASE_INCLUSION_ENERGY =? 0) with false. cbn [orb].
  destruct (Z.eqb_spec s 0) as [->|Hs].
  { change (0 / BASE_INCLUSION_ENERGY) with 0. split_and!; [by apply paid_refl|cbn [fst]; lia|done|done]. }
  set (x := s / BASE_INCLUSION_ENERGY) in *. clearbody x.
  destruct (Z.eqb_spec x 0) as [->|Hx]; [split_and!; [by apply paid_refl|cbn [fst]; lia|done|done]|].
  destruct (with_acc_paid 0 (add_minted x (acc p)) p) as [Hok1 E1]; [done|cbn; lia|lia|destruct Hp; lia|].
  pose proof (reward_producer_frame producer alive (b_epoch b) x (with_acc (add_minted x (acc p)) p)) as Hf.
  destruct (reward_producer_paid producer alive (b_epoch b) x _ Hok1) as [[Hok2 E2] ->]; [lia|lia|].
  split_and!; [split; [done|lia]|cbn; apply saturating_add_exact; lia|done|done].
Qed.

Definition reward_of (b : Block) (d : InMemoryStateDB) (ra : RewardAccumulator) : Z :=
  Z.max 0 (reward_due (patched (tokenomics ra) (b_epoch b) (total_minted ra) (total_staked d)) (b_epoch b) (total_minted ra)).

(** The rates are fractions and the counters have room. *)
Record rewards_fit (b : Block) (fees : Z) (d : InMemoryStateDB) (ra : RewardAccumulator) : Prop := {
  rf_burn : rate_ok (fee_burn_rate (tokenomics ra));
  rf_stakers : rate_ok (staker_fee_share (tokenomics ra));
  rf_reward : 60 * reward_of b d ra <= U64_MAX;
  rf_minted : total_minted ra + reward_of b d ra + bonus_of b <= U64_MAX;
  rf_burned : total_burned ra + fees <= U64_MAX;
}.

Lemma pay_rewards_paid b fees eulogy p :
  purse_ok p -> rewards_fit b fees (books p) (acc p) -> 0 <= fees < 2 ^ 53 ->
  wealth p + reward_of b (books p) (acc p) + bonus_of b + fees <= U64_MAX ->
  let p' := pay_rewards b fees eulogy p in
  purse_ok p' /\ total_minted (acc p') = total_minted (acc p) + reward_of b (books p) (acc p) + bonus_of b /\
  total_burned (acc p) <= total_burned (acc p') <= total_burned (acc p) + fees /\
  wealth p' = wealth p + (total_minted (acc p') - total_minted (acc p)) + (fees - (total_burned (acc p') - total_burned (acc p))) /\
  same_frame (books p) (books p').
Proof.
  intros Hp [Hr1 Hr2 H60 Hm Hbu] Hf Hw. pose proof (bonus_nonneg b) as Hbn. unfold pay_rewards. cbv zeta. unfold reward_of in *.
  set (producer := producer_address _ _). set (alive := negb _). set (att := attesters_of _ _). set (staked := total_staked _) in *.
  pose proof (rewards_frame producer (b_epoch b) fees alive att staked p) as Hfr1.
  destruct (rewards_paid producer (b_epoch b) fees alive att staked p Hp Hr1 Hr2 Hf) as (Hok1 & _ & Em1 & Eb1 & Ew1 & _); [lia..|].
  set (p1 := (process_block_rewards_v2 _ _ _ _ _ _ p).1) in *. clearbody p1.
  destruct (bonus_paid b producer alive p1 Hok1) as ([Hok2 Ew2] & Em2 & Eb2 & Hfr2); [lia|lia|].
  set (p2 := if bool_decide _ then p1 else _) in *. clearbody p2.
  destruct (_ && _).
  2:{ split_and!; [done|lia|lia|lia|lia|by eapply same_frame_trans]. }
  destruct (stakers_ok (books p2) (po_books p2 Hok2)) as [Hst Hsum].
  destruct (distribution_neutral (stakers_of (books p2)) (b_epoch b) p2 Hok2 Hst Hsum) as ([Hok3 Ew3] & Em3 & Eb3).
  pose proof (distribution_frame (stakers_of (books p2)) (b_epoch b) p2) as Hfr3.
  split_and!; [done|lia|lia|lia|lia|]. eapply same_frame_trans; [exact Hfr1|]. by eapply same_frame_trans.
Qed.

(** *** The whole close *)

Definition burned_so_far (k : Keeper) : Z := from_option total_burned 0 (reward_accumulator k).

(** The tokens of the chain: in the books, in the refresh pool and owed to the stakers. *)
Definition node_wealth (d : InMemoryStateDB) (k : Keeper) : Z :=
  supply d + Pool.claims (Pool.credits (refresh_pool k)) + from_option pending_staker_rewards 0 (reward_accumulator k).

Record keeper_ok (d : InMemoryStateDB) (k : Keeper) : Prop := {
  ko_books : books_ok d;
  ko_pool : Pool.pool_wf (refresh_pool k);
  ko_pending : 0 <= from_option pending_staker_rewards 0 (reward_accumulator k);
  ko_wealth : node_wealth d k <= U64_MAX;
  ko_params : params_ok (demurrage_params k);
}.

(** What a block issues, what stays of its fees, and what vests. *)
Definition issued (b : Block) (d : InMemoryStateDB) (k : Keeper) : Z :=
  from_option (fun ra => reward_of b d ra + bonus_of b) 0 (reward_accumulator k).
Definition kept (fees : Z) (k k' : Keeper) : Z :=
  from_option (fun _ => fees - (burned_so_far k' - burned_so_far k)) 0 (reward_accumulator k).
Definition vesting_now (b : Block) (d : InMemoryStateDB) : Z :=
  Ledger.total (fun s => pending_release_at s (b_epoch b)) (vesting_schedules d).

Record closing_fits (b : Block) (fees : Z) (d : InMemoryStateDB) (k : Keeper) : Prop := {
  cf_fees : 0 <= fees < 2 ^ 53;
  cf_rewards : forall ra, reward_accumulator k = Some ra -> rewards_fit b fees d ra;
  cf_schedules : schedules_ok (vesting_schedules d);
  cf_room : node_wealth d k + issued b d k + fees + vesting_now b d <= U64_MAX;
}.

Lemma vesting_nonneg b d : 0 <= vesting_now b d.
Proof. apply total_nonneg. intros k s _. apply pending_nonneg. Qed.

Lemma reward_block_paid b fees d k :
  keeper_ok d k -> closing_fits b fees d k ->
  let '(d', k') := reward_block b fees d k in
  keeper_ok d' k' /\ minted_so_far k' = minted_so_far k + issued b d k /\
  burned_so_far k <= burned_so_far k' <= burned_so_far k + fees /\
  node_wealth d' k' = node_wealth d k + issued b d k + kept fees k k' /\ same_frame d d' /\
  (reward_accumulator k = None <-> reward_accumulator k' = None).
Proof.
  intros [Hb Hq Hp Hw Hpar] [Hf Hr _ Hroom]. pose proof (vesting_nonneg b d) as Hv. unfold reward_block, issued, kept, minted_so_far, burned_so_far in *.
  destruct (reward_accumulator k) as [ra|] eqn:Era; cbn [from_option] in *.
  2:{ rewrite Era. cbn [from_option]. split_and!; [by split; rewrite ?Era|lia..|done|done]. }
  set (p := {| acc := ra; books := d; pool := Some (refresh_pool k) |}).
  assert (Ewp : wealth p = node_wealth d k) by (unfold wealth, node_wealth; by rewrite Era).
  assert (Hpok : purse_ok p). { split; [done|by eexists|done|by rewrite Ewp]. }
  destruct (pay_rewards_paid b fees (eulogy_trie k) p Hpok (Hr ra eq_refl) Hf) as (Hok & Em & Eb & Ew & Hfr); [cbn [books acc p]; lia|].
  set (p' := pay_rewards b fees (eulogy_trie k) p) in *. clearbody p'. destruct (po_pool p' Hok) as (q' & Eq & Hq'). rewrite Eq.
  change (default (refresh_pool k) (Some q')) with q'. set (k' := with_money (Some (acc p')) (eulogy_trie k) q' k).
  assert (Ewn : node_wealth (books p') k' = wealth p') by (unfold wealth, node_wealth; by rewrite Eq).
  assert (Hk' : reward_accumulator k' = Some (acc p') /\ refresh_pool k' = q' /\ demurrage_params k' = demurrage_params k) by done.
  clearbody k'. destruct Hk' as (Ek & Eqk & Epk). rewrite Ek. cbn [from_option].
  assert (Hnone : Some ra = None <-> Some (acc p') = None) by done.
  cbn [acc books p] in Em, Eb, Hfr. rewrite Ewp in Ew. rewrite Ewn. split_and!; [|lia|lia|lia|cbn [acc p] in Ew; lia|done|done].
  split; [apply Hok|by rewrite Eqk|rewrite Ek; apply Hok|rewrite Ewn; apply Hok|by rewrite Epk].
Qed.

Lemma sweep_accounts_neutral e d k :
  keeper_ok d k ->
  let '(d', k', collected) := sweep_accounts e d k in
  keeper_ok d' k' /\ node_wealth d' k' = node_wealth d k /\ vesting_schedules d' = vesting_schedules d /\
  reward_accumulator k' = reward_accumulator k.
Proof.
  intros Hk. unfold sweep_accounts. destruct (last_rent_epoch d <? e); [|done]. destruct Hk as [Hb Hq Hp Hw Hpar].
  set (v0 := {| v_db := d; v_pool := refresh_pool k; v_eulogy := eulogy_trie k |}). unfold node_wealth in Hw.
  assert (Hv0 : vault_ok v0) by (split; [done|done|unfold vault_wealth; cbn; lia]).
  destruct (rent_sweep e (all_account_addresses d) v0 (hash_keys_NoDup _) Hv0) as (Hs1 & _).
  change (foldl (charge_rent e) v0 (all_account_addresses d)) with (collect_storage_rent e v0) in Hs1.
  set (v1 := collect_storage_rent e v0) in *. clearbody v1.
  pose proof (collect_demurrage_swept (demurrage_params k) (last_rent_epoch (v_db v1)) e v1 Hpar (sw_ok _ _ Hs1)) as Hs2.
  destruct (collect_demurrage _ _ _ v1) as [v2 out]. cbn [fst] in Hs2.
  pose proof (swept_trans _ _ _ Hs1 Hs2) as [Hok Ew Est Edl Esc _].
  assert (Hled : ledger 0 (v_db v2) (set_last_rent_epoch e (v_db v2))) by (apply same_view_ledger; [apply Hok|done..]).
  destruct Hled as [Hb2 Es2]. unfold node_wealth. cbn [with_money reward_accumulator refresh_pool].
  unfold vault_wealth in Ew. cbn in Ew.
  split_and!; [|lia|done|done]. split; cbn; [done|apply Hok|done|unfold node_wealth; cbn; lia|done].
Qed.

Lemma close_money b fees gas memorial d k :
  keeper_ok d k -> closing_fits b fees d k ->
  let '(d', k', collected) := close_block b fees gas memorial d k in
  keeper_ok d' k' /\ minted_so_far k' = minted_so_far k + issued b d k /\
  burned_so_far k <= burned_so_far k' <= burned_so_far k + fees /\
  node_wealth d' k' = node_wealth d k + issued b d k + kept fees k k' + vesting_now b d.
Proof.
  intros Hk Hf. unfold close_block. set (k0 := with_money (reward_accumulator k) memorial (refresh_pool k) k).
  assert (Hk0 : keeper_ok d k0) by (destruct Hk; by split). assert (Hf0 : closing_fits b fees d k0) by (destruct Hf; by split).
  change (minted_so_far k) with (minted_so_far k0). change (burned_so_far k) with (burned_so_far k0).
  change (issued b d k) with (issued b d k0). change (kept fees k) with (kept fees k0). change (node_wealth d k) with (node_wealth d k0).
  clearbody k0. clear Hk Hf. pose proof (reward_block_paid b fees d k0 Hk0 Hf0) as Hr.
  destruct (reward_block b fees d k0) as [d1 k1]. destruct Hr as (Hk1 & Em & Eb & Ew & [Hfr _] & Hacc).
  pose proof (sweep_accounts_neutral (b_epoch b) d1 k1 Hk1) as Hs. destruct (sweep_accounts _ d1 k1) as [[d2 k2] collected].
  destruct Hs as (Hk2 & Ew2 & Hsc & Hra). set (k3 := with_clocks gas k2).
  assert (Eall : minted_so_far k3 = minted_so_far k1 /\ burned_so_far k3 = burned_so_far k1 /\ kept fees k0 k3 = kept fees k0 k1).
  { unfold kept, minted_so_far, burned_so_far. change (reward_accumulator k3) with (reward_accumulator k2). by rewrite Hra. }
  destruct Eall as (-> & -> & ->). destruct Hf0 as [Hfee _ Hsch Hroom]. unfold vesting_now in *.
  assert (Hkept : kept fees k0 k1 <= fees) by (unfold kept; destruct (reward_accumulator k0); cbn; lia).
  assert (Hparts : supply d2 <= node_wealth d2 k2).
  { destruct Hk2 as [_ Hq2 Hp2 _ _]. pose proof (Pool.claims_nonneg _ (Pool.pool_wf_nonneg _ Hq2)). unfold node_wealth. lia. }
  destruct (vesting_released (b_epoch b) d2) as [[Hb3 Es3] _]; [apply Hk2|by rewrite Hsc, Hfr|rewrite Hsc, Hfr; lia|].
  rewrite Hsc, Hfr in Es3.
  assert (Ew3 : node_wealth (tick_vesting (b_epoch b) d2) k3 = node_wealth d2 k2 + Ledger.total (fun s => pending_release_at s (b_epoch b)) (vesting_schedules d)).
  { unfold node_wealth. change (refresh_pool k3) with (refresh_pool k2). change (reward_accumulator k3) with (reward_accumulator k2). lia. }
  split_and!; [|lia|lia|lia|lia]. destruct Hk2. split; [done|done|done|lia|done].
Qed.

(** The seal of a block is not money. *)
Lemma seal_ledger b d : books_ok d -> ledger 0 d (seal_state b d).1.
Proof.
  intros Hb. unfold seal_state.
  set (d1 := if 1 <=? state_root_version b then (compress_cold_subtrees d).1 else d).
  assert (Hv1 : ledger 0 d d1).
  { apply same_view_ledger; [done|..]; subst d1; destruct (1 <=? _); try done; unfold compress_cold_subtrees; by destruct (compress_cold _). }
  destruct (compute_state_root d1) as [d2 root] eqn:E.
  assert (Hv2 : books_ok d1 -> ledger 0 d1 d2).
  { intros Hb1. unfold compute_state_root in E. apply same_view_ledger; [done|..]; repeat case_match; by simplify_eq. }
  eapply ledger_0_trans; [exact Hv1|]. intros Hb1. eapply ledger_0_trans; [by apply Hv2|]. intros Hb2. cbn [fst].
  destruct (_ <? _); by apply same_view_ledger.
Qed.
End close.

(** ** The whole block *)

Section whole.
Context `{CurveJson, Blake3, Pallas, HybridVerifier, BlsKeys, HashOrder, Hex, StrDebug, F64Parse}.
Context `{!Json, !JsonTyped, !ScriptParser, !AppTemplates, !MlDsa}.
Context {C : Type} `{!ContractTemplates C}.

(** What a keeper keeps when only clocks and verdicts change. *)
Lemma keeper_ok_ext d d' k k' :
  keeper_ok d k -> ledger 0 d d' -> refresh_pool k' = refresh_pool k -> reward_accumulator k' = reward_accumulator k ->
  demurrage_params k' = demurrage_params k -> keeper_ok d' k' /\ node_wealth d' k' = node_wealth d k.
Proof.
  intros [Hb Hq Hp Hw Hpar] [Hb' Es] Eq Er Ep. unfold node_wealth in *. rewrite Eq, Er.
  split; [|lia]. split; rewrite ?Eq, ?Er, ?Ep; [done|done|done|unfold node_wealth; rewrite Eq, Er; lia|done].
Qed.

(** Everything of a block after its deferred transactions, as the books see it. *)
Lemma execute_block_close b (n : Node C) r evap swept :
  execute_block_front (b_epoch b) (transactions b) (machine_part n) = Some (r, evap, swept) ->
  is_Some (mmr_root (mmr (ex (machine_of r)))) ->
  let '(d, k, _) := close_block b (total_fees r) (gas_used r) (foldl (memorialise swept) (eulogy_trie (keeper n)) (evaporated evap))
    (db (machine_of r)) (keeper n) in
  exists n' res, execute_block b n = Some (n', res) /\ db (machine_part n') = (seal_state b d).1 /\
    refresh_pool (keeper n') = refresh_pool k /\ reward_accumulator (keeper n') = reward_accumulator k /\
    demurrage_params (keeper n') = demurrage_params k.
Proof.
  intros Hfront [root Hroot]. unfold execute_block. rewrite Hfront. cbn [mbind option_bind].
  destruct (close_block _ _ _ _ _ _) as [[d k] collected]. destruct (seal_state b d) as [d' sr]. cbv zeta. cbn [ex].
  destruct (evaluate_conservation_gate _ _) as [stored|v].
  - change (mmr (with_events [] (ex (machine_of r)))) with (mmr (ex (machine_of r))). rewrite Hroot. cbn [mbind option_bind]. by do 2 eexists.
  - by do 2 eexists.
Qed.

(** C4: the money of a whole block, to the token.  When its numbers fit their
    widths, a block returns, whether or not its audit refuses it, and the tokens
    in the books, in the refresh pool and owed to the stakers change by exactly:
    less what its transactions take out (fees, deposits, sponsored gas, slashed
    stake) and the deposits of matured creations; plus the refunds of expired
    deferred transactions, the reward and the priority bonus that are minted and
    counted as minted, the fees that are not burned, and the releases of the
    vesting schedules.  The sweep of objects, closed votes, rent, demurrage,
    staker payouts and the state root move tokens but create and lose none. *)
Theorem block_money_exact b (n : Node C) m r evap swept :
  let e := b_epoch b in
  let d := db (machine_part n) in
  let k := keeper n in
  keeper_ok d k -> Forall amounts_ok (transactions b) ->
  deferred_start e (transactions b) (machine_part n) = Some m -> queue_ok m ->
  execute_block_front e (transactions b) (machine_part n) = Some (r, evap, swept) ->
  node_wealth (db m) k + deferred_refunds e m <= U64_MAX ->
  closing_fits b (total_fees r) (db (machine_of r)) k -> is_Some (mmr_root (mmr (ex (machine_of r)))) ->
  exists n' res, execute_block b n = Some (n', res) /\
    let d' := db (machine_part n') in
    let k' := keeper n' in
    keeper_ok d' k' /\ minted_so_far k' = minted_so_far k + issued b (db (machine_of r)) k /\
    node_wealth d' k' = node_wealth d k
      - taken_by e (transactions b) (run_start (block_start e (machine_part n))) - deferred_deposits e m + deferred_refunds e m
      + issued b (db (machine_of r)) k + kept (total_fees r) k k' + vesting_now b (db (machine_of r)).
Proof.
  cbv zeta. intros Hk Htx Hm Hq Hfront Hroom Hfit Hroot.
  assert (Hclaims : supply (db m) <= node_wealth (db m) (keeper n)).
  { destruct Hk as [_ Hp Hpend _ _]. pose proof (Pool.claims_nonneg _ (Pool.pool_wf_nonneg _ Hp)). unfold node_wealth. lia. }
  destruct (front_ledger (b_epoch b) (transactions b) (machine_part n) m (ko_books _ _ Hk) Htx Hm Hq ltac:(lia))
    as (r' & evap' & Hfront' & [Hb1 E1] & _). rewrite Hfront in Hfront'. injection Hfront' as <- <- ->.
  assert (Hk1 : keeper_ok (db (machine_of r)) (keeper n)).
  { destruct Hk, Hfit as [Hf _ _ Hr]. split; [done|done|done| |done]. pose proof (vesting_nonneg b (db (machine_of r))).
    assert (0 <= issued b (db (machine_of r)) (keeper n)); [|lia]. unfold issued. pose proof (bonus_nonneg b).
    destruct (reward_accumulator _); cbn; [|lia]. unfold reward_of. lia. }
  pose proof (close_money b (total_fees r) (gas_used r)
    (foldl (memorialise (db m)) (eulogy_trie (keeper n)) (evaporated evap)) _ _ Hk1 Hfit) as Hclose.
  pose proof (execute_block_close b n r evap (db m) Hfront Hroot) as Hex.
  destruct (close_block _ _ _ _ _ _) as [[d' k'] collected]. destruct Hclose as (Hk2 & Em & Eb & Ew).
  destruct Hex as (n' & res & -> & Hdb & Hp & Hra & Hpar). exists n', res. split; [done|].
  destruct (keeper_ok_ext d' (db (machine_part n')) k' (keeper n')) as [Hok Ew']; [done| |done..|].
  { rewrite Hdb. apply seal_ledger, Hk2. }
  unfold minted_so_far, kept, burned_so_far in *. rewrite Hra. split_and!; [done|done|].
  rewrite Ew', Ew. unfold node_wealth in *. lia.
Qed.
End whole.
