(* ===== verification/BlockRuns.v ===== *)
(** * Runs of whole blocks

    Concrete blocks, rewards and sweeps that show the theorems of Rewards.v,
    Upkeep.v, Lyapunov.v and BlockMoney.v at work, and the runs in which the
    economics of the chain do what they mean to prevent. *)

From stdpp Require Import base gmap list strings sorting.
From Stdlib Require Import ZArith Lia.
From S2P Require Import Prelude Energy EnergyKernel DecayCurves Trie Mmr Validators Mempool LightClient Tendermint TendermintRuns ScriptValue ScriptVM ScriptCompiler ScriptEngine Transactions Types StateDB Lifecycle Fees Fractions Temporal Executor Governance BlockExecutor Ledger Nonces Authorisation ExecutorRuns Rewards Upkeep Lyapunov EvapProof Block BlockMoney.

Open Scope Z_scope.

(** ** A chain of three accounts *)

Module ToyBlock.

Definition at_block (n e : Z) (txs : list Transaction) (hints : list (option Z)) : Block :=
  {| number := n; b_epoch := e; b_parent_hash := []; b_state_root := []; transactions := txs; timestamp := 0;
     b_chain_id := "toy"; producer_id := Some 9; vrf_output := None; vrf_proof := None; data_root := None; da_row_roots := [];
     da_col_roots := []; blob_commitments := []; da_certificate := None; b_commit_certificate := None; nova_proof := None;
     b_anchor_hash := None; state_function_commitment := None; oracle_state_root := None; shard_count := None;
     protocol_version := 1; state_root_version := 1; submit_epoch_hints := hints; parents := [];
     post_state_root := None |}.

Definition genesis : Block := at_block 100 1 ToyExec.block [Some 90; None; Some 100].

(** Alice keeps 10 bytes, Bob has a stake, and Mallory a schedule. *)
Definition schedule : VestingSchedule :=
  {| vs_id := 4; beneficiary := ToyExec.mallory; total_amount := 100; start_epoch := 0; cliff_epochs := 0; vesting_epochs := 10;
     released_amount := 0 |}.
Definition books : InMemoryStateDB :=
  set_vesting_schedules {[ 4 := schedule ]} (modify_account (set_storage_bytes 10) ToyExec.alice staked_state).
Definition k0 : Keeper := enable_rewards tokenomics_default keeper_new.
Definition node : Node unit := mkNode (mkMachine ToyExec.executor books []) k0.

Lemma scheduled_ok v d : Ledger.books_ok d -> Ledger.books_ok (set_vesting_schedules v d).
Proof. intros Hb. by apply (same_view_ledger d). Qed.

Lemma books_ok : Ledger.books_ok books.
Proof.
  destruct (modify_quiet (set_storage_bytes 10) ToyExec.alice staked_state) as [Hb _]; [exact staked_state_ok|done| |].
  { intros x [? ? ? ?]. by split. }
  apply scheduled_ok, Hb.
Qed.

Lemma schedule_ok : schedules_ok {[ 4 := schedule ]}.
Proof. split; intros k s [<- <-]%lookup_singleton_Some; [reflexivity|]. cbn. unfold is_u64, U64_MAX. lia. Qed.

Lemma half_ok : rate_ok (F64.lit 50 100).
Proof. by vm_compute. Qed.

Lemma keeper_ok : BlockMoney.keeper_ok books k0.
Proof. split; [exact books_ok|apply map_Forall_empty|done|by vm_compute|done]. Qed.

(** The numbers of the block after its deferred transactions. *)
Definition summary (r : BlockRun (C := unit)) :=
  (total_fees r, issued genesis (db (machine_of r)) k0, vesting_now genesis (db (machine_of r)),
   reward_of genesis (db (machine_of r)) (accumulator_new tokenomics_default), node_wealth (db (machine_of r)) k0,
   vesting_schedules (db (machine_of r)), bool_decide (is_Some (mmr_root (mmr (ex (machine_of r)))))).

Lemma front_runs :
  exists r evap swept, execute_block_front 1 (transactions genesis) (machine_part node) = Some (r, evap, swept) /\
    summary r = (213800, 2, 10, 1, 2786200, {[ 4 := schedule ]}, true).
Proof.
  assert (Hs : (summary ∘ fst ∘ fst <$> execute_block_front 1 (transactions genesis) (machine_part node))
    = Some (213800, 2, 10, 1, 2786200, {[ 4 := schedule ]}, true)) by by vm_compute.
  destruct (execute_block_front _ _ _) as [[[r evap] swept]|]; [|done]. exists r, evap, swept. split; [done|].
  change (Some (summary r) = Some (213800, 2, 10, 1, 2786200, {[ 4 := schedule ]}, true)) in Hs. by apply Some_inj in Hs.
Qed.
End ToyBlock.

Lemma some_default {A} (x : A) o : is_Some o -> o = Some (default x o).
Proof. by intros [y ->]. Qed.

(** The block has a payment, a replay, an unsigned transaction, one over the
    balance and a script that does not parse; the reward and the bonus are 2
    tokens, 10 vest, and half of the fees are burned. *)
Lemma block_money_exact_witness :
  let b := ToyBlock.genesis in
  let n := ToyBlock.node in
  let m := default (machine_part n) (deferred_start 1 (transactions b) (machine_part n)) in
  exists n' res, execute_block b n = Some (n', res) /\
    minted_so_far (keeper n') = 2 /\
    node_wealth (db (machine_part n')) (keeper n') = node_wealth (db (machine_part n)) (keeper n)
      - taken_by 1 (transactions b) (run_start (block_start 1 (machine_part n))) - deferred_deposits 1 m + deferred_refunds 1 m
      + 2 + kept 213800 (keeper n) (keeper n') + 10.
Proof.
  cbv zeta.
  destruct ToyBlock.front_runs as (r & evap & swept & Ef & Hsum). unfold ToyBlock.summary in Hsum.
  injection Hsum as Hfees Hissued Hvest Hrew Hw Hsch Hroot.
  destruct (block_money_exact ToyBlock.genesis ToyBlock.node
    (default (machine_part ToyBlock.node) (deferred_start 1 (transactions ToyBlock.genesis) (machine_part ToyBlock.node))) r evap swept)
    as (n' & res & Hex & _ & Hm & Hwealth);
    [exact ToyBlock.keeper_ok|exact ToyExec.block_ok|apply some_default; apply (bool_decide_unpack _); by vm_compute| |exact Ef|by vm_compute| |by apply bool_decide_eq_true in Hroot|].
  - apply (bool_decide_unpack _). by vm_compute.
  - change (keeper ToyBlock.node) with ToyBlock.k0. rewrite Hfees. split; [lia| |rewrite Hsch; exact ToyBlock.schedule_ok|rewrite Hw, Hissued, Hvest; unfold U64_MAX; lia].
    intros ra [= <-]. split; [exact ToyBlock.half_ok|exact ToyBlock.half_ok|rewrite Hrew; unfold U64_MAX; lia|by rewrite Hrew; vm_compute|by vm_compute].
  - exists n', res. change (keeper ToyBlock.node) with ToyBlock.k0 in *. rewrite Hissued in Hm, Hwealth. rewrite Hvest, Hfees in Hwealth. split; [exact Hex|]. split; [exact Hm|exact Hwealth].
Defined.

(** ** An audit that cannot be turned on *)

(** C37: the audit of a block refuses one only when [conservation_enforcement] is a
    voted parameter; that key is not governable, so, whatever is voted, no
    block is ever refused and the verdict is only recorded. *)
Theorem enforcement_unreachable `{Blake3, Pallas, HashOrder, F64Parse} e0 db0 e d verdict :
  proposals db0 = ∅ -> governance_params db0 = ∅ -> gov_run e0 db0 e d ->
  must_enforce d = false /\ evaluate_conservation_gate verdict (must_enforce d) = Ok verdict.
Proof.
  intros Ep Eg Hr. assert (Hm : must_enforce d = false).
  { apply bool_decide_eq_false. intros Hp. destruct (gov_run_ok _ _ _ _ Ep Eg Hr) as [_ Hkey Hpar].
    destruct (Hpar _ _ Hp) as (id & p & Hin & _ & Ek & _). destruct (Hkey _ _ Hin) as [_ Hok].
    pose proof (po_key _ Hok) as Hg. rewrite Ek in Hg. by vm_compute in Hg. }
  split; [done|]. rewrite Hm. by destruct verdict as [[]|v].
Qed.

(** ** Hints *)

Definition hinted (hints : list (option Z)) (b : Block) : Block :=
  {| number := number b; b_epoch := b_epoch b; b_parent_hash := b_parent_hash b;
     b_state_root := b_state_root b; transactions := transactions b; timestamp := timestamp b;
     b_chain_id := b_chain_id b; producer_id := producer_id b; vrf_output := vrf_output b;
     vrf_proof := vrf_proof b; data_root := data_root b; da_row_roots := da_row_roots b;
     da_col_roots := da_col_roots b; blob_commitments := blob_commitments b;
     da_certificate := da_certificate b; b_commit_certificate := b_commit_certificate b; nova_proof := nova_proof b;
     b_anchor_hash := b_anchor_hash b; state_function_commitment := state_function_commitment b;
     oracle_state_root := oracle_state_root b; shard_count := shard_count b;
     protocol_version := protocol_version b; state_root_version := state_root_version b;
     submit_epoch_hints := hints; parents := parents b; post_state_root := post_state_root b |}.

Lemma fresh_bonus b j :
  Z.of_nat j * BASE_INCLUSION_ENERGY <= U64_MAX -> bonus_of (hinted (repeat (Some (number b)) j) b) = Z.of_nat j.
Proof.
  intros Hj. unfold bonus_of. cbn [hinted submit_epoch_hints number]. case_bool_decide as E; [by destruct j|]. unfold priority_sum.
  assert (Hl : (fun submit => energy_at_epoch BASE_INCLUSION_ENERGY MEV_INCLUSION_HALF_LIFE_BLOCKS (saturating_sub (number b) submit))
    <$> omap id (repeat (Some (number b)) j) = repeat BASE_INCLUSION_ENERGY j).
  { clear E Hj. induction j as [|j IH]; [done|]. cbn [repeat]. csimpl. rewrite IH. f_equal. unfold saturating_sub. rewrite Z.sub_diag.
    by vm_compute. }
  rewrite Hl. assert (Hsum : sumZ (repeat BASE_INCLUSION_ENERGY j) = Z.of_nat j * BASE_INCLUSION_ENERGY).
  { clear. induction j as [|j IH]; [done|]. unfold sumZ in *. cbn [repeat foldr]. rewrite IH. lia. }
  assert (Hpos : Forall (fun x => 0 <= x) (repeat BASE_INCLUSION_ENERGY j)) by (clear; induction j; by constructor).
  rewrite saturating_foldl_exact by (done || lia). rewrite Hsum. by rewrite Z.add_0_l, Z.div_mul.
Qed.


(** ** Witnesses *)

Definition toy_purse (pending : Z) : Purse :=
  {| acc := add_pending pending (accumulator_new tokenomics_default); books := staked_state; pool := Some Pool.new |}.

Lemma toy_purse_ok pending : 0 <= pending <= 1000 -> purse_ok (toy_purse pending).
Proof.
  intros Hp. assert (Ep : saturating_add 0 pending = pending) by (rewrite saturating_add_exact; unfold U64_MAX; lia).
  assert (Es : supply staked_state = 3000000) by by vm_compute.
  split; cbn [toy_purse books pool acc add_pending accumulator_new pending_staker_rewards].
  - exact staked_state_ok.
  - eexists. split; [done|]. apply map_Forall_empty.
  - rewrite Ep. lia.
  - unfold wealth. cbn [toy_purse books pool acc add_pending accumulator_new pending_staker_rewards claims_of from_option].
    rewrite Ep, Es. change (Pool.claims (Pool.credits Pool.new)) with 0. unfold U64_MAX. lia.
Qed.

(** Bob produces, Alice attests; 100 tokens are minted and half of the 1000
    tokens of fees is burned. *)
Lemma block_rewards_exact_witness :
  let p' := (process_block_rewards_v2 ToyExec.bob 1 1000 true [ToyExec.alice] 0 (toy_purse 0)).1 in
  purse_ok p' /\ total_minted (acc p') = 100 /\ total_burned (acc p') = 500 /\
  wealth p' = wealth (toy_purse 0) + 100 + (1000 - 500).
Proof.
  cbv zeta.
  destruct (block_rewards_exact ToyExec.bob 1 1000 true [ToyExec.alice] 0 (toy_purse 0)) as (Hok & _ & Hm & _ & Hw & _);
    [apply toy_purse_ok; lia|exact ToyBlock.half_ok|exact ToyBlock.half_ok|lia|by vm_compute|by vm_compute|by vm_compute|by vm_compute|].
  split; [exact Hok|]. split; [by vm_compute|]. split; [by vm_compute|]. by vm_compute.
Defined.

(** Two equal stakes share 101 tokens. *)
Definition even_stakes : InMemoryStateDB := (execute_validator_stake (stake_tx ToyExec.alice 600000 5 0) 3 staked_state).1.
Definition even_purse : Purse := with_books even_stakes (toy_purse 101).

Lemma even_stakes_ok : books_ok even_stakes.
Proof.
  pose proof (stake_settles (stake_tx ToyExec.alice 600000 5 0) 3 staked_state staked_state_ok) as Hs. unfold even_stakes.
  destruct (execute_validator_stake _ _ _) as [d [u|err]]; apply Hs; cbn; lia.
Qed.

Lemma staker_rewards_exact_witness :
  let p' := (distribute_staker_rewards (stakers_of even_stakes) 4 even_purse).1 in
  purse_ok p' /\ wealth p' = wealth even_purse /\ pending_staker_rewards (acc p') = 0 /\
  ToyExec.books_of (books p') = [400050; 400051; 1000000].
Proof.
  cbv zeta. destruct (staker_rewards_exact (stakers_of even_stakes) 4 even_purse) as (Hok & Hw & Hp & _).
  - split; [exact even_stakes_ok|eexists; split; [reflexivity|apply map_Forall_empty]|by vm_compute|by vm_compute].
  - apply stakers_ok, even_stakes_ok.
  - by vm_compute.
  - split; [exact Hok|]. split; [exact Hw|]. split; [exact Hp|by vm_compute].
Defined.

(** Ten bytes of Alice cost ten tokens; Mallory is charged for a balance above the
    threshold; a tenth of the schedule vests. *)
Definition toy_vault : Vault := {| v_db := ToyBlock.books; v_pool := Pool.new; v_eulogy := ∅ |}.

Lemma toy_vault_ok : vault_ok toy_vault.
Proof. split; [exact ToyBlock.books_ok|apply map_Forall_empty|by vm_compute]. Qed.

Lemma storage_rent_exact_witness :
  let v' := collect_storage_rent 1 toy_vault in
  swept toy_vault v' /\ ToyExec.books_of (v_db v') = [999990; 400000; 1000000] /\ Pool.claims (Pool.credits (v_pool v')) = 10.
Proof.
  cbv zeta. destruct (storage_rent_exact 1 toy_vault toy_vault_ok) as (Hs & _). split; [exact Hs|]. split; by vm_compute.
Defined.

Lemma demurrage_exact_witness :
  let '(v', out) := collect_demurrage demurrage_default 0 1 toy_vault in
  swept toy_vault v' /\ dm_total out = Pool.claims (Pool.credits (v_pool v')) - Pool.claims (Pool.credits (v_pool toy_vault)) /\
  ToyExec.books_of (v_db v') = [999998; 400000; 999998].
Proof.
  pose proof (demurrage_exact demurrage_default 0 1 toy_vault ltac:(by vm_compute) toy_vault_ok) as Hd.
  assert (Hb : ToyExec.books_of (v_db (collect_demurrage demurrage_default 0 1 toy_vault).1) = [999998; 400000; 999998]) by by vm_compute.
  destruct (collect_demurrage _ _ _ _) as [v' out]. destruct Hd as (Hs & _ & _ & Ht & _). split; [exact Hs|]. split; [exact Ht|exact Hb].
Defined.

Lemma vesting_exact_witness :
  ledger 10 ToyBlock.books (tick_vesting 1 ToyBlock.books) /\
  balance_of (tick_vesting 1 ToyBlock.books) ToyExec.mallory = 1000010.
Proof.
  split; [|by vm_compute]. apply (vesting_exact 1 ToyBlock.books); [exact ToyBlock.books_ok|exact ToyBlock.schedule_ok|by vm_compute].
Defined.

Lemma enforcement_unreachable_witness :
  gov_run 7 ToyGov.db 22 ToyGov.final /\ must_enforce ToyGov.final = false.
Proof.
  split; [exact voted_run|]. exact (proj1 (enforcement_unreachable 7 ToyGov.db 22 ToyGov.final (Ok tt) eq_refl eq_refl voted_run)).
Defined.


(** ** Payouts that depend on a hash map *)

(** The remainder of a payout goes to the largest stakes; equal stakes are
    taken in the iteration order of a hash map, so two nodes with the same state
    credit different accounts. *)
Theorem staker_dust_order :
  ToyExec.books_of (books (distribute_staker_rewards (stakers_of even_stakes) 4 even_purse).1) = [400050; 400051; 1000000] /\
  ToyExec.books_of (books (distribute_staker_rewards (@stakers_of backwards even_stakes) 4 even_purse).1) = [400051; 400050; 1000000].
Proof. split; by vm_compute. Qed.

(** ** A yield cap that is not one *)

Definition generous (cap : option Z) (em : option EmissionParams) : Tokenomics :=
  {| total_supply := 1000000000; block_reward := 1000; reward_half_life := 0;
     fee_burn_rate := F64.lit 50 100; staker_fee_share := F64.lit 50 100; target_staking_apy := F64.lit 5 100;
     validator_commission_default := default_commission; blocks_per_year := 1;
     max_supply_cap := cap; emission := em |}.

(** With 100 tokens staked at a target of 5 percent a year and one block a year,
    the cap allows 5 tokens.  It holds without a supply cap, but a reward that
    the supply cap clips to 10 is paid in full, and an emission schedule is not
    capped at all. *)
Theorem yield_cap_bypassed :
  let due t minted := (apy_capped_reward t (reward_due t 0 minted) 100, reward_due (patched t 0 minted 100) 0 minted) in
  due (generous None None) 0 = (5, 5) /\
  due (generous (Some 1000) None) 990 = (5, 10) /\
  due (generous None (Some provisional_default)) 0 = (5, 100).
Proof. cbv zeta. split_and!; by vm_compute. Qed.

(** ** A validator declared dead *)

Fixpoint run_blocks (l : list Block) (n : Node unit) : option (Node unit) :=
  match l with
  | [] => Some n
  | b :: l => match execute_block b n with Some (n, _) => run_blocks l n | None => None end
  end.

(** Mallory creates an object under Bob's address. *)
Definition effigy : Transaction :=
  CreateObject {| co_creator := ToyExec.mallory; co_object_id := ToyExec.bob; co_energy := 1; co_half_life := 1; co_data := [];
                  co_decay_curve := None; co_lad_mode := None; co_signature := Some [3]; co_public_key := Some [3] |}.

Definition staked_node : Node unit := mkNode (mkMachine ToyExec.executor staked_state []) ToyBlock.k0.

Definition after (l : list Block) : option (Z * Z) :=
  (fun n => (balance_of (db (machine_part n)) ToyExec.bob,
             Pool.accrued_for (refresh_pool (keeper n)) DEAD_PRODUCER_REFRESH_NAMESPACE)) <$> run_blocks l staked_node.

(** Tombstones of objects and of accounts share one key space, and the creator
    of an object chooses its identifier: once an object with the address of a
    validator evaporates, every later block pays the rewards of that validator,
    who is alive and producing, into the refresh pool. *)
Theorem producer_declared_dead :
  let blocks txs := [ToyBlock.at_block 1 3 txs []; ToyBlock.at_block 2 6 [] []; ToyBlock.at_block 3 30 [] []] in
  let later := [ToyBlock.at_block 4 30 [] []; ToyBlock.at_block 5 30 [] []] in
  after (blocks []) = Some (400003, 0) /\ after (blocks [] ++ later) = Some (400005, 0) /\
  after (blocks [effigy]) = Some (414018, 1) /\ after (blocks [effigy] ++ later) = Some (414018, 3).
Proof. cbv zeta. split_and!; by vm_compute. Qed.

(** ** A refused block that stays *)

(** Were enforcement on, the audit would refuse any block that burns part of a
    fee in the epoch of the last audit, and the refusal would come after the
    state has been changed: the error is returned with the payment made. *)
Theorem refused_block_applied :
  let d := set_governance_params {[ "conservation_enforcement"%string := "enforce"%string ]} staked_state in
  let b := ToyBlock.at_block 1 3 [ToyExec.pay ToyExec.alice ToyExec.bob 1000 0 (Some [1])] [] in
  (fun r => (ToyExec.books_of (db (machine_part r.1)), r.2)) <$> execute_block b (mkNode (mkMachine ToyExec.executor d []) ToyBlock.k0) =
    Some ([978000; 406776; 999994], Err (Kernel.DecayExceededLambda 3000001 2984776 0 0 4096)).
Proof. cbv zeta. by vm_compute. Qed.

(** ** Evaporation without a proof *)

Lemma transcript_binds_witness :
  let c := {| EvapProof.ec_object_id := repeat 1 20; EvapProof.ec_initial_energy := 1000; EvapProof.ec_half_life := 1;
              EvapProof.ec_creation_epoch := 0; EvapProof.ec_evaporation_epoch := 30; EvapProof.ec_nullifier := repeat 2 32 |} in
  (forall n cs, is_u64 n -> Forall EvapProof.claim_wf cs ->
     EvapProof.transcript_of n [] cs = EvapProof.transcript_of 7 [] [c] -> n = 7 /\ cs = [c]) /\
  EvapProof.verify_proof (EvapProof.prove (EvapProof.add_evaporation c (EvapProof.prover_new 7)).1) = Ok true.
Proof.
  cbv zeta. set (c := EvapProof.Build_EvaporationClaim _ _ _ _ _ _). split; [|by vm_compute]. intros n cs Hn Hcs E.
  assert (Hc : EvapProof.claim_wf c) by (split; vm_compute; done || (split; discriminate)).
  destruct (EvapProof.transcript_binds n 7 [] [] cs [c]) as (Hn' & _ & Hcs');
    [exact Hn|unfold is_u64, U64_MAX; lia|constructor|constructor|exact Hcs|by repeat constructor|exact E|].
  split; [exact Hn'|exact Hcs'].
Defined.

Definition young_ghost : GhostRecord :=
  {| g_object_id := repeat 5 32; g_owner := ToyExec.mallory; g_evaporated_at := 30; g_data_hash := repeat 0 32;
     g_original_data := None; g_mmr_position := None; g_original_half_life := Some 1000 |}.

Lemma young_object_unproved_witness :
  EvapProof.add_evaporation (EvapProof.claim_of (repeat 5 32) young_ghost) (EvapProof.prover_new 3) =
    (EvapProof.prover_new 3, Err EvapProof.StillHasEnergy).
Proof.
  apply (EvapProof.young_object_unproved (repeat 5 32) young_ghost (EvapProof.prover_new 3) 1000);
    [reflexivity|unfold U64_MAX; lia|cbn; unfold is_u64, U64_MAX; lia|left; cbn; lia].
Defined.

(** Mallory creates an object without energy and with a half-life of 1000. *)
Definition husk : Transaction :=
  CreateObject {| co_creator := ToyExec.mallory; co_object_id := repeat 5 32; co_energy := 0; co_half_life := 1000; co_data := [];
                  co_decay_curve := None; co_lad_mode := None; co_signature := Some [3]; co_public_key := Some [3] |}.

(** The block that evaporates it carries a proof that verifies and has no claim. *)
Theorem evaporated_without_proof :
  let before := run_blocks [ToyBlock.at_block 1 3 [husk] []; ToyBlock.at_block 2 6 [] []] staked_node in
  (n ← before;
   r ← execute_block (ToyBlock.at_block 3 30 [] []) n;
   match r.2 with
   | Ok r => Some (r_evaporated r, EvapProof.ep_evaporation_claims <$> r_evaporation_proof r, EvapProof.verify_proof <$> r_evaporation_proof r)
   | Err _ => None
   end) = Some (1, Some [], Some (Ok true)).
Proof. cbv zeta. by vm_compute. Qed.
